(* ===== verification/_CoqProject ===== *)
-Q . S2P
Prelude.v
Bits.v
SatCounter.v
Replacement.v
ReplacementSpec.v
TreePLRUSpec.v
ReplacementProperties.v
AddrRange.v
AddrRangeSpec.v
RangeMap.v
RangeMapSpec.v
NetDest.v
NetDestSpec.v
Topology.v
TopologySpec.v
DataBlocks.v
DataBlockSpec.v
Heap.v
Clocking.v
MessageBuffer.v
MessageBufferSpec.v
Routing.v
NetExample.v
RoutingSpec.v
StoreSpec.v
DeviceSpec.v
Switch.v
WiringSpec.v
SwitchSpec.v
ThrottleSpec.v
Multicast.v
Network.v
NetworkSpec.v
Controller.v
StallSpec.v
DownstreamSpec.v
MemoryPort.v
MemoryPortSpec.v
WireBuffer.v
Prefetcher.v
PrefetcherSpec.v
Resources.v
CacheEntry.v
Tables.v
TablesSpec.v
CacheMemory.v
CacheGeometry.v
CacheInv.v
CacheInit.v
CacheAlloc.v
CacheProbe.v
CacheRequests.v
CacheSystem.v
CacheProperties.v
CacheRetention.v
