(* ===== verification/Prelude.v ===== *)
(** * Verification of the STT-RAM extension of gem5's Ruby memory system

    The repository is a fork of the gem5 simulator whose Ruby caches model
    STT-RAM arrays: the sets of a cache are divided into retention zones, a line
    expires when its zone's retention time passes without a write, and pages that
    are written often are redirected to zones with cheaper writes. This library
    models the cache memory the fork changes and the parts of Ruby around it, and
    proves what the rest of the simulator relies on. Paths are below src/gem5/src.

    ** The program's parts and the files that model them

    - This file: the outcome type of C++ code, [std::vector] accesses, machine
      integers, loops, and the tactics and hints of the library.
    - Bits.v: base/bitfield.hh, base/intmath.hh and mem/ruby/common/Address.cc, the
      bit fields, logarithms and line addresses every component computes with.
    - SatCounter.v: base/sat_counter.hh, used by the page counters of the
      redirection and by BRRIP.
    - Replacement.v: mem/cache/replacement_policies, the interface as the type
      class [ReplacementPolicy] and one module per policy. ReplacementSpec.v,
      TreePLRUSpec.v and ReplacementProperties.v prove the contract a cache needs
      ([PolicyInv], [PolicyLaws]) for each of them, and what each one picks.
    - DataBlocks.v, DataBlockSpec.v: mem/ruby/common/DataBlock, WriteMask and
      SubBlock with the integer functors of base/amo.hh.
    - Heap.v: [std::push_heap] and [std::pop_heap] as an interface with laws and
      the standard library's binary heap as its instance.
    - Clocking.v: the clock edges of sim/clocked_object.hh and the wake-ups of
      mem/ruby/common/Consumer, with the part of the event queue they use.
    - MessageBuffer.v, MessageBufferSpec.v: mem/ruby/slicc_interface/Message.hh and
      mem/ruby/network/MessageBuffer, by which controllers talk to each other.
    - WireBuffer.v: mem/ruby/structures/WireBuffer, the simpler buffer over the
      same heap functions.
    - NetDest.v, NetDestSpec.v: mem/ruby/common/Set.hh, MachineID.hh and NetDest, the
      sets of machines a message goes to. What the build generates from a protocol,
      the numbers of machines of each type, is the type class [MachineTypes] with
      its laws [MachineLaws].
    - Topology.v, TopologySpec.v: mem/ruby/network/Topology, which computes shortest
      paths between the switches and the routing tables, of NetDests, of all links.
    - Routing.v: the buffers and consumers that devices reach by pointers, as a
      store, and network/simple/routing/WeightBased, which splits the destinations
      of a message among the links; RoutingSpec.v proves that. Switch.v: network/simple,
      one module each for PerfectSwitch, Throttle, Switch and SimpleNetwork (with what
      it uses of network/Network.cc). StoreSpec.v and DeviceSpec.v hold what is
      common to devices that move messages between buffers of the store; WiringSpec.v,
      SwitchSpec.v and ThrottleSpec.v prove the ports and the two wake-up handlers,
      Multicast.v that the network as built delivers. NetExample.v is a small network
      for examples. Network.v, NetworkSpec.v: the constructors of Network and
      SimpleNetwork, which number the nodes, and functional accesses to the messages
      in a network.
    - AddrRange.v, AddrRangeSpec.v: base/addr_range.hh, interleaved address ranges,
      and mem/ruby/structures/DirectoryMemory, which numbers its lines by them.
      RangeMap.v, RangeMapSpec.v: base/addr_range_map.hh, the map from ranges to
      values with its cache of iterators.
    - Controller.v: mem/ruby/slicc_interface/AbstractController, with one module for
      stalled messages and blocked addresses, proved in StallSpec.v, and one for the
      machine an address belongs to, proved in DownstreamSpec.v. MemoryPort.v,
      MemoryPortSpec.v: its queues to and from memory and the protocol of retries.
    - Tables.v, TablesSpec.v: mem/ruby/structures/TimerTable, TBETable, TBEStorage,
      PersistentTable and PerfectCacheMemory, the tables of a controller.
    - Prefetcher.v, PrefetcherSpec.v: base/circular_queue.hh and
      mem/ruby/structures/RubyPrefetcher, the stream prefetcher of a cache.
    - Resources.v: mem/ruby/structures/BankedArray and ALUFreeListArray, the
      banks and atomic units an access reserves.
    - CacheEntry.v: mem/ruby/slicc_interface/AbstractCacheEntry and the objects'
      heap; CacheMemory.v: mem/ruby/structures/CacheMemory, every operation.
      CacheGeometry.v proves the routing of an address to a set, CacheInv.v states
      the invariant, CacheInit.v, CacheAlloc.v, CacheProbe.v and CacheRequests.v
      show that the operations keep it, CacheSystem.v puts them together as runs
      of a cache, CacheProperties.v and CacheRetention.v hold the theorems.

    ** How code becomes definitions

    A C++ integer is a [Z], wrapped ([u32], [u64], ...) where an unsigned one
    wraps and checked ([chk_i32], ...) where a signed one would overflow. An
    [assert], a [panic], a [fatal], an exception and undefined behaviour are
    values of [error], so that a theorem that an operation gives [Ok] says that
    none of them happens. A class is a record with its members' names; a method
    takes the object and returns the new one with its result. Objects reached by
    pointers (cache entries, the trees of Tree-PLRU) live in an explicit store.
    [curTick()] is an argument called [now]. The random generator is a sequence
    of raw numbers. Lookups in [std::map] and [std::unordered_map] are [gmap]
    lookups. Classes SLICC generates (the payload of a message, the entries of a
    protocol) are type parameters with the few operations the code calls on them.
    Calls that leave the model (links a network is asked to make, prefetches a
    controller is asked for) are recorded in a list in the order they are made.

    Loops over an index are structural in the number of iterations left. The
    searches that need fuel (second-chance, the trees, the walks up a heap) get
    one unit per possible step; the loop of the shortest paths that runs until no
    distance changes gets more rounds than the distances of all pairs can decrease,
    as each round but the last makes one of them smaller. [EFuel] is an outcome like
    the others, so that the theorems about them, which give [Ok], include their
    termination.

    ** What the theorems show

    Caches: a run of any operations of a cache behaves as a finite map from line
    addresses to lines (refinement); the tag index agrees with a scan of the
    cache; allocation, deallocation, victim selection, retention, redirection,
    access permission, latency, transactions and destruction do what they say.
    Replacement: every policy keeps its contract; LRU implements a recency stack,
    Tree-PLRU, BRRIP and second chance pick the right victims. Messages: an
    ordered buffer is a FIFO queue, no message is lost, announced slots exist, no
    wake-up is lost. Data: write masks are sets, masked copies merge, atomic
    operations are serialised. Network: destinations are sets of machines, the
    computed distances are shortest, the links get the routing tables of shortest
    paths, and following them delivers every message. Switches: the routing unit
    serves each destination once; a wake-up of a crossbar or of a throttle never
    fails, loses no message, keeps to the bandwidth and leaves itself a wake-up for
    what is left; in the network as built every destination of a multicast gets one
    copy; the constructor numbers the nodes one to one, and functional accesses reach
    all messages. Addresses: removing and adding interleaving bits are inverse, the
    offsets of a range number its addresses, excluding ranges is a set difference, a
    directory has one entry per line, and the map of ranges is a partial function
    whatever its cache holds. Controllers: stalled messages are not forgotten, nothing
    is lost between a controller and its memory, every address has one machine, a
    timer table knows its earliest timer and wakes its
    controller, transaction slots are never handed out twice. Prefetching: a
    circular queue is a bounded queue, consecutive misses start a stream, and
    prefetches stay in their page. Resources: reservations of a bank are disjoint.
    Some theorems record where the code does something else than it says; they
    are stated of the code as it is.

    ** Not modelled

    The SLICC protocols, which the build compiles to C++; the classic caches,
    CPUs, devices, the Garnet network and the kernel of the simulator, which the
    extension neither changes nor calls; printing, tracing and the registration of
    statistics, which produce output only. *)

From stdpp Require Import prelude gmap sorting.
From Stdlib Require Import ZArith Lia.

Open Scope Z_scope.

(** ** Outcomes of C++ code

    A C++ function of the modelled sources either returns, stops in [assert],
    [panic] or [fatal], throws ([std::vector::at] out of range), or has
    undefined behaviour (a [std::vector] indexed out of range, a null or freed
    pointer dereferenced, a division by 0). A loop whose iterations are bounded
    here by a fuel argument gives [EFuel] when the fuel is not enough; the
    theorems about such loops show that it is. *)

Inductive error := EAssert | EPanic | EFatal | EThrow | EUndef | EFuel.

#[export] Instance error_eq_dec : EqDecision error.
Proof. solve_decision. Defined.

Inductive res (A : Type) :=
| Ok (a : A)
| Err (e : error).
Arguments Ok {A} a.
Arguments Err {A} e.

Definition rbind {A B} (m : res A) (f : A → res B) : res B :=
  match m with Ok a => f a | Err e => Err e end.

Definition rmap {A B} (f : A → B) (m : res A) : res B :=
  match m with Ok a => Ok (f a) | Err e => Err e end.

(** [require b e]: continue when [b] holds, stop with [e] otherwise. *)
Definition require (b : bool) (e : error) : res unit :=
  if b then Ok tt else Err e.

Definition of_option {A} (e : error) (o : option A) : res A :=
  match o with Some a => Ok a | None => Err e end.

Declare Scope res_scope.
Delimit Scope res_scope with res.

Notation "'let*' x ':=' c 'in' k" := (rbind c (fun x => k))
  (at level 10, x pattern, c at level 100, k at level 200,
   format "'[v' 'let*'  x  ':='  c  'in' '/' k ']'") : res_scope.
Notation "'assert!' b 'in' k" := (rbind (require b EAssert) (fun _ => k))
  (at level 10, b at level 100, k at level 200) : res_scope.

Open Scope res_scope.

Lemma rbind_Ok {A B} (m : res A) (f : A → res B) b :
  rbind m f = Ok b ↔ ∃ a, m = Ok a ∧ f a = Ok b.
Proof. destruct m; simpl; naive_solver. Qed.

Lemma rmap_Ok {A B} (f : A → B) (m : res A) b :
  rmap f m = Ok b ↔ ∃ a, m = Ok a ∧ b = f a.
Proof. destruct m; simpl; naive_solver. Qed.

Lemma require_Ok b e u : require b e = Ok u ↔ b = true.
Proof. destruct b, u; simpl; naive_solver. Qed.

Lemma of_option_Ok {A} e (o : option A) a : of_option e o = Ok a ↔ o = Some a.
Proof. destruct o; simpl; naive_solver. Qed.

(** ** [std::vector] indexing, by a C++ integer *)

Abbreviation zlen l := (Z.of_nat (length l)).

Definition vget {A} (l : list A) (i : Z) : res A :=
  if decide (0 ≤ i) then of_option EUndef (l !! Z.to_nat i) else Err EUndef.

Definition vset {A} (l : list A) (i : Z) (x : A) : res (list A) :=
  if decide (0 ≤ i < zlen l) then Ok (<[Z.to_nat i := x]> l) else Err EUndef.

Lemma vget_Ok {A} (l : list A) i x :
  vget l i = Ok x ↔ 0 ≤ i ∧ l !! Z.to_nat i = Some x.
Proof. unfold vget. case_decide; rewrite ?of_option_Ok; naive_solver. Qed.

Lemma vget_inbounds {A} (l : list A) i :
  0 ≤ i < zlen l → ∃ x, vget l i = Ok x ∧ l !! Z.to_nat i = Some x.
Proof.
  intros Hi. destruct (lookup_lt_is_Some_2 l (Z.to_nat i)) as [x Hx]; [lia|].
  exists x. split; [|done]. apply vget_Ok. split; [lia|done].
Qed.

Lemma vget_nat {A} (l : list A) (k : nat) x : l !! k = Some x → vget l (Z.of_nat k) = Ok x.
Proof. intros. apply vget_Ok. rewrite Nat2Z.id. split; [lia|done]. Qed.

Lemma vget_bounds {A} (l : list A) i x : vget l i = Ok x → 0 ≤ i < zlen l.
Proof. intros [? Hl%lookup_lt_Some]%vget_Ok. lia. Qed.

Lemma vset_Ok {A} (l : list A) i x l' :
  vset l i x = Ok l' ↔ 0 ≤ i < zlen l ∧ l' = <[Z.to_nat i := x]> l.
Proof. unfold vset. case_decide; naive_solver. Qed.

Lemma vset_length {A} (l : list A) i x l' :
  vset l i x = Ok l' → length l' = length l.
Proof. intros [_ ->]%vset_Ok. apply length_insert. Qed.

Lemma vget_vset_eq {A} (l : list A) i x l' :
  vset l i x = Ok l' → vget l' i = Ok x.
Proof.
  intros [Hi ->]%vset_Ok. apply vget_Ok. split; [lia|].
  apply list_lookup_insert_eq. lia.
Qed.

Lemma vget_vset_ne {A} (l : list A) i j x l' :
  vset l i x = Ok l' → i ≠ j → vget l' j = vget l j.
Proof.
  intros [Hi ->]%vset_Ok Hne. unfold vget. case_decide; [|done].
  rewrite list_lookup_insert_ne by lia. done.
Qed.

(** [std::vector::at] throws outside of the vector. *)
Definition vat {A} (l : list A) (i : Z) : res A :=
  if decide (0 ≤ i) then of_option EThrow (l !! Z.to_nat i) else Err EThrow.

Lemma vat_Ok {A} (l : list A) i x :
  vat l i = Ok x ↔ 0 ≤ i ∧ l !! Z.to_nat i = Some x.
Proof. unfold vat. case_decide; rewrite ?of_option_Ok; naive_solver. Qed.

Lemma vset_inbounds {A} (l : list A) i x :
  0 ≤ i < zlen l → vset l i x = Ok (<[Z.to_nat i := x]> l).
Proof. intros. unfold vset. by rewrite decide_True. Qed.

Lemma vset_nat {A} (l : list A) (k : nat) x :
  (k < length l)%nat → vset l (Z.of_nat k) x = Ok (<[k := x]> l).
Proof. intros. rewrite vset_inbounds by lia. by rewrite Nat2Z.id. Qed.

(** ** Counted loops

    [loop_from n i f a] runs [f i], ..., [f (i + n - 1)] on a state;
    [find_from n i f] runs a loop whose body may return early. *)

Fixpoint loop_from {A} (n : nat) (i : Z) (f : Z → A → res A) (a : A) : res A :=
  match n with
  | O => Ok a
  | S n => let* a := f i a in loop_from n (i + 1) f a
  end.

Fixpoint find_from {B} (n : nat) (i : Z) (f : Z → res (option B)) : res (option B) :=
  match n with
  | O => Ok None
  | S n =>
      let* r := f i in
      match r with Some b => Ok (Some b) | None => find_from n (i + 1) f end
  end.

Lemma loop_from_inv {A} (P : Z → A → Prop) n i f a :
  P i a →
  (∀ j a, i ≤ j < i + Z.of_nat n → P j a → ∃ a', f j a = Ok a' ∧ P (j + 1) a') →
  ∃ a', loop_from n i f a = Ok a' ∧ P (i + Z.of_nat n) a'.
Proof.
  revert i a. induction n as [|n IH]; intros i a Ha Hf.
  { exists a. split; [done|]. by rewrite Z.add_0_r. }
  destruct (Hf i a) as (a1 & E1 & H1); [lia|done|]. simpl. rewrite E1. simpl.
  destruct (IH (i + 1) a1 H1) as (a' & E & H'); [intros; apply Hf; [lia|done]|].
  exists a'. split; [done|]. by replace (i + Z.of_nat (S n)) with (i + 1 + Z.of_nat n) by lia.
Qed.

(** A search loop whose body looks at index [j] only by [g]. *)
Lemma find_from_spec {B} (f : Z → res (option B)) (g : Z → option B) n i :
  (∀ j, i ≤ j < i + Z.of_nat n → f j = Ok (g j)) →
  ∃ r, find_from n i f = Ok r ∧
    match r with
    | Some b => ∃ j, i ≤ j < i + Z.of_nat n ∧ g j = Some b ∧ ∀ k, i ≤ k < j → g k = None
    | None => ∀ j, i ≤ j < i + Z.of_nat n → g j = None
    end.
Proof.
  revert i. induction n as [|n IH]; intros i Hf.
  { exists None. split; [done|]. intros; lia. }
  simpl. rewrite Hf by lia. simpl. destruct (g i) as [b|] eqn:Eg.
  { exists (Some b). split; [done|]. exists i. split_and!; [lia|lia|done|lia]. }
  destruct (IH (i + 1)) as (r & E & Hr); [intros; apply Hf; lia|].
  exists r. split; [done|]. destruct r as [b|].
  - destruct Hr as (j & ? & ? & Hk). exists j. split_and!; [lia|lia|done|].
    intros k ?. destruct (decide (k = i)) as [->|]; [done|]. apply Hk. lia.
  - intros j ?. destruct (decide (j = i)) as [->|]; [done|]. apply Hr. lia.
Qed.

(** What a search loop returns was returned by its body at one of the indices. *)
Lemma find_from_ok {B} (f : Z → res (option B)) (Q : Z → B → Prop) n i :
  (∀ j, i ≤ j < i + Z.of_nat n → ∃ r, f j = Ok r ∧ ∀ b, r = Some b → Q j b) →
  ∃ r, find_from n i f = Ok r ∧ ∀ b, r = Some b → ∃ j, i ≤ j < i + Z.of_nat n ∧ Q j b.
Proof.
  revert i. induction n as [|n IH]; intros i Hf; [by exists None|]. simpl.
  destruct (Hf i) as (r & -> & Hr); [lia|]. simpl. destruct r as [b|].
  - exists (Some b). split; [done|]. intros b' [= <-]. exists i. split; [lia|by apply Hr].
  - destruct (IH (i + 1)) as (r & -> & Hr'); [intros; apply Hf; lia|]. exists r. split; [done|].
    intros b Hb. destruct (Hr' b Hb) as (j & ? & ?). exists j. split; [lia|done].
Qed.

(** A loop over the elements of a list. *)
Fixpoint fold_res {A B} (f : A → B → res B) (l : list A) (b : B) : res B :=
  match l with [] => Ok b | x :: l => let* b := f x b in fold_res f l b end.

Lemma loop_fold {A B} (f : A → B → res B) (g : Z → B → res B) (l : list A) i b :
  (∀ k x b, l !! k = Some x → g (i + Z.of_nat k) b = f x b) →
  loop_from (length l) i g b = fold_res f l b.
Proof.
  revert i b. induction l as [|x l IH]; intros i b Hg; [done|]. simpl.
  pose proof (Hg 0%nat x b eq_refl) as E. rewrite Z.add_0_r in E. rewrite E.
  destruct (f x b) as [b'|]; [|done]. simpl. apply IH. intros k y b1 Hk.
  rewrite <- (Hg (S k) y b1 Hk). f_equal. lia.
Qed.

Lemma loop_vget {A B} (f : A → B → res B) (l : list A) b :
  loop_from (length l) 0 (λ k b, let* x := vget l k in f x b) b = fold_res f l b.
Proof. apply loop_fold. intros k x b1 Hx. by rewrite Z.add_0_l, (vget_nat _ _ _ Hx). Qed.

Lemma loop_seqZ {B} (f : Z → B → res B) n b :
  loop_from (Z.to_nat n) 0 f b = fold_res f (seqZ 0 n) b.
Proof.
  rewrite <- (length_seqZ 0 n). apply loop_fold. intros k x b1 [-> _]%lookup_seqZ. done.
Qed.

(** A loop that replaces element [i] by [h i] of its old value. *)
Lemma loop_imap {A} (body : Z → list A → res (list A)) (h : nat → A → A) (l : list A) :
  (∀ k l1 x, length l1 = length l → l !! k = Some x → l1 !! k = Some x →
     body (Z.of_nat k) l1 = Ok (<[k := h k x]> l1)) →
  loop_from (length l) 0 body l = Ok (imap h l).
Proof.
  intros Hbody.
  destruct (loop_from_inv (λ j l1, length l1 = length l ∧ ∀ k, l1 !! k =
    if decide (Z.of_nat k < j) then h k <$> l !! k else l !! k) (length l) 0 body l)
    as (l' & E & Hl & Hlk).
  - split; [done|]. intros k. by rewrite decide_False by lia.
  - intros j l1 Hj [Hl1 Hlk]. set (k := Z.to_nat j). replace j with (Z.of_nat k) by lia.
    destruct (lookup_lt_is_Some_2 l k) as [x Hx]; [lia|].
    eexists. split.
    { apply Hbody; [done|exact Hx|]. rewrite Hlk, decide_False by lia. done. }
    rewrite length_insert. split; [done|]. intros k'.
    destruct (decide (k' = k)) as [->|Hne].
    + rewrite list_lookup_insert_eq by lia. rewrite decide_True, Hx by lia. done.
    + rewrite list_lookup_insert_ne, Hlk by done.
      repeat case_decide; done || lia.
  - rewrite E. f_equal. apply list_eq. intros k. rewrite Hlk, list_lookup_imap.
    case_decide as Hk; [done|]. rewrite lookup_ge_None_2 by lia. done.
Qed.

(** ** Lists *)

Lemma StronglySorted_reverse {A} (R : A → A → Prop) l :
  StronglySorted R l → StronglySorted (flip R) (reverse l).
Proof.
  induction 1 as [|x l Hl IH Hx]; [constructor|]. rewrite reverse_cons.
  apply StronglySorted_app_2; [|done|repeat constructor].
  intros y z Hy ->%list_elem_of_singleton. unfold flip.
  rewrite elem_of_reverse in Hy. rewrite Forall_forall in Hx. auto.
Qed.

Lemma StronglySorted_lookup {A} (R : A → A → Prop) l i j x y :
  StronglySorted R l → (i < j)%nat → l !! i = Some x → l !! j = Some y → R x y.
Proof.
  intros Hs. revert i j. induction Hs as [|z l Hl IH Hz]; intros [|i] [|j] ?; [done|done|done|done|lia| |lia|]; simpl.
  - intros [= ->] Hj%list_elem_of_lookup_2. rewrite Forall_forall in Hz. auto.
  - apply IH. lia.
Qed.

Lemma elem_of_concat {A} (x : A) ls : x ∈ concat ls ↔ ∃ l, l ∈ ls ∧ x ∈ l.
Proof. rewrite list_elem_of_In, in_concat. by setoid_rewrite <- list_elem_of_In. Qed.

Lemma filter_all {A} (P : A → Prop) `{∀ x, Decision (P x)} l : Forall P l → filter P l = l.
Proof. induction 1 as [|x l Hx _ IH]; [done|]. rewrite filter_cons_True by done. by f_equal. Qed.

(** ** Iteration over a [std::map] with integer keys: the keys in order *)

Definition keys {B} (s : gmap Z B) : list Z := merge_sort Z.le (elements (dom s)).

Lemma elem_of_keys {B} (s : gmap Z B) a : a ∈ keys s ↔ is_Some (s !! a).
Proof.
  unfold keys. by rewrite (merge_sort_Permutation Z.le), elem_of_elements, elem_of_dom.
Qed.

Lemma merge_sort_lt (l : list Z) : NoDup l → StronglySorted Z.lt (merge_sort Z.le l).
Proof.
  intros Hn. rewrite <- (merge_sort_Permutation Z.le) in Hn.
  assert (StronglySorted Z.le (merge_sort Z.le l)) as Hs.
  { apply StronglySorted_merge_sort; [intros ? ? ?; lia|intros ? ?; lia]. }
  induction Hs as [|x k Hk IH Hx]; constructor; apply NoDup_cons in Hn as [Hx' Hn]; [by apply IH|].
  rewrite Forall_forall in *. intros y Hy. specialize (Hx y Hy).
  assert (x ≠ y) by (by intros ->). lia.
Qed.

Lemma keys_sorted {B} (s : gmap Z B) : StronglySorted Z.lt (keys s).
Proof. apply merge_sort_lt, NoDup_elements. Qed.

Lemma keys_Permutation {B} (s : gmap Z B) : keys s ≡ₚ (map_to_list s).*1.
Proof.
  unfold keys. rewrite (merge_sort_Permutation Z.le). apply NoDup_Permutation.
  - apply NoDup_elements.
  - apply NoDup_fst_map_to_list.
  - intros a. rewrite elem_of_elements, elem_of_dom, list_elem_of_fmap. split.
    + intros [b Hb]. exists (a, b). split; [done|]. by apply elem_of_map_to_list.
    + intros ([a' b] & -> & Hb%elem_of_map_to_list). eauto.
Qed.

(** ** Integer widths

    [uW] and [iW] give the value a W-bit unsigned or two's complement signed
    object holds after the assignment of a mathematical integer. *)

Definition u8 (x : Z) : Z := x mod 2^8.
Definition u16 (x : Z) : Z := x mod 2^16.
Definition u32 (x : Z) : Z := x mod 2^32.
Definition u64 (x : Z) : Z := x mod 2^64.
Definition i32 (x : Z) : Z := (x + 2^31) mod 2^32 - 2^31.
Definition i64 (x : Z) : Z := (x + 2^63) mod 2^64 - 2^63.

Lemma u8_small x : 0 ≤ x < 2^8 → u8 x = x.
Proof. apply Z.mod_small. Qed.
Lemma u32_small x : 0 ≤ x < 2^32 → u32 x = x.
Proof. apply Z.mod_small. Qed.
Lemma u64_small x : 0 ≤ x < 2^64 → u64 x = x.
Proof. apply Z.mod_small. Qed.
Lemma i32_small x : -2^31 ≤ x < 2^31 → i32 x = x.
Proof. intros. unfold i32. rewrite Z.mod_small; lia. Qed.
Lemma i64_small x : -2^63 ≤ x < 2^63 → i64 x = x.
Proof. intros. unfold i64. rewrite Z.mod_small; lia. Qed.

Lemma u8_bound x : 0 ≤ u8 x < 2^8.
Proof. apply Z.mod_pos_bound. lia. Qed.
Lemma u32_bound x : 0 ≤ u32 x < 2^32.
Proof. apply Z.mod_pos_bound. lia. Qed.
Lemma u64_bound x : 0 ≤ u64 x < 2^64.
Proof. apply Z.mod_pos_bound. lia. Qed.
Lemma i32_bound x : -2^31 ≤ i32 x < 2^31.
Proof. unfold i32. pose proof (Z.mod_pos_bound (x + 2^31) (2^32)). lia. Qed.

(** A signed [int] or [long] computation that leaves its range is undefined. *)
Definition chk_i32 (x : Z) : res Z :=
  if decide (-2^31 ≤ x < 2^31) then Ok x else Err EUndef.
Definition chk_i64 (x : Z) : res Z :=
  if decide (-2^63 ≤ x < 2^63) then Ok x else Err EUndef.

Lemma chk_i32_Ok x : -2^31 ≤ x < 2^31 → chk_i32 x = Ok x.
Proof. intros. unfold chk_i32. by rewrite decide_True. Qed.

(** ** Automation *)

Create HintDb gem5.

(** Turn a hypothesis that a sequence of binds returned into the results of
    its steps. *)
Ltac inv_res :=
  repeat match goal with
  | H : Ok _ = Ok _ |- _ => injection H as H; subst
  | H : Err _ = Ok _ |- _ => discriminate H
  | H : Ok _ = Err _ |- _ => discriminate H
  | H : rbind _ _ = Ok _ |- _ =>
      let a := fresh "r" in let Ha := fresh "Hr" in
      apply rbind_Ok in H as (a & Ha & H); simpl in H
  | H : rmap _ _ = Ok _ |- _ =>
      let a := fresh "r" in let Ha := fresh "Hr" in
      apply rmap_Ok in H as (a & Ha & H)
  | H : require _ _ = Ok _ |- _ => apply require_Ok in H
  | H : of_option _ _ = Ok _ |- _ => apply of_option_Ok in H
  end.

(** The same, taking apart the pairs that steps return. *)
Ltac inv_run :=
  repeat first
    [ progress inv_res
    | match goal with H : (let '(_, _) := ?p in _) = Ok _ |- _ =>
        let a := fresh "a" in let b := fresh "b" in destruct p as [a b] eqn:?; simpl in H end ].

(** Boolean guards of the code as propositions. *)
Ltac reflect_bool :=
  repeat match goal with
  | H : (_ && _) = true |- _ => apply andb_true_iff in H as [? ?]
  | H : (_ || _) = false |- _ => apply orb_false_iff in H as [? ?]
  | H : negb _ = true |- _ => apply negb_true_iff in H
  | H : negb _ = false |- _ => apply negb_false_iff in H
  | H : (_ =? _) = true |- _ => apply Z.eqb_eq in H
  | H : (_ =? _) = false |- _ => apply Z.eqb_neq in H
  | H : (_ <? _) = true |- _ => apply Z.ltb_lt in H
  | H : (_ <? _) = false |- _ => apply Z.ltb_ge in H
  | H : (_ <=? _) = true |- _ => apply Z.leb_le in H
  | H : (_ <=? _) = false |- _ => apply Z.leb_gt in H
  | H : bool_decide _ = true |- _ => apply bool_decide_eq_true in H
  | H : bool_decide _ = false |- _ => apply bool_decide_eq_false in H
  end.
