(* ===== verification/Bits.v ===== *)
(** Bit manipulation and integer arithmetic: [src/base/bitfield.hh],
    [src/base/intmath.hh] and the line-address arithmetic of
    [src/mem/ruby/common/Address.cc], at the widths the cache code uses. *)

From stdpp Require Import prelude gmap.
From Stdlib Require Import ZArith Lia.
From S2P Require Import Prelude.

Open Scope Z_scope.

(** ** base/bitfield.hh *)

Module Bitfield.

(** [mask(nbits)]: a 64-bit mask of [nbits] ones, right justified. *)
Definition mask (nbits : Z) : Z :=
  if 64 <=? nbits then u64 (-1) else u64 (Z.shiftl 1 nbits - 1).

(** The value [bits(val, first, last)] returns once its assertion holds. *)
Definition bits_val (val first last : Z) : Z :=
  let nbits := u32 (first - last + 1) in
  Z.land (Z.shiftr val last) (mask nbits).

Definition bits (val first last : Z) : res Z :=
  assert! last <=? first in
  let* _ := require (last <? 64) EUndef in
  Ok (bits_val val first last).

Definition bit1 (val bit : Z) : res Z := bits val bit bit.

(** [~mask(last)] at 64 bits. *)
Definition not64 (x : Z) : Z := u64 (Z.lnot x).

Definition mbits (val first last : Z) : Z :=
  Z.land val (Z.land (mask (u32 (first + 1))) (not64 (mask last))).

Definition mask_range (first last : Z) : Z := mbits (u64 (-1)) first last.

(** Sign extension of an N-bit value whose high bits are clear. *)
Definition sext (N val : Z) : Z :=
  if bits_val val (N - 1) (N - 1) =? 0 then val
  else Z.lor val (not64 (mask N)).

(** Sign extension of the low N bits, whatever the high bits hold. *)
Definition szext (N val : Z) : Z :=
  if bits_val val (N - 1) (N - 1) =? 0 then Z.land val (mask N)
  else Z.lor val (not64 (mask N)).

Definition insertBits (val first last bit_val : Z) : res Z :=
  assert! last <=? first in
  let* _ := require (last <? 64) EUndef in
  let bmask := mask_range first last in
  let val := Z.land val (not64 bmask) in
  Ok (Z.lor val (Z.land (u64 (Z.shiftl bit_val last)) bmask)).

(** One halving step of the two searches below. *)
Definition msb_step (k : Z) (s : Z * Z) : Z * Z :=
  let '(msb, val) := s in
  if bits_val val (2 * k - 1) k =? 0 then (msb, val)
  else (msb + k, Z.shiftr val k).

Definition findMsbSet (val : Z) : Z :=
  if val =? 0 then 0
  else
    let '(msb, val) :=
      msb_step 2 (msb_step 4 (msb_step 8 (msb_step 16
        (msb_step 32 (0, val))))) in
    if bits_val val 1 1 =? 0 then msb else msb + 1.

Definition lsb_step (k : Z) (s : Z * Z) : Z * Z :=
  let '(lsb, val) := s in
  if bits_val val (k - 1) 0 =? 0 then (lsb + k, Z.shiftr val k)
  else (lsb, val).

Definition findLsbSetFallback (val : Z) : Z :=
  if val =? 0 then 64
  else
    let '(lsb, val) :=
      lsb_step 2 (lsb_step 4 (lsb_step 8 (lsb_step 16
        (lsb_step 32 (0, val))))) in
    if bits_val val 0 0 =? 0 then lsb + 1 else lsb.

(** [__builtin_popcountl] and [__builtin_ctzll] as the compiler defines them. *)
Definition popCount (val : Z) : Z :=
  foldr (λ i n, Z.b2z (Z.testbit val i) + n) 0 (seqZ 0 64).

Definition ctz64 (value : Z) : Z :=
  default 64 (head (filter (λ i, Z.testbit value i = true) (seqZ 0 64))).

Definition alignToPowerOfTwo (val : Z) : Z :=
  let val := u64 (val - 1) in
  let val := Z.lor val (Z.shiftr val 1) in
  let val := Z.lor val (Z.shiftr val 2) in
  let val := Z.lor val (Z.shiftr val 4) in
  let val := Z.lor val (Z.shiftr val 8) in
  let val := Z.lor val (Z.shiftr val 16) in
  let val := Z.lor val (Z.shiftr val 32) in
  u64 (val + 1).

End Bitfield.

(** ** base/intmath.hh *)

Module IntMath.
Import Bitfield.

Definition log2_step (m k : Z) (s : Z * Z) : Z * Z :=
  let '(y, ux) := s in
  if Z.land ux m =? 0 then (y, ux) else (y + k, Z.shiftr ux k).

(** [floorLog2<T>(x)] for an integral [T] of [ts] bytes. *)
Definition floorLog2 (ts x : Z) : res Z :=
  assert! 0 <? x in
  let ux := x mod 2 ^ (8 * ts) in
  let s := (0, ux) in
  let s := if 8 <=? ts then log2_step 0xffffffff00000000 32 s else s in
  let s := if 4 <=? ts then log2_step 0x00000000ffff0000 16 s else s in
  let s := if 2 <=? ts then log2_step 0x000000000000ff00 8 s else s in
  let s := log2_step 0x00000000000000f0 4 s in
  let s := log2_step 0x000000000000000c 2 s in
  let '(y, ux) := s in
  Ok (if Z.land ux 0x0000000000000002 =? 0 then y else y + 1).

Definition ceilLog2 (ts n : Z) : res Z :=
  assert! 0 <? n in
  if n =? 1 then Ok 0
  else let* l := floorLog2 ts (n - 1) in Ok (l + 1).

Definition isPowerOf2 (n : Z) : bool :=
  negb (n =? 0) && (Z.land n (n - 1) =? 0).

(** [divCeil<uint64_t>] *)
Definition divCeil (a b : Z) : res Z :=
  let* _ := require (negb (b =? 0)) EUndef in
  Ok (u64 (u64 (a + b) - 1) / b).

Definition roundUp (val align : Z) : res Z :=
  assert! isPowerOf2 align in
  let msk := u64 (align - 1) in
  Ok (Z.land (u64 (val + msk)) (not64 msk)).

Definition roundDown (val align : Z) : res Z :=
  assert! isPowerOf2 align in
  let msk := u64 (align - 1) in
  Ok (Z.land val (not64 msk)).

(** The 64x64 -> 128 bit product by 32-bit halves: [(high, low)]. *)
Definition mulUnsignedManual (val_a val_b : Z) : Z * Z :=
  let low := u64 (val_a * val_b) in
  let A := u32 (Z.shiftr val_a 32) in
  let a := u32 val_a in
  let B := u32 (Z.shiftr val_b 32) in
  let b := u32 val_b in
  let ab := u64 (a * b) in
  let Ab := u64 (A * b) in
  let aB := u64 (a * B) in
  let AB := u64 (A * B) in
  let c1 := u32 (Z.shiftr ab 32) in
  let c2 := u64 (u64 (Z.shiftr c1 1 + Z.shiftr Ab 1) + Z.shiftr aB 1) in
  let c2 := u64 (c2 + Z.shiftr (u64 (u64 (Z.land c1 1 + Z.land Ab 1)
                                     + Z.land aB 1)) 1) in
  let c2 := Z.shiftr c2 31 in
  (u64 (AB + c2), low).

End IntMath.

(** ** mem/ruby/common/Address.cc *)

Module Address.
Import Bitfield IntMath.

Definition bitSelect (addr small big : Z) : res Z :=
  assert! small <=? big in bits addr big small.

Definition maskLowOrderBits (addr number : Z) : Z := mbits addr 63 number.

Definition getOffset (addr cacheLineBits : Z) : res Z :=
  assert! cacheLineBits <? 64 in
  bitSelect addr 0 (u32 (cacheLineBits - 1)).

Definition makeLineAddress (addr cacheLineBits : Z) : res Z :=
  assert! cacheLineBits <? 64 in
  Ok (maskLowOrderBits addr cacheLineBits).

Definition makeNextStrideAddress (addr stride cacheLineBytes : Z) : res Z :=
  let* lb := floorLog2 4 cacheLineBytes in
  let* la := makeLineAddress addr lb in
  let* d := chk_i32 (cacheLineBytes * stride) in
  Ok (u64 (la + d)).

End Address.

(** ** Lemmas *)

Section BitLemmas.
Import Bitfield.

Lemma mask_ones n : 0 ≤ n → mask n = Z.ones (Z.min n 64).
Proof.
  intros Hn. unfold mask. destruct (Z.leb_spec 64 n).
  - rewrite Z.min_r by lia. reflexivity.
  - rewrite Z.min_l by lia. rewrite Z.ones_equiv, Z.shiftl_1_l.
    rewrite u64_small; [lia|].
    pose proof (Z.pow_lt_mono_r 2 n 64). pose proof (Z.pow_pos_nonneg 2 n). lia.
Qed.

Lemma bits_val_spec val first last :
  0 ≤ last ≤ first → first < 64 →
  bits_val val first last = (val / 2 ^ last) mod 2 ^ (first - last + 1).
Proof.
  intros ??. unfold bits_val. rewrite u32_small by lia.
  rewrite mask_ones, Z.min_l by lia.
  rewrite Z.land_ones, Z.shiftr_div_pow2 by lia. done.
Qed.

Lemma bits_Ok val first last :
  0 ≤ last ≤ first → first < 64 →
  bits val first last = Ok ((val / 2 ^ last) mod 2 ^ (first - last + 1)).
Proof.
  intros ??. unfold bits.
  rewrite (proj2 (Z.leb_le _ _)), (proj2 (Z.ltb_lt _ _)) by lia. simpl.
  by rewrite bits_val_spec.
Qed.

Lemma not64_testbit x i :
  0 ≤ i → Z.testbit (not64 x) i = (i <? 64) && negb (Z.testbit x i).
Proof.
  intros Hi. unfold not64, u64. destruct (Z.ltb_spec i 64).
  - rewrite Z.mod_pow2_bits_low, Z.lnot_spec by lia. done.
  - rewrite Z.mod_pow2_bits_high by lia. done.
Qed.

Lemma mask_testbit n i :
  0 ≤ n → 0 ≤ i → Z.testbit (mask n) i = (i <? Z.min n 64).
Proof. intros. rewrite mask_ones by lia. apply Z.testbit_ones_nonneg; lia. Qed.

(** [mbits] keeps exactly the bits of the range. *)
Lemma mbits_testbit val first last i :
  0 ≤ last → 0 ≤ first < 64 → 0 ≤ i →
  Z.testbit (mbits val first last) i =
    (last <=? i) && (i <=? first) && Z.testbit val i.
Proof.
  intros. unfold mbits. rewrite !Z.land_spec, not64_testbit, !mask_testbit by
    (rewrite ?u32_small; lia).
  rewrite u32_small by lia.
  destruct (Z.testbit val i); simpl; [|by rewrite andb_false_r].
  repeat match goal with |- context [?a <? ?b] => destruct (Z.ltb_spec a b) end;
  repeat match goal with |- context [?a <=? ?b] => destruct (Z.leb_spec a b) end;
  simpl; lia.
Qed.

Lemma u64_testbit x i :
  0 ≤ i → Z.testbit (u64 x) i = (i <? 64) && Z.testbit x i.
Proof.
  intros Hi. unfold u64. destruct (Z.ltb_spec i 64).
  - by rewrite Z.mod_pow2_bits_low.
  - by rewrite Z.mod_pow2_bits_high.
Qed.

Lemma testbit_high x n i : 0 ≤ x < 2 ^ n → 0 ≤ n ≤ i → Z.testbit x i = false.
Proof.
  intros Hx Hi. rewrite <- (Z.mod_small x (2 ^ n)) by done.
  apply Z.mod_pow2_bits_high. lia.
Qed.

Lemma u64_of_testbit x n :
  0 ≤ n → (∀ i, n ≤ i → Z.testbit x i = false) → 0 ≤ x < 2 ^ n.
Proof.
  intros Hn Hx. assert (x = x mod 2 ^ n) as ->.
  { apply Z.bits_inj'. intros i Hi. destruct (decide (i < n)).
    - by rewrite Z.mod_pow2_bits_low.
    - rewrite Z.mod_pow2_bits_high by lia. apply Hx. lia. }
  apply Z.mod_pos_bound. lia.
Qed.

(** Clearing the low [b] bits is rounding down to a multiple of [2^b]. *)
Lemma maskLowOrderBits_spec addr b :
  0 ≤ addr < 2 ^ 64 → 0 ≤ b < 64 →
  Address.maskLowOrderBits addr b = addr - addr mod 2 ^ b.
Proof.
  intros Ha Hb. unfold Address.maskLowOrderBits.
  replace (addr - addr mod 2 ^ b) with (Z.ldiff addr (Z.ones b)).
  - apply Z.bits_inj'. intros i Hi.
    rewrite mbits_testbit, Z.ldiff_spec, Z.testbit_ones_nonneg by lia.
    destruct (decide (i < 64)).
    + destruct (Z.leb_spec b i), (Z.leb_spec i 63), (Z.ltb_spec i b);
        simpl; rewrite ?andb_true_r, ?andb_false_r; done || lia.
    + rewrite (testbit_high addr 64) by lia. by rewrite !andb_false_r.
  - rewrite Z.ldiff_ones_r by lia. rewrite Z.shiftl_mul_pow2, Z.shiftr_div_pow2 by lia.
    pose proof (Z.div_mod addr (2 ^ b)). lia.
Qed.

Lemma msb_step_spec k msb val :
  0 < k ≤ 32 → 0 < val < 2 ^ (2 * k) →
  let '(msb', val') := msb_step k (msb, val) in
  0 < val' < 2 ^ k ∧ msb' + Z.log2 val' = msb + Z.log2 val.
Proof.
  intros Hk Hv. unfold msb_step. rewrite bits_val_spec by lia.
  replace (2 * k - 1 - k + 1) with k by lia.
  assert (0 < 2 ^ k) by (apply Z.pow_pos_nonneg; lia).
  assert (2 ^ (2 * k) = 2 ^ k * 2 ^ k) as E
    by (rewrite <- Z.pow_add_r by lia; f_equal; lia).
  assert (0 ≤ val / 2 ^ k < 2 ^ k).
  { split; [apply Z.div_pos; lia|]. apply Z.div_lt_upper_bound; lia. }
  rewrite Z.mod_small by lia. destruct (Z.eqb_spec (val / 2 ^ k) 0) as [E0|E0].
  - split; [|lia]. apply Z.div_small_iff in E0; lia.
  - rewrite Z.shiftr_div_pow2 by lia. split; [lia|].
    rewrite <- Z.shiftr_div_pow2, Z.log2_shiftr by lia.
    assert (2 ^ k ≤ val) as Hle.
    { destruct (Z.lt_ge_cases val (2 ^ k)); [|done].
      rewrite Z.div_small in E0 by lia. lia. }
    apply Z.log2_le_mono in Hle. rewrite Z.log2_pow2 in Hle by lia. lia.
Qed.

Lemma log2_step_msb_step k y ux :
  0 < k ≤ 32 → 0 ≤ ux < 2 ^ (2 * k) →
  IntMath.log2_step (Z.shiftl (Z.ones k) k) k (y, ux) = msb_step k (y, ux).
Proof.
  intros Hk Hu. unfold IntMath.log2_step, msb_step.
  enough ((Z.land ux (Z.shiftl (Z.ones k) k) =? 0) =
          (bits_val ux (2 * k - 1) k =? 0)) as -> by done.
  assert (Z.land ux (Z.shiftl (Z.ones k) k) =
          Z.shiftl (Z.land (Z.shiftr ux k) (Z.ones k)) k) as ->.
  { apply Z.bits_inj'. intros i Hi. rewrite Z.land_spec, !Z.shiftl_spec by lia.
    destruct (decide (i < k)).
    - rewrite !(Z.testbit_neg_r _ (i - k)) by lia. by rewrite andb_false_r.
    - rewrite Z.land_spec, Z.shiftr_spec by lia.
      by replace (i - k + k) with i by lia. }
  rewrite Z.land_ones, Z.shiftr_div_pow2 by lia. rewrite bits_val_spec by lia.
  replace (2 * k - 1 - k + 1) with k by lia.
  rewrite Z.shiftl_mul_pow2 by lia.
  assert (0 < 2 ^ k) by (apply Z.pow_pos_nonneg; lia).
  apply eq_true_iff_eq. rewrite !Z.eqb_eq. nia.
Qed.

Lemma log2_last ux : 0 < ux < 4 → Z.log2 ux = if ux <? 2 then 0 else 1.
Proof. intros. assert (ux = 1 ∨ ux = 2 ∨ ux = 3) as [->|[->| ->]] by lia; done. Qed.

(** What the halvings of [findLsbSetFallback] keep: [v] is the current value
    shifted back, and a bit below [k] is set. *)
Definition lsb_inv (v k : Z) (s : Z * Z) : Prop :=
  0 ≤ s.1 ∧ 0 ≤ s.2 ∧ s.2 mod 2 ^ k ≠ 0 ∧ v = s.2 * 2 ^ s.1.

Lemma lsb_step_inv v k s :
  0 < k ≤ 32 → lsb_inv v (2 * k) s → lsb_inv v k (lsb_step k s).
Proof.
  destruct s as [lsb val]. intros Hk (Hl & Hv & Hm & E). simpl in *.
  unfold lsb_step. rewrite bits_val_spec by lia.
  replace (k - 1 - 0 + 1) with k by lia. rewrite Z.div_1_r.
  assert (0 < 2 ^ k) by (apply Z.pow_pos_nonneg; lia).
  destruct (Z.eqb_spec (val mod 2 ^ k) 0) as [E0|E0]; split_and!; simpl; try done.
  - lia.
  - rewrite Z.shiftr_div_pow2 by lia. apply Z.div_pos; lia.
  - rewrite Z.shiftr_div_pow2 by lia. intros E'. apply Hm.
    replace (2 * k) with (k + k) by lia.
    rewrite Z.pow_add_r, Z.rem_mul_r by lia. lia.
  - rewrite Z.shiftr_div_pow2, Z.pow_add_r by lia.
    pose proof (Z.div_mod val (2 ^ k)). rewrite E. nia.
Qed.

(** The window of bits an OR cascade has smeared down. *)
Definition smeared (x n w : Z) : Prop :=
  ∀ i, 0 ≤ i → Z.testbit x i = true ↔ ∃ j, i ≤ j < i + w ∧ Z.testbit n j = true.

Lemma smeared_step x n w w' :
  0 < w → w' = w + w → smeared x n w → smeared (Z.lor x (Z.shiftr x w)) n w'.
Proof.
  intros Hw -> Hs i Hi. rewrite Z.lor_spec, Z.shiftr_spec, orb_true_iff by lia.
  rewrite (Hs i), (Hs (i + w)) by lia. split.
  - intros [(j & ? & ?)|(j & ? & ?)]; exists j; split; done || lia.
  - intros (j & ? & ?). destruct (decide (j < i + w)); [left|right];
      exists j; split; done || lia.
Qed.

Lemma smeared_all n x :
  0 < n < 2 ^ 64 → smeared x n 64 → x = Z.ones (Z.log2 n + 1).
Proof.
  intros Hn Hs. assert (Z.log2 n < 64) by (apply Z.log2_lt_pow2; lia).
  pose proof (Z.log2_nonneg n).
  apply Z.bits_inj'. intros i Hi. rewrite Z.testbit_ones_nonneg by lia.
  apply eq_true_iff_eq. rewrite (Hs i Hi), Z.ltb_lt. split.
  - intros (j & ? & Hj). destruct (decide (Z.log2 n < j)); [|lia].
    rewrite Z.bits_above_log2 in Hj by lia. done.
  - intros. exists (Z.log2 n). split; [lia|]. apply Z.bit_log2. lia.
Qed.

Lemma half_sum x y z :
  x / 2 + y / 2 + z / 2 + (x mod 2 + y mod 2 + z mod 2) / 2 = (x + y + z) / 2.
Proof. Z.div_mod_to_equations. lia. Qed.

(** The high word of a product from the products of its halves. *)
Lemma product_high A a B b p :
  0 < p → 0 ≤ a → 0 ≤ b →
  ((A * p + a) * (B * p + b)) / (p * p) =
    A * B + (a * b / p + A * b + a * B) / p.
Proof.
  intros. rewrite <- Z.div_div by lia.
  replace ((A * p + a) * (B * p + b))
    with (a * b + (A * B * p + A * b + a * B) * p) by ring.
  rewrite Z.div_add by lia.
  replace (a * b / p + (A * B * p + A * b + a * B))
    with (a * b / p + A * b + a * B + A * B * p) by ring.
  rewrite Z.div_add by lia. lia.
Qed.

(** The halved sums of [mulUnsignedManual] do not overflow and give the
    quotient of the exact sum. *)
Lemma mul_carry c1 Ab aB :
  0 ≤ c1 < 2 ^ 32 → 0 ≤ Ab ≤ (2 ^ 32 - 1) * (2 ^ 32 - 1) →
  0 ≤ aB ≤ (2 ^ 32 - 1) * (2 ^ 32 - 1) →
  Z.shiftr (u64 (u64 (u64 (Z.shiftr c1 1 + Z.shiftr Ab 1) + Z.shiftr aB 1)
    + Z.shiftr (u64 (u64 (Z.land c1 1 + Z.land Ab 1) + Z.land aB 1)) 1)) 31
  = (c1 + Ab + aB) / 2 ^ 32.
Proof.
  intros. change 1 with (Z.ones 1) at 4 5 6. rewrite !Z.land_ones by lia.
  rewrite !Z.shiftr_div_pow2 by lia. change (2 ^ 1) with 2.
  rewrite (u64_small (c1 / 2 + Ab / 2)) by (Z.div_mod_to_equations; lia).
  rewrite (u64_small (c1 / 2 + Ab / 2 + aB / 2)) by (Z.div_mod_to_equations; lia).
  rewrite (u64_small (c1 mod 2 + Ab mod 2)) by (Z.div_mod_to_equations; lia).
  rewrite (u64_small (c1 mod 2 + Ab mod 2 + aB mod 2)) by (Z.div_mod_to_equations; lia).
  rewrite half_sum.
  rewrite (u64_small ((c1 + Ab + aB) / 2)) by (Z.div_mod_to_equations; lia).
  rewrite Z.div_div by lia. done.
Qed.

Lemma div_range x m n : 0 < m → 0 ≤ x < m * n → 0 ≤ x / m < n.
Proof. intros. split; [apply Z.div_pos|apply Z.div_lt_upper_bound]; lia. Qed.

Lemma mul_range x y m :
  0 ≤ x < m → 0 ≤ y < m → 0 ≤ x * y ≤ (m - 1) * (m - 1).
Proof. intros. nia. Qed.

End BitLemmas.

(** ** Properties *)

Section BitProperties.
Import Bitfield IntMath Address.

(** Run one halving of [findMsbSet] or [floorLog2] and
    record what it establishes. *)
Ltac halve k :=
  match goal with
  | |- context [log2_step ?m k (?y, ?u)] =>
      change m with (Z.shiftl (Z.ones k) k);
      rewrite (log2_step_msb_step k y u) by (simpl; lia); halve k
  | |- context [msb_step k (?y, ?u)] =>
      let H := fresh "H" in
      pose proof (msb_step_spec k y u ltac:(lia) ltac:(simpl; lia)) as H;
      destruct (msb_step k (y, u)) as [? ?]; destruct H
  end.

(** [floorLog2] computes the base-2 logarithm of every positive value of
    an integral type of 1, 2, 4 or 8 bytes, by its six masked halvings. *)
Theorem floorLog2_log2 ts x :
  ts ∈ [1; 2; 4; 8] → 0 < x < 2 ^ (8 * ts) → floorLog2 ts x = Ok (Z.log2 x).
Proof.
  intros Hts Hx. unfold floorLog2. rewrite (proj2 (Z.ltb_lt 0 x)) by lia.
  unfold rbind, require. cbv zeta.
  rewrite Z.mod_small by lia.
  assert (∀ y ux, 0 < ux < 2 ^ 2 → y + Z.log2 ux = Z.log2 x →
    (if Z.land ux 2 =? 0 then y else y + 1) = Z.log2 x) as Hlast.
  { intros y ux ? <-. assert (ux = 1 ∨ ux = 2 ∨ ux = 3) as [->|[->| ->]] by lia;
      simpl; lia. }
  repeat (apply elem_of_cons in Hts as [->|Hts]); [..|set_solver].
  all: repeat match goal with |- context [if ?b <=? ?c then _ else _] =>
         let v := eval compute in (b <=? c) in change (b <=? c) with v end; cbv iota.
  all: try halve 32. all: try halve 16. all: try halve 8.
  all: halve 4; halve 2; f_equal; apply Hlast; lia.
Qed.

(** [findMsbSet] is the position of the most significant set bit. *)
Theorem findMsbSet_log2 val : 0 < val < 2 ^ 64 → findMsbSet val = Z.log2 val.
Proof.
  intros Hv. unfold findMsbSet. rewrite (proj2 (Z.eqb_neq val 0)) by lia.
  halve 32. halve 16. halve 8. halve 4. halve 2.
  match goal with H : 0 < ?z < 2 ^ 2 |- _ =>
    assert (z = 1 ∨ z = 2 ∨ z = 3) as [->|[->| ->]] by lia end; simpl in *; lia.
Qed.

(** [findLsbSetFallback] is the position of the least significant set bit:
    the value is an odd number shifted left by it. *)
Theorem findLsbSetFallback_spec val :
  0 < val < 2 ^ 64 →
  ∃ m, 0 ≤ m ∧ 0 ≤ findLsbSetFallback val ∧
       val = (2 * m + 1) * 2 ^ findLsbSetFallback val.
Proof.
  intros Hv. unfold findLsbSetFallback. rewrite (proj2 (Z.eqb_neq val 0)) by lia.
  assert (lsb_inv val 2 (lsb_step 2 (lsb_step 4 (lsb_step 8 (lsb_step 16
            (lsb_step 32 (0, val))))))) as H.
  { do 5 (apply (lsb_step_inv val); [lia|]).
    split_and!; simpl; [lia..| |lia]. rewrite Z.mod_small; lia. }
  destruct (lsb_step 2 _) as [lsb w]. destruct H as (Hl & Hw & Hm & ->); simpl in *.
  rewrite bits_val_spec by lia. change (2 ^ (0 - 0 + 1)) with 2. rewrite Z.div_1_r.
  destruct (Z.eqb_spec (w mod 2) 0).
  - exists (w / 2 / 2). rewrite Z.pow_add_r by lia. split_and!; [|lia|].
    + Z.div_mod_to_equations; lia.
    + assert (w = 2 * (2 * (w / 2 / 2) + 1)) as Ew by (Z.div_mod_to_equations; lia).
      rewrite Ew at 1. lia.
  - exists (w / 2). split_and!; [Z.div_mod_to_equations; lia|lia|].
    f_equal. Z.div_mod_to_equations; lia.
Qed.

(** The 128-bit product of [mulUnsignedManual]: its carry computation loses
    nothing, for every pair of 64-bit operands. *)
Theorem mulUnsignedManual_product a b :
  0 ≤ a < 2 ^ 64 → 0 ≤ b < 2 ^ 64 →
  let '(high, low) := mulUnsignedManual a b in
  high * 2 ^ 64 + low = a * b ∧ 0 ≤ high < 2 ^ 64 ∧ 0 ≤ low < 2 ^ 64.
Proof.
  intros Ha Hb. unfold mulUnsignedManual. set (p := 2 ^ 32) in *.
  assert (p * p = 2 ^ 64 ∧ p = 4294967296) as [Hpp Hpv] by done.
  rewrite (Z.shiftr_div_pow2 a), (Z.shiftr_div_pow2 b) by lia. fold p.
  assert (0 ≤ a / p < p) as HA by (apply div_range; lia).
  assert (0 ≤ b / p < p) as HB by (apply div_range; lia).
  rewrite (u32_small (a / p)), (u32_small (b / p)) by lia.
  pose proof (Z.div_mod a p ltac:(lia)) as Ea.
  pose proof (Z.div_mod b p ltac:(lia)) as Eb.
  pose proof (Z.mod_pos_bound a p ltac:(lia)) as Ba.
  pose proof (Z.mod_pos_bound b p ltac:(lia)) as Bb.
  change (u32 a) with (a mod p). change (u32 b) with (b mod p).
  set (A := a / p) in *. set (a0 := a mod p) in *.
  set (B := b / p) in *. set (b0 := b mod p) in *.
  pose proof (mul_range a0 b0 p Ba Bb) as R1. pose proof (mul_range A b0 p HA Bb) as R2.
  pose proof (mul_range a0 B p Ba HB) as R3. pose proof (mul_range A B p HA HB) as R4.
  pose proof (mul_range a b (2 ^ 64) Ha Hb) as R5.
  assert (a * b / 2 ^ 64 = A * B + (a0 * b0 / p + A * b0 + a0 * B) / p) as Eh.
  { rewrite <- Hpp, Ea, Eb by lia.
    rewrite (Z.mul_comm p A), (Z.mul_comm p B). apply product_high; lia. }
  clear Ea Eb. rewrite (u64_small (a0 * b0)), (u64_small (A * b0)),
    (u64_small (a0 * B)), (u64_small (A * B)) by lia.
  assert (0 ≤ a0 * b0 / p < p) as Hc by (apply div_range; lia).
  rewrite (Z.shiftr_div_pow2 (a0 * b0)), u32_small by (fold p; lia). fold p.
  rewrite mul_carry by (fold p; lia). fold p. rewrite <- Eh.
  assert (0 ≤ a * b / 2 ^ 64 < 2 ^ 64) as Hh by (apply div_range; lia).
  rewrite (u64_small (a * b / _)) by lia.
  split_and!; [|lia..|apply u64_bound|apply u64_bound].
  unfold u64. pose proof (Z.div_mod (a * b) (2 ^ 64)). lia.
Qed.

Lemma mulUnsignedManual_product_witness :
  let '(high, low) := mulUnsignedManual (2 ^ 64 - 1) (2 ^ 63 + 5) in
  high * 2 ^ 64 + low = (2 ^ 64 - 1) * (2 ^ 63 + 5) ∧ 0 ≤ high < 2 ^ 64 ∧ 0 ≤ low < 2 ^ 64.
Proof. apply mulUnsignedManual_product; lia. Defined.

(** [alignToPowerOfTwo] is the least power of two that is not below its
    argument, up to the largest 64-bit power of two. *)
Theorem alignToPowerOfTwo_spec val :
  0 < val ≤ 2 ^ 63 → alignToPowerOfTwo val = 2 ^ Z.log2_up val.
Proof.
  intros Hv. unfold alignToPowerOfTwo. rewrite (u64_small (val - 1)) by lia.
  destruct (decide (val = 1)) as [->|Hne]; [done|].
  assert (smeared (val - 1) (val - 1) 1) as Hs.
  { intros i Hi. split; [intros; exists i; split; [lia|done]|].
    intros (j & ? & ?). by replace i with j by lia. }
  apply (smeared_step _ _ 1 2), (smeared_step _ _ 2 4), (smeared_step _ _ 4 8),
    (smeared_step _ _ 8 16), (smeared_step _ _ 16 32), (smeared_step _ _ 32 64),
    smeared_all in Hs; [|lia..]. rewrite Hs, Z.ones_equiv.
  rewrite Z.log2_up_eqn by lia.
  assert (Z.log2 (Z.pred val) < 63) by (apply Z.log2_lt_pow2; lia).
  pose proof (Z.log2_nonneg (Z.pred val)).
  replace (val - 1) with (Z.pred val) by lia. rewrite <- Z.add_1_r.
  pose proof (Z.pow_le_mono_r 2 (Z.log2 (Z.pred val) + 1) 63).
  pose proof (Z.pow_pos_nonneg 2 (Z.log2 (Z.pred val) + 1)).
  rewrite u64_small by lia. lia.
Qed.

Lemma isPowerOf2_pow k : 0 ≤ k → isPowerOf2 (2 ^ k) = true.
Proof.
  intros. unfold isPowerOf2. assert (0 < 2 ^ k) by (apply Z.pow_pos_nonneg; lia).
  rewrite (proj2 (Z.eqb_neq _ _)) by lia. simpl.
  replace (2 ^ k - 1) with (Z.ones k) by (rewrite Z.ones_equiv; lia).
  rewrite Z.land_ones by lia. by rewrite Z.mod_same by lia.
Qed.

Lemma land_not64_low x k :
  0 ≤ k < 64 → 0 ≤ x < 2 ^ 64 → Z.land x (not64 (2 ^ k - 1)) = x - x mod 2 ^ k.
Proof.
  intros. rewrite <- maskLowOrderBits_spec by lia. unfold maskLowOrderBits.
  apply Z.bits_inj'. intros i Hi. rewrite mbits_testbit, Z.land_spec by lia.
  rewrite not64_testbit by lia.
  replace (2 ^ k - 1) with (Z.ones k) by (rewrite Z.ones_equiv; lia).
  rewrite Z.testbit_ones_nonneg by lia.
  destruct (Z.testbit x i), (Z.ltb_spec i 64), (Z.ltb_spec i k),
    (Z.leb_spec k i), (Z.leb_spec i 63); simpl; done || lia.
Qed.

Lemma divCeil_spec x k :
  0 ≤ x → 0 < k → x + k < 2 ^ 64 → ∃ n, divCeil x k = Ok n ∧ (n - 1) * k < x ≤ n * k.
Proof.
  intros Hx Hk Hov. unfold divCeil. rewrite (proj2 (Z.eqb_neq k 0)) by lia.
  cbn [rbind require negb]. rewrite (u64_small (x + k)), u64_small by lia.
  eexists. split; [done|]. pose proof (Z.div_mod (x + k - 1) k).
  pose proof (Z.mod_pos_bound (x + k - 1) k). nia.
Qed.

(** [roundUp] gives the least multiple of a power-of-two alignment that is
    not below the value and [roundDown] the greatest that is not above it. *)
Theorem round_spec val k :
  0 ≤ k < 64 → 0 ≤ val → val + (2 ^ k - 1) < 2 ^ 64 →
  roundDown val (2 ^ k) = Ok (val - val mod 2 ^ k) ∧
  ∃ r, roundUp val (2 ^ k) = Ok r ∧ (2 ^ k | r) ∧ val ≤ r < val + 2 ^ k.
Proof.
  intros Hk Hv Hov. assert (0 < 2 ^ k) by (apply Z.pow_pos_nonneg; lia).
  unfold roundDown, roundUp. rewrite isPowerOf2_pow by lia. simpl.
  rewrite (u64_small (2 ^ k - 1)), (u64_small (val + (2 ^ k - 1))) by lia.
  rewrite !land_not64_low by lia. split; [done|]. eexists. split; [done|].
  set (w := val + (2 ^ k - 1)). pose proof (Z.div_mod w (2 ^ k)).
  pose proof (Z.mod_pos_bound w (2 ^ k)). split; [|lia].
  exists (w / 2 ^ k). lia.
Qed.

(** A line address is the address rounded down to the line size, and
    taking the line address of a line address changes nothing. *)
Theorem makeLineAddress_spec addr b :
  0 ≤ addr < 2 ^ 64 → 0 ≤ b < 64 →
  makeLineAddress addr b = Ok (addr - addr mod 2 ^ b) ∧
  makeLineAddress (addr - addr mod 2 ^ b) b = Ok (addr - addr mod 2 ^ b).
Proof.
  intros Ha Hb. unfold makeLineAddress. rewrite (proj2 (Z.ltb_lt b 64)) by lia.
  assert (0 < 2 ^ b) by (apply Z.pow_pos_nonneg; lia).
  pose proof (Z.mod_pos_bound addr (2 ^ b)). pose proof (Z.mod_le addr (2 ^ b)).
  simpl. rewrite !maskLowOrderBits_spec by lia. split; [done|].
  f_equal. rewrite Zminus_mod_idemp_r, Z.sub_diag, Z.mod_0_l by lia. lia.
Qed.

(** The bits of the field come from the value written, the others stay. *)
Lemma insertBits_testbit val first last b v' :
  0 ≤ last ≤ first → first < 64 → 0 ≤ val < 2 ^ 64 → insertBits val first last b = Ok v' →
  ∀ i, 0 ≤ i → Z.testbit v' i =
    if (last <=? i) && (i <=? first) then Z.testbit b (i - last) else Z.testbit val i.
Proof.
  intros Hl Hf Hv. unfold insertBits.
  rewrite (proj2 (Z.leb_le _ _)), (proj2 (Z.ltb_lt _ _)) by lia. simpl.
  intros [= <-] i Hi. unfold mask_range.
  rewrite Z.lor_spec, !Z.land_spec, not64_testbit, mbits_testbit, !u64_testbit,
    Z.bits_m1, Z.shiftl_spec by lia.
  destruct (Z.leb_spec last i), (Z.leb_spec i first), (Z.ltb_spec i 64); simpl;
    rewrite ?andb_false_r, ?andb_true_r, ?orb_false_r; try done; try lia.
  all: by rewrite (testbit_high val 64) by lia.
Qed.

(** The position of the lowest bit set. *)
Lemma ctz64_spec v : 0 < v < 2 ^ 64 →
  0 ≤ ctz64 v < 64 ∧ Z.testbit v (ctz64 v) = true ∧ ∀ k, k < ctz64 v → Z.testbit v k = false.
Proof.
  intros Hv. unfold ctz64. assert (∀ n i, 0 ≤ i → (∀ k, 0 ≤ k < i → Z.testbit v k = false) →
    (∃ k, i ≤ k < i + Z.of_nat n ∧ Z.testbit v k = true) →
    let r := default 64 (head (filter (λ i, Z.testbit v i = true) (seqZ i (Z.of_nat n)))) in
    i ≤ r < i + Z.of_nat n ∧ Z.testbit v r = true ∧ ∀ k, 0 ≤ k < r → Z.testbit v k = false) as Hgen.
  { induction n as [|n IH]; intros i Hi Hlow (k & Hk & Ek); [lia|].
    rewrite seqZ_cons by lia. replace (Z.pred (Z.of_nat (S n))) with (Z.of_nat n) by lia.
    rewrite filter_cons. case_decide as Ei; simpl; [split_and!; (done || lia)|].
    apply not_true_is_false in Ei. destruct (IH (Z.succ i)) as (? & ? & ?); [lia| | |].
    - intros j Hj. destruct (decide (j = i)) as [->|]; [done|]. apply Hlow. lia.
    - exists k. destruct (decide (k = i)) as [->|]; [congruence|]. split; [lia|done].
    - split_and!; (done || lia). }
  destruct (Hgen 64%nat 0) as (? & ? & Hk); [lia|lia| |].
  - exists (Z.log2 v). split; [|apply Z.bit_log2; lia].
    pose proof (Z.log2_nonneg v). assert (Z.log2 v < 64) by (apply Z.log2_lt_pow2; lia). lia.
  - change (Z.of_nat 64) with 64 in *. split; [lia|]. split; [done|]. intros k ?. destruct (decide (0 ≤ k)); [apply Hk; lia|].
    by rewrite Z.testbit_neg_r by lia.
Qed.

(** The parity of a word is determined by its bits one at a time: two words that
    agree but for one bit and have the same parity agree there as well. *)
Lemma popCount_split x p : 0 ≤ p < 64 →
  popCount x = foldr (λ i n, Z.b2z (Z.testbit x i) + n) 0 (seqZ 0 p) + Z.b2z (Z.testbit x p) +
               foldr (λ i n, Z.b2z (Z.testbit x i) + n) 0 (seqZ (p + 1) (63 - p)).
Proof.
  intros Hp. unfold popCount. replace 64 with (p + (64 - p)) at 1 by lia.
  rewrite seqZ_app by lia. rewrite (seqZ_cons (0 + p)) by lia.
  replace (Z.succ (0 + p)) with (p + 1) by lia. replace (Z.pred (64 - p)) with (63 - p) by lia.
  rewrite Z.add_0_l. generalize (seqZ 0 p). intros l. rewrite foldr_app. simpl.
  induction l as [|i l IH]; simpl; lia.
Qed.

Lemma popCount_agree x y p : 0 ≤ p < 64 →
  (∀ k, 0 ≤ k < 64 → k ≠ p → Z.testbit x k = Z.testbit y k) →
  popCount x + Z.b2z (Z.testbit y p) = popCount y + Z.b2z (Z.testbit x p).
Proof.
  intros Hp Hag. rewrite (popCount_split x p), (popCount_split y p) by done.
  assert (∀ l, (∀ k, k ∈ l → 0 ≤ k < 64 ∧ k ≠ p) →
    foldr (λ i n, Z.b2z (Z.testbit x i) + n) 0 l = foldr (λ i n, Z.b2z (Z.testbit y i) + n) 0 l) as Hl.
  { induction l as [|k l IH]; intros Hk; [done|]. simpl.
    destruct (Hk k) as [? ?]; [set_solver|]. rewrite Hag by done. rewrite IH; [done|]. set_solver. }
  rewrite (Hl (seqZ 0 p)), (Hl (seqZ (p + 1) (63 - p)))
    by (intros k Hk; apply elem_of_seqZ in Hk; lia). lia.
Qed.

Lemma popCount_parity x y p : 0 ≤ p < 64 →
  (∀ k, 0 ≤ k < 64 → k ≠ p → Z.testbit x k = Z.testbit y k) →
  popCount x mod 2 = popCount y mod 2 → Z.testbit x p = Z.testbit y p.
Proof.
  intros Hp Hag Hpar. pose proof (popCount_agree x y p Hp Hag).
  destruct (Z.testbit x p), (Z.testbit y p); try done; simpl in *;
    exfalso; Z.div_mod_to_equations; lia.
Qed.

(** Reading back the field [insertBits] wrote gives the low bits of the
    value written, and every bit outside the field is unchanged. *)
Theorem insertBits_bits val first last b v' :
  0 ≤ last ≤ first → first < 64 → 0 ≤ val < 2 ^ 64 → 0 ≤ b →
  insertBits val first last b = Ok v' →
  bits v' first last = Ok (b mod 2 ^ (first - last + 1)) ∧
  ∀ i, 0 ≤ i → i < last ∨ first < i → Z.testbit v' i = Z.testbit val i.
Proof.
  intros Hl Hf Hv Hb E. pose proof (insertBits_testbit val first last b v' Hl Hf Hv E) as Hbit.
  split.
  - rewrite bits_Ok by lia. f_equal. apply Z.bits_inj'. intros i Hi.
    destruct (decide (i < first - last + 1)).
    + rewrite !Z.mod_pow2_bits_low, Z.div_pow2_bits, Hbit by lia.
      rewrite (proj2 (Z.leb_le _ _)), (proj2 (Z.leb_le _ _)) by lia. simpl.
      f_equal. lia.
    + rewrite !Z.mod_pow2_bits_high by lia. done.
  - intros i Hi [?|?]; rewrite Hbit by lia.
    + by rewrite (proj2 (Z.leb_gt _ _)) by lia.
    + by rewrite (proj2 (Z.leb_gt i first)), andb_false_r by lia.
Qed.

Lemma insertBits_bits_witness :
  bits 0xFF5AF 11 4 = Ok (0x35A mod 2 ^ (11 - 4 + 1)) ∧
  ∀ i, 0 ≤ i → i < 4 ∨ 11 < i → Z.testbit 0xFF5AF i = Z.testbit 0xFFFFF i.
Proof. apply (insertBits_bits 0xFFFFF 11 4 0x35A); [lia..|by vm_compute]. Defined.

End BitProperties.
