(* ===== verification/SatCounter.v ===== *)
(** Saturating counters: [GenericSatCounter<T>] of [src/base/sat_counter.hh].
    [w] is the width of the container type [T] in bits. *)

From stdpp Require Import prelude.
From Stdlib Require Import ZArith Lia.
From S2P Require Import Prelude.

Open Scope Z_scope.

Record SatCounter := mkSat { initialVal : Z; maxVal : Z; counter : Z }.

#[export] Instance SatCounter_eq_dec : EqDecision SatCounter.
Proof. solve_decision. Defined.

(** The constructor [GenericSatCounter(bits, initial_val)]. *)
Definition newSat (w bits initial_val : Z) : res SatCounter :=
  let* _ := require (bits <? 64) EUndef in
  let max := u64 (Z.shiftl 1 bits - 1) mod 2 ^ w in
  let* _ := require (negb (w <? bits)) EFatal in
  let* _ := require (negb (max <? initial_val)) EFatal in
  Ok (mkSat initial_val max initial_val).

Definition set_counter (c : SatCounter) (v : Z) : SatCounter :=
  mkSat (initialVal c) (maxVal c) v.

(** [swap]: the pair (this, other) afterwards. *)
Definition sat_swap (this other : SatCounter) : SatCounter * SatCounter :=
  (other, this).

(** Copy assignment goes through a temporary copy and [swap]. *)
Definition sat_copy_assign (this other : SatCounter) : SatCounter * SatCounter :=
  let temp := other in
  let '(this', temp') := sat_swap this temp in
  (this', other).

(** Move assignment leaves a 0-bit counter behind in [other]. *)
Definition sat_move_assign (w : Z) (this other : SatCounter)
    : res (SatCounter * SatCounter) :=
  let this' := mkSat (initialVal other) (maxVal other) (counter other) in
  let* temp := newSat w 0 0 in
  let '(other', temp') := sat_swap other temp in
  Ok (this', other').

Definition sat_inc (c : SatCounter) : SatCounter :=
  if counter c <? maxVal c then set_counter c (counter c + 1) else c.

(** Post-increment: the old value and the counter afterwards. *)
Definition sat_post_inc (c : SatCounter) : SatCounter * SatCounter :=
  (c, sat_inc c).

Definition sat_dec (c : SatCounter) : SatCounter :=
  if 0 <? counter c then set_counter c (counter c - 1) else c.

Definition sat_post_dec (c : SatCounter) : SatCounter * SatCounter :=
  (c, sat_dec c).

(** The width at which [counter << shift] is computed: integral promotion
    makes it [int] for the narrow containers. *)
Definition shift_width (w : Z) : Z := Z.max 32 w.

Definition sat_shr (w : Z) (c : SatCounter) (shift : Z) : res SatCounter :=
  assert! 0 <=? shift in
  let* _ := require (shift <? shift_width w) EUndef in
  Ok (set_counter c (Z.shiftr (counter c) shift)).

Definition sat_shl (w : Z) (c : SatCounter) (shift : Z) : res SatCounter :=
  assert! 0 <=? shift in
  let* _ := require (shift <? shift_width w) EUndef in
  let v := (Z.shiftl (counter c) shift) mod 2 ^ w in
  Ok (set_counter c (if maxVal c <? v then maxVal c else v)).

(** [operator+=] and [operator-=] call each other on a negative operand; the
    callee then takes its first branch. *)
Definition sat_add_nonneg (c : SatCounter) (value : Z) : SatCounter :=
  if value <=? maxVal c - counter c then set_counter c (counter c + value)
  else set_counter c (maxVal c).

Definition sat_sub_nonneg (c : SatCounter) (value : Z) : SatCounter :=
  if value <? counter c then set_counter c (counter c - value)
  else set_counter c 0.

Definition sat_add (c : SatCounter) (value : Z) : SatCounter :=
  if 0 <=? value then sat_add_nonneg c value else sat_sub_nonneg c (- value).

Definition sat_sub (c : SatCounter) (value : Z) : SatCounter :=
  if 0 <=? value then sat_sub_nonneg c value else sat_add_nonneg c (- value).

Definition sat_reset (c : SatCounter) : SatCounter :=
  set_counter c (initialVal c).

Definition isSaturated (c : SatCounter) : bool := counter c =? maxVal c.

(** [saturate()] returns what it added. *)
Definition sat_saturate (c : SatCounter) : Z * SatCounter :=
  (maxVal c - counter c, set_counter c (maxVal c)).

(** ** Lemmas *)

(** The counter stays within its range, which fits the container. *)
Definition sat_wf (w : Z) (c : SatCounter) : Prop :=
  0 ≤ counter c ≤ maxVal c ∧ 0 ≤ initialVal c ≤ maxVal c ∧ maxVal c < 2 ^ w.

Lemma newSat_Ok w bits v :
  0 ≤ bits ≤ w → bits < 64 → 0 ≤ v < 2 ^ bits →
  newSat w bits v = Ok (mkSat v (2 ^ bits - 1) v).
Proof.
  intros Hb H64 Hv. unfold newSat. rewrite (proj2 (Z.ltb_lt _ _)) by lia. simpl.
  rewrite Z.shiftl_1_l. pose proof (Z.pow_lt_mono_r 2 bits 64).
  pose proof (Z.pow_le_mono_r 2 bits w).
  rewrite u64_small, Z.mod_small by lia.
  rewrite !(proj2 (Z.ltb_ge _ _)) by lia. done.
Qed.

Lemma newSat_wf w bits v c :
  0 ≤ bits → 0 ≤ v → newSat w bits v = Ok c → sat_wf w c.
Proof.
  intros Hb Hv H. unfold newSat in H. inv_res. reflect_bool.
  pose proof (Z.mod_pos_bound (u64 (1 ≪ bits - 1)) (2 ^ w)).
  assert (0 < 2 ^ w) by (apply Z.pow_pos_nonneg; lia).
  split_and!; simpl; lia.
Qed.

Lemma sat_add_counter w c v :
  sat_wf w c → counter (sat_add c v) = Z.max 0 (Z.min (maxVal c) (counter c + v)).
Proof.
  intros (? & ? & ?). unfold sat_add, sat_add_nonneg, sat_sub_nonneg.
  repeat case_match; reflect_bool; simpl; lia.
Qed.

Lemma sat_sub_counter w c v :
  sat_wf w c → counter (sat_sub c v) = Z.max 0 (Z.min (maxVal c) (counter c - v)).
Proof.
  intros (? & ? & ?). unfold sat_sub, sat_add_nonneg, sat_sub_nonneg.
  repeat case_match; reflect_bool; simpl; lia.
Qed.

Lemma sat_inc_counter c : counter c ≤ maxVal c →
  counter (sat_inc c) = Z.min (maxVal c) (counter c + 1).
Proof. intros. unfold sat_inc. case_match; reflect_bool; simpl; lia. Qed.

Lemma sat_inc_maxVal c : maxVal (sat_inc c) = maxVal c.
Proof. unfold sat_inc. by case_match. Qed.

Lemma sat_inc_wf w c : sat_wf w c → sat_wf w (sat_inc c).
Proof.
  intros (? & ? & ?). unfold sat_wf, sat_inc.
  case_match; reflect_bool; simpl; lia.
Qed.

#[export] Hint Resolve sat_inc_wf : gem5.

(** ** Properties *)

(** The operations of a counter, as a client drives it. *)
Inductive sat_op :=
| OpInc | OpDec | OpShr (s : Z) | OpShl (s : Z) | OpAdd (v : Z) | OpSub (v : Z)
| OpReset | OpSaturate.

Definition sat_exec (w : Z) (c : SatCounter) (op : sat_op) : res SatCounter :=
  match op with
  | OpInc => Ok (sat_inc c)
  | OpDec => Ok (sat_dec c)
  | OpShr s => sat_shr w c s
  | OpShl s => sat_shl w c s
  | OpAdd v => Ok (sat_add c v)
  | OpSub v => Ok (sat_sub c v)
  | OpReset => Ok (sat_reset c)
  | OpSaturate => Ok (sat_saturate c).2
  end.

Fixpoint sat_run (w : Z) (c : SatCounter) (ops : list sat_op) : res SatCounter :=
  match ops with
  | [] => Ok c
  | op :: ops => let* c' := sat_exec w c op in sat_run w c' ops
  end.

Lemma sat_exec_wf w c op c' :
  0 ≤ w → sat_wf w c → sat_exec w c op = Ok c' →
  sat_wf w c' ∧ maxVal c' = maxVal c ∧ initialVal c' = initialVal c.
Proof.
  intros Hw (Hc & Hi & Hm) H. assert (0 < 2 ^ w) by (apply Z.pow_pos_nonneg; lia).
  unfold sat_wf. destruct op; simpl in H; unfold sat_shr, sat_shl in H; inv_res.
  1,2: unfold sat_inc, sat_dec; case_match; reflect_bool; simpl; lia.
  - reflect_bool. simpl. split_and!; try lia.
    + apply Z.shiftr_nonneg. lia.
    + rewrite Z.shiftr_div_pow2 by lia.
      assert (0 < 2 ^ s) by (apply Z.pow_pos_nonneg; lia).
      etrans; [|apply Hc]. apply Z.div_le_upper_bound; nia.
  - simpl. pose proof (Z.mod_pos_bound (counter c ≪ s) (2 ^ w)).
    case_match; reflect_bool; lia.
  - unfold sat_add, sat_add_nonneg, sat_sub_nonneg.
    repeat case_match; reflect_bool; simpl; lia.
  - unfold sat_sub, sat_add_nonneg, sat_sub_nonneg.
    repeat case_match; reflect_bool; simpl; lia.
  - simpl. lia.
  - simpl. lia.
Qed.

(** Whatever sequence of operations a client runs on a constructed
    counter, it stays between 0 and its maximum, the maximum is the one it was
    built with, and [reset] still finds a legal initial value. *)
Theorem sat_run_wf w bits v c ops c' :
  0 ≤ bits ≤ w → bits < 64 → 0 ≤ v < 2 ^ bits →
  newSat w bits v = Ok c → sat_run w c ops = Ok c' →
  0 ≤ counter c' ≤ 2 ^ bits - 1 ∧ maxVal c' = 2 ^ bits - 1 ∧ initialVal c' = v.
Proof.
  intros Hb H64 Hv Hn. pose proof (newSat_wf w bits v c) as Hwf.
  rewrite newSat_Ok in Hn by lia. injection Hn as <-.
  set (c := mkSat _ _ _) in *. assert (sat_wf w c) as Hc by (apply Hwf; try lia;
    rewrite newSat_Ok by lia; done). clear Hwf.
  assert (maxVal c = 2 ^ bits - 1 ∧ initialVal c = v) as [Em Ei] by done.
  clearbody c. revert c Hc Em Ei.
  induction ops as [|op ops IH]; intros c Hc Em Ei H; simpl in H.
  - inv_res. destruct Hc as (? & ? & ?). lia.
  - inv_res. destruct (sat_exec_wf w c op r) as (? & ? & ?); [lia|done..|].
    apply (IH r); [done|congruence..|done].
Qed.

Lemma sat_run_wf_witness :
  0 ≤ counter (mkSat 3 15 11) ≤ 2 ^ 4 - 1 ∧ maxVal (mkSat 3 15 11) = 2 ^ 4 - 1
  ∧ initialVal (mkSat 3 15 11) = 3.
Proof.
  apply (sat_run_wf 8 4 3 (mkSat 3 15 3) [OpAdd 20; OpShr 1; OpShl 5; OpSub 4]
           (mkSat 3 15 11)); [lia..|reflexivity|reflexivity].
Defined.

(** Adding a signed amount to a counter is the exact sum clamped to the
    counter's range, and subtracting is adding the opposite. *)
Theorem sat_add_clamp w c v :
  sat_wf w c →
  counter (sat_add c v) = Z.max 0 (Z.min (maxVal c) (counter c + v)) ∧
  sat_sub c v = sat_add c (- v).
Proof.
  intros Hc. split; [by eapply sat_add_counter|].
  unfold sat_sub, sat_add. destruct Hc as (? & ? & ?).
  destruct (Z.leb_spec 0 v), (Z.leb_spec 0 (- v)); try lia; try done.
  - assert (v = 0) as -> by lia. unfold sat_sub_nonneg, sat_add_nonneg, set_counter.
    simpl. rewrite (proj2 (Z.leb_le 0 _)) by lia. case_match; reflect_bool; f_equal; lia.
  - by rewrite Z.opp_involutive.
Qed.

Lemma sat_add_clamp_witness :
  counter (sat_add (mkSat 0 15 9) 40)
    = Z.max 0 (Z.min (maxVal (mkSat 0 15 9)) (counter (mkSat 0 15 9) + 40)) ∧
  sat_sub (mkSat 0 15 9) 40 = sat_add (mkSat 0 15 9) (- 40).
Proof. apply (sat_add_clamp 8). repeat split; simpl; lia. Defined.

(** [operator<<=] saturates only while the shifted value fits the container
    type; above it the value is truncated first, so an 8-bit container holding
    a 4-bit counter at 8 and shifted by 5 becomes 0 instead of 15. *)
Theorem sat_shl_truncates :
  (∀ w c s, 0 ≤ s < shift_width w → 0 ≤ counter c → counter c * 2 ^ s < 2 ^ w →
     rmap counter (sat_shl w c s) = Ok (Z.min (maxVal c) (counter c * 2 ^ s))) ∧
  sat_shl 8 (mkSat 0 15 8) 5 = Ok (mkSat 0 15 0).
Proof.
  split; [|done]. intros w c s Hs Hc Hf. unfold sat_shl.
  rewrite (proj2 (Z.leb_le _ _)), (proj2 (Z.ltb_lt s _)) by lia. simpl.
  rewrite Z.shiftl_mul_pow2, Z.mod_small by nia.
  f_equal. case_match; reflect_bool; lia.
Qed.
