(* ===== verification/Replacement.v ===== *)
(** Replacement policies: [src/mem/cache/replacement_policies]. The policies
    share the interface [replacement_policy::Base], the class
    [ReplacementPolicy] here; [PolicyLaws] is what a cache relies on. *)

From stdpp Require Import prelude list.
From Stdlib Require Import ZArith Lia.
From S2P Require Import Prelude SatCounter.

Open Scope Z_scope.

(** ** The interface [replacement_policy::Base]

    A policy object owns the [ReplacementData] objects it instantiated; the
    [std::shared_ptr] a cache keeps is the position of the object in creation
    order. [touch] and [reset] read [curTick()], passed as [now].
    [touch_occupancy] is present exactly for [WeightedLRU]. [getVictim] returns
    the position of the victim among the candidates. *)
Class ReplacementPolicy (S : Type) := {
  instantiateEntry : S → res (nat * S);
  invalidate : nat → S → res S;
  touch : Z → nat → S → res S;
  touch_occupancy : option (Z → nat → Z → S → res S);
  reset : Z → nat → S → res S;
  getVictim : list nat → S → res (nat * S);
}.

(** Reading and writing one [ReplacementData] object. *)
Definition obj_get {D} (ds : list D) (h : nat) : res D := of_option EUndef (ds !! h).

Definition obj_set {D} (ds : list D) (h : nat) (d : D) : res (list D) :=
  match ds !! h with Some _ => Ok (<[h := d]> ds) | None => Err EUndef end.

Fixpoint obj_get_all {D} (ds : list D) (hs : list nat) : res (list D) :=
  match hs with
  | [] => Ok []
  | h :: hs => let* d := obj_get ds h in
               let* r := obj_get_all ds hs in Ok (d :: r)
  end.

(** The search loop the policies share: [victim] starts as the first candidate
    and is replaced by every later candidate that beats it. [vi] and [vd] are
    the current victim's position and data, [i] the position visited. *)
Fixpoint scan {D} (better : D → D → bool) (vi : nat) (vd : D) (i : nat)
    (ds : list D) : nat :=
  match ds with
  | [] => vi
  | d :: ds => if better d vd then scan better i d (S i) ds
               else scan better vi vd (S i) ds
  end.

Definition scan_victim {D} (better : D → D → bool) (ds : list D) : res nat :=
  match ds with
  | [] => Err EAssert
  | d0 :: _ => Ok (scan better 0 d0 0 ds)
  end.

(** ** LRU *)

Module LRU.

(** [lastTouchTick] of every [LRUReplData]. *)
Record t := mk { data : list Z }.

Definition invalidate (h : nat) (s : t) : res t :=
  rmap mk (obj_set (data s) h 0).

Definition touch (now : Z) (h : nat) (s : t) : res t :=
  rmap mk (obj_set (data s) h now).

Definition reset (now : Z) (h : nat) (s : t) : res t :=
  rmap mk (obj_set (data s) h now).

Definition getVictim (candidates : list nat) (s : t) : res (nat * t) :=
  let* ds := obj_get_all (data s) candidates in
  let* v := scan_victim (fun c v => c <? v) ds in Ok (v, s).

Definition instantiateEntry (s : t) : res (nat * t) :=
  Ok (length (data s), mk (data s ++ [0])).

#[global] Instance policy : ReplacementPolicy t := {|
  Replacement.instantiateEntry := instantiateEntry;
  Replacement.invalidate := invalidate;
  Replacement.touch := touch;
  Replacement.touch_occupancy := None;
  Replacement.reset := reset;
  Replacement.getVictim := getVictim |}.

End LRU.

(** ** BIP: LRU with bimodal insertion *)

(** [Random::random(min, max)] for [unsigned], from one generator output. *)
Definition random_range (gen min max : Z) : res Z :=
  assert! min <=? max in
  let* _ := require (negb (u32 (max - min + 1) =? 0)) EUndef in
  Ok (u32 (gen mod u32 (max - min + 1) + min)).

Module BIP.

(** [gens] is the sequence of outputs of the generator, [calls] how many were
    drawn. *)
Record t := mk { lru : LRU.t; btp : Z; gens : nat → Z; calls : nat }.

Definition with_lru (s : t) (l : LRU.t) : t := mk l (btp s) (gens s) (calls s).

Definition reset (now : Z) (h : nat) (s : t) : res t :=
  let* r := random_range (gens s (calls s)) 1 100 in
  let tick := if r <=? btp s then now else 1 in
  let* d := obj_set (LRU.data (lru s)) h tick in
  Ok (mk (LRU.mk d) (btp s) (gens s) (S (calls s))).

#[global] Instance policy : ReplacementPolicy t := {|
  Replacement.instantiateEntry s :=
    rmap (fun '(h, l) => (h, with_lru s l)) (LRU.instantiateEntry (lru s));
  Replacement.invalidate h s := rmap (with_lru s) (LRU.invalidate h (lru s));
  Replacement.touch now h s := rmap (with_lru s) (LRU.touch now h (lru s));
  Replacement.touch_occupancy := None;
  Replacement.reset := reset;
  Replacement.getVictim cs s :=
    rmap (fun '(v, l) => (v, with_lru s l)) (LRU.getVictim cs (lru s)) |}.

End BIP.

(** ** MRU *)

Module MRU.

Record t := mk { data : list Z }.

Definition invalidate (h : nat) (s : t) : res t :=
  rmap mk (obj_set (data s) h 0).

Definition touch (now : Z) (h : nat) (s : t) : res t :=
  rmap mk (obj_set (data s) h now).

Definition reset (now : Z) (h : nat) (s : t) : res t :=
  rmap mk (obj_set (data s) h now).

(** The loop of [getVictim], which stops at an entry that is not warm. *)
Fixpoint search (vi : nat) (vd : Z) (i : nat) (ds : list Z) : nat :=
  match ds with
  | [] => vi
  | d :: ds => if d =? 0 then i
               else if vd <? d then search i d (S i) ds
               else search vi vd (S i) ds
  end.

Definition getVictim (candidates : list nat) (s : t) : res (nat * t) :=
  let* ds := obj_get_all (data s) candidates in
  match ds with
  | [] => Err EAssert
  | d0 :: _ => Ok (search 0 d0 0 ds, s)
  end.

Definition instantiateEntry (s : t) : res (nat * t) :=
  Ok (length (data s), mk (data s ++ [0])).

#[global] Instance policy : ReplacementPolicy t := {|
  Replacement.instantiateEntry := instantiateEntry;
  Replacement.invalidate := invalidate;
  Replacement.touch := touch;
  Replacement.touch_occupancy := None;
  Replacement.reset := reset;
  Replacement.getVictim := getVictim |}.

End MRU.

(** ** LFU *)

Module LFU.

(** [refCount], an [unsigned]. *)
Record t := mk { data : list Z }.

Definition invalidate (h : nat) (s : t) : res t :=
  rmap mk (obj_set (data s) h 0).

Definition touch (now : Z) (h : nat) (s : t) : res t :=
  let* c := obj_get (data s) h in
  rmap mk (obj_set (data s) h (u32 (c + 1))).

Definition reset (now : Z) (h : nat) (s : t) : res t :=
  rmap mk (obj_set (data s) h 1).

Definition getVictim (candidates : list nat) (s : t) : res (nat * t) :=
  let* ds := obj_get_all (data s) candidates in
  let* v := scan_victim (fun c v => c <? v) ds in Ok (v, s).

Definition instantiateEntry (s : t) : res (nat * t) :=
  Ok (length (data s), mk (data s ++ [0])).

#[global] Instance policy : ReplacementPolicy t := {|
  Replacement.instantiateEntry := instantiateEntry;
  Replacement.invalidate := invalidate;
  Replacement.touch := touch;
  Replacement.touch_occupancy := None;
  Replacement.reset := reset;
  Replacement.getVictim := getVictim |}.

End LFU.

(** ** Weighted LRU *)

Module WeightedLRU.

Record data := mkData { lastTouchTick : Z; last_occ_ptr : Z }.
Record t := mk { objs : list data }.

Definition invalidate (h : nat) (s : t) : res t :=
  let* d := obj_get (objs s) h in
  rmap mk (obj_set (objs s) h (mkData 0 (last_occ_ptr d))).

Definition touch (now : Z) (h : nat) (s : t) : res t :=
  let* d := obj_get (objs s) h in
  rmap mk (obj_set (objs s) h (mkData now (last_occ_ptr d))).

(** The overload that also records the occupancy. *)
Definition touch_occ (now : Z) (h : nat) (occupancy : Z) (s : t) : res t :=
  let* s := touch now h s in
  let* d := obj_get (objs s) h in
  rmap mk (obj_set (objs s) h (mkData (lastTouchTick d) occupancy)).

Definition better (c v : data) : bool :=
  if last_occ_ptr c <? last_occ_ptr v then true
  else if last_occ_ptr c =? last_occ_ptr v then lastTouchTick c <? lastTouchTick v
  else false.

Definition getVictim (candidates : list nat) (s : t) : res (nat * t) :=
  let* ds := obj_get_all (objs s) candidates in
  let* v := scan_victim better ds in Ok (v, s).

Definition instantiateEntry (s : t) : res (nat * t) :=
  Ok (length (objs s), mk (objs s ++ [mkData 0 0])).

#[global] Instance policy : ReplacementPolicy t := {|
  Replacement.instantiateEntry := instantiateEntry;
  Replacement.invalidate := invalidate;
  Replacement.touch := touch;
  Replacement.touch_occupancy := Some touch_occ;
  Replacement.reset := touch;
  Replacement.getVictim := getVictim |}.

End WeightedLRU.

(** ** Random *)

Module RandomRP.

(** [valid] of every entry, and the generator. *)
Record t := mk { valid : list bool; gens : nat → Z; calls : nat }.

Definition with_valid (s : t) (v : list bool) : t := mk v (gens s) (calls s).

Definition invalidate (h : nat) (s : t) : res t :=
  rmap (with_valid s) (obj_set (valid s) h false).

(** [touch] does nothing. *)
Definition touch (now : Z) (h : nat) (s : t) : res t := Ok s.

Definition reset (now : Z) (h : nat) (s : t) : res t :=
  rmap (with_valid s) (obj_set (valid s) h true).

Definition getVictim (candidates : list nat) (s : t) : res (nat * t) :=
  assert! 0 <? zlen candidates in
  let* r := random_range (gens s (calls s)) 0 (zlen candidates - 1) in
  let s' := mk (valid s) (gens s) (S (calls s)) in
  let* ds := obj_get_all (valid s) candidates in
  match list_find (fun b => b = false) ds with
  | Some (i, _) => Ok (i, s')
  | None => Ok (Z.to_nat r, s')
  end.

Definition instantiateEntry (s : t) : res (nat * t) :=
  Ok (length (valid s), with_valid s (valid s ++ [false])).

#[global] Instance policy : ReplacementPolicy t := {|
  Replacement.instantiateEntry := instantiateEntry;
  Replacement.invalidate := invalidate;
  Replacement.touch := touch;
  Replacement.touch_occupancy := None;
  Replacement.reset := reset;
  Replacement.getVictim := getVictim |}.

End RandomRP.

(** ** FIFO *)

Module FIFO.

(** [tickInserted] of every entry and the insertion counter [timeTicks]; the
    constructor leaves [timeTicks] uninitialised, so its first value is
    arbitrary. *)
Record t := mk { data : list Z; timeTicks : Z }.

Definition invalidate (h : nat) (s : t) : res t :=
  let now := u64 (timeTicks s + 1) in
  rmap (fun d => mk d now) (obj_set (data s) h now).

(** A touch does not change the insertion tick. *)
Definition touch (now : Z) (h : nat) (s : t) : res t := Ok s.

Definition reset (now : Z) (h : nat) (s : t) : res t :=
  let now := u64 (timeTicks s + 1) in
  rmap (fun d => mk d now) (obj_set (data s) h now).

Definition getVictim (candidates : list nat) (s : t) : res (nat * t) :=
  let* ds := obj_get_all (data s) candidates in
  let* v := scan_victim (fun c v => c <? v) ds in Ok (v, s).

Definition instantiateEntry (s : t) : res (nat * t) :=
  Ok (length (data s), mk (data s ++ [0]) (timeTicks s)).

#[global] Instance policy : ReplacementPolicy t := {|
  Replacement.instantiateEntry := instantiateEntry;
  Replacement.invalidate := invalidate;
  Replacement.touch := touch;
  Replacement.touch_occupancy := None;
  Replacement.reset := reset;
  Replacement.getVictim := getVictim |}.

End FIFO.

(** ** Second chance: FIFO with a reference bit *)

Module SecondChance.

Record t := mk { fifo : FIFO.t; hasSecondChance : list bool }.

Definition useSecondChance (h : nat) (s : t) : res t :=
  let* f := FIFO.reset 0 h (fifo s) in
  rmap (mk f) (obj_set (hasSecondChance s) h false).

Definition invalidate (h : nat) (s : t) : res t :=
  let* f := FIFO.invalidate h (fifo s) in
  rmap (mk f) (obj_set (hasSecondChance s) h false).

Definition touch (now : Z) (h : nat) (s : t) : res t :=
  let* f := FIFO.touch now h (fifo s) in
  rmap (mk f) (obj_set (hasSecondChance s) h true).

Definition reset (now : Z) (h : nat) (s : t) : res t :=
  let* f := FIFO.reset now h (fifo s) in
  rmap (mk f) (obj_set (hasSecondChance s) h false).

(** The [while (search_victim)] loop. *)
Fixpoint search (fuel : nat) (candidates : list nat) (s : t) : res (nat * t) :=
  match fuel with
  | O => Err EFuel
  | S fuel =>
      let* (v, _) := FIFO.getVictim candidates (fifo s) in
      let* h := of_option EUndef (candidates !! v) in
      let* chance := obj_get (hasSecondChance s) h in
      if chance : bool
      then let* s' := useSecondChance h s in search fuel candidates s'
      else Ok (v, s)
  end.

(** An entry that was never inserted has the eviction priority. *)
Definition invalid_entry (d : Z * bool) : bool := (d.1 =? 0) && negb d.2.

Definition getVictim (candidates : list nat) (s : t) : res (nat * t) :=
  assert! 0 <? zlen candidates in
  let* ticks := obj_get_all (FIFO.data (fifo s)) candidates in
  let* chances := obj_get_all (hasSecondChance s) candidates in
  match list_find (fun d => Is_true (invalid_entry d)) (zip ticks chances) with
  | Some (i, _) => Ok (i, s)
  | None => search (S (length candidates)) candidates s
  end.

Definition instantiateEntry (s : t) : res (nat * t) :=
  let* (h, f) := FIFO.instantiateEntry (fifo s) in
  Ok (h, mk f (hasSecondChance s ++ [false])).

#[global] Instance policy : ReplacementPolicy t := {|
  Replacement.instantiateEntry := instantiateEntry;
  Replacement.invalidate := invalidate;
  Replacement.touch := touch;
  Replacement.touch_occupancy := None;
  Replacement.reset := reset;
  Replacement.getVictim := getVictim |}.

End SecondChance.

(** ** BRRIP *)

Module BRRIP.

Record data := mkData { rrpv : SatCounter; valid : bool }.
Record t := mk {
  numRRPVBits : Z; hitPriority : bool; btp : Z;
  objs : list data; gens : nat → Z; calls : nat }.

Definition new (num_bits : Z) (hit_priority : bool) (btp : Z) (gens : nat → Z)
    : res t :=
  let* _ := require (negb (num_bits <=? 0)) EFatal in
  Ok (mk num_bits hit_priority btp [] gens 0).

Definition with_objs (s : t) (o : list data) : t :=
  mk (numRRPVBits s) (hitPriority s) (btp s) o (gens s) (calls s).

Definition invalidate (h : nat) (s : t) : res t :=
  let* d := obj_get (objs s) h in
  rmap (with_objs s) (obj_set (objs s) h (mkData (rrpv d) false)).

Definition touch (now : Z) (h : nat) (s : t) : res t :=
  let* d := obj_get (objs s) h in
  let r := if hitPriority s then sat_reset (rrpv d)
           else (sat_post_dec (rrpv d)).2 in
  rmap (with_objs s) (obj_set (objs s) h (mkData r (valid d))).

Definition reset (now : Z) (h : nat) (s : t) : res t :=
  let* d := obj_get (objs s) h in
  let r := (sat_saturate (rrpv d)).2 in
  let* x := random_range (gens s (calls s)) 1 100 in
  let r := if x <=? btp s then (sat_post_dec r).2 else r in
  let* o := obj_set (objs s) h (mkData r true) in
  Ok (mk (numRRPVBits s) (hitPriority s) (btp s) o (gens s) (S (calls s))).

(** The search loop: [inl i] when it returns the invalid entry [i], else
    [inr] of the entry with the largest RRPV. *)
Fixpoint search (vi : nat) (victim_RRPV : Z) (i : nat) (ds : list data)
    : nat + nat :=
  match ds with
  | [] => inr vi
  | d :: ds =>
      if negb (valid d) then inl i
      else
        let candidate_RRPV := counter (rrpv d) in
        if victim_RRPV <? candidate_RRPV then search i candidate_RRPV (S i) ds
        else search vi victim_RRPV (S i) ds
  end.

(** [rrpv += diff] on every candidate, in order. *)
Fixpoint age_all (diff : Z) (hs : list nat) (o : list data) : res (list data) :=
  match hs with
  | [] => Ok o
  | h :: hs =>
      let* d := obj_get o h in
      let* o := obj_set o h (mkData (sat_add (rrpv d) diff) (valid d)) in
      age_all diff hs o
  end.

Definition getVictim (candidates : list nat) (s : t) : res (nat * t) :=
  let* ds := obj_get_all (objs s) candidates in
  match ds with
  | [] => Err EAssert
  | d0 :: _ =>
      match search 0 (counter (rrpv d0)) 0 ds with
      | inl i => Ok (i, s)
      | inr v =>
          let* h := of_option EUndef (candidates !! v) in
          let* d := obj_get (objs s) h in
          let '(diff, r) := sat_saturate (rrpv d) in
          let* o := obj_set (objs s) h (mkData r (valid d)) in
          let* o := (if 0 <? diff then age_all diff candidates o else Ok o) in
          Ok (v, with_objs s o)
      end
  end.

Definition instantiateEntry (s : t) : res (nat * t) :=
  let* c := newSat 8 (numRRPVBits s) 0 in
  Ok (length (objs s), with_objs s (objs s ++ [mkData c false])).

#[global] Instance policy : ReplacementPolicy t := {|
  Replacement.instantiateEntry := instantiateEntry;
  Replacement.invalidate := invalidate;
  Replacement.touch := touch;
  Replacement.touch_occupancy := None;
  Replacement.reset := reset;
  Replacement.getVictim := getVictim |}.

End BRRIP.

(** ** Tree-PLRU *)

Module TreePLRU.

Definition parentIndex (index : Z) : Z := u64 (index - 1) / 2.
Definition leftSubtreeIndex (index : Z) : Z := u64 (2 * index + 1).
Definition rightSubtreeIndex (index : Z) : Z := u64 (2 * index + 2).
Definition isRightSubtree (index : Z) : bool := index mod 2 =? 0.

(** A [TreePLRUReplData]: the leaf's index and the tree it shares. *)
Record data := mkData { index : Z; tree : nat }.

(** [trees] are the [PLRUTree] objects in creation order; [treeInstance] is
    the last one. *)
Record t := mk { numLeaves : Z; count : Z; trees : list (list bool); objs : list data }.

Definition new (num_leaves : Z) : res t :=
  let* _ := require (negb (num_leaves <? 1)) EFatal in
  Ok (mk num_leaves 0 [] []).

(** [tree->at(i)], which throws out of range. *)
Definition tree_at (tr : list bool) (i : Z) : res bool :=
  if decide (0 ≤ i < zlen tr) then of_option EThrow (tr !! Z.to_nat i)
  else Err EThrow.

Definition tree_set (tr : list bool) (i : Z) (b : bool) : res (list bool) :=
  if decide (0 ≤ i < zlen tr) then Ok (<[Z.to_nat i := b]> tr) else Err EThrow.

(** The [do ... while (tree_index != 0)] loop of [invalidate] and [touch]: [f]
    is what a node is set to when the walk comes from its right subtree. *)
Fixpoint climb (fuel : nat) (f : bool → bool) (tree_index : Z) (tr : list bool)
    : res (list bool) :=
  match fuel with
  | O => Err EFuel
  | S fuel =>
      let right := isRightSubtree tree_index in
      let tree_index := parentIndex tree_index in
      let* tr := tree_set tr tree_index (f right) in
      if tree_index =? 0 then Ok tr else climb fuel f tree_index tr
  end.

Definition update (f : bool → bool) (h : nat) (s : t) : res t :=
  let* d := obj_get (objs s) h in
  let* tr := obj_get (trees s) (tree d) in
  let* tr := climb (S (Z.to_nat (index d))) f (index d) tr in
  let* ts := obj_set (trees s) (tree d) tr in
  Ok (mk (numLeaves s) (count s) ts (objs s)).

Definition invalidate (h : nat) (s : t) : res t := update (fun right => right) h s.

Definition touch (now : Z) (h : nat) (s : t) : res t :=
  update (fun right => negb right) h s.

Definition reset (now : Z) (h : nat) (s : t) : res t := touch now h s.

(** The [while (tree_index < tree->size())] loop of [getVictim]. *)
Fixpoint descend (fuel : nat) (tr : list bool) (tree_index : Z) : res Z :=
  match fuel with
  | O => Err EFuel
  | S fuel =>
      if tree_index <? zlen tr then
        let* b := tree_at tr tree_index in
        descend fuel tr (if b then rightSubtreeIndex tree_index
                         else leftSubtreeIndex tree_index)
      else Ok tree_index
  end.

Definition getVictim (candidates : list nat) (s : t) : res (nat * t) :=
  match candidates with
  | [] => Err EAssert
  | h0 :: _ =>
      let* d := obj_get (objs s) h0 in
      let* tr := obj_get (trees s) (tree d) in
      let* leaf := descend (S (length tr)) tr 0 in
      let v := u64 (leaf - u64 (numLeaves s - 1)) in
      let* _ := require (v <? zlen candidates) EThrow in
      Ok (Z.to_nat v, s)
  end.

Definition instantiateEntry (s : t) : res (nat * t) :=
  let* _ := require (negb (numLeaves s =? 0)) EUndef in
  let ts := if count s mod numLeaves s =? 0
            then trees s ++ [replicate (Z.to_nat (u64 (numLeaves s - 1))) false]
            else trees s in
  let d := mkData (u64 (u64 (count s mod numLeaves s + numLeaves s) - 1))
                  (pred (length ts)) in
  Ok (length (objs s), mk (numLeaves s) (u64 (count s + 1)) ts (objs s ++ [d])).

#[global] Instance policy : ReplacementPolicy t := {|
  Replacement.instantiateEntry := instantiateEntry;
  Replacement.invalidate := invalidate;
  Replacement.touch := touch;
  Replacement.touch_occupancy := None;
  Replacement.reset := reset;
  Replacement.getVictim := getVictim |}.

End TreePLRU.
