(* ===== verification/ReplacementSpec.v ===== *)
(** What the replacement policies promise: the laws a cache relies on, proved
    for every policy, and the specification of each policy's victim choice. *)

From stdpp Require Import prelude list sorting.
From Stdlib Require Import ZArith Lia.
From S2P Require Import Prelude SatCounter Replacement.

Open Scope Z_scope.

(** ** The interface's laws *)

(** [pol_inv n s]: the policy object [s] instantiated [n] entries and is in a
    legal state. *)
Class PolicyInv (S : Type) := pol_inv : nat → S → Prop.

(** A cache of associativity [assoc] instantiates the entries of a set one
    after the other, so the candidates of set [k] are the handles
    [k * assoc, ..., k * assoc + assoc - 1]. *)
Class PolicyLaws (S : Type) `{ReplacementPolicy S, PolicyInv S} (assoc : nat) := {
  instantiate_law : ∀ n s, pol_inv n s → Z.of_nat n < 2 ^ 64 - 1 →
    ∃ s', instantiateEntry s = Ok (n, s') ∧ pol_inv (Datatypes.S n) s';
  invalidate_law : ∀ n s h, pol_inv n s → (h < n)%nat →
    ∃ s', invalidate h s = Ok s' ∧ pol_inv n s';
  touch_law : ∀ now n s h, pol_inv n s → (h < n)%nat →
    ∃ s', touch now h s = Ok s' ∧ pol_inv n s';
  touch_occupancy_law : ∀ f, touch_occupancy = Some f →
    ∀ now n s h occ, pol_inv n s → (h < n)%nat →
    ∃ s', f now h occ s = Ok s' ∧ pol_inv n s';
  reset_law : ∀ now n s h, pol_inv n s → (h < n)%nat →
    ∃ s', reset now h s = Ok s' ∧ pol_inv n s';
  victim_law : ∀ n s k, pol_inv n s → (k * assoc + assoc ≤ n)%nat →
    ∃ v s', getVictim (seq (k * assoc) assoc) s = Ok (v, s') ∧
            (v < assoc)%nat ∧ pol_inv n s';
}.

(** ** Lemmas on the objects and the search loop *)

Section Objects.
Context {D : Type}.
Implicit Types (ds : list D) (h : nat).

Lemma obj_get_lt ds h : (h < length ds)%nat → ∃ d, obj_get ds h = Ok d ∧ ds !! h = Some d.
Proof.
  intros [d Hd]%lookup_lt_is_Some_2. exists d. unfold obj_get. by rewrite Hd.
Qed.

Lemma obj_get_Ok ds h d : obj_get ds h = Ok d ↔ ds !! h = Some d.
Proof. apply of_option_Ok. Qed.

Lemma obj_set_lt ds h d : (h < length ds)%nat → obj_set ds h d = Ok (<[h := d]> ds).
Proof. intros [x Hx]%lookup_lt_is_Some_2. unfold obj_set. by rewrite Hx. Qed.

Lemma obj_set_Ok ds h d ds' :
  obj_set ds h d = Ok ds' → ds' = <[h := d]> ds ∧ (h < length ds)%nat.
Proof.
  unfold obj_set. destruct (ds !! h) eqn:E; [|done]. intros [= <-].
  split; [done|]. by eapply lookup_lt_Some.
Qed.

Lemma obj_get_all_lookup ds hs r :
  obj_get_all ds hs = Ok r →
  length r = length hs ∧ ∀ i h, hs !! i = Some h → ds !! h = r !! i.
Proof.
  revert r. induction hs as [|h hs IH]; simpl; intros r Hr; [by inv_res|].
  apply rbind_Ok in Hr as (d & Hd%obj_get_Ok & (r' & Hr & [= <-])%rbind_Ok).
  destruct (IH _ Hr) as [Hl Hi]. split; [simpl; lia|].
  intros [|i] h' ?; simplify_eq/=; auto.
Qed.

Lemma obj_get_all_lt ds hs :
  (∀ h, h ∈ hs → (h < length ds)%nat) →
  ∃ r, obj_get_all ds hs = Ok r ∧ length r = length hs.
Proof.
  induction hs as [|h hs IH]; intros Hh; [by exists []|].
  destruct (obj_get_lt ds h) as (d & Hd & _); [set_solver|].
  destruct IH as (r & Hr & Hl); [set_solver|].
  exists (d :: r). simpl. rewrite Hd. simpl. rewrite Hr. simpl. split; [done|lia].
Qed.

Lemma seq_lt (k assoc n : nat) h :
  (k * assoc + assoc ≤ n)%nat → h ∈ seq (k * assoc) assoc → (h < n)%nat.
Proof. intros Hn [? ?]%elem_of_seq. lia. Qed.

Lemma obj_get_all_seq ds (k assoc : nat) :
  (k * assoc + assoc ≤ length ds)%nat →
  ∃ r, obj_get_all ds (seq (k * assoc) assoc) = Ok r ∧ length r = assoc.
Proof.
  intros Hn. destruct (obj_get_all_lt ds (seq (k * assoc) assoc)) as (r & Hr & Hl).
  - intros h. by apply seq_lt.
  - exists r. split; [done|]. by rewrite Hl, length_seq.
Qed.

(** The search keeps the best entry: [better] need only be the strict part of
    a total preorder. *)
Section Scan.
Context (better : D → D → bool).
Context (better_irrefl : ∀ d, better d d = false).
Context (better_asym : ∀ d e, better d e = true → better e d = false).
Context (nbetter_trans : ∀ d e f,
  better e d = false → better f e = false → better f d = false).

Lemma scan_first_best ds pre vi vd :
  (vi ≤ length pre)%nat → (pre ++ ds) !! vi = Some vd →
  (∀ d, d ∈ pre → better d vd = false) →
  (∀ j d, (j < vi)%nat → pre !! j = Some d → better vd d = true) →
  let v := scan better vi vd (length pre) ds in
  ∃ d, (pre ++ ds) !! v = Some d ∧ (∀ e, e ∈ pre ++ ds → better e d = false) ∧
       (∀ j e, (j < v)%nat → (pre ++ ds) !! j = Some e → better d e = true).
Proof using All.
  revert pre vi vd. induction ds as [|d0 ds IH]; intros pre vi vd Hle Hvi Hb Hf; simpl.
  { rewrite app_nil_r in *. eauto. }
  assert (pre ++ d0 :: ds = (pre ++ [d0]) ++ ds) as E by by rewrite <- app_assoc.
  rewrite E in Hvi |- *.
  replace (S (length pre)) with (length (pre ++ [d0])) by (rewrite length_app; simpl; lia).
  destruct (better d0 vd) eqn:Ed; apply IH; rewrite ?length_app; simpl; try lia.
  - rewrite <- app_assoc. by apply list_lookup_middle.
  - intros d [Hd| ->%list_elem_of_singleton]%elem_of_app; [|done].
    eapply nbetter_trans; [by apply better_asym|auto].
  - intros j d Hj Hd. rewrite lookup_app_l in Hd by lia.
    destruct (better d0 d) eqn:Ed'; [done|].
    rewrite <- Ed. symmetry. eapply nbetter_trans; [|done].
    apply Hb. by eapply list_elem_of_lookup_2.
  - done.
  - intros d [Hd| ->%list_elem_of_singleton]%elem_of_app; auto.
  - intros j d Hj Hd. rewrite lookup_app_l in Hd by lia. eauto.
Qed.

(** The victim is the first of the best candidates. *)
Lemma scan_victim_spec ds v :
  scan_victim better ds = Ok v →
  ∃ d, ds !! v = Some d ∧ (∀ e, e ∈ ds → better e d = false) ∧
       (∀ j e, (j < v)%nat → ds !! j = Some e → better d e = true).
Proof using All.
  destruct ds as [|d0 ds]; [done|]. intros [= <-].
  apply (scan_first_best (d0 :: ds) [] 0 d0); [done|done|set_solver|lia].
Qed.

End Scan.

Lemma scan_lt better ds vi (vd : D) i :
  (vi < i + length ds)%nat ∨ (vi < i)%nat →
  (scan better vi vd i ds < i + length ds)%nat.
Proof.
  revert vi vd i. induction ds as [|d ds IH]; intros vi vd i H; simpl in *; [lia|].
  rewrite <- Nat.add_succ_comm. case_match; apply IH; lia.
Qed.

Lemma scan_victim_lt better ds :
  ds ≠ [] → ∃ v, scan_victim (D:=D) better ds = Ok v ∧ (v < length ds)%nat.
Proof.
  destruct ds as [|d0 ds]; [done|]. intros _. eexists. split; [done|].
  apply (scan_lt better (d0 :: ds)). simpl. lia.
Qed.
End Objects.

Lemma ltb_scan_order :
  (∀ d, (d <? d) = false) ∧ (∀ d e, (d <? e) = true → (e <? d) = false) ∧
  (∀ d e f, (e <? d) = false → (f <? e) = false → (f <? d) = false).
Proof. split_and!; intros; reflect_bool; apply Z.ltb_ge; lia. Qed.

(** ** The laws hold for every policy *)

#[export] Instance LRU_inv : PolicyInv LRU.t := λ n s, length (LRU.data s) = n.
#[export] Instance BIP_inv : PolicyInv BIP.t :=
  λ n s, length (LRU.data (BIP.lru s)) = n.
#[export] Instance MRU_inv : PolicyInv MRU.t := λ n s, length (MRU.data s) = n.
#[export] Instance LFU_inv : PolicyInv LFU.t := λ n s, length (LFU.data s) = n.
#[export] Instance WeightedLRU_inv : PolicyInv WeightedLRU.t :=
  λ n s, length (WeightedLRU.objs s) = n.
#[export] Instance RandomRP_inv : PolicyInv RandomRP.t :=
  λ n s, length (RandomRP.valid s) = n ∧ ∀ i, 0 ≤ RandomRP.gens s i.
#[export] Instance FIFO_inv : PolicyInv FIFO.t := λ n s, length (FIFO.data s) = n.
#[export] Instance SecondChance_inv : PolicyInv SecondChance.t :=
  λ n s, length (FIFO.data (SecondChance.fifo s)) = n ∧
         length (SecondChance.hasSecondChance s) = n.
#[export] Instance BRRIP_inv : PolicyInv BRRIP.t :=
  λ n s, length (BRRIP.objs s) = n ∧ 0 < BRRIP.numRRPVBits s ≤ 8 ∧
         Forall (λ d, sat_wf 8 (BRRIP.rrpv d)) (BRRIP.objs s).

(** Run the accesses to one object that exists. *)
Ltac run_objs :=
  simpl; repeat (match goal with
  | |- context [obj_set ?ds ?h ?d] => rewrite (obj_set_lt ds h d) by (rewrite ?length_insert; lia)
  | |- context [obj_get ?ds ?h] =>
      let d := fresh "d" in let Hd := fresh "Hd" in let E := fresh "E" in
      destruct (obj_get_lt ds h) as (d & Hd & E); [rewrite ?length_insert; lia|];
      rewrite Hd
  | |- context [obj_get_all ?ds (seq (?a * ?b) ?b)] =>
      let r := fresh "r" in let Hr := fresh "Hr" in let Hl := fresh "Hl" in
      destruct (obj_get_all_seq ds a b) as (r & Hr & Hl); [lia|]; rewrite Hr
  end; simpl).

Lemma random_range_Ok g lo hi :
  0 ≤ g → 0 ≤ lo ≤ hi → hi < 2 ^ 32 - 1 →
  ∃ r, random_range g lo hi = Ok r ∧ lo ≤ r ≤ hi.
Proof.
  intros Hg Hlo Hhi. unfold random_range.
  rewrite (proj2 (Z.leb_le _ _)) by lia. simpl. rewrite (u32_small (hi - lo + 1)) by lia.
  rewrite (proj2 (Z.eqb_neq _ _)) by lia. simpl. eexists. split; [done|].
  pose proof (Z.mod_pos_bound g (hi - lo + 1)). rewrite u32_small; lia.
Qed.

Lemma MRU_search_lt vi vd i ds :
  (vi < i + length ds)%nat ∨ (vi < i)%nat →
  (MRU.search vi vd i ds < i + length ds)%nat.
Proof.
  revert vi vd i. induction ds as [|d ds IH]; intros vi vd i H; simpl in *; [lia|].
  rewrite <- Nat.add_succ_comm. repeat case_match; [lia|apply IH; lia..].
Qed.

Section Laws.
Context (assoc : nat) (Hassoc : (0 < assoc)%nat).

#[local] Ltac law inv :=
  unfold pol_inv, inv; simpl; intros;
  repeat match goal with H : _ ∧ _ |- _ => destruct H end; subst.

#[local] Ltac finish :=
  eexists; split; [reflexivity|]; simpl;
  repeat split; rewrite ?length_insert, ?length_app; simpl; try lia; try done.

#[local] Ltac nonempty := by intros ->; simpl in *; lia.

#[local] Ltac scan_victim_case better r :=
  let v := fresh "v" in let Hv := fresh "Hv" in
  destruct (scan_victim_lt better r) as (v & Hv & ?); [nonempty|];
  rewrite Hv; simpl; exists v; eexists; split_and!; [reflexivity|lia|done].

Lemma LRU_laws : PolicyLaws LRU.t assoc.
Proof using Hassoc.
  split; law LRU_inv; try done.
  - finish.
  - unfold LRU.invalidate. run_objs. finish.
  - unfold LRU.touch. run_objs. finish.
  - unfold LRU.reset. run_objs. finish.
  - unfold LRU.getVictim. run_objs. scan_victim_case (fun c v => c <? v) r.
Qed.

Lemma BIP_laws : PolicyLaws BIP.t assoc.
Proof using Hassoc.
  split; law BIP_inv; try done.
  - finish.
  - unfold LRU.invalidate. run_objs. finish.
  - unfold LRU.touch. run_objs. finish.
  - unfold BIP.reset.
    assert (∃ r, random_range (BIP.gens s (BIP.calls s)) 1 100 = Ok r) as [r ->]
      by by eexists.
    simpl. run_objs. finish.
  - unfold LRU.getVictim. run_objs. scan_victim_case (fun c v => c <? v) r.
Qed.

Lemma MRU_laws : PolicyLaws MRU.t assoc.
Proof using Hassoc.
  split; law MRU_inv; try done.
  - finish.
  - unfold MRU.invalidate. run_objs. finish.
  - unfold MRU.touch. run_objs. finish.
  - unfold MRU.reset. run_objs. finish.
  - unfold MRU.getVictim. run_objs. destruct r as [|d0 r]; [simpl in *; lia|].
    do 2 eexists. split_and!; [reflexivity| |done].
    rewrite <- Hl. apply (MRU_search_lt 0 d0 0 (d0 :: r)). simpl. lia.
Qed.

Lemma LFU_laws : PolicyLaws LFU.t assoc.
Proof using Hassoc.
  split; law LFU_inv; try done.
  - finish.
  - unfold LFU.invalidate. run_objs. finish.
  - unfold LFU.touch. run_objs. finish.
  - unfold LFU.reset. run_objs. finish.
  - unfold LFU.getVictim. run_objs. scan_victim_case (fun c v => c <? v) r.
Qed.

Lemma WeightedLRU_laws : PolicyLaws WeightedLRU.t assoc.
Proof using Hassoc.
  split; law WeightedLRU_inv; try done.
  - finish.
  - unfold WeightedLRU.invalidate. run_objs. finish.
  - unfold WeightedLRU.touch. run_objs. finish.
  - match goal with H : Some _ = Some _ |- _ => injection H as <- end.
    unfold WeightedLRU.touch_occ, WeightedLRU.touch. run_objs. finish.
  - unfold WeightedLRU.touch. run_objs. finish.
  - unfold WeightedLRU.getVictim. run_objs. scan_victim_case WeightedLRU.better r.
Qed.

Lemma FIFO_laws : PolicyLaws FIFO.t assoc.
Proof using Hassoc.
  split; law FIFO_inv; try done.
  - finish.
  - unfold FIFO.invalidate. run_objs. finish.
  - finish.
  - unfold FIFO.reset. run_objs. finish.
  - unfold FIFO.getVictim. run_objs. scan_victim_case (fun c v => c <? v) r.
Qed.

Lemma RandomRP_laws : Z.of_nat assoc < 2 ^ 32 - 1 → PolicyLaws RandomRP.t assoc.
Proof using Hassoc.
  intros Hmax. split; law RandomRP_inv; try done.
  - finish.
  - unfold RandomRP.invalidate. run_objs. finish.
  - finish.
  - unfold RandomRP.reset. run_objs. finish.
  - unfold RandomRP.getVictim. rewrite length_seq.
    rewrite (proj2 (Z.ltb_lt _ _)) by lia. simpl.
    destruct (random_range_Ok (RandomRP.gens s (RandomRP.calls s)) 0
                (Z.of_nat assoc - 1)) as (x & -> & Hx); [auto|lia..|]. simpl.
    run_objs. destruct (list_find _ r) as [[i b]|] eqn:Ef.
    + apply list_find_Some in Ef as (Hi%lookup_lt_Some & _).
      do 2 eexists. split_and!; [reflexivity|lia|done..].
    + do 2 eexists. split_and!; [reflexivity|lia|done..].
Qed.
End Laws.

(** ** Second chance: the victim search terminates *)

Lemma length_filter_lt {A} (P Q : A → Prop) `{∀ x, Decision (P x)}
    `{∀ x, Decision (Q x)} (l : list A) :
  (∀ x, x ∈ l → Q x → P x) → (∃ x, x ∈ l ∧ P x ∧ ¬ Q x) →
  (length (filter Q l) < length (filter P l))%nat.
Proof.
  assert (∀ l, (∀ x, x ∈ l → Q x → P x) →
    (length (filter Q l) ≤ length (filter P l))%nat) as Hle.
  { clear l. induction l as [|y l IH]; intros HQP; [done|]. rewrite !filter_cons.
    specialize (IH ltac:(set_solver)). repeat case_decide; simpl; try lia.
    exfalso. set_solver. }
  induction l as [|y l IH]; intros HQP (x & Hx & HPx & HQx); [set_solver|].
  rewrite !filter_cons. specialize (Hle l ltac:(set_solver)).
  apply elem_of_cons in Hx as [<-|Hx].
  - rewrite (decide_True (P:=P x)), (decide_False (P:=Q x)) by done. simpl. lia.
  - specialize (IH ltac:(set_solver) ltac:(eauto)).
    repeat case_decide; simpl; try lia. exfalso. set_solver.
Qed.

Section SecondChance.
Import SecondChance.

(** How many candidates still have their second chance. *)
Definition chances (cs : list nat) (s : t) : nat :=
  length (filter (λ h, hasSecondChance s !! h = Some true) cs).

Lemma search_terminates fuel cs n s :
  pol_inv n s → cs ≠ [] → (∀ h, h ∈ cs → (h < n)%nat) → (chances cs s < fuel)%nat →
  ∃ v s' h, search fuel cs s = Ok (v, s') ∧ pol_inv n s' ∧
    cs !! v = Some h ∧ hasSecondChance s' !! h = Some false.
Proof.
  revert s. induction fuel as [|fuel IH]; intros s Hinv Hne Hcs Hch; [lia|].
  destruct Hinv as [Hn1 Hn2]. simpl.
  destruct (obj_get_all_lt (FIFO.data (fifo s)) cs) as (r & Hr & Hl);
    [rewrite Hn1; auto|].
  destruct (scan_victim_lt (λ c v, c <? v) r) as (v & Hv & Hvl).
  { intros ->. destruct cs; done. }
  unfold FIFO.getVictim. rewrite Hr. simpl. rewrite Hv. simpl.
  destruct (lookup_lt_is_Some_2 cs v) as [h Hh]; [lia|]. rewrite Hh. simpl.
  assert (h < n)%nat as Hhn by (apply Hcs; by eapply list_elem_of_lookup_2).
  destruct (obj_get_lt (hasSecondChance s) h) as (b & Hb & Eb); [lia|].
  rewrite Hb. simpl. destruct b.
  - unfold useSecondChance, FIFO.reset. run_objs.
    apply IH; [|done|done|].
    + split; simpl; by rewrite length_insert.
    + enough (chances cs (mk (FIFO.mk (<[h:=u64 (FIFO.timeTicks (fifo s) + 1)]>
        (FIFO.data (fifo s))) (u64 (FIFO.timeTicks (fifo s) + 1)))
        (<[h:=false]> (hasSecondChance s))) < chances cs s)%nat by lia.
      apply length_filter_lt.
      * intros h' _ Hh'. simpl in Hh'. apply list_lookup_insert_Some in Hh'. naive_solver.
      * exists h. split_and!; [by eapply list_elem_of_lookup_2|done|]. simpl.
        rewrite list_lookup_insert_eq by lia. done.
  - exists v, s, h. by split_and!.
Qed.

End SecondChance.

Lemma SecondChance_laws assoc :
  (0 < assoc)%nat → PolicyLaws SecondChance.t assoc.
Proof.
  intros Hassoc. split; unfold pol_inv, SecondChance_inv; simpl; intros;
    repeat match goal with H : _ ∧ _ |- _ => destruct H end; try done.
  - subst n. eexists. split; [reflexivity|]. simpl. rewrite !length_app. simpl. lia.
  - unfold SecondChance.invalidate, FIFO.invalidate. run_objs.
    eexists. split; [reflexivity|]. simpl. rewrite !length_insert. lia.
  - unfold SecondChance.touch, FIFO.touch. run_objs.
    eexists. split; [reflexivity|]. simpl. rewrite !length_insert. lia.
  - unfold SecondChance.reset, FIFO.reset. run_objs.
    eexists. split; [reflexivity|]. simpl. rewrite !length_insert. lia.
  - unfold SecondChance.getVictim. rewrite length_seq.
    rewrite (proj2 (Z.ltb_lt _ _)) by lia. simpl. run_objs.
    destruct (list_find _ _) as [[i b]|] eqn:Ef.
    + apply list_find_Some in Ef as (Hi%lookup_lt_Some & _).
      rewrite length_zip_with in Hi.
      do 2 eexists. split_and!; [reflexivity|lia|done..].
    + destruct (search_terminates (S assoc) (seq (k * assoc) assoc) n s)
        as (v & s' & h & Hs & Hinv & Hv & _); [done| | | |].
      * destruct assoc; [lia|done].
      * intros h. by apply seq_lt.
      * unfold chances. pose proof (length_filter
          (λ h, SecondChance.hasSecondChance s !! h = Some true) (seq (k * assoc) assoc)).
        rewrite length_seq in *. lia.
      * exists v, s'. split; [exact Hs|]. split; [|exact Hinv].
        apply lookup_lt_Some in Hv. by rewrite length_seq in Hv.
Qed.

(** ** BRRIP: the victim search and aging *)

Section BRRIP.
Import BRRIP.

Abbreviation cnt d := (counter (rrpv d)).

Lemma brrip_search_spec ds pre vi vd :
  (vi ≤ length pre)%nat → (pre ++ ds) !! vi = Some vd →
  (∀ d, d ∈ pre → valid d = true ∧ cnt d ≤ cnt vd) →
  match search vi (cnt vd) (length pre) ds with
  | inl j => ∃ d, (pre ++ ds) !! j = Some d ∧ valid d = false
  | inr v => ∃ d, (pre ++ ds) !! v = Some d ∧
                  ∀ e, e ∈ pre ++ ds → valid e = true ∧ cnt e ≤ cnt d
  end.
Proof.
  revert pre vi vd. induction ds as [|d0 ds IH]; intros pre vi vd Hle Hvi Hpre; simpl.
  { rewrite app_nil_r in *. eauto. }
  destruct (valid d0) eqn:Ev; simpl.
  2: { exists d0. split; [|done]. by apply list_lookup_middle. }
  assert (pre ++ d0 :: ds = (pre ++ [d0]) ++ ds) as E by by rewrite <- app_assoc.
  rewrite E in Hvi |- *.
  replace (S (length pre)) with (length (pre ++ [d0])) by (rewrite length_app; simpl; lia).
  destruct (Z.ltb_spec (cnt vd) (cnt d0)); apply IH; rewrite ?length_app; simpl; try lia.
  - rewrite <- app_assoc. by apply list_lookup_middle.
  - intros d [Hd| ->%list_elem_of_singleton]%elem_of_app; [|done].
    specialize (Hpre d Hd). split; [tauto|lia].
  - done.
  - intros d [Hd| ->%list_elem_of_singleton]%elem_of_app; [|split; [done|lia]].
    specialize (Hpre d Hd). split; [tauto|lia].
Qed.

Definition aged (diff : Z) (d : data) : data :=
  mkData (sat_add (rrpv d) diff) (valid d).

Lemma age_all_spec diff hs o :
  NoDup hs → (∀ h, h ∈ hs → (h < length o)%nat) →
  ∃ o', age_all diff hs o = Ok o' ∧ length o' = length o ∧
    ∀ h, o' !! h = if decide (h ∈ hs) then aged diff <$> o !! h else o !! h.
Proof.
  revert o. induction hs as [|h0 hs IH]; intros o Hnd Hlt; simpl.
  { exists o. split_and!; try done. }
  apply NoDup_cons in Hnd as [Hh0 Hnd].
  destruct (obj_get_lt o h0) as (d & Hd & Ed); [set_solver|]. rewrite Hd. simpl.
  rewrite obj_set_lt by set_solver. simpl.
  destruct (IH (<[h0 := aged diff d]> o) Hnd) as (o' & Ho' & Hl & Hlk).
  { intros h Hh. rewrite length_insert. set_solver. }
  exists o'. unfold aged in Ho' at 1. rewrite Ho'. split_and!; [done| |].
  { by rewrite Hl, length_insert. }
  intros h. rewrite Hlk. destruct (decide (h = h0)) as [->|Hne].
  - rewrite (decide_False (P := h0 ∈ hs)), decide_True by set_solver.
    rewrite Ed, list_lookup_insert_eq by set_solver. done.
  - rewrite list_lookup_insert_ne by done.
    destruct (decide (h ∈ hs)); [rewrite decide_True by set_solver; done|].
    rewrite decide_False by set_solver. done.
Qed.

Lemma Forall_aged w diff (o o' : list data) (P : nat → Prop) `{∀ h, Decision (P h)} :
  Forall (λ d, sat_wf w (rrpv d)) o →
  (∀ h, o' !! h = if decide (P h) then aged diff <$> o !! h else o !! h) →
  Forall (λ d, sat_wf w (rrpv d)) o'.
Proof.
  intros Ho Hlk. apply Forall_lookup. intros h d Hd. rewrite Hlk in Hd.
  rewrite Forall_lookup in Ho. case_decide; [|by eapply Ho].
  destruct (o !! h) as [d0|] eqn:E; [|done]. injection Hd as <-. simpl.
  specialize (Ho _ _ E). pose proof (sat_add_counter w (rrpv d0) diff Ho).
  destruct Ho as (? & ? & ?). unfold sat_wf.
  assert (maxVal (sat_add (rrpv d0) diff) = maxVal (rrpv d0) ∧
          initialVal (sat_add (rrpv d0) diff) = initialVal (rrpv d0)) as [-> ->].
  { unfold sat_add, sat_add_nonneg, sat_sub_nonneg. repeat case_match; done. }
  lia.
Qed.

(** What [getVictim] does on candidates that exist: it returns an invalid
    entry and changes nothing, or the entry with the largest RRPV and ages all
    candidates by the distance of that RRPV to the maximum. *)
Lemma brrip_victim s cs :
  cs ≠ [] → NoDup cs → (∀ h, h ∈ cs → (h < length (objs s))%nat) →
  Forall (λ d, sat_wf 8 (rrpv d)) (objs s) →
  ∃ v h d s', getVictim cs s = Ok (v, s') ∧ cs !! v = Some h ∧
    objs s !! h = Some d ∧
    ((valid d = false ∧ s' = s) ∨
     (∃ o', s' = with_objs s o' ∧ length o' = length (objs s) ∧
       Forall (λ d, sat_wf 8 (rrpv d)) o' ∧
       (∀ h' e, h' ∈ cs → objs s !! h' = Some e → valid e = true ∧ cnt e ≤ cnt d) ∧
       o' !! h = Some (mkData (set_counter (rrpv d) (maxVal (rrpv d))) (valid d)) ∧
       ∀ h', h' ≠ h → o' !! h' =
         if decide (h' ∈ cs) then aged (maxVal (rrpv d) - cnt d) <$> objs s !! h'
         else objs s !! h')).
Proof.
  intros Hne Hnd Hlt Hwf. unfold getVictim.
  destruct (obj_get_all_lt (objs s) cs Hlt) as (ds & Hds & Hl). rewrite Hds. simpl.
  destruct (obj_get_all_lookup _ _ _ Hds) as [_ Hlk].
  destruct ds as [|d0 ds]; [by destruct cs|].
  pose proof (brrip_search_spec (d0 :: ds) [] 0 d0 ltac:(simpl; lia) eq_refl
    ltac:(set_solver)) as Hs. simpl app in Hs. simpl length in Hs.
  destruct (search _ _ _ _) as [j|v].
  - destruct Hs as (d & Hd & Hv). destruct (lookup_lt_is_Some_2 cs j) as [h Hh].
    { apply lookup_lt_Some in Hd. lia. }
    exists j, h, d, s. split_and!; [done|done| |by left]. by rewrite (Hlk j h).
  - destruct Hs as (d & Hd & Hmax). destruct (lookup_lt_is_Some_2 cs v) as [h Hh].
    { apply lookup_lt_Some in Hd. lia. }
    assert (objs s !! h = Some d) as Ed by by rewrite (Hlk v h).
    assert (h < length (objs s))%nat as Hhl by (by eapply lookup_lt_Some).
    rewrite Hh. simpl. unfold obj_get. rewrite Ed. simpl. rewrite obj_set_lt by done.
    simpl. set (d' := mkData _ (valid d)). set (o1 := <[h := d']> (objs s)).
    assert (sat_wf 8 (rrpv d)) as (Hc & Hi & Hm) by (rewrite Forall_lookup in Hwf; eauto).
    assert (Forall (λ d, sat_wf 8 (rrpv d)) o1) as Hwf1.
    { apply Forall_insert; [done|]. unfold sat_wf. simpl. lia. }
    assert (∀ h' e, h' ∈ cs → objs s !! h' = Some e → valid e = true ∧ cnt e ≤ cnt d)
      as Hbest.
    { intros h' e [i Hi']%list_elem_of_lookup He. apply Hmax.
      rewrite (Hlk i h' Hi') in He. by eapply list_elem_of_lookup_2. }
    destruct (Z.ltb_spec 0 (maxVal (rrpv d) - cnt d)) as [Hpos|Hz].
    + destruct (age_all_spec (maxVal (rrpv d) - cnt d) cs o1 Hnd) as (o' & Ho' & Hlo & Hlk').
      { intros h' ?. unfold o1. rewrite length_insert. auto. }
      rewrite Ho'. simpl. exists v, h, d, (with_objs s o'). split_and!; [done|done|done|].
      right. exists o'. split_and!; [done| | |done| |].
      * rewrite Hlo. apply length_insert.
      * by apply (Forall_aged 8 (maxVal (rrpv d) - cnt d) o1 o' (λ h, h ∈ cs)).
      * rewrite Hlk', decide_True by (by eapply list_elem_of_lookup_2).
        unfold o1. rewrite list_lookup_insert_eq by done. simpl. unfold aged. simpl.
        do 2 f_equal. unfold sat_add, sat_add_nonneg, set_counter. simpl.
        repeat case_match; reflect_bool; simpl in *; try lia; done.
      * intros h' Hne'. rewrite Hlk'. unfold o1. by rewrite list_lookup_insert_ne.
    + exists v, h, d, (with_objs s o1). split_and!; [done|done|done|].
      right. exists o1. split_and!; [done|apply length_insert|done|done| |].
      * unfold o1. by rewrite list_lookup_insert_eq.
      * intros h' Hne'. unfold o1. rewrite list_lookup_insert_ne by done.
        replace (maxVal (rrpv d) - cnt d) with 0 by lia. case_decide as Hin; [|done].
        destruct (objs s !! h') as [e|] eqn:Ee; [|done]. simpl. f_equal.
        unfold aged, sat_add, sat_add_nonneg, set_counter. simpl.
        rewrite Forall_lookup in Hwf. destruct (Hwf _ _ Ee) as (? & _).
        rewrite (proj2 (Z.leb_le _ _)) by lia. rewrite Z.add_0_r.
        by destruct e as [[] ?].
Qed.

End BRRIP.

Lemma sat_dec_wf w c : sat_wf w c → sat_wf w (sat_dec c).
Proof.
  intros (? & ? & ?). unfold sat_wf, sat_dec. case_match; reflect_bool; simpl; lia.
Qed.
Lemma sat_reset_wf w c : sat_wf w c → sat_wf w (sat_reset c).
Proof. intros (? & ? & ?). unfold sat_wf. simpl. lia. Qed.
Lemma sat_saturate_wf w c : sat_wf w c → sat_wf w (sat_saturate c).2.
Proof. intros (? & ? & ?). unfold sat_wf. simpl. lia. Qed.

#[export] Hint Resolve sat_dec_wf sat_reset_wf sat_saturate_wf : gem5.

Lemma BRRIP_laws assoc : (0 < assoc)%nat → PolicyLaws BRRIP.t assoc.
Proof.
  intros Hassoc. split; unfold pol_inv, BRRIP_inv; simpl; intros;
    repeat match goal with H : _ ∧ _ |- _ => destruct H end; try done.
  - unfold BRRIP.instantiateEntry. rewrite newSat_Ok by (simpl; lia). simpl. subst n.
    eexists. split; [reflexivity|]. simpl. rewrite length_app. simpl.
    split_and!; [lia..|]. apply Forall_app. split; [done|]. apply Forall_singleton. simpl.
    pose proof (Z.pow_le_mono_r 2 (BRRIP.numRRPVBits s) 8).
    pose proof (Z.pow_pos_nonneg 2 (BRRIP.numRRPVBits s)).
    unfold sat_wf. simpl. lia.
  - unfold BRRIP.invalidate. run_objs. eexists. split; [reflexivity|]. simpl.
    rewrite length_insert. split_and!; try done. apply Forall_insert; [done|]. simpl.
    rewrite Forall_lookup in *. eauto.
  - unfold BRRIP.touch. run_objs. eexists. split; [reflexivity|]. simpl.
    rewrite length_insert. split_and!; try done. apply Forall_insert; [done|]. simpl.
    rewrite Forall_lookup in *. case_match; eauto with gem5.
  - unfold BRRIP.reset. run_objs. eexists. split; [reflexivity|]. simpl.
    rewrite length_insert. split_and!; try done. apply Forall_insert; [done|]. simpl.
    rewrite Forall_lookup in *.
    assert (sat_wf 8 (sat_saturate (BRRIP.rrpv d)).2) by eauto with gem5.
    case_match; eauto with gem5.
  - destruct (brrip_victim s (seq (k * assoc) assoc)) as (v & h & d & s' & Hv & Hh & Ed & Hs').
    + destruct assoc; [lia|done].
    + apply NoDup_seq.
    + intros h Hh. eapply seq_lt; [|done]. lia.
    + done.
    + exists v, s'. apply lookup_lt_Some in Hh. rewrite length_seq in Hh.
      split; [done|]. split; [lia|].
      destruct Hs' as [[_ ->]|(o' & -> & Hl & Hwf' & _)]; [done|]. simpl.
      split_and!; try done. lia.
Qed.

(** ** LRU refines the recency stack *)

Section RecencyStack.

(** The abstract policy: the entries from least to most recently used. *)
Definition move_to_back (h : nat) (st : list nat) : list nat :=
  filter (λ x, x ≠ h) st ++ [h].

Definition stack_victim (cs st : list nat) : option nat :=
  head (filter (λ h, h ∈ cs) st).

(** A run of accesses: each is the tick it happens at and the entry. *)
Fixpoint lru_accesses (tr : list (Z * nat)) (s : LRU.t) : res LRU.t :=
  match tr with
  | [] => Ok s
  | (now, h) :: tr => let* s := LRU.touch now h s in lru_accesses tr s
  end.

Definition stack_accesses (tr : list (Z * nat)) (st : list nat) : list nat :=
  foldl (λ st a, move_to_back a.2 st) st tr.

(** Each access happens at a later tick than the one before it. *)
Fixpoint ticks_from (now : Z) (tr : list (Z * nat)) : Prop :=
  match tr with
  | [] => True
  | (t, _) :: tr => now ≤ t ∧ ticks_from (t + 1) tr
  end.

(** Timestamp order, ties broken by the order of creation. *)
Definition lru_before (ds : list Z) (a b : nat) : Prop :=
  ∃ ta tb, ds !! a = Some ta ∧ ds !! b = Some tb ∧ (ta < tb ∨ ta = tb ∧ (a < b)%nat).

Definition lru_rel (now : Z) (st : list nat) (s : LRU.t) : Prop :=
  StronglySorted (lru_before (LRU.data s)) st ∧
  (∀ h, h ∈ st ↔ (h < length (LRU.data s))%nat) ∧
  (∀ h t, LRU.data s !! h = Some t → t < now).

Lemma StronglySorted_filter {A} (R : A → A → Prop) (P : A → Prop)
    `{∀ x, Decision (P x)} l : StronglySorted R l → StronglySorted R (filter P l).
Proof.
  induction 1 as [|x l Hl IH Hx]; [constructor|]. rewrite filter_cons.
  case_decide; [|done]. constructor; [done|].
  rewrite Forall_forall in *. intros y [_ ?]%list_elem_of_filter. auto.
Qed.

Lemma StronglySorted_impl_in {A} (R R' : A → A → Prop) l :
  (∀ x y, x ∈ l → y ∈ l → R x y → R' x y) → StronglySorted R l → StronglySorted R' l.
Proof.
  intros HR. induction 1 as [|x l Hl IH Hx]; constructor.
  - apply IH. set_solver.
  - rewrite Forall_forall in *. set_solver.
Qed.

Lemma lru_rel_touch now st s h :
  lru_rel now st s → (h < length (LRU.data s))%nat →
  ∃ s', LRU.touch now h s = Ok s' ∧ lru_rel (now + 1) (move_to_back h st) s' ∧
        length (LRU.data s') = length (LRU.data s).
Proof.
  intros (Hs & Hin & Ht) Hh. unfold LRU.touch. rewrite obj_set_lt by done. simpl.
  eexists. split; [done|]. simpl. split; [|by rewrite length_insert]. split_and!; simpl.
  - apply StronglySorted_app_2; [| |repeat constructor].
    + intros x y [Hx Hxs]%list_elem_of_filter ->%list_elem_of_singleton.
      apply Hin in Hxs. destruct (lookup_lt_is_Some_2 _ _ Hxs) as [tx Htx].
      exists tx, now. rewrite list_lookup_insert_ne, list_lookup_insert_eq by done.
      split_and!; [done|done|]. left. eauto.
    + apply (StronglySorted_impl_in (lru_before (LRU.data s)));
        [|by apply StronglySorted_filter].
      intros x y [Hx _]%list_elem_of_filter [Hy _]%list_elem_of_filter.
      unfold lru_before. by rewrite !list_lookup_insert_ne.
  - intros x. unfold move_to_back. rewrite elem_of_app, list_elem_of_filter, Hin,
      list_elem_of_singleton, length_insert. destruct (decide (x = h)); naive_solver.
  - intros x t [(<- & <- & _)|(_ & Hx)]%list_lookup_insert_Some; [lia|].
    apply Ht in Hx. lia.
Qed.

Lemma lru_rel_victim now st s a len :
  lru_rel now st s → (0 < len)%nat → (a + len ≤ length (LRU.data s))%nat →
  ∃ v, LRU.getVictim (seq a len) s = Ok (v, s) ∧
       stack_victim (seq a len) st = Some (a + v)%nat.
Proof.
  intros (Hs & Hin & Ht) Hlen Ha. unfold LRU.getVictim.
  destruct (obj_get_all_lt (LRU.data s) (seq a len)) as (r & Hr & Hl).
  { intros h [? ?]%elem_of_seq. lia. }
  destruct (obj_get_all_lookup _ _ _ Hr) as [_ Hlk]. rewrite length_seq in Hl.
  destruct (scan_victim_lt (λ c v, c <? v) r) as (v & Hv & Hvl); [by intros ->; simpl in *; lia|].
  rewrite Hr. simpl. rewrite Hv. simpl. exists v. split; [done|].
  destruct ltb_scan_order as (O1 & O2 & O3).
  destruct (scan_victim_spec _ O1 O2 O3 r v Hv) as (tv & Htv & Hmin & Hfirst).
  assert (∀ j, (j < len)%nat → LRU.data s !! (a + j)%nat = r !! j) as Hdat.
  { intros j Hj. apply Hlk. by apply lookup_seq_lt. }
  assert (a + v ∈ filter (λ h, h ∈ seq a len) st)%nat as Hmem.
  { apply list_elem_of_filter. rewrite elem_of_seq. split; [lia|]. apply Hin. lia. }
  unfold stack_victim. apply (StronglySorted_filter _ (λ h, h ∈ seq a len)) in Hs.
  destruct (filter _ st) as [|x l] eqn:Ef; [set_solver|]. simpl. f_equal.
  assert (x ∈ seq a len) as [Hx1 Hx2]%elem_of_seq.
  { assert (x ∈ filter (λ h, h ∈ seq a len) st) as Hx by (rewrite Ef; set_solver).
    by apply list_elem_of_filter in Hx as [Hx _]. }
  apply elem_of_cons in Hmem as [->|Hmem]; [done|exfalso].
  apply StronglySorted_cons in Hs as [Hx _]. rewrite Forall_forall in Hx.
  destruct (Hx _ Hmem) as (tx & t & Htx & Ht' & Hlt).
  replace x with (a + (x - a))%nat in Htx by lia. rewrite Hdat in Htx, Ht' by lia.
  assert (t = tv) as -> by congruence.
  pose proof (Hmin tx ltac:(by eapply list_elem_of_lookup_2)) as Hge. reflect_bool.
  destruct Hlt as [?|[-> ?]]; [lia|].
  pose proof (Hfirst (x - a)%nat tv ltac:(lia) Htx). reflect_bool. lia.
Qed.

Lemma lru_rel_run tr now st s :
  lru_rel now st s → ticks_from now tr →
  Forall (λ a, (a.2 < length (LRU.data s))%nat) tr →
  ∃ s' now', lru_accesses tr s = Ok s' ∧ lru_rel now' (stack_accesses tr st) s' ∧
    length (LRU.data s') = length (LRU.data s).
Proof.
  revert now st s. induction tr as [|[t h] tr IH]; intros now st s Hrel Hso Hh; simpl in *.
  { eauto. }
  apply Forall_cons in Hh as [Hh Htr]. destruct Hso as [Hnow Hso].
  assert (lru_rel t st s) as Hrel'.
  { destruct Hrel as (? & ? & Hb). split_and!; [done|done|]. intros h' t' ?%Hb. lia. }
  destruct (lru_rel_touch t st s h Hrel' Hh) as (s1 & E & Hrel1 & Hl1).
  destruct (IH (t + 1) (move_to_back h st) s1) as (s' & now' & E' & ? & ?);
    [done|done|by rewrite Hl1|].
  exists s', now'. rewrite E. simpl. split_and!; [done|done|lia].
Qed.

Lemma seq_sorted a n : StronglySorted lt (seq a n).
Proof.
  revert a. induction n as [|n IH]; intros a; constructor; [done|].
  apply Forall_forall. intros x [? ?]%elem_of_seq. lia.
Qed.

Lemma lru_rel_init n : lru_rel 1 (seq 0 n) (LRU.mk (replicate n 0)).
Proof.
  split_and!; simpl.
  - apply (StronglySorted_impl_in lt); [|apply seq_sorted].
    intros x y [_ Hx]%elem_of_seq [_ Hy]%elem_of_seq Hxy. exists 0, 0.
    rewrite !lookup_replicate_2 by lia. auto.
  - intros h. rewrite elem_of_seq, length_replicate. lia.
  - intros h t [-> _]%lookup_replicate. lia.
Qed.

(** C38. The timestamp-based LRU policy implements the textbook recency stack:
    after any run of accesses at increasing ticks, the victim that the scan
    over a set's timestamps picks is the entry of that set closest to the
    bottom of the stack of all entries ordered by last use. *)
Theorem lru_refines_recency_stack (n a len : nat) (tr : list (Z * nat))
    (Hticks : ticks_from 1 tr) (Hh : Forall (λ x, (x.2 < n)%nat) tr)
    (Hlen : (0 < len)%nat) (Ha : (a + len ≤ n)%nat) :
  ∃ s v, lru_accesses tr (LRU.mk (replicate n 0)) = Ok s ∧
    LRU.getVictim (seq a len) s = Ok (v, s) ∧
    stack_victim (seq a len) (stack_accesses tr (seq 0 n)) = Some (a + v)%nat.
Proof.
  destruct (lru_rel_run tr 1 (seq 0 n) (LRU.mk (replicate n 0)))
    as (s & now & Hrun & Hrel & Hl); [apply lru_rel_init|done|by simpl; rewrite length_replicate|].
  simpl in Hl. rewrite length_replicate in Hl.
  destruct (lru_rel_victim now _ s a len Hrel Hlen ltac:(lia)) as (v & ? & ?). eauto.
Qed.

Lemma lru_refines_recency_stack_witness :
  ∃ s v, lru_accesses [(1, 0%nat); (2, 2%nat); (3, 1%nat); (5, 0%nat)] (LRU.mk (replicate 4 0)) = Ok s ∧
    LRU.getVictim (seq 0 3) s = Ok (v, s) ∧
    stack_victim (seq 0 3) (stack_accesses [(1, 0%nat); (2, 2%nat); (3, 1%nat); (5, 0%nat)] (seq 0 4))
      = Some (0 + v)%nat.
Proof.
  apply (lru_refines_recency_stack 4 0 3); [simpl; lia|repeat constructor; simpl; lia|lia|lia].
Defined.

End RecencyStack.
