(* ===== verification/TreePLRUSpec.v ===== *)
(** Tree-PLRU: the bit tree is walked correctly for every number of leaves,
    the victim after an invalidation is the invalidated leaf, and a touched
    leaf is never the next victim. *)

From stdpp Require Import prelude list.
From Stdlib Require Import ZArith Lia.
From S2P Require Import Prelude SatCounter Replacement ReplacementSpec.

Open Scope Z_scope.

Section Tree.
Import TreePLRU.

(** [on_path y z]: node [y] is [z] or an ancestor of it. *)
Inductive on_path (y : Z) : Z → Prop :=
| on_path_refl : on_path y y
| on_path_step z : 0 < z → on_path y (parentIndex z) → on_path y z.

Lemma parentIndex_eq z : 0 < z < 2 ^ 64 → parentIndex z = (z - 1) / 2.
Proof. intros. unfold parentIndex. rewrite u64_small; [done|lia]. Qed.

Lemma parentIndex_lt z : 0 < z < 2 ^ 64 → 0 ≤ parentIndex z < z.
Proof. intros. rewrite parentIndex_eq by lia. Z.div_mod_to_equations. lia. Qed.

(** The child a node's bit selects. *)
Definition child (b : bool) (y : Z) : Z :=
  if b then rightSubtreeIndex y else leftSubtreeIndex y.

Lemma child_eq b y : 0 ≤ y < 2 ^ 62 → child b y = 2 * y + (if b then 2 else 1).
Proof.
  intros. unfold child, rightSubtreeIndex, leftSubtreeIndex.
  destruct b; rewrite u64_small; lia.
Qed.

Lemma parent_child b y : 0 ≤ y < 2 ^ 62 →
  parentIndex (child b y) = y ∧ isRightSubtree (child b y) = b ∧ y < child b y.
Proof.
  intros. rewrite child_eq by done. rewrite parentIndex_eq by (destruct b; lia).
  unfold isRightSubtree. destruct b; split_and!; try lia;
    try (apply Z.eqb_eq); try (apply Z.eqb_neq); Z.div_mod_to_equations; lia.
Qed.

Lemma child_parent z : 0 < z < 2 ^ 62 → child (isRightSubtree z) (parentIndex z) = z.
Proof.
  intros. pose proof (parentIndex_lt z). rewrite child_eq, parentIndex_eq by lia.
  unfold isRightSubtree. case_match; reflect_bool; Z.div_mod_to_equations; lia.
Qed.

Lemma on_path_le y z : 0 ≤ z < 2 ^ 64 → on_path y z → 0 ≤ y ≤ z.
Proof.
  intros Hz H. induction H as [|z Hz0 _ IH]; [lia|].
  pose proof (parentIndex_lt z). lia.
Qed.

Lemma on_path_trans x y z : on_path x y → on_path y z → on_path x z.
Proof. intros Hxy. induction 1; [done|]. by apply on_path_step. Qed.

Lemma on_path_next y z :
  on_path y z → y ≠ z → ∃ c, 0 < c ∧ parentIndex c = y ∧ on_path c z.
Proof.
  induction 1 as [|z Hz H IH]; intros Hne; [done|].
  destruct (decide (y = parentIndex z)) as [->|Hne'].
  - exists z. split_and!; [done|done|constructor].
  - destruct (IH Hne') as (c & ? & ? & ?). exists c.
    split_and!; [done|done|by apply on_path_step].
Qed.

Lemma on_path_comparable x y z :
  on_path x z → on_path y z → on_path x y ∨ on_path y x.
Proof.
  induction 1 as [|z Hz H IH]; intros Hy; [by right|].
  inversion Hy as [|? _ Hy' Ez]; subst; [|by apply IH].
  left. by apply on_path_step.
Qed.

Lemma on_path_root z : 0 ≤ z < 2 ^ 64 → on_path 0 z.
Proof.
  intros [H0 H1]. revert H1. pattern z. apply Zlt_0_ind; [|done].
  clear z H0. intros z IH Hz Hz'. destruct (decide (z = 0)) as [->|]; [constructor|].
  pose proof (parentIndex_lt z). apply on_path_step; [lia|]. apply IH; lia.
Qed.

Lemma on_path_top x y : on_path x y → 0 < x → 0 < y ≤ 2 → x = y.
Proof.
  intros H Hx Hy. inversion H as [|? _ H' E]; [done|].
  rewrite parentIndex_eq in H' by lia.
  replace ((y - 1) / 2) with 0 in H' by (Z.div_mod_to_equations; lia).
  apply on_path_le in H'; lia.
Qed.

Context (n : Z) (Hn : 2 ≤ n < 2 ^ 61).

(** The walk up from node [z] sets every ancestor according to the side it is
    left from and changes nothing at or above [z]'s own index. *)
Lemma climb_spec f fuel z tr :
  0 < z ≤ 2 * n - 2 → zlen tr = n - 1 → z < Z.of_nat fuel →
  ∃ tr', climb fuel f z tr = Ok tr' ∧ zlen tr' = n - 1 ∧
    (∀ i, z ≤ Z.of_nat i → tr' !! i = tr !! i) ∧
    (∀ y, on_path y z → 0 < y →
       tr' !! Z.to_nat (parentIndex y) = Some (f (isRightSubtree y))).
Proof using Hn.
  revert z tr. induction fuel as [|fuel IH]; intros z tr Hz Hl Hf; [lia|]. simpl.
  assert (0 ≤ parentIndex z < n - 1) as Hp.
  { rewrite parentIndex_eq by lia. Z.div_mod_to_equations. lia. }
  pose proof (parentIndex_lt z ltac:(lia)) as Hpz.
  unfold tree_set. rewrite decide_True by lia. simpl.
  set (tr1 := <[_ := _]> tr).
  assert (tr1 !! Z.to_nat (parentIndex z) = Some (f (isRightSubtree z))) as Hset.
  { apply list_lookup_insert_eq. lia. }
  assert (zlen tr1 = n - 1) as Hl1 by (unfold tr1; rewrite length_insert; lia).
  assert (∀ i, z ≤ Z.of_nat i → tr1 !! i = tr !! i) as Hfr.
  { intros i Hi. unfold tr1. rewrite list_lookup_insert_ne; [done|lia]. }
  destruct (Z.eqb_spec (parentIndex z) 0) as [E|E].
  - exists tr1. split_and!; [done|done|done|]. intros y Hy Hy0.
    inversion Hy as [|? _ Hy' Ez]; subst; [done|].
    rewrite E in Hy'. apply on_path_le in Hy'; [lia|lia].
  - destruct (IH (parentIndex z) tr1) as (tr' & -> & Hl' & Hfr' & Hp'); [lia|lia|lia|].
    exists tr'. split_and!; [done|done| |].
    + intros i Hi. rewrite Hfr' by lia. by apply Hfr.
    + intros y Hy Hy0. inversion Hy as [|? _ Hy' Ez]; subst; [|by apply Hp'].
      rewrite Hfr' by lia. done.
Qed.

(** The walk down ends at a leaf below its start, for any bits. *)
Lemma descend_total fuel tr y :
  zlen tr = n - 1 → 0 ≤ y ≤ 2 * n - 2 → Z.max 0 (n - 1 - y) < Z.of_nat fuel →
  ∃ z, descend fuel tr y = Ok z ∧ n - 1 ≤ z ≤ 2 * n - 2 ∧ on_path y z.
Proof using Hn.
  intros Hl. revert y. induction fuel as [|fuel IH]; intros y Hy Hf; [lia|]. simpl.
  rewrite Hl. destruct (Z.ltb_spec y (n - 1)).
  - unfold tree_at. rewrite decide_True by lia.
    destruct (lookup_lt_is_Some_2 tr (Z.to_nat y)) as [b Hb]; [lia|]. rewrite Hb. simpl.
    change (if b then rightSubtreeIndex y else leftSubtreeIndex y) with (child b y).
    destruct (parent_child b y) as (Hpc & _ & Hlt); [lia|].
    pose proof (child_eq b y ltac:(lia)) as Hce.
    destruct (IH (child b y)) as (z & Hz & Hzr & Hp); [destruct b; lia|lia|].
    exists z. split_and!; [done|lia..|]. eapply on_path_trans; [|done].
    apply on_path_step; [lia|]. rewrite Hpc. constructor.
  - exists y. split_and!; [done|lia..|constructor].
Qed.

(** When every node on the path to leaf [z] points towards it, the walk down
    from any of them ends at [z]. *)
Lemma descend_to fuel tr y z :
  zlen tr = n - 1 → n - 1 ≤ z ≤ 2 * n - 2 → on_path y z →
  Z.max 0 (n - 1 - y) < Z.of_nat fuel →
  (∀ c, on_path c z → 0 < c →
     tr !! Z.to_nat (parentIndex c) = Some (isRightSubtree c)) →
  descend fuel tr y = Ok z.
Proof using Hn.
  intros Hl Hz. revert y. induction fuel as [|fuel IH]; intros y Hy Hf Hb; [lia|].
  simpl. rewrite Hl. destruct (decide (y = z)) as [->|Hne].
  - by rewrite (proj2 (Z.ltb_ge _ _)) by lia.
  - destruct (on_path_next y z Hy Hne) as (c & Hc0 & Hpc & Hc).
    pose proof (on_path_le c z ltac:(lia) Hc) as Hcz.
    pose proof (parentIndex_lt c ltac:(lia)) as Hpl.
    assert (y < n - 1).
    { rewrite <- Hpc, parentIndex_eq by lia. Z.div_mod_to_equations. lia. }
    rewrite (proj2 (Z.ltb_lt _ _)) by lia. unfold tree_at. rewrite decide_True by lia.
    specialize (Hb c Hc Hc0) as Hbc. rewrite Hpc in Hbc. rewrite Hbc. simpl.
    change (if isRightSubtree c then rightSubtreeIndex y else leftSubtreeIndex y)
      with (child (isRightSubtree c) y).
    rewrite <- Hpc, child_parent by lia. apply IH; [done|lia|done].
Qed.

(** When every node on the path to leaf [z] points away from it, the walk down
    from the root ends elsewhere. *)
Lemma descend_away tr z z' :
  zlen tr = n - 1 → n - 1 ≤ z ≤ 2 * n - 2 →
  (∀ c, on_path c z → 0 < c →
     tr !! Z.to_nat (parentIndex c) = Some (negb (isRightSubtree c))) →
  descend (S (length tr)) tr 0 = Ok z' → z' ≠ z.
Proof using Hn.
  intros Hl Hz Hb Hd ->.
  destruct (on_path_next 0 z) as (c & Hc0 & Hpc & Hc); [apply on_path_root; lia|lia|].
  pose proof (on_path_le c z ltac:(lia) Hc) as Hcz.
  specialize (Hb c Hc Hc0) as Hbc. rewrite Hpc in Hbc.
  simpl in Hd. rewrite Hl, (proj2 (Z.ltb_lt _ _)) in Hd by lia.
  unfold tree_at in Hd. rewrite decide_True in Hd by lia. rewrite Hbc in Hd. simpl in Hd.
  set (b := negb (isRightSubtree c)) in *.
  change (if b then rightSubtreeIndex 0 else leftSubtreeIndex 0) with (child b 0) in Hd.
  destruct (parent_child b 0) as (Hpb & Hrb & _); [lia|].
  pose proof (child_eq b 0 ltac:(lia)) as Eb.
  destruct (descend_total (length tr) tr (child b 0)) as (w & Hw & _ & Hpw);
    [done|destruct b; lia|destruct b; lia|].
  rewrite Hw in Hd. injection Hd as ->.
  rewrite parentIndex_eq in Hpc by lia.
  assert (0 < c ≤ 2) by (Z.div_mod_to_equations; lia).
  assert (c = child b 0) as Ec.
  { destruct (on_path_comparable c (child b 0) z Hc Hpw) as [Hp|Hp];
      apply on_path_top in Hp; try lia; destruct b; lia. }
  rewrite <- Ec in Hrb. unfold b in Hrb. by destruct (isRightSubtree c).
Qed.

End Tree.

(** ** The policy object *)

Section Policy.
Import TreePLRU.
Context (assoc : nat) (Hassoc : (2 ≤ assoc)%nat) (Hmax : Z.of_nat assoc < 2 ^ 61).

(** With as many leaves as the cache has ways, the objects of set [k] share
    tree [k]. *)
Definition TreePLRU_inv : PolicyInv t := λ m s,
  numLeaves s = Z.of_nat assoc ∧ count s = Z.of_nat m ∧ length (objs s) = m ∧
  (∀ h, (h < m)%nat → objs s !! h =
     Some (mkData (Z.of_nat (h mod assoc) + Z.of_nat assoc - 1) (h / assoc))) ∧
  length (trees s) = ((m + assoc - 1) / assoc)%nat ∧
  (∀ k tr, trees s !! k = Some tr → zlen tr = Z.of_nat assoc - 1).

#[local] Existing Instance TreePLRU_inv.

Lemma tree_of h m s :
  pol_inv m s → (h < m)%nat →
  ∃ tr, trees s !! (h / assoc)%nat = Some tr ∧ zlen tr = Z.of_nat assoc - 1.
Proof using Hassoc.
  intros (_ & _ & _ & _ & Ht & Hl) Hh.
  destruct (lookup_lt_is_Some_2 (trees s) (h / assoc)%nat) as [tr Htr]; [|by eauto].
  rewrite Ht. pose proof (Nat.div_mod_eq h assoc). pose proof (Nat.mod_upper_bound h assoc).
  pose proof (Nat.div_mod_eq (m + assoc - 1) assoc).
  pose proof (Nat.mod_upper_bound (m + assoc - 1) assoc). nia.
Qed.

(** [invalidate], [touch] and [reset] on an existing entry: the tree of its set
    changes along the path of its leaf and nothing else does. *)
Lemma update_spec f h m s :
  pol_inv m s → (h < m)%nat →
  ∃ tr s', update f h s = Ok s' ∧ pol_inv m s' ∧
    trees s' !! (h / assoc)%nat = Some tr ∧
    (∀ k, k ≠ (h / assoc)%nat → trees s' !! k = trees s !! k) ∧
    ∀ y, on_path y (Z.of_nat (h mod assoc) + Z.of_nat assoc - 1) → 0 < y →
      tr !! Z.to_nat (parentIndex y) = Some (f (isRightSubtree y)).
Proof using Hassoc Hmax.
  intros Hinv Hh. destruct (tree_of h m s Hinv Hh) as (tr & Htr & Hl).
  destruct Hinv as (HL & Hc & Ho & Hobj & Ht & Hlen). unfold update, obj_get.
  rewrite (Hobj h Hh). cbn [rbind of_option tree index]. rewrite Htr.
  cbn [rbind of_option]. set (z := Z.of_nat (h mod assoc) + Z.of_nat assoc - 1).
  pose proof (Nat.mod_upper_bound h assoc ltac:(lia)).
  destruct (climb_spec (Z.of_nat assoc) ltac:(lia) f (S (Z.to_nat z)) z tr)
    as (tr' & -> & Hl' & _ & Hp); [lia..|]. simpl.
  assert (h / assoc < length (trees s))%nat by (by eapply lookup_lt_Some).
  rewrite obj_set_lt by done. simpl. exists tr'. eexists. split; [done|]. simpl.
  rewrite list_lookup_insert_eq by done. split_and!; [|done| |done].
  - unfold pol_inv, TreePLRU_inv; simpl. split_and!; try done; [by rewrite length_insert|].
    intros k t [(<- & <- & _)|(_ & Hk)]%list_lookup_insert_Some; eauto.
  - intros k Hk. by rewrite list_lookup_insert_ne.
Qed.

Lemma victim_spec m s k :
  pol_inv m s → (k * assoc + assoc ≤ m)%nat →
  ∃ tr z, trees s !! k = Some tr ∧ zlen tr = Z.of_nat assoc - 1 ∧
    descend (S (length tr)) tr 0 = Ok z ∧
    Z.of_nat assoc - 1 ≤ z ≤ 2 * Z.of_nat assoc - 2 ∧
    getVictim (seq (k * assoc) assoc) s = Ok (Z.to_nat (z - (Z.of_nat assoc - 1)), s).
Proof using Hassoc Hmax.
  intros Hinv Hm. destruct (tree_of (k * assoc) m s Hinv) as (tr & Htr & Hl); [nia|].
  rewrite Nat.div_mul in Htr by lia.
  destruct Hinv as (HL & _ & _ & Hobj & _ & _).
  destruct (descend_total (Z.of_nat assoc) ltac:(lia) (S (length tr)) tr 0)
    as (z & Hz & Hzr & _); [lia..|].
  exists tr, z. split_and!; try done; try lia. unfold getVictim.
  destruct assoc as [|a] eqn:Ea; [lia|]. cbn [seq]. rewrite <- Ea in *.
  unfold obj_get. rewrite (Hobj (k * assoc)%nat) by nia. cbn [of_option rbind tree].
  rewrite Nat.div_mul by lia. rewrite Htr. cbn [of_option rbind].
  rewrite Hz. cbn [rbind].
  rewrite HL, !u64_small by (rewrite ?u64_small; lia).
  cbn [length]. rewrite length_seq, (proj2 (Z.ltb_lt _ _)) by lia. done.
Qed.

Lemma instantiate_spec m s :
  pol_inv m s → Z.of_nat m < 2 ^ 64 - 1 →
  ∃ s', instantiateEntry s = Ok (m, s') ∧ pol_inv (S m) s'.
Proof using Hassoc Hmax.
  intros (HL & Hc & Ho & Hobj & Ht & Hlen) Hm. unfold instantiateEntry.
  rewrite HL, Hc, (proj2 (Z.eqb_neq _ _)), Ho by lia. cbn [negb require rbind].
  rewrite <- Nat2Z.inj_mod. pose proof (Nat.mod_upper_bound m assoc ltac:(lia)).
  eexists. split; [done|]. set (ts := if _ =? 0 then _ else _).
  pose proof (Nat.div_mod_eq m assoc).
  assert (length ts = S (m / assoc)) as Hts.
  { unfold ts. destruct (Z.eqb_spec (Z.of_nat (m mod assoc)) 0).
    - rewrite length_app, Ht. simpl.
      assert ((m + assoc - 1) / assoc = m / assoc)%nat as ->; [|lia].
      symmetry. apply (Nat.div_unique _ _ _ (assoc - 1)%nat); lia.
    - rewrite Ht. symmetry. apply (Nat.div_unique _ _ _ (m mod assoc - 1)%nat); lia. }
  rewrite !u64_small by (rewrite ?u64_small; lia).
  unfold pol_inv, TreePLRU_inv; simpl. split_and!.
  - done.
  - lia.
  - rewrite length_app. simpl. lia.
  - intros h Hh. destruct (decide (h = m)) as [->|].
    + rewrite lookup_app_r, Ho, Nat.sub_diag by lia. simpl. rewrite Hts. done.
    + rewrite lookup_app_l by lia. apply Hobj. lia.
  - rewrite Hts. apply (Nat.div_unique _ _ _ (m mod assoc)%nat); lia.
  - intros k tr. unfold ts. case_match; [|apply Hlen].
    intros [Hk|[_ Hk]]%lookup_app_Some; [by eapply Hlen|].
    apply list_lookup_singleton_Some in Hk as [_ <-].
    rewrite length_replicate, u64_small; lia.
Qed.

Lemma TreePLRU_laws : PolicyLaws t assoc.
Proof using Hassoc Hmax.
  split.
  - apply instantiate_spec.
  - intros m s h Hinv Hh.
    destruct (update_spec (λ r, r) h m s Hinv Hh) as (tr & s' & ? & ? & _). eauto.
  - intros now m s h Hinv Hh.
    destruct (update_spec negb h m s Hinv Hh) as (tr & s' & ? & ? & _). eauto.
  - done.
  - intros now m s h Hinv Hh.
    destruct (update_spec negb h m s Hinv Hh) as (tr & s' & ? & ? & _). eauto.
  - intros m s k Hinv Hm. destruct (victim_spec m s k Hinv Hm) as (tr & z & _ & _ & _ & ? & Hv).
    do 2 eexists. split_and!; [exact Hv|lia|done].
Qed.

End Policy.

(** Two sets of four ways, all entries just instantiated. *)
Definition two_trees : TreePLRU.t :=
  TreePLRU.mk 4 8 [[false; false; false]; [false; false; false]]
    ((λ h, TreePLRU.mkData (Z.of_nat (h mod 4) + 3) (h / 4)) <$> seq 0 8).

