(* ===== verification/ReplacementProperties.v ===== *)
(** The properties of the replacement policies that a cache's correctness and
    its victim choice rest on: every policy keeps the interface's contract, the
    second-chance search ends, and BRRIP gives up the entry predicted to be
    re-used last. *)

From stdpp Require Import prelude list.
From Stdlib Require Import ZArith Lia.
From S2P Require Import Prelude SatCounter Replacement ReplacementSpec TreePLRUSpec.

Open Scope Z_scope.



(** C40. The victim search of the second-chance policy ends after at most one
    turn per candidate and one more, on every non-empty list of candidates: it
    returns one of them that has no chance left. *)
Theorem second_chance_terminates (n : nat) (cs : list nat) (s : SecondChance.t)
    (Hinv : pol_inv n s) (Hne : cs ≠ []) (Hcs : ∀ h, h ∈ cs → (h < n)%nat) :
  ∃ v s' h, SecondChance.search (S (length cs)) cs s = Ok (v, s') ∧ pol_inv n s' ∧
    cs !! v = Some h ∧ SecondChance.hasSecondChance s' !! h = Some false.
Proof.
  apply search_terminates; [done..|]. unfold chances.
  pose proof (length_filter (λ h, SecondChance.hasSecondChance s !! h = Some true) cs). lia.
Qed.

(** Three entries inserted in order, the first two touched since. *)
Definition three_chances : SecondChance.t :=
  SecondChance.mk (FIFO.mk [1; 2; 3] 3) [true; true; false].

Lemma second_chance_terminates_witness :
  ∃ v s' h, SecondChance.search 4 [0; 1; 2]%nat three_chances = Ok (v, s') ∧
    pol_inv 3 s' ∧ [0; 1; 2]%nat !! v = Some h ∧
    SecondChance.hasSecondChance s' !! h = Some false.
Proof.
  apply (second_chance_terminates 3); [done|done|].
  intros h. rewrite !elem_of_cons, elem_of_nil. lia.
Defined.

(** BRRIP gives up an invalid candidate if there is one; otherwise it gives
    up a candidate whose re-reference prediction is the most distant of all, its
    prediction is then saturated, and every other candidate ages by exactly the
    amount that saturates the victim, so the order of the predictions is kept. *)
Theorem brrip_picks_most_distant (s : BRRIP.t) (cs : list nat)
    (Hne : cs ≠ []) (Hnd : NoDup cs)
    (Hlt : ∀ h, h ∈ cs → (h < length (BRRIP.objs s))%nat)
    (Hwf : Forall (λ d, sat_wf 8 (BRRIP.rrpv d)) (BRRIP.objs s)) :
  ∃ v h d s', BRRIP.getVictim cs s = Ok (v, s') ∧ cs !! v = Some h ∧
    BRRIP.objs s !! h = Some d ∧
    ((BRRIP.valid d = false ∧ s' = s) ∨
     ((∀ h' e, h' ∈ cs → BRRIP.objs s !! h' = Some e →
         BRRIP.valid e = true ∧ counter (BRRIP.rrpv e) ≤ counter (BRRIP.rrpv d)) ∧
      BRRIP.objs s' !! h = Some (BRRIP.mkData
        (set_counter (BRRIP.rrpv d) (maxVal (BRRIP.rrpv d))) (BRRIP.valid d)) ∧
      ∀ h', h' ≠ h → BRRIP.objs s' !! h' =
        if decide (h' ∈ cs)
        then aged (maxVal (BRRIP.rrpv d) - counter (BRRIP.rrpv d)) <$> BRRIP.objs s !! h'
        else BRRIP.objs s !! h')).
Proof.
  destruct (brrip_victim s cs Hne Hnd Hlt Hwf) as (v & h & d & s' & Hv & Hh & Hd & Hs').
  exists v, h, d, s'. split_and!; [done..|].
  destruct Hs' as [?|(o' & -> & _ & _ & ? & ? & ?)]; [by left|right; by split_and!].
Qed.

(** Two valid entries with a 2-bit prediction, and the second is the more
    distant one. *)
Definition two_predictions : BRRIP.t :=
  BRRIP.mk 2 true 3
    [BRRIP.mkData (mkSat 0 3 1) true; BRRIP.mkData (mkSat 0 3 2) true] (λ _, 0) 0.

Lemma brrip_picks_most_distant_witness :
  ∃ v h d s', BRRIP.getVictim [0; 1]%nat two_predictions = Ok (v, s') ∧
    [0; 1]%nat !! v = Some h ∧ BRRIP.objs two_predictions !! h = Some d ∧
    ((BRRIP.valid d = false ∧ s' = two_predictions) ∨
     ((∀ h' e, h' ∈ [0; 1]%nat → BRRIP.objs two_predictions !! h' = Some e →
         BRRIP.valid e = true ∧ counter (BRRIP.rrpv e) ≤ counter (BRRIP.rrpv d)) ∧
      BRRIP.objs s' !! h = Some (BRRIP.mkData
        (set_counter (BRRIP.rrpv d) (maxVal (BRRIP.rrpv d))) (BRRIP.valid d)) ∧
      ∀ h', h' ≠ h → BRRIP.objs s' !! h' =
        if decide (h' ∈ [0; 1]%nat)
        then aged (maxVal (BRRIP.rrpv d) - counter (BRRIP.rrpv d))
               <$> BRRIP.objs two_predictions !! h'
        else BRRIP.objs two_predictions !! h')).
Proof.
  apply brrip_picks_most_distant; [done|by apply (bool_decide_unpack _)| |].
  - intros h. rewrite !elem_of_cons, elem_of_nil. simpl. lia.
  - repeat constructor; unfold sat_wf; simpl; lia.
Defined.

(** Invalidating an entry under FIFO makes it the newest of its set, not the
    next victim: of two entries inserted at ticks 1 and 2, invalidating the
    first makes the second the victim. *)
Theorem fifo_invalidate_protects :
  FIFO.invalidate 0 (FIFO.mk [1; 2] 2) = Ok (FIFO.mk [3; 2] 3) ∧
  FIFO.getVictim [0; 1]%nat (FIFO.mk [3; 2] 3) = Ok (1%nat, FIFO.mk [3; 2] 3).
Proof. by split; vm_compute. Qed.
