(* ===== verification/AddrRange.v ===== *)
(** base/addr_range.hh: address ranges, contiguous or interleaved over banks by
    XOR-ed selector bits, and mem/ruby/structures/DirectoryMemory.cc, whose entries
    are indexed by the offset of an address in a list of ranges. *)

From stdpp Require Import prelude list sorting.
From Stdlib Require Import ZArith Lia.
From S2P Require Import Prelude Bits.

Open Scope Z_scope.

Import Bits.Bitfield Bits.IntMath.

Module AddrRange.

Record t := mk { _start : Z; _end : Z; masks : list Z; intlvMatch : Z }.
Implicit Types r : t.

Definition new_default : t := mk 1 0 [] 0.
Definition new (start end_ : Z) : t := mk start end_ [] 0.

(** [1ULL << n]. *)
Definition shl1 (n : Z) : res Z := let* _ := require (n <? 64) EUndef in Ok (Z.shiftl 1 n).

Definition new_masks (start end_ : Z) (ms : list Z) (match_ : Z) : res t :=
  let* _ := (if negb (bool_decide (ms = []))
             then let* n := shl1 (zlen ms) in require (negb (n <=? match_)) EFatal
             else Ok tt) in
  Ok (mk start end_ ms match_).

(** The sanity check of the XOR bits, and the masks of the legacy constructor. *)
Definition xor_apart (high xor bits : Z) : bool :=
  if (bits =? 0) || (xor =? 0) then true
  else if xor =? high then false
  else if high <? xor then bits <=? xor - high else bits <=? high - xor.

Definition legacy_mask (high xor i : Z) : res Z :=
  let* m := shl1 (u8 (high - i)) in
  if xor =? 0 then Ok m
  else let* x := shl1 (u8 (xor - i)) in Ok (Z.lor m x).

Definition new_legacy (start end_ high xor bits match_ : Z) : res t :=
  let* _ := (if bits =? 0 then Ok tt
             else let* n := shl1 bits in require (negb (n <=? match_)) EFatal) in
  let* _ := require (xor_apart high xor bits) EFatal in
  let* ms := loop_from (Z.to_nat bits) 0
    (λ i ms, let* m := legacy_mask high xor i in vset ms (bits - i - 1) m)
    (replicate (Z.to_nat bits) 0) in
  Ok (mk start end_ ms match_).

Definition interleaved r : bool := 0 <? zlen (masks r).
Definition size r : Z := Z.shiftr (u64 (_end r - _start r)) (zlen (masks r)).

(** The masks are combined in an [int]. *)
Definition granularity r : res Z :=
  if interleaved r then
    let combined_mask := foldl (λ c m, i32 (Z.lor (u64 c) m)) 0 (masks r) in
    shl1 (u8 (ctz64 (u64 combined_mask)))
  else Ok (size r).

Definition stripes r : res Z := let* n := shl1 (zlen (masks r)) in Ok (u32 n).
Definition valid r : bool := _start r <=? _end r.
Definition start r : Z := _start r.
Definition end_ r : Z := _end r.

Definition mergesWith r (o : t) : bool :=
  (_start o =? _start r) && (_end o =? _end r) && bool_decide (masks o = masks r).

(** The constructor that merges the ranges of all stripes. *)
Fixpoint check_stripes r (rs : list t) (match_ : Z) : res unit :=
  match rs with
  | [] => Ok tt
  | it :: rs =>
      let* _ := require (mergesWith r it) EFatal in
      let* _ := require (intlvMatch it =? match_) EFatal in
      check_stripes r rs (u8 (match_ + 1))
  end.

Definition new_merged (rs : list t) : res t :=
  let r := default new_default (head rs) in
  if 1 <? zlen rs then
    let* n := shl1 (zlen (masks r)) in
    let* _ := require (zlen rs =? n) EFatal in
    let* _ := check_stripes r rs 0 in
    Ok (mk (_start r) (_end r) [] 0)
  else Ok r.

(** The selector: bit [i] is the parity of the address bits of mask [i]. *)
Fixpoint sel_from (a : Z) (ms : list Z) (i sel : Z) : res Z :=
  match ms with
  | [] => Ok sel
  | m :: ms =>
      let* _ := require (i <? 31) EUndef in
      let masked := Z.land a m in
      sel_from a ms (i + 1) (Z.lor sel (Z.shiftl (Z.rem (popCount masked) 2) i))
  end.

Definition contains r (a : Z) : res bool :=
  if (_start r <=? a) && (a <? _end r)
  then let* sel := sel_from a (masks r) 0 0 in Ok (sel =? intlvMatch r)
  else Ok false.

Definition intersects r (o : t) : res bool :=
  if (_end o <=? _start r) || (_end r <=? _start o) then Ok false
  else if negb (interleaved r) && negb (interleaved o) then Ok true
  else if size o =? 1 then contains r (start o)
  else if mergesWith r o then Ok (intlvMatch r =? intlvMatch o)
  else Err EPanic.

Definition isSubset r (o : t) : res bool :=
  if interleaved r then Err EPanic
  else if interleaved o then
    let* b := contains o (_start r) in
    if b : bool then
      let* b := contains o (u64 (_end r - 1)) in
      if b : bool then let* g := granularity o in Ok (size r <=? g) else Ok false
    else Ok false
  else if _end r <=? _start r then Ok ((_start o <=? _start r) && (_end o =? 0))
  else if _end o <=? _start o then Ok (_start o <=? _start r)
  else Ok ((_start o <=? _start r) && (_end r <=? _end o)).

(** The positions of the lowest bits of the masks, sorted. *)
Definition masks_lsb r : list Z := merge_sort Z.le (ctz64 <$> masks r).

(** The loops over the positions: [i] bits were removed already. *)
Fixpoint remove_bits (lsbs : list Z) (i a : Z) : res Z :=
  match lsbs with
  | [] => Ok a
  | intlv_bit :: lsbs =>
      let* a := (if 0 <? intlv_bit
                 then insertBits (Z.shiftr a 1) (u32 (intlv_bit - i - 1)) 0 a
                 else Ok (Z.shiftr a 1)) in
      remove_bits lsbs (i + 1) a
  end.

Definition removeIntlvBits r (a : Z) : res Z :=
  if negb (interleaved r) then Ok a else remove_bits (masks_lsb r) 0 a.

Fixpoint add_bits (lsbs : list Z) (a : Z) : res Z :=
  match lsbs with
  | [] => Ok a
  | intlv_bit :: lsbs =>
      let* a := (if 0 <? intlv_bit
                 then insertBits (u64 (Z.shiftl a 1)) (u32 (intlv_bit - 1)) 0 a
                 else Ok (u64 (Z.shiftl a 1))) in
      add_bits lsbs a
  end.

(** The lowest bit of each mask gets the value that makes the selector match. The
    constant [1] that is shifted is an [int]. *)
Fixpoint set_lsbs (match_ : Z) (ms : list Z) (i a : Z) : res Z :=
  match ms with
  | [] => Ok a
  | m :: ms =>
      let lsb := ctz64 m in
      let* intlv_bit := bits match_ i i in
      let* _ := require (lsb <? 32) EUndef in
      let masked := Z.land (Z.land a m) (u64 (Z.lnot (i32 (Z.shiftl 1 lsb)))) in
      let* a := insertBits a lsb lsb (Z.lxor intlv_bit (popCount masked)) in
      set_lsbs match_ ms (i + 1) a
  end.

Definition addIntlvBits r (a : Z) : res Z :=
  if negb (interleaved r) then Ok a
  else let* a := add_bits (masks_lsb r) a in set_lsbs (intlvMatch r) (masks r) 0 a.

Definition MaxAddr : Z := 2 ^ 64 - 1.

Definition getOffset r (a : Z) : res Z :=
  if negb ((_start r <=? a) && (a <? _end r)) then Ok MaxAddr
  else if interleaved r then
    let* x := removeIntlvBits r a in
    let* y := removeIntlvBits r (_start r) in
    Ok (u64 (x - y))
  else Ok (u64 (a - _start r)).

Definition lt r (o : t) : bool :=
  if negb (_start r =? _start o) then _start r <? _start o
  else if interleaved r && interleaved o then intlvMatch r <? intlvMatch o
  else interleaved r.

Definition eqb r (o : t) : bool :=
  (_start r =? _start o) && (_end r =? _end o) && bool_decide (masks r = masks o) &&
  (intlvMatch r =? intlvMatch o).

Definition inter r (o : t) : res t :=
  let* _ := require (negb (interleaved r || interleaved o)) EPanic in
  let s := Z.max (_start r) (_start o) in
  let e := Z.min (_end r) (_end o) in
  Ok (if e <=? s then new 0 0 else new s e).

(** [std::list::sort], which is stable. *)
Fixpoint insert_range r (l : list t) : list t :=
  match l with
  | [] => [r]
  | o :: l => if lt r o then r :: o :: l else o :: insert_range r l
  end.
Definition sort_ranges (l : list t) : list t := foldl (λ l r, insert_range r l) [] l.

(** The loop over the sorted ranges to exclude: [next] is the start of what may
    still be kept, [acc] what was kept. *)
Fixpoint exclude_from r (es : list t) (next : Z) (acc : list t) : res (list t) :=
  match es with
  | [] => Ok (if next <? end_ r then acc ++ [new next (end_ r)] else acc)
  | e :: es =>
      assert! negb (interleaved e) in
      let* b := intersects r e in
      if negb b then exclude_from r es next acc
      else if start e <=? next then
        if end_ e <? end_ r then exclude_from r es (if next <? end_ e then end_ e else next) acc
        else Ok acc
      else
        let acc := acc ++ [new next (start e)] in
        if end_ e <? end_ r then exclude_from r es (end_ e) acc else Ok acc
  end.

Definition exclude r (exclude_ranges : list t) : res (list t) :=
  assert! negb (interleaved r) in
  exclude_from r (sort_ranges exclude_ranges) (start r) [].

Fixpoint exclude_each (base : list t) (to_exclude : list t) : res (list t) :=
  match base with
  | [] => Ok []
  | r :: base =>
      let* l := exclude r to_exclude in
      let* rest := exclude_each base to_exclude in
      Ok (l ++ rest)
  end.

Definition exclude_list (base to_exclude : list t) : res (list t) :=
  exclude_each base (sort_ranges to_exclude).

Definition RangeEx (s e : Z) : t := new s e.
Definition RangeIn (s e : Z) : t := new s (u64 (e + 1)).
Definition RangeSize (s n : Z) : t := new s (u64 (s + n)).

End AddrRange.

(** ** mem/ruby/structures/DirectoryMemory.cc *)

Module DirectoryMemory.
Import AddrRange.
Section DirectoryMemory.
(** The entries are objects of a class generated with the protocol; [prepare] is
    what [allocate] does to the object it is given: permission, block size and
    system. *)
Context {ENTRY : Type} (prepare : ENTRY → ENTRY).

Record t := mk {
  m_entries : list (option ENTRY); m_size_bytes : Z; m_size_bits : Z; m_num_entries : Z;
  m_block_size : Z; addrRanges : list AddrRange.t }.
Implicit Types d : t.

(** The constructor; the array is allocated by [init]. *)
Definition new (ranges : list AddrRange.t) (block_size : Z) : res t :=
  let bytes := foldl (λ n r, u64 (n + size r)) 0 ranges in
  let* bits := floorLog2 8 bytes in
  Ok (mk [] bytes bits 0 block_size ranges).

(** The loop of [init] counts with an [int]. *)
Definition init d : res t :=
  let* _ := require (negb (m_block_size d =? 0)) EUndef in
  let n := m_size_bytes d / m_block_size d in
  let* _ := require (n <? 2 ^ 31) EUndef in
  Ok (mk (replicate (Z.to_nat n) None) (m_size_bytes d) (m_size_bits d) n (m_block_size d)
         (addrRanges d)).

(** The destructor, as the entries it deletes, in order. *)
Definition destroy d : res (list ENTRY) :=
  loop_from (Z.to_nat (m_num_entries d)) 0
    (λ i freed, let* e := vget (m_entries d) i in Ok (freed ++ option_list e)) [].

Fixpoint any_contains (rs : list AddrRange.t) (address : Z) : res bool :=
  match rs with
  | [] => Ok false
  | r :: rs => let* b := contains r address in
               if b : bool then Ok true else any_contains rs address
  end.

Definition isPresent d (address : Z) : res bool := any_contains (addrRanges d) address.

(** The flat offset of an address in the ranges from [ret] on. *)
Fixpoint flat_offset (rs : list AddrRange.t) (address ret : Z) : res Z :=
  match rs with
  | [] => Ok ret
  | r :: rs =>
      let* b := contains r address in
      if b : bool then let* o := getOffset r address in Ok (u64 (ret + o))
      else flat_offset rs address (u64 (ret + size r))
  end.

Definition mapAddressToLocalIdx d (address : Z) : res Z :=
  let* ret := flat_offset (addrRanges d) address 0 in
  let* n := floorLog2 4 (m_block_size d) in
  Ok (Z.shiftr ret n).

Definition getSize d : Z := m_size_bytes d.

(** The index of an address the directory answers for. *)
Definition index d (address : Z) : res Z :=
  let* p := isPresent d address in
  assert! p in
  let* idx := mapAddressToLocalIdx d address in
  assert! idx <? m_num_entries d in Ok idx.

Definition lookup d (address : Z) : res (option ENTRY) :=
  let* idx := index d address in vget (m_entries d) idx.

Definition with_entries d (l : list (option ENTRY)) : t :=
  mk l (m_size_bytes d) (m_size_bits d) (m_num_entries d) (m_block_size d) (addrRanges d).

Definition allocate d (address : Z) (entry : ENTRY) : res t :=
  let* idx := index d address in
  let* old := vget (m_entries d) idx in
  let* _ := require (match old with None => true | Some _ => false end) EAssert in
  let* l := vset (m_entries d) idx (Some (prepare entry)) in
  Ok (with_entries d l).

Definition deallocate d (address : Z) : res t :=
  let* idx := index d address in
  let* old := vget (m_entries d) idx in
  let* _ := require (match old with None => false | Some _ => true end) EAssert in
  let* l := vset (m_entries d) idx None in
  Ok (with_entries d l).

End DirectoryMemory.
Arguments t ENTRY : clear implicits.
End DirectoryMemory.
