(* ===== verification/AddrRangeSpec.v ===== *)
(** Interleaved address ranges: the offsets of the addresses of a range number
    them without gaps or clashes, the stripes of an interleaving partition their
    range, and excluding ranges from a range is set difference. A directory
    therefore has one entry for every line of its ranges. *)

From stdpp Require Import prelude list sorting.
From Stdlib Require Import ZArith Lia.
From S2P Require Import Prelude Bits AddrRange.

Open Scope Z_scope.

Import Bits.Bitfield Bits.IntMath.

(** ** Removing bits *)

(** The bits of [a] without bit [q]. *)
Definition drop_bit (q a : Z) : Z := a mod 2 ^ q + 2 ^ q * (a / 2 ^ (q + 1)).

(** The bits at the positions [ps] of the original word, [i] of which were
    removed below them. *)
Fixpoint drop_bits (ps : list Z) (i a : Z) : Z :=
  match ps with
  | [] => a
  | p :: ps => drop_bits ps (i + 1) (drop_bit (p - i) a)
  end.

Section Removing.
Import AddrRange.

Lemma drop_bit_parts q a : 0 ≤ q → 0 ≤ a →
  ∃ h b l, a = 2 ^ (q + 1) * h + 2 ^ q * b + l ∧ 0 ≤ h ∧ 0 ≤ b < 2 ∧ 0 ≤ l < 2 ^ q ∧
    drop_bit q a = 2 ^ q * h + l.
Proof.
  intros Hq Ha. assert (0 < 2 ^ q) by lia. assert (2 ^ (q + 1) = 2 * 2 ^ q) as E.
  { rewrite Z.pow_add_r by lia. lia. }
  exists (a / 2 ^ (q + 1)), ((a / 2 ^ q) mod 2), (a mod 2 ^ q).
  pose proof (Z.div_mod a (2 ^ q)). pose proof (Z.div_mod (a / 2 ^ q) 2).
  assert (a / 2 ^ (q + 1) = a / 2 ^ q / 2) as E2.
  { rewrite E, Z.mul_comm, Z.div_div by lia. done. }
  split_and!.
  - rewrite E2, E. lia.
  - apply Z.div_pos; lia.
  - apply Z.mod_pos_bound. lia.
  - apply Z.mod_pos_bound. lia.
  - apply Z.mod_pos_bound. lia.
  - apply Z.mod_pos_bound. lia.
  - unfold drop_bit. lia.
Qed.

Lemma drop_bit_testbit q a k : 0 ≤ q → 0 ≤ k →
  Z.testbit (drop_bit q a) k = Z.testbit a (if k <? q then k else k + 1).
Proof.
  intros Hq Hk. unfold drop_bit. assert (0 < 2 ^ q) by lia.
  pose proof (Z.mod_pos_bound a (2 ^ q)). destruct (Z.ltb_spec k q).
  - rewrite <- (Z.mod_pow2_bits_low _ q k) by lia. rewrite (Z.mul_comm (2 ^ q)), Z_mod_plus_full.
    by rewrite Z.mod_mod, Z.mod_pow2_bits_low by lia.
  - replace k with (k - q + q) at 1 by lia. rewrite <- Z.div_pow2_bits by lia.
    rewrite (Z.mul_comm (2 ^ q)), Z.div_add, (Z.div_small (a mod 2 ^ q)), Z.add_0_l by lia.
    rewrite Z.div_pow2_bits by lia. f_equal. lia.
Qed.

Lemma drop_bit_bound q a : 0 ≤ q → 0 ≤ a < 2 ^ 64 → 0 ≤ drop_bit q a < 2 ^ 64.
Proof.
  intros Hq Ha. destruct (drop_bit_parts q a) as (h & b & l & E & ? & ? & ? & ->); [lia..|].
  assert (2 ^ (q + 1) = 2 * 2 ^ q) by (rewrite Z.pow_add_r by lia; lia). nia.
Qed.

(** One step of the loop of [removeIntlvBits]. *)
Lemma remove_step p i a : 0 ≤ i ≤ p → p < 64 → 0 ≤ a < 2 ^ 64 →
  (if 0 <? p then insertBits (Z.shiftr a 1) (u32 (p - i - 1)) 0 a else Ok (Z.shiftr a 1)) =
  Ok (drop_bit (p - i) a).
Proof.
  intros Hi Hp Ha. assert (0 ≤ Z.shiftr a 1 < 2 ^ 64) as Hs.
  { rewrite Z.shiftr_div_pow2 by lia. Z.div_mod_to_equations. lia. }
  assert (Z.shiftr a 1 = drop_bit 0 a) as E0.
  { apply Z.bits_inj'. intros k Hk. rewrite drop_bit_testbit, Z.shiftr_spec by lia.
    by rewrite (proj2 (Z.ltb_ge k 0)) by lia. }
  destruct (Z.ltb_spec 0 p); [|by replace (p - i) with 0 by lia; rewrite E0].
  destruct (decide (p = i)) as [->|Hne].
  - replace (i - i - 1) with (-1) by lia. replace (i - i) with 0 by lia. rewrite <- E0.
    unfold insertBits. change (u32 (-1)) with (2 ^ 32 - 1). simpl rbind.
    change (mask_range (2 ^ 32 - 1) 0) with 0. simpl. f_equal. rewrite !Z.land_0_r, Z.lor_0_r.
    apply Z.bits_inj'. intros k Hk. rewrite Z.land_spec, not64_testbit, Z.bits_0 by lia.
    destruct (Z.ltb_spec k 64); [by rewrite andb_true_r|]. by rewrite (testbit_high (Z.shiftr a 1) 64).
  - rewrite u32_small by lia. destruct (insertBits (Z.shiftr a 1) (p - i - 1) 0 a) as [v|] eqn:E.
    + f_equal. apply Z.bits_inj'. intros k Hk.
      rewrite (insertBits_testbit (Z.shiftr a 1) (p - i - 1) 0 a v) by (done || lia).
      rewrite drop_bit_testbit, Z.sub_0_r, Z.shiftr_spec by lia.
      rewrite (proj2 (Z.leb_le 0 k)) by lia. simpl.
      destruct (Z.leb_spec k (p - i - 1)), (Z.ltb_spec k (p - i)); done || lia.
    + unfold insertBits in E. rewrite (proj2 (Z.leb_le _ _)) in E by lia. done.
Qed.

(** Positions in strictly increasing order, from [i] on. *)
Definition positions (i : Z) (ps : list Z) : Prop :=
  0 ≤ i ∧ StronglySorted Z.lt ps ∧ Forall (λ p, i ≤ p < 64) ps.

Lemma positions_cons i p ps : positions i (p :: ps) → 0 ≤ i ≤ p ∧ p < 64 ∧ positions (i + 1) ps ∧
  Forall (λ x, p < x) ps.
Proof.
  intros (Hi & [Hlt Hs]%StronglySorted_cons & [Hp Hf]%Forall_cons). split_and!; try lia; try done.
  split_and!; [lia|done|]. rewrite Forall_forall in *. intros x Hx. specialize (Hlt x Hx).
  specialize (Hf x Hx). lia.
Qed.

Lemma remove_bits_drop ps i a : positions i ps → 0 ≤ a < 2 ^ 64 →
  remove_bits ps i a = Ok (drop_bits ps i a) ∧ 0 ≤ drop_bits ps i a < 2 ^ 64.
Proof.
  revert i a. induction ps as [|p ps IH]; intros i a Hps Ha; [done|].
  destruct (positions_cons _ _ _ Hps) as (Hi & Hp & Hps' & _). simpl.
  rewrite remove_step by lia. simpl. apply IH; [done|]. apply drop_bit_bound; lia.
Qed.

(** What is left determines all the other bits. *)
Lemma drop_bits_inj ps i a a' : positions i ps → drop_bits ps i a = drop_bits ps i a' →
  ∀ k, 0 ≤ k → k + i ∉ ps → Z.testbit a k = Z.testbit a' k.
Proof.
  revert i a a'. induction ps as [|p ps IH]; intros i a a' Hps E k Hk Hin; simpl in E; [by rewrite E|].
  destruct (positions_cons _ _ _ Hps) as (Hi & Hp & Hps' & Hlt).
  apply not_elem_of_cons in Hin as [Hne Hin]. rewrite Forall_forall in Hlt.
  destruct (decide (k < p - i)) as [Hlow|Hhigh].
  - assert (k + (i + 1) ∉ ps) as Hin' by (intros Hx%Hlt; lia).
    pose proof (IH _ _ _ Hps' E k Hk Hin') as Hb. rewrite !drop_bit_testbit in Hb by lia.
    by rewrite (proj2 (Z.ltb_lt k _)) in Hb by lia.
  - assert (k - 1 + (i + 1) ∉ ps) as Hin' by (replace (k - 1 + (i + 1)) with (k + i) by lia; done).
    pose proof (IH _ _ _ Hps' E (k - 1)) as Hb. rewrite !drop_bit_testbit in Hb by lia.
    rewrite (proj2 (Z.ltb_ge (k - 1) _)), Z.sub_add in Hb by lia. apply Hb; [lia|done].
Qed.

(** The bounds of a range whose limits are multiples of all the removed bits. *)
Lemma drop_bits_bounds ps i s a e m : positions i ps → Forall (λ p, p - i < m) ps → 0 ≤ m →
  0 ≤ s ≤ a → a < e → (2 ^ m | s) → (2 ^ m | e) →
  drop_bits ps i s = s / 2 ^ zlen ps ∧ drop_bits ps i e = e / 2 ^ zlen ps ∧
  s / 2 ^ zlen ps ≤ drop_bits ps i a < e / 2 ^ zlen ps.
Proof.
  revert i s a e m. induction ps as [|p ps IH]; intros i s a e m Hps Hm Hm0 Hs He Ds De.
  { simpl. rewrite !Z.div_1_r. lia. }
  destruct (positions_cons _ _ _ Hps) as (Hi & Hp & Hps' & Hlt). apply Forall_cons in Hm as [Hpm Hm].
  set (q := p - i) in *. assert (0 ≤ q) by lia. destruct Ds as [s' ->], De as [e' ->].
  assert (2 ^ m = 2 ^ (m - q - 1) * 2 ^ (q + 1)) as Em by (rewrite <- Z.pow_add_r by lia; f_equal; lia).
  assert (2 ^ (q + 1) = 2 * 2 ^ q) as Eq by (rewrite Z.pow_add_r by lia; lia).
  assert (∀ x, drop_bit q (x * 2 ^ m) = x * 2 ^ (m - 1)) as Hd.
  { intros x. unfold drop_bit. replace (x * 2 ^ m) with (x * 2 ^ (m - q) * 2 ^ q) at 1
      by (rewrite <- Z.mul_assoc, <- Z.pow_add_r by lia; do 2 f_equal; lia).
    rewrite Z_mod_mult, Em, Z.mul_assoc, Z.div_mul by lia. rewrite Z.add_0_l, (Z.mul_comm (2 ^ q)).
    rewrite <- Z.mul_assoc, <- Z.pow_add_r by lia. do 2 f_equal. lia. }
  simpl drop_bits. fold q. rewrite !Hd.
  assert (∀ x, x * 2 ^ (m - 1) / 2 ^ zlen ps = x * 2 ^ m / 2 ^ zlen (p :: ps)) as Hdiv.
  { intros x. rewrite length_cons, Nat2Z.inj_succ, Z.pow_succ_r by lia.
    replace m with (Z.succ (m - 1)) at 2 by lia. rewrite Z.pow_succ_r by lia.
    replace (x * (2 * 2 ^ (m - 1))) with (2 * (x * 2 ^ (m - 1))) by lia.
    by rewrite Z.div_mul_cancel_l by lia. }
  rewrite <- !Hdiv. apply (IH (i + 1) _ _ _ (m - 1)); try done; try lia.
  - eapply Forall_impl; [exact Hm|]. simpl. lia.
  - destruct (drop_bit_parts q a) as (h & b & l & Ea & Hh & Hb & Hl & ->); [lia..|]. split; [nia|].
    assert (s' * 2 ^ (m - 1) = 2 ^ q * (s' * 2 ^ (m - q - 1))) as ->.
    { rewrite (Z.mul_comm (2 ^ q)), <- Z.mul_assoc, <- Z.pow_add_r by lia. do 2 f_equal. lia. }
    assert (s' * 2 ^ (m - q - 1) ≤ h) by nia. nia.
  - destruct (drop_bit_parts q a) as (h & b & l & Ea & Hh & Hb & Hl & ->); [lia..|].
    assert (e' * 2 ^ (m - 1) = 2 ^ q * (e' * 2 ^ (m - q - 1))) as ->.
    { rewrite (Z.mul_comm (2 ^ q)), <- Z.mul_assoc, <- Z.pow_add_r by lia. do 2 f_equal. lia. }
    assert (h < e' * 2 ^ (m - q - 1)) by nia. nia.
  - by exists s'.
  - by exists e'.
Qed.

End Removing.

(** ** Selectors and offsets *)

Section Ranges.
Import AddrRange.
Implicit Types r : t.

(** A mask's bit of the selector of [a]. *)
Definition parity (a m : Z) : bool := Z.odd (popCount (Z.land a m)).

Lemma popCount_nonneg x : 0 ≤ popCount x.
Proof.
  unfold popCount. generalize (seqZ 0 64). induction l as [|i l IH]; simpl; [lia|].
  destruct (Z.testbit x i); simpl; lia.
Qed.

Lemma sel_from_spec a ms i sel : 0 ≤ i → i + zlen ms ≤ 31 →
  ∃ s, sel_from a ms i sel = Ok s ∧ ∀ k, 0 ≤ k → Z.testbit s k = Z.testbit sel k ||
    ((i <=? k) && from_option (parity a) false (ms !! Z.to_nat (k - i))).
Proof.
  revert i sel. induction ms as [|m ms IH]; intros i sel Hi Hl.
  { exists sel. split; [done|]. intros k Hk. by rewrite lookup_nil, andb_false_r, orb_false_r. }
  simpl in *. rewrite (proj2 (Z.ltb_lt i 31)) by lia. simpl.
  destruct (IH (i + 1) (Z.lor sel (Z.shiftl (Z.rem (popCount (Z.land a m)) 2) i))) as (s & -> & Hs);
    [lia..|].
  exists s. split; [done|]. intros k Hk. rewrite Hs, Z.lor_spec, Z.shiftl_spec, <- orb_assoc by done.
  f_equal. pose proof (popCount_nonneg (Z.land a m)). rewrite Z.rem_mod_nonneg, Zmod_odd by lia.
  fold (parity a m). destruct (Z.eq_dec k i) as [->|Hne].
  - rewrite Z.sub_diag. simpl. rewrite (proj2 (Z.leb_le i i)), (proj2 (Z.leb_gt (i + 1) i)) by lia. simpl.
    rewrite orb_false_r. by destruct (parity a m).
  - assert (Z.testbit (if parity a m then 1 else 0) (k - i) = false) as ->.
    { destruct (decide (k < i)); [by rewrite Z.testbit_neg_r by lia|].
      destruct (parity a m); [|by rewrite Z.bits_0]. apply (testbit_high 1 1); lia. }
    simpl. destruct (Z.leb_spec i k), (Z.leb_spec (i + 1) k); simpl; try done; try lia.
    by replace (Z.to_nat (k - i)) with (S (Z.to_nat (k - (i + 1)))) by lia.
Qed.

(** Masks with different lowest bits, few enough for the selector; limits that
    are addresses. *)
Definition range_ok r : Prop :=
  Forall (λ m, 0 < m < 2 ^ 64) (masks r) ∧ NoDup (ctz64 <$> masks r) ∧ zlen (masks r) ≤ 8 ∧
  0 ≤ _start r ∧ _end r < 2 ^ 64.

(** The address is between the limits and its selector matches. *)
Definition inside r (a : Z) : Prop :=
  _start r ≤ a < _end r ∧
  ∀ k, 0 ≤ k → Z.testbit (intlvMatch r) k = from_option (parity a) false (masks r !! Z.to_nat k).

Lemma contains_spec r a : range_ok r → ∃ b, contains r a = Ok b ∧ (b = true ↔ inside r a).
Proof.
  intros (_ & _ & Hn & _). unfold contains, inside.
  destruct (sel_from_spec a (masks r) 0 0) as (s & E & Hs); [lia..|].
  destruct (Z.leb_spec (_start r) a), (Z.ltb_spec a (_end r)); simpl;
    try (eexists; split; [done|]; split; [done|lia]).
  rewrite E. simpl. eexists. split; [done|]. rewrite Z.eqb_eq.
  assert (∀ k, 0 ≤ k → Z.testbit s k = from_option (parity a) false (masks r !! Z.to_nat k)) as Hs'.
  { intros k Hk. rewrite Hs, Z.bits_0, (proj2 (Z.leb_le 0 k)), Z.sub_0_r by done. done. }
  split.
  - intros ->. split; [lia|done].
  - intros [_ Hm]. apply Z.bits_inj'. intros k Hk. by rewrite Hs', Hm.
Qed.

Lemma elem_of_masks_lsb r p : p ∈ masks_lsb r ↔ ∃ m, m ∈ masks r ∧ p = ctz64 m.
Proof.
  unfold masks_lsb. rewrite (merge_sort_Permutation Z.le), list_elem_of_fmap. naive_solver.
Qed.

Lemma masks_lsb_positions r : range_ok r → positions 0 (masks_lsb r).
Proof.
  intros (Hm & Hnd & _). split; [done|]. split; [by apply merge_sort_lt|].
  apply Forall_forall. intros p (m & Hin & ->)%elem_of_masks_lsb. rewrite Forall_forall in Hm.
  by destruct (ctz64_spec m (Hm m Hin)) as [? _].
Qed.

(** Two addresses with the same selector that differ at most in the lowest bits of
    the masks are the same. *)
Lemma selector_determines r a a' : range_ok r → 0 ≤ a < 2 ^ 64 → 0 ≤ a' < 2 ^ 64 →
  (∀ m, m ∈ masks r → parity a m = parity a' m) →
  (∀ k, 0 ≤ k → k ∉ masks_lsb r → Z.testbit a k = Z.testbit a' k) → a = a'.
Proof.
  intros Hr Ha Ha' Hpar Hother. pose proof Hr as (Hm & _). rewrite Forall_forall in Hm.
  assert (∀ (n : nat) p, 64 - p < Z.of_nat n → p ∈ masks_lsb r → Z.testbit a p = Z.testbit a' p) as Hlsb.
  { induction n as [|n IH]; intros p Hp (m & Hin & ->)%elem_of_masks_lsb.
    - destruct (ctz64_spec m (Hm m Hin)). lia.
    - destruct (ctz64_spec m (Hm m Hin)) as (Hb & Ht & Hlow).
      assert (Z.testbit (Z.land a m) (ctz64 m) = Z.testbit (Z.land a' m) (ctz64 m)) as Heq.
      + apply popCount_parity; [done| |].
        * intros k Hk Hne. rewrite !Z.land_spec. destruct (decide (k < ctz64 m)).
          { by rewrite Hlow, !andb_false_r by done. }
          f_equal. destruct (decide (k ∈ masks_lsb r)); [apply IH; [lia|done]|by apply Hother; [lia|]].
        * specialize (Hpar m Hin). unfold parity in Hpar. by rewrite !Zmod_odd, Hpar.
      + by rewrite !Z.land_spec, Ht, !andb_true_r in Heq. }
  apply Z.bits_inj'. intros k Hk. destruct (decide (k ∈ masks_lsb r)) as [Hin|]; [|by apply Hother].
  by apply (Hlsb (Z.to_nat (65 - k))); [|done];
    apply elem_of_masks_lsb in Hin as (m & Hin & ->); destruct (ctz64_spec m (Hm m Hin)); lia.
Qed.

(** The limits are multiples of the stripes: every interleaving bit is 0 in them. *)
Definition aligned r : Prop :=
  ∃ n, 0 ≤ n ∧ Forall (λ m, ctz64 m < n) (masks r) ∧ (2 ^ n | _start r) ∧ (2 ^ n | _end r).

Lemma positions_length i ps n : positions i ps → Forall (λ p, p < n) ps → i ≤ n → i + zlen ps ≤ n.
Proof.
  revert i. induction ps as [|p ps IH]; intros i Hps Hn Hi; simpl; [lia|].
  destruct (positions_cons _ _ _ Hps) as (? & ? & Hps' & _). apply Forall_cons in Hn as [Hp Hn].
  pose proof (IH (i + 1) Hps' Hn). lia.
Qed.

Lemma length_masks_lsb r : zlen (masks_lsb r) = zlen (masks r).
Proof. unfold masks_lsb. by rewrite (merge_sort_Permutation Z.le), length_fmap. Qed.

Lemma inside_bounds r a : range_ok r → inside r a → 0 ≤ _start r ≤ a ∧ a < _end r ∧ _end r < 2 ^ 64.
Proof. intros (_ & _ & _ & ? & ?) [? _]. lia. Qed.

(** The offset is what is left of the address, from what is left of the start. *)
Lemma getOffset_spec r a : range_ok r → aligned r → inside r a →
  let o := drop_bits (masks_lsb r) 0 a - _start r / 2 ^ zlen (masks r) in
  getOffset r a = Ok o ∧ 0 ≤ o < size r.
Proof.
  intros Hr (n & Hn & Hlsb & Ds & De) Hin. destruct (inside_bounds r a Hr Hin) as (Hs & He & Hmax).
  pose proof (masks_lsb_positions r Hr) as Hps.
  assert (Forall (λ p, p < n) (masks_lsb r)) as Hlt.
  { apply Forall_forall. intros p (m & Hm & ->)%elem_of_masks_lsb. rewrite Forall_forall in Hlsb. auto. }
  destruct (drop_bits_bounds (masks_lsb r) 0 (_start r) a (_end r) n) as (Es & Ee & Hb); try done.
  { eapply Forall_impl; [exact Hlt|]. simpl. lia. }
  pose proof (positions_length 0 _ n Hps Hlt Hn) as Hlen. rewrite length_masks_lsb in *.
  assert (size r = _end r / 2 ^ zlen (masks r) - _start r / 2 ^ zlen (masks r)) as Hsize.
  { unfold size. rewrite u64_small, Z.shiftr_div_pow2 by lia.
    assert ((2 ^ zlen (masks r) | _start r)) as [s ->].
    { etransitivity; [|exact Ds]. exists (2 ^ (n - zlen (masks r))). rewrite <- Z.pow_add_r by lia. f_equal. lia. }
    replace (_end r - s * 2 ^ zlen (masks r)) with (_end r + (- s) * 2 ^ zlen (masks r)) by lia.
    rewrite Z.div_add, Z.div_mul by lia. lia. }
  intros o. split; [|unfold o; lia]. unfold getOffset.
  rewrite (proj2 (Z.leb_le _ _)), (proj2 (Z.ltb_lt _ _)) by lia. simpl.
  unfold removeIntlvBits, interleaved, o.
  destruct (Z.ltb_spec 0 (zlen (masks r))) as [Hpos|Hzero]; simpl.
  - destruct (remove_bits_drop (masks_lsb r) 0 a Hps) as [-> ?]; [lia|]. simpl.
    destruct (remove_bits_drop (masks_lsb r) 0 (_start r) Hps) as [-> ?]; [lia|]. simpl.
    rewrite Es. f_equal. apply u64_small. lia.
  - destruct (masks r) as [|m ms] eqn:Em; [|simpl in *; lia]. unfold masks_lsb. rewrite Em. simpl.
    rewrite Z.div_1_r. f_equal. apply u64_small. lia.
Qed.

(** What is left of the addresses of a range tells them apart. *)
Lemma left_inj r a a' : range_ok r → inside r a → inside r a' →
  drop_bits (masks_lsb r) 0 a = drop_bits (masks_lsb r) 0 a' → a = a'.
Proof.
  intros Hr Hin Hin' Heq. destruct (inside_bounds r a Hr Hin), (inside_bounds r a' Hr Hin').
  apply (selector_determines r); [done|lia|lia| |].
  - intros m [k Hk]%list_elem_of_lookup. destruct Hin as [_ Hm], Hin' as [_ Hm'].
    specialize (Hm (Z.of_nat k)). specialize (Hm' (Z.of_nat k)). rewrite Nat2Z.id, Hk in Hm, Hm'. simpl in *.
    rewrite <- Hm, <- Hm' by lia. done.
  - intros k Hk Hnot. apply (drop_bits_inj (masks_lsb r) 0); [by apply masks_lsb_positions|done|done|].
    by rewrite Z.add_0_r.
Qed.

(** C27. The offsets of a range number its addresses. The offset of an address of
    an aligned range, interleaved by any masks with different lowest bits, is below
    the size of the range, and two addresses of the range with the same offset are
    the same, although the offset is computed by dropping only the lowest bit of
    each mask: the selector determines it from the others. *)
Theorem offsets_number_range r a a' (Hr : range_ok r) (Hal : aligned r)
    (Ha : contains r a = Ok true) (Ha' : contains r a' = Ok true) :
  ∃ o o', getOffset r a = Ok o ∧ getOffset r a' = Ok o' ∧ 0 ≤ o < size r ∧ 0 ≤ o' < size r ∧
    (o = o' → a = a').
Proof.
  destruct (contains_spec r a Hr) as (b & E & Hin). rewrite Ha in E. injection E as <-.
  destruct (contains_spec r a' Hr) as (b & E & Hin'). rewrite Ha' in E. injection E as <-.
  apply proj1 in Hin, Hin'. specialize (Hin eq_refl). specialize (Hin' eq_refl).
  destruct (getOffset_spec r a Hr Hal Hin) as [-> Ho], (getOffset_spec r a' Hr Hal Hin') as [-> Ho'].
  eexists _, _. do 4 (split; [done|]). intros Heq. apply (left_inj r); [done..|lia].
Qed.

(** A range striped over four banks by bits 8 and 9, hashed with bits 12 and 13. *)
Definition bank (k : Z) : t := mk 0 65536 [0x1100; 0x2200] k.

Lemma bank_ok k : range_ok (bank k) ∧ aligned (bank k).
Proof.
  split.
  - split_and!; simpl; try done; [repeat constructor; lia|].
    assert ([ctz64 0x1100; ctz64 0x2200] = [8; 9]) as -> by by vm_compute.
    repeat constructor; set_solver.
  - exists 10. split; [done|]. split; [|split; [by exists 0|by exists 64]].
    simpl. repeat constructor; by vm_compute.
Qed.

Lemma offsets_number_range_witness :
  ∃ o o', getOffset (bank 3) 0x1234 = Ok o ∧ getOffset (bank 3) 0x2134 = Ok o' ∧
    0 ≤ o < size (bank 3) ∧ 0 ≤ o' < size (bank 3) ∧ (o = o' → 0x1234 = 0x2134).
Proof.
  destruct (bank_ok 3) as [Hr Ha].
  by apply (offsets_number_range (bank 3) 0x1234 0x2134 Hr Ha); vm_compute.
Defined.

End Ranges.

(** ** Excluding ranges *)

Section Exclude.
Import AddrRange.
Implicit Types r e x : t.

(** A contiguous range, as the constructor without masks makes it. *)
Definition plain r : Prop := masks r = [] ∧ intlvMatch r = 0 ∧ _start r ≤ _end r.
Definition within r (a : Z) : Prop := _start r ≤ a < _end r.

Lemma plain_contains r a : plain r → contains r a = Ok (bool_decide (within r a)).
Proof.
  intros (Hm & Hi & _). unfold contains, within. rewrite Hm, Hi. simpl.
  destruct (Z.leb_spec (_start r) a), (Z.ltb_spec a (_end r)); simpl; f_equal; symmetry;
    (apply bool_decide_true; lia) || (apply bool_decide_false; lia).
Qed.

Lemma elem_of_insert_range r l x : x ∈ insert_range r l ↔ x = r ∨ x ∈ l.
Proof. induction l as [|y l IH]; simpl; [set_solver|]. destruct (lt r y); set_solver. Qed.

Lemma elem_of_sort_ranges l x : x ∈ sort_ranges l ↔ x ∈ l.
Proof.
  unfold sort_ranges. assert (∀ k, x ∈ foldl (λ l r, insert_range r l) k l ↔ x ∈ k ∨ x ∈ l) as ->.
  { induction l as [|y l IH]; intros k; simpl; [set_solver|]. rewrite IH, elem_of_insert_range. set_solver. }
  set_solver.
Qed.

Definition by_start : list t → Prop := StronglySorted (λ x y, _start x ≤ _start y).

Lemma lt_plain r e : plain r → plain e → lt r e = (_start r <? _start e).
Proof.
  intros (Hr & _) (He & _). unfold lt, interleaved. rewrite Hr, He. simpl.
  destruct (Z.eqb_spec (_start r) (_start e)); simpl; [symmetry; apply Z.ltb_ge; lia|done].
Qed.

Lemma sort_ranges_sorted l : Forall plain l → by_start (sort_ranges l).
Proof.
  intros Hl. unfold sort_ranges. assert (∀ k, Forall plain k → by_start k →
    by_start (foldl (λ l r, insert_range r l) k l)) as Hgen; [|apply Hgen; constructor].
  induction Hl as [|r l Hr Hl IH]; intros k Hk Hs; simpl; [done|]. apply IH.
  - rewrite Forall_forall in *. intros x [->|?]%elem_of_insert_range; auto.
  - clear IH. induction Hs as [|y k Hks IH Hy]; simpl; [repeat constructor|].
    apply Forall_cons in Hk as [Hyp Hk]. rewrite lt_plain by done. rewrite Forall_forall in Hy.
    destruct (Z.ltb_spec (_start r) (_start y)).
    + constructor; [by constructor; [|apply Forall_forall]|]. constructor; [lia|].
      apply Forall_forall. intros z Hz. specialize (Hy z Hz). lia.
    + constructor; [by apply IH|]. apply Forall_forall. intros z [->|Hz]%elem_of_insert_range; [lia|auto].
Qed.

(** Ranges one after the other. *)
Definition apart : list t → Prop := StronglySorted (λ x y, _end x ≤ _start y).

Lemma apart_snoc acc next stop : apart acc → Forall (λ x, plain x ∧ _end x ≤ next) acc → next ≤ stop →
  apart (acc ++ [new next stop]) ∧ Forall (λ x, plain x ∧ _end x ≤ stop) (acc ++ [new next stop]) ∧
  ∀ a, (∃ x, x ∈ acc ++ [new next stop] ∧ within x a) ↔
    (∃ x, x ∈ acc ∧ within x a) ∨ next ≤ a < stop.
Proof.
  intros Ha Hf Hn. rewrite Forall_forall in Hf. split; [|split].
  - apply StronglySorted_app_2; [|done|repeat constructor].
    intros x y Hx ->%list_elem_of_singleton. simpl. by apply Hf.
  - apply Forall_forall. intros x [Hx| ->%list_elem_of_singleton]%elem_of_app.
    + destruct (Hf x Hx). split; [done|lia].
    + split; [by split_and!|done].
  - intros a. split.
    + intros (x & [Hx| ->%list_elem_of_singleton]%elem_of_app & Hw); eauto.
    + intros [(x & Hx & Hw)|Hw]; [exists x; set_solver|]. exists (new next stop). split; [set_solver|done].
Qed.

Lemma exclude_from_spec r es next acc : plain r → Forall plain es → by_start es →
  _start r ≤ next → apart acc → Forall (λ x, plain x ∧ _end x ≤ next) acc →
  ∃ l, exclude_from r es next acc = Ok l ∧ apart l ∧ Forall plain l ∧
    ∀ a, (∃ x, x ∈ l ∧ within x a) ↔
      (∃ x, x ∈ acc ∧ within x a) ∨ next ≤ a < _end r ∧ ∀ e, e ∈ es → ¬ within e a.
Proof.
  intros Hr Hes. revert next acc.
  assert (∀ next acc, Forall (λ x, plain x ∧ _end x ≤ next) acc → Forall plain acc) as Hplain.
  { intros next acc Hf. eapply Forall_impl; [done|]. naive_solver. }
  induction Hes as [|e es He Hes IH]; intros next acc Hs Hn Ha Hf; simpl.
  { unfold end_. destruct (Z.ltb_spec next (_end r)).
    - destruct (apart_snoc acc next (_end r)) as (? & ? & Hw); [done|done|lia|]. eexists. split; [done|].
      split; [done|]. split; [by eapply Hplain|]. intros a. rewrite Hw. set_solver.
    - eexists. split; [done|]. split; [done|]. split; [by eapply Hplain|]. intros a. split; [eauto|].
      intros [?|[? _]]; [done|lia]. }
  apply StronglySorted_cons in Hs as [Hle Hs]. rewrite Forall_forall in Hle.
  pose proof Hr as (Hrm & _ & Hrv). pose proof He as (Hem & _ & Hev).
  unfold intersects, interleaved, start, end_. rewrite Hrm, Hem. simpl.
  assert (∀ a next', (next' ≤ a < _end r ∧ (∀ x, x ∈ es → ¬ within x a)) ∧ ¬ within e a ↔
    next' ≤ a < _end r ∧ ∀ x, x ∈ e :: es → ¬ within x a) as Hcons.
  { intros a n'. split; [|set_solver]. intros [[? Hall] ?]. split; [done|].
    intros x [->|?]%elem_of_cons; auto. }
  destruct (Z.leb_spec (_end e) (_start r)); simpl;
    [|destruct (Z.leb_spec (_end r) (_start e)); simpl].
  1-2: destruct (IH next acc) as (l & E & ? & ? & Hl); [done..|]; exists l; split; [done|]; split; [done|];
    split; [done|]; intros a; rewrite Hl, <- Hcons; unfold within; split; [|tauto];
    intros [?|?]; [by left|right; split; [done|lia]].
  destruct (Z.leb_spec (_start e) next).
  - destruct (Z.ltb_spec (_end e) (_end r)).
    + set (n' := if next <? _end e then _end e else next).
      assert (n' = Z.max next (_end e)) as Hn' by (unfold n'; destruct (Z.ltb_spec next (_end e)); lia).
      destruct (IH n' acc) as (l & E & ? & ? & Hl); [done|lia|done| |].
      { eapply Forall_impl; [done|]. simpl. intros x [? ?]. split; [done|lia]. }
      exists l. split; [done|]. split; [done|]. split; [done|]. intros a. rewrite Hl, <- Hcons.
      unfold within in *. split; intros [?|?]; [by left| |by left|]; right.
      * split; [split; [lia|tauto]|lia].
      * split; [lia|tauto].
    + eexists. split; [done|]. split; [done|]. split; [by eapply Hplain|]. intros a. split; [eauto|].
      intros [?|[? Hall]]; [done|]. exfalso. apply (Hall e); [set_solver|]. unfold within. lia.
  - destruct (apart_snoc acc next (_start e)) as (Ha' & Hf' & Hacc); [done|done|lia|].
    assert (∀ a, next ≤ a < _start e → ∀ x, x ∈ e :: es → ¬ within x a) as Hbefore.
    { intros a Hlt x [->|Hx]%elem_of_cons; unfold within; [lia|]. specialize (Hle x Hx). lia. }
    destruct (Z.ltb_spec (_end e) (_end r)).
    + destruct (IH (_end e) (acc ++ [new next (_start e)])) as (l & E & ? & ? & Hl); [done|lia|done| |].
      { eapply Forall_impl; [exact Hf'|]. simpl. intros x [? ?]. split; [done|lia]. }
      exists l. split; [done|]. split; [done|]. split; [done|]. intros a. rewrite Hl, Hacc, <- Hcons.
      unfold within in *. split.
      * intros [[?|Hlt]|Hge]; [by left| |]; right.
        -- split; [split; [lia|]|lia]. intros x Hx. apply (Hbefore a Hlt). set_solver.
        -- split; [split; [lia|tauto]|lia].
      * intros [?|[[Hlim Hall] Hne]]; [by left; left|]. destruct (decide (a < _start e)); [left; right; lia|].
        right. split; [lia|done].
    + eexists. split; [done|]. split; [done|]. split; [by eapply Hplain|]. intros a. rewrite Hacc.
      split; intros [?|Hlt]; [by left| |by left|].
      * right. split; [lia|]. by apply Hbefore.
      * right. destruct Hlt as [? Hall]. specialize (Hall e). unfold within in Hall.
        assert (¬ (_start e ≤ a < _end e)) by set_solver. lia.
Qed.

(** C29. [exclude] is set difference. Excluding any list of contiguous ranges, in
    any order and overlapping or not, from a contiguous range gives ranges one
    after the other, without overlap, that contain exactly the addresses of the
    range that none of the excluded ones contains. *)
Theorem exclude_is_difference r es (Hr : plain r) (Hes : Forall plain es) :
  ∃ l, exclude r es = Ok l ∧ apart l ∧
    ∀ a, (∃ x, x ∈ l ∧ contains x a = Ok true) ↔
      contains r a = Ok true ∧ ∀ e, e ∈ es → contains e a = Ok false.
Proof.
  destruct (exclude_from_spec r (sort_ranges es) (_start r) []) as (l & E & Ha & Hp & Hl).
  - done.
  - apply Forall_forall. intros x Hx. rewrite Forall_forall in Hes. by apply Hes, elem_of_sort_ranges.
  - by apply sort_ranges_sorted.
  - done.
  - constructor.
  - constructor.
  - exists l. unfold exclude. pose proof Hr as (Hm & _). unfold interleaved. rewrite Hm. simpl.
    split; [done|]. split; [done|]. intros a. rewrite Forall_forall in Hp, Hes.
    transitivity (∃ x, x ∈ l ∧ within x a).
    { apply exist_proper. intros x. split; intros [Hx Hw]; (split; [done|]);
        rewrite plain_contains in * by auto; [injection Hw as Hw; by apply bool_decide_eq_true in Hw|].
      f_equal. by apply bool_decide_true. }
    rewrite Hl, plain_contains by done. split.
    + intros [(x & Hx & _)|[Hw Hall]]; [set_solver|]. split; [f_equal; by apply bool_decide_true|].
      intros e He. rewrite plain_contains by auto. f_equal. apply bool_decide_false, Hall.
      by apply elem_of_sort_ranges.
    + intros [[= Hw%bool_decide_eq_true] Hall]. right. split; [done|].
      intros e He Hin. rewrite elem_of_sort_ranges in He. specialize (Hall e He). rewrite plain_contains in Hall by auto.
      injection Hall as Hall. by apply bool_decide_eq_false in Hall.
Qed.

Lemma exclude_is_difference_witness :
  exclude (new 0 100) [new 50 60; new 10 30; new 20 40] = Ok [new 0 10; new 40 50; new 60 100] ∧
  ∃ l, exclude (new 0 100) [new 50 60; new 10 30; new 20 40] = Ok l ∧ apart l.
Proof.
  split; [done|].
  destruct (exclude_is_difference (new 0 100) [new 50 60; new 10 30; new 20 40]) as (l & E & Ha & _).
  - by split_and!.
  - by repeat constructor.
  - by exists l.
Defined.

End Exclude.

(** ** Lines of a range *)

Section Lines.
Import AddrRange.
Implicit Types r : t.
Context (b : Z) (Hb : 0 ≤ b < 31).

Abbreviation line a := (a - a mod 2 ^ b).

Lemma line_testbit a k : 0 ≤ k → Z.testbit (line a) k = (b <=? k) && Z.testbit a k.
Proof.
  intros Hk. assert (line a = Z.ldiff a (Z.ones b)) as ->.
  { rewrite Z.ldiff_ones_r by lia. rewrite Z.shiftl_mul_pow2, Z.shiftr_div_pow2 by lia.
    pose proof (Z.div_mod a (2 ^ b)). lia. }
  rewrite Z.ldiff_spec, Z.testbit_ones_nonneg by lia.
  destruct (Z.leb_spec b k), (Z.ltb_spec k b); simpl; rewrite ?andb_true_r, ?andb_false_r; done || lia.
Qed.

Lemma drop_bit_eq q h x l : 0 ≤ q → 0 ≤ x < 2 → 0 ≤ l < 2 ^ q →
  drop_bit q (2 ^ (q + 1) * h + 2 ^ q * x + l) = 2 ^ q * h + l.
Proof.
  intros Hq Hx Hl. unfold drop_bit. assert (2 ^ (q + 1) = 2 * 2 ^ q) as E by (rewrite Z.pow_add_r by lia; lia).
  replace ((2 ^ (q + 1) * h + 2 ^ q * x + l) mod 2 ^ q) with l.
  - replace ((2 ^ (q + 1) * h + 2 ^ q * x + l) / 2 ^ (q + 1)) with h; [lia|].
    apply (Z.div_unique _ _ h (2 ^ q * x + l)); nia.
  - apply (Z.mod_unique _ _ (2 * h + x)); nia.
Qed.

Lemma drop_bit_line q a : b ≤ q → 0 ≤ a →
  drop_bit q (line a) = drop_bit q a - a mod 2 ^ b ∧ drop_bit q a mod 2 ^ b = a mod 2 ^ b.
Proof.
  intros Hq Ha. destruct (drop_bit_parts q a) as (h & x & l & E & Hh & Hx & Hl & Ed); [lia..|].
  assert (2 ^ q = 2 ^ (q - b) * 2 ^ b) as Eq by (rewrite <- Z.pow_add_r by lia; f_equal; lia).
  assert (2 ^ (q + 1) = 2 * 2 ^ q) as Eq1 by (rewrite Z.pow_add_r by lia; lia).
  assert (a mod 2 ^ b = l mod 2 ^ b) as Em.
  { rewrite E, Eq1, Eq. replace (2 * (2 ^ (q - b) * 2 ^ b) * h + 2 ^ (q - b) * 2 ^ b * x + l)
      with (l + (2 * 2 ^ (q - b) * h + 2 ^ (q - b) * x) * 2 ^ b) by lia. by rewrite Z_mod_plus_full. }
  pose proof (Z.mod_pos_bound l (2 ^ b)). pose proof (Z.mod_le l (2 ^ b)). rewrite Em. split.
  - rewrite E at 1. replace (2 ^ (q + 1) * h + 2 ^ q * x + l - l mod 2 ^ b)
      with (2 ^ (q + 1) * h + 2 ^ q * x + (l - l mod 2 ^ b)) by lia.
    rewrite drop_bit_eq by lia. lia.
  - rewrite Ed, Eq. replace (2 ^ (q - b) * 2 ^ b * h + l) with (l + (2 ^ (q - b) * h) * 2 ^ b) by lia.
    by rewrite Z_mod_plus_full.
Qed.

(** Removing bits from [b] on leaves the offset in the line. *)
Lemma drop_bits_line ps i a : positions i ps → Forall (λ p, b + i ≤ p) ps → 0 ≤ a < 2 ^ 64 →
  drop_bits ps i (line a) = drop_bits ps i a - a mod 2 ^ b ∧ drop_bits ps i a mod 2 ^ b = a mod 2 ^ b.
Proof.
  revert i a. induction ps as [|p ps IH]; intros i a Hps Hge Ha; [done|].
  destruct (positions_cons _ _ _ Hps) as (Hi & Hp & Hps' & Hlt). apply Forall_cons in Hge as [Hpb Hge].
  destruct (drop_bit_line (p - i) a) as [E1 E2]; [lia..|]. simpl.
  destruct (IH (i + 1) (drop_bit (p - i) a)) as [E3 E4]; [done| |apply drop_bit_bound; lia|].
  { rewrite Forall_forall in *. intros x Hx. specialize (Hlt x Hx). lia. }
  rewrite E1, <- E2, E3, E4. done.
Qed.

(** Lines are not split by the interleaving. *)
Definition whole_lines r : Prop :=
  range_ok r ∧ aligned r ∧ Forall (λ m, b ≤ ctz64 m) (masks r) ∧ (2 ^ b | _start r) ∧ (2 ^ b | _end r) ∧
  (2 ^ b | size r).

Lemma parity_line a m : 0 < m < 2 ^ 64 → b ≤ ctz64 m → parity (line a) m = parity a m.
Proof.
  intros Hm Hlsb. unfold parity. do 2 f_equal. apply Z.bits_inj'. intros k Hk.
  rewrite !Z.land_spec, line_testbit by done. destruct (Z.leb_spec b k); [done|].
  destruct (ctz64_spec m Hm) as (_ & _ & Hlow). by rewrite Hlow, !andb_false_r by lia.
Qed.

Lemma inside_line r a : whole_lines r → inside r (line a) ↔ inside r a.
Proof.
  intros ((Hm & _) & _ & Hlsb & [s Hs] & [e He] & _). unfold inside.
  assert (_start r ≤ line a < _end r ↔ _start r ≤ a < _end r) as ->.
  { assert (∀ x, x * 2 ^ b ≤ line a ↔ x * 2 ^ b ≤ a) as Hx.
    { intros x. pose proof (Z.div_mod a (2 ^ b)). pose proof (Z.mod_pos_bound a (2 ^ b)).
      set (q := a / 2 ^ b) in *. set (l := a mod 2 ^ b) in *. set (B := 2 ^ b) in *.
      split; [lia|]. intros Hle. assert (x ≤ q) by nia. nia. }
    pose proof (Hx s). pose proof (Hx e). lia. }
  apply and_iff_compat_l, forall_proper. intros k. apply forall_proper. intros _.
  destruct (masks r !! Z.to_nat k) as [m|] eqn:E; [|done]. simpl. apply list_elem_of_lookup_2 in E.
  rewrite Forall_forall in Hm, Hlsb. by rewrite parity_line by auto.
Qed.

Lemma start_left_lines r : whole_lines r → (2 ^ b | _start r / 2 ^ zlen (masks r)).
Proof.
  intros (Hr & (n & Hn & Hlt & [s Hs] & _) & Hlsb & Ds & _).
  destruct (masks_lsb_positions r Hr) as (_ & Hsort & Hf).
  assert (∀ p, p ∈ masks_lsb r → b ≤ p < n) as Hp.
  { intros p (m & Hm & ->)%elem_of_masks_lsb. rewrite Forall_forall in Hlsb, Hlt. auto. }
  rewrite <- length_masks_lsb. destruct (masks_lsb r) as [|p ps] eqn:E.
  { by rewrite Z.div_1_r. }
  assert (b ≤ p < n) by (apply Hp; set_solver).
  assert (b + zlen (p :: ps) ≤ n) as Hlen.
  { apply positions_length; [|apply Forall_forall; intros x Hx; by apply Hp|lia]. split; [lia|].
    split; [done|]. rewrite Forall_forall in *. intros x Hx. specialize (Hf x Hx). specialize (Hp x Hx). lia. }
  exists (s * 2 ^ (n - zlen (p :: ps) - b)). rewrite Hs.
  replace (s * 2 ^ n) with (s * 2 ^ (n - zlen (p :: ps) - b) * 2 ^ b * 2 ^ zlen (p :: ps)).
  - by rewrite Z.div_mul by lia.
  - rewrite <- !Z.mul_assoc, <- !Z.pow_add_r by lia. do 2 f_equal. lia.
Qed.

(** Two addresses of a range are in one line exactly when their offsets are. *)
Lemma offset_lines r a a' : whole_lines r → inside r a → inside r a' →
  ∃ o o', getOffset r a = Ok o ∧ getOffset r a' = Ok o' ∧ 0 ≤ o < size r ∧ 0 ≤ o' < size r ∧
    (o / 2 ^ b = o' / 2 ^ b ↔ a / 2 ^ b = a' / 2 ^ b).
Proof.
  intros Hw Hin Hin'. pose proof Hw as (Hr & Hal & Hlsb & Ds & _).
  destruct (getOffset_spec r a Hr Hal Hin) as [E Ho], (getOffset_spec r a' Hr Hal Hin') as [E' Ho'].
  eexists _, _. do 4 (split; [done|]).
  pose proof (proj2 (inside_line r a Hw) Hin) as Hl. pose proof (proj2 (inside_line r a' Hw) Hin') as Hl'.
  destruct (getOffset_spec r (line a) Hr Hal Hl) as [El _], (getOffset_spec r (line a') Hr Hal Hl') as [El' _].
  assert (Forall (λ p, b + 0 ≤ p) (masks_lsb r)) as Hge.
  { apply Forall_forall. intros p (m & Hm & ->)%elem_of_masks_lsb. rewrite Forall_forall in Hlsb.
    specialize (Hlsb m Hm). lia. }
  destruct (inside_bounds r a Hr Hin) as (? & ? & ?), (inside_bounds r a' Hr Hin') as (? & ? & ?).
  pose proof (masks_lsb_positions r Hr) as Hps.
  destruct (drop_bits_line (masks_lsb r) 0 a Hps Hge) as [E1 E2]; [lia|].
  destruct (drop_bits_line (masks_lsb r) 0 a' Hps Hge) as [E1' E2']; [lia|].
  set (d := drop_bits (masks_lsb r) 0 a) in *. set (d' := drop_bits (masks_lsb r) 0 a') in *.
  set (s := _start r / 2 ^ zlen (masks r)) in *.
  assert ((2 ^ b | s)) as [t Es] by by apply start_left_lines.
  assert (∀ x, (x - s) / 2 ^ b = x / 2 ^ b - t) as Hsub.
  { intros x. rewrite Es. replace (x - t * 2 ^ b) with (x + (- t) * 2 ^ b) by lia.
    rewrite Z.div_add by lia. lia. }
  rewrite !Hsub. pose proof (Z.div_mod a (2 ^ b)). pose proof (Z.div_mod a' (2 ^ b)).
  pose proof (Z.div_mod d (2 ^ b)). pose proof (Z.div_mod d' (2 ^ b)). split.
  - intros Heq. assert (line a = line a') by (apply (left_inj r); [done..|rewrite E1, E1'; nia]). nia.
  - intros Heq. assert (line a = line a') as Hline by nia. rewrite Hline in E1. nia.
Qed.

End Lines.

(** ** One directory entry per line *)

Section Directory.
Import DirectoryMemory.
Context {ENTRY : Type} (prepare : ENTRY → ENTRY) (b : Z) (Hb : 0 ≤ b < 31).
Implicit Types d : t ENTRY.
Implicit Types rs : list AddrRange.t.

Definition total rs : Z := foldr (λ r n, AddrRange.size r + n) 0 rs.

Lemma total_nonneg rs : Forall (whole_lines b) rs → 0 ≤ total rs ∧ (2 ^ b | total rs).
Proof.
  induction 1 as [|r rs (_ & _ & _ & _ & _ & D) _ [? ?]]; simpl; [split; [done|apply Z.divide_0_r]|].
  split; [|by apply Z.divide_add_r]. unfold AddrRange.size in *.
  assert (0 ≤ Z.shiftr (u64 (AddrRange._end r - AddrRange._start r)) (zlen (AddrRange.masks r))); [|lia].
  apply Z.shiftr_nonneg. apply u64_bound.
Qed.

Definition present rs (a : Z) : Prop := ∃ r, r ∈ rs ∧ inside r a.

Lemma any_contains_spec rs a : Forall (whole_lines b) rs →
  ∃ v, any_contains rs a = Ok v ∧ (v = true ↔ present rs a).
Proof.
  unfold present. induction 1 as [|r rs [Hr _] _ (v & E & Hv)]; simpl.
  { exists false. split; [done|]. set_solver. }
  destruct (contains_spec r a Hr) as ([|] & -> & Hin); simpl.
  - exists true. split; [done|]. split; [|done]. intros _. exists r. split; [set_solver|by apply Hin].
  - exists v. split; [done|]. rewrite Hv. split; [set_solver|].
    intros (x & [->|Hx]%elem_of_cons & Ha); [|by exists x]. by apply Hin in Ha.
Qed.

Lemma size_nonneg r : 0 ≤ AddrRange.size r.
Proof. apply Z.shiftr_nonneg, u64_bound. Qed.

Lemma flat_range rs a ret : Forall (whole_lines b) rs → present rs a →
  0 ≤ ret → ret + total rs < 2 ^ 64 →
  ∃ o, flat_offset rs a ret = Ok (ret + o) ∧ 0 ≤ o < total rs.
Proof.
  intros Hrs. revert ret. induction Hrs as [|r rs Hr Hrs IH]; intros ret Ha Hret Hov.
  { destruct Ha as (? & ? & _). set_solver. }
  pose proof (total_nonneg rs Hrs) as [Ht _]. pose proof (size_nonneg r). simpl in *.
  destruct (contains_spec r a) as ([|] & -> & Hin); [apply Hr| |]; simpl.
  - destruct Hr as (Hok & Hal & _). destruct (getOffset_spec r a Hok Hal) as [-> ?]; [by apply Hin|]. simpl.
    rewrite u64_small by lia. eexists. split; [done|]. lia.
  - rewrite u64_small by lia. destruct (IH (ret + AddrRange.size r)) as (o & -> & ?); [|lia|lia|].
    + destruct Ha as (x & [->|Hx]%elem_of_cons & Ha); [|by exists x]. by apply Hin in Ha.
    + exists (AddrRange.size r + o). split; [f_equal; lia|lia].
Qed.

(** One address in the first range, the other one further on. *)
Lemma flat_mixed r rs a a' ret : Forall (whole_lines b) (r :: rs) → inside r a → ¬ inside r a' →
  present rs a' → 0 ≤ ret → ret + total (r :: rs) < 2 ^ 64 →
  ∃ o o', flat_offset (r :: rs) a ret = Ok (ret + o) ∧ flat_offset (r :: rs) a' ret = Ok (ret + o') ∧
    0 ≤ o < total (r :: rs) ∧ 0 ≤ o' < total (r :: rs) ∧ o / 2 ^ b ≠ o' / 2 ^ b ∧ a / 2 ^ b ≠ a' / 2 ^ b.
Proof.
  intros [Hr Hrs]%Forall_cons Ha Ha' Hp Hret Hov. pose proof (total_nonneg rs Hrs) as [Ht _].
  pose proof (size_nonneg r). pose proof Hr as (Hok & Hal & _ & _ & _ & [z Ez]). simpl in *.
  destruct (contains_spec r a Hok) as (v & -> & Hin). rewrite (proj2 Hin Ha). simpl.
  destruct (contains_spec r a' Hok) as ([|] & -> & Hin'); [by destruct Ha'; apply Hin'|]. simpl.
  destruct (getOffset_spec r a Hok Hal Ha) as [-> Ho]. simpl. rewrite !u64_small by lia.
  destruct (flat_range rs a' (ret + AddrRange.size r)) as (o' & -> & Ho'); [done|done|lia|lia|].
  eexists _, (AddrRange.size r + o'). split; [done|]. split; [f_equal; lia|]. split; [lia|]. split; [lia|].
  split.
  - rewrite Ez, Z.div_add_l in * by lia. pose proof (Z.div_pos o' (2 ^ b)).
    match goal with |- ?x / _ ≠ _ => assert (x / 2 ^ b < z) by (apply Z.div_lt_upper_bound; lia) end. lia.
  - intros E. apply Ha'. apply (inside_line b Hb r a' Hr). apply (inside_line b Hb r a Hr) in Ha.
    assert (a' - a' mod 2 ^ b = a - a mod 2 ^ b) as ->; [|done].
    rewrite (Z.mod_eq a), (Z.mod_eq a') by lia. rewrite E. lia.
Qed.

(** The flat offsets of two addresses are in one line exactly when they are. *)
Lemma flat_lines rs a a' ret : Forall (whole_lines b) rs → present rs a → present rs a' →
  0 ≤ ret → ret + total rs < 2 ^ 64 →
  ∃ o o', flat_offset rs a ret = Ok (ret + o) ∧ flat_offset rs a' ret = Ok (ret + o') ∧
    0 ≤ o < total rs ∧ 0 ≤ o' < total rs ∧ (o / 2 ^ b = o' / 2 ^ b ↔ a / 2 ^ b = a' / 2 ^ b).
Proof.
  intros Hrs. revert ret. induction Hrs as [|r rs Hr Hrs IH]; intros ret Ha Ha' Hret Hov.
  { destruct Ha as (? & ? & _). set_solver. }
  pose proof (total_nonneg rs Hrs) as [Ht _]. pose proof (size_nonneg r).
  assert (∀ x, ¬ inside r x → present (r :: rs) x → present rs x) as Hrest.
  { intros x Hn (y & [->|Hy]%elem_of_cons & Hx); [done|by exists y]. }
  assert (Forall (whole_lines b) (r :: rs)) as Hall by by constructor. pose proof Hr as (Hok & _).
  destruct (contains_spec r a Hok) as (v & E & Hin), (contains_spec r a' Hok) as (v' & E' & Hin').
  destruct v, v'.
  - simpl in *. rewrite E, E'. simpl.
    destruct (offset_lines b Hb r a a' Hr) as (o & o' & -> & -> & Ho & Ho' & Hl); [by apply Hin|by apply Hin'|].
    simpl. exists o, o'. rewrite !u64_small by lia. do 2 (split; [done|]). split; [lia|]. by split; [lia|].
  - assert (¬ inside r a') as Hn by (by intros ?%Hin').
    destruct (flat_mixed r rs a a' ret) as (o & o' & ? & ? & ? & ? & ? & ?); try done;
      [by apply Hin|by apply Hrest|]. exists o, o'. do 4 (split; [done|]).
    split; intros; exfalso; congruence.
  - assert (¬ inside r a) as Hn by (by intros ?%Hin).
    destruct (flat_mixed r rs a' a ret) as (o' & o & ? & ? & ? & ? & ? & ?); try done;
      [by apply Hin'|by apply Hrest|]. exists o, o'. do 4 (split; [done|]).
    split; intros; exfalso; congruence.
  - simpl in *. rewrite E, E'. simpl. rewrite u64_small by lia.
    destruct (IH (ret + AddrRange.size r)) as (o & o' & -> & -> & ? & ? & Hl); [..|lia|lia|].
    + apply Hrest; [|done]. by intros ?%Hin.
    + apply Hrest; [|done]. by intros ?%Hin'.
    + exists (AddrRange.size r + o), (AddrRange.size r + o'). split; [f_equal; lia|]. split; [f_equal; lia|].
      split; [lia|]. split; [lia|]. rewrite <- Hl. destruct Hr as (_ & _ & _ & _ & _ & [z ->]).
      rewrite !Z.div_add_l by lia. lia.
Qed.

Definition dir_ok d : Prop :=
  m_block_size d = 2 ^ b ∧ Forall (whole_lines b) (addrRanges d) ∧ total (addrRanges d) < 2 ^ 64 ∧
  m_num_entries d = total (addrRanges d) / 2 ^ b ∧ zlen (m_entries d) = m_num_entries d.

Lemma floorLog2_block : floorLog2 4 (2 ^ b) = Ok b.
Proof.
  rewrite floorLog2_log2, Z.log2_pow2; [done|lia|by repeat constructor|].
  split; [lia|apply Z.pow_lt_mono_r; lia].
Qed.

Lemma index_lines d a a' : dir_ok d → present (addrRanges d) a → present (addrRanges d) a' →
  ∃ i i', index d a = Ok i ∧ index d a' = Ok i' ∧ 0 ≤ i < zlen (m_entries d) ∧
    0 ≤ i' < zlen (m_entries d) ∧ (i = i' ↔ a / 2 ^ b = a' / 2 ^ b).
Proof.
  intros (Hbs & Hrs & Hov & Hn & Hl) Ha Ha'. pose proof (total_nonneg _ Hrs) as [Ht [z Ez]].
  destruct (flat_lines (addrRanges d) a a' 0) as (o & o' & E & E' & Ho & Ho' & Hiff); [done..|lia|].
  rewrite Z.add_0_l in E, E'. exists (o / 2 ^ b), (o' / 2 ^ b).
  assert (∀ x, 0 ≤ x < total (addrRanges d) → 0 ≤ x / 2 ^ b < m_num_entries d) as Hrange.
  { intros x Hx. rewrite Hn, Ez, Z.div_mul by lia. split; [apply Z.div_pos; lia|].
    apply Z.div_lt_upper_bound; lia. }
  assert (∀ x y, present (addrRanges d) x → flat_offset (addrRanges d) x 0 = Ok y →
    0 ≤ y < total (addrRanges d) → index d x = Ok (y / 2 ^ b)) as Hindex.
  { intros x y Hx Ey Hy. unfold index, isPresent, mapAddressToLocalIdx.
    destruct (any_contains_spec (addrRanges d) x Hrs) as (v & -> & Hv). rewrite (proj2 Hv Hx). simpl.
    rewrite Ey. simpl. rewrite Hbs, floorLog2_block. simpl. rewrite Z.shiftr_div_pow2 by lia. rewrite (proj2 (Z.ltb_lt _ _)); [done|].
    by apply Hrange. }
  split; [by apply Hindex|]. split; [by apply Hindex|]. rewrite Hl. split; [by apply Hrange|].
  by split; [apply Hrange|].
Qed.

(** A directory has one entry for every line of its address ranges, however
    they are interleaved. Addresses of the ranges always find their entry; what is
    allocated for one address is found by exactly the addresses of its line, and
    all other lines keep theirs; the same for deallocation. *)
Theorem directory_per_line d a a' e (Hd : dir_ok d) (Ha : present (addrRanges d) a)
    (Ha' : present (addrRanges d) a') :
  ∃ old, lookup d a = Ok old ∧
    (old = None → ∃ d', allocate prepare d a e = Ok d' ∧ dir_ok d' ∧
       lookup d' a' = if a / 2 ^ b =? a' / 2 ^ b then Ok (Some (prepare e)) else lookup d a') ∧
    (old ≠ None → ∃ d', deallocate d a = Ok d' ∧ dir_ok d' ∧
       lookup d' a' = if a / 2 ^ b =? a' / 2 ^ b then Ok None else lookup d a').
Proof.
  destruct (index_lines d a a' Hd Ha Ha') as (i & i' & Ei & Ei' & Hi & Hi' & Hiff).
  destruct (vget_inbounds (m_entries d) i Hi) as (old & Eo & Elo).
  assert (∀ x, ∃ d', vset (m_entries d) i x = Ok (m_entries d') ∧ d' = with_entries d (m_entries d') ∧
    dir_ok d' ∧ lookup d' a' = if a / 2 ^ b =? a' / 2 ^ b then Ok x else lookup d a') as Hset.
  { intros x. exists (with_entries d (<[Z.to_nat i := x]> (m_entries d))). rewrite vset_inbounds by done.
    split; [done|]. split; [done|]. split.
    { destruct Hd as (? & ? & ? & ? & ?). split_and!; try done. simpl. by rewrite length_insert. }
    assert (index (with_entries d (<[Z.to_nat i := x]> (m_entries d))) a' = Ok i') as Ed by done.
    unfold lookup. rewrite Ed, Ei'. simpl. destruct (Z.eqb_spec (a / 2 ^ b) (a' / 2 ^ b)) as [Heq|Hne].
    - apply Hiff in Heq as <-. apply vget_Ok. split; [lia|]. apply list_lookup_insert_eq. lia.
    - eapply vget_vset_ne; [by apply vset_inbounds|]. by intros ?%Hiff. }
  exists old. split; [unfold lookup; by rewrite Ei|]. split; intros Hold.
  - subst old. destruct (Hset (Some (prepare e))) as (d' & Es & Ed & Hok & Hlk).
    exists d'. unfold allocate. rewrite Ei. simpl. rewrite Eo. simpl. rewrite Es. simpl.
    by rewrite <- Ed.
  - destruct old as [x|]; [|done]. destruct (Hset None) as (d' & Es & Ed & Hok & Hlk).
    exists d'. unfold deallocate. rewrite Ei. simpl. rewrite Eo. simpl. rewrite Es. simpl.
    by rewrite <- Ed.
Qed.

(** A directory that was built and initialised is in order, and empty. *)
Lemma init_ok ranges d d' : Forall (whole_lines b) ranges → total ranges < 2 ^ 64 →
  DirectoryMemory.new ranges (2 ^ b) = Ok d → init d = Ok d' →
  dir_ok d' ∧ addrRanges d' = ranges.
Proof.
  intros Hrs Ht En Ei. unfold DirectoryMemory.new in En. inv_res. unfold init in Ei. simpl in Ei. inv_res.
  assert (∀ l n, Forall (whole_lines b) l → 0 ≤ n → n + total l < 2 ^ 64 →
    foldl (λ n r, u64 (n + AddrRange.size r)) n l = n + total l) as Hfold.
  { clear -Hb. induction l as [|r l IH]; intros n Hl Hn Hov; simpl in *; [lia|].
    apply Forall_cons in Hl as [Hr Hl]. pose proof (size_nonneg r). pose proof (total_nonneg l Hl) as [? _].
    rewrite u64_small by lia. rewrite IH by (done || lia). lia. }
  rewrite Hfold, Z.add_0_l in * by (done || lia). split; [|done]. split_and!; try done. simpl.
  rewrite length_replicate, Z2Nat.id; [done|]. apply Z.div_pos; [|lia]. by apply total_nonneg.
Qed.

End Directory.

(** ** Removing interleaving bits and adding them again *)

Section RoundTrip.
Import AddrRange.
Implicit Types r : t.

(** How many of the positions are below [k]. *)
Fixpoint rank (ps : list Z) (k : Z) : Z :=
  match ps with [] => 0 | p :: ps => (if p <? k then 1 else 0) + rank ps k end.

Lemma rank_above ps k : Forall (λ p, k ≤ p) ps → rank ps k = 0.
Proof.
  induction 1 as [|p ps Hp _ IH]; simpl; [done|]. by rewrite (proj2 (Z.ltb_ge p k)), IH by lia.
Qed.

Lemma rank_gap ps p k : StronglySorted Z.lt (p :: ps) → k ∉ ps → p < k → 0 ≤ rank ps k ≤ k - p - 1.
Proof.
  revert p. induction ps as [|q ps IH]; intros p [Hlt Hs]%StronglySorted_cons Hk Hp; simpl; [lia|].
  apply not_elem_of_cons in Hk as [Hne Hk]. pose proof (Forall_inv Hlt) as Hpq. simpl in Hpq.
  destruct (Z.ltb_spec q k); [specialize (IH q Hs Hk); lia|].
  rewrite rank_above; [lia|]. apply StronglySorted_cons in Hs as [Hq _].
  eapply Forall_impl; [exact Hq|]. simpl. lia.
Qed.

Lemma drop_bits_rank ps i a k : positions i ps → i ≤ k → k ∉ ps →
  Z.testbit (drop_bits ps i a) (k - i - rank ps k) = Z.testbit a (k - i).
Proof.
  revert i a k. induction ps as [|p ps IH]; intros i a k Hps Hk Hin; simpl; [f_equal; lia|].
  pose proof Hps as (_ & Hs & _). destruct (positions_cons _ _ _ Hps) as (Hi & Hp & Hps' & Hlt).
  apply not_elem_of_cons in Hin as [Hne Hin]. destruct (Z.ltb_spec p k) as [Hpk|Hpk].
  - replace (k - i - (1 + rank ps k)) with (k - (i + 1) - rank ps k) by lia.
    rewrite IH, drop_bit_testbit by (done || lia). rewrite (proj2 (Z.ltb_ge _ _)) by lia. f_equal. lia.
  - assert (k + 1 ∉ ps) as Hin1 by (rewrite Forall_forall in Hlt; intros ?%Hlt; lia).
    pose proof (IH (i + 1) (drop_bit (p - i) a) (k + 1) Hps') as E.
    rewrite !rank_above in * by (eapply Forall_impl; [exact Hlt|simpl; lia]).
    replace (k - i - (0 + 0)) with (k + 1 - (i + 1) - 0) by lia. rewrite E by (done || lia).
    rewrite drop_bit_testbit by lia. rewrite (proj2 (Z.ltb_lt _ _)) by lia. f_equal. lia.
Qed.

(** One step of the loop of [addIntlvBits]. *)
Lemma add_step p a : 0 ≤ p < 64 → 0 ≤ a < 2 ^ 64 →
  ∃ a', (if 0 <? p then insertBits (u64 (Z.shiftl a 1)) (u32 (p - 1)) 0 a else Ok (u64 (Z.shiftl a 1)))
      = Ok a' ∧ 0 ≤ a' < 2 ^ 64 ∧
    ∀ k, 0 ≤ k < 64 → k ≠ p → Z.testbit a' k = Z.testbit a (if k <? p then k else k - 1).
Proof.
  intros Hp Ha. destruct (Z.ltb_spec 0 p) as [Hpos|].
  - rewrite u32_small by lia. pose proof (u64_bound (Z.shiftl a 1)).
    destruct (insertBits (u64 (Z.shiftl a 1)) (p - 1) 0 a) as [v|] eqn:E; cycle 1.
    { unfold insertBits in E. rewrite (proj2 (Z.leb_le _ _)) in E by lia. done. }
    pose proof (λ H1 H2, insertBits_testbit _ (p - 1) 0 a v H1 H2 H E) as Hbit.
    specialize (Hbit ltac:(lia) ltac:(lia)).
    exists v. split; [done|]. split.
    + apply u64_of_testbit; [lia|]. intros k Hk. rewrite Hbit by lia.
      rewrite (proj2 (Z.leb_gt k (p - 1))), andb_false_r by lia. by apply (testbit_high _ 64).
    + intros k Hk Hne. rewrite Hbit, (proj2 (Z.leb_le 0 k)), Z.sub_0_r by lia. simpl.
      destruct (Z.leb_spec k (p - 1)), (Z.ltb_spec k p); try lia; [done|].
      by rewrite u64_testbit, (proj2 (Z.ltb_lt k 64)), Z.shiftl_spec by lia.
  - eexists. split; [done|]. split; [apply u64_bound|]. intros k Hk Hne.
    rewrite u64_testbit, (proj2 (Z.ltb_lt k 64)), Z.shiftl_spec, (proj2 (Z.ltb_ge k p)) by lia. done.
Qed.

Lemma add_bits_rank ps i a : positions i ps → 0 ≤ a < 2 ^ 64 →
  ∃ a', add_bits ps a = Ok a' ∧ 0 ≤ a' < 2 ^ 64 ∧
    ∀ k, 0 ≤ k < 64 → k ∉ ps → Z.testbit a' k = Z.testbit a (k - rank ps k).
Proof.
  revert i a. induction ps as [|p ps IH]; intros i a Hps Ha.
  { exists a. split; [done|]. split; [done|]. intros k _ _. simpl. f_equal. lia. }
  pose proof Hps as (_ & Hs & _). destruct (positions_cons _ _ _ Hps) as (Hi & Hp & Hps' & Hlt).
  destruct (add_step p a) as (a1 & E1 & Ha1 & Hb1); [lia|done|]. simpl. rewrite E1. simpl.
  destruct (IH (i + 1) a1 Hps' Ha1) as (a' & E & Ha' & Hb). exists a'. split; [done|]. split; [done|].
  intros k Hk [Hne Hin]%not_elem_of_cons. rewrite Hb by done. destruct (Z.ltb_spec p k).
  - pose proof (rank_gap ps p k Hs Hin). rewrite Hb1 by lia.
    rewrite (proj2 (Z.ltb_ge (k - rank ps k) p)) by lia. f_equal. lia.
  - rewrite !rank_above by (eapply Forall_impl; [exact Hlt|simpl; lia]).
    rewrite Z.sub_0_r, Hb1, (proj2 (Z.ltb_lt k p)) by lia. f_equal. lia.
Qed.

(** No mask has the lowest bit of another one, and the lowest bits are below bit
    31 of an [int]. *)
Definition independent r : Prop :=
  (∀ i j m m', masks r !! i = Some m → masks r !! j = Some m' → i ≠ j →
     Z.testbit m (ctz64 m') = false) ∧ Forall (λ m, ctz64 m < 31) (masks r).

(** Setting the bit of one mask so that the selector matches. *)
Lemma set_lsb_step a x m i match_ : 0 ≤ a < 2 ^ 64 → 0 ≤ x < 2 ^ 64 → 0 < m < 2 ^ 64 → ctz64 m < 31 →
  0 ≤ i < 64 → parity a m = Z.testbit match_ i →
  (∀ k, 0 ≤ k < 64 → k ≠ ctz64 m → Z.testbit m k = true → Z.testbit x k = Z.testbit a k) →
  ∃ v y, bits match_ i i = Ok v ∧
    insertBits x (ctz64 m) (ctz64 m)
      (Z.lxor v (popCount (Z.land (Z.land x m) (u64 (Z.lnot (i32 (Z.shiftl 1 (ctz64 m)))))))) = Ok y ∧
    0 ≤ y < 2 ^ 64 ∧
    ∀ k, 0 ≤ k → Z.testbit y k = if k =? ctz64 m then Z.testbit a k else Z.testbit x k.
Proof.
  intros Ha Hx Hm Hlsb Hi Hpar Hag. destruct (ctz64_spec m Hm) as (Hr & Ht & Hlow).
  set (p := ctz64 m) in *. rewrite bits_Ok by lia. replace (i - i + 1) with 1 by lia.
  set (v := (match_ / 2 ^ i) mod 2 ^ 1). set (w := Z.land (Z.land x m) _).
  assert (∀ k, 0 ≤ k < 64 → k ≠ p → Z.testbit w k = Z.testbit (Z.land a m) k) as Hw.
  { intros k Hk Hne. unfold w. rewrite !Z.land_spec, u64_testbit, Z.lnot_spec, (proj2 (Z.ltb_lt k 64)) by lia.
    rewrite i32_small, Z.shiftl_1_l by
      (rewrite Z.shiftl_1_l; pose proof (Z.pow_le_mono_r 2 p 30); lia).
    rewrite Z.pow2_bits_false by lia. simpl. rewrite andb_true_r.
    destruct (Z.testbit m k) eqn:Em; [|by rewrite !andb_false_r]. by rewrite Hag. }
  assert (Z.testbit w p = false) as Hwp.
  { unfold w. rewrite !Z.land_spec, u64_testbit, Z.lnot_spec, (proj2 (Z.ltb_lt p 64)) by lia.
    rewrite i32_small, Z.shiftl_1_l by
      (rewrite Z.shiftl_1_l; pose proof (Z.pow_le_mono_r 2 p 30); lia).
    rewrite Z.pow2_bits_true by lia. simpl. by rewrite andb_false_r. }
  assert (Z.testbit (Z.lxor v (popCount w)) 0 = Z.testbit a p) as Hval.
  { rewrite Z.lxor_spec, !Z.bit0_odd.
    assert (Z.odd v = Z.testbit match_ i) as ->.
    { unfold v. rewrite <- Z.bit0_odd, Z.mod_pow2_bits_low, Z.div_pow2_bits by lia. f_equal. }
    rewrite <- Hpar. unfold parity. pose proof (popCount_agree w (Z.land a m) p Hr Hw) as E.
    rewrite Hwp, Z.land_spec, Ht, andb_true_r in E. simpl in E.
    assert (popCount (Z.land a m) = popCount w + Z.b2z (Z.testbit a p)) as -> by lia.
    rewrite Z.odd_add. destruct (Z.odd (popCount w)), (Z.testbit a p); done. }
  destruct (insertBits x p p (Z.lxor v (popCount w))) as [y|] eqn:E; cycle 1.
  { unfold insertBits in E. rewrite Z.leb_refl in E. simpl in E. by rewrite (proj2 (Z.ltb_lt p 64)) in E by lia. }
  pose proof (λ H1 H2, insertBits_testbit x p p _ y H1 H2 Hx E) as Hbit.
  specialize (Hbit ltac:(lia) ltac:(lia)). exists v, y. split; [done|]. split; [done|].
  assert (∀ k, 0 ≤ k → Z.testbit y k = if k =? p then Z.testbit a k else Z.testbit x k) as Hy.
  { intros k Hk. rewrite Hbit by done. destruct (Z.eqb_spec k p) as [->|Hne].
    - by rewrite Z.leb_refl, Z.sub_diag.
    - destruct (Z.leb_spec p k), (Z.leb_spec k p); simpl; done || lia. }
  split; [|done]. apply u64_of_testbit; [lia|]. intros k Hk. rewrite Hy by lia.
  destruct (k =? p); by apply (testbit_high _ 64).
Qed.

Lemma set_lsbs_spec match_ ms a : 0 ≤ a < 2 ^ 64 → Forall (λ m, 0 < m < 2 ^ 64 ∧ ctz64 m < 31) ms →
  ∀ i x, 0 ≤ i → i + zlen ms ≤ 64 → 0 ≤ x < 2 ^ 64 →
  (∀ j m, ms !! j = Some m → parity a m = Z.testbit match_ (i + Z.of_nat j)) →
  (∀ m m' k, m ∈ ms → m' ∈ ms → 0 ≤ k < 64 → k ≠ ctz64 m → Z.testbit m k = true → k ≠ ctz64 m') →
  (∀ k, 0 ≤ k → (∀ m, m ∈ ms → k ≠ ctz64 m) → Z.testbit x k = Z.testbit a k) →
  set_lsbs match_ ms i x = Ok a.
Proof.
  intros Ha. induction 1 as [|m ms [Hm Hlsb] Hms IH]; intros i x Hi Hn Hx Hpar Hind Hag.
  { simpl. f_equal. apply Z.bits_inj'. intros k Hk. apply Hag; [done|]. set_solver. }
  simpl in *. destruct (set_lsb_step a x m i match_) as (v & y & -> & E & Hy & Hb); try done; [lia| | |].
  { rewrite (Hpar 0%nat m) by done. f_equal. lia. }
  { intros k Hk Hne Ht. apply Hag; [lia|]. intros m' Hm'. apply (Hind m m'); set_solver. }
  simpl. rewrite (proj2 (Z.ltb_lt _ 32)) by lia. simpl. rewrite E. simpl. apply IH; try done; try lia.
  - intros j m' Hj. rewrite (Hpar (S j) m') by done. f_equal. lia.
  - intros m1 m2 k H1 H2. apply Hind; set_solver.
  - intros k Hk Hother. rewrite Hb by done. destruct (Z.eqb_spec k (ctz64 m)); [done|].
    apply Hag; [done|]. intros m' [->|?]%elem_of_cons; auto.
Qed.

(** C28. [addIntlvBits] undoes [removeIntlvBits]. For an address of an interleaved
    range whose masks are independent and have their lowest bits below bit 31,
    removing the interleaving bits and adding them again gives the address back. *)
Theorem interleaving_roundtrip r a (Hr : range_ok r) (Hi : independent r)
    (Ha : contains r a = Ok true) :
  ∃ x, removeIntlvBits r a = Ok x ∧ addIntlvBits r x = Ok a.
Proof.
  destruct (contains_spec r a Hr) as (v & E & Hin). rewrite Ha in E. injection E as <-.
  apply proj1 in Hin. specialize (Hin eq_refl). destruct (inside_bounds r a Hr Hin) as (? & ? & ?).
  unfold removeIntlvBits, addIntlvBits. destruct (interleaved r) eqn:Ei; simpl; [|by exists a].
  pose proof (masks_lsb_positions r Hr) as Hps.
  destruct (remove_bits_drop (masks_lsb r) 0 a Hps) as [-> Hd]; [lia|]. eexists. split; [done|].
  destruct (add_bits_rank (masks_lsb r) 0 _ Hps Hd) as (x & -> & Hx & Hb). simpl.
  pose proof Hr as (Hm & _ & Hn & _). destruct Hi as [Hind Hlow]. apply set_lsbs_spec; try done; try lia.
  - rewrite Forall_forall in *. intros m Hin'. split; [by apply Hm|by apply Hlow].
  - intros j m Hj. destruct Hin as [_ Hmatch]. specialize (Hmatch (Z.of_nat j)).
    rewrite Nat2Z.id, Hj in Hmatch. simpl in Hmatch. rewrite <- Hmatch by lia. f_equal.
  - intros m m' k [i Hmi]%list_elem_of_lookup [j Hmj]%list_elem_of_lookup Hk Hne Ht ->.
    destruct (decide (i = j)) as [->|Hij]; [congruence|]. by rewrite (Hind i j m m') in Ht.
  - intros k Hk Hother. destruct (decide (k < 64)).
    + assert (k ∉ masks_lsb r) as Hnot.
      { intros (m & Hin' & ->)%elem_of_masks_lsb. by apply (Hother m). }
      rewrite Hb by (done || lia).
      pose proof (drop_bits_rank (masks_lsb r) 0 a k Hps Hk Hnot) as Er. rewrite !Z.sub_0_r in Er. done.
    + by rewrite (testbit_high x 64), (testbit_high a 64) by lia.
Qed.

Lemma interleaving_roundtrip_witness :
  ∃ x, removeIntlvBits (bank 3) 0x1234 = Ok x ∧ addIntlvBits (bank 3) x = Ok 0x1234.
Proof.
  apply interleaving_roundtrip; [apply bank_ok| |by vm_compute]. split.
  - intros [|[|i]] [|[|j]] m m' E E'; simpl in *; try done; injection E as <-; injection E' as <-; by vm_compute.
  - repeat constructor; by vm_compute.
Defined.

(** With the lowest bit of a mask at bit 31 the selector is computed without the
    bits above: the address is not given back and is outside of the range. *)
Lemma addIntlvBits_loses_high_bits :
  let r := mk 0 (2 ^ 34) [2 ^ 31 + 2 ^ 32] 0 in
  contains r (2 ^ 31 + 2 ^ 32) = Ok true ∧ removeIntlvBits r (2 ^ 31 + 2 ^ 32) = Ok (2 ^ 31) ∧
  addIntlvBits r (2 ^ 31) = Ok (2 ^ 32) ∧ contains r (2 ^ 32) = Ok false.
Proof. by vm_compute. Qed.

(** The masks are combined in an [int]: interleaving above bit 31 has no
    granularity. *)
Lemma granularity_truncates : granularity (mk 0 (2 ^ 34) [2 ^ 32] 0) = Err EUndef.
Proof. by vm_compute. Qed.

End RoundTrip.

Section DirectoryExample.
Import DirectoryMemory.

Lemma bank_lines k : whole_lines 6 (bank k).
Proof.
  destruct (bank_ok k). split; [done|]. split; [done|]. split; [repeat constructor; by vm_compute|].
  split; [by exists 0|]. split; [by exists 1024|]. by exists 256.
Qed.

(** The directory of two of the four banks. *)
Definition two_banks : res (t nat) :=
  let* d := new [bank 1; bank 2] 64 in init d.

Lemma directory_per_line_witness :
  ∃ d d', two_banks = Ok d ∧ lookup d 0x100 = Ok None ∧ allocate S d 0x100 7%nat = Ok d' ∧
    lookup d' 0x13F = Ok (Some 8%nat) ∧ lookup d' 0x200 = lookup d 0x200.
Proof.
  destruct two_banks as [d|] eqn:E; [|by vm_compute in E]. exists d.
  assert (dir_ok 6 d ∧ addrRanges d = [bank 1; bank 2]) as [Hd Hr].
  { unfold two_banks in E. apply rbind_Ok in E as (d0 & E0 & E1).
    apply (init_ok 6 ltac:(lia) [bank 1; bank 2] d0 d); [|done|done|done].
    by do 2 (apply Forall_cons; split; [apply bank_lines|]). }
  assert (∀ k a, bank k ∈ [bank 1; bank 2] → AddrRange.contains (bank k) a = Ok true →
    present (addrRanges d) a) as Hin.
  { intros k a Hk Hc. exists (bank k). rewrite Hr. split; [done|].
    destruct (contains_spec (bank k) a) as (v & Ev & Hv); [apply bank_ok|].
    rewrite Hc in Ev. injection Ev as <-. by apply Hv. }
  destruct (directory_per_line S 6 ltac:(lia) d 0x100 0x13F 7%nat Hd) as (old & Eo & Ha & _).
  { by apply (Hin 1); [set_solver|vm_compute]. } { by apply (Hin 1); [set_solver|vm_compute]. }
  destruct (directory_per_line S 6 ltac:(lia) d 0x100 0x200 7%nat Hd) as (old' & Eo' & Ha' & _).
  { by apply (Hin 1); [set_solver|vm_compute]. } { by apply (Hin 2); [set_solver|vm_compute]. }
  assert (old = None) as ->.
  { vm_compute in E. injection E as <-. vm_compute in Eo. congruence. }
  assert (old' = None) as -> by congruence.
  destruct (Ha eq_refl) as (d' & Ed & _ & H1), (Ha' eq_refl) as (d'' & Ed' & _ & H2).
  assert (d'' = d') as -> by congruence. by exists d'.
Defined.

End DirectoryExample.
