(* ===== verification/RangeMap.v ===== *)
(** base/addr_range_map.hh: a map from address ranges to values, searched through a
    cache of the entries used last. *)

From stdpp Require Import prelude list.
From Stdlib Require Import ZArith Lia.
From S2P Require Import Prelude Bits AddrRange.

Open Scope Z_scope.

Module AddrRangeMap.
Section AddrRangeMap.
Context {V : Type} (max_cache_size : Z).

(** The nodes of the [std::map] in its order, each with an identity, as iterators
    refer to nodes; [fresh] is the identity of the next node. *)
Record t := mk { tree : list (nat * (AddrRange.t * V)); cache : list nat; fresh : nat }.
Implicit Types (m : t) (r : AddrRange.t) (cond : AddrRange.t → res bool).

(** [None] is [end()]. *)
Definition iterator := option nat.

Definition new : t := mk [] [] 0.
Definition with_cache m (c : list nat) : t := mk (tree m) c (fresh m).

Definition node (l : list (nat * (AddrRange.t * V))) (i : nat) : option (AddrRange.t * V) :=
  snd <$> (snd <$> list_find (λ e, e.1 = i) l).

(** [*it]; an iterator to an erased node must not be dereferenced. *)
Definition deref m (it : iterator) : res (AddrRange.t * V) :=
  let* i := of_option EUndef it in of_option EUndef (node (tree m) i).

Definition begin m : iterator := fst <$> head (tree m).
Definition size m : Z := zlen (tree m).
Definition empty m : bool := bool_decide (tree m = []).

(** A full cache gives up its last entry. *)
Definition addNewEntryToCache m (it : nat) : t :=
  if max_cache_size =? 0 then m
  else if u64 max_cache_size <=? zlen (cache m) then
    let kept := take (length (cache m) - 1) (cache m) in
    with_cache m (if 1 <? max_cache_size then it :: kept else kept ++ [it])
  else with_cache m (it :: cache m).

(** The loop over the cache: the entry that matches and the cache with that entry
    moved to its front; [seen] are the entries before. *)
Fixpoint search_cache m cond (seen rest : list nat) : res (option (nat * list nat)) :=
  match rest with
  | [] => Ok None
  | c :: rest =>
      let* e := deref m (Some c) in
      let* b := cond e.1 in
      if b : bool then Ok (Some (c, c :: seen ++ rest)) else search_cache m cond (seen ++ [c]) rest
  end.

(** [tree.upper_bound(r)]: the nodes before it and those from it on. *)
Fixpoint upper_bound r (l : list (nat * (AddrRange.t * V)))
    : list (nat * (AddrRange.t * V)) * list (nat * (AddrRange.t * V)) :=
  match l with
  | [] => ([], [])
  | e :: l => if AddrRange.lt r e.2.1 then ([], e :: l)
              else let '(pre, post) := upper_bound r l in (e :: pre, post)
  end.

(** The loop back from the node before the bound, which goes on while the ranges
    merge; the nodes are in reverse order. *)
Fixpoint look_back cond (l : list (nat * (AddrRange.t * V))) : res iterator :=
  match l with
  | [] => Ok None
  | e :: l =>
      let* b := cond e.2.1 in
      if b : bool then Ok (Some e.1)
      else match l with
           | [] => Ok None
           | next :: _ => if AddrRange.mergesWith next.2.1 e.2.1 then look_back cond l else Ok None
           end
  end.

Definition search_tree m r cond : res iterator :=
  let '(pre, post) := upper_bound r (tree m) in
  let* b := (match post with [] => Ok false | next :: _ => cond next.2.1 end) in
  if b : bool then Ok (fst <$> head post) else look_back cond (reverse pre).

Definition find m r cond : res (iterator * t) :=
  let* hit := search_cache m cond [] (cache m) in
  match hit with
  | Some (c, cache) => Ok (Some c, with_cache m cache)
  | None =>
      let* it := search_tree m r cond in
      Ok (it, match it with Some i => addNewEntryToCache m i | None => m end)
  end.

Definition contains_range m r : res (iterator * t) := find m r (AddrRange.isSubset r).
Definition contains m (a : Z) : res (iterator * t) := contains_range m (AddrRange.RangeSize a 1).
Definition intersects m r : res (iterator * t) := find m r (AddrRange.intersects r).

(** [tree.insert]: an equivalent key that is there already stays. *)
Definition tree_insert m r (d : V) : iterator * t :=
  let '(pre, post) := upper_bound r (tree m) in
  match last pre with
  | Some e => if negb (AddrRange.lt e.2.1 r) then (Some e.1, m)
              else (Some (fresh m), mk (pre ++ (fresh m, (r, d)) :: post) (cache m) (S (fresh m)))
  | None => (Some (fresh m), mk ((fresh m, (r, d)) :: post) (cache m) (S (fresh m)))
  end.

Definition insert m r (d : V) : res (iterator * t) :=
  let* (it, m) := intersects m r in
  match it with
  | Some _ => Ok (None, m)
  | None => Ok (tree_insert m r d)
  end.

Definition remove_cached (p : nat) (c : list nat) : list nat := filter (λ i, i ≠ p) c.

Definition erase m (p : nat) : res t :=
  let* _ := deref m (Some p) in
  Ok (mk (filter (λ e, e.1 ≠ p) (tree m)) (remove_cached p (cache m)) (fresh m)).

(** The nodes from [p] up to [q]. *)
Fixpoint before (l : list (nat * (AddrRange.t * V))) (q : iterator) : res (list (nat * (AddrRange.t * V)) * list (nat * (AddrRange.t * V))) :=
  match l with
  | [] => match q with None => Ok ([], []) | Some _ => Err EUndef end
  | e :: l => if bool_decide (q = Some e.1) then Ok ([], e :: l)
              else let* (gone, kept) := before l q in Ok (e :: gone, kept)
  end.

(** Each round of the loop over the entries from [p] to [q] removes [p] from the
    cache. *)
Definition erase_range m (p q : iterator) : res t :=
  let* (pre, rest) := before (tree m) p in
  let* (gone, post) := before rest q in
  let* c := (match gone, p with
             | [], _ => Ok (cache m)
             | _, Some i => Ok (foldl (λ c _, remove_cached i c) (cache m) gone)
             | _, None => Err EUndef
             end) in
  Ok (mk (pre ++ post) c (fresh m)).

Definition clear m : t := mk [] [] (fresh m).

End AddrRangeMap.
Arguments t V : clear implicits.
Arguments new {V}.
End AddrRangeMap.
