(* ===== verification/RangeMapSpec.v ===== *)
(** The address range map: whatever its cache of iterators holds, a search finds
    the entry of an address exactly when there is one, and insertion keeps the
    ranges apart. *)

From stdpp Require Import prelude list sorting.
From Stdlib Require Import ZArith Lia.
From S2P Require Import Prelude Bits AddrRange AddrRangeSpec RangeMap.

Open Scope Z_scope.

Import Bits.Bitfield AddrRangeMap AddrRange.

(** ** Ranges that can be compared *)

Section Ranges.
Implicit Types r e : AddrRange.t.

(** A range that is not empty and whose granularity can be computed, as the masks
    have bits below bit 32. [intersects] takes the start of a range of one address
    for that address, which is wrong if it is interleaved. *)
Definition usable r : Prop :=
  range_ok r ∧ _start r < _end r ∧ (masks r = [] → intlvMatch r = 0) ∧ (masks r = [] ∨ size r ≠ 1) ∧
  ∃ g, granularity r = Ok g ∧ 1 ≤ g.

Definition overlap r e : Prop := _start r < _end e ∧ _start e < _end r.

(** The pairs of ranges for which [intersects] has an answer. *)
Definition comparable r e : Prop :=
  overlap r e → (masks r = [] ∧ masks e = []) ∨ mergesWith r e = true.

Definition clash r e : bool :=
  bool_decide (_start r < _end e) && bool_decide (_start e < _end r) &&
  ((bool_decide (masks r = []) && bool_decide (masks e = [])) || (intlvMatch r =? intlvMatch e)).

Lemma interleaved_masks r : interleaved r = negb (bool_decide (masks r = [])).
Proof. unfold interleaved. destruct (masks r); [done|]. simpl. apply Z.ltb_lt. lia. Qed.

Lemma mergesWith_spec r e : mergesWith r e = true ↔ _start e = _start r ∧ _end e = _end r ∧ masks e = masks r.
Proof. unfold mergesWith. rewrite !andb_true_iff, !Z.eqb_eq, bool_decide_eq_true. tauto. Qed.

Lemma intersects_clash r e : usable r → usable e → comparable r e → AddrRange.intersects r e = Ok (clash r e).
Proof.
  intros (_ & Hr & Hr0 & _) (_ & He & He0 & Hs & _) Hc. unfold AddrRange.intersects, clash.
  destruct (Z.leb_spec (_end e) (_start r)); simpl; [by rewrite (bool_decide_false (_start r < _end e)) by lia|].
  destruct (Z.leb_spec (_end r) (_start e)); simpl.
  { rewrite (bool_decide_false (_start e < _end r)) by lia. by rewrite andb_false_r. }
  rewrite !(bool_decide_true (_ < _)) by lia. rewrite !interleaved_masks, !negb_involutive. simpl.
  destruct Hc as [[-> ->]|Hm]; [split; lia|done|].
  apply mergesWith_spec in Hm as Hm'. destruct Hm' as (_ & _ & Em). rewrite Em.
  destruct (decide (masks r = [])) as [E|E]; [by rewrite bool_decide_true|]. rewrite bool_decide_false by done. simpl.
  destruct Hs as [Hs|Hs]; [congruence|]. apply Z.eqb_neq in Hs. rewrite Hs. by rewrite Hm.
Qed.

(** Ranges that share an address clash. *)
Lemma inside_clash r e a : usable r → usable e → comparable r e → inside r a → inside e a → clash r e = true.
Proof.
  intros (_ & _ & Hr0 & _) (_ & _ & He0 & _) Hc [Hr Hmr] [He Hme]. unfold clash.
  rewrite !(bool_decide_true (_ < _)) by lia. simpl.
  destruct Hc as [[-> ->]|(_ & _ & Em)%mergesWith_spec]; [split; lia|done|].
  apply orb_true_iff. right. apply Z.eqb_eq, Z.bits_inj'. intros k Hk. rewrite Hmr, Hme by done. by rewrite Em.
Qed.

(** [contains] asks for a range of one address. *)
Lemma isSubset_single r a : usable r → 0 ≤ a < 2 ^ 64 - 1 →
  ∃ b, isSubset (RangeSize a 1) r = Ok b ∧ (b = true ↔ inside r a).
Proof.
  intros (Hok & Hlt & H0 & _ & g & Eg & Hg) Ha. unfold isSubset, RangeSize, AddrRange.new.
  assert (u64 (a + 1) = a + 1) as E1 by (apply u64_small; lia). cbn [interleaved masks _start _end]. rewrite E1.
  change (interleaved (mk a (a + 1) [] 0)) with false. cbv beta iota. rewrite interleaved_masks.
  destruct (decide (masks r = [])) as [Em|Em].
  - rewrite bool_decide_true by done. simpl. rewrite (proj2 (Z.leb_gt _ _)) by lia. rewrite (proj2 (Z.leb_gt (_end r) (_start r))) by lia.
    eexists. split; [done|]. rewrite andb_true_iff, !Z.leb_le. unfold inside. rewrite (H0 Em), Em.
    split; [intros ?; split; [lia|]; intros k Hk; by rewrite Z.bits_0|lia].
  - rewrite bool_decide_false by done. simpl. destruct (contains_spec r a Hok) as (b & -> & Hb). simpl.
    destruct b; [|eexists; split; [done|]; naive_solver].
    replace (u64 (a + 1 - 1)) with a by (rewrite Z.add_simpl_r, u64_small; lia).
    destruct (contains_spec r a Hok) as (b & -> & Hb'). simpl. destruct b; [|naive_solver]. rewrite Eg. simpl.
    exists true. split; [|done]. f_equal. apply Z.leb_le. unfold size. cbn [_start _end masks length].
    replace (u64 (a + 1 - a)) with 1 by (replace (a + 1 - a) with 1 by lia; done). done.
Qed.

End Ranges.

(** ** The map *)

Section Map.
Context {V : Type} (max_cache_size : Z) (Hmax : 0 ≤ max_cache_size < 2 ^ 31).
Implicit Types (m : AddrRangeMap.t V) (r : AddrRange.t) (e : nat * (AddrRange.t * V)) (c : nat * (AddrRange.t * V) → bool).

(** The order of the ranges: one after the other, or stripes of one interleaving. *)
Definition precedes (x y : AddrRange.t) : Prop :=
  _end x ≤ _start y ∨ (mergesWith x y = true ∧ masks x ≠ [] ∧ intlvMatch x < intlvMatch y).
Definition in_row e e' : Prop := precedes e.2.1 e'.2.1.

Record map_ok m : Prop := {
  mo_usable : Forall (λ e, usable e.2.1) (tree m);
  mo_row : StronglySorted in_row (tree m);
  mo_ids : NoDup (tree m).*1;
  mo_fresh : Forall (λ e, (e.1 < fresh m)%nat) (tree m);
  mo_cache : Forall (λ i, i ∈ (tree m).*1) (cache m);
  mo_small : zlen (cache m) ≤ max_cache_size }.

(** What a search is asked for, as a function of the entries. *)
Definition answers m (cond : AddrRange.t → res bool) c : Prop := ∀ e, e ∈ tree m → cond e.2.1 = Ok (c e).

Lemma node_spec m i : map_ok m → i ∈ (tree m).*1 → ∃ p, node (tree m) i = Some p ∧ (i, p) ∈ tree m.
Proof.
  intros Hm ([j p] & -> & Hp)%list_elem_of_fmap. unfold node.
  destruct (list_find_elem_of (λ e, e.1 = j) (tree m) (j, p)) as [[k e] E]; [done|done|].
  simpl. rewrite E. apply list_find_Some in E as (Hk & E1 & _). exists e.2. split; [done|].
  rewrite <- E1. destruct e. by eapply list_elem_of_lookup_2.
Qed.

Lemma entry_unique m e e' : map_ok m → e ∈ tree m → e' ∈ tree m → e.1 = e'.1 → e = e'.
Proof.
  intros Hm [i Hi]%list_elem_of_lookup [j Hj]%list_elem_of_lookup E.
  assert (i = j) as ->; [|congruence]. apply (NoDup_lookup (tree m).*1 i j e.1 (mo_ids m Hm)); rewrite list_lookup_fmap.
  - by rewrite Hi.
  - by rewrite Hj, E.
Qed.

Lemma search_cache_spec m cond c seen rest : map_ok m → answers m cond c → Forall (λ i, i ∈ (tree m).*1) rest →
  ∃ hit, search_cache m cond seen rest = Ok hit ∧
    match hit with
    | Some (i, l) => l ≡ₚ seen ++ rest ∧ ∃ e, e ∈ tree m ∧ e.1 = i ∧ c e = true
    | None => True
    end.
Proof.
  intros Hm Hc. revert seen. induction rest as [|i rest IH]; intros seen Hr; [by exists None|].
  apply Forall_cons in Hr as [Hi Hr]. destruct (node_spec m i Hm Hi) as (p & Ep & Hp). cbn [search_cache]. unfold deref. cbn [of_option rbind]. rewrite Ep. cbn [of_option rbind].
  pose proof (Hc _ Hp) as E. cbn [fst snd] in E. rewrite E. cbn [rbind]. destruct (c (i, p)) eqn:Ec.
  - eexists. split; [done|]. simpl. split; [by rewrite Permutation_middle|]. by exists (i, p).
  - destruct (IH (seen ++ [i]) Hr) as (hit & -> & H). exists hit. split; [done|]. by rewrite <- app_assoc in H.
Qed.

Lemma upper_bound_spec r (l pre post : list (nat * (AddrRange.t * V))) : upper_bound r l = (pre, post) →
  l = pre ++ post ∧ Forall (λ e, AddrRange.lt r e.2.1 = false) pre ∧ (∀ e, head post = Some e → AddrRange.lt r e.2.1 = true).
Proof.
  revert pre post. induction l as [|e l IH]; intros pre post; simpl.
  { intros [= <- <-]. by split_and!. }
  destruct (AddrRange.lt r e.2.1) eqn:El.
  { intros [= <- <-]. split; [done|]. split; [done|]. intros e' [= <-]. done. }
  destruct (upper_bound r l) as [pre' post'] eqn:E. intros [= <- <-].
  destruct (IH _ _ eq_refl) as (-> & Hp & Hq). split; [done|]. split; [by constructor|done].
Qed.

Lemma lt_start r x : AddrRange.lt r x = true → _start r ≤ _start x.
Proof. unfold AddrRange.lt. destruct (Z.eqb_spec (_start r) (_start x)); simpl; [lia|]. intros ?%Z.ltb_lt. lia. Qed.
Lemma nlt_start r x : AddrRange.lt r x = false → _start x ≤ _start r.
Proof. unfold AddrRange.lt. destruct (Z.eqb_spec (_start r) (_start x)); simpl; [lia|]. intros ?%Z.ltb_ge. lia. Qed.

(** The loop back finds the entry if the ones that match merge with the first. *)
Lemma look_back_spec m cond c (l : list (nat * (AddrRange.t * V))) :
  answers m cond c → (∀ e, e ∈ l → e ∈ tree m ∧ usable e.2.1) → StronglySorted (λ x y, in_row y x) l →
  (∀ e x, e ∈ l → c e = true → head l = Some x → mergesWith e.2.1 x.2.1 = true) →
  ∃ it, look_back cond l = Ok it ∧
    match it with Some i => ∃ e, e ∈ tree m ∧ e.1 = i ∧ c e = true | None => ∀ e, e ∈ l → c e = false end.
Proof.
  intros Hc. induction l as [|x l IH]; intros Hl Hs Hm; [exists None; split; [done|]; intros e He; by apply not_elem_of_nil in He|].
  apply StronglySorted_inv in Hs as [Hs Hx]. cbn [look_back]. rewrite (Hc x) by (apply Hl; left). cbn [rbind].
  destruct (c x) eqn:Ex. { eexists. split; [done|]. exists x. split; [apply Hl; left|done]. }
  assert (∀ e, e ∈ x :: l → c e = true → e ∈ l ∧ mergesWith e.2.1 x.2.1 = true) as Hin.
  { intros e He Et. split; [|by apply Hm]. apply elem_of_cons in He as [->|?]; [congruence|done]. }
  destruct l as [|y l]. { exists None. split; [done|]. intros e ->%list_elem_of_singleton. done. }
  destruct (mergesWith y.2.1 x.2.1) eqn:Ey.
  - destruct IH as (it & -> & Hit); [|done| |].
    + intros e He. apply Hl. by right.
    + intros e z He Et [= <-]. destruct (Hin e) as [_ H1]; [by right|done|].
      apply mergesWith_spec in H1 as (? & ? & ?), Ey as (? & ? & ?). apply mergesWith_spec. split_and!; congruence.
    + exists it. split; [done|]. destruct it; [done|]. intros e [->|He]%elem_of_cons; [done|by apply Hit].
  - exists None. split; [done|]. intros e He. destruct (c e) eqn:Et; [|done]. destruct (Hin e He Et) as [He' H1].
    apply elem_of_cons in He' as [->|He']; [congruence|]. exfalso.
    apply StronglySorted_inv in Hs as [_ Hy]. rewrite Forall_forall in Hy. specialize (Hy e He'). unfold in_row, precedes in Hy.
    apply Forall_cons in Hx as [[Hyx|[? _]] _]; [|congruence].
    destruct (Hl e He) as [_ (_ & Hue & _)], (Hl y ltac:(right; left)) as [_ (_ & Huy & _)].
    apply mergesWith_spec in H1 as (? & ? & ?). destruct Hy as [?|[(? & ? & ?)%mergesWith_spec _]]; lia.
Qed.

(** The conditions that a search may be made with: only ranges that overlap the
    given one match, and if one after the bound does, the first one after it does. *)
Definition searchable m r c : Prop :=
  (∀ e, e ∈ tree m → c e = true → overlap r e.2.1) ∧
  (∀ h e, h ∈ tree m → e ∈ tree m → AddrRange.lt r h.2.1 = true → in_row h e → c e = true → c h = true).

Lemma search_tree_spec m r cond c : map_ok m → answers m cond c → searchable m r c →
  ∃ it, search_tree m r cond = Ok it ∧
    match it with Some i => ∃ e, e ∈ tree m ∧ e.1 = i ∧ c e = true | None => ∀ e, e ∈ tree m → c e = false end.
Proof.
  intros Hm Hc [Hov Hpost]. unfold search_tree. destruct (upper_bound r (tree m)) as [pre post] eqn:E.
  apply upper_bound_spec in E as (El & Hpre & Hhd).
  pose proof (mo_row m Hm) as Hrow. pose proof (mo_usable m Hm) as Hus. rewrite Forall_forall in Hus. rewrite El in Hrow.
  assert (∀ e, e ∈ pre → e ∈ tree m) as Hin1 by (intros e He; rewrite El, elem_of_app; by left).
  assert (∀ e, e ∈ post → e ∈ tree m) as Hin2 by (intros e He; rewrite El, elem_of_app; by right).
  assert (match post with [] => Ok false | next :: _ => cond next.2.1 end = Ok (from_option c false (head post))) as ->.
  { destruct post as [|h post]; [done|]. apply Hc, Hin2. by left. }
  cbn [rbind]. destruct (from_option c false (head post)) eqn:Eh.
  { destruct post as [|h post]; [done|]. eexists. split; [done|]. exists h. split; [apply Hin2; by left|done]. }
  assert (∀ e, e ∈ post → c e = false) as Hno.
  { destruct post as [|h post]; [intros e He; by apply not_elem_of_nil in He|]. intros e [->|He]%elem_of_cons; [done|].
    destruct (c e) eqn:Et; [|done]. rewrite <- Eh. simpl. symmetry. apply (Hpost h e); [apply Hin2; by left|apply Hin2; by right|by apply Hhd| |done].
    apply StronglySorted_app in Hrow as (_ & _ & Hrow). apply StronglySorted_inv in Hrow as [_ Hrow].
    rewrite Forall_forall in Hrow. by apply Hrow. }
  destruct (look_back_spec m cond c (reverse pre)) as (it & E & Hit); [done|..].
  - intros e He. rewrite elem_of_reverse in He. split; [by apply Hin1|by apply Hus, Hin1].
  - apply StronglySorted_app in Hrow as (_ & Hrow & _). by apply StronglySorted_reverse in Hrow.
  - intros e x He Et Ex. rewrite elem_of_reverse in He.
    assert (∃ front, pre = front ++ [x]) as [front ->].
    { destruct pre as [|y pre' _] using rev_ind; [done|]. rewrite reverse_snoc in Ex. injection Ex as ->. by exists pre'. }
    pose proof He as [Hf| ->%list_elem_of_singleton]%elem_of_app; [|by apply mergesWith_spec]. rewrite <- app_assoc in Hrow.
    apply (StronglySorted_app_1_elem_of _ _ _ e x) in Hrow; [|done|set_solver]. destruct Hrow as [Hrow|[? _]]; [|done].
    apply Forall_app in Hpre as [_ Hx]. apply Forall_cons in Hx as [Hx%nlt_start _].
    destruct (Hov e) as [? ?]; [by apply Hin1|done|]. lia.
  - exists it. split; [done|]. destruct it; [done|]. intros e He. rewrite El in He. apply elem_of_app in He as [He|He]; [|by apply Hno].
    apply Hit. by rewrite elem_of_reverse.
Qed.

Lemma addNewEntry_ok m i : map_ok m → i ∈ (tree m).*1 →
  map_ok (addNewEntryToCache max_cache_size m i) ∧ tree (addNewEntryToCache max_cache_size m i) = tree m.
Proof using Hmax.
  intros Hm Hi. pose proof (mo_small m Hm) as Hn. pose proof (mo_cache m Hm) as Hc. unfold addNewEntryToCache.
  destruct (Z.eqb_spec max_cache_size 0); [done|]. rewrite u64_small by lia.
  assert (∀ k, map_ok (with_cache m k) ↔ Forall (λ i, i ∈ (tree m).*1) k ∧ zlen k ≤ max_cache_size) as Hk.
  { intros k. split; [intros Hk; split; apply Hk|]. intros [? ?]. destruct Hm. by split. }
  destruct (Z.leb_spec max_cache_size (zlen (cache m))) as [Hf|Hf]; (split; [|done]); apply Hk.
  - assert (Forall (λ i, i ∈ (tree m).*1) (take (length (cache m) - 1) (cache m))) by by apply Forall_take.
    destruct (1 <? max_cache_size).
    + split; [by constructor|]. simpl. rewrite length_take. lia.
    + split; [apply Forall_app; by split; [|apply Forall_singleton]|]. rewrite length_app, length_take. simpl. lia.
  - split; [by constructor|]. simpl. lia.
Qed.

Lemma find_spec m r cond c : map_ok m → answers m cond c → searchable m r c →
  ∃ it m', find max_cache_size m r cond = Ok (it, m') ∧ map_ok m' ∧ tree m' = tree m ∧
    match it with Some i => ∃ e, e ∈ tree m ∧ e.1 = i ∧ c e = true | None => ∀ e, e ∈ tree m → c e = false end.
Proof using Hmax.
  intros Hm Hc Hs. unfold find. destruct (search_cache_spec m cond c [] (cache m) Hm Hc (mo_cache m Hm)) as (hit & -> & Hh).
  cbn [rbind]. destruct hit as [[i l]|].
  - destruct Hh as [Hp He]. exists (Some i), (with_cache m l). split; [done|]. split; [|by split].
    destruct Hm. split; [done..| |]; simpl in *; by rewrite Hp.
  - destruct (search_tree_spec m r cond c Hm Hc Hs) as (it & -> & Hit). cbn [rbind]. destruct it as [i|].
    + destruct Hit as (e & He & <- & Et). destruct (addNewEntry_ok m e.1 Hm) as [H1 H2]; [by apply list_elem_of_fmap_2|].
      eexists _, _. split; [done|]. split; [done|]. split; [done|]. by exists e.
    + by exists None, m.
Qed.

(** ** The operations *)

Definition found m (it : iterator) (P : AddrRange.t → Prop) : Prop :=
  match it with Some i => ∃ e, e ∈ tree m ∧ e.1 = i ∧ P e.2.1 | None => ∀ e, e ∈ tree m → ¬ P e.2.1 end.

Lemma contains_ok m a : map_ok m → 0 ≤ a < 2 ^ 64 - 1 →
  ∃ it m', AddrRangeMap.contains max_cache_size m a = Ok (it, m') ∧ map_ok m' ∧ tree m' = tree m ∧ found m it (λ r, inside r a).
Proof using Hmax.
  intros Hm Ha. set (c := λ e : nat * (AddrRange.t * V), match isSubset (RangeSize a 1) e.2.1 with Ok b => b | Err _ => false end).
  assert (∀ e, e ∈ tree m → usable e.2.1) as Hu by (intros e He; pose proof (mo_usable m Hm) as H; rewrite Forall_forall in H; by apply H).
  assert (∀ e, e ∈ tree m → isSubset (RangeSize a 1) e.2.1 = Ok (c e) ∧ (c e = true ↔ inside e.2.1 a)) as Hc.
  { intros e He. unfold c. destruct (isSubset_single e.2.1 a (Hu e He) Ha) as (b & -> & Hb). done. }
  destruct (find_spec m (RangeSize a 1) (isSubset (RangeSize a 1)) c Hm) as (it & m' & E & Hm' & Et & Hf).
  - intros e He. by apply Hc.
  - assert (_start (RangeSize a 1) = a ∧ _end (RangeSize a 1) = a + 1) as [Es Ee] by (split; [done|apply u64_small; lia]). split.
    + intros e He [? _]%(Hc e He). unfold overlap. lia.
    + intros h e Hh He Hlt Hrow [? _]%(Hc e He). exfalso. destruct (Hu h Hh) as (_ & ? & _).
      pose proof (lt_start _ _ Hlt). rewrite Es in *.
      destruct Hrow as [?|[(E1 & _)%mergesWith_spec _]]; [lia|]. unfold AddrRange.lt in Hlt. rewrite Es in Hlt.
      replace (_start h.2.1) with a in Hlt by lia. rewrite Z.eqb_refl in Hlt. done.
  - exists it, m'. split; [done|]. split; [done|]. split; [done|]. destruct it as [i|]; simpl.
    + destruct Hf as (e & He & ? & ?%(Hc e He)). by exists e.
    + intros e He Hi%(Hc e He). specialize (Hf e He). congruence.
Qed.

Lemma intersects_ok m r : map_ok m → usable r → (∀ e, e ∈ tree m → comparable r e.2.1) →
  ∃ it m', AddrRangeMap.intersects max_cache_size m r = Ok (it, m') ∧ map_ok m' ∧ tree m' = tree m ∧
    found m it (λ x, clash r x = true).
Proof using Hmax.
  intros Hm Hr Hcmp.
  assert (∀ e, e ∈ tree m → usable e.2.1) as Hu by (intros e He; pose proof (mo_usable m Hm) as H; rewrite Forall_forall in H; by apply H).
  destruct (find_spec m r (AddrRange.intersects r) (λ e, clash r e.2.1) Hm) as (it & m' & E & Hm' & Et & Hf).
  - intros e He. apply intersects_clash; auto.
  - assert (∀ e, clash r e.2.1 = true → overlap r e.2.1) as Hov.
    { intros e. unfold clash. rewrite !andb_true_iff, !bool_decide_eq_true. intros [[? ?] _]. by split. }
    split; [by auto|]. intros h e Hh He Hlt Hrow Hcl. pose proof (Hov e Hcl) as [? ?].
    pose proof (lt_start _ _ Hlt). destruct (Hu h Hh) as (_ & ? & _).
    assert (_start r < _end e.2.1 ∧ _start h.2.1 < _end r) as [? ?].
    { destruct Hrow as [?|[(? & ? & _)%mergesWith_spec _]]; lia. }
    assert (overlap r h.2.1) as Hrh by (split; lia). unfold clash. rewrite !(bool_decide_true (_ < _)) by apply Hrh. simpl.
    destruct (Hcmp h Hh Hrh) as [[-> ->]|(E1 & E2 & E3)%mergesWith_spec]; [done|]. exfalso.
    destruct Hrow as [?|[(F1 & F2 & F3)%mergesWith_spec [Hil Hlt']]]; [lia|].
    unfold AddrRange.lt in Hlt. rewrite <- E1, Z.eqb_refl, !interleaved_masks, <- E3 in Hlt. simpl in Hlt.
    rewrite bool_decide_false in Hlt by done. apply Z.ltb_lt in Hlt. unfold clash in Hcl.
    rewrite F3, <- E3, (bool_decide_false (masks h.2.1 = [])), andb_false_r in Hcl by done. simpl in Hcl.
    apply andb_true_iff in Hcl as [_ ?%Z.eqb_eq]. lia.
  - exists it, m'. split; [done|]. split; [done|]. split; [done|]. destruct it as [i|]; simpl; [done|].
    intros e He Hi. specialize (Hf e He). simpl in Hf. congruence.
Qed.

Lemma placed r (x : AddrRange.t) : usable r → usable x → comparable r x → clash r x = false →
  if AddrRange.lt r x then precedes r x else precedes x r ∧ AddrRange.lt x r = true.
Proof.
  intros (_ & Hr & _) (_ & Hx & _) Hc Hcl. unfold AddrRange.lt at 1.
  destruct (Z.le_gt_cases (_end x) (_start r)).
  { rewrite (proj2 (Z.eqb_neq (_start r) (_start x))) by lia. simpl. rewrite (proj2 (Z.ltb_ge _ _)) by lia. split; [by left|].
    unfold AddrRange.lt. rewrite (proj2 (Z.eqb_neq (_start x) (_start r))) by lia. simpl. apply Z.ltb_lt. lia. }
  destruct (Z.le_gt_cases (_end r) (_start x)).
  { rewrite (proj2 (Z.eqb_neq (_start r) (_start x))) by lia. simpl. rewrite (proj2 (Z.ltb_lt _ _)) by lia. by left. }
  unfold clash in Hcl. rewrite !(bool_decide_true (_ < _)) in Hcl by lia. simpl in Hcl. apply orb_false_iff in Hcl as [Hp Hne%Z.eqb_neq].
  destruct Hc as [[E1 E2]|Hm]; [split; lia|by rewrite E1, E2 in Hp|]. pose proof Hm as (Es & Ee & Em)%mergesWith_spec.
  rewrite Em in Hp. rewrite Es, Z.eqb_refl, !interleaved_masks, Em. simpl.
  destruct (decide (masks r = [])) as [E|E]; [by rewrite bool_decide_true in Hp|]. rewrite bool_decide_false by done. simpl.
  destruct (Z.ltb_spec (intlvMatch r) (intlvMatch x)); [right; by split|].
  split; [right; split; [apply mergesWith_spec; split_and!; congruence|split; [congruence|lia]]|].
  unfold AddrRange.lt. rewrite Es, Z.eqb_refl, !interleaved_masks, Em, bool_decide_false by done. simpl. apply Z.ltb_lt. lia.
Qed.

Lemma precedes_trans (x y z : AddrRange.t) : _start y < _end y → precedes x y → precedes y z → precedes x z.
Proof.
  intros Hy [H1|((A1 & A2 & A3)%mergesWith_spec & Hi & H2)] [H3|((B1 & B2 & B3)%mergesWith_spec & Hi' & H4)]; [left; lia..|].
  right. rewrite mergesWith_spec. split; [split_and!; congruence|]. split; [done|lia].
Qed.

(** A range that clashes with none is entered in its place. *)
Lemma tree_insert_ok m r d : map_ok m → usable r → (∀ e, e ∈ tree m → comparable r e.2.1 ∧ clash r e.2.1 = false) →
  ∃ m', tree_insert m r d = (Some (fresh m), m') ∧ map_ok m' ∧ tree m' ≡ₚ (fresh m, (r, d)) :: tree m.
Proof.
  intros Hm Hr Hc. unfold tree_insert. destruct (upper_bound r (tree m)) as [pre post] eqn:E.
  apply upper_bound_spec in E as (El & Hpre & Hhd). pose proof (mo_row m Hm) as Hrow. rewrite El in Hrow.
  pose proof (mo_usable m Hm) as Hus. rewrite Forall_forall in Hus.
  assert (∀ e, e ∈ tree m → if AddrRange.lt r e.2.1 then precedes r e.2.1 else precedes e.2.1 r ∧ AddrRange.lt e.2.1 r = true) as Hpl.
  { intros e He. destruct (Hc e He). apply placed; auto. }
  assert (∀ e, e ∈ pre → precedes e.2.1 r ∧ AddrRange.lt e.2.1 r = true) as Hbef.
  { intros e He. rewrite Forall_forall in Hpre. specialize (Hpl e). rewrite Hpre in Hpl by done. apply Hpl. rewrite El, elem_of_app. by left. }
  assert (∀ e, e ∈ post → precedes r e.2.1) as Haft.
  { destruct post as [|h post]; [intros e He; by apply not_elem_of_nil in He|].
    assert (h ∈ tree m) as Hh by (rewrite El, elem_of_app; right; left).
    specialize (Hpl h Hh). rewrite (Hhd h eq_refl) in Hpl. intros e [->|He]%elem_of_cons; [done|].
    destruct (Hus h Hh) as (_ & Hlh & _). apply (precedes_trans r h.2.1 e.2.1 Hlh Hpl). apply StronglySorted_app in Hrow as (_ & _ & Hrow).
    apply StronglySorted_inv in Hrow as [_ Hrow]. rewrite Forall_forall in Hrow. by apply Hrow. }
  set (m' := AddrRangeMap.mk (pre ++ (fresh m, (r, d)) :: post) (cache m) (S (fresh m))).
  exists m'. assert (tree m' ≡ₚ (fresh m, (r, d)) :: tree m) as Hp by (simpl; rewrite El; by rewrite Permutation_middle).
  split; [|split; [|done]].
  { destruct (last pre) as [e|] eqn:Ela; [|by apply last_None in Ela as ->].
    apply last_Some_elem_of in Ela. destruct (Hbef e Ela) as [_ ->]. done. }
  split.
  - rewrite Hp. constructor; [done|apply Hm].
  - simpl. apply StronglySorted_app in Hrow as (H1 & H2 & H3). apply StronglySorted_app_2; [|done|constructor; [done|]].
    + intros x y Hx [->|Hy]%elem_of_cons; [by apply Hbef|by apply H1].
    + apply Forall_forall. intros y Hy. by apply Haft.
  - rewrite Hp. simpl. constructor; [|apply Hm]. intros (e & E1 & He)%list_elem_of_fmap.
    pose proof (mo_fresh m Hm) as Hf. rewrite Forall_forall in Hf. specialize (Hf e He). simpl in Hf. lia.
  - rewrite Hp. constructor; [simpl; lia|]. eapply Forall_impl; [apply (mo_fresh m Hm)|]. simpl. lia.
  - eapply Forall_impl; [apply (mo_cache m Hm)|]. intros i Hi. rewrite Hp. by right.
  - apply Hm.
Qed.

Lemma erase_ok m e : map_ok m → e ∈ tree m →
  ∃ m', erase m e.1 = Ok m' ∧ map_ok m' ∧ e :: tree m' ≡ₚ tree m.
Proof.
  intros Hm He. unfold erase, deref. cbn [of_option rbind].
  destruct (node_spec m e.1 Hm) as (p & -> & _); [by apply list_elem_of_fmap_2|]. cbn [of_option rbind].
  eexists. split; [done|]. apply list_elem_of_split in He as (l1 & l2 & El). pose proof (mo_ids m Hm) as Hnd.
  rewrite El, fmap_app in Hnd. simpl in Hnd. apply NoDup_app in Hnd as (_ & Hd & [Hn _]%NoDup_cons).
  assert (filter (λ x, x.1 ≠ e.1) (tree m) = l1 ++ l2) as Ef.
  { rewrite El, filter_app, filter_cons_False by naive_solver. f_equal; apply filter_all, Forall_forall; intros x Hx Ex.
    - apply (Hd e.1); [rewrite <- Ex; by apply list_elem_of_fmap_2|left].
    - apply Hn. rewrite <- Ex. by apply list_elem_of_fmap_2. }
  simpl. rewrite Ef. split; [|by rewrite El, Permutation_middle].
  assert (∀ P, Forall P (tree m) → Forall P (l1 ++ l2)) as Hall.
  { intros P. rewrite El, !Forall_app, Forall_cons. tauto. }
  destruct Hm as [H1 H2 H3 H4 H5 H6]. split; simpl.
  - by apply Hall.
  - rewrite El in H2. apply StronglySorted_app in H2 as (Ha & Hb & [Hc _]%StronglySorted_inv). apply StronglySorted_app_2; [|done..].
    intros x y Hx Hy. apply Ha; [done|by right].
  - rewrite El, <- Permutation_middle in H3. by apply NoDup_cons in H3 as [_ ?].
  - by apply Hall.
  - unfold remove_cached. apply Forall_forall. intros i [Hi Hin]%list_elem_of_filter. rewrite Forall_forall in H5.
    specialize (H5 i Hin). rewrite El, fmap_app in H5. rewrite fmap_app. set_solver.
  - pose proof (length_filter (λ i, i ≠ e.1) (cache m)). unfold remove_cached. lia.
Qed.

(** ** Runs *)

Inductive op := Insert (r : AddrRange.t) (d : V) | Contains (a : Z) | Intersects (r : AddrRange.t) | Erase (a : Z) | Clear.
Inductive out := Done (b : bool) | Found (p : option (AddrRange.t * V)).

Definition fetch m (it : iterator) : res (option (AddrRange.t * V)) :=
  match it with None => Ok None | Some _ => let* p := deref m it in Ok (Some p) end.

Definition do_op m (o : op) : res (out * AddrRangeMap.t V) :=
  match o with
  | Insert r d => let* (it, m) := insert max_cache_size m r d in Ok (Done (bool_decide (is_Some it)), m)
  | Contains a => let* (it, m) := AddrRangeMap.contains max_cache_size m a in
                  let* p := fetch m it in Ok (Found p, m)
  | Intersects r => let* (it, m) := AddrRangeMap.intersects max_cache_size m r in Ok (Done (bool_decide (is_Some it)), m)
  | Erase a => let* (it, m) := AddrRangeMap.contains max_cache_size m a in
               match it with None => Ok (Done false, m) | Some i => let* m := erase m i in Ok (Done true, m) end
  | Clear => Ok (Done true, clear m)
  end.

Fixpoint run m (os : list op) : res (list out * AddrRangeMap.t V) :=
  match os with
  | [] => Ok ([], m)
  | o :: os => let* (x, m) := do_op m o in let* (xs, m) := run m os in Ok (x :: xs, m)
  end.

(** The same without order, identities or cache: a list of ranges with values. *)
Definition has (a : Z) (p : AddrRange.t * V) : bool :=
  match AddrRange.contains p.1 a with Ok b => b | Err _ => false end.
Definition clashes r (l : list (AddrRange.t * V)) : bool := existsb (λ p, clash r p.1) l.

Definition spec_op (l : list (AddrRange.t * V)) (o : op) : out * list (AddrRange.t * V) :=
  match o with
  | Insert r d => if clashes r l then (Done false, l) else (Done true, (r, d) :: l)
  | Contains a => (Found (snd <$> list_find (λ p, has a p = true) l), l)
  | Intersects r => (Done (clashes r l), l)
  | Erase a => (Done (existsb (has a) l), filter (λ p, has a p = false) l)
  | Clear => (Done true, [])
  end.

Fixpoint spec_run (l : list (AddrRange.t * V)) (os : list op) : list out * list (AddrRange.t * V) :=
  match os with
  | [] => ([], l)
  | o :: os => let '(x, l) := spec_op l o in let '(xs, l) := spec_run l os in (x :: xs, l)
  end.

(** Addresses below the last one; ranges that [intersects] can decide about. *)
Definition legal_op (l : list (AddrRange.t * V)) (o : op) : Prop :=
  match o with
  | Insert r _ | Intersects r => usable r ∧ ∀ p, p ∈ l → comparable r p.1
  | Contains a | Erase a => 0 ≤ a < 2 ^ 64 - 1
  | Clear => True
  end.

Fixpoint legal (l : list (AddrRange.t * V)) (os : list op) : Prop :=
  match os with [] => True | o :: os => legal_op l o ∧ legal (spec_op l o).2 os end.

Definition holds m (l : list (AddrRange.t * V)) : Prop := (tree m).*2 ≡ₚ l.

Lemma holds_elem m l e : holds m l → e ∈ tree m → e.2 ∈ l.
Proof. intros Hh He. rewrite <- Hh. by apply list_elem_of_fmap_2. Qed.
Lemma elem_holds m l p : holds m l → p ∈ l → ∃ e, e ∈ tree m ∧ e.2 = p.
Proof. intros Hh Hp. rewrite <- Hh in Hp. apply list_elem_of_fmap in Hp as (e & -> & He). by exists e. Qed.

Lemma has_inside m e a : map_ok m → e ∈ tree m → has a e.2 = true ↔ inside e.2.1 a.
Proof.
  intros Hm He. pose proof (mo_usable m Hm) as Hu. rewrite Forall_forall in Hu. destruct (Hu e He) as (Hok & _).
  unfold has. by destruct (contains_spec e.2.1 a Hok) as (b & -> & Hb).
Qed.

(** An address is in at most one of the ranges. *)
Lemma owner_unique m e e' a : map_ok m → e ∈ tree m → e' ∈ tree m → inside e.2.1 a → inside e'.2.1 a → e = e'.
Proof.
  intros Hm [i Hi]%list_elem_of_lookup [j Hj]%list_elem_of_lookup He He'.
  assert (∀ x y, in_row x y → inside x.2.1 a → inside y.2.1 a → False) as Hno.
  { intros x y [Hr|(Hr & _ & Hlt)] [Hx Hmx] [Hy Hmy]; [lia|]. apply mergesWith_spec in Hr as (_ & _ & Em).
    assert (intlvMatch x.2.1 = intlvMatch y.2.1); [|lia]. apply Z.bits_inj'. intros k Hk. by rewrite Hmx, Hmy, Em. }
  destruct (Nat.lt_trichotomy i j) as [Hlt|[->|Hlt]]; [|congruence|]; exfalso.
  - eapply (Hno e e'); [|done..]. eapply (StronglySorted_lookup in_row (tree m)); [apply Hm|done..].
  - eapply (Hno e' e); [|done..]. eapply (StronglySorted_lookup in_row (tree m)); [apply Hm|done..].
Qed.

Lemma fetch_ok m e : map_ok m → e ∈ tree m → fetch m (Some e.1) = Ok (Some e.2).
Proof.
  intros Hm He. unfold fetch, deref. cbn [of_option rbind].
  destruct (node_spec m e.1 Hm) as (p & -> & Hp); [by apply list_elem_of_fmap_2|]. cbn [of_option rbind].
  by rewrite <- (entry_unique m (e.1, p) e Hm Hp He eq_refl).
Qed.

Lemma find_owner m l e a : map_ok m → holds m l → e ∈ tree m → inside e.2.1 a →
  snd <$> list_find (λ p, has a p = true) l = Some e.2.
Proof.
  intros Hm Hh He Hi. destruct (list_find_elem_of (λ p, has a p = true) l e.2) as [[k p] E].
  - by eapply holds_elem.
  - by apply (has_inside m).
  - simpl. rewrite E. apply list_find_Some in E as (Hk & Hp & _). apply list_elem_of_lookup_2 in Hk.
    destruct (elem_holds m l p Hh Hk) as (e' & He' & <-). apply (has_inside m) in Hp; [|done..].
    simpl. f_equal. f_equal. by eapply owner_unique.
Qed.

Lemma clashes_found m l r it : holds m l → found m it (λ x, clash r x = true) → clashes r l = bool_decide (is_Some it).
Proof.
  intros Hh Hf. unfold clashes. destruct it as [i|]; simpl in Hf.
  - destruct Hf as (e & He & _ & Hc). rewrite bool_decide_true by done. apply existsb_exists. exists e.2.
    split; [|done]. apply list_elem_of_In. by eapply holds_elem.
  - rewrite bool_decide_false by (by intros [? [=]]). apply not_true_iff_false. intros (p & Hp%list_elem_of_In & Hc)%existsb_exists.
    destruct (elem_holds m l p Hh Hp) as (e & He & <-). by apply (Hf e).
Qed.

Lemma erased m m' l e a : map_ok m → map_ok m' → holds m l → e ∈ tree m → inside e.2.1 a → e :: tree m' ≡ₚ tree m →
  holds m' (filter (λ p, has a p = false) l).
Proof.
  intros Hm Hm' Hh He Hi Hp. unfold holds in *. rewrite <- Hh, <- Hp. simpl.
  rewrite filter_cons_False by (apply not_false_iff_true; by apply (has_inside m)).
  rewrite filter_all; [done|]. apply Forall_forall. intros p (x & -> & Hx)%list_elem_of_fmap.
  assert (x ∈ tree m) as Hxm by (rewrite <- Hp; by right).
  apply not_true_iff_false. intros Hin%(has_inside m); [|done..].
  pose proof (owner_unique m x e a Hm Hxm He Hin Hi) as ->.
  pose proof (mo_ids m Hm) as Hnd. rewrite <- Hp in Hnd. apply NoDup_cons in Hnd as [Hn _]. apply Hn. by apply list_elem_of_fmap_2.
Qed.

Lemma do_op_ok m l o : map_ok m → holds m l → legal_op l o →
  ∃ x m', do_op m o = Ok (x, m') ∧ map_ok m' ∧ (spec_op l o).1 = x ∧ holds m' (spec_op l o).2.
Proof using Hmax.
  intros Hm Hh Hl.
  assert (∀ r, (∀ p, p ∈ l → comparable r p.1) → ∀ e, e ∈ tree m → comparable r e.2.1) as Hcmp.
  { intros r Hr e He. apply Hr. by eapply holds_elem. }
  destruct o as [r d|a|r|a|]; simpl in Hl; simpl do_op.
  - destruct Hl as [Hu Hc]. unfold insert. destruct (intersects_ok m r Hm Hu (Hcmp r Hc)) as (it & m1 & -> & Hm1 & Et & Hf).
    cbn [rbind]. simpl spec_op. rewrite (clashes_found m l r it Hh Hf). destruct it as [i|].
    + rewrite !bool_decide_true by done. eexists _, m1. split; [done|]. split; [done|]. split; [done|]. unfold holds in *. simpl. by rewrite Et.
    + rewrite (bool_decide_false (is_Some None)) by (by intros [? [=]]). destruct (tree_insert_ok m1 r d Hm1 Hu) as (m' & -> & Hm' & Hp).
      { intros e He. rewrite Et in He. split; [by apply Hcmp|]. apply not_true_iff_false. by apply Hf. }
      eexists _, m'. split; [done|]. split; [done|]. split; [done|]. unfold holds in *. rewrite Hp, Et. simpl. by rewrite Hh.
  - destruct (contains_ok m a Hm Hl) as (it & m1 & -> & Hm1 & Et & Hf). cbn [rbind].
    assert (fetch m1 it = Ok (snd <$> list_find (λ p, has a p = true) l)) as ->.
    { destruct it as [i|].
      - destruct Hf as (e & He & <- & Hi). rewrite (find_owner m l e a) by done. apply fetch_ok; [done|by rewrite Et].
      - replace (list_find (λ p, has a p = true) l) with (None (A := nat * (AddrRange.t * V))); [done|]. symmetry.
        apply list_find_None, Forall_forall. intros p Hp. destruct (elem_holds m l p Hh Hp) as (e & He & <-).
        rewrite (has_inside m) by done. by apply Hf. }
    cbn [rbind]. eexists _, m1. split; [done|]. split; [done|]. split; [done|]. unfold holds in *. simpl. by rewrite Et.
  - destruct Hl as [Hu Hc]. destruct (intersects_ok m r Hm Hu (Hcmp r Hc)) as (it & m1 & -> & Hm1 & Et & Hf).
    cbn [rbind]. eexists _, m1. split; [done|]. split; [done|]. simpl. rewrite (clashes_found m l r it Hh Hf).
    split; [done|]. unfold holds in *. by rewrite Et.
  - destruct (contains_ok m a Hm Hl) as (it & m1 & -> & Hm1 & Et & Hf). cbn [rbind]. destruct it as [i|]; simpl.
    + destruct Hf as (e & He & <- & Hi). rewrite <- Et in He. destruct (erase_ok m1 e Hm1 He) as (m' & -> & Hm' & Hp). cbn [rbind].
      eexists _, m'. split; [done|]. split; [done|].
      assert (holds m1 l) as Hh1 by (unfold holds; by rewrite Et). split; [|by eapply (erased m1)].
      f_equal. apply existsb_exists. exists e.2. split; [apply list_elem_of_In; by eapply holds_elem|by apply (has_inside m1)].
    + eexists _, m1. split; [done|]. split; [done|]. assert (∀ p, p ∈ l → has a p = false) as Hno.
      { intros p Hp. destruct (elem_holds m l p Hh Hp) as (e & He & <-). apply not_true_iff_false.
        intros Hx%(has_inside m); [|done..]. by apply (Hf e). }
      split; [f_equal; apply not_true_iff_false; intros (p & Hp%list_elem_of_In & Hx)%existsb_exists; by rewrite Hno in Hx|].
      unfold holds in *. rewrite filter_all by (by apply Forall_forall). by rewrite Et.
  - eexists _, _. split; [done|]. split; [split; simpl; try constructor; lia|]. split; [done|constructor].
Qed.

Lemma run_ok m l os : map_ok m → holds m l → legal l os →
  ∃ m', run m os = Ok ((spec_run l os).1, m') ∧ map_ok m' ∧ holds m' (spec_run l os).2.
Proof using Hmax.
  revert m l. induction os as [|o os IH]; intros m l Hm Hh Hl; [by exists m|].
  destruct Hl as [Ho Hl]. destruct (do_op_ok m l o Hm Hh Ho) as (x & m1 & E & Hm1 & Ex & Hh1).
  destruct (IH m1 _ Hm1 Hh1 Hl) as (m' & E' & Hm' & Hh'). exists m'. simpl. rewrite E. cbn [rbind]. rewrite E'. cbn [rbind].
  destruct (spec_op l o) as [x' l']. simpl in *. subst x'. by destruct (spec_run l' os).
Qed.

Lemma new_map_ok : map_ok AddrRangeMap.new ∧ holds AddrRangeMap.new [].
Proof using Hmax. split; [|constructor]. split; simpl; try constructor. lia. Qed.


End Map.

Arguments Contains {V} a.
Arguments Intersects {V} r.
Arguments Erase {V} a.
Arguments Clear {V}.

(** ** Two banks and a device *)

Section TwoBanks.

Lemma bank_usable k : 0 ≤ k < 4 → usable (bank k).
Proof. intros Hk. split; [apply bank_ok|]. split; [done|]. split; [done|]. split; [by right|]. exists 256. by split. Qed.

Lemma plain_usable s e : 0 ≤ s < e → e < 2 ^ 64 → usable (AddrRange.new s e).
Proof.
  intros Hs He. split; [|split; [simpl; lia|split; [done|split; [by left|]]]].
  - split_and!; simpl; try constructor; lia.
  - exists (e - s). unfold granularity, AddrRange.size. simpl. rewrite u64_small by lia. by split; [|lia].
Qed.


(** Erasing several entries removes only the first of them from the cache: the next
    search follows an iterator to an erased entry. *)
Lemma erase_range_dangles :
  (let* (_, m) := run 2 AddrRangeMap.new [Insert (bank 0) 0%nat; Insert (bank 1) 1%nat; Contains 256; Contains 0] in
   let* m := erase_range m (Some 0%nat) None in
   let* (it, _) := AddrRangeMap.contains 2 m 512 in Ok it) = Err EUndef.
Proof. vm_compute. reflexivity. Qed.

(** An interleaved range of one address does not intersect itself if that address is
    not its start. *)
Lemma intersects_not_itself :
  let r := AddrRange.mk 0 2 [1] 1 in
  AddrRange.contains r 1 = Ok true ∧ AddrRange.intersects r r = Ok false.
Proof. by split. Qed.

End TwoBanks.
