(* ===== verification/NetDest.v ===== *)
(** mem/ruby/common/Set.hh and NetDest.cc: the destinations of a message as one
    bit set per machine type. A bit set is a non-negative integer. *)

From stdpp Require Import prelude gmap list.
From Stdlib Require Import ZArith Lia.
From S2P Require Import Prelude.

Open Scope Z_scope.

(** ** [std::bitset<N>] *)

Module Bitset.
Section Bits.
Context (N : Z).

Definition set (b i : Z) : res Z := if (0 <=? i) && (i <? N) then Ok (Z.setbit b i) else Err EThrow.
Definition reset (b i : Z) : res Z :=
  if (0 <=? i) && (i <? N) then Ok (Z.clearbit b i) else Err EThrow.
Definition test (b i : Z) : res bool :=
  if (0 <=? i) && (i <? N) then Ok (Z.testbit b i) else Err EThrow.
Definition at_ (b i : Z) : res bool :=
  if (0 <=? i) && (i <? N) then Ok (Z.testbit b i) else Err EUndef.
Definition full : Z := Z.ones N.
Definition elems (b : Z) : list Z := filter (λ i, Z.testbit b i = true) (seqZ 0 N).
Definition count (b : Z) : Z := zlen (elems b).
Definition none (b : Z) : bool := b =? 0.

End Bits.
End Bitset.

(** ** mem/ruby/common/Set.hh *)

Module Set_.
Section Set_.
Context (NUMBER_BITS_PER_SET : Z).

Record t := mk { m_nSize : Z; bits : Z }.

Definition new : t := mk 0 0.
Definition new_size (size : Z) : res t :=
  let* _ := require (negb (NUMBER_BITS_PER_SET <? size)) EFatal in Ok (mk size 0).

Definition add (s : t) (index : Z) : res t :=
  rmap (mk (m_nSize s)) (Bitset.set NUMBER_BITS_PER_SET (bits s) index).

Definition addSet (s obj : t) : res t :=
  assert! m_nSize s =? m_nSize obj in Ok (mk (m_nSize s) (Z.lor (bits s) (bits obj))).

Definition remove (s : t) (index : Z) : res t :=
  rmap (mk (m_nSize s)) (Bitset.reset NUMBER_BITS_PER_SET (bits s) index).

Definition removeSet (s obj : t) : res t :=
  assert! m_nSize s =? m_nSize obj in Ok (mk (m_nSize s) (Z.ldiff (bits s) (bits obj))).

Definition clear (s : t) : t := mk (m_nSize s) 0.

Definition broadcast (s : t) : res t :=
  rmap (mk (m_nSize s))
    (loop_from (Z.to_nat (NUMBER_BITS_PER_SET - m_nSize s)) (m_nSize s)
       (λ j b, Bitset.reset NUMBER_BITS_PER_SET b j) (Bitset.full NUMBER_BITS_PER_SET)).

Definition count (s : t) : Z := Bitset.count NUMBER_BITS_PER_SET (bits s).

Definition isEqual (s obj : t) : res bool :=
  assert! m_nSize s =? m_nSize obj in Ok (bits s =? bits obj).

Definition OR (s obj : t) : res t :=
  assert! m_nSize s =? m_nSize obj in
  let* r := new_size (m_nSize s) in Ok (mk (m_nSize r) (Z.lor (bits s) (bits obj))).

Definition AND (s obj : t) : res t :=
  assert! m_nSize s =? m_nSize obj in
  let* r := new_size (m_nSize s) in Ok (mk (m_nSize r) (Z.land (bits s) (bits obj))).

Definition intersectionIsEmpty (s obj : t) : bool := Bitset.none (Z.land (bits s) (bits obj)).

Definition isSuperset (s test : t) : res bool :=
  assert! m_nSize s =? m_nSize test in
  let r := Z.lor (bits s) (bits test) in Ok (r =? bits s).

Definition isSubset (s test : t) : res bool := isSuperset test s.

Definition isElement (s : t) (element : Z) : res bool :=
  Bitset.test NUMBER_BITS_PER_SET (bits s) element.

(** The [int] is converted to the type of [count()]. *)
Definition isBroadcast (s : t) : bool := count s =? u64 (m_nSize s).

Definition isEmpty (s : t) : bool := Bitset.none (bits s).

Definition smallestElement (s : t) : res Z :=
  let* r := find_from (Z.to_nat (m_nSize s)) 0
    (λ i, let* b := Bitset.test NUMBER_BITS_PER_SET (bits s) i in
          Ok (if b : bool then Some i else None)) in
  of_option EPanic r.

Definition elementAt (s : t) (index : Z) : res bool :=
  Bitset.at_ NUMBER_BITS_PER_SET (bits s) index.

Definition getSize (s : t) : Z := m_nSize s.

Definition setSize (size : Z) : res t := new_size size.

End Set_.
End Set_.

(** ** mem/ruby/common/MachineID.hh *)

Module MachineID.

(** A machine type is the value of its enumerator. *)
Record t := mk { type : Z; num : Z }.

#[global] Instance eq_dec : EqDecision t.
Proof. solve_decision. Defined.

#[global] Instance countable : Countable t.
Proof.
  by refine (inj_countable' (λ m, (type m, num m)) (λ p, mk p.1 p.2) _); intros [].
Defined.

End MachineID.

(** ** mem/ruby/common/NetDest.cc *)

(** The functions on machine types that are generated with the protocol, and
    those of a [RubySystem] (of type [R]): how many machines of a type it has, and
    how many there are of all the types before one. *)
Class MachineTypes (R : Type) := {
  MachineType_NUM : Z;
  MachineType_base_level : Z → Z;
  MachineType_from_base_level : Z → res Z;
  MachineType_base_count : R → Z → Z;
  MachineType_base_number : R → Z → Z }.

Module NetDest.
Import MachineID.
Section NetDest.
Context (NUMBER_BITS_PER_SET : Z) {R : Type} `{MachineTypes R}.

Record t := mk { m_bits : list Set_.t; m_ruby_system : option R }.
Implicit Types d : t.

Definition size_ d : Z := zlen (m_bits d).
Definition ruby d : res R :=
  let* _ := require (bool_decide (is_Some (m_ruby_system d))) EAssert in
  of_option EAssert (m_ruby_system d).

Definition vecIndex d (m : MachineID.t) : res Z :=
  let vec_index := MachineType_base_level (type m) in
  assert! u64 vec_index <? size_ d in Ok vec_index.

Definition bitIndex (index : Z) : Z := index.

(** [m_bits[i] = f(m_bits[i])]. *)
Definition at_vec d (i : Z) (f : Set_.t → res Set_.t) : res t :=
  let* s := vget (m_bits d) i in
  let* s := f s in
  let* l := vset (m_bits d) i s in
  Ok (mk l (m_ruby_system d)).

Definition add d (newElement : MachineID.t) : res t :=
  assert! 0 <? size_ d in
  let* v := vecIndex d newElement in
  let* s := vget (m_bits d) v in
  assert! bitIndex (num newElement) <? u32 (Set_.getSize s) in
  at_vec d v (λ s, Set_.add NUMBER_BITS_PER_SET s (bitIndex (num newElement))).

(** The loops that combine the sets of two destinations, one by one. *)
Definition combine (f : Set_.t → Set_.t → res Set_.t) d netDest : res t :=
  assert! 0 <? size_ d in
  assert! size_ d =? size_ netDest in
  let* l := loop_from (length (m_bits d)) 0
    (λ i l, let* s := vget l i in
            let* o := vget (m_bits netDest) i in
            let* s := f s o in
            vset l i s) (m_bits d) in
  Ok (mk l (m_ruby_system d)).

Definition addNetDest d netDest : res t := combine Set_.addSet d netDest.
Definition removeNetDest d netDest : res t := combine Set_.removeSet d netDest.

Definition remove d (oldElement : MachineID.t) : res t :=
  assert! 0 <? size_ d in
  let* v := vecIndex d oldElement in
  at_vec d v (λ s, Set_.remove NUMBER_BITS_PER_SET s (bitIndex (num oldElement))).

Definition setNetDest d (machine : Z) (set : Set_.t) : res t :=
  let* _ := ruby d in
  assert! MachineType_base_level (machine + 1) - MachineType_base_level machine =? 1 in
  at_vec d (MachineType_base_level machine) (λ _, Ok set).

Definition clear d : res t :=
  assert! 0 <? size_ d in Ok (mk (Set_.clear <$> m_bits d) (m_ruby_system d)).

Definition broadcast_type d (machineType : Z) : res t :=
  let* r := ruby d in
  loop_from (Z.to_nat (MachineType_base_count r machineType)) 0
    (λ i d, add d (MachineID.mk machineType i)) d.

Definition broadcast d : res t :=
  loop_from (Z.to_nat MachineType_NUM) 0 (λ machine d, broadcast_type d machine) d.

Definition getAllDest d : res (list Z) :=
  let* r := ruby d in
  assert! 0 <? size_ d in
  loop_from (length (m_bits d)) 0
    (λ i dest,
       let* s := vget (m_bits d) i in
       loop_from (Z.to_nat (Set_.getSize s)) 0
         (λ j dest,
            let* b := Set_.isElement NUMBER_BITS_PER_SET s j in
            if b : bool
            then let* id := chk_i32 (MachineType_base_number r i + j) in Ok (dest ++ [u32 id])
            else Ok dest) dest) [].

Definition count d : res Z :=
  assert! 0 <? size_ d in
  loop_from (length (m_bits d)) 0
    (λ i counter, let* s := vget (m_bits d) i in
                  chk_i32 (counter + Set_.count NUMBER_BITS_PER_SET s)) 0.

Definition elementAt d (index : MachineID.t) : res Z :=
  assert! 0 <? size_ d in
  let* v := vecIndex d index in
  let* s := vget (m_bits d) v in
  rmap Z.b2z (Set_.elementAt NUMBER_BITS_PER_SET s (bitIndex (num index))).

(** The search for the first bit set in one of the sets, from bit 0 up. *)
Definition first_bit (s : Set_.t) : res (option Z) :=
  find_from (Z.to_nat (Set_.getSize s)) 0
    (λ j, let* b := Set_.isElement NUMBER_BITS_PER_SET s j in
          Ok (if b : bool then Some j else None)).

(** ... in the set at index [i], as a machine. *)
Definition first_in d (i : Z) : res (option MachineID.t) :=
  let* s := vget (m_bits d) i in
  let* j := first_bit s in
  match j with
  | Some j => let* ty := MachineType_from_base_level i in Ok (Some (MachineID.mk ty j))
  | None => Ok None
  end.

Definition smallestElement d : res MachineID.t :=
  assert! 0 <? size_ d in
  let* c := count d in
  assert! 0 <? c in
  let* m := find_from (length (m_bits d)) 0 (first_in d) in
  of_option EPanic m.

Definition smallestElement_type d (machine : Z) : res MachineID.t :=
  assert! 0 <? size_ d in
  let* _ := ruby d in
  let* s := vget (m_bits d) (MachineType_base_level machine) in
  let* j := first_bit s in
  let* j := of_option EPanic j in
  Ok (MachineID.mk machine j).

(** The loops that return [false] (or [true]) at the first set that fails. *)
Definition all_sets (p : Z → Set_.t → res bool) d : res bool :=
  let* r := find_from (length (m_bits d)) 0
    (λ i, let* s := vget (m_bits d) i in
          let* b := p i s in Ok (if b : bool then None else Some ())) in
  Ok (match r with Some _ => false | None => true end).

Definition all_pairs (p : Set_.t → Set_.t → res bool) d other : res bool :=
  assert! 0 <? size_ d in
  assert! size_ d =? size_ other in
  all_sets (λ i s, let* o := vget (m_bits other) i in p s o) d.

Definition isBroadcast d : res bool :=
  assert! 0 <? size_ d in
  all_sets (λ _ s, Ok (Set_.isBroadcast NUMBER_BITS_PER_SET s)) d.

Definition isEmpty d : res bool :=
  assert! 0 <? size_ d in all_sets (λ _ s, Ok (Set_.isEmpty s)) d.

(** [resize()] of a new object: one set per type, with a bit per machine. *)
Definition resize (r : R) : res t :=
  let n := MachineType_base_level MachineType_NUM in
  assert! n =? MachineType_NUM in
  let* l := loop_from (Z.to_nat n) 0
    (λ i l, let* s := Set_.setSize NUMBER_BITS_PER_SET (MachineType_base_count r i) in
            vset l i s) (replicate (Z.to_nat n) Set_.new) in
  Ok (mk l (Some r)).

Definition new_default : t := mk [] None.
Definition new (r : R) : res t := resize r.
Definition setRubySystem (r : R) : res t := resize r.

(** [OR] and [AND] fill a new object. *)
Definition combine_new (f : Set_.t → Set_.t → res Set_.t) d other : res t :=
  assert! 0 <? size_ d in
  assert! size_ d =? size_ other in
  let* r := ruby d in
  let* result := new r in
  let* l := loop_from (length (m_bits d)) 0
    (λ i l, let* s := vget (m_bits d) i in
            let* o := vget (m_bits other) i in
            let* s := f s o in
            vset l i s) (m_bits result) in
  Ok (mk l (m_ruby_system result)).

Definition OR d orNetDest : res t := combine_new (Set_.OR NUMBER_BITS_PER_SET) d orNetDest.
Definition AND d andNetDest : res t := combine_new (Set_.AND NUMBER_BITS_PER_SET) d andNetDest.

Definition intersectionIsNotEmpty d other : res bool :=
  rmap negb (all_pairs (λ s o, Ok (Set_.intersectionIsEmpty s o)) d other).
Definition isSuperset d test : res bool := all_pairs Set_.isSuperset d test.
Definition isSubset d test : res bool := isSuperset test d.
Definition isEqual d n : res bool := all_pairs Set_.isEqual d n.

Definition isElement d (element : MachineID.t) : res bool :=
  assert! 0 <? size_ d in
  let* v := vecIndex d element in
  let* s := vget (m_bits d) v in
  Set_.isElement NUMBER_BITS_PER_SET s (bitIndex (num element)).

Definition getSize d : Z := size_ d.

End NetDest.
Arguments t R : clear implicits.
End NetDest.
