(* ===== verification/NetDestSpec.v ===== *)
(** The destinations of a message are a set of machines: every operation of
    [NetDest] is the operation on finite sets it is named after. *)

From stdpp Require Import prelude gmap list fin_sets.
From Stdlib Require Import ZArith Lia.
From S2P Require Import Prelude NetDest.

Open Scope Z_scope.

(** What the generated functions promise: machine types are numbered from 0 in
    the order of their levels, and no type has more machines than a set has bits. *)
Class MachineLaws (N : Z) {R} `{MachineTypes R} (rs : R) : Prop := {
  base_level_id ty : 0 ≤ ty ≤ MachineType_NUM → MachineType_base_level ty = ty;
  from_base_level_id i : 0 ≤ i < MachineType_NUM → MachineType_from_base_level i = Ok i;
  num_types : 0 < MachineType_NUM;
  counts_fit ty : 0 ≤ ty < MachineType_NUM → 0 ≤ MachineType_base_count rs ty ≤ N;
  total_fits : MachineType_NUM * (N + 1) < 2 ^ 31 }.

Section Sets.
Import NetDest.
Context (N : Z) {R : Type} `{MachineTypes R} (rs : R) `{!MachineLaws N rs}.
Implicit Types d e : t R.
Implicit Types m : MachineID.t.
Implicit Types s o : Set_.t.

Abbreviation machines ty := (MachineType_base_count rs ty).

Lemma N_bounds : 0 ≤ N < 2 ^ 31 ∧ MachineType_NUM < 2 ^ 31.
Proof.
  pose proof num_types. pose proof total_fits. destruct (counts_fit 0); [lia|].
  split; nia.
Qed.

(** ** One bit set *)

Definition set_ok (n : Z) s : Prop :=
  Set_.m_nSize s = n ∧ 0 ≤ Set_.bits s ∧ ∀ k, Z.testbit (Set_.bits s) k = true → 0 ≤ k < n.

Lemma set_ok_out n s k : set_ok n s → ¬ 0 ≤ k < n → Z.testbit (Set_.bits s) k = false.
Proof. intros (_ & _ & Hb) Hk. apply not_true_iff_false. naive_solver. Qed.

Lemma set_ok_small n s : Set_.m_nSize s = n → 0 ≤ Set_.bits s < 2 ^ n → set_ok n s.
Proof.
  intros Hs Hb. split; [done|]. split; [lia|]. intros k Hk.
  destruct (decide (k < 0)); [by rewrite Z.testbit_neg_r in Hk|]. split; [lia|].
  destruct (decide (k < n)); [done|]. destruct (decide (Set_.bits s = 0)) as [E|].
  { by rewrite E, Z.bits_0 in Hk. }
  assert (Z.log2 (Set_.bits s) < n) by (apply Z.log2_lt_pow2; lia).
  by rewrite Z.bits_above_log2 in Hk by lia.
Qed.

(** A set with the bits [g] computes from two sets. *)
Lemma set_ok_combine n s o x (g : bool → bool → bool) :
  set_ok n s → set_ok n o → 0 ≤ x → g false false = false →
  (∀ k, 0 ≤ k → Z.testbit x k = g (Z.testbit (Set_.bits s) k) (Z.testbit (Set_.bits o) k)) →
  set_ok n (Set_.mk n x).
Proof.
  intros Hs Ho Hx Hg Hb. split; [done|]. split; [done|]. simpl. intros k Hk.
  destruct (decide (0 ≤ k)) as [Hk0|]; [|by rewrite Z.testbit_neg_r in Hk by lia].
  rewrite Hb in Hk by done. destruct (decide (k < n)); [done|].
  rewrite (set_ok_out n s), (set_ok_out n o) in Hk by (done || lia). congruence.
Qed.

Lemma test_ok n s k : set_ok n s → n ≤ N → 0 ≤ k < N →
  Bitset.test N (Set_.bits s) k = Ok (Z.testbit (Set_.bits s) k).
Proof. intros. unfold Bitset.test. by rewrite (proj2 (Z.leb_le 0 k)), (proj2 (Z.ltb_lt k N)) by lia. Qed.

Lemma elem_of_elems b k : k ∈ Bitset.elems N b ↔ 0 ≤ k < N ∧ Z.testbit b k = true.
Proof. unfold Bitset.elems. rewrite list_elem_of_filter, elem_of_seqZ. lia || naive_solver lia. Qed.

Lemma NoDup_elems b : NoDup (Bitset.elems N b).
Proof. apply NoDup_filter, NoDup_seqZ. Qed.

Lemma count_full n s : set_ok n s → 0 ≤ n ≤ N →
  Set_.isBroadcast N s = true ↔ ∀ k, 0 ≤ k < n → Z.testbit (Set_.bits s) k = true.
Proof.
  intros Hs Hn. pose proof N_bounds as [HN _]. pose proof Hs as (Hsz & _ & Hb).
  unfold Set_.isBroadcast, Set_.count, Bitset.count. rewrite Hsz, u64_small, Z.eqb_eq by lia.
  assert (Bitset.elems N (Set_.bits s) ⊆ seqZ 0 n) as Hsub.
  { intros k [_ Hk]%elem_of_elems. apply elem_of_seqZ. apply Hb in Hk. lia. }
  split.
  - intros Hl k Hk. assert (Bitset.elems N (Set_.bits s) ≡ₚ seqZ 0 n) as Hp.
    { apply submseteq_length_Permutation.
      - apply NoDup_submseteq; [apply NoDup_elems|done].
      - rewrite length_seqZ. lia. }
    assert (k ∈ Bitset.elems N (Set_.bits s)) as He by (rewrite Hp, elem_of_seqZ; lia).
    by apply elem_of_elems in He as [_ ?].
  - intros Hall. assert (Bitset.elems N (Set_.bits s) ≡ₚ seqZ 0 n) as ->.
    { apply NoDup_Permutation; [apply NoDup_elems|apply NoDup_seqZ|]. intros k. split; [apply Hsub|].
      rewrite elem_of_elems, elem_of_seqZ. intros ?. split; [lia|]. apply Hall. lia. }
    rewrite length_seqZ. lia.
Qed.

(** ** Destinations *)

Definition valid d : Prop :=
  m_ruby_system d = Some rs ∧ zlen (m_bits d) = MachineType_NUM ∧
  ∀ i s, m_bits d !! i = Some s → set_ok (machines (Z.of_nat i)) s.

(** A machine of the system. *)
Definition machine m : Prop :=
  0 ≤ MachineID.type m < MachineType_NUM ∧ 0 ≤ MachineID.num m < machines (MachineID.type m).

(** Whether the bit of a machine is set. *)
Definition bit d m : bool :=
  (0 <=? MachineID.type m) &&
  from_option (λ s, Z.testbit (Set_.bits s) (MachineID.num m)) false
    (m_bits d !! Z.to_nat (MachineID.type m)).

Definition member_list d : list MachineID.t :=
  concat (imap (λ i s, MachineID.mk (Z.of_nat i) <$> Bitset.elems N (Set_.bits s)) (m_bits d)).

(** The machines a [NetDest] stands for. *)
Definition members d : gset MachineID.t := list_to_set (member_list d).

Lemma valid_lookup d i s : valid d → m_bits d !! i = Some s →
  set_ok (machines (Z.of_nat i)) s ∧ Z.of_nat i < MachineType_NUM ∧
  0 ≤ machines (Z.of_nat i) ≤ N.
Proof.
  intros (_ & Hl & Hs) E. pose proof (lookup_lt_Some _ _ _ E).
  split; [by apply Hs|]. split; [lia|]. apply counts_fit. lia.
Qed.

Lemma valid_bit d m : valid d → bit d m = true → machine m.
Proof.
  intros Hd [Ht Hb]%andb_prop. apply Z.leb_le in Ht.
  destruct (m_bits d !! Z.to_nat (MachineID.type m)) as [s|] eqn:E; [|done]. simpl in Hb.
  destruct (valid_lookup _ _ _ Hd E) as ((_ & _ & Hs) & Hi & _).
  rewrite Z2Nat.id in * by done. split; [lia|]. by apply Hs.
Qed.

Lemma elem_of_members d m : valid d → m ∈ members d ↔ bit d m = true.
Proof.
  intros Hd. unfold members. rewrite elem_of_list_to_set. unfold member_list.
  rewrite elem_of_concat. split.
  - intros (l & (i & s & -> & E)%elem_of_lookup_imap & Hm).
    apply list_elem_of_fmap in Hm as (k & -> & [Hk Hb]%elem_of_elems).
    unfold bit. simpl. rewrite Nat2Z.id, E. simpl. by rewrite Hb, (proj2 (Z.leb_le 0 _)) by lia.
  - intros Hb. pose proof (valid_bit _ _ Hd Hb) as [Ht Hn].
    unfold bit in Hb. apply andb_prop in Hb as [_ Hb].
    destruct (m_bits d !! Z.to_nat (MachineID.type m)) as [s|] eqn:E; [|done].
    exists (MachineID.mk (Z.of_nat (Z.to_nat (MachineID.type m))) <$> Bitset.elems N (Set_.bits s)).
    split.
    + apply elem_of_lookup_imap. by eexists _, _.
    + rewrite Z2Nat.id by lia. apply list_elem_of_fmap. exists (MachineID.num m).
      split; [by destruct m|]. apply elem_of_elems. split; [|done].
      pose proof (counts_fit (MachineID.type m)). lia.
Qed.

Lemma members_bits d (X : gset MachineID.t) : valid d →
  (∀ m, bit d m = bool_decide (m ∈ X)) → members d = X.
Proof.
  intros Hd Hb. apply set_eq. intros m. by rewrite elem_of_members, Hb, bool_decide_eq_true.
Qed.

(** ** Loops over the sets of a destination *)

(** [f] computes [F], whose bits are those of [g]. *)
Definition bitwise (f : Set_.t → Set_.t → res Set_.t) (F : Set_.t → Set_.t → Set_.t)
    (g : bool → bool → bool) : Prop :=
  g false false = false ∧
  ∀ n s o, 0 ≤ n ≤ N → set_ok n s → set_ok n o → f s o = Ok (F s o) ∧ set_ok n (F s o) ∧
    ∀ k, 0 ≤ k →
      Z.testbit (Set_.bits (F s o)) k = g (Z.testbit (Set_.bits s) k) (Z.testbit (Set_.bits o) k).

Definition paired (F : Set_.t → Set_.t → Set_.t) e (k : nat) s : Set_.t :=
  from_option (F s) s (m_bits e !! k).

Lemma valid_pair d e k s : valid d → valid e → m_bits d !! k = Some s → ∃ o, m_bits e !! k = Some o.
Proof.
  intros (_ & Hd & _) (_ & He & _) Hs%lookup_lt_Some. apply lookup_lt_is_Some_2. lia.
Qed.

(** The two sets of one type, and what [f] makes of them. *)
Lemma bitwise_pair f F g d e k s : bitwise f F g → valid d → valid e → m_bits d !! k = Some s →
  ∃ o, m_bits e !! k = Some o ∧ f s o = Ok (F s o) ∧ set_ok (machines (Z.of_nat k)) (F s o) ∧
    ∀ j, Z.testbit (Set_.bits (F s o)) j = g (Z.testbit (Set_.bits s) j) (Z.testbit (Set_.bits o) j).
Proof.
  intros [Hg HF] Hd He Hs. destruct (valid_pair d e k s) as [o Ho]; [done..|].
  destruct (valid_lookup _ _ _ Hd Hs) as (? & _ & ?). destruct (valid_lookup _ _ _ He Ho) as (? & _).
  destruct (HF (machines (Z.of_nat k)) s o) as (? & ? & ?); [done..|]. exists o.
  split_and!; [done..|]. intros j. destruct (decide (0 ≤ j)); [naive_solver|].
  by rewrite !Z.testbit_neg_r by lia.
Qed.

Lemma valid_paired f F g d e : bitwise f F g → valid d → valid e →
  let d' := mk (imap (paired F e) (m_bits d)) (Some rs) in
  valid d' ∧ ∀ m, bit d' m = g (bit d m) (bit e m).
Proof.
  intros Hf Hd He d'. split.
  - split; [done|]. split; [unfold d'; simpl; rewrite length_imap; apply Hd|]. simpl. intros i s'.
    rewrite list_lookup_imap. intros (s & Hs & ->)%fmap_Some.
    destruct (bitwise_pair f F g d e i s) as (o & Ho & _ & ? & _); [done..|].
    unfold paired. by rewrite Ho.
  - intros m. unfold bit. simpl. rewrite list_lookup_imap. pose proof Hf as [Hg HF].
    destruct (0 <=? MachineID.type m); simpl; [|done].
    destruct (m_bits d !! Z.to_nat (MachineID.type m)) as [s|] eqn:Es; simpl.
    + destruct (bitwise_pair f F g d e _ s Hf Hd He Es) as (o & Ho & _ & _ & Hb).
      unfold paired. rewrite Ho. simpl. by rewrite Hb.
    + destruct Hd as (_ & Hd & _). destruct He as (_ & He & _).
      apply lookup_ge_None in Es. by rewrite (lookup_ge_None_2 (m_bits e)) by lia.
Qed.

Lemma sizes_ok d e : valid d → valid e → (0 <? size_ d) = true ∧ (size_ d =? size_ e) = true.
Proof.
  intros (_ & Hd & _) (_ & He & _). unfold size_. pose proof num_types.
  split; [apply Z.ltb_lt|apply Z.eqb_eq]; lia.
Qed.

Lemma combine_ok f F g d e : bitwise f F g → valid d → valid e →
  ∃ d', combine f d e = Ok d' ∧ valid d' ∧ ∀ m, bit d' m = g (bit d m) (bit e m).
Proof.
  intros Hf Hd He. eexists. split; [|by eapply valid_paired].
  unfold combine. destruct (sizes_ok d e Hd He) as [-> ->]. simpl.
  rewrite (loop_imap _ (paired F e)); [by destruct Hd as [-> _]|].
  intros k l1 s Hl Hs Hs1. rewrite (vget_nat _ _ _ Hs1). simpl.
  destruct (bitwise_pair f F g d e k s) as (o & Ho & E & _); [done..|].
  rewrite (vget_nat _ _ _ Ho). simpl. rewrite E. simpl. unfold paired. rewrite Ho.
  apply vset_nat. by apply lookup_lt_Some in Hs1.
Qed.

Lemma new_ok : ∃ d, new N rs = Ok d ∧ valid d ∧ ∀ m, bit d m = false.
Proof.
  pose proof num_types as Hn. unfold new, resize. rewrite base_level_id by lia.
  rewrite Z.eqb_refl. simpl.
  assert (length (replicate (Z.to_nat MachineType_NUM) Set_.new) = Z.to_nat MachineType_NUM) as Hl
    by apply length_replicate.
  revert Hl. generalize (replicate (Z.to_nat MachineType_NUM) Set_.new). intros l0 Hl.
  rewrite <- Hl, (loop_imap _ (λ i _, Set_.mk (machines (Z.of_nat i)) 0)).
  - simpl. eexists. split; [done|]. split; [split; [done|split]|]; simpl.
    + rewrite length_imap, Hl. lia.
    + intros i s. rewrite list_lookup_imap. intros (s0 & _ & ->)%fmap_Some.
      split; [done|]. split; [done|]. simpl. intros k. by rewrite Z.bits_0.
    + intros m. unfold bit. simpl. rewrite list_lookup_imap.
      destruct (_ <=? _), (_ !! _); simpl; by rewrite ?Z.bits_0.
  - intros k l1 s E1 E2 _. apply lookup_lt_Some in E2. unfold Set_.setSize, Set_.new_size.
    destruct (counts_fit (Z.of_nat k)) as [? ?]; [lia|].
    rewrite (proj2 (Z.ltb_ge N _)) by done. simpl. apply vset_nat. lia.
Qed.

Lemma combine_new_ok f F g d e : bitwise f F g → valid d → valid e →
  ∃ d', combine_new N f d e = Ok d' ∧ valid d' ∧ ∀ m, bit d' m = g (bit d m) (bit e m).
Proof.
  intros Hf Hd He. eexists. split; [|by eapply valid_paired].
  unfold combine_new. destruct (sizes_ok d e Hd He) as [-> ->]. simpl.
  unfold ruby. pose proof Hd as [Hr Hd']. rewrite Hr. simpl.
  destruct new_ok as (d0 & -> & Hd0 & _). simpl.
  assert (length (m_bits d) = length (m_bits d0)) as Hlen.
  { destruct Hd' as [? _], Hd0 as (_ & ? & _). lia. }
  rewrite Hlen, (loop_imap _ (λ k s0, from_option (λ s, paired F e k s) s0 (m_bits d !! k))).
  - simpl. destruct Hd0 as [-> _]. do 2 f_equal. apply list_eq. intros k. rewrite !list_lookup_imap.
    destruct (m_bits d !! k) as [s|] eqn:Es; simpl.
    + destruct (lookup_lt_is_Some_2 (m_bits d0) k) as [s0 ->]; [|done].
      apply lookup_lt_Some in Es. lia.
    + apply lookup_ge_None in Es. by rewrite lookup_ge_None_2 by lia.
  - intros k l1 s0 Hl Hs0 Hs1. destruct (lookup_lt_is_Some_2 (m_bits d) k) as [s Hs].
    { apply lookup_lt_Some in Hs0. lia. }
    rewrite (vget_nat _ _ _ Hs). simpl.
    destruct (bitwise_pair f F g d e k s) as (o & Ho & E & _); [done..|].
    rewrite (vget_nat _ _ _ Ho). simpl. rewrite E, Hs. simpl. unfold paired. rewrite Ho.
    apply vset_nat. by apply lookup_lt_Some in Hs1.
Qed.

(** ** The bit operations of one set *)

Lemma lor_bitwise (f : Set_.t → Set_.t → res Set_.t) :
  (∀ n s o, n ≤ N → set_ok n s → set_ok n o →
     f s o = Ok (Set_.mk n (Z.lor (Set_.bits s) (Set_.bits o)))) →
  bitwise f (λ s o, Set_.mk (Set_.m_nSize s) (Z.lor (Set_.bits s) (Set_.bits o))) orb.
Proof.
  intros Hf. split; [done|]. intros n s o Hn Hs Ho. rewrite (Hf n) by (done || lia).
  pose proof Hs as (Hsz & ? & _). pose proof Ho as (_ & ? & _). rewrite Hsz.
  assert (∀ k, Z.testbit (Z.lor (Set_.bits s) (Set_.bits o)) k =
               Z.testbit (Set_.bits s) k || Z.testbit (Set_.bits o) k) by (intros; apply Z.lor_spec).
  split; [done|]. split; [|done]. eapply (set_ok_combine n s o _ orb); try done. by apply Z.lor_nonneg.
Qed.

Lemma addSet_bitwise : ∃ F, bitwise Set_.addSet F orb.
Proof.
  eexists. apply lor_bitwise. intros n s o _ (Hs & _) (Ho & _). unfold Set_.addSet.
  by rewrite Hs, Ho, Z.eqb_refl.
Qed.

Lemma OR_bitwise : ∃ F, bitwise (Set_.OR N) F orb.
Proof.
  eexists. apply lor_bitwise. intros n s o Hn (Hs & _) (Ho & _). unfold Set_.OR, Set_.new_size.
  rewrite Hs, Ho, Z.eqb_refl. simpl. by rewrite (proj2 (Z.ltb_ge N n)).
Qed.

Lemma AND_bitwise : ∃ F, bitwise (Set_.AND N) F andb.
Proof.
  exists (λ s o, Set_.mk (Set_.m_nSize s) (Z.land (Set_.bits s) (Set_.bits o))).
  split; [done|]. intros n s o Hn Hs Ho. pose proof Hs as (Hsz & ? & _). pose proof Ho as (Hso & ? & _).
  unfold Set_.AND, Set_.new_size. rewrite Hsz, Hso, Z.eqb_refl. simpl.
  rewrite (proj2 (Z.ltb_ge N n)) by lia. simpl. split; [done|].
  split; [|intros; apply Z.land_spec]. eapply (set_ok_combine n s o _ andb); try done.
  - apply Z.land_nonneg. by left.
  - intros. apply Z.land_spec.
Qed.

Lemma removeSet_bitwise : ∃ F, bitwise Set_.removeSet F (λ a b, a && negb b).
Proof.
  exists (λ s o, Set_.mk (Set_.m_nSize s) (Z.ldiff (Set_.bits s) (Set_.bits o))).
  split; [done|]. intros n s o Hn Hs Ho. pose proof Hs as (Hsz & ? & _). pose proof Ho as (Hso & ? & _).
  unfold Set_.removeSet. rewrite Hsz, Hso, Z.eqb_refl. simpl. split; [done|].
  split; [|intros; apply Z.ldiff_spec]. eapply (set_ok_combine n s o _ (λ a b, a && negb b)); try done.
  - apply Z.ldiff_nonneg. by left.
  - intros. apply Z.ldiff_spec.
Qed.

(** ** One machine *)

(** A change of one set that gives every bit of it a new value. *)
Lemma at_vec_ok d v f (h : Z → bool → bool) : valid d → 0 ≤ v < MachineType_NUM →
  (∀ s, set_ok (machines v) s → ∃ s', f s = Ok s' ∧ set_ok (machines v) s' ∧
     ∀ k, Z.testbit (Set_.bits s') k = h k (Z.testbit (Set_.bits s) k)) →
  ∃ d', at_vec d v f = Ok d' ∧ valid d' ∧
    ∀ m, bit d' m = if decide (MachineID.type m = v) then h (MachineID.num m) (bit d m) else bit d m.
Proof.
  intros Hd Hv Hf. pose proof Hd as (Hr & Hl & Hs).
  destruct (vget_inbounds (m_bits d) v) as (s & E & Es); [lia|].
  assert (set_ok (machines v) s) as Hok.
  { apply Hs in Es. by rewrite Z2Nat.id in Es by lia. }
  destruct (Hf s Hok) as (s' & Ef & Hok' & Hb). unfold at_vec. rewrite E. simpl. rewrite Ef. simpl.
  rewrite vset_inbounds by lia. simpl. eexists. split; [done|]. split; [split; [done|split]|]; simpl.
  - by rewrite length_insert.
  - intros i s0. destruct (decide (i = Z.to_nat v)) as [->|].
    + rewrite list_lookup_insert_eq by (apply lookup_lt_Some in Es; lia). intros [= <-].
      by rewrite Z2Nat.id by lia.
    + rewrite list_lookup_insert_ne by done. apply Hs.
  - intros m. unfold bit. simpl. destruct (Z.leb_spec 0 (MachineID.type m)); simpl.
    + case_decide as Ht.
      * rewrite Ht, Es. rewrite list_lookup_insert_eq by (apply lookup_lt_Some in Es; lia). apply Hb.
      * by rewrite list_lookup_insert_ne by lia.
    + by rewrite decide_False by lia.
Qed.

Lemma vecIndex_ok d m : valid d → 0 ≤ MachineID.type m < MachineType_NUM →
  vecIndex d m = Ok (MachineID.type m) ∧ (0 <? size_ d) = true.
Proof.
  intros (_ & Hl & _) Ht. unfold vecIndex, size_. rewrite base_level_id by lia.
  pose proof N_bounds as [_ ?]. rewrite u64_small by lia.
  by rewrite !(proj2 (Z.ltb_lt _ _)) by lia.
Qed.

(** A change of the bit of one machine to [v]. *)
Lemma at_vec_machine d m f (v : bool) : valid d → 0 ≤ MachineID.type m < MachineType_NUM →
  (∀ s, set_ok (machines (MachineID.type m)) s → ∃ x, f s = Ok (Set_.mk (Set_.m_nSize s) x) ∧ 0 ≤ x ∧
     ∀ k, Z.testbit x k = if k =? MachineID.num m then v else Z.testbit (Set_.bits s) k) →
  (v = true → 0 ≤ MachineID.num m < machines (MachineID.type m)) →
  ∃ d', at_vec d (MachineID.type m) f = Ok d' ∧ valid d' ∧
    ∀ m', bit d' m' = if decide (m' = m) then v else bit d m'.
Proof.
  intros Hd Ht Hf Hv.
  destruct (at_vec_ok d (MachineID.type m) f (λ k b, if k =? MachineID.num m then v else b))
    as (d' & Ed & Hd' & Hb); [done..| |].
  - intros s Hs. destruct (Hf s Hs) as (x & E & Hx & Hbits). eexists. split; [exact E|].
    split; [|done]. destruct Hs as (-> & _ & Hin). split; [done|]. split; [done|]. simpl. intros k.
    rewrite Hbits. destruct (Z.eqb_spec k (MachineID.num m)) as [->|]; [done|apply Hin].
  - exists d'. split; [done|]. split; [done|]. intros m'. rewrite Hb. destruct m' as [ty j], m as [ty0 j0].
    simpl in *. destruct (decide (ty = ty0)) as [->|]; [|by rewrite decide_False by congruence].
    destruct (Z.eqb_spec j j0) as [->|]; [by rewrite decide_True|by rewrite decide_False by congruence].
Qed.

Lemma add_ok d m : valid d → machine m →
  ∃ d', add N d m = Ok d' ∧ valid d' ∧ ∀ m', bit d' m' = if decide (m' = m) then true else bit d m'.
Proof.
  intros Hd [Ht Hn]. destruct (vecIndex_ok d m Hd Ht) as [Ev Es]. pose proof Hd as (_ & Hl & Hs).
  destruct (vget_inbounds (m_bits d) (MachineID.type m)) as (s & E & Els); [lia|].
  destruct (valid_lookup _ _ _ Hd Els) as ((Hsz & _) & _ & Hc). rewrite Z2Nat.id in * by lia.
  pose proof N_bounds as [? _]. unfold add. rewrite Es. simpl. rewrite Ev. simpl. rewrite E. simpl.
  unfold Set_.getSize, bitIndex. rewrite Hsz, u32_small by lia.
  rewrite (proj2 (Z.ltb_lt _ _)) by lia. simpl. apply at_vec_machine; [done..| |done].
  intros s0 (_ & Hnn & _). unfold Set_.add, Bitset.set.
  rewrite (proj2 (Z.leb_le _ _)), (proj2 (Z.ltb_lt _ _)) by lia. simpl. eexists. split; [done|].
  split; [apply Z.lor_nonneg; split; [done|by apply Z.shiftl_nonneg]|]. intros k.
  destruct (Z.eqb_spec k (MachineID.num m)) as [->|]; [by rewrite Z.setbit_eq by lia|].
  by apply Z.setbit_neq; lia.
Qed.

Lemma remove_ok d m : valid d → 0 ≤ MachineID.type m < MachineType_NUM → 0 ≤ MachineID.num m < N →
  ∃ d', remove N d m = Ok d' ∧ valid d' ∧ ∀ m', bit d' m' = if decide (m' = m) then false else bit d m'.
Proof.
  intros Hd Ht Hn. destruct (vecIndex_ok d m Hd Ht) as [Ev Es].
  unfold remove. rewrite Es. simpl. rewrite Ev. simpl. apply at_vec_machine; [done..| |done].
  intros s (_ & Hnn & _). unfold Set_.remove, Bitset.reset, bitIndex.
  rewrite (proj2 (Z.leb_le _ _)), (proj2 (Z.ltb_lt _ _)) by lia. simpl. eexists. split; [done|].
  split; [apply Z.ldiff_nonneg; by left|]. intros k.
  destruct (Z.eqb_spec k (MachineID.num m)) as [->|]; [by rewrite Z.clearbit_eq|].
  by apply Z.clearbit_neq.
Qed.

Lemma clear_ok d : valid d → ∃ d', clear d = Ok d' ∧ valid d' ∧ ∀ m, bit d' m = false.
Proof.
  intros Hd. unfold clear. destruct (sizes_ok d d Hd Hd) as [-> _]. simpl. eexists. split; [done|].
  destruct Hd as (Hr & Hl & Hs). split; [split; [done|split]|]; simpl.
  - by rewrite length_fmap.
  - intros i s. rewrite list_lookup_fmap. intros (s0 & E & ->)%fmap_Some.
    destruct (Hs _ _ E) as [Hsz _]. split; [done|]. split; [done|]. simpl. intros k. by rewrite Z.bits_0.
  - intros m. unfold bit. simpl. rewrite list_lookup_fmap.
    destruct (_ <=? _), (_ !! _); simpl; by rewrite ?Z.bits_0.
Qed.

(** All machines of a type, and of all types. *)
Lemma broadcast_type_ok d ty : valid d → 0 ≤ ty < MachineType_NUM →
  ∃ d', broadcast_type N d ty = Ok d' ∧ valid d' ∧
    ∀ m, bit d' m = bit d m || bool_decide (machine m ∧ MachineID.type m = ty).
Proof.
  intros Hd Ht. pose proof Hd as (Hr & _). unfold broadcast_type, ruby. rewrite Hr. simpl.
  pose proof (counts_fit ty Ht) as [Hc _].
  destruct (loop_from_inv (λ i d', valid d' ∧ ∀ m, bit d' m =
    bit d m || bool_decide (machine m ∧ MachineID.type m = ty ∧ MachineID.num m < i))
    (Z.to_nat (machines ty)) 0 (λ i d0, add N d0 (MachineID.mk ty i)) d) as (d' & E & Hd' & Hb).
  - split; [done|]. intros m. rewrite bool_decide_false; [by rewrite orb_false_r|].
    unfold machine. lia.
  - intros i d0 Hi [Hd0 Hb0]. destruct (add_ok d0 (MachineID.mk ty i)) as (d1 & E1 & Hd1 & Hb1).
    { done. } { split; simpl; lia. }
    exists d1. split; [done|]. split; [done|]. intros m. rewrite Hb1, Hb0.
    case_decide as Hm; subst; simpl.
    + rewrite (bool_decide_true (_ ∧ _)); [by rewrite orb_true_r|]. unfold machine. simpl. lia.
    + f_equal. apply bool_decide_ext. destruct m as [a b]. unfold machine. simpl.
      assert (a = ty → b ≠ i) by naive_solver. lia.
  - exists d'. split; [done|]. split; [done|]. intros m. rewrite Hb. f_equal. apply bool_decide_ext.
    unfold machine. rewrite Z2Nat.id by lia. destruct (decide (MachineID.type m = ty)) as [->|]; lia.
Qed.

Lemma broadcast_ok d : valid d →
  ∃ d', broadcast N d = Ok d' ∧ valid d' ∧ ∀ m, bit d' m = bool_decide (machine m).
Proof.
  intros Hd. pose proof num_types. unfold broadcast.
  destruct (loop_from_inv (λ i d', valid d' ∧ ∀ m, bit d' m =
    bit d m || bool_decide (machine m ∧ MachineID.type m < i))
    (Z.to_nat MachineType_NUM) 0 (λ i d0, broadcast_type N d0 i) d) as (d' & E & Hd' & Hb).
  - split; [done|]. intros m. rewrite bool_decide_false; [by rewrite orb_false_r|].
    unfold machine. lia.
  - intros i d0 Hi [Hd0 Hb0]. destruct (broadcast_type_ok d0 i) as (d1 & E1 & Hd1 & Hb1);
      [done|lia|]. exists d1. split; [done|]. split; [done|]. intros m. rewrite Hb1, Hb0, <- orb_assoc.
    f_equal. rewrite <- bool_decide_or. apply bool_decide_ext. unfold machine. lia.
  - exists d'. split; [done|]. split; [done|]. intros m. rewrite Hb.
    destruct (bit d m) eqn:Eb; simpl.
    + symmetry. apply bool_decide_true. by apply (valid_bit d).
    + apply bool_decide_ext. unfold machine. lia.
Qed.

(** ** Queries *)

Lemma all_sets_ok p (P : nat → Set_.t → bool) d :
  (∀ i s, m_bits d !! i = Some s → p (Z.of_nat i) s = Ok (P i s)) →
  ∃ b, all_sets p d = Ok b ∧ (b = true ↔ ∀ i s, m_bits d !! i = Some s → P i s = true).
Proof.
  intros Hp. unfold all_sets.
  destruct (find_from_spec
    (λ i, let* s := vget (m_bits d) i in let* b := p i s in Ok (if b : bool then None else Some ()))
    (λ i, s ← m_bits d !! Z.to_nat i; if P (Z.to_nat i) s then None else Some ())
    (length (m_bits d)) 0) as (r & -> & Hr).
  { intros j Hj. destruct (vget_inbounds (m_bits d) j) as (s & -> & Es); [lia|]. simpl.
    replace j with (Z.of_nat (Z.to_nat j)) at 1 by lia. rewrite (Hp _ _ Es), Es. simpl. by destruct P. }
  simpl. eexists. split; [done|]. destruct r as [[]|].
  - destruct Hr as (j & Hj & E & _). split; [done|]. intros Hall.
    apply bind_Some in E as (s & Es & E). by rewrite (Hall _ _ Es) in E.
  - split; [|done]. intros _ i s Es. pose proof (lookup_lt_Some _ _ _ Es).
    specialize (Hr (Z.of_nat i)). rewrite Nat2Z.id, Es in Hr. simpl in Hr.
    destruct (P i s); [done|]. discriminate Hr. lia.
Qed.

Lemma all_pairs_ok p (P : Set_.t → Set_.t → bool) d e : valid d → valid e →
  (∀ n s o, set_ok n s → set_ok n o → p s o = Ok (P s o)) →
  ∃ b, all_pairs p d e = Ok b ∧
    (b = true ↔ ∀ i s o, m_bits d !! i = Some s → m_bits e !! i = Some o → P s o = true).
Proof.
  intros Hd He Hp. unfold all_pairs. destruct (sizes_ok d e Hd He) as [-> ->]. simpl.
  destruct (all_sets_ok (λ i s, let* o := vget (m_bits e) i in p s o)
              (λ i s, from_option (P s) true (m_bits e !! i)) d) as (b & -> & Hb).
  - intros i s Es. destruct (valid_pair d e i s Hd He Es) as [o Eo]. rewrite (vget_nat _ _ _ Eo), Eo.
    simpl. destruct (valid_lookup _ _ _ Hd Es) as [? _], (valid_lookup _ _ _ He Eo) as [? _].
    by eapply Hp.
  - exists b. split; [done|]. rewrite Hb. split.
    + intros Hall i s o Es Eo. specialize (Hall i s Es). by rewrite Eo in Hall.
    + intros Hall i s Es. destruct (m_bits e !! i) as [o|] eqn:Eo; [|done]. by eapply Hall.
Qed.

(** A property of all bits of all pairs of sets is one of all machines. *)
Lemma pairs_members (Q : bool → bool → Prop) d e : valid d → valid e → Q false false →
  (∀ i s o, m_bits d !! i = Some s → m_bits e !! i = Some o →
     ∀ k, Q (Z.testbit (Set_.bits s) k) (Z.testbit (Set_.bits o) k)) ↔ ∀ m, Q (bit d m) (bit e m).
Proof.
  intros Hd He H0. split.
  - intros Hall m. unfold bit. destruct (0 <=? MachineID.type m); simpl; [|done].
    destruct (m_bits d !! Z.to_nat (MachineID.type m)) as [s|] eqn:Es; simpl.
    + destruct (valid_pair d e _ s Hd He Es) as [o Eo]. rewrite Eo. simpl. by eapply Hall.
    + destruct (m_bits e !! Z.to_nat (MachineID.type m)) as [o|] eqn:Eo; [|done].
      destruct (valid_pair e d _ o He Hd Eo) as [s Es']. by rewrite Es' in Es.
  - intros Hall i s o Es Eo k. specialize (Hall (MachineID.mk (Z.of_nat i) k)).
    unfold bit in Hall. simpl in Hall. rewrite Nat2Z.id, Es, Eo in Hall. simpl in Hall.
    by rewrite (proj2 (Z.leb_le 0 _)) in Hall by lia.
Qed.

Lemma isSuperset_ok d e : valid d → valid e →
  ∃ b, isSuperset d e = Ok b ∧ (b = true ↔ members e ⊆ members d).
Proof.
  intros Hd He. destruct (all_pairs_ok Set_.isSuperset
    (λ s o, Z.lor (Set_.bits s) (Set_.bits o) =? Set_.bits s) d e Hd He) as (b & E & Hb).
  { intros n s o (Hs & _) (Ho & _). unfold Set_.isSuperset. by rewrite Hs, Ho, Z.eqb_refl. }
  exists b. split; [done|]. rewrite Hb.
  transitivity (∀ m, bit e m = true → bit d m = true).
  - rewrite <- (pairs_members (λ x y, y = true → x = true) d e) by done. apply forall_proper; intros i; apply forall_proper; intros s; apply forall_proper; intros o.
    split.
    + intros Hor Es Eo k Hk. specialize (Hor Es Eo). apply Z.eqb_eq in Hor. rewrite <- Hor, Z.lor_spec, Hk.
      apply orb_true_r.
    + intros Hor Es Eo. apply Z.eqb_eq, Z.bits_inj'. intros k _. rewrite Z.lor_spec.
      specialize (Hor Es Eo k). destruct (Z.testbit (Set_.bits o) k); [|by rewrite orb_false_r].
      by rewrite Hor.
  - split; intros Hall m; specialize (Hall m); by rewrite !elem_of_members in *.
Qed.

Lemma isEqual_ok d e : valid d → valid e →
  ∃ b, isEqual d e = Ok b ∧ (b = true ↔ members d = members e).
Proof.
  intros Hd He. destruct (all_pairs_ok Set_.isEqual
    (λ s o, Set_.bits s =? Set_.bits o) d e Hd He) as (b & E & Hb).
  { intros n s o (Hs & _) (Ho & _). unfold Set_.isEqual. by rewrite Hs, Ho, Z.eqb_refl. }
  exists b. split; [done|]. rewrite Hb.
  transitivity (∀ m, bit d m = bit e m).
  - rewrite <- (pairs_members eq d e) by done. apply forall_proper; intros i; apply forall_proper; intros s; apply forall_proper; intros o. split.
    + intros Heq Es Eo k. specialize (Heq Es Eo). apply Z.eqb_eq in Heq. by rewrite Heq.
    + intros Heq Es Eo. apply Z.eqb_eq, Z.bits_inj'. naive_solver.
  - split.
    + intros Hall. apply set_eq. intros m. by rewrite !elem_of_members, Hall.
    + intros Heq m. apply eq_true_iff_eq. rewrite <- !elem_of_members by done. by rewrite Heq.
Qed.

Lemma intersection_ok d e : valid d → valid e →
  ∃ b, intersectionIsNotEmpty d e = Ok b ∧ (b = true ↔ members d ∩ members e ≠ ∅).
Proof.
  intros Hd He. destruct (all_pairs_ok (λ s o, Ok (Set_.intersectionIsEmpty s o))
    (λ s o, Z.land (Set_.bits s) (Set_.bits o) =? 0) d e Hd He) as (b & E & Hb); [done|].
  exists (negb b). unfold intersectionIsNotEmpty. rewrite E. split; [done|].
  rewrite negb_true_iff, <- not_true_iff_false, Hb. apply not_iff_compat.
  transitivity (∀ m, ¬ (bit d m = true ∧ bit e m = true)).
  - rewrite <- (pairs_members (λ x y, ¬ (x = true ∧ y = true)) d e) by (done || naive_solver).
    apply forall_proper; intros i; apply forall_proper; intros s; apply forall_proper; intros o. split.
    + intros Hz Es Eo k. specialize (Hz Es Eo). apply Z.eqb_eq in Hz.
      rewrite <- andb_true_iff, <- Z.land_spec, Hz, Z.bits_0. done.
    + intros Hz Es Eo. apply Z.eqb_eq, Z.bits_inj'. intros k _. rewrite Z.bits_0, Z.land_spec.
      apply not_true_iff_false. rewrite andb_true_iff. by apply Hz.
  - split.
    + intros Hall. apply set_eq. intros m. rewrite elem_of_intersection, !elem_of_members by done.
      set_solver.
    + intros Heq m. rewrite <- !elem_of_members, <- elem_of_intersection, Heq by done. set_solver.
Qed.

Lemma isEmpty_ok d : valid d → ∃ b, isEmpty d = Ok b ∧ (b = true ↔ members d = ∅).
Proof.
  intros Hd. unfold isEmpty. destruct (sizes_ok d d Hd Hd) as [-> _]. simpl.
  destruct (all_sets_ok (λ _ s, Ok (Set_.isEmpty s)) (λ _ s, Set_.bits s =? 0) d) as (b & -> & Hb);
    [done|].
  exists b. split; [done|]. rewrite Hb. transitivity (∀ m, bit d m = false).
  - rewrite <- (pairs_members (λ x _, x = false) d d) by done. split.
    + intros Hall i s o Es _ k. specialize (Hall i s Es). apply Z.eqb_eq in Hall.
      by rewrite Hall, Z.bits_0.
    + intros Hall i s Es. apply Z.eqb_eq, Z.bits_inj'. intros k _. rewrite Z.bits_0. by eapply Hall.
  - split.
    + intros Hall. apply set_eq. intros m. rewrite elem_of_members, Hall by done. set_solver.
    + intros Heq m. apply not_true_iff_false. rewrite <- elem_of_members, Heq by done. set_solver.
Qed.

Lemma isBroadcast_ok d : valid d →
  ∃ b, isBroadcast N d = Ok b ∧ (b = true ↔ ∀ m, machine m → m ∈ members d).
Proof.
  intros Hd. unfold isBroadcast. destruct (sizes_ok d d Hd Hd) as [-> _]. simpl.
  destruct (all_sets_ok (λ _ s, Ok (Set_.isBroadcast N s)) (λ _ s, Set_.isBroadcast N s) d)
    as (b & -> & Hb); [done|].
  exists b. split; [done|]. rewrite Hb. split.
  - intros Hall [ty k] [Ht Hk]. simpl in *. apply elem_of_members; [done|]. unfold bit. simpl.
    destruct (vget_inbounds (m_bits d) ty) as (s & _ & Es); [destruct Hd as (_ & -> & _); lia|].
    destruct (valid_lookup _ _ _ Hd Es) as (Hs & _ & ?). rewrite Z2Nat.id in * by lia.
    rewrite Es, (proj2 (Z.leb_le 0 ty)) by lia. simpl.
    specialize (Hall _ _ Es). by rewrite (count_full _ _ Hs) in Hall by done; apply Hall.
  - intros Hall i s Es. destruct (valid_lookup _ _ _ Hd Es) as (Hs & Hi & ?).
    apply (count_full _ _ Hs); [done|]. intros k Hk.
    assert (MachineID.mk (Z.of_nat i) k ∈ members d) as Hm.
    { apply Hall. split; simpl; lia. }
    apply elem_of_members in Hm; [|done]. unfold bit in Hm. simpl in Hm. rewrite Nat2Z.id, Es in Hm.
    by apply andb_prop in Hm as [_ ?].
Qed.

Lemma isElement_ok d m : valid d → 0 ≤ MachineID.type m < MachineType_NUM → 0 ≤ MachineID.num m < N →
  isElement N d m = Ok (bool_decide (m ∈ members d)).
Proof.
  intros Hd Ht Hn. destruct (vecIndex_ok d m Hd Ht) as [Ev Es]. unfold isElement. rewrite Es. simpl.
  rewrite Ev. simpl. destruct (vget_inbounds (m_bits d) (MachineID.type m)) as (s & -> & Els);
    [destruct Hd as (_ & -> & _); lia|]. simpl.
  destruct (valid_lookup _ _ _ Hd Els) as (Hs & _ & ?). unfold Set_.isElement, bitIndex.
  rewrite (test_ok _ _ _ Hs) by lia. f_equal. apply eq_true_iff_eq.
  rewrite bool_decide_eq_true, elem_of_members by done. unfold bit. rewrite Els. simpl.
  by rewrite (proj2 (Z.leb_le 0 _)) by lia.
Qed.

(** ** The number of machines *)

Lemma NoDup_concat_imap {A B} (f : nat → A → list B) (l : list A) :
  (∀ i x, NoDup (f i x)) → (∀ i j x y b, b ∈ f i x → b ∈ f j y → i = j) → NoDup (concat (imap f l)).
Proof.
  revert f. induction l as [|x l IH]; intros f Hnd Hinj; simpl; [constructor|].
  apply NoDup_app. split; [done|]. split.
  - intros b Hb Hc. rewrite list_elem_of_In, in_concat in Hc. destruct Hc as (l1 & Hl1 & Hb1).
    rewrite <- list_elem_of_In in Hl1. rewrite <- list_elem_of_In in Hb1.
    apply elem_of_lookup_imap in Hl1 as (i & y & -> & _).
    by pose proof (Hinj _ _ _ _ _ Hb Hb1).
  - apply IH; [intros; apply Hnd|]. intros i j y z b H1 H2. pose proof (Hinj _ _ _ _ _ H1 H2). lia.
Qed.

Lemma size_members d : size (members d) = length (member_list d).
Proof.
  unfold members. apply size_list_to_set. apply NoDup_concat_imap.
  - intros i s. apply NoDup_fmap_2; [|apply NoDup_elems]. by intros ? ? [=].
  - intros i j s o m Hs Ho. apply list_elem_of_fmap in Hs as (? & -> & _).
    apply list_elem_of_fmap in Ho as (? & [= ?%Nat2Z.inj] & _). done.
Qed.

Lemma count_ok d : valid d → count N d = Ok (Z.of_nat (size (members d))).
Proof.
  intros Hd. unfold count. destruct (sizes_ok d d Hd Hd) as [-> _]. simpl.
  pose proof N_bounds as [HN _]. pose proof total_fits as Htot. pose proof Hd as (_ & Hl & _).
  set (L := imap (λ i s, MachineID.mk (Z.of_nat i) <$> Bitset.elems N (Set_.bits s)) (m_bits d)).
  destruct (loop_from_inv (λ j c, c = zlen (concat (take (Z.to_nat j) L)) ∧ c ≤ j * N)
    (length (m_bits d)) 0
    (λ i counter, let* s := vget (m_bits d) i in chk_i32 (counter + Set_.count N s)) 0)
    as (c & -> & -> & _).
  - split; [done|lia].
  - intros j c Hj [-> Hle]. destruct (vget_inbounds (m_bits d) j) as (s & -> & Es); [lia|]. simpl.
    assert (zlen (Bitset.elems N (Set_.bits s)) ≤ N) as Hlen.
    { unfold Bitset.elems. pose proof (length_filter (λ i, Z.testbit (Set_.bits s) i = true) (seqZ 0 N)).
      rewrite length_seqZ in *. lia. }
    unfold Set_.count, Bitset.count. eexists. split; [apply chk_i32_Ok; nia|]. split; [|nia].
    rewrite Z2Nat.inj_add, Nat.add_1_r by lia.
    rewrite (take_S_r L (Z.to_nat j) (MachineID.mk j <$> Bitset.elems N (Set_.bits s))).
    + rewrite concat_app, length_app. simpl. rewrite app_nil_r, length_fmap. lia.
    + unfold L. rewrite list_lookup_imap, Es. simpl. by rewrite Z2Nat.id by lia.
  - rewrite size_members. unfold member_list. fold L. rewrite Z.add_0_l, Nat2Z.id.
    rewrite take_ge; [done|]. unfold L. by rewrite length_imap.
Qed.

(** ** The smallest machine *)

(** Machines by type and number. *)
Definition le_machine m m' : Prop :=
  MachineID.type m < MachineID.type m' ∨
  MachineID.type m = MachineID.type m' ∧ MachineID.num m ≤ MachineID.num m'.

Lemma first_bit_ok n s : set_ok n s → 0 ≤ n ≤ N →
  ∃ r, first_bit N s = Ok r ∧
    match r with
    | Some j => Z.testbit (Set_.bits s) j = true ∧ ∀ k, Z.testbit (Set_.bits s) k = true → j ≤ k
    | None => ∀ k, Z.testbit (Set_.bits s) k = false
    end.
Proof.
  intros Hs Hn. pose proof Hs as (Hsz & _ & Hb). unfold first_bit, Set_.getSize. rewrite Hsz.
  destruct (find_from_spec
    (λ j, let* b := Set_.isElement N s j in Ok (if b : bool then Some j else None))
    (λ j, if Z.testbit (Set_.bits s) j then Some j else None) (Z.to_nat n) 0) as (r & E & Hr).
  { intros j Hj. unfold Set_.isElement. by rewrite (test_ok n) by (done || lia). }
  exists r. split; [done|]. destruct r as [j|].
  - destruct Hr as (j' & Hj & E1 & E2). destruct (Z.testbit (Set_.bits s) j') eqn:Eb; [|done].
    injection E1 as <-. split; [done|]. intros k Hk. destruct (decide (j' ≤ k)); [done|].
    pose proof (Hb k Hk). specialize (E2 k). rewrite Hk in E2. discriminate E2. lia.
  - intros k. apply not_true_iff_false. intros Hk. pose proof (Hb k Hk).
    specialize (Hr k). rewrite Hk in Hr. discriminate Hr. lia.
Qed.

(** The first bit of the set of a member is not after it. *)
Lemma member_first d m : valid d → m ∈ members d →
  ∃ s j, m_bits d !! Z.to_nat (MachineID.type m) = Some s ∧ 0 ≤ MachineID.type m ∧
    first_bit N s = Ok (Some j) ∧ j ≤ MachineID.num m.
Proof.
  intros Hd Hm. apply elem_of_members in Hm; [|done]. pose proof (valid_bit _ _ Hd Hm) as [Ht _].
  unfold bit in Hm. apply andb_prop in Hm as [_ Hm].
  destruct (m_bits d !! Z.to_nat (MachineID.type m)) as [s|] eqn:Es; [|done]. simpl in Hm.
  destruct (valid_lookup _ _ _ Hd Es) as (Hs & _ & ?).
  destruct (first_bit_ok _ _ Hs) as ([j|] & E & Hj); [done| |by rewrite Hj in Hm].
  exists s, j. split_and!; [done|lia|done|]. by apply Hj.
Qed.

Lemma smallestElement_ok d : valid d → members d ≠ ∅ →
  ∃ m, smallestElement N d = Ok m ∧ m ∈ members d ∧ ∀ m', m' ∈ members d → le_machine m m'.
Proof.
  intros Hd Hne. unfold smallestElement. destruct (sizes_ok d d Hd Hd) as [-> _]. simpl.
  rewrite count_ok by done. simpl. pose proof Hd as (_ & Hl & _).
  rewrite (proj2 (Z.ltb_lt 0 _)) by (rewrite <- leibniz_equiv_iff, <- size_non_empty_iff in Hne; lia).
  simpl.
  destruct (find_from_spec (first_in N d) (λ i, s ← m_bits d !! Z.to_nat i;
      match first_bit N s with Ok (Some j) => Some (MachineID.mk i j) | _ => None end)
    (length (m_bits d)) 0) as (r & -> & Hr).
  { intros i Hi. destruct (vget_inbounds (m_bits d) i) as (s & E & Es); [lia|].
    unfold first_in. rewrite E, Es. simpl.
    destruct (valid_lookup _ _ _ Hd Es) as (Hs & _ & ?).
    destruct (first_bit_ok _ _ Hs) as ([j|] & -> & _); simpl; [done| |done].
    by rewrite from_base_level_id by lia. }
  simpl.
  destruct r as [m|].
  - exists m. split; [done|]. destruct Hr as (i & Hi & E & Hbefore).
    apply bind_Some in E as (s & Es & E).
    destruct (valid_lookup _ _ _ Hd Es) as (Hs & _ & ?). rewrite Z2Nat.id in * by lia.
    destruct (first_bit_ok _ _ Hs) as ([j|] & Ej & Hj); [done| |by rewrite Ej in E].
    rewrite Ej in E. injection E as <-. split.
    + apply elem_of_members; [done|]. unfold bit. simpl. rewrite Es. simpl.
      destruct Hj as [-> _]. by rewrite (proj2 (Z.leb_le 0 i)) by lia.
    + intros m' Hm'. destruct (member_first d m' Hd Hm') as (s' & j' & Es' & Ht' & Ej' & Hle). unfold le_machine. simpl.
      destruct (Z.lt_trichotomy i (MachineID.type m')) as [|[Heq|Hlt]]; [by left| |].
      * right. split; [done|]. rewrite <- Heq, Es in Es'. injection Es' as <-.
        rewrite Ej in Ej'. by injection Ej' as <-.
      * specialize (Hbefore (MachineID.type m')). rewrite Es' in Hbefore. simpl in Hbefore.
        rewrite Ej' in Hbefore. discriminate Hbefore. lia.
  - exfalso. apply Hne, set_eq. intros m. split; [|set_solver]. intros Hm. exfalso.
    destruct (member_first d m Hd Hm) as (s & j & Es & Ht & Ej & _). specialize (Hr (MachineID.type m)).
    rewrite Es in Hr. simpl in Hr. rewrite Ej in Hr. discriminate Hr.
    apply lookup_lt_Some in Es. lia.
Qed.

(** ** The theorems *)

(** An operation returns a valid destination that stands for [X]. *)
Definition yields (r : res (t R)) (X : gset MachineID.t) : Prop :=
  ∃ d', r = Ok d' ∧ valid d' ∧ members d' = X.

Lemma yields_bits r (X : gset MachineID.t) :
  (∃ d', r = Ok d' ∧ valid d' ∧ ∀ m, bit d' m = bool_decide (m ∈ X)) → yields r X.
Proof. intros (d' & ? & ? & ?). exists d'. eauto using members_bits. Qed.

Lemma bit_members d m : valid d → bit d m = bool_decide (m ∈ members d).
Proof. intros. apply eq_true_iff_eq. by rewrite bool_decide_eq_true, elem_of_members. Qed.

(** Turn a goal about an operation into one about the bits it computes. *)
Ltac by_bits lem :=
  apply yields_bits; destruct lem as (d' & ? & ? & Hbits); [done..|];
  exists d'; split; [done|]; split; [done|]; intros m'; rewrite Hbits, ?bit_members by done.

(** C20. A destination is a set of machines. A new one is empty; adding and
    removing a machine or the machines of another destination, [OR], [AND],
    [clear] and [broadcast] give insertion, deletion, union, difference,
    intersection, the empty set and the set of all machines, and none of their
    assertions fails. *)
Theorem netdest_updates d e m (Hd : valid d) (He : valid e) (Hm : machine m) :
  yields (new N rs) ∅ ∧
  yields (add N d m) ({[m]} ∪ members d) ∧
  yields (remove N d m) (members d ∖ {[m]}) ∧
  yields (addNetDest d e) (members d ∪ members e) ∧
  yields (removeNetDest d e) (members d ∖ members e) ∧
  yields (OR N d e) (members d ∪ members e) ∧
  yields (AND N d e) (members d ∩ members e) ∧
  yields (clear d) ∅ ∧
  ∃ d', broadcast N d = Ok d' ∧ valid d' ∧ ∀ m', m' ∈ members d' ↔ machine m'.
Proof.
  destruct addSet_bitwise as [F1 HF1], OR_bitwise as [F2 HF2].
  destruct AND_bitwise as [F3 HF3], removeSet_bitwise as [F4 HF4].
  assert (0 ≤ MachineID.num m < N) as HN by (destruct Hm; pose proof (counts_fit (MachineID.type m)); lia).
  pose proof Hm as [Ht _]. split_and!.
  - by_bits new_ok. by rewrite bool_decide_false by set_solver.
  - by_bits (add_ok d m). case_decide; [rewrite bool_decide_true; set_solver|].
    apply bool_decide_ext. set_solver.
  - by_bits (remove_ok d m Hd Ht HN). case_decide; [rewrite bool_decide_false; set_solver|].
    apply bool_decide_ext. set_solver.
  - by_bits (combine_ok _ F1 _ d e HF1). rewrite <- bool_decide_or. apply bool_decide_ext. set_solver.
  - by_bits (combine_ok _ F4 _ d e HF4). rewrite <- bool_decide_not, <- bool_decide_and.
    apply bool_decide_ext. set_solver.
  - by_bits (combine_new_ok _ F2 _ d e HF2). rewrite <- bool_decide_or. apply bool_decide_ext. set_solver.
  - by_bits (combine_new_ok _ F3 _ d e HF3). rewrite <- bool_decide_and. apply bool_decide_ext. set_solver.
  - by_bits (clear_ok d). by rewrite bool_decide_false by set_solver.
  - destruct (broadcast_ok d Hd) as (d' & E & Hd' & Hb). exists d'. split; [done|]. split; [done|].
    intros m'. by rewrite elem_of_members, Hb, bool_decide_eq_true.
Qed.

(** The queries of a destination decide what they say of the set it stands
    for: membership, inclusion, equality, whether two sets meet, emptiness and
    fullness; [count] is the cardinality, and [smallestElement] of a set that is
    not empty is its first machine by type and number. *)
Theorem netdest_queries d e m (Hd : valid d) (He : valid e) (Hm : machine m) :
  isElement N d m = Ok (bool_decide (m ∈ members d)) ∧
  isSubset d e = Ok (bool_decide (members d ⊆ members e)) ∧
  isEqual d e = Ok (bool_decide (members d = members e)) ∧
  intersectionIsNotEmpty d e = Ok (bool_decide (members d ∩ members e ≠ ∅)) ∧
  isEmpty d = Ok (bool_decide (members d = ∅)) ∧
  (∃ b, isBroadcast N d = Ok b ∧ (b = true ↔ ∀ m', machine m' → m' ∈ members d)) ∧
  count N d = Ok (Z.of_nat (size (members d))) ∧
  (members d ≠ ∅ → ∃ m', smallestElement N d = Ok m' ∧ m' ∈ members d ∧
     ∀ m'', m'' ∈ members d → le_machine m' m'').
Proof.
  assert (∀ (r : res bool) (P : Prop) `{Decision P},
    (∃ b, r = Ok b ∧ (b = true ↔ P)) → r = Ok (bool_decide P)) as Hdec.
  { intros r P ? (b & -> & Hb). f_equal. apply eq_true_iff_eq. by rewrite bool_decide_eq_true. }
  split; [|split; [|split; [|split; [|split; [|split; [|split]]]]]].
  - apply isElement_ok; [done|by destruct Hm|].
    destruct Hm. pose proof (counts_fit (MachineID.type m)). lia.
  - by apply Hdec, isSuperset_ok.
  - by apply Hdec, isEqual_ok.
  - by apply Hdec, intersection_ok.
  - by apply Hdec, isEmpty_ok.
  - by apply isBroadcast_ok.
  - by apply count_ok.
  - by apply smallestElement_ok.
Qed.

End Sets.

(** ** A system of three machine types *)

Section Example_.
Import NetDest.

#[local] Instance three_types : MachineTypes (list Z) := {
  MachineType_NUM := 3;
  MachineType_base_level ty := ty;
  MachineType_from_base_level i := Ok i;
  MachineType_base_count counts ty := default 0 (counts !! Z.to_nat ty);
  MachineType_base_number counts ty := foldr Z.add 0 (take (Z.to_nat ty) counts) }.

Definition counts : list Z := [4; 2; 8].

#[local] Instance three_types_laws : MachineLaws 64 counts.
Proof.
  constructor; simpl; try done.
  intros ty Hty. unfold counts. assert (ty = 0 ∨ ty = 1 ∨ ty = 2) as [->|[->| ->]] by lia; simpl; lia.
Qed.

(** Machines 1 and 3 of the first type and machine 7 of the last one; all
    machines of the first type. *)
Definition some_machines : t (list Z) := mk [Set_.mk 4 10; Set_.mk 2 0; Set_.mk 8 128] (Some counts).
Definition first_type : t (list Z) := mk [Set_.mk 4 15; Set_.mk 2 0; Set_.mk 8 0] (Some counts).

Lemma some_machines_valid : valid counts some_machines ∧ valid counts first_type.
Proof.
  split; (split; [done|split; [done|]]); intros [|[|[|i]]] s; simpl; try done;
    intros [= <-]; by apply set_ok_small.
Qed.

Lemma netdest_updates_witness :
  yields 64 counts (add 64 some_machines (MachineID.mk 1 1))
    ({[MachineID.mk 1 1]} ∪ members 64 some_machines) ∧
  yields 64 counts (AND 64 some_machines first_type)
    (members 64 some_machines ∩ members 64 first_type).
Proof.
  destruct some_machines_valid as [H1 H2].
  destruct (netdest_updates 64 counts some_machines first_type (MachineID.mk 1 1))
    as (_ & Ha & _ & _ & _ & _ & Hand & _); [done|done|done|]. by split.
Defined.

Lemma netdest_queries_witness :
  isElement 64 some_machines (MachineID.mk 2 7) = Ok true ∧
  count 64 some_machines = Ok 3 ∧
  isSubset some_machines first_type = Ok (bool_decide (members 64 some_machines ⊆ members 64 first_type)) ∧
  ∃ m, smallestElement 64 some_machines = Ok m ∧
    ∀ m', m' ∈ members 64 some_machines → le_machine m m'.
Proof.
  destruct some_machines_valid as [H1 H2].
  destruct (netdest_queries 64 counts some_machines first_type (MachineID.mk 2 7))
    as (E1 & E2 & _ & _ & _ & _ & E3 & E4); [done|done|done|].
  split; [by vm_compute|]. split; [by vm_compute|]. split; [exact E2|].
  destruct E4 as (m & ? & _ & ?); [by vm_compute|]. by exists m.
Defined.

End Example_.
