(* ===== verification/Topology.v ===== *)
(** mem/ruby/network/Topology.cc and BasicLink.hh: the graph of switches of a
    network, its all-pairs shortest paths for each virtual network, and the links
    with their routing tables. *)

From stdpp Require Import prelude list strings.
From Stdlib Require Import ZArith Lia.
From S2P Require Import Prelude NetDest.

Open Scope Z_scope.

(** ** [Matrix]: vectors of vectors of vectors of [int] *)

Module Matrix.

Definition t : Type := list (list (list Z)).

Definition new (a b c x : Z) : t :=
  replicate (Z.to_nat a) (replicate (Z.to_nat b) (replicate (Z.to_nat c) x)).

Definition get (M : t) (i j k : Z) : res Z :=
  let* m := vget M i in let* r := vget m j in vget r k.

Definition set (M : t) (i j k x : Z) : res t :=
  let* m := vget M i in
  let* r := vget m j in
  let* r := vset r k x in
  let* m := vset m j r in
  vset M i m.

End Matrix.

(** ** mem/ruby/network/Topology.cc *)

Module Topology.
Section Topology.
Context (NUMBER_BITS_PER_SET : Z) {R : Type} `{MachineTypes R}.

(** [BasicLink]; the object is known by [name]. *)
Record BasicLink := mkLink { name : nat; m_latency : Z; m_weight : Z; mVnets : list Z }.

(** The parameters of external and internal links. *)
Record BasicExtLink := mkExt {
  ext_link : BasicLink; ext_node_type : Z; ext_node_version : Z; int_node_router_id : Z }.
Record BasicIntLink := mkInt {
  int_link : BasicLink; src_node_router_id : Z; dst_node_router_id : Z;
  src_outport : string; dst_inport : string }.

Record LinkEntry := mkLinkEntry {
  link : BasicLink; src_outport_dirn : string; dst_inport_dirn : string }.

(** [std::map] in the order of its keys. *)
Definition LinkMap : Type := list ((Z * Z) * list LinkEntry).

Record t := mk {
  m_nodes : Z; m_number_of_switches : Z; m_vnets : Z; m_ext_link_vector : list BasicExtLink;
  m_int_link_vector : list BasicIntLink; m_link_map : LinkMap; m_ruby_system : R }.
Implicit Types tp : t.

Definition INFINITE_LATENCY : Z := 10000.

Definition pair_ltb (k k' : Z * Z) : bool := (k.1 <? k'.1) || ((k.1 =? k'.1) && (k.2 <? k'.2)).

Fixpoint map_find (k : Z * Z) (m : LinkMap) : option (list LinkEntry) :=
  match m with
  | [] => None
  | (k', l) :: m => if decide (k' = k) then Some l else map_find k m
  end.

Fixpoint map_insert (k : Z * Z) (l : list LinkEntry) (m : LinkMap) : LinkMap :=
  match m with
  | [] => [(k, l)]
  | (k', l') :: m' =>
      if decide (k' = k) then (k, l) :: m'
      else if pair_ltb k k' then (k, l) :: m
      else (k', l') :: map_insert k l m'
  end.

Definition with_map tp (m : LinkMap) : t :=
  mk (m_nodes tp) (m_number_of_switches tp) (m_vnets tp) (m_ext_link_vector tp)
     (m_int_link_vector tp) m (m_ruby_system tp).

Definition addLink tp (src dest : Z) (l : BasicLink) (src_dirn dst_dirn : string) : res t :=
  let bound := u32 (u32 (m_number_of_switches tp + m_nodes tp) + m_nodes tp) in
  assert! src <=? bound in
  assert! dest <=? bound in
  let link_entry := mkLinkEntry l src_dirn dst_dirn in
  Ok (with_map tp
        (map_insert (src, dest) (default [] (map_find (src, dest) (m_link_map tp)) ++ [link_entry])
           (m_link_map tp))).

Definition add_ext tp (e : BasicExtLink) : res t :=
  let machine_base_idx := MachineType_base_number (m_ruby_system tp) (ext_node_type e) in
  let ext_idx1 := i32 (machine_base_idx + ext_node_version e) in
  let ext_idx2 := i32 (ext_idx1 + m_nodes tp) in
  let int_idx := i32 (int_node_router_id e + 2 * m_nodes tp) in
  let* tp := addLink tp (u32 ext_idx1) (u32 int_idx) (ext_link e) "" "" in
  addLink tp (u32 int_idx) (u32 ext_idx2) (ext_link e) "" "".

(** The vector already holds the internal links when they are stored in it. *)
Definition add_int tp (e : BasicIntLink) : res t :=
  let tp := mk (m_nodes tp) (m_number_of_switches tp) (m_vnets tp) (m_ext_link_vector tp)
              (m_int_link_vector tp ++ [e]) (m_link_map tp) (m_ruby_system tp) in
  let src := i32 (src_node_router_id e + 2 * m_nodes tp) in
  let dst := i32 (dst_node_router_id e + 2 * m_nodes tp) in
  addLink tp (u32 src) (u32 dst) (int_link e) (src_outport e) (dst_inport e).

Fixpoint add_each {L} (f : t → L → res t) tp (ls : list L) : res t :=
  match ls with [] => Ok tp | l :: ls => let* tp := f tp l in add_each f tp ls end.

Definition new (num_routers num_vnets : Z) (ext_links : list BasicExtLink)
    (int_links : list BasicIntLink) (ruby_system : R) : res t :=
  let m_nodes := u32 (MachineType_base_number ruby_system MachineType_NUM) in
  let tp := mk m_nodes num_routers (i32 num_vnets) ext_links int_links [] ruby_system in
  assert! 1 <? m_nodes in
  let* tp := add_each add_ext tp ext_links in
  add_each add_int tp int_links.

(** *** Shortest paths *)

(** The matrices that [extend_shortest_path] gets by reference: distances by
    virtual network, source and destination; the others by source, destination and
    virtual network. *)
Record Paths := mkPaths {
  current_dist : Matrix.t; latencies : Matrix.t; inter_switches : Matrix.t }.

(** The loop over the intermediate switches of [i] and [j]: the minimum, the switch
    it was found at, and the matrix of counts. *)
Definition scan_switches (v i j nodes : Z) (D : Matrix.t) (minimum : Z) (inter : Matrix.t)
    : res (Z * Z * Matrix.t) :=
  loop_from (Z.to_nat nodes) 0
    (λ k s,
       let '(minimum, intermediate_switch, inter) := s in
       let* ik := Matrix.get D v i k in
       let* kj := Matrix.get D v k j in
       let* sum := chk_i32 (ik + kj) in
       let previous_minimum := minimum in
       let minimum := Z.min minimum sum in
       if negb (previous_minimum =? minimum) then
         let* a := Matrix.get inter i k v in
         let* b := Matrix.get inter k j v in
         let* n := chk_i32 (a + b) in
         let* n := chk_i32 (n + 1) in
         let* inter := Matrix.set inter i j v n in
         Ok (minimum, k, inter)
       else Ok (minimum, intermediate_switch, inter)) (minimum, -1, inter).

Definition relax (v nodes i j : Z) (s : Paths * bool) : res (Paths * bool) :=
  let '(p, change) := s in
  let* old := Matrix.get (current_dist p) v i j in
  let* r := scan_switches v i j nodes (current_dist p) old (inter_switches p) in
  let '(minimum, intermediate_switch, inter) := r in
  let p := mkPaths (current_dist p) (latencies p) inter in
  if negb (old =? minimum) then
    let* D := Matrix.set (current_dist p) v i j minimum in
    assert! 0 <=? intermediate_switch in
    let* row := vget (latencies p) i in
    assert! intermediate_switch <? zlen row in
    let* a := Matrix.get (latencies p) i intermediate_switch v in
    let* b := Matrix.get (latencies p) intermediate_switch j v in
    let* n := chk_i32 (a + b) in
    let* L := Matrix.set (latencies p) i j v n in
    Ok (mkPaths D L inter, true)
  else Ok (p, change).

(** One round over all pairs of switches. *)
Definition relax_all (v nodes : Z) (p : Paths) : res (Paths * bool) :=
  loop_from (Z.to_nat nodes) 0
    (λ i s, loop_from (Z.to_nat nodes) 0 (λ j s, relax v nodes i j s) s) (p, false).

(** [while (change)]. *)
Fixpoint relax_rounds (fuel : nat) (v nodes : Z) (p : Paths) : res Paths :=
  match fuel with
  | O => Err EFuel
  | S fuel =>
      let* r := relax_all v nodes p in
      let '(p, change) := r : Paths * bool in
      if change then relax_rounds fuel v nodes p else Ok p
  end.

Definition extend_shortest_path (fuel : nat) tp (p : Paths) : res Paths :=
  let* d0 := vget (current_dist p) 0 in
  let nodes := zlen d0 in
  loop_from (Z.to_nat (m_vnets tp)) 0 (λ v p, relax_rounds fuel v nodes p) p.

Definition shortest_path (fuel : nat) tp (weights lat inter : Matrix.t) : res Matrix.t :=
  let* p := extend_shortest_path fuel tp (mkPaths weights lat inter) in Ok (current_dist p).

Definition link_is_shortest_path_to_node (src next final : Z) (weights dist : Matrix.t) (vnet : Z)
    : res bool :=
  let* w := Matrix.get weights vnet src next in
  let* d := Matrix.get dist vnet next final in
  let* s := chk_i32 (w + d) in
  let* f := Matrix.get dist vnet src final in
  Ok (s =? f).

(** The loop over the machines of a type and the loop over the types; [d] numbers
    the machines of all types. *)
Definition shortest_path_to_node tp (src next : Z) (weights dist : Matrix.t) (vnet : Z)
    : res (NetDest.t R) :=
  let rs := m_ruby_system tp in
  let max_machines := MachineType_base_number rs MachineType_NUM in
  let* result := NetDest.new NUMBER_BITS_PER_SET rs in
  let* r := loop_from (Z.to_nat MachineType_NUM) 0
    (λ m s, loop_from (Z.to_nat (MachineType_base_count rs m)) 0
       (λ i s,
          let '(result, d) := s : NetDest.t R * Z in
          let* b := link_is_shortest_path_to_node src next (d + max_machines) weights dist vnet in
          let* result := (if b : bool
                          then NetDest.add NUMBER_BITS_PER_SET result (MachineID.mk m i)
                          else Ok result) in
          Ok (result, d + 1)) s) (result, 0) in
  Ok (fst r).

(** *** The links *)

(** The calls [net->makeExtInLink], [makeExtOutLink] and [makeInternalLink]. *)
Inductive Made :=
  | ExtIn (src dest : Z) (l : BasicLink) (routes : list (NetDest.t R))
  | ExtOut (src dest : Z) (l : BasicLink) (routes : list (NetDest.t R))
  | Internal (src dest : Z) (l : BasicLink) (routes : list (NetDest.t R))
      (src_dirn dst_dirn : string).

(** [routingMap.resize(m_vnets, m_ruby_system)]. *)
Definition empty_routes tp : res (list (NetDest.t R)) :=
  let* d := NetDest.new NUMBER_BITS_PER_SET (m_ruby_system tp) in
  Ok (replicate (Z.to_nat (m_vnets tp)) d).

(** The routes of one link: those of the virtual networks it carries. *)
Definition link_routes tp (l : BasicLink) (routing_table_entry : list (NetDest.t R))
    : res (list (NetDest.t R)) :=
  let* linkRoute := empty_routes tp in
  if zlen (mVnets l) =? 0 then Ok routing_table_entry
  else
    loop_from (length (mVnets l)) 0
      (λ v linkRoute,
         let* vnet := vget (mVnets l) v in
         let* r := vget routing_table_entry vnet in
         vset linkRoute vnet r) linkRoute.

(** The three cases of [makeLink]: what its assertions demand, and the call for one
    of the links. *)
Definition case_asserts tp (src dest : Z) : bool :=
  let n := u32 (2 * m_nodes tp) in
  if src <? m_nodes tp then true
  else if dest <? n then m_nodes tp <=? dest
  else (n <=? src) && (n <=? dest).

Definition make_call tp (src dest : Z) (e : LinkEntry) (routes : list (NetDest.t R)) : Made :=
  let n := u32 (2 * m_nodes tp) in
  if src <? m_nodes tp then ExtIn src (u32 (dest - n)) (link e) routes
  else if dest <? n then ExtOut (u32 (src - n)) (u32 (dest - m_nodes tp)) (link e) routes
  else Internal (u32 (src - n)) (u32 (dest - n)) (link e) routes (src_outport_dirn e) (dst_inport_dirn e).

Fixpoint make_each tp (src dest : Z) (routing_table_entry : list (NetDest.t R)) (es : list LinkEntry)
    (net : list Made) : res (list Made) :=
  match es with
  | [] => Ok net
  | e :: es =>
      let* routes := link_routes tp (link e) routing_table_entry in
      make_each tp src dest routing_table_entry es (net ++ [make_call tp src dest e routes])
  end.

(** [operator[]] enters an empty vector for a pair that has no links. *)
Definition makeLink tp (net : list Made) (src dest : Z) (routing_table_entry : list (NetDest.t R))
    : res (t * list Made) :=
  let n := u32 (2 * m_nodes tp) in
  assert! (n <=? src) || (n <=? dest) in
  assert! case_asserts tp src dest in
  let links := default [] (map_find (src, dest) (m_link_map tp)) in
  let* net := make_each tp src dest routing_table_entry links net in
  Ok (with_map tp (map_insert (src, dest) links (m_link_map tp)), net).

Definition max_switch_id (m : LinkMap) : Z :=
  foldl (λ x e, Z.max (Z.max x e.1.1) e.1.2) 0 m.

(** One virtual network of a link: weight and latency, and that it is done. *)
Definition fill_vnet (l : BasicLink) (src dst vnet : Z) (s : Matrix.t * Matrix.t * list bool)
    : res (Matrix.t * Matrix.t * list bool) :=
  let '(w, lat, vnet_done) := s in
  let* done := vget vnet_done vnet in
  let* _ := require (negb done) EFatal in
  let* lat := Matrix.set lat src dst vnet (i32 (m_latency l)) in
  let* w := Matrix.set w vnet src dst (m_weight l) in
  let* vnet_done := vset vnet_done vnet true in
  Ok (w, lat, vnet_done).

Definition fill_link tp (src dst : Z) (l : BasicLink) (s : Matrix.t * Matrix.t * list bool)
    : res (Matrix.t * Matrix.t * list bool) :=
  if zlen (mVnets l) =? 0
  then loop_from (Z.to_nat (m_vnets tp)) 0 (λ v s, fill_vnet l src dst v s) s
  else loop_from (length (mVnets l)) 0
         (λ v s, let* vnet := vget (mVnets l) v in
                 let* _ := require (vnet <? m_vnets tp) EFatal in
                 fill_vnet l src dst vnet s) s.

Definition fill_group tp (g : (Z * Z) * list LinkEntry) (s : Matrix.t * Matrix.t)
    : res (Matrix.t * Matrix.t) :=
  let '((src, dst), link_entries) := g in
  let '(w, lat) := s in
  let vnet_done := replicate (Z.to_nat (m_vnets tp)) false in
  let* r := loop_from (length link_entries) 0
    (λ l s, let* e := vget link_entries l in fill_link tp src dst (link e) s) (w, lat, vnet_done) in
  let '(w, lat, _) := r : Matrix.t * Matrix.t * list bool in Ok (w, lat).

Fixpoint fill_weights tp (m : LinkMap) (s : Matrix.t * Matrix.t) : res (Matrix.t * Matrix.t) :=
  match m with [] => Ok s | g :: m => let* s := fill_group tp g s in fill_weights tp m s end.

(** The weights and latencies of the direct links: infinite and -1 without one,
    and weight 0 from a switch to itself. *)
Definition direct_weights tp : res (Matrix.t * Matrix.t) :=
  let n := i32 (max_switch_id (m_link_map tp) + 1) in
  let w := Matrix.new (m_vnets tp) n n INFINITE_LATENCY in
  let lat := Matrix.new n n (m_vnets tp) (-1) in
  let* w0 := vget w 0 in
  let* w := loop_from (length w0) 0
    (λ i w, loop_from (Z.to_nat (m_vnets tp)) 0 (λ v w, Matrix.set w v i i 0) w) w in
  fill_weights tp (m_link_map tp) (w, lat).

(** The routes of the links from [i] to [j], and whether there are any. *)
Definition routing_map tp (w dist : Matrix.t) (i j : Z) : res (list (NetDest.t R) * bool) :=
  let* routingMap := empty_routes tp in
  loop_from (Z.to_nat (m_vnets tp)) 0
    (λ v s,
       let '(routingMap, realLink) := s : list (NetDest.t R) * bool in
       let* weight := Matrix.get w v i j in
       if (0 <? weight) && negb (weight =? INFINITE_LATENCY) then
         let* d := shortest_path_to_node tp i j w dist v in
         let* routingMap := vset routingMap v d in
         Ok (routingMap, true)
       else Ok (routingMap, realLink)) (routingMap, false).

Definition createLinks (fuel : nat) tp : res (t * list Made) :=
  let n := i32 (max_switch_id (m_link_map tp) + 1) in
  let* wl := direct_weights tp in
  let '(w, lat) := wl : Matrix.t * Matrix.t in
  let* dist := shortest_path fuel tp w lat (Matrix.new n n (m_vnets tp) 0) in
  let* w0 := vget w 0 in
  loop_from (length w0) 0
    (λ i s,
       let* row := vget w0 i in
       loop_from (length row) 0
         (λ j s,
            let '(tp, net) := s : t * list Made in
            let* r := routing_map tp w dist i j in
            let '(routingMap, realLink) := r : list (NetDest.t R) * bool in
            if realLink then makeLink tp net i j routingMap else Ok (tp, net)) s) (tp, []).

End Topology.
End Topology.
