(* ===== verification/TopologySpec.v ===== *)
(** Theorems about Topology.cc: the distances are those of the shortest paths, the
    relaxation ends, and the routing tables take every message to its destination. *)

From stdpp Require Import prelude gmap list sorting strings.
From Stdlib Require Import ZArith Lia.
From S2P Require Import Prelude NetDest NetDestSpec Topology.

Open Scope Z_scope.

(** ** Matrices *)

Section Matrices.
Implicit Types M : Matrix.t.

Definition shape (a b c : Z) M : Prop :=
  zlen M = a ∧ Forall (λ m, zlen m = b ∧ Forall (λ r : list Z, zlen r = c) m) M.

Definition entry M (i j k : Z) : Z := match Matrix.get M i j k with Ok x => x | Err _ => 0 end.

Lemma shape_rows a b c M i : shape a b c M → 0 ≤ i < a →
  ∃ m, vget M i = Ok m ∧ zlen m = b ∧ Forall (λ r : list Z, zlen r = c) m.
Proof.
  intros [Hl Hall] Hi. destruct (vget_inbounds M i) as (m & E & Em); [lia|]. exists m.
  split; [done|]. by eapply Forall_lookup_1 in Hall.
Qed.

Lemma entry_get a b c M i j k : shape a b c M → 0 ≤ i < a → 0 ≤ j < b → 0 ≤ k < c →
  Matrix.get M i j k = Ok (entry M i j k).
Proof.
  intros Hs Hi Hj Hk. unfold entry. destruct (shape_rows _ _ _ _ _ Hs Hi) as (m & Em & Hm & Hr).
  destruct (vget_inbounds m j) as (r & Er & Hlr); [lia|]. eapply Forall_lookup_1 in Hr; [|done].
  destruct (vget_inbounds r k) as (x & Ex & _); [lia|]. unfold Matrix.get. rewrite Em. simpl. rewrite Er. simpl.
  by rewrite Ex.
Qed.

Lemma new_shape a b c x : 0 ≤ a → 0 ≤ b → 0 ≤ c → shape a b c (Matrix.new a b c x).
Proof.
  intros. unfold Matrix.new. split; [rewrite length_replicate; lia|]. apply Forall_replicate.
  split; [rewrite length_replicate; lia|]. apply Forall_replicate. rewrite length_replicate. lia.
Qed.

Lemma entry_new a b c x i j k : 0 ≤ i < a → 0 ≤ j < b → 0 ≤ k < c → entry (Matrix.new a b c x) i j k = x.
Proof.
  intros. unfold entry, Matrix.get, Matrix.new.
  assert (∀ {A} n (y : A) l, 0 ≤ l < n → vget (replicate (Z.to_nat n) y) l = Ok y) as Hv.
  { intros A n y l Hl. apply vget_Ok. split; [lia|]. apply lookup_replicate. split; [done|lia]. }
  by rewrite !Hv by done; simpl; rewrite !Hv by done; simpl; rewrite !Hv by done.
Qed.

Lemma entry_set a b c M i j k x : shape a b c M → 0 ≤ i < a → 0 ≤ j < b → 0 ≤ k < c →
  ∃ M', Matrix.set M i j k x = Ok M' ∧ shape a b c M' ∧
    ∀ i' j' k', entry M' i' j' k' = if decide (i' = i ∧ j' = j ∧ k' = k) then x else entry M i' j' k'.
Proof.
  intros Hs Hi Hj Hk. destruct (shape_rows _ _ _ _ _ Hs Hi) as (m & Em & Hm & Hr).
  destruct (vget_inbounds m j) as (r & Er & Hlr); [lia|]. pose proof Hr as Hr0. eapply Forall_lookup_1 in Hr0; [|done].
  destruct Hs as [Hl Hall]. unfold Matrix.set. rewrite Em. simpl. rewrite Er. simpl.
  destruct (vset r k x) as [r'|] eqn:Er'; [|rewrite vset_inbounds in Er' by lia; done]. simpl.
  destruct (vset m j r') as [m'|] eqn:Em'; [|rewrite vset_inbounds in Em' by lia; done]. simpl.
  destruct (vset M i m') as [M'|] eqn:EM'; [|rewrite vset_inbounds in EM' by lia; done].
  exists M'. split; [done|]. pose proof (vset_length _ _ _ _ Er'). pose proof (vset_length _ _ _ _ Em').
  pose proof (vset_length _ _ _ _ EM'). split.
  { split; [lia|]. rewrite vset_inbounds in EM' by lia. injection EM' as <-. apply Forall_insert; [done|].
    split; [lia|]. rewrite vset_inbounds in Em' by lia. injection Em' as <-. apply Forall_insert; [done|lia]. }
  intros i' j' k'. unfold entry, Matrix.get. destruct (decide (i' = i)) as [->|Hi'].
  - rewrite (vget_vset_eq _ _ _ _ EM'), Em. simpl. destruct (decide (j' = j)) as [->|Hj'].
    + rewrite (vget_vset_eq _ _ _ _ Em'), Er. simpl. destruct (decide (k' = k)) as [->|Hk'].
      * rewrite (vget_vset_eq _ _ _ _ Er'). by rewrite decide_True.
      * rewrite (vget_vset_ne _ _ _ _ _ Er') by done. rewrite decide_False; [done|tauto].
    + rewrite (vget_vset_ne _ _ _ _ _ Em') by done. rewrite decide_False; [done|tauto].
  - rewrite (vget_vset_ne _ _ _ _ _ EM') by done. rewrite decide_False; [done|tauto].
Qed.

End Matrices.

(** ** Walks *)

(** [walk W n i j w]: a walk from switch [i] to [j] among [n] switches, whose steps
    have weights that sum to [w]. *)
Inductive walk (W : Z → Z → Z) (n : Z) (i : Z) : Z → Z → Prop :=
  | walk_nil : walk W n i i 0
  | walk_snoc k j w : walk W n i k w → 0 ≤ j < n → walk W n i j (w + W k j).

Lemma walk_app W n i k j w w' : walk W n i k w → walk W n k j w' → walk W n i j (w + w').
Proof.
  intros Hw Hw'. induction Hw' as [|k' j w' Hw' IH Hj]; [by rewrite Z.add_0_r|].
  rewrite Z.add_assoc. by constructor.
Qed.

Definition sum (f : Z → Z) (l : list Z) : Z := foldr (λ x a, f x + a) 0 l.

Lemma sum_le f g l : (∀ x, x ∈ l → f x ≤ g x) → sum f l ≤ sum g l.
Proof. induction l as [|x l IH]; intros Hle; simpl; [done|]. pose proof (Hle x). pose proof (IH ltac:(set_solver)). set_solver by lia. Qed.

Lemma sum_lt f g l x : (∀ x, x ∈ l → f x ≤ g x) → x ∈ l → f x < g x → sum f l < sum g l.
Proof.
  intros Hle Hx Hlt. induction l as [|y l IH]; simpl; [set_solver|].
  pose proof (Hle y ltac:(set_solver)). apply elem_of_cons in Hx as [->|Hx].
  - pose proof (sum_le f g l ltac:(set_solver)). lia.
  - specialize (IH ltac:(set_solver) Hx). lia.
Qed.

Lemma sum_const c l : sum (λ _, c) l = c * zlen l.
Proof. induction l as [|x l IH]; simpl; [lia|]. rewrite IH. lia. Qed.

(** ** Relaxation of one virtual network *)

Section Relax.
Import Topology.
Context (n nv v : Z) (W : Z → Z → Z) (Hn : 0 ≤ n) (Hv : 0 ≤ v < nv).
Implicit Types p : Paths.

(** The latency of one link, so that the sums fit in an [int]. *)
Definition LMAX : Z := 200000.

Definition dist p (i j : Z) : Z := entry (current_dist p) v i j.

Definition shapes p : Prop :=
  shape nv n n (current_dist p) ∧ shape n n nv (latencies p) ∧ shape n n nv (inter_switches p).

(** Distances are the weights of walks no longer than the direct link; latencies
    and counts are bounded by them. *)
Definition pair_ok p (i j : Z) : Prop :=
  walk W n i j (dist p i j) ∧ dist p i j ≤ W i j ∧
  if decide (i = j) then dist p i j = 0 ∧ entry (inter_switches p) i j v = 0
  else 1 ≤ dist p i j ≤ INFINITE_LATENCY ∧
    - dist p i j ≤ entry (latencies p) i j v ≤ LMAX * dist p i j ∧
    0 ≤ entry (inter_switches p) i j v < dist p i j.

Definition paths_ok p : Prop := shapes p ∧ ∀ i j, 0 ≤ i < n → 0 ≤ j < n → pair_ok p i j.

Lemma dist_bounds p i j : paths_ok p → 0 ≤ i < n → 0 ≤ j < n →
  0 ≤ dist p i j ≤ INFINITE_LATENCY ∧ (i = j → dist p i j = 0) ∧ (dist p i j = 0 → i = j) ∧
  0 ≤ entry (inter_switches p) i j v ≤ dist p i j.
Proof.
  intros [_ Hp] Hi Hj. destruct (Hp i j Hi Hj) as (_ & _ & Hd). unfold INFINITE_LATENCY in *.
  case_decide; [lia|]. destruct Hd as (? & _ & ?). split; [lia|]. split; [done|]. lia.
Qed.

(** What the scan over the switches before [k] has found. *)
Definition scanned p (i j k : Z) (s : Z * Z * Matrix.t) : Prop :=
  let '(minimum, k', inter) := s in
  minimum ≤ dist p i j ∧ (∀ x, 0 ≤ x < k → minimum ≤ dist p i x + dist p x j) ∧
  ((minimum = dist p i j ∧ inter = inter_switches p) ∨
   (minimum < dist p i j ∧ 0 ≤ k' < n ∧ k' ≠ i ∧ k' ≠ j ∧ i ≠ j ∧ minimum = dist p i k' + dist p k' j ∧
    shape n n nv inter ∧ ∀ a b u, entry inter a b u =
      if decide (a = i ∧ b = j ∧ u = v)
      then entry (inter_switches p) i k' v + entry (inter_switches p) k' j v + 1
      else entry (inter_switches p) a b u)).

Lemma scan_switches_spec p i j : paths_ok p → 0 ≤ i < n → 0 ≤ j < n →
  ∃ s, scan_switches v i j n (current_dist p) (dist p i j) (inter_switches p) = Ok s ∧ scanned p i j n s.
Proof.
  intros Hp Hi Hj. pose proof Hp as [(HD & HL & HI) _]. unfold scan_switches.
  destruct (loop_from_inv (scanned p i j) (Z.to_nat n) 0
    (λ k s,
       let '(minimum, intermediate_switch, inter) := s in
       let* ik := Matrix.get (current_dist p) v i k in
       let* kj := Matrix.get (current_dist p) v k j in
       let* sum := chk_i32 (ik + kj) in
       let previous_minimum := minimum in
       let minimum := Z.min minimum sum in
       if negb (previous_minimum =? minimum) then
         let* a := Matrix.get inter i k v in
         let* b := Matrix.get inter k j v in
         let* n := chk_i32 (a + b) in
         let* n := chk_i32 (n + 1) in
         let* inter := Matrix.set inter i j v n in
         Ok (minimum, k, inter)
       else Ok (minimum, intermediate_switch, inter)) (dist p i j, -1, inter_switches p)) as (s & E & Hs).
  - split; [lia|]. split; [lia|by left].
  - intros k [[mn k'] inter] Hk (Hmn & Hall & Hor). rewrite Z2Nat.id in Hk by lia.
    assert (0 ≤ k < n) as Hkn by lia.
    destruct (dist_bounds p i k Hp Hi Hkn) as (Bik & Eik & _ & Iik).
    destruct (dist_bounds p k j Hp Hkn Hj) as (Bkj & Ekj & _ & Ikj).
    destruct (dist_bounds p i j Hp Hi Hj) as (Bij & Eij & _ & _). unfold INFINITE_LATENCY in *.
    rewrite (entry_get _ _ _ _ _ _ _ HD Hv Hi Hkn), (entry_get _ _ _ _ _ _ _ HD Hv Hkn Hj). simpl.
    change (entry (current_dist p) v i k) with (dist p i k). change (entry (current_dist p) v k j) with (dist p k j).
    rewrite chk_i32_Ok by lia. simpl. destruct (Z.eqb_spec mn (mn `min` (dist p i k + dist p k j))) as [Heq|Hne]; simpl.
    + eexists. split; [done|]. rewrite <- Heq. split; [done|]. split; [|done].
      intros x Hx. destruct (decide (x = k)) as [->|]; [lia|apply Hall; lia].
    + assert (k ≠ i ∧ k ≠ j ∧ i ≠ j) as (Hki & Hkj & Hij) by (split_and!; intros ->; lia).
      assert (shape n n nv inter ∧ ∀ a b u, (a, b) ≠ (i, j) → entry inter a b u = entry (inter_switches p) a b u) as [Hsh Hold].
      { destruct Hor as [[_ ->]|(_ & _ & _ & _ & _ & _ & Hsh & He)]; [done|]. split; [done|].
        intros a b u Hab. rewrite He, decide_False; [done|]. by intros (-> & -> & _). }
      rewrite (entry_get _ _ _ _ _ _ _ Hsh Hi Hkn Hv), (entry_get _ _ _ _ _ _ _ Hsh Hkn Hj Hv).
      rewrite !Hold by congruence. simpl. rewrite chk_i32_Ok by lia. simpl. rewrite chk_i32_Ok by lia. simpl.
      destruct (entry_set _ _ _ _ i j v (entry (inter_switches p) i k v + entry (inter_switches p) k j v + 1) Hsh Hi Hj Hv)
        as (inter' & -> & Hsh' & He'). simpl. eexists. split; [done|]. split; [lia|].
      split; [intros x Hx; destruct (decide (x = k)) as [->|]; [lia|specialize (Hall x); lia]|].
      right. split; [lia|]. split; [done|]. split; [done|]. split; [done|]. split; [done|]. split; [lia|].
      split; [done|]. intros a b u. rewrite He'. case_decide; [done|].
      destruct (decide ((a, b) = (i, j))) as [[= -> ->]|]; [|by apply Hold].
      destruct Hor as [[_ ->]|(_ & _ & _ & _ & _ & _ & _ & He)]; [done|]. rewrite He, decide_False; [done|tauto].
  - exists s. split; [done|]. by rewrite Z2Nat.id, Z.add_0_l in Hs by lia.
Qed.

(** The other virtual networks are left alone. *)
Definition others_same p p' : Prop :=
  ∀ u a b, u ≠ v → entry (current_dist p') u a b = entry (current_dist p) u a b ∧
    entry (latencies p') a b u = entry (latencies p) a b u ∧
    entry (inter_switches p') a b u = entry (inter_switches p) a b u.

Lemma others_same_trans p p1 p2 : others_same p p1 → others_same p1 p2 → others_same p p2.
Proof.
  intros H1 H2 u a b Hu. destruct (H1 u a b Hu) as (<- & <- & <-). by apply H2.
Qed.

(** A pair is left as it is when no switch improves it, or gets a smaller distance. *)
Lemma relax_spec p c i j : paths_ok p → 0 ≤ i < n → 0 ≤ j < n →
  ∃ p' c', relax v n i j (p, c) = Ok (p', c') ∧ paths_ok p' ∧ others_same p p' ∧
    ((p' = p ∧ c' = c ∧ ∀ k, 0 ≤ k < n → dist p i j ≤ dist p i k + dist p k j) ∨
     (c' = true ∧ dist p' i j < dist p i j ∧ ∀ a b, dist p' a b ≤ dist p a b)).
Proof.
  intros Hp Hi Hj. pose proof Hp as [(HD & HL & HI) Hall]. unfold relax.
  rewrite (entry_get _ _ _ _ _ _ _ HD Hv Hi Hj). simpl. change (entry (current_dist p) v i j) with (dist p i j).
  destruct (scan_switches_spec p i j Hp Hi Hj) as ([[mn k] inter] & -> & Hmn & Hmin & Hor). simpl.
  destruct Hor as [[-> ->]|(Hlt & Hk & Hki & Hkj & Hij & Hsum & Hsh & He)].
  { rewrite Z.eqb_refl. simpl. exists p, c. split; [by destruct p|]. split; [done|]. split; [done|]. by left. }
  destruct (Z.eqb_spec (dist p i j) mn); [lia|]. simpl.
  destruct (entry_set _ _ _ _ v i j mn HD Hv Hi Hj) as (D' & -> & HD' & ED'). simpl.
  rewrite (proj2 (Z.leb_le _ _)) by lia. simpl.
  destruct (shape_rows _ _ _ _ _ HL Hi) as (row & -> & Hrow & _). simpl. rewrite Hrow, (proj2 (Z.ltb_lt _ _)) by lia. simpl.
  rewrite (entry_get _ _ _ _ _ _ _ HL Hi Hk Hv), (entry_get _ _ _ _ _ _ _ HL Hk Hj Hv). simpl.
  destruct (Hall i k Hi Hk) as (Wik & _ & Pik), (Hall k j Hk Hj) as (Wkj & _ & Pkj), (Hall i j Hi Hj) as (_ & Hle & Pij).
  rewrite decide_False in Pik by done. rewrite decide_False in Pkj by done. rewrite decide_False in Pij by done. unfold INFINITE_LATENCY, LMAX in *.
  destruct Pik as (Bik & Lik & Iik), Pkj as (Bkj & Lkj & Ikj). rewrite chk_i32_Ok by lia. simpl.
  destruct (entry_set _ _ _ _ i j v (entry (latencies p) i k v + entry (latencies p) k j v) HL Hi Hj Hv)
    as (L' & -> & HL' & EL'). simpl.
  eexists _, true. split; [done|]. set (p' := mkPaths D' L' inter).
  assert (∀ a b, dist p' a b = if decide (a = i ∧ b = j) then mn else dist p a b) as Hdist.
  { intros a b. unfold dist. simpl. rewrite ED'. apply decide_ext. tauto. }
  split; [|split].
  - split; [by split|]. intros a b Ha Hb. unfold pair_ok. rewrite Hdist. simpl. rewrite He, EL'.
    destruct (decide (a = i ∧ b = j)) as [[-> ->]|Hne].
    + rewrite (decide_False (P := i = j)) by done. rewrite !decide_True by done. unfold INFINITE_LATENCY, LMAX.
      split; [rewrite Hsum; by eapply walk_app|]. lia.
    + rewrite !(decide_False (P := a = i ∧ b = j ∧ v = v)) by tauto. by apply Hall.
  - intros u a b Hu. simpl. by rewrite ED', EL', He, !decide_False by tauto.
  - right. split; [done|]. split; [by rewrite Hdist, decide_True by done|].
    intros a b. rewrite Hdist. destruct (decide (a = i ∧ b = j)) as [[-> ->]|]; lia.
Qed.

Definition total p : Z := sum (λ i, sum (dist p i) (seqZ 0 n)) (seqZ 0 n).

Lemma total_lt p p' i j : 0 ≤ i < n → 0 ≤ j < n → (∀ a b, dist p' a b ≤ dist p a b) →
  dist p' i j < dist p i j → total p' < total p.
Proof.
  intros Hi Hj Hle Hlt. apply (sum_lt _ _ _ i); [|by apply elem_of_seqZ; lia|].
  - intros a _. apply sum_le. auto.
  - apply (sum_lt _ _ _ j); [auto|by apply elem_of_seqZ; lia|done].
Qed.

Lemma total_bounds p : paths_ok p → 0 ≤ total p ≤ INFINITE_LATENCY * n * n.
Proof.
  intros Hp. unfold total. assert (zlen (seqZ 0 n) = n) as Hlen by (rewrite length_seqZ; lia).
  assert (∀ c i, (∀ x, x ∈ seqZ 0 n → 0 ≤ i x ≤ c) → 0 ≤ sum i (seqZ 0 n) ≤ c * n) as Hs.
  { intros c f Hf. pose proof (sum_const c (seqZ 0 n)) as Ec. pose proof (sum_const 0 (seqZ 0 n)) as E0.
    rewrite Hlen in Ec, E0. rewrite <- Ec. split; [|apply sum_le; intros; by apply Hf].
    etrans; [|apply (sum_le (λ _, 0)); intros; by apply Hf]. by rewrite E0. }
  apply Hs. intros a Ha%elem_of_seqZ. apply Hs. intros b Hb%elem_of_seqZ. apply dist_bounds; [done|lia|lia].
Qed.

(** The state of a round that started with [p0], before pair [(i, j)]. *)
Definition round_ok p0 (i j : Z) (s : Paths * bool) : Prop :=
  paths_ok s.1 ∧ others_same p0 s.1 ∧
  if s.2 then total s.1 < total p0
  else s.1 = p0 ∧ ∀ a b k, 0 ≤ a < n → 0 ≤ b < n → 0 ≤ k < n → a < i ∨ (a = i ∧ b < j) →
    dist p0 a b ≤ dist p0 a k + dist p0 k b.

Lemma relax_all_spec p : paths_ok p → ∃ s, relax_all v n p = Ok s ∧ round_ok p n 0 s.
Proof.
  intros Hp. unfold relax_all.
  destruct (loop_from_inv (λ i, round_ok p i 0) (Z.to_nat n) 0
    (λ i s, loop_from (Z.to_nat n) 0 (λ j s, relax v n i j s) s) (p, false)) as (s & -> & Hs).
  - split; [done|]. split; [done|]. split; [done|]. intros; lia.
  - intros i s Hi Hs. rewrite Z2Nat.id in Hi by lia.
    destruct (loop_from_inv (λ j, round_ok p i j) (Z.to_nat n) 0 (λ j s, relax v n i j s) s Hs) as (s' & -> & Hs').
    + intros j [p1 c] Hj (Hok & Hsame & Hc). rewrite Z2Nat.id in Hj by lia. simpl in *.
      destruct (relax_spec p1 c i j Hok) as (p2 & c2 & E2 & Hok2 & Hsame2 & Hor); [lia|lia|].
      exists (p2, c2). split; [exact E2|]. split; [done|]. split; [by eapply others_same_trans|]. simpl.
      destruct Hor as [(-> & -> & Htri)|(-> & Hlt & Hle)].
      * destruct c; [done|]. destruct Hc as [-> Hc]. split; [done|]. intros a b k Ha Hb Hk Hab.
        destruct (decide (a = i ∧ b = j)) as [[-> ->]|]; [by apply Htri|]. apply Hc; [done..|]. lia.
      * assert (total p2 < total p1) by (eapply (total_lt _ _ i j); [lia|lia|done|done]).
        destruct c; [lia|]. destruct Hc as [-> _]. lia.
    + exists s'. split; [done|]. destruct Hs' as (? & ? & Hc). split; [done|]. split; [done|].
      destruct s'.2; [done|]. destruct Hc as [? Hc]. split; [done|]. intros a b k Ha Hb Hk Hab.
      apply Hc; [done..|]. lia.
  - exists s. split; [done|]. by rewrite Z2Nat.id, Z.add_0_l in Hs by lia.
Qed.

(** Enough rounds reach distances that no switch improves. *)
Lemma relax_rounds_spec fuel p : paths_ok p → total p < Z.of_nat fuel →
  ∃ p', relax_rounds fuel v n p = Ok p' ∧ paths_ok p' ∧ others_same p p' ∧
    ∀ i j k, 0 ≤ i < n → 0 ≤ j < n → 0 ≤ k < n → dist p' i j ≤ dist p' i k + dist p' k j.
Proof.
  revert p. induction fuel as [|fuel IH]; intros p Hp Hf.
  { pose proof (total_bounds p Hp). lia. }
  cbn [relax_rounds]. destruct (relax_all_spec p Hp) as ([p1 c] & -> & Hok & Hsame & Hc). simpl in *.
  destruct c.
  - destruct (IH p1 Hok) as (p' & E & Hok' & Hsame' & Htri); [lia|]. exists p'. split; [done|]. split; [done|].
    split; [by eapply others_same_trans|done].
  - destruct Hc as [-> Hc]. exists p. split; [done|]. split; [done|]. split; [done|].
    intros i j k Hi Hj Hk. apply Hc; [done..|]. lia.
Qed.

(** No walk is shorter than distances that no switch improves. *)
Lemma walks_not_shorter p i j w : paths_ok p → 0 ≤ i < n →
  (∀ i j k, 0 ≤ i < n → 0 ≤ j < n → 0 ≤ k < n → dist p i j ≤ dist p i k + dist p k j) →
  walk W n i j w → 0 ≤ j < n ∧ dist p i j ≤ w.
Proof.
  intros Hp Hi Htri Hw. induction Hw as [|k j w Hw [Hk IH] Hj].
  - split; [done|]. destruct (dist_bounds p i i Hp Hi Hi) as (_ & E & _). by rewrite E.
  - split; [done|]. destruct Hp as [_ Hp]. destruct (Hp k j Hk Hj) as (_ & ? & _).
    specialize (Htri i j k Hi Hj Hk). lia.
Qed.

End Relax.

(** ** All virtual networks *)

Section ShortestPaths.
Import Topology.
Context {R : Type} `{MachineTypes R}.
Context (n nv : Z) (Hn : 0 < n) (Hnv : 0 < nv).
Implicit Types (tp : t (R := R)) (p : Paths).

(** Direct links have weights from 1 to the infinite one and latencies that do not
    overflow when they are added up. *)
Definition weights_ok (w lat inter : Matrix.t) : Prop :=
  shape nv n n w ∧ shape n n nv lat ∧ shape n n nv inter ∧
  ∀ v i j, 0 ≤ v < nv → 0 ≤ i < n → 0 ≤ j < n →
    entry inter i j v = 0 ∧
    if decide (i = j) then entry w v i j = 0
    else 1 ≤ entry w v i j ≤ INFINITE_LATENCY ∧ -1 ≤ entry lat i j v ≤ LMAX.

Definition weight (w : Matrix.t) (v i j : Z) : Z := entry w v i j.

Definition is_distance (w : Matrix.t) (v i j d : Z) : Prop :=
  walk (weight w v) n i j d ∧ ∀ x, walk (weight w v) n i j x → d ≤ x.

Lemma weights_paths w lat inter v : weights_ok w lat inter → 0 ≤ v < nv →
  paths_ok n nv v (weight w v) (mkPaths w lat inter).
Proof.
  intros (Hw & Hl & Hi & Hall) Hv. split; [by split|]. intros i j Hi' Hj.
  destruct (Hall v i j Hv Hi' Hj) as [E0 Hij]. unfold pair_ok, dist, weight, LMAX, INFINITE_LATENCY in *. simpl.
  destruct (decide (i = j)) as [->|].
  - rewrite Hij. split; [constructor|]. done.
  - split; [|lia]. pose proof (walk_snoc (weight w v) n i i j 0 (walk_nil _ _ _)) as Hwalk.
    by apply Hwalk.
Qed.

Lemma extend_shortest_path_spec fuel tp w lat inter : weights_ok w lat inter → m_vnets tp = nv →
  INFINITE_LATENCY * n * n < Z.of_nat fuel →
  ∃ p, extend_shortest_path fuel tp (mkPaths w lat inter) = Ok p ∧
    ∀ v, 0 ≤ v < nv → paths_ok n nv v (weight w v) p ∧
      ∀ i j k, 0 ≤ i < n → 0 ≤ j < n → 0 ≤ k < n → dist v p i j ≤ dist v p i k + dist v p k j.
Proof.
  intros Hok Hvn Hf. unfold extend_shortest_path. pose proof Hok as (Hw & _). simpl.
  destruct (shape_rows _ _ _ _ 0 Hw) as (d0 & -> & Hd0 & _); [lia|]. simpl. rewrite Hd0, Hvn.
  destruct (loop_from_inv (λ u p, ∀ v, 0 ≤ v < nv → paths_ok n nv v (weight w v) p ∧ (v < u →
      ∀ i j k, 0 ≤ i < n → 0 ≤ j < n → 0 ≤ k < n → dist v p i j ≤ dist v p i k + dist v p k j))
    (Z.to_nat nv) 0 (λ v p, relax_rounds fuel v n p) (mkPaths w lat inter)) as (p & -> & Hp).
  - intros v Hv. split; [by apply weights_paths|lia].
  - intros u p Hu Hp. rewrite Z2Nat.id in Hu by lia. destruct (Hp u) as [Hpu _]; [lia|].
    destruct (relax_rounds_spec n nv u (weight w u) ltac:(lia) ltac:(lia) fuel p Hpu) as (p' & E & Hok' & Hsame & Htri).
    { pose proof (total_bounds n nv u (weight w u) ltac:(lia) p Hpu). lia. }
    exists p'. split; [exact E|]. intros v Hv. destruct (decide (v = u)) as [->|Hne]; [by split|].
    destruct (Hp v Hv) as [[(HD & HL & HI) Hpv] Htv]. pose proof Hok' as [Hshapes _].
    assert (∀ a b, dist v p' a b = dist v p a b) as Hd by (intros; by apply Hsame).
    split.
    + split; [done|]. intros i j Hi Hj. specialize (Hpv i j Hi Hj). unfold pair_ok in *. rewrite Hd.
      destruct (Hsame v i j Hne) as (_ & -> & ->). done.
    + intros Hlt i j k Hi Hj Hk. rewrite !Hd. apply Htv; lia.
  - exists p. split; [done|]. intros v Hv. destruct (Hp v Hv) as [? Ht]. split; [done|]. apply Ht. lia.
Qed.

(** C22. [shortest_path] computes shortest paths. For every virtual network and
    every two switches of a network whose direct links have weights from 1 to the
    infinite one, the distance computed is the weight of a walk, and no walk has a
    smaller one. The loops that repeat until nothing changes end: every round but
    the last makes some distance smaller, so no more rounds are needed than the
    infinite weight allows for all pairs of switches. *)
Theorem shortest_path_correct fuel tp w lat inter (Hok : weights_ok w lat inter) (Hvn : m_vnets tp = nv)
    (Hf : INFINITE_LATENCY * n * n < Z.of_nat fuel) :
  ∃ d, shortest_path fuel tp w lat inter = Ok d ∧ shape nv n n d ∧
    ∀ v i j, 0 ≤ v < nv → 0 ≤ i < n → 0 ≤ j < n → is_distance w v i j (entry d v i j).
Proof.
  destruct (extend_shortest_path_spec fuel tp w lat inter Hok Hvn Hf) as (p & E & Hp).
  exists (current_dist p). unfold shortest_path. rewrite E. split; [done|].
  split; [by destruct (Hp 0 ltac:(lia)) as [[(? & _) _] _]|].
  intros v i j Hv Hi Hj. destruct (Hp v Hv) as [Hpv Htri]. split; [by apply Hpv|].
  intros x Hx. by eapply (walks_not_shorter n nv v (weight w v)).
Qed.

End ShortestPaths.

(** ** Routing tables *)

(** The numbers of the machines: those of one type follow those of the types before. *)
Class MachineNumbers {R} `{MachineTypes R} (rs : R) : Prop :=
  base_numbers ty : 0 ≤ ty ≤ MachineType_NUM →
    MachineType_base_number rs ty = sum (MachineType_base_count rs) (seqZ 0 ty).

Section Routing.
Import Topology.
Context (N : Z) {R : Type} `{MachineTypes R} (rs : R) `{!MachineLaws N rs, !MachineNumbers rs}.
Context (n nv : Z) (Hn : 0 < n) (Hnv : 0 < nv).
Implicit Types (tp : t (R := R)) (m : MachineID.t).

Definition nodes : Z := MachineType_base_number rs MachineType_NUM.

(** The switch at which machine [m] gets its messages. *)
Definition out_switch m : Z :=
  nodes + MachineType_base_number rs (MachineID.type m) + MachineID.num m.

Lemma sum_app f l l' : sum f (l ++ l') = sum f l + sum f l'.
Proof. induction l as [|x l IH]; simpl; [done|]. rewrite IH. lia. Qed.

Lemma base_number_next ty : 0 ≤ ty < MachineType_NUM →
  MachineType_base_number rs (ty + 1) = MachineType_base_number rs ty + MachineType_base_count rs ty.
Proof.
  intros Hty. rewrite !base_numbers by lia. rewrite seqZ_app by lia. rewrite sum_app, (seqZ_cons (0 + ty) 1) by lia.
  simpl. rewrite Z.add_0_l. lia.
Qed.

Lemma base_number_mono ty ty' : 0 ≤ ty ≤ ty' → ty' ≤ MachineType_NUM →
  MachineType_base_number rs ty ≤ MachineType_base_number rs ty'.
Proof.
  intros [H0 Hle] Hle'. replace ty' with (ty + Z.of_nat (Z.to_nat (ty' - ty))) in * by lia.
  induction (Z.to_nat (ty' - ty)) as [|k IH]; [by rewrite Z.add_0_r|].
  rewrite Nat2Z.inj_succ, <- Z.add_1_r, Z.add_assoc, base_number_next by lia.
  pose proof (counts_fit (N := N) (rs := rs) (ty + Z.of_nat k)). specialize (IH ltac:(lia) ltac:(lia)). lia.
Qed.

Lemma out_switch_bounds m : machine rs m → nodes ≤ out_switch m < 2 * nodes.
Proof.
  intros [Ht Hm]. unfold out_switch. pose proof (base_number_next (MachineID.type m) Ht).
  pose proof (base_number_mono 0 (MachineID.type m) ltac:(lia) ltac:(lia)) as Hp. rewrite base_numbers in Hp by lia.
  assert (MachineType_base_number rs (MachineID.type m + 1) ≤ MachineType_base_number rs MachineType_NUM)
    by (apply base_number_mono; lia). unfold nodes in *.
  simpl in Hp. lia.
Qed.

(** Machine [m] comes before the [i]-th machine of type [ty]. *)
Definition before ty i m : Prop := MachineID.type m < ty ∨ (MachineID.type m = ty ∧ MachineID.num m < i).

Lemma before_next ty i m : before ty (i + 1) m ↔ before ty i m ∨ m = MachineID.mk ty i.
Proof.
  destruct m as [ty' i']. unfold before. simpl. split.
  - intros [?|[-> ?]]; [by left; left|]. destruct (decide (i' = i)) as [->|]; [by right|left; right; lia].
  - intros [[?|[-> ?]]|[= -> ->]]; lia.
Qed.

Lemma before_type ty m : machine rs m → before ty (MachineType_base_count rs ty) m ↔ before (ty + 1) 0 m.
Proof.
  intros [_ Hm]. unfold before. split; [lia|]. intros [?|?]; [|lia].
  destruct (decide (MachineID.type m = ty)) as [<-|]; [right; lia|left; lia].
Qed.

Section OneLink.
Context (src next : Z) (w dist : Matrix.t) (v : Z).
Context (Hw : shape nv n n w) (Hd : shape nv n n dist) (Hnodes : 2 * nodes ≤ n).
Context (Hv : 0 ≤ v < nv) (Hs : 0 ≤ src < n) (Hx : 0 ≤ next < n).
Context (Hbw : 0 ≤ entry w v src next ≤ INFINITE_LATENCY).
Context (Hbd : ∀ j, 0 ≤ j < n → 0 ≤ entry dist v next j ≤ INFINITE_LATENCY).

(** The link from [src] to [next] is on a shortest path to machine [m]. *)
Definition on_path m : bool :=
  entry w v src next + entry dist v next (out_switch m) =? entry dist v src (out_switch m).

(** The loops before the [i]-th machine of type [ty]. *)
Definition routed_upto ty i (s : NetDest.t R * Z) : Prop :=
  valid rs s.1 ∧ s.2 = MachineType_base_number rs ty + i ∧
  ∀ m, bit s.1 m = true ↔ machine rs m ∧ before ty i m ∧ on_path m = true.

Lemma on_path_link m : machine rs m →
  link_is_shortest_path_to_node src next (out_switch m) w dist v = Ok (on_path m).
Proof.
  intros Hm. pose proof (out_switch_bounds _ Hm) as Ho. assert (0 ≤ out_switch m < n) as Hon by lia.
  pose proof (Hbd _ Hon). unfold INFINITE_LATENCY in *. unfold link_is_shortest_path_to_node.
  rewrite (entry_get _ _ _ _ _ _ _ Hw Hv Hs Hx), (entry_get _ _ _ _ _ _ _ Hd Hv Hx Hon). simpl.
  rewrite chk_i32_Ok by lia. simpl. by rewrite (entry_get _ _ _ _ _ _ _ Hd Hv Hs Hon).
Qed.

Lemma route_machine ty i s : 0 ≤ ty < MachineType_NUM → 0 ≤ i < MachineType_base_count rs ty →
  routed_upto ty i s →
  ∃ s', (let '(result, d) := s : NetDest.t R * Z in
         let* b := link_is_shortest_path_to_node src next (d + nodes) w dist v in
         let* result := (if b : bool then NetDest.add N result (MachineID.mk ty i) else Ok result) in
         Ok (result, d + 1)) = Ok s' ∧ routed_upto ty (i + 1) s'.
Proof.
  intros Hty Hi. destruct s as [r k]. intros (Hr & Hk & Hb). simpl in Hr, Hk, Hb.
  assert (machine rs (MachineID.mk ty i)) as Hm by by split.
  replace (k + nodes) with (out_switch (MachineID.mk ty i)) by (unfold out_switch; simpl; lia).
  rewrite (on_path_link _ Hm). simpl. destruct (on_path (MachineID.mk ty i)) eqn:Eg.
  - destruct (add_ok N rs r _ Hr Hm) as (r' & -> & Hr' & Hb'). simpl. eexists. split; [done|].
    split; [done|]. split; [simpl; lia|]. intros m. simpl. rewrite Hb', before_next. case_decide; [by subst m; naive_solver|].
    rewrite Hb. naive_solver.
  - eexists. split; [done|]. split; [done|]. split; [simpl; lia|]. intros m. simpl. rewrite Hb, before_next.
    naive_solver congruence.
Qed.

Lemma shortest_path_to_node_spec tp : m_ruby_system tp = rs →
  ∃ d, shortest_path_to_node N tp src next w dist v = Ok d ∧ valid rs d ∧
    ∀ m, m ∈ members N d ↔ machine rs m ∧ on_path m = true.
Proof.
  intros Hrs. unfold shortest_path_to_node. rewrite Hrs. pose proof (num_types (N := N) (rs := rs)) as HNUM.
  destruct (new_ok N rs) as (d0 & -> & Hd0 & Hb0). simpl. change (MachineType_base_number rs MachineType_NUM) with nodes.
  match goal with |- context [loop_from ?k 0 ?f (d0, 0)] =>
    destruct (loop_from_inv (λ ty, routed_upto ty 0) k 0 f (d0, 0)) as ([d k'] & -> & Hdv & _ & Hbits) end.
  - split; [done|]. split; [simpl; by rewrite base_numbers by lia|].
    intros m. simpl. rewrite Hb0. split; [done|]. intros ([Ht Hm] & [?|[? ?]] & _); lia.
  - intros ty s Hty Hup. rewrite Z2Nat.id in Hty by lia.
    assert (0 ≤ MachineType_base_count rs ty ≤ N) as Hc by (apply counts_fit; lia).
    match goal with |- context [loop_from ?k 0 ?f s] =>
      destruct (loop_from_inv (λ i, routed_upto ty i) k 0 f s Hup) as (s' & -> & Hs') end.
    { intros i s1 Hi Hs1. apply route_machine; [lia|lia|done]. }
    exists s'. split; [done|]. rewrite Z2Nat.id, Z.add_0_l in Hs' by lia. destruct Hs' as (? & Hk & Hb).
    split; [done|]. split; [rewrite Hk, base_number_next by lia; lia|]. intros m. rewrite Hb.
    split; intros (Hm & Hbe & Hgo); (split; [done|]; split; [by apply before_type|done]).
  - simpl. exists d. split; [done|]. split; [done|]. intros m. rewrite elem_of_members, Hbits by done.
    split; [by intros (? & _ & ?)|]. intros [Hm Hg]. split; [done|]. split; [|done]. left. destruct Hm. lia.
Qed.

End OneLink.

(** *** Following the tables *)

Section Following.
Context (fuel : nat) (tp : t (R := R)) (w lat inter dist : Matrix.t) (v : Z) (m : MachineID.t).
Context (Hok : weights_ok n nv w lat inter) (Hvn : m_vnets tp = nv) (Hrs : m_ruby_system tp = rs).
Context (Hf : INFINITE_LATENCY * n * n < Z.of_nat fuel).
Context (Hsp : shortest_path fuel tp w lat inter = Ok dist).
Context (Hnodes : 2 * nodes ≤ n) (Hv : 0 ≤ v < nv) (Hm : machine rs m).

(** A message for [m] may go from [s] to [s']: there is a link, and its routing
    table has [m]. *)
Definition hop (s s' : Z) : Prop :=
  0 ≤ s' < n ∧ 0 < entry w v s s' ∧ entry w v s s' ≠ INFINITE_LATENCY ∧
  ∃ d, shortest_path_to_node N tp s s' w dist v = Ok d ∧ m ∈ members N d.

Inductive travels (s : Z) : nat → Z → Prop :=
  | at_start : travels s 0 s
  | one_more k s1 s2 : travels s k s1 → hop s1 s2 → travels s (S k) s2.

Lemma dist_shape : shape nv n n dist ∧
  ∀ i j, 0 ≤ i < n → 0 ≤ j < n → is_distance n w v i j (entry dist v i j) ∧
    0 ≤ entry dist v i j ≤ INFINITE_LATENCY ∧ (i ≠ j → 1 ≤ entry w v i j).
Proof.
  destruct (extend_shortest_path_spec n nv Hn Hnv fuel tp w lat inter Hok Hvn Hf) as (p & E & Hp).
  unfold shortest_path in Hsp. rewrite E in Hsp. simpl in Hsp. injection Hsp as <-.
  destruct (Hp v Hv) as [Hpv Htri]. pose proof Hpv as [(Hsh & _) Hall]. split; [done|].
  intros i j Hi Hj. destruct (dist_bounds n nv v (weight w v) p i j Hpv Hi Hj) as [Hb _].
  split; [split; [by apply Hall|by intros x Hx; eapply (walks_not_shorter n nv v (weight w v))]|]. split; [done|].
  intros Hne. destruct Hok as (_ & _ & _ & Hw). destruct (Hw v i j Hv Hi Hj) as [_ Hij].
  rewrite decide_False in Hij by done. lia.
Qed.

Lemma on_path_hop s s' : 0 ≤ s < n → 0 ≤ s' < n → 0 < entry w v s s' → entry w v s s' ≠ INFINITE_LATENCY →
  hop s s' ↔ entry w v s s' + entry dist v s' (out_switch m) = entry dist v s (out_switch m).
Proof.
  intros Hs Hs' Hpos Hinf. destruct dist_shape as [Hsh Hall]. destruct Hok as (Hw & _ & _ & Hwb).
  assert (0 ≤ entry w v s s' ≤ INFINITE_LATENCY) as Hbw.
  { destruct (Hwb v s s' Hv Hs Hs') as [_ Hb]. unfold INFINITE_LATENCY in *. case_decide; lia. }
  destruct (shortest_path_to_node_spec s s' w dist v Hw Hsh Hnodes Hv Hs Hs' Hbw) with (tp := tp)
    as (d & E & Hd & Hmem); [by intros; apply Hall|done|].
  unfold hop. rewrite E. unfold on_path in Hmem. setoid_rewrite Z.eqb_eq in Hmem. split.
  - intros (_ & _ & _ & d' & [= <-] & Hin). by apply Hmem in Hin as [_ ?].
  - intros Heq. do 3 (split; [done|]). exists d. split; [done|]. by apply Hmem.
Qed.

(** The first switch a walk leads to that is not where it starts. *)
Lemma walk_first s j x : 0 ≤ s < n → s ≠ j → walk (weight w v) n s j x →
  ∃ k, 0 ≤ k < n ∧ k ≠ s ∧ weight w v s k + entry dist v k j ≤ x.
Proof.
  intros Hs Hsj Hw. destruct dist_shape as [_ Hall].
  assert (∀ i j x, walk (weight w v) n i j x → 0 ≤ i < n → 0 ≤ j < n ∧ 0 ≤ x) as Hpos.
  { intros i' j' x' Hw' Hi. assert (0 ≤ j' < n) as Hj' by (destruct Hw'; done). split; [done|].
    destruct (Hall i' j' Hi Hj') as ([_ Hmin] & ? & _). specialize (Hmin _ Hw'). lia. }
  induction Hw as [|k j x Hw IH Hj]; [done|]. destruct (Hpos _ _ _ Hw Hs) as [Hk Hx].
  destruct (decide (k = s)) as [->|Hks].
  - exists j. split; [done|]. split; [done|]. destruct (Hall j j Hj Hj) as ([_ Hmin] & _).
    specialize (Hmin 0 (walk_nil _ _ _)). lia.
  - destruct (IH (not_eq_sym Hks)) as (k' & Hk' & Hne & Hle). exists k'. split; [done|]. split; [done|].
    destruct (Hall k' j Hk' Hj) as ([_ Hmin] & _), (Hall k' k Hk' Hk) as ([Hwk _] & _).
    specialize (Hmin _ (walk_snoc _ _ _ _ _ _ Hwk Hj)). lia.
Qed.

Lemma next_hop s : 0 ≤ s < n → s ≠ out_switch m → entry dist v s (out_switch m) < INFINITE_LATENCY →
  ∃ s', hop s s'.
Proof.
  intros Hs Hne Hlt. destruct dist_shape as [_ Hall]. pose proof (out_switch_bounds m Hm).
  assert (0 ≤ out_switch m < n) as Ho by lia. destruct (Hall s _ Hs Ho) as ([Hw Hmin] & _).
  destruct (walk_first s _ _ Hs Hne Hw) as (k & Hk & Hks & Hle). exists k.
  destruct (Hall s k Hs Hk) as (_ & _ & Hpos). specialize (Hpos (not_eq_sym Hks)).
  destruct (Hall k _ Hk Ho) as ([Hwk _] & Hb & _). unfold weight in Hle.
  apply on_path_hop; [done|done|lia|lia|]. apply Z.le_antisymm; [done|].
  assert (walk (weight w v) n s k (entry w v s k)) as Hsk.
  { pose proof (walk_snoc (weight w v) n s s k 0 (walk_nil _ _ _) Hk) as Hstep. by rewrite Z.add_0_l in Hstep. }
  apply Hmin. by eapply walk_app.
Qed.


End Following.

End Routing.

(** ** The weights of the direct links *)

Section Carriers.
Import Topology.
Context (nv : Z).

(** The virtual networks a link carries. *)
Definition vnets (l : BasicLink) : list Z := match mVnets l with [] => seqZ 0 nv | vs => vs end.

(** The link of a group that carries [v]. *)
Fixpoint carrier (es : list LinkEntry) (v : Z) : option BasicLink :=
  match es with
  | [] => None
  | e :: es => if decide (v ∈ vnets (link e)) then Some (link e) else carrier es v
  end.

(** No virtual network is carried twice, and all of them exist. *)
Definition group_ok (es : list LinkEntry) : Prop :=
  NoDup (concat ((vnets ∘ link) <$> es)) ∧ ∀ v, v ∈ concat ((vnets ∘ link) <$> es) → 0 ≤ v < nv.

Lemma carrier_Some es v l : carrier es v = Some l → v ∈ vnets l ∧ ∃ e, e ∈ es ∧ link e = l.
Proof.
  induction es as [|e es IH]; simpl; [done|]. case_decide.
  - intros [= <-]. split; [done|]. exists e. set_solver.
  - intros Hc. destruct (IH Hc) as [? (e' & ? & ?)]. split; [done|]. exists e'. set_solver.
Qed.

Lemma carrier_None es v : v ∉ concat ((vnets ∘ link) <$> es) → carrier es v = None.
Proof.
  induction es as [|e es IH]; simpl; [done|]. rewrite elem_of_app. intros Hn. rewrite decide_False by tauto.
  apply IH. tauto.
Qed.

Lemma carrier_unique es v e : group_ok es → e ∈ es → v ∈ vnets (link e) → carrier es v = Some (link e).
Proof.
  intros [Hnd _] He Hv. induction es as [|e' es IH]; [set_solver|]. simpl in Hnd. apply NoDup_app in Hnd as (_ & Hdisj & Hnd).
  simpl. case_decide as Hc.
  - apply elem_of_cons in He as [->|He]; [done|]. destruct (Hdisj v Hc). apply list_elem_of_In, in_concat.
    exists (vnets (link e)). rewrite <- !list_elem_of_In. split; [|done]. apply list_elem_of_fmap. by exists e.
  - apply elem_of_cons in He as [->|He]; [done|]. by apply IH.
Qed.

(** The weight and the latency a group of links gives to a pair of switches. *)
Definition group_value {A} (f : BasicLink → A) (es : list LinkEntry) (v : Z) (old : A) : A :=
  match carrier es v with Some l => f l | None => old end.

(** The links of a pair of switches. *)
Definition links_of (m : LinkMap) (i j : Z) : list LinkEntry := default [] (map_find (i, j) m).

Lemma map_find_In m k es : NoDup m.*1 → map_find k m = Some es ↔ (k, es) ∈ m.
Proof.
  induction m as [|[k' es'] m IH]; simpl; [set_solver|]. intros [Hn Hnd]%NoDup_cons. case_decide as Hk.
  - subst k'. split; [intros [= ->]; set_solver|]. intros [[= ->]|Hin]%elem_of_cons; [done|].
    destruct Hn. apply list_elem_of_fmap. by exists (k, es).
  - rewrite IH by done. rewrite elem_of_cons. naive_solver.
Qed.

End Carriers.

Section Direct.
Import Topology.
Context {R : Type} `{MachineTypes R}.
Context (tp : t (R := R)) (nv n : Z) (Hvn : m_vnets tp = nv) (Hnv : 0 < nv).
Abbreviation vnets := (vnets nv).
Abbreviation group_ok := (group_ok nv).
Abbreviation group_value := (group_value nv).
Abbreviation carrier := (carrier nv).

Definition fill_shape (s : Matrix.t * Matrix.t * list bool) : Prop :=
  shape nv n n s.1.1 ∧ shape n n nv s.1.2 ∧ zlen s.2 = nv.

(** [s'] is [s] with the virtual networks [vs] of one link from [src] to [dst] filled in. *)
Definition filled (l : BasicLink) (src dst : Z) (vs : list Z) (s s' : Matrix.t * Matrix.t * list bool) : Prop :=
  fill_shape s' ∧
  (∀ v i j, entry s'.1.1 v i j =
     if decide (v ∈ vs ∧ i = src ∧ j = dst) then m_weight l else entry s.1.1 v i j) ∧
  (∀ v i j, entry s'.1.2 i j v =
     if decide (v ∈ vs ∧ i = src ∧ j = dst) then i32 (m_latency l) else entry s.1.2 i j v) ∧
  (∀ v, 0 ≤ v < nv → vget s'.2 v = if decide (v ∈ vs) then Ok true else vget s.2 v).

Lemma fill_vnet_spec l src dst v s : fill_shape s → 0 ≤ v < nv → 0 ≤ src < n → 0 ≤ dst < n →
  vget s.2 v = Ok false → ∃ s', fill_vnet l src dst v s = Ok s' ∧ filled l src dst [v] s s'.
Proof.
  destruct s as [[w lat] dn]. intros (Hw & Hl & Hd) Hv Hs Hx Hf. simpl in *. rewrite Hf. simpl.
  destruct (entry_set _ _ _ _ src dst v (i32 (m_latency l)) Hl Hs Hx Hv) as (lat' & -> & Hl' & El). simpl.
  destruct (entry_set _ _ _ _ v src dst (m_weight l) Hw Hv Hs Hx) as (w' & -> & Hw' & Ew). simpl.
  destruct (vset dn v true) as [dn'|] eqn:Ed; [|rewrite vset_inbounds in Ed by lia; done]. simpl.
  eexists. split; [done|]. split; [split; [done|split; [done|]]; simpl; rewrite (vset_length _ _ _ _ Ed); lia|]. simpl.
  split; [|split].
  - intros u i j. rewrite Ew. apply decide_ext. rewrite list_elem_of_singleton. naive_solver.
  - intros u i j. rewrite El. apply decide_ext. rewrite list_elem_of_singleton. naive_solver.
  - intros u Hu. destruct (decide (u ∈ [v])) as [->%list_elem_of_singleton|Hne].
    + by apply vget_vset_eq in Ed.
    + eapply vget_vset_ne; [done|]. set_solver.
Qed.

Lemma filled_trans l src dst vs vs' s s1 s2 :
  filled l src dst vs s s1 → filled l src dst vs' s1 s2 → filled l src dst (vs ++ vs') s s2.
Proof.
  intros (_ & Ew & El & Ed) (Hsh & Ew' & El' & Ed'). split; [done|].
  assert (∀ {A} v i j (x y : A),
    (if decide (v ∈ vs' ∧ i = src ∧ j = dst) then x else if decide (v ∈ vs ∧ i = src ∧ j = dst) then x else y) =
    if decide (v ∈ vs ++ vs' ∧ i = src ∧ j = dst) then x else y) as Hif.
  { intros A v i j x y. repeat case_decide; set_solver. }
  split; [|split].
  - intros. by rewrite Ew', Ew, Hif.
  - intros. by rewrite El', El, Hif.
  - intros v Hv. rewrite Ed', Ed by done. repeat case_decide; set_solver.
Qed.

Lemma fill_vnets_spec l src dst vs s : fill_shape s → 0 ≤ src < n → 0 ≤ dst < n →
  NoDup vs → (∀ v, v ∈ vs → 0 ≤ v < nv ∧ vget s.2 v = Ok false) →
  ∃ s', fold_res (fill_vnet l src dst) vs s = Ok s' ∧ filled l src dst vs s s'.
Proof.
  intros Hsh Hs Hx. revert s Hsh. induction vs as [|v vs IH]; intros s Hsh Hnd Hall; simpl.
  { exists s. split; [done|]. split; [done|]. split; [|split]; intros; by rewrite decide_False by set_solver. }
  apply NoDup_cons in Hnd as [Hnin Hnd]. destruct (Hall v) as [Hv Hf]; [set_solver|].
  destruct (fill_vnet_spec l src dst v s Hsh Hv Hs Hx Hf) as (s1 & -> & Hfill). simpl.
  pose proof Hfill as (Hsh1 & _ & _ & Ed). destruct (IH s1 Hsh1 Hnd) as (s' & -> & Hfill').
  { intros u Hu. destruct (Hall u) as [Hu' Hfu]; [set_solver|]. split; [done|].
    rewrite Ed, decide_False by (done || set_solver). done. }
  exists s'. split; [done|]. by apply (filled_trans _ _ _ [v] vs _ s1).
Qed.

(** The loop over the virtual networks of a link, in either of its two forms. *)
Lemma fill_link_fold src dst l s : (∀ v, v ∈ vnets l → v < nv) →
  fill_link tp src dst l s = fold_res (fill_vnet l src dst) (vnets l) s.
Proof.
  intros Hlt. unfold fill_link, vnets in *. rewrite Hvn. destruct (mVnets l) as [|v0 vs] eqn:E.
  - apply loop_seqZ.
  - rewrite (proj2 (Z.eqb_neq _ _)) by (simpl; lia). apply loop_fold. intros k v s1 Hk. rewrite Z.add_0_l, (vget_nat _ _ _ Hk). simpl.
    rewrite (proj2 (Z.ltb_lt _ _)); [done|]. apply Hlt. by eapply list_elem_of_lookup_2.
Qed.

Lemma fill_entries_spec src dst es s : fill_shape s → 0 ≤ src < n → 0 ≤ dst < n → group_ok es →
  (∀ v, v ∈ concat ((vnets ∘ link) <$> es) → vget s.2 v = Ok false) →
  ∃ s', fold_res (λ e s, fill_link tp src dst (link e) s) es s = Ok s' ∧ fill_shape s' ∧
    (∀ v i j, entry s'.1.1 v i j =
       if decide (i = src ∧ j = dst) then group_value m_weight es v (entry s.1.1 v i j) else entry s.1.1 v i j) ∧
    (∀ v i j, entry s'.1.2 i j v =
       if decide (i = src ∧ j = dst) then group_value (i32 ∘ m_latency) es v (entry s.1.2 i j v)
       else entry s.1.2 i j v).
Proof.
  intros Hsh Hs Hx. revert s Hsh. induction es as [|e es IH]; intros s Hsh [Hnd Hin] Hf; simpl.
  { exists s. split; [done|]. split; [done|]. split; intros; by case_decide. }
  simpl in Hnd, Hin, Hf. apply NoDup_app in Hnd as (Hnd1 & Hdisj & Hnd). setoid_rewrite elem_of_app in Hin.
  setoid_rewrite elem_of_app in Hf. rewrite fill_link_fold by (intros; apply Hin; by left).
  destruct (fill_vnets_spec (link e) src dst (vnets (link e)) s Hsh Hs Hx Hnd1) as (s1 & -> & Hsh1 & Ew & El & Ed);
    [by auto|]. simpl.
  destruct (IH s1 Hsh1) as (s' & -> & Hsh' & Ew' & El').
  { split; [done|]. auto. }
  { intros v Hv. rewrite Ed, decide_False; [by auto|by intros ?%Hdisj|by auto]. }
  exists s'. split; [done|]. split; [done|].
  assert (∀ {A} (f : BasicLink → A) v i j (x : A),
    (if decide (i = src ∧ j = dst)
     then group_value f es v (if decide (v ∈ vnets (link e) ∧ i = src ∧ j = dst) then f (link e) else x)
     else if decide (v ∈ vnets (link e) ∧ i = src ∧ j = dst) then f (link e) else x) =
    if decide (i = src ∧ j = dst) then group_value f (e :: es) v x else x) as Hval.
  { intros A f v i j x. destruct (decide (i = src ∧ j = dst)) as [Hij|Hij]; [|by rewrite decide_False by tauto].
    unfold group_value. simpl. destruct (decide (v ∈ vnets (link e))) as [Hv|Hv].
    - rewrite (decide_True (P := _ ∧ _)) by tauto. by rewrite carrier_None by by apply Hdisj.
    - by rewrite (decide_False (P := _ ∧ _)) by tauto. }
  split; intros v i j.
  - by rewrite Ew', Ew, Hval.
  - by rewrite El', El, (Hval _ (i32 ∘ m_latency)).
Qed.

Definition map_ok (m : LinkMap) : Prop :=
  NoDup m.*1 ∧ Forall (λ g, 0 ≤ g.1.1 < n ∧ 0 ≤ g.1.2 < n ∧ g.1.1 ≠ g.1.2 ∧ group_ok g.2 ∧ g.2 ≠ []) m.

Lemma fill_weights_spec m w lat : map_ok m → shape nv n n w → shape n n nv lat →
  ∃ w' lat', fill_weights tp m (w, lat) = Ok (w', lat') ∧ shape nv n n w' ∧ shape n n nv lat' ∧
    (∀ v i j, 0 ≤ v < nv → entry w' v i j = group_value m_weight (links_of m i j) v (entry w v i j)) ∧
    (∀ v i j, 0 ≤ v < nv → entry lat' i j v = group_value (i32 ∘ m_latency) (links_of m i j) v (entry lat i j v)).
Proof.
  intros [Hnd Hall]. revert w lat. induction m as [|[[src dst] es] m IH]; intros w lat Hw Hl; simpl.
  { by exists w, lat. }
  simpl in Hnd. apply NoDup_cons in Hnd as [Hnin Hnd]. apply Forall_cons in Hall as [(Hs & Hx & _ & Hg & _) Hall]. simpl in *.
  rewrite Hvn, (loop_vget (λ e s, fill_link tp src dst (link e) s)).
  destruct (fill_entries_spec src dst es (w, lat, replicate (Z.to_nat nv) false)) as ([[w1 lat1] dn] & -> & Hsh & Ew & El);
    [split; [done|split; [done|]]; simpl; rewrite length_replicate; lia|done|done|done| |].
  { intros v Hv. simpl. destruct Hg as [_ Hin]. apply vget_Ok. specialize (Hin v Hv).
    split; [lia|]. apply lookup_replicate. split; [done|lia]. }
  simpl in Ew, El |- *. destruct Hsh as (Hw1 & Hl1 & _). simpl in Hw1, Hl1.
  destruct (IH Hnd Hall w1 lat1 Hw1 Hl1) as (w' & lat' & -> & Hw' & Hl' & Ew' & El').
  exists w', lat'. split; [done|]. split; [done|]. split; [done|].
  assert (∀ i j, links_of (((src, dst), es) :: m) i j = if decide (i = src ∧ j = dst) then es else links_of m i j) as Hlk.
  { intros i j. unfold links_of. simpl. destruct (decide (i = src ∧ j = dst)) as [[-> ->]|Hne].
    - by rewrite decide_True.
    - rewrite decide_False by naive_solver. done. }
  assert (∀ i j, i = src ∧ j = dst → links_of m i j = []) as Hnone.
  { intros i j [-> ->]. unfold links_of. destruct (map_find (src, dst) m) as [es'|] eqn:Ef; [|done].
    apply map_find_In in Ef; [|done]. destruct Hnin. apply list_elem_of_fmap. by exists ((src, dst), es'). }
  split; intros v i j Hv.
  - rewrite Ew', Ew, Hlk by done. case_decide as Hij; [by rewrite Hnone by done|done].
  - rewrite El', El, Hlk by done. case_decide as Hij; [by rewrite Hnone by done|done].
Qed.

(** Weights and latencies of the links themselves. *)
Definition links_ok (m : LinkMap) : Prop :=
  ∀ i j e, e ∈ links_of m i j → 1 ≤ m_weight (link e) < INFINITE_LATENCY ∧ 0 ≤ m_latency (link e) ≤ LMAX.

Definition direct_weight (m : LinkMap) (v i j : Z) : Z :=
  if decide (i = j) then 0 else group_value m_weight (links_of m i j) v INFINITE_LATENCY.

Lemma diagonal_spec : 0 < n → ∃ w,
  loop_from (Z.to_nat n) 0 (λ i w, loop_from (Z.to_nat nv) 0 (λ v w, Matrix.set w v i i 0) w)
    (Matrix.new nv n n INFINITE_LATENCY) = Ok w ∧ shape nv n n w ∧
  ∀ v i j, 0 ≤ v < nv → 0 ≤ i < n → 0 ≤ j < n → entry w v i j = if decide (i = j) then 0 else INFINITE_LATENCY.
Proof.
  intros Hn. set (upto a b (w : Matrix.t) := shape nv n n w ∧ ∀ v i j, 0 ≤ v < nv → 0 ≤ i < n → 0 ≤ j < n →
    entry w v i j = if decide (i = j ∧ (i < a ∨ (i = a ∧ v < b))) then 0 else INFINITE_LATENCY).
  destruct (loop_from_inv (λ a, upto a 0) (Z.to_nat n) 0
    (λ i w, loop_from (Z.to_nat nv) 0 (λ v w, Matrix.set w v i i 0) w) (Matrix.new nv n n INFINITE_LATENCY))
    as (w & -> & Hw & Ew).
  - split; [apply new_shape; lia|]. intros v i j Hv Hi Hj. rewrite entry_new, decide_False by lia. done.
  - intros a w Ha Hup. rewrite Z2Nat.id in Ha by lia.
    destruct (loop_from_inv (λ b, upto a b) (Z.to_nat nv) 0 (λ v w, Matrix.set w v a a 0) w Hup) as (w' & -> & Hw' & Ew').
    + intros b w1 Hb [Hw1 Ew1]. rewrite Z2Nat.id in Hb by lia.
      destruct (entry_set _ _ _ _ b a a 0 Hw1) as (w2 & E2 & Hw2 & Ew2); [lia..|].
      exists w2. split; [exact E2|]. split; [done|]. intros v i j Hv Hi Hj. rewrite Ew2, Ew1 by done.
      repeat case_decide; done || lia.
    + exists w'. split; [done|]. split; [done|]. intros v i j Hv Hi Hj. rewrite Ew' by done. apply decide_ext. lia.
  - exists w. split; [done|]. split; [done|]. intros v i j Hv Hi Hj. rewrite Ew by done. apply decide_ext. lia.
Qed.

Lemma direct_weights_spec : map_ok (m_link_map tp) → links_ok (m_link_map tp) →
  n = max_switch_id (m_link_map tp) + 1 → 0 < n < 2 ^ 31 →
  ∃ w lat, direct_weights tp = Ok (w, lat) ∧ weights_ok n nv w lat (Matrix.new n n nv 0) ∧
    ∀ v i j, 0 ≤ v < nv → 0 ≤ i < n → 0 ≤ j < n → entry w v i j = direct_weight (m_link_map tp) v i j.
Proof.
  intros Hmap Hlinks En Hn. unfold direct_weights. rewrite <- En, i32_small, Hvn by lia.
  destruct (shape_rows nv n n (Matrix.new nv n n INFINITE_LATENCY) 0) as (w0 & -> & Hw0 & _); [apply new_shape; lia|lia|].
  simpl. replace (length w0) with (Z.to_nat n) by lia. destruct diagonal_spec as (w & -> & Hw & Ew); [lia|]. simpl.
  destruct (fill_weights_spec (m_link_map tp) w (Matrix.new n n nv (-1)) Hmap Hw) as (w' & lat' & -> & Hw' & Hl' & Ew' & El');
    [apply new_shape; lia|]. exists w', lat'. split; [done|].
  assert (∀ i, links_of (m_link_map tp) i i = []) as Hself.
  { intros i. destruct Hmap as [Hnd Hall]. unfold links_of. destruct (map_find (i, i) (m_link_map tp)) as [es|] eqn:Ef; [|done].
    apply map_find_In in Ef; [|done]. rewrite Forall_forall in Hall. destruct (Hall _ Ef) as (_ & _ & Hne & _). done. }
  assert (∀ v i j, 0 ≤ v < nv → 0 ≤ i < n → 0 ≤ j < n → entry w' v i j = direct_weight (m_link_map tp) v i j) as Hdw.
  { intros v i j Hv Hi Hj. rewrite Ew', Ew by done. unfold direct_weight. case_decide; [|done]. subst j. by rewrite Hself. }
  split; [|done]. split; [done|]. split; [done|]. split; [apply new_shape; lia|].
  intros v i j Hv Hi Hj. split; [by rewrite entry_new by lia|]. rewrite Hdw by done. unfold direct_weight.
  case_decide; [done|]. rewrite El', entry_new by lia. unfold group_value.
  destruct (carrier (links_of (m_link_map tp) i j) v) as [l|] eqn:Ec; [|by unfold LMAX, INFINITE_LATENCY; lia].
  apply carrier_Some in Ec as [_ (e & He & <-)]. destruct (Hlinks i j e He) as [? ?]. simpl.
  unfold LMAX, INFINITE_LATENCY in *. rewrite i32_small by lia. lia.
Qed.

End Direct.

(** ** The links of the network *)

Section Links.
Import Topology.
Context (N : Z) {R : Type} `{MachineTypes R} (rs : R) `{!MachineLaws N rs, !MachineNumbers rs}.
Context (tp : t (R := R)) (fuel : nat) (n nv : Z) (w lat dist : Matrix.t).
Abbreviation links := (links_of (m_link_map tp)).

(** The order of [std::map]. *)
Definition map_sorted (m : LinkMap) : Prop := StronglySorted (λ k k', pair_ltb k k' = true) m.*1.

(** A link goes from a node to a switch, from a switch to the output of a node, or
    between two switches. *)
Definition ends_ok (i j : Z) : Prop :=
  (0 ≤ i < nodes rs ∧ 2 * nodes rs ≤ j) ∨ (2 * nodes rs ≤ i ∧ nodes rs ≤ j).

Definition topology_ok : Prop :=
  m_ruby_system tp = rs ∧ m_nodes tp = nodes rs ∧ m_vnets tp = nv ∧ 0 < nv ∧ 0 < nodes rs ∧
  n = max_switch_id (m_link_map tp) + 1 ∧ 2 * nodes rs ≤ n < 2 ^ 31 ∧
  map_ok nv n (m_link_map tp) ∧ map_sorted (m_link_map tp) ∧ links_ok (m_link_map tp) ∧
  (∀ i j, links i j ≠ [] → ends_ok i j) ∧ INFINITE_LATENCY * n * n < Z.of_nat fuel.

Context (Htp : topology_ok) (Hdw : direct_weights tp = Ok (w, lat))
        (Hsp : shortest_path fuel tp w lat (Matrix.new n n nv 0) = Ok dist).

(** [d] holds the machines to which a link from [i] to [j] is on a shortest path of
    virtual network [v], if there is such a link. *)
Definition route_ok (v i j : Z) (d : NetDest.t R) : Prop :=
  valid rs d ∧ ∀ m, m ∈ members N d ↔ machine rs m ∧ carrier nv (links i j) v ≠ None ∧
    entry w v i j + entry dist v j (out_switch rs m) = entry dist v i (out_switch rs m).

Lemma tables : weights_ok n nv w lat (Matrix.new n n nv 0) ∧ shape nv n n dist ∧
  (∀ v i j, 0 ≤ v < nv → 0 ≤ i < n → 0 ≤ j < n →
     entry w v i j = direct_weight nv (m_link_map tp) v i j ∧ 0 ≤ entry dist v i j ≤ INFINITE_LATENCY).
Proof.
  destruct Htp as (Hrs & Hmn & Hvn & Hnv & Hnd & En & Hn & Hmap & _ & Hl & _ & Hf).
  destruct (direct_weights_spec tp nv n Hvn Hnv Hmap Hl En) as (w' & lat' & E & Hok & Hw); [lia|].
  rewrite Hdw in E. injection E as <- <-. split; [done|].
  assert (0 < n) as Hn0 by lia.
  split; [by apply (dist_shape n nv Hn0 Hnv fuel tp w lat (Matrix.new n n nv 0) dist 0)|].
  intros v i j Hv Hi Hj. split; [by apply Hw|].
  by apply (dist_shape n nv Hn0 Hnv fuel tp w lat (Matrix.new n n nv 0) dist v).
Qed.

(** The links of a pair. *)
Lemma links_group i j : links i j ≠ [] →
  map_find (i, j) (m_link_map tp) = Some (links i j) ∧ group_ok nv (links i j) ∧ 0 ≤ i < n ∧ 0 ≤ j < n ∧ i ≠ j.
Proof.
  destruct Htp as (_ & _ & _ & _ & _ & _ & _ & [Hnd Hall] & _). intros Hne.
  unfold links_of in *. destruct (map_find (i, j) (m_link_map tp)) as [es|] eqn:Ef; [|done]. split; [done|]. simpl.
  apply map_find_In in Ef; [|done]. rewrite Forall_forall in Hall. by destruct (Hall _ Ef) as (? & ? & ? & ? & _).
Qed.

Lemma links_carried i j : links i j ≠ [] ↔ ∃ v, 0 ≤ v < nv ∧ carrier nv (links i j) v ≠ None.
Proof.
  split; [|by intros (v & _ & Hc) Hnil; rewrite Hnil in Hc]. intros Hne.
  destruct (links_group i j Hne) as (_ & Hg & _). destruct (links i j) as [|e es]; [done|].
  assert (∃ v, v ∈ vnets nv (link e)) as [v Hv].
  { destruct Htp as (_ & _ & _ & Hnv & _). unfold vnets.
    destruct (mVnets (link e)) as [|v vs]; [exists 0; apply elem_of_seqZ; lia|exists v; set_solver]. }
  exists v. split; [|by rewrite (carrier_unique nv (e :: es) v e Hg) by set_solver].
  destruct Hg as [_ Hin]. apply Hin. simpl. set_solver.
Qed.

(** A direct link is one that some link of the pair carries. *)
Lemma real_link v i j : 0 ≤ v < nv → 0 ≤ i < n → 0 ≤ j < n →
  (0 <? entry w v i j) && negb (entry w v i j =? INFINITE_LATENCY) = bool_decide (carrier nv (links i j) v ≠ None).
Proof.
  intros Hv Hi Hj. destruct tables as (_ & _ & Ht). destruct (Ht v i j Hv Hi Hj) as [-> _].
  unfold direct_weight, group_value. destruct (carrier nv (links i j) v) as [l|] eqn:Ec; [|by case_decide].
  apply carrier_Some in Ec as [_ (e & He & <-)].
  destruct (links_group i j) as (_ & _ & _ & _ & Hij); [by intros Hnil; rewrite Hnil in He; set_solver|].
  destruct Htp as (_ & _ & _ & _ & _ & _ & _ & _ & _ & Hl & _). destruct (Hl i j e He) as [Hw _].
  rewrite decide_False, (bool_decide_true (_ ≠ None)) by done.
  by rewrite (proj2 (Z.ltb_lt _ _)), (proj2 (Z.eqb_neq _ _)) by lia.
Qed.

Lemma no_route v i j d : valid rs d → (∀ m, bit d m = false) → carrier nv (links i j) v = None → route_ok v i j d.
Proof.
  intros Hd Hb Hc. split; [done|]. intros m. rewrite elem_of_members, Hb by done. rewrite Hc. naive_solver.
Qed.

(** The routes of the virtual networks before [u]; the others are [d0]. *)
Definition routes_upto (i j : Z) (d0 : NetDest.t R) (u : Z) (s : list (NetDest.t R) * bool) : Prop :=
  zlen s.1 = nv ∧ (s.2 = true ↔ ∃ v, 0 ≤ v < u ∧ carrier nv (links i j) v ≠ None) ∧
  ∀ v, 0 ≤ v < nv → ∃ d, vget s.1 v = Ok d ∧ if decide (v < u) then route_ok v i j d else d = d0.

Lemma link_route i j u : 0 ≤ u < nv → 0 ≤ i < n → 0 ≤ j < n → carrier nv (links i j) u ≠ None →
  ∃ d, shortest_path_to_node N tp i j w dist u = Ok d ∧ route_ok u i j d.
Proof.
  intros Hu Hi Hj Hc. pose proof Htp as (Hrs & _ & _ & _ & _ & _ & Hn & _).
  destruct tables as ((Hwsh & _ & _ & Hwb) & Hsh & Ht).
  destruct (shortest_path_to_node_spec N rs n nv i j w dist u Hwsh Hsh) with (tp := tp) as (d & -> & Hd & Hm);
    [lia|done|done|done| |by intros; apply Ht|done|].
  { destruct (Hwb u i j Hu Hi Hj) as [_ Hb]. unfold INFINITE_LATENCY in *. case_decide; lia. }
  exists d. split; [done|]. split; [done|]. intros m. rewrite Hm. unfold on_path. rewrite Z.eqb_eq. naive_solver.
Qed.

Lemma routing_map_step i j d0 u s : 0 ≤ u < nv → 0 ≤ i < n → 0 ≤ j < n →
  valid rs d0 → (∀ m, bit d0 m = false) → routes_upto i j d0 u s →
  ∃ s', (let '(routingMap, realLink) := s : list (NetDest.t R) * bool in
         let* weight := Matrix.get w u i j in
         if (0 <? weight) && negb (weight =? INFINITE_LATENCY) then
           let* d := shortest_path_to_node N tp i j w dist u in
           let* routingMap := vset routingMap u d in
           Ok (routingMap, true)
         else Ok (routingMap, realLink)) = Ok s' ∧ routes_upto i j d0 (u + 1) s'.
Proof.
  intros Hu Hi Hj Hd0 Hb0. destruct s as [routes real]. intros (Hlen & Hreal & Hroutes). simpl in *.
  destruct tables as ((Hwsh & _) & _). rewrite (entry_get _ _ _ _ _ _ _ Hwsh Hu Hi Hj). simpl.
  rewrite (real_link u i j Hu Hi Hj). case_bool_decide as Hc.
  - destruct (link_route i j u Hu Hi Hj Hc) as (d & -> & Hd). simpl.
    destruct (vset routes u d) as [r'|] eqn:Er; [|rewrite vset_inbounds in Er by lia; done]. simpl.
    eexists. split; [done|]. split; [simpl; by rewrite (vset_length _ _ _ _ Er)|]. simpl.
    split; [split; [|done]; intros _; exists u; split; [lia|done]|]. intros v Hv.
    destruct (decide (v = u)) as [->|Hne].
    + exists d. rewrite (vget_vset_eq _ _ _ _ Er), decide_True by lia. done.
    + destruct (Hroutes v Hv) as (d' & Ed & Hd'). exists d'. rewrite (vget_vset_ne _ _ _ _ _ Er) by done.
      split; [done|]. repeat case_decide; done || lia.
  - eexists. split; [done|]. split; [done|]. simpl. split.
    { rewrite Hreal. split; intros (v & Hv & Hcv); exists v; (split; [|done]); [lia|].
      destruct (decide (v = u)) as [->|]; [done|lia]. }
    intros v Hv. destruct (Hroutes v Hv) as (d & Ed & Hd). exists d. split; [done|].
    destruct (decide (v = u)) as [->|Hne]; [|repeat case_decide; done || lia].
    rewrite decide_False in Hd by lia. rewrite decide_True by lia. subst d. by apply no_route.
Qed.

Lemma routing_map_spec i j : 0 ≤ i < n → 0 ≤ j < n →
  ∃ routes, routing_map N tp w dist i j = Ok (routes, bool_decide (links i j ≠ [])) ∧ zlen routes = nv ∧
    ∀ v, 0 ≤ v < nv → ∃ d, vget routes v = Ok d ∧ route_ok v i j d.
Proof.
  intros Hi Hj. pose proof Htp as (Hrs & _ & Hvn & Hnv & _).
  unfold routing_map, empty_routes. rewrite Hrs, Hvn. destruct (new_ok N rs) as (d0 & -> & Hd0 & Hb0). simpl.
  match goal with |- context [loop_from ?k 0 ?f ?s0] =>
    destruct (loop_from_inv (routes_upto i j d0) k 0 f s0) as ([routes real] & -> & Hlen & Hreal & Hroutes) end.
  - split; [simpl; rewrite length_replicate; lia|]. split; [split; [done|by intros (v & ? & _); lia]|].
    intros v Hv. exists d0. rewrite decide_False by lia. split; [|done]. apply vget_Ok. split; [lia|].
    apply lookup_replicate. split; [done|lia].
  - intros u s Hu Hs. apply routing_map_step; [lia|done..].
  - exists routes. rewrite Z2Nat.id in * by lia. simpl in *. split; [|split; [done|]].
    + do 2 f_equal. apply eq_true_iff_eq. by rewrite Hreal, bool_decide_eq_true, links_carried.
    + intros v Hv. destruct (Hroutes v Hv) as (d & Ed & Hd). exists d. split; [done|]. by rewrite decide_True in Hd by lia.
Qed.

(** The routes of one link hold, for each virtual network it carries, the machines
    to which it is on a shortest path, and nothing for the others. *)
Definition link_routes_ok (i j : Z) (e : LinkEntry) (r : list (NetDest.t R)) : Prop :=
  zlen r = nv ∧ ∀ v, 0 ≤ v < nv → ∃ d, vget r v = Ok d ∧ valid rs d ∧
    ∀ m, m ∈ members N d ↔ machine rs m ∧ v ∈ vnets nv (link e) ∧
      entry w v i j + entry dist v j (out_switch rs m) = entry dist v i (out_switch rs m).

Lemma pick_routes (routes : list (NetDest.t R)) vs r0 : zlen routes = nv → zlen r0 = nv → (∀ v, v ∈ vs → 0 ≤ v < nv) →
  ∃ r, fold_res (λ vnet r, let* x := vget routes vnet in vset r vnet x) vs r0 = Ok r ∧ zlen r = nv ∧
    ∀ v, vget r v = if decide (v ∈ vs) then vget routes v else vget r0 v.
Proof.
  intros Hl. revert r0. induction vs as [|v vs IH]; intros r0 Hr0 Hvs; simpl.
  { exists r0. split; [done|]. split; [done|]. done. }
  assert (0 ≤ v < nv) as Hv by (apply Hvs; set_solver).
  destruct (vget_inbounds routes v) as (x & Ex & _); [lia|]. rewrite Ex. simpl.
  destruct (vset r0 v x) as [r1|] eqn:E1; [|rewrite vset_inbounds in E1 by lia; done]. simpl.
  destruct (IH r1) as (r & -> & Hlr & Hr); [by rewrite (vset_length _ _ _ _ E1)|set_solver|].
  exists r. split; [done|]. split; [done|]. intros u. rewrite Hr. destruct (decide (u = v)) as [->|Hne].
  - rewrite (decide_True (P := v ∈ v :: vs)) by set_solver. rewrite (vget_vset_eq _ _ _ _ E1), Ex. by case_decide.
  - rewrite (vget_vset_ne _ _ _ _ _ E1) by done. repeat case_decide; set_solver.
Qed.

Lemma link_routes_spec i j e routes : e ∈ links i j → zlen routes = nv →
  (∀ v, 0 ≤ v < nv → ∃ d, vget routes v = Ok d ∧ route_ok v i j d) →
  ∃ r, link_routes N tp (link e) routes = Ok r ∧ link_routes_ok i j e r.
Proof.
  intros He Hlen Hroutes. pose proof Htp as (Hrs & _ & Hvn & Hnv & _).
  destruct (links_group i j) as (_ & Hg & _); [by intros Hnil; rewrite Hnil in He; set_solver|].
  assert (∀ v, v ∈ vnets nv (link e) → 0 ≤ v < nv ∧ carrier nv (links i j) v ≠ None) as Hcar.
  { intros v Hv. split; [|by rewrite (carrier_unique nv _ v e Hg He Hv)]. destruct Hg as [_ Hin]. apply Hin.
    apply list_elem_of_In, in_concat. exists (vnets nv (link e)). rewrite <- !list_elem_of_In.
    split; [|done]. apply list_elem_of_fmap. by exists e. }
  unfold link_routes, empty_routes. rewrite Hrs, Hvn. destruct (new_ok N rs) as (d0 & -> & Hd0 & Hb0). simpl.
  assert (∀ r, zlen r = nv → (∀ v, 0 ≤ v < nv → vget r v = if decide (v ∈ vnets nv (link e)) then vget routes v else Ok d0) →
    link_routes_ok i j e r) as Hfin.
  { intros r Hr Hv. split; [done|]. intros v Hvb. rewrite (Hv v Hvb). case_decide as Hin.
    - destruct (Hroutes v Hvb) as (d & -> & Hd & Hm). exists d. split; [done|]. split; [done|]. intros m. rewrite Hm.
      destruct (Hcar v Hin). naive_solver.
    - exists d0. split; [done|]. split; [done|]. intros m. rewrite elem_of_members, Hb0 by done. naive_solver. }
  unfold vnets in *. destruct (mVnets (link e)) as [|v0 vs] eqn:Ev.
  - exists routes. split; [done|]. apply Hfin; [done|]. intros v Hv. rewrite decide_True; [done|]. apply elem_of_seqZ. lia.
  - rewrite (proj2 (Z.eqb_neq _ _)) by (simpl; lia).
    rewrite (loop_vget (λ vnet r, let* x := vget routes vnet in vset r vnet x)).
    destruct (pick_routes routes (v0 :: vs) (replicate (Z.to_nat nv) d0)) as (r & -> & Hr & Hv);
      [done|rewrite length_replicate; lia|by intros; apply Hcar|]. exists r. split; [done|]. apply Hfin; [done|].
    intros v Hvb. rewrite Hv. case_decide; [done|]. apply vget_Ok. split; [lia|]. apply lookup_replicate. split; [done|lia].
Qed.

(** [c] is the call that makes the link [e] from [i] to [j]. *)
Definition makes (i j : Z) (e : LinkEntry) (c : Made (R := R)) : Prop :=
  ∃ r, c = make_call tp i j e r ∧ link_routes_ok i j e r.

Lemma make_each_spec i j routes es net : (∀ e, e ∈ es → e ∈ links i j) → zlen routes = nv →
  (∀ v, 0 ≤ v < nv → ∃ d, vget routes v = Ok d ∧ route_ok v i j d) →
  ∃ cs, make_each N tp i j routes es net = Ok (net ++ cs) ∧ Forall2 (makes i j) es cs.
Proof.
  intros Hes Hlen Hroutes. revert net. induction es as [|e es IH]; intros net; simpl.
  { exists []. by rewrite app_nil_r. }
  destruct (link_routes_spec i j e routes) as (r & -> & Hr); [set_solver|done|done|]. simpl.
  destruct (IH ltac:(set_solver) (net ++ [make_call tp i j e r])) as (cs & -> & Hcs).
  exists (make_call tp i j e r :: cs). rewrite <- app_assoc. split; [done|]. constructor; [by exists r|done].
Qed.

Lemma map_insert_same k l (m : LinkMap) : map_sorted m → map_find k m = Some l → map_insert k l m = m.
Proof.
  intros Hs. induction m as [|[k' l'] m IH]; simpl; [done|]. unfold map_sorted in Hs. simpl in Hs.
  apply StronglySorted_cons in Hs as [Hall Hs]. case_decide as Hk; [by subst; intros [= ->]|]. intros Hf.
  assert (pair_ltb k' k = true) as Hlt.
  { rewrite Forall_forall in Hall. apply Hall. clear -Hf. induction m as [|[k1 l1] m IH]; simpl in *; [done|].
    case_decide; [subst; set_solver|]. apply elem_of_cons. right. by apply IH. }
  assert (pair_ltb k k' = false) as ->; [|by rewrite IH].
  unfold pair_ltb in *. destruct k as [a b], k' as [a' b']. simpl in *.
  destruct (Z.ltb_spec a a'), (Z.eqb_spec a a'), (Z.ltb_spec b b'), (Z.ltb_spec a' a), (Z.eqb_spec a' a), (Z.ltb_spec b' b);
    simpl in *; done || lia.
Qed.

Lemma makeLink_spec i j routes net : links i j ≠ [] → zlen routes = nv →
  (∀ v, 0 ≤ v < nv → ∃ d, vget routes v = Ok d ∧ route_ok v i j d) →
  ∃ cs, makeLink N tp net i j routes = Ok (tp, net ++ cs) ∧ Forall2 (makes i j) (links i j) cs.
Proof.
  intros Hne Hlen Hroutes. pose proof Htp as (_ & Hmn & _ & _ & Hnd & _ & Hn & _ & Hsort & _ & Hends & _).
  destruct (links_group i j Hne) as (Hfind & _ & Hi & Hj & _).
  destruct (make_each_spec i j routes (links i j) net) as (cs & Ecs & Hcs); [done|done|done|]. exists cs.
  unfold makeLink, case_asserts. rewrite Hmn, u32_small by lia. fold (links i j). rewrite Ecs.
  assert ((2 * nodes rs <=? i) || (2 * nodes rs <=? j) = true) as ->.
  { apply orb_true_iff. rewrite !Z.leb_le. destruct (Hends i j Hne); lia. }
  assert ((if i <? nodes rs then true else if j <? 2 * nodes rs then nodes rs <=? j
           else (2 * nodes rs <=? i) && (2 * nodes rs <=? j)) = true) as ->.
  { destruct (Z.ltb_spec i (nodes rs)); [done|]. destruct (Hends i j Hne) as [?|[? ?]]; [lia|].
    destruct (Z.ltb_spec j (2 * nodes rs)); [by apply Z.leb_le|]. by rewrite !(proj2 (Z.leb_le _ _)) by lia. }
  simpl. rewrite (map_insert_same _ _ _ Hsort Hfind). split; [by destruct tp|done].
Qed.

(** The calls for the pairs of switches before [(i, j)]. *)
Definition made_upto (i j : Z) (s : t (R := R) * list (Made (R := R))) : Prop :=
  s.1 = tp ∧
  (∀ c, c ∈ s.2 → ∃ a b e, e ∈ links a b ∧ makes a b e c) ∧
  (∀ a b e, a < i ∨ (a = i ∧ b < j) → e ∈ links a b → ∃ c, c ∈ s.2 ∧ makes a b e c).

Lemma make_pair i j s : 0 ≤ i < n → 0 ≤ j < n → made_upto i j s →
  ∃ s', (let '(tp, net) := s : t * list Made in
         let* r := routing_map N tp w dist i j in
         let '(routingMap, realLink) := r : list (NetDest.t R) * bool in
         if realLink then makeLink N tp net i j routingMap else Ok (tp, net)) = Ok s' ∧
    made_upto i (j + 1) s'.
Proof.
  intros Hi Hj. destruct s as [tp1 net]. intros (E & Hfrom & Hto). simpl in E. subst tp1.
  destruct (routing_map_spec i j Hi Hj) as (routes & -> & Hlen & Hroutes). simpl in *.
  assert (∀ a b, a < i ∨ (a = i ∧ b < j + 1) → (a < i ∨ (a = i ∧ b < j)) ∨ (a = i ∧ b = j)) as Hbef by lia.
  case_bool_decide as Hne.
  - destruct (makeLink_spec i j routes net Hne Hlen Hroutes) as (cs & -> & Hcs). eexists. split; [done|].
    split; [done|]. simpl. setoid_rewrite elem_of_app. split.
    + intros c [Hc|Hc]; [by apply Hfrom|]. apply list_elem_of_lookup in Hc as [k Hk].
      destruct (Forall2_lookup_r _ _ _ _ _ Hcs Hk) as (e & He & Hm). exists i, j, e. split; [|done].
      by eapply list_elem_of_lookup_2.
    + intros a b e Hab He. destruct (Hbef a b Hab) as [Hlt|[-> ->]].
      * destruct (Hto a b e Hlt He) as (c & ? & ?). exists c. auto.
      * apply list_elem_of_lookup in He as [k Hk]. destruct (Forall2_lookup_l _ _ _ _ _ Hcs Hk) as (c & Hc & Hm).
        exists c. split; [|done]. right. by eapply list_elem_of_lookup_2.
  - eexists. split; [done|]. split; [done|]. split; [done|]. intros a b e Hab He.
    destruct (Hbef a b Hab) as [Hlt|[-> ->]]; [by apply Hto|]. rewrite Hne in He. set_solver.
Qed.

Lemma createLinks_spec : ∃ net, createLinks N fuel tp = Ok (tp, net) ∧
  (∀ c, c ∈ net → ∃ i j e, e ∈ links i j ∧ makes i j e c) ∧
  (∀ i j e, e ∈ links i j → ∃ c, c ∈ net ∧ makes i j e c).
Proof.
  pose proof Htp as (_ & _ & Hvn & Hnv & Hnd & En & Hn & _ & _). destruct tables as ((Hwsh & _) & _).
  unfold createLinks. rewrite <- En, i32_small, Hdw, Hvn by lia. simpl. rewrite Hsp. simpl.
  destruct (shape_rows _ _ _ _ 0 Hwsh) as (w0 & -> & Hw0 & Hrows); [lia|]. simpl.
  match goal with |- context [loop_from ?k 0 ?f ?s0] =>
    destruct (loop_from_inv (λ i, made_upto i 0) k 0 f s0) as ([tp' net] & -> & Htp' & Hfrom & Hto) end.
  - split; [done|]. simpl. split; [set_solver|]. intros a b e Hab He.
    destruct (links_group a b) as (_ & _ & ? & ? & _); [by intros Hnil; rewrite Hnil in He; set_solver|]. lia.
  - intros i s Hi Hs. destruct (vget_inbounds w0 i) as (row & Er & Hlk); [lia|]. rewrite Er. simpl.
    eapply Forall_lookup_1 in Hrows; [|done].
    match goal with |- context [loop_from ?k 0 ?f s] =>
      destruct (loop_from_inv (λ j, made_upto i j) k 0 f s Hs) as (s' & -> & Htp' & Hfrom & Hto) end.
    { intros j s1 Hj Hs1. apply make_pair; [lia|lia|done]. }
    exists s'. split; [done|]. split; [done|]. split; [done|]. intros a b e Hab He. apply Hto; [|done].
    destruct (links_group a b) as (_ & _ & ? & ? & _); [by intros Hnil; rewrite Hnil in He; set_solver|]. lia.
  - simpl in *. subst tp'. exists net. split; [done|]. split; [done|]. intros i j e He. apply Hto; [|done].
    destruct (links_group i j) as (_ & _ & ? & ? & _); [by intros Hnil; rewrite Hnil in He; set_solver|]. lia.
Qed.

End Links.

Section Network.
Import Topology.
Context (N : Z) {R : Type} `{MachineTypes R} (rs : R) `{!MachineLaws N rs, !MachineNumbers rs}.


End Network.

(** ** Two nodes and two routers *)

Section TwoRouters.
Import Topology.

#[local] Instance two_types : MachineTypes unit := {
  MachineType_NUM := 2;
  MachineType_base_level ty := ty;
  MachineType_from_base_level i := Ok i;
  MachineType_base_count _ _ := 1;
  MachineType_base_number _ ty := ty }.

#[local] Instance two_types_laws : MachineLaws 64 ().
Proof. constructor; simpl; done || lia. Qed.

#[local] Instance two_types_numbers : MachineNumbers ().
Proof.
  intros ty Hty. simpl in *. assert (ty = 0 ∨ ty = 1 ∨ ty = 2) as [->|[->| ->]] by lia; done.
Qed.

Definition two_routers : res t :=
  new 2 1 [mkExt (mkLink 0 1 1 []) 0 0 0; mkExt (mkLink 1 1 1 []) 1 0 1]
          [mkInt (mkLink 2 1 1 []) 0 1 "E" "W"; mkInt (mkLink 3 1 1 [0]) 1 0 "W" "E"] ().

Definition routers : t :=
  match two_routers with Ok tp => tp | Err _ => mk 0 0 0 [] [] [] () end.

(** Enough rounds for six switches. *)
Definition rounds : nat := Z.to_nat 400000.

Lemma rounds_enough : INFINITE_LATENCY * 6 * 6 < Z.of_nat rounds.
Proof. unfold rounds, INFINITE_LATENCY. rewrite Z2Nat.id; lia. Qed.

Lemma links_forall (Q : Z → Z → list LinkEntry → Prop) m i j : NoDup m.*1 →
  Forall (λ g, Q g.1.1 g.1.2 g.2) m → links_of m i j ≠ [] → Q i j (links_of m i j).
Proof.
  intros Hnd Hall Hne. unfold links_of in *. destruct (map_find (i, j) m) as [es|] eqn:Ef; [|done].
  apply map_find_In in Ef; [|done]. rewrite Forall_forall in Hall. by apply Hall in Ef.
Qed.

Lemma routers_map : NoDup (m_link_map routers).*1 ∧ map_sorted (m_link_map routers) ∧
  Forall (λ g, 0 ≤ g.1.1 < 6 ∧ 0 ≤ g.1.2 < 6 ∧ g.1.1 ≠ g.1.2 ∧ group_ok 1 g.2 ∧ g.2 ≠ []) (m_link_map routers) ∧
  Forall (λ g, ends_ok () g.1.1 g.1.2 ∧
    Forall (λ e, 1 ≤ m_weight (link e) < INFINITE_LATENCY ∧ 0 ≤ m_latency (link e) ≤ LMAX) g.2) (m_link_map routers).
Proof.
  assert (∀ e, (vnets 1 (link e)) = [0] → group_ok 1 [e]) as Hg.
  { intros e He. unfold group_ok. simpl. rewrite He. split; [repeat constructor; set_solver|]. set_solver by lia. }
  split; [|split; [|split]].
  - vm_compute. repeat (constructor; [set_solver|]). constructor.
  - unfold map_sorted. vm_compute. repeat constructor.
  - vm_compute m_link_map. repeat (constructor; [simpl; do 3 (split; [lia|]); split; [by apply Hg|done]|]). constructor.
  - vm_compute m_link_map. unfold ends_ok, nodes, INFINITE_LATENCY, LMAX.
    repeat (apply Forall_cons; split; [split; [simpl; lia|apply Forall_singleton; simpl; lia]|]). by apply Forall_nil.
Qed.

Lemma routers_ok fuel : INFINITE_LATENCY * 6 * 6 < Z.of_nat fuel → topology_ok () routers fuel 6 1.
Proof.
  intros Hfuel. destruct routers_map as (Hnd & Hs & Hall & Hrest).
  do 7 (split; [by vm_compute|]). split; [by split|]. split; [done|]. split; [|split; [|done]].
  - intros i j e He. assert (links_of (m_link_map routers) i j ≠ []) as Hne by (intros E; rewrite E in He; by apply not_elem_of_nil in He).
    destruct (links_forall (λ i j es, ends_ok () i j ∧ Forall (λ e, 1 ≤ m_weight (link e) < INFINITE_LATENCY ∧
      0 ≤ m_latency (link e) ≤ LMAX) es) _ i j Hnd Hrest Hne) as [_ Hf]. rewrite Forall_forall in Hf. by apply Hf.
  - intros i j Hne. by destruct (links_forall (λ i j es, ends_ok () i j ∧ Forall (λ e, 1 ≤ m_weight (link e) < INFINITE_LATENCY ∧
      0 ≤ m_latency (link e) ≤ LMAX) es) _ i j Hnd Hrest Hne).
Qed.

(** The tables of this network. *)
Definition direct_table : Matrix.t * Matrix.t :=
  match direct_weights routers with Ok wl => wl | Err _ => ([], []) end.

Definition distances : Matrix.t :=
  match shortest_path rounds routers direct_table.1 direct_table.2 (Matrix.new 6 6 1 0) with Ok d => d | Err _ => [] end.

Lemma direct_table_ok : direct_weights routers = Ok direct_table ∧
  weights_ok 6 1 direct_table.1 direct_table.2 (Matrix.new 6 6 1 0).
Proof.
  destruct (routers_ok _ rounds_enough) as (_ & _ & Hvn & Hnv & _ & En & _ & Hmap & _ & Hl & _).
  destruct (direct_weights_spec routers 1 6 Hvn Hnv Hmap Hl En) as (w & lat & E & Hok & _); [lia|].
  unfold direct_table. rewrite E. by split.
Qed.

Lemma shortest_path_correct_witness : ∃ d,
  shortest_path rounds routers direct_table.1 direct_table.2 (Matrix.new 6 6 1 0) = Ok d ∧
  is_distance 6 direct_table.1 0 0 3 (entry d 0 0 3).
Proof.
  destruct (shortest_path_correct 6 1 ltac:(lia) ltac:(lia) rounds routers _ _ _
    (proj2 direct_table_ok) eq_refl rounds_enough) as (d & E & _ & Hd).
  exists d. split; [exact E|]. apply Hd; lia.
Defined.



End TwoRouters.
