(* ===== verification/DataBlocks.v ===== *)
(** The data a cache line carries: atomic memory operations (base/amo.hh),
    write masks, data blocks and sub-blocks (mem/ruby/common), with the byte
    buffers they read and write. *)

From stdpp Require Import prelude list.
From Stdlib Require Import ZArith Lia.
From S2P Require Import Prelude Bits.

Open Scope Z_scope.

(** ** Byte buffers *)

Module Bytes.

(** [memcpy(&dst[off], src, n)]. *)
Definition memcpy (dst : list Z) (off : Z) (src : list Z) (n : Z) : res (list Z) :=
  if decide (0 ≤ n ≤ zlen src ∧ 0 ≤ off ∧ off + n ≤ zlen dst)
  then Ok (take (Z.to_nat off) dst ++ take (Z.to_nat n) src ++
           drop (Z.to_nat (off + n)) dst)
  else Err EUndef.

(** [memcmp(a, b, n) == 0]. *)
Definition memeq (a b : list Z) (n : Z) : res bool :=
  if decide (0 ≤ n ≤ zlen a ∧ n ≤ zlen b)
  then Ok (bool_decide (take (Z.to_nat n) a = take (Z.to_nat n) b))
  else Err EUndef.

(** The little-endian value of a sequence of bytes, and the bytes of a value. *)
Fixpoint le_decode (l : list Z) : Z :=
  match l with [] => 0 | b :: l => b + 2 ^ 8 * le_decode l end.

Fixpoint le_encode (n : nat) (v : Z) : list Z :=
  match n with O => [] | S n => v mod 2 ^ 8 :: le_encode n (v / 2 ^ 8) end.

End Bytes.

(** ** Atomic memory operations: base/amo.hh *)

Module Amo.
Import Bytes.

(** An integral type [T]: its size in bytes and whether it is signed. *)
Record ity := mkIty { size : nat; signed : bool }.

Definition width (ty : ity) : Z := 8 * Z.of_nat (size ty).

(** The value an object of type [T] holds after the assignment of [x]. *)
Definition conv (ty : ity) (x : Z) : Z :=
  if signed ty
  then (x + 2 ^ (width ty - 1)) mod 2 ^ width ty - 2 ^ (width ty - 1)
  else x mod 2 ^ width ty.

(** The result of an addition or a subtraction assigned to an object of type
    [T]. Operands narrower than [int] are promoted, so that only a signed [T]
    of at least 32 bits can overflow, which is undefined. *)
Definition arith (ty : ity) (x : Z) : res Z :=
  if signed ty && (32 <=? width ty)
  then if decide (- 2 ^ (width ty - 1) ≤ x < 2 ^ (width ty - 1)) then Ok x else Err EUndef
  else Ok (conv ty x).

Inductive AtomicOp :=
| AtomicOpAnd (a : Z) | AtomicOpOr (a : Z) | AtomicOpXor (a : Z) | AtomicOpExch (a : Z)
| AtomicOpAdd (a : Z) | AtomicOpSub (a : Z) | AtomicOpInc | AtomicOpDec
| AtomicOpMax (a : Z) | AtomicOpMin (a : Z)
| AtomicGeneric2Op (a : Z) (op : Z → Z → Z)
| AtomicGeneric3Op (a c : Z) (op : Z → Z → Z → Z).

(** [execute(T *b)]: the value of [*b] afterwards. The function object of a
    generic operation is given the value of [*b] and gives the new one. *)
Definition execute (ty : ity) (o : AtomicOp) (b : Z) : res Z :=
  match o with
  | AtomicOpAnd a => Ok (conv ty (Z.land b a))
  | AtomicOpOr a => Ok (conv ty (Z.lor b a))
  | AtomicOpXor a => Ok (conv ty (Z.lxor b a))
  | AtomicOpExch a => Ok a
  | AtomicOpAdd a => arith ty (b + a)
  | AtomicOpSub a => arith ty (b - a)
  | AtomicOpInc => arith ty (b + 1)
  | AtomicOpDec => arith ty (b - 1)
  | AtomicOpMax a => Ok (if b <? a then a else b)
  | AtomicOpMin a => Ok (if a <? b then a else b)
  | AtomicGeneric2Op a op => Ok (conv ty (op b a))
  | AtomicGeneric3Op a c op => Ok (conv ty (op b a c))
  end.

(** A functor object: the type it was instantiated at and its operation. *)
Record AtomicOpFunctor := mkFunctor { fty : ity; fop : AtomicOp }.

Definition clone (f : AtomicOpFunctor) : AtomicOpFunctor := mkFunctor (fty f) (fop f).

(** [*(T * )&p[offset]], read and written. *)
Definition load (ty : ity) (p : list Z) (offset : Z) : res Z :=
  if decide (0 ≤ offset ∧ offset + Z.of_nat (size ty) ≤ zlen p)
  then Ok (conv ty (le_decode (take (size ty) (drop (Z.to_nat offset) p))))
  else Err EUndef.

Definition store (ty : ity) (p : list Z) (offset v : Z) : res (list Z) :=
  memcpy p offset (le_encode (size ty) v) (Z.of_nat (size ty)).

(** [( *fnctr)(&p[offset])]. *)
Definition apply (f : AtomicOpFunctor) (p : list Z) (offset : Z) : res (list Z) :=
  let* b := load (fty f) p offset in
  let* b' := execute (fty f) (fop f) b in
  store (fty f) p offset b'.

End Amo.

(** ** mem/ruby/common/WriteMask *)

Module WriteMask.
Import Amo.

Record t := mk {
  mSize : Z; mMask : list bool; mAtomic : bool; mAtomicOp : list (Z * AtomicOpFunctor) }.

(** [std::vector<bool>(size, false)]; a negative size throws. *)
Definition bits_of_size (size : Z) : res (list bool) :=
  if 0 <=? size then Ok (replicate (Z.to_nat size) false) else Err EThrow.

Definition new : t := mk 0 [] false [].
Definition new_size (size : Z) : res t :=
  let* l := bits_of_size size in Ok (mk size l false []).
Definition new_mask (size : Z) (mask : list bool) : t := mk size mask false [].
Definition new_atomic (size : Z) (mask : list bool) (ops : list (Z * AtomicOpFunctor)) : t :=
  mk size mask true ops.

Definition with_mask (m : t) (l : list bool) : t := mk (mSize m) l (mAtomic m) (mAtomicOp m).

Definition getBlockSize (m : t) : Z := mSize m.

Definition clear (m : t) : res t := rmap (with_mask m) (bits_of_size (mSize m)).

Definition setBlockSize (m : t) (size : Z) : res t :=
  assert! mSize m =? 0 in
  assert! 0 <? size in
  clear (mk size (mMask m) (mAtomic m) (mAtomicOp m)).

Definition getBlockSizeBits (m : t) : res Z := IntMath.floorLog2 4 (mSize m).

Definition test (m : t) (offset : Z) : res bool :=
  assert! 0 <? mSize m in
  assert! offset <? mSize m in
  vget (mMask m) offset.

Definition setMask (m : t) (offset len : Z) (val : bool) : res t :=
  assert! 0 <? mSize m in
  let* e := chk_i32 (offset + len) in
  assert! e <=? mSize m in
  rmap (with_mask m)
    (loop_from (Z.to_nat len) 0 (λ i l, vset l (offset + i) val) (mMask m)).

Definition fillMask (m : t) : res t :=
  assert! 0 <? mSize m in
  rmap (with_mask m)
    (loop_from (Z.to_nat (mSize m)) 0 (λ i l, vset l i true) (mMask m)).

Definition getMask (m : t) (offset len : Z) : res bool :=
  assert! 0 <? mSize m in
  let* e := chk_i32 (offset + len) in
  assert! e <=? mSize m in
  loop_from (Z.to_nat len) 0
    (λ i tmp, let* b := vat (mMask m) (offset + i) in Ok (tmp && b)) true.

(** The loops of [isOverlap] and [containsMask]: [f] combines the bits of this
    mask where the other one is set. *)
Definition fold_under (f : bool → bool → bool) (tmp : bool) (m readMask : t) : res bool :=
  assert! 0 <? mSize m in
  assert! mSize m =? mSize readMask in
  loop_from (Z.to_nat (mSize m)) 0
    (λ i tmp,
       let* r := vat (mMask readMask) i in
       if r : bool then let* b := vat (mMask m) i in Ok (f tmp b) else Ok tmp) tmp.

Definition isOverlap (m readMask : t) : res bool := fold_under orb false m readMask.
Definition containsMask (m readMask : t) : res bool := fold_under andb true m readMask.

(** The loops of [isEmpty] and [isFull] return at the first bit [val]. *)
Definition none_is (val : bool) (m : t) : res bool :=
  assert! 0 <? mSize m in
  let* r := find_from (Z.to_nat (mSize m)) 0
    (λ i, let* b := vat (mMask m) i in Ok (if eqb b val then Some tt else None)) in
  Ok (match r with Some _ => false | None => true end).

Definition isEmpty (m : t) : res bool := none_is true m.
Definition isFull (m : t) : res bool := none_is false m.

(** The bit loops of [andMask] and [orMask]: [&&] and [||] read the second bit
    only when they need it. *)
Definition combine (f : bool → bool → bool) (needs : bool) (m writeMask : t) : res t :=
  assert! 0 <? mSize m in
  assert! mSize m =? mSize writeMask in
  let* l := loop_from (Z.to_nat (mSize m)) 0
    (λ i l,
       let* a := vat l i in
       let* b := (if eqb a needs then vat (mMask writeMask) i else Ok a) in
       vset l i (f a b)) (mMask m) in
  Ok (if mAtomic writeMask then mk (mSize m) l true (mAtomicOp writeMask)
      else with_mask m l).

Definition andMask (m writeMask : t) : res t := combine andb true m writeMask.
Definition orMask (m writeMask : t) : res t := combine orb false m writeMask.

Definition setInvertedMask (m writeMask : t) : res t :=
  assert! 0 <? mSize m in
  assert! mSize m =? mSize writeMask in
  rmap (with_mask m) (loop_from (Z.to_nat (mSize m)) 0
    (λ i l, let* b := vat (mMask writeMask) i in vset l i (negb b)) (mMask m)).

Definition firstBitSet (m : t) (val : bool) (offset : Z) : res Z :=
  assert! 0 <? mSize m in
  let* r := find_from (Z.to_nat (mSize m - offset)) offset
    (λ i, let* b := vget (mMask m) i in Ok (if eqb b val then Some i else None)) in
  Ok (match r with Some i => i | None => mSize m end).

Definition count (m : t) (offset : Z) : res Z :=
  assert! 0 <? mSize m in
  loop_from (Z.to_nat (mSize m - offset)) offset
    (λ i c, let* b := vget (mMask m) i in Ok (c + Z.b2z b)) 0.

Definition getAtomicOps (m : t) : list (Z * AtomicOpFunctor) := mAtomicOp m.

Definition setAtomicOps (m : t) (ops : list (Z * AtomicOpFunctor)) : t :=
  mk (mSize m) (mMask m) true ops.

(** The operations in the order they were coalesced; unless no value is to be
    returned, the block is copied into the log before each of them. *)
Fixpoint perform_ops (mSize : Z) (isAtomicNoReturn : bool) (ops : list (Z * AtomicOpFunctor))
    (p : list Z) (log : list (list Z)) : res (list Z * list (list Z)) :=
  match ops with
  | [] => Ok (p, log)
  | (offset, fnctr) :: ops =>
      let* log := (if isAtomicNoReturn then Ok log
                   else let* copy := Bytes.memcpy (replicate (Z.to_nat mSize) 0) 0 p mSize in
                        Ok (log ++ [copy])) in
      let* p := apply fnctr p offset in
      perform_ops mSize isAtomicNoReturn ops p log
  end.

Definition performAtomic (m : t) (p : list Z) (log : list (list Z)) (isAtomicNoReturn : bool)
    : res (list Z * list (list Z)) :=
  assert! 0 <? mSize m in
  perform_ops (mSize m) isAtomicNoReturn (mAtomicOp m) p log.

End WriteMask.

(** ** mem/packet.hh: the part of a packet a data block reads *)

Module Packet.

(** [byteEnable] is the request's byte enable when [isMaskedWrite()]. *)
Record t := mk { addr : Z; size : Z; data : list Z; byteEnable : option (list bool) }.

(** [writeData(&p[off])]. *)
Definition writeData (pkt : t) (p : list Z) (off : Z) : res (list Z) :=
  match byteEnable pkt with
  | None => Bytes.memcpy p off (data pkt) (size pkt)
  | Some enable =>
      assert! zlen enable =? size pkt in
      loop_from (Z.to_nat (size pkt)) 0
        (λ i p, let* e := vget enable i in
                if e : bool then let* b := vget (data pkt) i in vset p (off + i) b
                else Ok p) p
  end.

End Packet.

(** ** mem/ruby/common/DataBlock *)

Module DataBlock.

(** [m_data] is [None] when it is the null pointer. *)
Record t := mk {
  m_data : option (list Z); m_alloc : bool; m_block_size : Z; m_atomicLog : list (list Z) }.

Definition new_default : t := mk None false 0 [].

(** The buffer behind [m_data]; a null pointer is not dereferenced. *)
Definition buffer (b : t) : res (list Z) := of_option EUndef (m_data b).

Definition with_data (b : t) (d : list Z) : t :=
  mk (Some d) (m_alloc b) (m_block_size b) (m_atomicLog b).

Definition clear (b : t) : res t :=
  assert! m_alloc b in
  assert! 0 <? m_block_size b in
  let* d := buffer b in
  let n := m_block_size b in
  rmap (with_data b) (Bytes.memcpy d 0 (replicate (Z.to_nat n) 0) n).

(** [new uint8_t[n]]: bytes of arbitrary value, here [garbage]. *)
Definition new_bytes (n garbage : Z) : res (list Z) :=
  if 0 <=? n then Ok (replicate (Z.to_nat n) garbage) else Err EThrow.

Definition alloc (garbage : Z) (b : t) : res t :=
  assert! negb (m_alloc b) in
  if m_block_size b =? 0 then Ok b
  else
    let* d := new_bytes (m_block_size b) garbage in
    clear (mk (Some d) true (m_block_size b) (m_atomicLog b)).

Definition new (garbage blk_size : Z) : res t := alloc garbage (mk None false blk_size []).

Definition realloc (garbage : Z) (b : t) (blk_size : Z) : res t :=
  assert! 0 <? blk_size in
  alloc garbage (mk (m_data b) false blk_size (m_atomicLog b)).

Definition setBlockSize (garbage : Z) (b : t) (block_size : Z) : res t :=
  realloc garbage b block_size.

Definition getBlockSize (b : t) : Z := m_block_size b.
Definition isAlloc (b : t) : bool := m_alloc b.

(** [n] bytes of a buffer copied into a new one. *)
Definition copy_of (l : list Z) (n : Z) : res (list Z) :=
  Bytes.memcpy (replicate (Z.to_nat n) 0) 0 l n.

(** The loop that copies a change log, entry by entry. *)
Fixpoint copy_log (n : Z) (src dst : list (list Z)) : res (list (list Z)) :=
  match src with
  | [] => Ok dst
  | e :: src => let* c := copy_of e n in copy_log n src (dst ++ [c])
  end.

(** The copy constructor. *)
Definition copy (cp : t) : res t :=
  assert! isAlloc cp in
  assert! 0 <? getBlockSize cp in
  let n := getBlockSize cp in
  let* src := buffer cp in
  let* d := copy_of src n in
  let* log := copy_log n (m_atomicLog cp) [] in
  Ok (mk (Some d) true n log).

(** [operator=] makes [this] a block of the size of [obj], ... *)
Definition resize_to (garbage : Z) (this obj : t) : res t :=
  let n := getBlockSize obj in
  if m_alloc this && negb (m_block_size this =? n) then
    (* the buffer is deleted, but m_alloc is still set *)
    alloc garbage (mk (m_data this) (m_alloc this) n (m_atomicLog this))
  else if negb (m_alloc this) then
    alloc garbage (mk (m_data this) (m_alloc this) n (m_atomicLog this))
  else assert! m_alloc this && (m_block_size this =? n) in Ok this.

(** ... then copies the contents and appends the change log of [obj]. [this]
    and [obj] are two objects. *)
Definition assign_op (garbage : Z) (this obj : t) : res t :=
  let resized := negb (m_alloc this) in
  let* b := resize_to garbage this obj in
  if resized && (m_block_size b =? 0) then Ok b
  else
    assert! 0 <? m_block_size b in
    let n := m_block_size b in
    let* d := buffer b in
    let* src := buffer obj in
    let* d := Bytes.memcpy d 0 src n in
    let* log := copy_log n (m_atomicLog obj) (m_atomicLog b) in
    Ok (mk (Some d) (m_alloc b) n log).

(** The log loop of [x = x], whose bound is the size of the log it appends to. *)
Fixpoint self_copy_log (fuel : nat) (i n : Z) (log : list (list Z)) : res (list (list Z)) :=
  match fuel with
  | O => Err EFuel
  | S fuel =>
      if i <? zlen log
      then let* e := vget log i in
           let* c := copy_of e n in self_copy_log fuel (i + 1) n (log ++ [c])
      else Ok log
  end.

Definition assign (b : t) (data : option (list Z)) : res t :=
  assert! bool_decide (is_Some data) in
  Ok (mk data false (m_block_size b) (m_atomicLog b)).

Definition getByte (b : t) (whichByte : Z) : res Z :=
  assert! m_alloc b in let* d := buffer b in vget d whichByte.

Definition setByte (b : t) (whichByte data : Z) : res t :=
  assert! m_alloc b in
  let* d := buffer b in rmap (with_data b) (vset d whichByte data).

Definition setData (b : t) (data : list Z) (offset len : Z) : res t :=
  assert! m_alloc b in
  let* d := buffer b in rmap (with_data b) (Bytes.memcpy d offset data len).

(** [&d[offset]]: the bytes from [offset] on. *)
Definition bytes_from (d : list Z) (offset : Z) : res (list Z) :=
  if decide (0 ≤ offset ≤ zlen d) then Ok (drop (Z.to_nat offset) d) else Err EUndef.

Definition copyPartial (b dblk : t) (offset len : Z) : res t :=
  assert! m_alloc b in
  let* src := buffer dblk in
  let* src := bytes_from src offset in
  setData b src offset len.

Definition getData (b : t) (offset len : Z) : res (list Z) :=
  assert! m_alloc b in
  assert! 0 <? m_block_size b in
  let* e := chk_i32 (offset + len) in
  assert! e <=? m_block_size b in
  let* d := buffer b in bytes_from d offset.

(** The pointer [getDataMod] returns, as the position in the buffer. *)
Definition getDataMod (b : t) (offset : Z) : res Z :=
  assert! m_alloc b in
  let* d := buffer b in let* _ := bytes_from d offset in Ok offset.

Definition setData_pkt (b : t) (pkt : Packet.t) : res t :=
  assert! m_alloc b in
  assert! 0 <? m_block_size b in
  let* bits := IntMath.floorLog2 4 (m_block_size b) in
  let* offset := Address.getOffset (Packet.addr pkt) bits in
  assert! u32 (i32 offset + Packet.size pkt) <=? u32 (m_block_size b) in
  let* d := buffer b in
  rmap (with_data b) (Packet.writeData pkt d (i32 offset)).

Definition copyPartial_mask (b dblk : t) (mask : WriteMask.t) : res t :=
  assert! m_alloc b in
  assert! 0 <? m_block_size b in
  let* d := buffer b in
  rmap (with_data b) (loop_from (Z.to_nat (m_block_size b)) 0
    (λ i d, let* m := WriteMask.getMask mask i 1 in
            if m : bool then let* src := buffer dblk in
                             let* x := vget src i in vset d i x
            else Ok d) d).

Definition atomicPartial (b dblk : t) (mask : WriteMask.t) (isAtomicNoReturn : bool) : res t :=
  assert! m_alloc b in
  assert! 0 <? m_block_size b in
  let* d := buffer b in
  let* d := loop_from (Z.to_nat (m_block_size b)) 0
    (λ i d, let* src := buffer dblk in let* x := vget src i in vset d i x) d in
  let* (d, log) := WriteMask.performAtomic mask d (m_atomicLog b) isAtomicNoReturn in
  Ok (mk (Some d) (m_alloc b) (m_block_size b) log).

(** The comparison of the change logs of two blocks of [n] bytes. *)
Fixpoint equal_logs (n : Z) (a b : list (list Z)) : res bool :=
  match a, b with
  | x :: a, y :: b =>
      let* e := Bytes.memeq x y n in if e : bool then equal_logs n a b else Ok false
  | _, _ => Ok true
  end.

Definition equal (b obj : t) : res bool :=
  assert! m_alloc b in
  assert! 0 <? m_block_size b in
  let* d := buffer b in
  let* d' := buffer obj in
  let* e := Bytes.memeq d d' (m_block_size b) in
  if negb e then Ok false
  else if negb (zlen (m_atomicLog b) =? zlen (m_atomicLog obj)) then Ok false
  else equal_logs (m_block_size b) (m_atomicLog b) (m_atomicLog obj).

Definition numAtomicLogEntries (b : t) : Z := zlen (m_atomicLog b).

Definition popAtomicLogEntryFront (b : t) : res (list Z * t) :=
  assert! 0 <? zlen (m_atomicLog b) in
  match m_atomicLog b with
  | [] => Err EUndef
  | e :: log => Ok (e, mk (m_data b) (m_alloc b) (m_block_size b) log)
  end.

Definition clearAtomicLogEntries (b : t) : res t :=
  assert! m_alloc b in Ok (mk (m_data b) (m_alloc b) (m_block_size b) []).

End DataBlock.

(** ** mem/ruby/common/SubBlock *)

Module SubBlock.

Record t := mk { m_address : Z; m_data : list Z; m_cache_line_bits : Z }.

(** The constructor; [resize] throws for a negative size. *)
Definition new (addr size cl_bits : Z) : res t :=
  if 0 <=? size then Ok (mk addr (replicate (Z.to_nat size) 0) cl_bits) else Err EThrow.

Definition getAddress (s : t) : Z := m_address s.
Definition setAddress (s : t) (addr : Z) : t := mk addr (m_data s) (m_cache_line_bits s).
Definition getSize (s : t) : Z := zlen (m_data s).

(** [m_data.resize(size)]: cut, or filled up with zeros. *)
Definition resize (s : t) (size : Z) : res t :=
  if 0 <=? size
  then Ok (mk (m_address s)
             (take (Z.to_nat size) (m_data s) ++
              replicate (Z.to_nat size - length (m_data s)) 0) (m_cache_line_bits s))
  else Err EThrow.

Definition getByte (s : t) (offset : Z) : res Z := vget (m_data s) offset.
Definition setByte (s : t) (offset data : Z) : res t :=
  rmap (λ d, mk (m_address s) d (m_cache_line_bits s)) (vset (m_data s) offset data).
Definition readByte (s : t) : res Z := getByte s 0.
Definition writeByte (s : t) (data : Z) : res t := setByte s 0 data.

Definition mergeFrom (s : t) (data : DataBlock.t) : res t :=
  assert! 0 <? getSize s in
  let* offset := Address.getOffset (m_address s) (m_cache_line_bits s) in
  loop_from (Z.to_nat (getSize s)) 0
    (λ i s, let* x := DataBlock.getByte data (i32 offset + i) in setByte s i x) s.

Definition mergeTo (s : t) (data : DataBlock.t) : res DataBlock.t :=
  assert! 0 <? getSize s in
  let* offset := Address.getOffset (m_address s) (m_cache_line_bits s) in
  loop_from (Z.to_nat (getSize s)) 0
    (λ i data, let* x := getByte s i in DataBlock.setByte data (i32 offset + i) x) data.

End SubBlock.
