(* ===== verification/DataBlockSpec.v ===== *)
(** Write masks are sets of byte offsets, masked copies merge two blocks,
    coalesced atomic operations are serialised with every requestor's old value
    in the log, and assignment and sub-blocks copy what they should. *)

From stdpp Require Import prelude list.
From Stdlib Require Import ZArith Lia.
From S2P Require Import Prelude Bits DataBlocks.

Open Scope Z_scope.

(** ** Masks as sets of offsets *)

Section Masks.
Import WriteMask.
Implicit Types m w : t.

Definition wf m : Prop := 0 < mSize m < 2 ^ 31 ∧ zlen (mMask m) = mSize m.

(** Offset [k] is in the mask. *)
Definition has m (k : nat) : bool := default false (mMask m !! k).

Lemma has_lookup m k : wf m → Z.of_nat k < mSize m → mMask m !! k = Some (has m k).
Proof.
  intros [_ Hl] Hk. unfold has. destruct (lookup_lt_is_Some_2 (mMask m) k) as [b ->]; [lia|done].
Qed.

Lemma has_out m k : wf m → mSize m ≤ Z.of_nat k → has m k = false.
Proof. intros [_ Hl] Hk. unfold has. by rewrite lookup_ge_None_2 by lia. Qed.

Lemma vat_has m k : wf m → Z.of_nat k < mSize m → vat (mMask m) (Z.of_nat k) = Ok (has m k).
Proof.
  intros Hm Hk. apply vat_Ok. split; [lia|]. rewrite Nat2Z.id. by apply has_lookup.
Qed.

Lemma vget_has m k : wf m → Z.of_nat k < mSize m → vget (mMask m) (Z.of_nat k) = Ok (has m k).
Proof.
  intros Hm Hk. apply vget_Ok. split; [lia|]. rewrite Nat2Z.id. by apply has_lookup.
Qed.

Lemma size_length m : wf m → Z.to_nat (mSize m) = length (mMask m).
Proof. intros [_ <-]. by rewrite Nat2Z.id. Qed.

#[local] Ltac guards H :=
  let H' := fresh in pose proof H as H'; destruct H' as [[? ?] ?];
  rewrite ?(proj2 (Z.ltb_lt 0 _)), ?(proj2 (Z.eqb_eq _ _)) by done; cbn [require rbind].

Lemma has_imap m h (l := imap h (mMask m)) k :
  wf m → wf (with_mask m l) ∧
  (Z.of_nat k < mSize m → has (with_mask m l) k = h k (has m k)).
Proof.
  intros Hm. subst l. split.
  - destruct Hm. split; simpl; [done|]. by rewrite length_imap.
  - intros Hk. unfold has at 1. simpl. rewrite list_lookup_imap, (has_lookup m) by done. done.
Qed.

Lemma combine_spec f needs m w :
  (∀ a, eqb a needs = false → ∀ b, f a a = f a b) →
  wf m → wf w → mSize m = mSize w →
  ∃ l, combine f needs m w = Ok (if mAtomic w then mk (mSize m) l true (mAtomicOp w)
                                 else with_mask m l) ∧
       l = imap (λ k a, f a (has w k)) (mMask m).
Proof.
  intros Hf Hm Hw Hs. eexists. split; [|reflexivity]. unfold combine. guards Hm.
  rewrite size_length by done. rewrite (loop_imap _ (λ k a, f a (has w k))); [done|].
  intros k l1 x Hl Hx Hx1. assert (Z.of_nat k < mSize w).
  { apply lookup_lt_Some in Hx. lia. }
  rewrite (proj2 (vat_Ok l1 (Z.of_nat k) x)) by (rewrite Nat2Z.id; split; [lia|done]).
  cbn [rbind]. rewrite (vat_has w) by done.
  assert ((if eqb x needs then Ok (has w k) else Ok x) =
    Ok (if eqb x needs then has w k else x)) as -> by by destruct (eqb x needs).
  cbn [rbind]. rewrite vset_inbounds, Nat2Z.id by (apply lookup_lt_Some in Hx; lia).
  do 2 f_equal. destruct (eqb x needs) eqn:Ex; [done|by apply Hf].
Qed.

Lemma fold_under_spec f tmp m w (P : nat → bool → Prop) :
  wf m → wf w → mSize m = mSize w → P O tmp →
  (∀ k b, Z.of_nat k < mSize m → P k b →
     P (S k) (if has w k then f b (has m k) else b)) →
  ∃ b, fold_under f tmp m w = Ok b ∧ P (Z.to_nat (mSize m)) b.
Proof.
  intros Hm Hw Hs H0 Hstep. unfold fold_under. guards Hm.
  destruct (loop_from_inv (λ j b, P (Z.to_nat j) b) (Z.to_nat (mSize m)) 0
    (λ i tmp0, let* r := vat (mMask w) i in
       if r : bool then let* b := vat (mMask m) i in Ok (f tmp0 b) else Ok tmp0) tmp)
    as (b & E & Hb); [done| |].
  - intros j b Hj HP. set (k := Z.to_nat j). replace j with (Z.of_nat k) by lia.
    rewrite (vat_has w), (vat_has m) by (done || lia). cbn [rbind].
    exists (if has w k then f b (has m k) else b). split; [by destruct (has w k)|].
    replace (Z.to_nat (Z.of_nat k + 1)) with (S k) by lia. apply Hstep; [lia|done].
  - exists b. split; [done|]. by replace (0 + Z.of_nat (Z.to_nat (mSize m))) with (mSize m) in Hb by lia.
Qed.

Lemma none_is_spec val m :
  wf m → ∃ b, none_is val m = Ok b ∧
    (b = true ↔ ∀ k, Z.of_nat k < mSize m → has m k = negb val).
Proof.
  intros Hm. unfold none_is. guards Hm.
  destruct (find_from_spec (λ i, let* b := vat (mMask m) i in
      Ok (if eqb b val then Some tt else None))
    (λ i, if eqb (has m (Z.to_nat i)) val then Some tt else None) (Z.to_nat (mSize m)) 0)
    as (r & -> & Hr).
  { intros j Hj. replace j with (Z.of_nat (Z.to_nat j)) at 1 by lia.
    rewrite vat_has by (done || lia). done. }
  cbn [rbind]. eexists. split; [done|]. destruct r as [[]|].
  - split; [done|]. intros Hall. destruct Hr as (j & Hj & Hg & _).
    rewrite Hall in Hg by lia. by destruct val.
  - split; [|done]. intros _ k Hk. specialize (Hr (Z.of_nat k) ltac:(lia)).
    rewrite Nat2Z.id in Hr. by destruct (has m k), val.
Qed.

Lemma combine_has f needs m w :
  (∀ a, eqb a needs = false → ∀ b, f a a = f a b) → f false false = false →
  wf m → wf w → mSize m = mSize w →
  ∃ m', combine f needs m w = Ok m' ∧ wf m' ∧ mSize m' = mSize m ∧
        ∀ k, has m' k = f (has m k) (has w k).
Proof.
  intros Hf H0 Hm Hw Hs. destruct (combine_spec f needs m w) as (l & -> & ->); [done..|].
  set (h := λ k a, f a (has w k)).
  assert (∀ m', mSize m' = mSize m → mMask m' = imap h (mMask m) →
    wf m' ∧ mSize m' = mSize m ∧ ∀ k, has m' k = f (has m k) (has w k)) as Hgo.
  { intros m' Es Em. assert (wf m') as Hm'.
    { destruct Hm. split; [by rewrite Es|by rewrite Em, length_imap, Es]. }
    split_and!; [done|done|]. intros k. destruct (decide (Z.of_nat k < mSize m)).
    - unfold has at 1. rewrite Em, list_lookup_imap, (has_lookup m) by done. done.
    - by rewrite (has_out m'), (has_out m), (has_out w) by (done || lia). }
  eexists. split; [done|]. destruct (mAtomic w); by apply Hgo.
Qed.

Lemma setInvertedMask_spec m w :
  wf m → wf w → mSize m = mSize w →
  ∃ m', setInvertedMask m w = Ok m' ∧ wf m' ∧ mSize m' = mSize m ∧
        ∀ k, Z.of_nat k < mSize m → has m' k = negb (has w k).
Proof.
  intros Hm Hw Hs. unfold setInvertedMask. guards Hm.
  rewrite size_length by done. rewrite (loop_imap _ (λ k _, negb (has w k))).
  - cbn [rmap]. eexists. split; [done|]. destruct (has_imap m (λ k _, negb (has w k)) O Hm) as [? _].
    split_and!; [done|done|]. intros k Hk.
    by apply (has_imap m (λ k _, negb (has w k))).
  - intros k l1 x Hl Hx Hx1. apply lookup_lt_Some in Hx.
    rewrite (vat_has w) by (done || lia). cbn [rbind].
    rewrite vset_inbounds, Nat2Z.id by lia. done.
Qed.

Lemma getMask_one m k : wf m → Z.of_nat k < mSize m → getMask m (Z.of_nat k) 1 = Ok (has m k).
Proof.
  intros Hm Hk. unfold getMask. guards Hm. rewrite chk_i32_Ok by lia. cbn [rbind].
  rewrite (proj2 (Z.leb_le _ _)) by lia. cbn [require rbind].
  change (Z.to_nat 1) with 1%nat. cbn [loop_from]. rewrite Z.add_0_r, vat_has by done. done.
Qed.

Lemma setMask_spec m offset len val :
  wf m → 0 ≤ offset → 0 ≤ len → offset + len ≤ mSize m →
  ∃ m', setMask m offset len val = Ok m' ∧ wf m' ∧ mSize m' = mSize m ∧
    ∀ k, has m' k = if decide (offset ≤ Z.of_nat k < offset + len) then val else has m k.
Proof.
  intros Hm Ho Hl Hs. unfold setMask. guards Hm. rewrite chk_i32_Ok by lia. cbn [rbind].
  rewrite (proj2 (Z.leb_le _ _)) by lia. cbn [require rbind].
  destruct (loop_from_inv (λ j l, length l = length (mMask m) ∧ ∀ k, l !! k =
    if decide (offset ≤ Z.of_nat k < offset + j) then Some val else mMask m !! k)
    (Z.to_nat len) 0 (λ i l, vset l (offset + i) val) (mMask m)) as (l & -> & Hll & Hlk).
  - split; [done|]. intros k. by rewrite decide_False by lia.
  - intros j l Hj [Hll Hlk]. rewrite vset_inbounds by lia. eexists. split; [done|].
    rewrite length_insert. split; [done|]. intros k.
    destruct (decide (k = Z.to_nat (offset + j))) as [->|Hne].
    + rewrite list_lookup_insert_eq by lia. by rewrite decide_True by lia.
    + rewrite list_lookup_insert_ne, Hlk by done. repeat case_decide; done || lia.
  - cbn [rmap]. eexists. split; [done|]. split_and!; [split; simpl; lia|done|].
    intros k. unfold has. simpl. rewrite Hlk. repeat case_decide; done || lia.
Qed.

Lemma count_spec m :
  wf m → count m 0 = Ok (zlen (filter (λ b, b = true) (mMask m))).
Proof.
  intros Hm. unfold count. guards Hm. rewrite Z.sub_0_r, size_length by done.
  destruct (loop_from_inv
    (λ j c, c = zlen (filter (λ b, b = true) (take (Z.to_nat j) (mMask m))))
    (length (mMask m)) 0 (λ i c, let* b := vget (mMask m) i in Ok (c + Z.b2z b)) 0)
    as (c & -> & ->); [done| |].
  - intros j c Hj ->. set (k := Z.to_nat j).
    assert (vget (mMask m) j = Ok (has m k)) as ->.
    { replace j with (Z.of_nat k) by lia. apply vget_has; [done|lia]. }
    cbn [rbind]. eexists. split; [done|].
    replace (Z.to_nat (j + 1)) with (S k) by lia.
    rewrite (take_S_r _ _ (has m k)) by (apply has_lookup; [done|lia]).
    rewrite filter_app, length_app. destruct (has m k); simpl; lia.
  - by rewrite take_ge by lia.
Qed.

Lemma has_lt m k : wf m → has m k = true → Z.of_nat k < mSize m.
Proof.
  intros Hm Hk. destruct (decide (Z.of_nat k < mSize m)); [done|].
  by rewrite has_out in Hk by (done || lia).
Qed.

Lemma isOverlap_spec m w :
  wf m → wf w → mSize m = mSize w →
  ∃ b, isOverlap m w = Ok b ∧ (b = true ↔ ∃ k, has m k = true ∧ has w k = true).
Proof.
  intros Hm Hw Hs. pose proof (λ k, has_lt w k Hw) as Hin. rewrite <- Hs in Hin.
  destruct (fold_under_spec orb false m w
    (λ n b, b = true ↔ ∃ k, (k < n)%nat ∧ has m k = true ∧ has w k = true)) as (b & E & Hb);
    [done..|split; [done|]; intros (? & ? & _); lia| |].
  - intros n b Hn Hb. split.
    + destruct (has w n) eqn:Ew; [intros [(k & ? & ?)%Hb| ?]%orb_true_iff
        |intros (k & ? & ?)%Hb]; eauto with lia.
    + intros (k & Hk & Hmk & Hwk). destruct (decide (k = n)) as [->|].
      { rewrite Hwk, Hmk. apply orb_true_r. }
      assert (b = true) as -> by (apply Hb; exists k; split; [lia|done]).
      by destruct (has w n).
  - exists b. split; [done|]. rewrite Hb. split; [naive_solver|].
    intros (k & ? & Hwk). exists k. specialize (Hin k Hwk). split; [lia|done].
Qed.

Lemma containsMask_spec m w :
  wf m → wf w → mSize m = mSize w →
  ∃ b, containsMask m w = Ok b ∧ (b = true ↔ ∀ k, has w k = true → has m k = true).
Proof.
  intros Hm Hw Hs. pose proof (λ k, has_lt w k Hw) as Hin. rewrite <- Hs in Hin.
  destruct (fold_under_spec andb true m w
    (λ n b, b = true ↔ ∀ k, (k < n)%nat → has w k = true → has m k = true)) as (b & E & Hb);
    [done..|split; [intros _ k; lia|done]| |].
  - intros n b Hn Hb. split.
    + intros H k Hk Hwk. destruct (decide (k = n)) as [->|].
      { rewrite Hwk in H. by apply andb_true_iff in H as [_ ?]. }
      apply Hb; [|lia|done]. destruct (has w n); [by apply andb_true_iff in H as [? _]|done].
    + intros H. assert (b = true) as -> by (apply Hb; intros; apply H; [lia|done]).
      destruct (has w n) eqn:Ew; [|done]. by rewrite (H n) by (lia || done).
  - exists b. split; [done|]. rewrite Hb. split; [|naive_solver].
    intros H k Hwk. apply H; [|done]. specialize (Hin k Hwk). lia.
Qed.

(** A write mask is a set of byte offsets of its block. For two masks of
    one size [andMask], [orMask] and [setInvertedMask] are intersection, union
    and complement, [isOverlap] and [containsMask] decide whether they meet and
    whether the second is included in the first, [isEmpty] and [isFull] decide
    emptiness and fullness, [count] is the cardinality, and [setMask] changes
    exactly the range it is given. *)
Theorem masks_are_sets m w (Hm : wf m) (Hw : wf w) (Hs : mSize m = mSize w) :
  (∃ m', andMask m w = Ok m' ∧ wf m' ∧ ∀ k, has m' k = has m k && has w k) ∧
  (∃ m', orMask m w = Ok m' ∧ wf m' ∧ ∀ k, has m' k = has m k || has w k) ∧
  (∃ m', setInvertedMask m w = Ok m' ∧ wf m' ∧
     ∀ k, Z.of_nat k < mSize m → has m' k = negb (has w k)) ∧
  (∃ b, isOverlap m w = Ok b ∧ (b = true ↔ ∃ k, has m k = true ∧ has w k = true)) ∧
  (∃ b, containsMask m w = Ok b ∧ (b = true ↔ ∀ k, has w k = true → has m k = true)) ∧
  (∃ b, isEmpty m = Ok b ∧ (b = true ↔ ∀ k, has m k = false)) ∧
  (∃ b, isFull m = Ok b ∧ (b = true ↔ ∀ k, Z.of_nat k < mSize m → has m k = true)) ∧
  count m 0 = Ok (zlen (filter (λ b, b = true) (mMask m))) ∧
  (∀ offset len val, 0 ≤ offset → 0 ≤ len → offset + len ≤ mSize m →
     ∃ m', setMask m offset len val = Ok m' ∧ wf m' ∧
       ∀ k, has m' k = if decide (offset ≤ Z.of_nat k < offset + len) then val else has m k).
Proof.
  split_and!.
  - destruct (combine_has andb true m w) as (m' & ? & ? & _ & ?); [by intros []|done..|eauto].
  - destruct (combine_has orb false m w) as (m' & ? & ? & _ & ?); [by intros []|done..|eauto].
  - destruct (setInvertedMask_spec m w) as (m' & ? & ? & _ & ?); eauto.
  - by apply isOverlap_spec.
  - by apply containsMask_spec.
  - destruct (none_is_spec true m Hm) as (b & E & Hb). exists b. split; [done|].
    rewrite Hb. split; [|naive_solver]. intros H k.
    destruct (decide (Z.of_nat k < mSize m)); [by apply H|apply has_out; [done|lia]].
  - apply (none_is_spec false m Hm).
  - by apply count_spec.
  - intros offset len val ???. destruct (setMask_spec m offset len val) as (m' & ? & ? & _ & ?); eauto.
Qed.

End Masks.

(** ** Byte buffers and atomic operations *)

Section Atomics.
Import Bytes Amo.

Lemma memcpy_spec dst off src n :
  0 ≤ n ≤ zlen src → 0 ≤ off → off + n ≤ zlen dst →
  ∃ l, memcpy dst off src n = Ok l ∧ length l = length dst ∧
    ∀ k, l !! k = if decide (off ≤ Z.of_nat k < off + n)
                  then src !! (k - Z.to_nat off)%nat else dst !! k.
Proof.
  intros Hn Ho Hd. unfold memcpy. rewrite decide_True by done.
  eexists. split; [done|]. split.
  { rewrite !length_app, !length_take, length_drop. lia. }
  intros k. assert (length (take (Z.to_nat off) dst) = Z.to_nat off) as Hl1
    by (rewrite length_take; lia).
  assert (length (take (Z.to_nat n) src) = Z.to_nat n) as Hl2 by (rewrite length_take; lia).
  destruct (decide (Z.of_nat k < off)).
  { rewrite decide_False by lia. rewrite lookup_app_l by lia. apply lookup_take_lt. lia. }
  rewrite lookup_app_r, Hl1 by lia. case_decide.
  - rewrite lookup_app_l by lia. apply lookup_take_lt. lia.
  - rewrite lookup_app_r, Hl2, lookup_drop by lia. f_equal. lia.
Qed.

(** A copy of exactly the bytes of a buffer. *)
Lemma memcpy_all dst src : length dst = length src → memcpy dst 0 src (zlen src) = Ok src.
Proof.
  intros Hl. destruct (memcpy_spec dst 0 src (zlen src)) as (l & -> & Hll & Hlk); [lia..|].
  f_equal. apply list_eq. intros k. rewrite Hlk. case_decide; [f_equal; lia|].
  rewrite !lookup_ge_None_2; [done|lia..].
Qed.

Lemma le_encode_length n v : length (le_encode n v) = n.
Proof. revert v. induction n; intros; simpl; auto. Qed.

Lemma le_decode_encode n v : le_decode (le_encode n v) = v mod 2 ^ (8 * Z.of_nat n).
Proof.
  revert v. induction n as [|n IH]; intros v; [by rewrite Z.mod_1_r|].
  cbn [le_encode le_decode]. rewrite IH.
  replace (8 * Z.of_nat (S n)) with (8 + 8 * Z.of_nat n) by lia.
  rewrite Z.pow_add_r, Z.rem_mul_r by lia. lia.
Qed.

Lemma conv_mod ty x : conv ty (x mod 2 ^ width ty) = conv ty x.
Proof.
  unfold conv. destruct (signed ty); [|by rewrite Zmod_mod].
  f_equal. by rewrite Zplus_mod_idemp_l.
Qed.

Lemma conv_conv ty x : conv ty (conv ty x) = conv ty x.
Proof.
  unfold conv. destruct (signed ty); [|by rewrite Zmod_mod].
  rewrite Z.sub_add. by rewrite Zmod_mod.
Qed.

(** What a store leaves behind: the value, and every other byte. *)
Lemma store_spec ty p off v :
  0 ≤ off → off + Z.of_nat (size ty) ≤ zlen p →
  ∃ p', store ty p off v = Ok p' ∧ length p' = length p ∧
    load ty p' off = Ok (conv ty v) ∧
    ∀ k, ¬ off ≤ Z.of_nat k < off + Z.of_nat (size ty) → p' !! k = p !! k.
Proof.
  intros Ho Hp. unfold store.
  destruct (memcpy_spec p off (le_encode (size ty) v) (Z.of_nat (size ty)))
    as (p' & -> & Hl & Hlk); [rewrite le_encode_length; lia|lia..|].
  exists p'. split_and!; [done|done| |].
  - unfold load. rewrite decide_True by lia. f_equal.
    rewrite <- (conv_mod ty v). unfold width. rewrite <- le_decode_encode. f_equal. f_equal.
    apply list_eq. intros k. destruct (decide (k < size ty)%nat).
    + rewrite lookup_take_lt, lookup_drop, Hlk by lia. rewrite decide_True by lia. f_equal. lia.
    + rewrite !lookup_ge_None_2; [done|rewrite le_encode_length; lia|].
      rewrite length_take, length_drop. lia.
  - intros k Hk. by rewrite Hlk, decide_False.
Qed.

(** The operand of a functor is a value of its type. *)
Definition operand_ok (f : AtomicOpFunctor) : Prop :=
  match fop f with
  | AtomicOpExch a | AtomicOpMax a | AtomicOpMin a => conv (fty f) a = a
  | _ => True
  end.

(** Signed arithmetic of 32 bits and more may overflow. *)
Definition may_overflow (f : AtomicOpFunctor) : bool :=
  match fop f with
  | AtomicOpAdd _ | AtomicOpSub _ | AtomicOpInc | AtomicOpDec =>
      signed (fty f) && (32 <=? width (fty f))
  | _ => false
  end.

Lemma arith_total ty x :
  signed ty && (32 <=? width ty) = false → arith ty x = Ok (conv ty x).
Proof. intros H. unfold arith. by rewrite H. Qed.

Lemma execute_total f b :
  operand_ok f → may_overflow f = false → conv (fty f) b = b →
  ∃ b', execute (fty f) (fop f) b = Ok b' ∧ conv (fty f) b' = b'.
Proof.
  destruct f as [ty o]. unfold operand_ok, may_overflow. simpl.
  destruct o; simpl; intros Ho Hm Hb; try rewrite arith_total by done;
    eexists; (split; [reflexivity|]); try apply conv_conv; try done; by case_match.
Qed.

(** [f] applied at [off] turns block [p] into block [p']: it replaces the value
    [b] it finds there, and nothing else. *)
Definition amo_step (f : AtomicOpFunctor) (off : Z) (p p' : list Z) : Prop :=
  length p' = length p ∧
  (∃ b b', load (fty f) p off = Ok b ∧ execute (fty f) (fop f) b = Ok b' ∧
           load (fty f) p' off = Ok b') ∧
  ∀ k, ¬ off ≤ Z.of_nat k < off + Z.of_nat (size (fty f)) → p' !! k = p !! k.

Lemma apply_step f p off :
  0 ≤ off → off + Z.of_nat (size (fty f)) ≤ zlen p →
  operand_ok f → may_overflow f = false →
  ∃ p', apply f p off = Ok p' ∧ amo_step f off p p'.
Proof.
  intros Ho Hp Hf Hov. unfold apply.
  assert (∃ b, load (fty f) p off = Ok b ∧ conv (fty f) b = b) as (b & Eb & Hb).
  { unfold load. rewrite decide_True by lia. eexists. split; [done|]. apply conv_conv. }
  destruct (execute_total f b Hf Hov Hb) as (b' & Eb' & Hb').
  destruct (store_spec (fty f) p off b' Ho Hp) as (p' & Ep' & Hl & Hld & Hout).
  rewrite Eb. cbn [rbind]. rewrite Eb'. cbn [rbind]. exists p'. split; [done|].
  split_and!; [done| |done]. exists b, b'. by rewrite Hld, Hb'.
Qed.

(** [snaps] are the blocks each operation of [ops] found, in order, from block
    [p] on, and [p'] is the block after the last one. *)
Fixpoint serial (ops : list (Z * AtomicOpFunctor)) (p : list Z) (snaps : list (list Z))
    (p' : list Z) : Prop :=
  match ops, snaps with
  | [], [] => p' = p
  | (off, f) :: ops, s :: snaps =>
      s = p ∧ ∃ p1, amo_step f off p p1 ∧ serial ops p1 snaps p'
  | _, _ => False
  end.

(** The operations a mask of [n] bytes can run. *)
Definition ops_ok (n : Z) (ops : list (Z * AtomicOpFunctor)) : Prop :=
  Forall (λ o, 0 ≤ o.1 ∧ o.1 + Z.of_nat (size (fty o.2)) ≤ n ∧
               operand_ok o.2 ∧ may_overflow o.2 = false) ops.

Lemma perform_ops_serial n ops p log :
  zlen p = n → ops_ok n ops →
  ∃ p' snaps, serial ops p snaps p' ∧ length p' = length p ∧
    WriteMask.perform_ops n false ops p log = Ok (p', log ++ snaps) ∧
    ∀ log', WriteMask.perform_ops n true ops p log' = Ok (p', log').
Proof.
  revert p log. induction ops as [|[off f] ops IH]; intros p log Hn Hops.
  { exists p, []. rewrite app_nil_r. done. }
  apply Forall_cons in Hops as [(Ho & Hr & Hf & Hov) Hops]. simpl in *.
  destruct (apply_step f p off) as (p1 & E1 & H1); [done|lia|done..|].
  destruct (IH p1 (log ++ [p])) as (p' & snaps & Hs & Hl & E & Et);
    [destruct H1 as [? _]; lia|done|].
  exists p', (p :: snaps). split; [eauto|].
  split; [destruct H1 as [? _]; lia|]. split.
  - rewrite <- Hn at 1 2. rewrite memcpy_all by (rewrite length_replicate; lia). cbn [rbind].
    rewrite E1. cbn [rbind]. rewrite E. by rewrite <- app_assoc.
  - intros log'. rewrite E1. cbn [rbind]. apply Et.
Qed.

End Atomics.

(** ** Data blocks *)

Section Blocks.
Import DataBlock.
Implicit Types b obj this : t.

(** [b] is an allocated block with the bytes [d]. *)
Definition holds b (d : list Z) : Prop :=
  m_alloc b = true ∧ m_data b = Some d ∧ m_block_size b = zlen d ∧ 0 < zlen d < 2 ^ 31.

#[local] Ltac open_block H :=
  let H' := fresh in pose proof H as H'; destruct H' as (-> & -> & -> & [? ?]);
  rewrite ?(proj2 (Z.ltb_lt 0 (zlen _))) by done; cbn [require rbind of_option].

Lemma holds_with_data b d d' : holds b d → length d' = length d → holds (with_data b d') d'.
Proof.
  intros (Ha & _ & Hn & Hd) Hl. split_and!; simpl; [done|done|lia..].
Qed.

Lemma copy_loop_spec (body : Z → list Z → res (list Z)) (sel : nat → bool) d s :
  length s = length d →
  (∀ k l x, length l = length d → s !! k = Some x →
     body (Z.of_nat k) l = if sel k then vset l (Z.of_nat k) x else Ok l) →
  ∃ d', loop_from (length d) 0 body d = Ok d' ∧ length d' = length d ∧
    ∀ k, d' !! k = if sel k then s !! k else d !! k.
Proof.
  intros Hl Hbody.
  rewrite (loop_imap _ (λ k x, if sel k then default 0 (s !! k) else x)).
  - eexists. split; [done|]. split; [apply length_imap|]. intros k.
    rewrite list_lookup_imap. destruct (d !! k) as [x|] eqn:Ed; simpl.
    + destruct (lookup_lt_is_Some_2 s k) as [y ->]; [apply lookup_lt_Some in Ed; lia|].
      by destruct (sel k).
    + apply lookup_ge_None in Ed. rewrite lookup_ge_None_2 by lia. by destruct (sel k).
  - intros k l x Hll Hx Hx1. destruct (lookup_lt_is_Some_2 s k) as [y Hy];
      [apply lookup_lt_Some in Hx; lia|].
    rewrite (Hbody k l y Hll Hy), Hy. simpl. destruct (sel k).
    + rewrite vset_inbounds, Nat2Z.id by (apply lookup_lt_Some in Hx1; lia). done.
    + by rewrite list_insert_id.
Qed.

Lemma copyPartial_mask_spec b d src s mask :
  holds b d → m_data src = Some s → length s = length d →
  wf mask → WriteMask.mSize mask = zlen d →
  ∃ b' d', copyPartial_mask b src mask = Ok b' ∧ holds b' d' ∧
    m_atomicLog b' = m_atomicLog b ∧ length d' = length d ∧
    ∀ k, d' !! k = if has mask k then s !! k else d !! k.
Proof.
  intros Hb Hs Hl Hm Hms. unfold copyPartial_mask, buffer. open_block Hb. rewrite Nat2Z.id.
  match goal with |- context [loop_from _ 0 ?body _] =>
    destruct (copy_loop_spec body (has mask) d s Hl) as (d' & -> & Hd' & Hlk) end.
  - intros k l x Hll Hx. apply lookup_lt_Some in Hx as Hk. rewrite getMask_one by (done || lia).
    cbn [rbind]. destruct (has mask k); [|done]. rewrite Hs. cbn [rbind of_option].
    rewrite (proj2 (vget_Ok s (Z.of_nat k) x)) by (rewrite Nat2Z.id; split; [lia|done]). done.
  - cbn [rmap]. exists (with_data b d'), d'. split_and!; try done. by apply (holds_with_data b d).
Qed.

(** A masked copy takes the bytes of the mask from the source, keeps all
    the others, and does not touch the change log. Copying the rest under the
    inverted mask then completes the block: nothing of the old contents is left. *)
Theorem masked_copy_merges b d src s mask inv0 (Hb : holds b d)
    (Hs : m_data src = Some s) (Hl : length s = length d)
    (Hm : wf mask) (Hms : WriteMask.mSize mask = zlen d)
    (Hi : wf inv0) (His : WriteMask.mSize inv0 = zlen d) :
  ∃ b' d', copyPartial_mask b src mask = Ok b' ∧ holds b' d' ∧
    m_atomicLog b' = m_atomicLog b ∧
    (∀ k, d' !! k = if has mask k then s !! k else d !! k) ∧
    ∃ inverted b'', WriteMask.setInvertedMask inv0 mask = Ok inverted ∧
      copyPartial_mask b' src inverted = Ok b'' ∧ holds b'' s.
Proof.
  destruct (copyPartial_mask_spec b d src s mask) as (b' & d' & E & Hb' & Hlog & Hd' & Hlk);
    [done..|]. exists b', d'. split_and!; [done..|].
  destruct (setInvertedMask_spec inv0 mask) as (inv & Ei & Hwi & Hsi & Hinv); [done|done|lia|].
  destruct (copyPartial_mask_spec b' d' src s inv) as (b'' & d'' & E' & Hb'' & _ & Hd'' & Hlk');
    [done|done|lia|done|lia|]. exists inv, b''. split_and!; [done|done|].
  replace s with d''; [done|]. apply list_eq. intros k. rewrite Hlk'.
  destruct (decide (Z.of_nat k < zlen d)).
  - rewrite Hinv by lia. destruct (has mask k) eqn:Ek; simpl; [|done]. by rewrite Hlk, Ek.
  - rewrite !lookup_ge_None_2 by lia. by destruct (has inv k).
Qed.


(** *** Assignment *)

Lemma copy_of_all l n : n = zlen l → copy_of l n = Ok l.
Proof. intros ->. apply memcpy_all. rewrite length_replicate. lia. Qed.

Lemma copy_log_all n src dst :
  Forall (λ e, zlen e = n) src → copy_log n src dst = Ok (dst ++ src).
Proof.
  intros H. revert dst. induction H as [|e src He Hsrc IH]; intros dst; simpl.
  { by rewrite app_nil_r. }
  rewrite copy_of_all by done. cbn [rbind]. rewrite IH, <- app_assoc. done.
Qed.

Lemma memeq_refl l n : n = zlen l → Bytes.memeq l l n = Ok true.
Proof.
  intros ->. unfold Bytes.memeq. rewrite decide_True by lia. by rewrite bool_decide_true.
Qed.

Lemma equal_logs_refl n a : Forall (λ e, zlen e = n) a → equal_logs n a a = Ok true.
Proof.
  induction 1 as [|e a He Ha IH]; [done|]. simpl. rewrite memeq_refl by done. done.
Qed.

Lemma alloc_fresh garbage n l d0 :
  0 < n → alloc garbage (mk d0 false n l) = Ok (mk (Some (replicate (Z.to_nat n) 0)) true n l).
Proof.
  intros Hn. unfold alloc. simpl. rewrite (proj2 (Z.eqb_neq n 0)) by lia. unfold new_bytes.
  rewrite (proj2 (Z.leb_le 0 n)) by lia. cbn [rbind]. unfold clear, buffer. simpl.
  rewrite (proj2 (Z.ltb_lt 0 n)) by lia. cbn [require rbind of_option].
  pose proof (memcpy_all (replicate (Z.to_nat n) garbage) (replicate (Z.to_nat n) 0)) as E.
  rewrite !length_replicate, Z2Nat.id in E by lia. by rewrite E.
Qed.

(** Assignment between blocks of one size, or to a block that was never
    allocated, makes an equal copy: the same bytes and, when the target had no
    change log, the same log, so that [equal] of the two is true. *)
Theorem assignment_copies garbage this obj d (Hobj : holds obj d)
    (Hlog : Forall (λ e, zlen e = zlen d) (m_atomicLog obj)) (Hempty : m_atomicLog this = [])
    (Hthis : m_alloc this = false ∨ ∃ d0, holds this d0 ∧ length d0 = length d) :
  ∃ this', assign_op garbage this obj = Ok this' ∧ holds this' d ∧
    m_atomicLog this' = m_atomicLog obj ∧ equal this' obj = Ok true.
Proof.
  pose proof Hobj as (Ha & Hd & Hn & Hpos). exists (mk (Some d) true (zlen d) (m_atomicLog obj)).
  assert (assign_op garbage this obj = Ok (mk (Some d) true (zlen d) (m_atomicLog obj))) as E.
  { unfold assign_op, resize_to, getBlockSize. rewrite Hn.
    destruct Hthis as [Hfree|(d0 & (Ha0 & Hd0 & Hn0 & _) & Hl0)].
    - rewrite Hfree. cbn [andb negb]. rewrite alloc_fresh by lia. cbn [rbind m_block_size].
      rewrite (proj2 (Z.eqb_neq (zlen d) 0)), (proj2 (Z.ltb_lt 0 (zlen d))) by lia.
      cbn [andb require rbind buffer of_option m_data m_alloc m_atomicLog].
      unfold buffer. rewrite Hd. cbn [rbind of_option m_data].
      rewrite memcpy_all by (rewrite length_replicate; lia). cbn [rbind].
      by rewrite Hempty, copy_log_all.
    - rewrite Ha0, Hn0, Hl0, (proj2 (Z.eqb_eq (zlen d) (zlen d))) by done.
      cbn [andb negb require rbind]. rewrite Hn0, Hl0, (proj2 (Z.ltb_lt 0 (zlen d))) by lia.
      cbn [require rbind]. unfold buffer. rewrite Hd0, Hd. cbn [rbind of_option].
      rewrite memcpy_all by done. cbn [rbind]. rewrite Hempty, copy_log_all, Ha0 by done. done. }
  split_and!; [done|split_and!; simpl; done || lia|done|].
  unfold equal, buffer. cbn [m_alloc m_block_size m_data m_atomicLog].
  rewrite (proj2 (Z.ltb_lt 0 (zlen d))) by lia. cbn [require rbind of_option].
  rewrite Hd. cbn [rbind of_option]. rewrite memeq_refl by done. cbn [rbind negb].
  rewrite Z.eqb_refl. cbn [negb]. by apply equal_logs_refl.
Qed.

Lemma assignment_copies_witness :
  ∃ this', assign_op 7 (mk None false 0 []) (mk (Some [1; 2]) true 2 [[5; 6]]) = Ok this' ∧
    holds this' [1; 2] ∧ m_atomicLog this' = [[5; 6]] ∧
    equal this' (mk (Some [1; 2]) true 2 [[5; 6]]) = Ok true.
Proof.
  apply (assignment_copies 7 (mk None false 0 []) (mk (Some [1; 2]) true 2 [[5; 6]]) [1; 2]);
    [by split_and!; simpl; [..|lia|lia]|by repeat constructor|done|by left].
Defined.

(** What assignment does wrong otherwise: assigning a block of another size
    stops at the assertion in [alloc], since [m_alloc] is still set; the log of
    the target stays in front of the copied one, so that the two blocks are not
    equal afterwards; and the loop of a self-assignment with a change log never
    ends, since it appends to the log it runs over. *)
Lemma assignment_resize_asserts :
  assign_op 0 (mk (Some [1]) true 1 []) (mk (Some [1; 2]) true 2 []) = Err EAssert.
Proof. done. Qed.

Lemma assignment_keeps_old_log :
  let obj := mk (Some [3]) true 1 [] in
  ∃ this', assign_op 0 (mk (Some [1]) true 1 [[9]]) obj = Ok this' ∧
    equal this' obj = Ok false.
Proof. eexists. split; [by vm_compute|by vm_compute]. Qed.

Lemma self_assignment_diverges fuel i n log :
  0 ≤ i < zlen log → Forall (λ e, zlen e = n) log → self_copy_log fuel i n log = Err EFuel.
Proof.
  revert i log. induction fuel as [|fuel IH]; intros i log Hi Hlog; [done|]. simpl.
  rewrite (proj2 (Z.ltb_lt _ _)) by lia.
  destruct (vget_inbounds log i) as (e & -> & He); [lia|]. cbn [rbind].
  rewrite Forall_forall in Hlog. rewrite copy_of_all; [|by rewrite Hlog; [|by eapply list_elem_of_lookup_2]].
  cbn [rbind]. apply IH; [rewrite length_app; simpl; lia|].
  apply Forall_app. split; [by apply Forall_forall|]. constructor; [|done].
  apply Hlog. by eapply list_elem_of_lookup_2.
Qed.

End Blocks.

(** ** Sub-blocks *)

Section SubBlocks.
Import SubBlock.

Lemma setByte_holds b d k x :
  holds b d → (k < length d)%nat →
  ∃ b', DataBlock.setByte b (Z.of_nat k) x = Ok b' ∧ holds b' (<[k := x]> d) ∧
        DataBlock.m_atomicLog b' = DataBlock.m_atomicLog b.
Proof.
  intros Hb Hk. unfold DataBlock.setByte, DataBlock.buffer.
  pose proof Hb as (-> & -> & _). cbn [require rbind of_option].
  rewrite vset_inbounds, Nat2Z.id by lia. eexists. split; [done|]. split; [|done].
  apply (holds_with_data b d); [done|apply length_insert].
Qed.

Lemma mergeTo_spec (s : t) b d off :
  holds b d → 0 < getSize s →
  Address.getOffset (m_address s) (m_cache_line_bits s) = Ok off →
  0 ≤ off → off + getSize s ≤ zlen d →
  ∃ b' d', mergeTo s b = Ok b' ∧ holds b' d' ∧ length d' = length d ∧
    ∀ k, d' !! k = if decide (off ≤ Z.of_nat k < off + getSize s)
                   then m_data s !! (k - Z.to_nat off)%nat else d !! k.
Proof.
  intros Hb Hs Hoff Ho Hd. unfold mergeTo. rewrite (proj2 (Z.ltb_lt _ _)), Hoff by done.
  cbn [require rbind]. rewrite i32_small by (destruct Hb as (_ & _ & _ & ?); lia).
  match goal with |- context [loop_from _ 0 ?body _] =>
    destruct (loop_from_inv (λ j b', ∃ d', holds b' d' ∧ length d' = length d ∧
      ∀ k, d' !! k = if decide (off ≤ Z.of_nat k < off + j)
                     then m_data s !! (k - Z.to_nat off)%nat else d !! k)
      (Z.to_nat (getSize s)) 0 body b) as (b' & E & d' & Hb' & Hl & Hlk) end.
  - exists d. split_and!; [done|done|]. intros k. by rewrite decide_False by lia.
  - intros j b1 Hj (d1 & Hb1 & Hl1 & Hlk1). unfold getByte.
    destruct (vget_inbounds (m_data s) j) as (x & -> & Hx); [unfold getSize in *; lia|].
    cbn [rbind]. destruct (setByte_holds b1 d1 (Z.to_nat (off + j)) x) as (b2 & E & Hb2 & _);
      [done|lia|]. rewrite Z2Nat.id in E by lia. exists b2. split; [done|].
    eexists. split; [done|]. split; [by rewrite length_insert|]. intros k.
    destruct (decide (k = Z.to_nat (off + j))) as [->|Hne].
    + rewrite list_lookup_insert_eq by lia. rewrite decide_True by lia. rewrite <- Hx.
      f_equal. lia.
    + rewrite list_lookup_insert_ne, Hlk1 by done. repeat case_decide; done || lia.
  - rewrite E. exists b', d'. split_and!; [done..|]. intros k. rewrite Hlk.
    replace (0 + Z.of_nat (Z.to_nat (getSize s))) with (getSize s) by lia. done.
Qed.

Lemma mergeFrom_spec (s : t) b d off :
  holds b d → 0 < getSize s →
  Address.getOffset (m_address s) (m_cache_line_bits s) = Ok off →
  0 ≤ off → off + getSize s ≤ zlen d →
  mergeFrom s b = Ok (mk (m_address s)
    (take (length (m_data s)) (drop (Z.to_nat off) d)) (m_cache_line_bits s)).
Proof.
  intros Hb Hs Hoff Ho Hd. unfold mergeFrom. rewrite (proj2 (Z.ltb_lt _ _)), Hoff by done.
  cbn [require rbind]. pose proof Hb as (Ha & Hda & _ & ?). rewrite i32_small by lia.
  match goal with |- context [loop_from _ 0 ?body _] =>
    destruct (loop_from_inv (λ j s', m_address s' = m_address s ∧
      m_cache_line_bits s' = m_cache_line_bits s ∧ length (m_data s') = length (m_data s) ∧
      ∀ k, m_data s' !! k = if decide (Z.of_nat k < j)
                            then d !! (Z.to_nat off + k)%nat else m_data s !! k)
      (Z.to_nat (getSize s)) 0 body s) as (s' & -> & Ea & Ec & Hl & Hlk) end.
  - split_and!; [done..|]. intros k. by rewrite decide_False by lia.
  - intros j s1 Hj (Ea & Ec & Hl & Hlk). unfold getSize in *.
    unfold DataBlock.getByte, DataBlock.buffer. rewrite Ha, Hda. cbn [require rbind of_option].
    destruct (vget_inbounds d (off + j)) as (x & -> & Hx); [lia|]. cbn [rbind].
    unfold setByte. rewrite vset_inbounds by lia. eexists. split; [done|]. simpl.
    split_and!; [done|done|by rewrite length_insert|]. intros k.
    destruct (decide (k = Z.to_nat j)) as [->|Hne].
    + rewrite list_lookup_insert_eq by lia. rewrite decide_True by lia. rewrite <- Hx.
      f_equal. lia.
    + rewrite list_lookup_insert_ne, Hlk by done. repeat case_decide; done || lia.
  - destruct s' as [a' d' c']. simpl in *. subst. do 2 f_equal. apply list_eq. intros k.
    unfold getSize in *. rewrite Hlk. destruct (decide (k < length (m_data s))%nat).
    + rewrite decide_True, lookup_take_lt, lookup_drop by lia. done.
    + rewrite decide_False by lia. rewrite !lookup_ge_None_2; [done| |lia].
      rewrite length_take. lia.
Qed.

(** Writing a sub-block into its line and reading it back gives the same
    sub-block, and the bytes of the line outside of it are unchanged. *)
Theorem subblock_roundtrip (s : t) b d off (Hb : holds b d) (Hs : 0 < getSize s)
    (Hoff : Address.getOffset (m_address s) (m_cache_line_bits s) = Ok off)
    (Ho : 0 ≤ off) (Hd : off + getSize s ≤ zlen d) :
  ∃ b' d', mergeTo s b = Ok b' ∧ holds b' d' ∧ mergeFrom s b' = Ok s ∧
    ∀ k, ¬ off ≤ Z.of_nat k < off + getSize s → d' !! k = d !! k.
Proof.
  destruct (mergeTo_spec s b d off) as (b' & d' & E & Hb' & Hl & Hlk); [done..|].
  exists b', d'. split_and!; [done|done| |].
  - rewrite (mergeFrom_spec s b' d' off) by (done || lia). destruct s as [a ds c].
    unfold getSize in *. simpl in *. do 2 f_equal. apply list_eq. intros k.
    destruct (decide (k < length ds)%nat).
    + rewrite lookup_take_lt, lookup_drop, Hlk by lia. rewrite decide_True by lia. f_equal. lia.
    + rewrite !lookup_ge_None_2; [done|lia|]. rewrite length_take. lia.
  - intros k Hk. by rewrite Hlk, decide_False.
Qed.

Lemma subblock_roundtrip_witness :
  ∃ b' d', mergeTo (mk 0x1002 [7; 8] 2) (DataBlock.mk (Some [1; 2; 3; 4]) true 4 []) = Ok b' ∧
    holds b' d' ∧ mergeFrom (mk 0x1002 [7; 8] 2) b' = Ok (mk 0x1002 [7; 8] 2) ∧
    ∀ k, ¬ 2 ≤ Z.of_nat k < 2 + getSize (mk 0x1002 [7; 8] 2) → d' !! k = [1; 2; 3; 4] !! k.
Proof.
  apply subblock_roundtrip; [split_and!; simpl; done || lia|done|by vm_compute|lia|done].
Defined.

(** Merging across the end of the line is not detected: the write of the byte
    behind the line goes outside of the buffer. *)
Lemma subblock_crossing_undetected :
  mergeTo (mk 0x1003 [7; 8] 2) (DataBlock.mk (Some [1; 2; 3; 4]) true 4 []) = Err EUndef.
Proof. by vm_compute. Qed.

End SubBlocks.

(** ** The theorems at work *)

Section Examples.
Import WriteMask.

Definition low_half : t := new_mask 4 [true; true; false; false].
Definition odd_bytes : t := new_mask 4 [false; true; false; true].

Lemma low_half_wf : wf low_half.
Proof. split; simpl; lia. Qed.
Lemma odd_bytes_wf : wf odd_bytes.
Proof. split; simpl; lia. Qed.

Lemma masks_are_sets_witness :
  (∃ m', andMask low_half odd_bytes = Ok m' ∧ wf m' ∧
     ∀ k, has m' k = has low_half k && has odd_bytes k) ∧
  (∃ b, isOverlap low_half odd_bytes = Ok b ∧
     (b = true ↔ ∃ k, has low_half k = true ∧ has odd_bytes k = true)).
Proof.
  destruct (masks_are_sets low_half odd_bytes low_half_wf odd_bytes_wf eq_refl)
    as (? & _ & _ & ? & _). by split.
Defined.

Definition old_line : DataBlock.t := DataBlock.mk (Some [1; 2; 3; 4]) true 4 [].
Definition new_line : DataBlock.t := DataBlock.mk (Some [5; 6; 7; 8]) true 4 [].

Lemma old_line_holds : holds old_line [1; 2; 3; 4].
Proof. split_and!; simpl; done || lia. Qed.

Lemma masked_copy_merges_witness :
  ∃ b' d', DataBlock.copyPartial_mask old_line new_line odd_bytes = Ok b' ∧ holds b' d' ∧
    DataBlock.m_atomicLog b' = DataBlock.m_atomicLog old_line ∧
    (∀ k, d' !! k = if has odd_bytes k then [5; 6; 7; 8] !! k else [1; 2; 3; 4] !! k) ∧
    ∃ inverted b'', setInvertedMask low_half odd_bytes = Ok inverted ∧
      DataBlock.copyPartial_mask b' new_line inverted = Ok b'' ∧ holds b'' [5; 6; 7; 8].
Proof.
  apply masked_copy_merges; [apply old_line_holds|done|done
    |apply odd_bytes_wf|done|apply low_half_wf|done].
Defined.

(** Two increments of one 16-bit counter and an exchange of the byte behind it. *)
Definition three_atomics : t :=
  new_atomic 4 [true; true; true; false]
    [(0, Amo.mkFunctor (Amo.mkIty 2 false) Amo.AtomicOpInc);
     (0, Amo.mkFunctor (Amo.mkIty 2 false) Amo.AtomicOpInc);
     (2, Amo.mkFunctor (Amo.mkIty 1 true) (Amo.AtomicOpExch (-1)))].


End Examples.
