(* ===== verification/Heap.v ===== *)
(** The heap algorithms of the C++ standard library that the message buffers
    use, [std::push_heap] and [std::pop_heap]: the guarantees of the standard as
    an interface, and the binary heap of libstdc++ that keeps them. *)

From stdpp Require Import prelude list.
From Stdlib Require Import Lia.
From S2P Require Import Prelude.

(** ** The interface *)

(** A strict weak order given by a boolean comparison, as the standard requires
    of the comparison object; [comp a b] means that [b] comes first. *)
Class WeakOrder {A} (comp : A → A → bool) := {
  comp_asym : ∀ a b, comp a b = true → comp b a = false;
  comp_trans : ∀ a b c, comp a b = false → comp b c = false → comp a c = false;
}.

(** [std::is_heap(l, comp)]: no element comes before its parent. *)
Definition is_heap {A} (comp : A → A → bool) (l : list A) : Prop :=
  ∀ i x y, (0 < i)%nat → l !! ((i - 1) / 2)%nat = Some x → l !! i = Some y → comp x y = false.

Class HeapOps A := {
  push_heap : (A → A → bool) → list A → list A;
  pop_heap : (A → A → bool) → list A → list A;
}.

(** What the standard guarantees: [push_heap] makes a heap of a heap followed by
    one new element, [pop_heap] moves the first element of a heap to the end and
    leaves a heap in front of it. *)
Class HeapLaws A `{HeapOps A} := {
  push_heap_law : ∀ comp, WeakOrder comp → ∀ l x, is_heap comp l →
    is_heap comp (push_heap comp (l ++ [x])) ∧ push_heap comp (l ++ [x]) ≡ₚ x :: l;
  pop_heap_law : ∀ comp, WeakOrder comp → ∀ l x, is_heap comp (x :: l) →
    ∃ l', pop_heap comp (x :: l) = l' ++ [x] ∧ is_heap comp l' ∧ l' ≡ₚ l;
}.

(** The first element of a heap comes before all others. *)
Lemma heap_front {A} comp `{!WeakOrder comp} (l : list A) x y :
  is_heap comp (x :: l) → y ∈ x :: l → comp x y = false.
Proof.
  intros Hh [i Hi]%list_elem_of_lookup. revert y Hi.
  induction (lt_wf i) as [i _ IH]. intros y Hi. destruct i as [|i].
  { injection Hi as <-. destruct (comp x x) eqn:E; [|done]. by rewrite comp_asym in E. }
  assert ((S i - 1) / 2 < S i)%nat as Hlt by (apply Nat.Div0.div_lt_upper_bound; lia).
  destruct (lookup_lt_is_Some_2 (x :: l) ((S i - 1) / 2)) as [z Hz].
  { apply lookup_lt_Some in Hi. lia. }
  eapply comp_trans; [by eapply IH|]. eapply Hh; [|done|done]. lia.
Qed.

Lemma is_heap_nil {A} (comp : A → A → bool) : is_heap comp [].
Proof. intros i x y _ Hx. done. Qed.

(** ** The binary heap *)

Module BinaryHeap.

Section Algorithm.
Context {A : Type} (comp : A → A → bool).

(** [__push_heap]: elements that come after [value] move down from the hole's
    parent until [value] fits into the hole. *)
Fixpoint sift_up (fuel hole : nat) (value : A) (l : list A) : list A :=
  match fuel with
  | O => <[hole := value]> l
  | S fuel =>
      if decide (0 < hole)%nat then
        let parent := ((hole - 1) / 2)%nat in
        match l !! parent with
        | Some x => if comp x value then sift_up fuel parent value (<[hole := x]> l)
                    else <[hole := value]> l
        | None => <[hole := value]> l
        end
      else <[hole := value]> l
  end.

(** [__adjust_heap]: the hole moves down to a leaf, each time to the child that
    comes first; [value] is then pushed up from there. *)
Fixpoint sift_down (fuel hole : nat) (l : list A) : nat * list A :=
  match fuel with
  | O => (hole, l)
  | S fuel =>
      match l !! (2 * hole + 1)%nat, l !! (2 * hole + 2)%nat with
      | Some a, Some b =>
          if comp b a then sift_down fuel (2 * hole + 1) (<[hole := a]> l)
          else sift_down fuel (2 * hole + 2) (<[hole := b]> l)
      | Some a, None => sift_down fuel (2 * hole + 1) (<[hole := a]> l)
      | None, _ => (hole, l)
      end
  end.

Definition push (l : list A) : list A :=
  match last l with
  | Some x => sift_up (length l) (length l - 1) x l
  | None => l
  end.

Definition pop (l : list A) : list A :=
  match l with
  | [] => []
  | x :: rest =>
      match last rest with
      | None => [x]
      | Some value =>
          let l := x :: removelast rest in
          let '(hole, l) := sift_down (length l) 0 l in
          sift_up (length l) hole value l ++ [x]
      end
  end.

End Algorithm.

#[global] Instance ops A : HeapOps A := {| push_heap := push; pop_heap := pop |}.

End BinaryHeap.

(** ** The binary heap keeps the guarantees *)

Section BinaryHeapLaws.
Import BinaryHeap.
Context {A : Type} (comp : A → A → bool) `{!WeakOrder comp}.
Implicit Types (l : list A) (x y v : A) (i h c : nat).

Abbreviation par i := ((i - 1) / 2)%nat.

Lemma par_lt i : (0 < i)%nat → (par i < i)%nat.
Proof. intros. apply Nat.Div0.div_lt_upper_bound. lia. Qed.

Lemma par_child i h : (0 < i)%nat → par i = h ↔ i = (2 * h + 1)%nat ∨ i = (2 * h + 2)%nat.
Proof.
  intros Hi. pose proof (Nat.div_mod_eq (i - 1) 2). pose proof (Nat.mod_upper_bound (i - 1) 2).
  lia.
Qed.

Lemma swap_perm l i j x y :
  l !! i = Some x → l !! j = Some y → <[i := y]> (<[j := x]> l) ≡ₚ l.
Proof.
  intros Hi Hj. destruct (decide (i = j)) as [->|Hne].
  { assert (x = y) as -> by congruence. by rewrite list_insert_insert_eq, list_insert_id. }
  assert (∀ a b u v, (a < b)%nat → l !! a = Some u → l !! b = Some v →
    <[a := v]> (<[b := u]> l) ≡ₚ l) as Hlt.
  { clear. intros a b u v Hab Ha Hb. apply list_elem_of_split_length in Ha as (l1 & l2 & -> & ->).
    rewrite lookup_app_r in Hb by lia. rewrite insert_app_r_alt by lia.
    replace (b - length l1)%nat with (S (b - length l1 - 1)) in * by lia. simpl in *.
    rewrite (insert_app_r_alt _ _ (length l1)), Nat.sub_diag by lia. simpl.
    apply list_elem_of_split_length in Hb as (l3 & l4 & -> & Hl). rewrite Hl.
    rewrite insert_app_r_alt, Nat.sub_diag by lia. simpl. solve_Permutation. }
  destruct (Nat.lt_ge_cases i j); [by apply Hlt|].
  rewrite list_insert_insert_ne by done. apply Hlt; [lia|done..].
Qed.

(** A heap but for a hole at [h]. *)
Definition holed l h : Prop :=
  (∀ i x y, (0 < i)%nat → i ≠ h → par i ≠ h →
     l !! par i = Some x → l !! i = Some y → comp x y = false) ∧
  (∀ c x y, (0 < h)%nat → (0 < c)%nat → par c = h →
     l !! par h = Some x → l !! c = Some y → comp x y = false).

(** The value [v] for the hole comes before its children. *)
Definition above v l h : Prop :=
  ∀ c y, (0 < c)%nat → par c = h → l !! c = Some y → comp v y = false.

Lemma holed_fill l h v :
  (h < length l)%nat → holed l h → above v l h →
  (∀ x, (0 < h)%nat → l !! par h = Some x → comp x v = false) → is_heap comp (<[h := v]> l).
Proof.
  intros Hh [Ha _] Hab Hpar i x y Hi. destruct (decide (i = h)) as [->|Hih].
  - rewrite list_lookup_insert_eq by done. rewrite list_lookup_insert_ne.
    + intros Hx [= <-]. by apply Hpar.
    + pose proof (par_lt h). lia.
  - rewrite (list_lookup_insert_ne _ h i) by done. destruct (decide (par i = h)) as [E|Hp].
    + rewrite E, list_lookup_insert_eq by done. intros [= <-]. by apply Hab.
    + rewrite list_lookup_insert_ne by done. by apply Ha.
Qed.

(** One step up: the parent's value moves into the hole. *)
Lemma holed_up l h v x :
  (h < length l)%nat → (0 < h)%nat → l !! par h = Some x → comp x v = true →
  holed l h → above v l h → holed (<[h := x]> l) (par h) ∧ above v (<[h := x]> l) (par h).
Proof.
  intros Hh H0 Hx Hc [Ha Hb] Hab. pose proof (par_lt h H0) as Hlt.
  assert (∀ s y, (0 < s)%nat → par s = par h → <[h := x]> l !! s = Some y → comp x y = false) as Hsib.
  { intros s y Hs Hps. destruct (decide (s = h)) as [->|Hne].
    - rewrite list_lookup_insert_eq by done. intros [= <-].
      destruct (comp x x) eqn:E; [|done]. by rewrite comp_asym in E.
    - rewrite list_lookup_insert_ne by done. intros Hy.
      apply (Ha s); [done|done|rewrite Hps; lia|by rewrite Hps|done]. }
  split; [split|].
  - intros i y z Hi Hne Hpi. destruct (decide (par i = h)) as [E|Hp].
    + rewrite E, list_lookup_insert_eq by done. rewrite list_lookup_insert_ne.
      * intros [= <-] Hz. by apply (Hb i).
      * pose proof (par_lt i Hi). lia.
    + rewrite (list_lookup_insert_ne _ _ (par i)) by done.
      destruct (decide (i = h)) as [->|Hih]; [done|].
      rewrite list_lookup_insert_ne by done. by apply Ha.
  - intros c y z H0' Hc0 Hpc Hy Hz.
    rewrite list_lookup_insert_ne in Hy by (pose proof (par_lt (par h)); lia).
    apply (comp_trans _ x); [|by apply (Hsib c)].
    apply (Ha (par h)); [done|lia|pose proof (par_lt (par h)); lia|done|done].
  - intros c y Hc0 Hpc Hy. apply (comp_trans _ x); [by apply comp_asym|by apply (Hsib c)].
Qed.

Lemma sift_up_spec fuel h v l :
  (h ≤ fuel)%nat → (h < length l)%nat → holed l h → above v l h →
  is_heap comp (sift_up comp fuel h v l) ∧ sift_up comp fuel h v l ≡ₚ <[h := v]> l.
Proof.
  revert h l. induction fuel as [|fuel IH]; intros h l Hf Hh Hho Hab; cbn [sift_up].
  { split; [|done]. apply holed_fill; [done..|lia]. }
  case_decide as H0; [|split; [|done]; apply holed_fill; [done..|lia]].
  pose proof (par_lt h H0).
  destruct (lookup_lt_is_Some_2 l (par h)) as [x Hx]; [lia|]. rewrite Hx.
  destruct (comp x v) eqn:Ec.
  - destruct (holed_up l h v x) as [? ?]; [done..|].
    destruct (IH (par h) (<[h := x]> l)) as [? Hp]; [lia|rewrite length_insert; lia|done|done|].
    split; [done|]. rewrite Hp.
    rewrite <- (swap_perm (<[h := v]> l) (par h) h x v).
    + by rewrite list_insert_insert_eq.
    + rewrite list_lookup_insert_ne by lia. done.
    + by apply list_lookup_insert_eq.
  - split; [|done]. apply holed_fill; [done..|]. intros z _ Hz. congruence.
Qed.

(** One step down: the child that comes first moves up into the hole. *)
Lemma holed_down l h c a :
  (h < length l)%nat → (0 < c)%nat → par c = h → l !! c = Some a →
  (∀ s y, (0 < s)%nat → par s = h → s ≠ c → l !! s = Some y → comp a y = false) →
  holed l h → holed (<[h := a]> l) c.
Proof.
  intros Hh Hc0 Hpc Hca Hsib [Ha Hb]. pose proof (par_lt c Hc0). split.
  - intros i x y Hi Hic Hpi. destruct (decide (i = h)) as [->|Hih].
    + rewrite list_lookup_insert_eq by done. pose proof (par_lt h Hi).
      rewrite list_lookup_insert_ne by lia. intros Hx [= <-]. by apply (Hb c).
    + rewrite (list_lookup_insert_ne _ h i) by done. destruct (decide (par i = h)) as [E|Hp].
      * rewrite E, list_lookup_insert_eq by done. intros [= <-]. by apply Hsib.
      * rewrite list_lookup_insert_ne by done. by apply Ha.
  - intros c' x y _ Hc' Hpc'. pose proof (par_lt c' Hc'). rewrite Hpc.
    rewrite list_lookup_insert_eq by done. rewrite list_lookup_insert_ne by lia.
    intros [= <-] Hy. apply (Ha c'); [done|lia|lia|by rewrite Hpc'|done].
Qed.

Lemma sift_down_step fuel h c a l (P : nat * list A → Prop) :
  (length l ≤ fuel + S h)%nat → (h < length l)%nat → (0 < c)%nat → par c = h → l !! c = Some a →
  (∀ s y, (0 < s)%nat → par s = h → s ≠ c → l !! s = Some y → comp a y = false) →
  holed l h →
  (∀ l1, (length l1 ≤ fuel + c)%nat → (c < length l1)%nat → holed l1 c →
     length l1 = length l → (∀ v, <[c := v]> l1 ≡ₚ <[h := v]> l) → P (sift_down comp fuel c l1)) →
  P (sift_down comp fuel c (<[h := a]> l)).
Proof.
  intros Hf Hh Hc0 Hpc Hca Hsib Hho HP. pose proof (par_lt c Hc0).
  apply HP; rewrite ?length_insert; [lia|by eapply lookup_lt_Some|by apply holed_down|done|].
  intros v. rewrite <- (swap_perm (<[h := v]> l) c h a v).
  - by rewrite list_insert_insert_eq.
  - by rewrite list_lookup_insert_ne by lia.
  - by apply list_lookup_insert_eq.
Qed.

Lemma sift_down_spec fuel h l :
  (length l ≤ fuel + h)%nat → (h < length l)%nat → holed l h →
  match sift_down comp fuel h l with
  | (h', l') => holed l' h' ∧ (h' < length l')%nat ∧ (length l' ≤ 2 * h' + 1)%nat ∧
                length l' = length l ∧ ∀ v, <[h' := v]> l' ≡ₚ <[h := v]> l
  end.
Proof.
  revert h l. induction fuel as [|fuel IH]; intros h l Hf Hh Hho; [lia|]. cbn [sift_down].
  destruct (l !! (2 * h + 1)%nat) as [a|] eqn:Ea.
  2: { apply lookup_ge_None in Ea. by split_and!. }
  assert (∀ P : nat * list A → Prop, ∀ c b, (c = 2 * h + 1 ∨ c = 2 * h + 2)%nat → l !! c = Some b →
    (∀ s y, (0 < s)%nat → par s = h → s ≠ c → l !! s = Some y → comp b y = false) →
    P = (λ '(h', l'), holed l' h' ∧ (h' < length l')%nat ∧ (length l' ≤ 2 * h' + 1)%nat ∧
                length l' = length l ∧ ∀ v, <[h' := v]> l' ≡ₚ <[h := v]> l) →
    P (sift_down comp fuel c (<[h := b]> l))) as Hstep.
  { intros P c b Hc Hb Hsib ->.
    apply (sift_down_step fuel h c b l); [lia|done|lia|apply par_child; lia|done|done|done|].
    intros l1 H1 H2 H3 H4 H5. specialize (IH c l1 H1 H2 H3).
    destruct (sift_down comp fuel c l1) as [h' l']. destruct IH as (? & ? & ? & ? & Hp).
    split_and!; [done|done|done|lia|]. intros v. by rewrite Hp, H5. }
  destruct (l !! (2 * h + 2)%nat) as [b|] eqn:Eb.
  - destruct (comp b a) eqn:Ec; (eapply Hstep; [| | |reflexivity]); try done; try lia.
    + intros s y Hs [->| ->]%par_child Hne; [lia| |done]. rewrite Eb. intros [= <-].
      by apply comp_asym.
    + intros s y Hs [->| ->]%par_child Hne; [|lia|done]. rewrite Ea. by intros [= <-].
  - eapply Hstep; [| | |reflexivity]; [lia|done|].
    intros s y Hs [->| ->]%par_child Hne; [lia| |done]. by rewrite Eb.
Qed.

Lemma is_heap_app l k : is_heap comp (l ++ k) → is_heap comp l.
Proof.
  intros Hh i x y Hi Hx Hy. apply (Hh i); [done|by apply lookup_app_l_Some..].
Qed.

Lemma push_spec l x : is_heap comp l → is_heap comp (push comp (l ++ [x])) ∧
  push comp (l ++ [x]) ≡ₚ x :: l.
Proof.
  intros Hh. unfold push. rewrite last_snoc, length_app. simpl.
  replace (length l + 1 - 1)%nat with (length l) by lia.
  destruct (sift_up_spec (length l + 1) (length l) x (l ++ [x])) as [? Hp].
  - lia.
  - rewrite length_app. simpl. lia.
  - split.
    + intros i y z Hi Hne _ Hy Hz. pose proof (par_lt i Hi).
      assert (i < length l)%nat.
      { apply lookup_lt_Some in Hz. rewrite length_app in Hz. simpl in Hz. lia. }
      rewrite lookup_app_l in Hy, Hz by lia. by apply (Hh i).
    + intros c y z _ Hc Hpc _ Hz%lookup_lt_Some. rewrite length_app in Hz. simpl in Hz.
      pose proof (par_lt c Hc). lia.
  - intros c z Hc Hpc Hz%lookup_lt_Some. rewrite length_app in Hz. simpl in Hz.
    pose proof (par_lt c Hc). lia.
  - split; [done|]. rewrite Hp, insert_app_r_alt, Nat.sub_diag by done. simpl.
    by rewrite Permutation_app_comm.
Qed.

Lemma pop_spec l x : is_heap comp (x :: l) →
  ∃ l', pop comp (x :: l) = l' ++ [x] ∧ is_heap comp l' ∧ l' ≡ₚ l.
Proof.
  intros Hh. unfold pop. destruct (last l) as [v|] eqn:El.
  2: { apply last_None in El as ->. exists []. split_and!; [done|apply is_heap_nil|done]. }
  apply last_Some in El as [r ->]. rewrite removelast_last.
  pose proof (sift_down_spec (length (x :: r)) 0 (x :: r)) as Hd.
  destruct (sift_down comp (length (x :: r)) 0 (x :: r)) as [h l'] eqn:E.
  destruct Hd as (Hho & Hlt & Hleaf & Hlen & Hp); [lia|simpl; lia| |].
  { split; [|lia]. intros i y z Hi _ _. apply (is_heap_app (x :: r) [v] Hh i y z Hi). }
  destruct (sift_up_spec (length l') h v l') as [? Hp']; [lia|done|done| |].
  { intros c y Hc Hpc%par_child Hy%lookup_lt_Some; [|done]. lia. }
  eexists. split; [done|]. split; [done|]. rewrite Hp', Hp. simpl.
  by rewrite Permutation_app_comm.
Qed.
End BinaryHeapLaws.

#[global] Instance BinaryHeap_laws A : HeapLaws A.
Proof. split; intros comp Hcomp l x; [by apply push_spec|by apply pop_spec]. Qed.
