(* ===== verification/Clocking.v ===== *)
(** Clock edges (sim/clocked_object.hh) and the wake-ups of a Ruby consumer
    (mem/ruby/common/Consumer): the set of ticks at which a controller must run
    and the one simulation event that makes it run at the next of them. *)

From stdpp Require Import prelude list sorting.
From Stdlib Require Import ZArith Lia.
From S2P Require Import Prelude Bits.

Open Scope Z_scope.

(** ** sim/clocked_object.hh: Clocked *)

Module Clocked.
Import IntMath.

(** [tick] and [cycle] cache the last clock edge computed; [clockPeriod] is the
    period of the object's clock domain. *)
Record t := mk { tick : Z; cycle : Z; clockPeriod : Z }.

Definition new (period : Z) : t := mk 0 0 period.

(** [update()] at the current tick [now]. *)
Definition update (now : Z) (c : t) : res t :=
  if now <=? tick c then Ok c
  else
    let c1 := mk (u64 (tick c + clockPeriod c)) (u64 (cycle c + 1)) (clockPeriod c) in
    if now <=? tick c1 then Ok c1
    else
      let* elapsedCycles := divCeil (u64 (now - tick c1)) (clockPeriod c1) in
      Ok (mk (u64 (tick c1 + u64 (elapsedCycles * clockPeriod c1)))
             (u64 (cycle c1 + elapsedCycles)) (clockPeriod c1)).

Definition resetClock (now : Z) (c : t) : res t :=
  let* elapsedCycles := divCeil now (clockPeriod c) in
  Ok (mk (u64 (elapsedCycles * clockPeriod c)) elapsedCycles (clockPeriod c)).

Definition clockEdge (now cycles : Z) (c : t) : res (Z * t) :=
  let* c := update now c in
  Ok (u64 (tick c + u64 (clockPeriod c * cycles)), c).

Definition curCycle (now : Z) (c : t) : res (Z * t) :=
  let* c := update now c in Ok (cycle c, c).

Definition nextCycle (now : Z) (c : t) : res (Z * t) := clockEdge now 1 c.

Definition ticksToCycles (c : t) (x : Z) : res Z := divCeil x (clockPeriod c).
Definition cyclesToTicks (c : t) (x : Z) : Z := u64 (clockPeriod c * x).

End Clocked.

(** ** mem/ruby/common/Consumer *)

Module Consumer.
Import IntMath.

(** [m_wakeup_ticks] is a [std::set<Tick>], in order; [m_wakeup_event] is the
    tick the event is scheduled for, if it is. *)
Record t := mk { m_wakeup_ticks : list Z; m_wakeup_event : option Z; em : Clocked.t }.

Definition new (em : Clocked.t) : t := mk [] None em.

(** [std::set::insert]. *)
Fixpoint insert (x : Z) (l : list Z) : list Z :=
  match l with
  | [] => [x]
  | y :: l' => if x <? y then x :: l else if x =? y then l else y :: insert x l'
  end.

(** [std::set::lower_bound]. *)
Fixpoint lower_bound (x : Z) (l : list Z) : option Z :=
  match l with
  | [] => None
  | y :: l => if x <=? y then Some y else lower_bound x l
  end.

Definition alreadyScheduled (c : t) (time : Z) : bool :=
  bool_decide (time ∈ m_wakeup_ticks c).

(** [schedule] and [reschedule] of the event queue at the current tick [now]. *)
Definition schedule (now when : Z) (c : t) : res t :=
  assert! now <=? when in
  assert! bool_decide (m_wakeup_event c = None) in
  Ok (mk (m_wakeup_ticks c) (Some when) (em c)).

Definition reschedule (now when : Z) (c : t) : res t :=
  assert! now <=? when in Ok (mk (m_wakeup_ticks c) (Some when) (em c)).

Definition scheduleNextWakeup (now : Z) (c : t) : res t :=
  let* (edge, e) := Clocked.clockEdge now 0 (em c) in
  let c := mk (m_wakeup_ticks c) (m_wakeup_event c) e in
  match lower_bound edge (m_wakeup_ticks c) with
  | None => Ok c
  | Some when =>
      assert! edge <=? when in
      match m_wakeup_event c with
      | Some w => if when <? w then reschedule now when c else Ok c
      | None => schedule now when c
      end
  end.

Definition scheduleEvent (now timeDelta : Z) (c : t) : res t :=
  let* (edge, e) := Clocked.clockEdge now timeDelta (em c) in
  scheduleNextWakeup now (mk (insert edge (m_wakeup_ticks c)) (m_wakeup_event c) e).

Definition scheduleEventAbsolute (now evt_time : Z) (c : t) : res t :=
  let* n := divCeil evt_time (Clocked.clockPeriod (em c)) in
  let tick := u64 (n * Clocked.clockPeriod (em c)) in
  scheduleNextWakeup now (mk (insert tick (m_wakeup_ticks c)) (m_wakeup_event c) (em c)).

(** [processCurrentEvent()], run by the event queue when the event is due, which
    takes the event off the queue. What [wakeup()] does to this consumer is an
    argument. *)
Definition processCurrentEvent (now : Z) (wakeup : t → res t) (c : t) : res t :=
  match m_wakeup_ticks c with
  | [] => Err EUndef
  | curr :: rest =>
      let* (edge, e) := Clocked.clockEdge now 0 (em c) in
      assert! edge =? curr in
      let* c := wakeup (mk rest None e) in
      scheduleNextWakeup now c
  end.

End Consumer.

(** ** Clock edges *)

Section ClockEdges.
Import Clocked.

(** The cached edge is an edge, and its cycle number is right. *)
Definition clock_wf (c : t) : Prop :=
  0 < clockPeriod c ∧ tick c = cycle c * clockPeriod c ∧ 0 ≤ cycle c ∧ tick c < 2 ^ 64.

Lemma clock_update_spec now c :
  clock_wf c → 0 ≤ now → now + 2 * clockPeriod c < 2 ^ 64 →
  ∃ c', update now c = Ok c' ∧ clock_wf c' ∧ clockPeriod c' = clockPeriod c ∧
    now ≤ tick c' ∧ (tick c' = tick c ∨ tick c' < now + clockPeriod c).
Proof.
  intros (Hp & Ht & Hc & Hb) Hn Hov. unfold update.
  destruct (Z.leb_spec now (tick c)) as [Hle|Hlt]; [exists c; by split_and!; auto|].
  assert (cycle c < 2 ^ 64 - 1) by nia. cbn [tick cycle clockPeriod].
  rewrite (u64_small (tick c + clockPeriod c)), (u64_small (cycle c + 1)) by nia.
  destruct (Z.leb_spec now (tick c + clockPeriod c)).
  { eexists. split; [done|]. unfold clock_wf. simpl. split_and!; try done; nia. }
  rewrite (u64_small (now - _)) by nia.
  destruct (divCeil_spec (now - (tick c + clockPeriod c)) (clockPeriod c)) as (n & -> & Hn1 & Hn2);
    [nia..|]. cbn [rbind].
  assert (0 ≤ n) by nia. assert (n * clockPeriod c < now - tick c) by nia.
  assert (cycle c + 1 + n < 2 ^ 64) by nia.
  rewrite (u64_small (n * _)), (u64_small (tick c + _ + _)), (u64_small (cycle c + 1 + n)) by nia.
  eexists. split; [done|]. unfold clock_wf. simpl. split_and!; try done; nia.
Qed.

(** [clockEdge] and [curCycle] give the clock edge a client expects: the
    first multiple of the period that is not before the current tick (or the
    later edge already reached), the given number of periods later, and the
    number of that edge as the cycle. *)
Theorem clock_edge_correct now cycles c (Hc : clock_wf c) (Hn : 0 ≤ now)
    (Hcached : tick c < now + clockPeriod c) (Hk : 0 ≤ cycles)
    (Hov : now + (cycles + 2) * clockPeriod c < 2 ^ 64) :
  ∃ edge c', now ≤ edge < now + clockPeriod c ∧ (clockPeriod c | edge) ∧
    clockEdge now cycles c = Ok (edge + clockPeriod c * cycles, c') ∧
    curCycle now c = Ok (edge / clockPeriod c, c') ∧ clock_wf c' ∧ tick c' = edge.
Proof.
  pose proof Hc as (Hpos & _).
  destruct (clock_update_spec now c Hc Hn) as (c' & E & Hc' & Hp & Hle & Hor); [nia|].
  exists (tick c'), c'. unfold clockEdge, curCycle. rewrite E. cbn [rbind]. pose proof Hc' as (Hp' & Ht & ? & ?).
  assert (tick c' < now + clockPeriod c) by (destruct Hor; lia).
  rewrite Hp in *. rewrite (u64_small (clockPeriod c * cycles)), u64_small by nia.
  split_and!; [lia|lia|by exists (cycle c')|done| |done..].
  do 2 f_equal. rewrite Ht, Z.div_mul by lia. done.
Qed.

Lemma clock_edge_correct_witness :
  ∃ edge c', 1700 ≤ edge < 1700 + 500 ∧ (500 | edge) ∧
    clockEdge 1700 3 (new 500) = Ok (edge + 500 * 3, c') ∧
    curCycle 1700 (new 500) = Ok (edge / 500, c') ∧ clock_wf c' ∧ tick c' = edge.
Proof.
  apply (clock_edge_correct 1700 3 (new 500)); [by unfold clock_wf|simpl; lia..].
Defined.

End ClockEdges.

(** ** No wake-up is lost *)

Section Wakeups.
Import Consumer.
Implicit Types (c : t) (l : list Z).

Lemma elem_of_insert x y l : x ∈ insert y l ↔ x = y ∨ x ∈ l.
Proof.
  induction l as [|z l IH]; simpl; [set_solver|].
  destruct (Z.ltb_spec y z); [set_solver|]. destruct (Z.eqb_spec y z); set_solver.
Qed.

Lemma insert_sorted x l : StronglySorted Z.lt l → StronglySorted Z.lt (insert x l).
Proof.
  induction 1 as [|y l Hl IH Hy]; simpl; [repeat constructor|].
  destruct (Z.ltb_spec x y).
  { constructor; [by constructor|]. constructor; [done|].
    rewrite Forall_forall in *. intros z Hz. specialize (Hy z Hz). lia. }
  destruct (Z.eqb_spec x y); [by constructor|]. constructor; [done|].
  rewrite Forall_forall in *. intros z [->|Hz]%elem_of_insert; [lia|auto].
Qed.

(** Between two events: the ticks to come are clock edges not in the past, and
    the event, if it is scheduled, is for one of them. *)
Definition pending now c : Prop :=
  clock_wf (em c) ∧ 0 ≤ now ∧ now + 2 * Clocked.clockPeriod (em c) < 2 ^ 64 ∧
  Clocked.tick (em c) < now + Clocked.clockPeriod (em c) ∧
  StronglySorted Z.lt (m_wakeup_ticks c) ∧
  Forall (λ x, now ≤ x ∧ (Clocked.clockPeriod (em c) | x)) (m_wakeup_ticks c) ∧
  (∀ w, m_wakeup_event c = Some w → w ∈ m_wakeup_ticks c).

(** The event is scheduled for the next tick there is. *)
Definition armed now c : Prop :=
  pending now c ∧ m_wakeup_event c = head (m_wakeup_ticks c).

(** The first clock edge not before [t]. *)
Definition align (period t : Z) : Z := (t + period - 1) / period * period.

Lemma align_unique p t n : 0 < p → (n - 1) * p < t ≤ n * p → n * p = align p t.
Proof.
  intros Hp Hn. unfold align. f_equal.
  pose proof (Z.div_mod (t + p - 1) p). pose proof (Z.mod_pos_bound (t + p - 1) p). nia.
Qed.

Lemma multiple_above p t x : 0 < p → (p | x) → t ≤ x → align p t ≤ x.
Proof.
  intros Hp [k ->] Ht. unfold align. apply Z.mul_le_mono_nonneg_r; [lia|].
  apply Z.lt_succ_r, Z.div_lt_upper_bound; lia.
Qed.

Lemma edge_spec now k c :
  pending now c → 0 ≤ k → now + (k + 2) * Clocked.clockPeriod (em c) < 2 ^ 64 →
  ∃ e, Clocked.clockEdge now k (em c) =
         Ok (align (Clocked.clockPeriod (em c)) now + Clocked.clockPeriod (em c) * k, e) ∧
    clock_wf e ∧ Clocked.clockPeriod e = Clocked.clockPeriod (em c) ∧
    Clocked.tick e < now + Clocked.clockPeriod (em c).
Proof.
  intros (Hc & Hn & Hov & Ht & _) Hk Hk'. unfold Clocked.clockEdge.
  destruct (clock_update_spec now (em c) Hc Hn Hov) as (e & -> & He & Hp & Hle & Hor). cbn [rbind].
  pose proof He as (? & Hte & ? & ?). assert (Clocked.tick e < now + Clocked.clockPeriod (em c))
    by (destruct Hor; lia).
  exists e. rewrite Hp in *. rewrite (u64_small (_ * k)), u64_small by nia. split_and!; try done.
  do 2 f_equal. rewrite Hte, (align_unique _ now (Clocked.cycle e)) by nia. done.
Qed.

Lemma schedule_next now c :
  pending now c → ∃ c', scheduleNextWakeup now c = Ok c' ∧ armed now c' ∧
    m_wakeup_ticks c' = m_wakeup_ticks c ∧
    Clocked.clockPeriod (em c') = Clocked.clockPeriod (em c).
Proof.
  intros Hc. unfold scheduleNextWakeup.
  destruct (edge_spec now 0 c Hc) as (e & -> & He & Hp & Ht); [lia|destruct Hc as (_&_&?&_); lia|].
  cbn [rbind m_wakeup_ticks m_wakeup_event]. rewrite Z.mul_0_r, Z.add_0_r.
  destruct Hc as (_ & Hn & Hov & _ & Hs & Hf & Hev).
  assert (∀ ev, (∀ w, ev = Some w → w ∈ m_wakeup_ticks c) →
    pending now (mk (m_wakeup_ticks c) ev e)) as Hpend.
  { intros ev ?. unfold pending. simpl. rewrite Hp. by split_and!. }
  destruct (m_wakeup_ticks c) as [|when l] eqn:El; cbn [lower_bound].
  { destruct (m_wakeup_event c) as [w|] eqn:Ew; [specialize (Hev w eq_refl); set_solver|].
    eexists. split; [done|]. split_and!; [split; [by apply Hpend|done]|done|done]. }
  apply Forall_cons in Hf as [[Hw Hdiv] Hf]. destruct He as (Hpos & _). rewrite Hp in Hpos.
  pose proof (multiple_above _ now when Hpos Hdiv Hw). rewrite !(proj2 (Z.leb_le (align _ _) when)) by done.
  cbn [require rbind]. assert (armed now (mk (when :: l) (Some when) e)) as Harm.
  { split; [|done]. apply Hpend. intros w [= <-]. set_solver. }
  destruct (m_wakeup_event c) as [w|] eqn:Ew.
  - destruct (Z.ltb_spec when w).
    + unfold reschedule. rewrite (proj2 (Z.leb_le now when)) by done. cbn [require rbind].
      eexists. split; [done|]. by split_and!.
    + assert (w = when) as ->.
      { specialize (Hev w eq_refl). apply elem_of_cons in Hev as [->|Hin]; [done|].
        apply StronglySorted_cons in Hs as [Hall _]. rewrite Forall_forall in Hall.
        specialize (Hall w Hin). lia. }
      eexists. split; [done|]. by split_and!.
  - unfold schedule. rewrite (proj2 (Z.leb_le now when)) by done. cbn [require rbind m_wakeup_event].
    rewrite bool_decide_true by done. cbn [require rbind]. eexists. split; [done|]. by split_and!.
Qed.

Lemma pending_insert now c x e :
  pending now c → now ≤ x → (Clocked.clockPeriod (em c) | x) → clock_wf e →
  Clocked.clockPeriod e = Clocked.clockPeriod (em c) →
  Clocked.tick e < now + Clocked.clockPeriod (em c) →
  pending now (mk (insert x (m_wakeup_ticks c)) (m_wakeup_event c) e).
Proof.
  intros (_ & ? & ? & _ & Hs & Hf & Hev) Hx Hd He Hp Ht. unfold pending. simpl. rewrite Hp.
  split_and!; try done; [by apply insert_sorted| |].
  - rewrite Forall_forall in *. intros y [->|Hy]%elem_of_insert; auto.
  - intros w Hw. apply elem_of_insert. auto.
Qed.

Lemma request_spec now evt c :
  pending now c → now ≤ evt → evt + 2 * Clocked.clockPeriod (em c) < 2 ^ 64 →
  ∃ c', scheduleEventAbsolute now evt c = Ok c' ∧ armed now c' ∧
    Clocked.clockPeriod (em c') = Clocked.clockPeriod (em c) ∧
    ∀ x, x ∈ m_wakeup_ticks c' ↔
         x = align (Clocked.clockPeriod (em c)) evt ∨ x ∈ m_wakeup_ticks c.
Proof.
  intros Hc Hle Hov. unfold scheduleEventAbsolute. pose proof Hc as ((Hp & Hcl) & Hn & _ & Ht & _).
  destruct (IntMath.divCeil evt _) as [n|] eqn:E; cycle 1.
  { destruct (divCeil_spec evt (Clocked.clockPeriod (em c))) as (n & E' & _); [lia..|congruence]. }
  destruct (divCeil_spec evt (Clocked.clockPeriod (em c))) as (n' & E' & Hn'); [lia..|].
  assert (n' = n) as -> by congruence. cbn [rbind]. rewrite u64_small by nia.
  destruct (schedule_next now (mk (insert (n * Clocked.clockPeriod (em c)) (m_wakeup_ticks c))
    (m_wakeup_event c) (em c))) as (c' & -> & Harm & Htk & Hp').
  { apply pending_insert; try done; [lia|by exists n]. }
  exists c'. split_and!; try done. intros x. rewrite Htk. simpl.
  rewrite elem_of_insert, (align_unique _ evt n) by lia. done.
Qed.

Lemma request_cycles_spec now k c :
  pending now c → 0 ≤ k → now + (k + 2) * Clocked.clockPeriod (em c) < 2 ^ 64 →
  ∃ c', scheduleEvent now k c = Ok c' ∧ armed now c' ∧
    Clocked.clockPeriod (em c') = Clocked.clockPeriod (em c) ∧
    ∀ x, x ∈ m_wakeup_ticks c' ↔
         x = align (Clocked.clockPeriod (em c)) now + Clocked.clockPeriod (em c) * k ∨
         x ∈ m_wakeup_ticks c.
Proof.
  intros Hc Hk Hov. unfold scheduleEvent. pose proof Hc as ((Hp & _) & _).
  destruct (edge_spec now k c Hc Hk Hov) as (e & -> & He & Hpe & Ht). cbn [rbind].
  assert (now ≤ align (Clocked.clockPeriod (em c)) now).
  { unfold align. pose proof (Z.div_mod (now + Clocked.clockPeriod (em c) - 1) (Clocked.clockPeriod (em c))).
    pose proof (Z.mod_pos_bound (now + Clocked.clockPeriod (em c) - 1) (Clocked.clockPeriod (em c))). nia. }
  destruct (schedule_next now (mk (insert (align (Clocked.clockPeriod (em c)) now +
    Clocked.clockPeriod (em c) * k) (m_wakeup_ticks c)) (m_wakeup_event c) e))
    as (c' & -> & Harm & Htk & Hp').
  { apply pending_insert; try done; [nia|].
    apply Z.divide_add_r; [by eexists|by exists k; rewrite Z.mul_comm]. }
  exists c'. split_and!; [done|done|simpl in Hp'; lia|]. intros x. rewrite Htk. apply elem_of_insert.
Qed.

(** What a simulation does with a consumer: time passes, controllers and buffers
    ask for wake-ups, and the event queue runs the event, whose [wakeup()] asks
    for further ones. *)
Inductive action :=
| Advance (now : Z) | Request (evt_time : Z) | RequestCycles (k : Z) | Fire (asks : list Z).

Fixpoint requests now (asks : list Z) c : res t :=
  match asks with
  | [] => Ok c
  | a :: asks => let* c := scheduleEventAbsolute now a c in requests now asks c
  end.

(** One action: the time and the consumer after it, and the ticks served. *)
Definition step now c (a : action) : res (Z * t * list Z) :=
  match a with
  | Advance now => Ok (now, c, [])
  | Request evt_time => let* c := scheduleEventAbsolute now evt_time c in Ok (now, c, [])
  | RequestCycles k => let* c := scheduleEvent now k c in Ok (now, c, [])
  | Fire asks => let* c := processCurrentEvent now (requests now asks) c in Ok (now, c, [now])
  end.

(** The ticks an action asks for, as clock edges. *)
Definition asked (period now : Z) (a : action) : list Z :=
  match a with
  | Advance _ => []
  | Request evt_time => [align period evt_time]
  | RequestCycles k => [align period now + period * k]
  | Fire asks => align period <$> asks
  end.

(** Time does not pass over the event, no one asks for a wake-up in the past, the
    event runs when it is due, and all times fit in a [Tick]. *)
Definition legal now c (a : action) : Prop :=
  let p := Clocked.clockPeriod (em c) in
  match a with
  | Advance n => now ≤ n ∧ n + 2 * p < 2 ^ 64 ∧ ∀ w, m_wakeup_event c = Some w → n ≤ w
  | Request e => now ≤ e ∧ e + 2 * p < 2 ^ 64
  | RequestCycles k => 0 ≤ k ∧ now + (k + 2) * p < 2 ^ 64
  | Fire asks => m_wakeup_event c = Some now ∧ Forall (λ e, now ≤ e ∧ e + 2 * p < 2 ^ 64) asks
  end.

Lemma requests_spec now asks c :
  pending now c → Forall (λ e, now ≤ e ∧ e + 2 * Clocked.clockPeriod (em c) < 2 ^ 64) asks →
  ∃ c', requests now asks c = Ok c' ∧ pending now c' ∧
    Clocked.clockPeriod (em c') = Clocked.clockPeriod (em c) ∧
    ∀ x, x ∈ m_wakeup_ticks c' ↔
         x ∈ align (Clocked.clockPeriod (em c)) <$> asks ∨ x ∈ m_wakeup_ticks c.
Proof.
  revert c. induction asks as [|a asks IH]; intros c Hc Ha; simpl; [exists c; set_solver|].
  apply Forall_cons in Ha as [[? ?] Ha].
  destruct (request_spec now a c) as (c1 & -> & [Hc1 _] & Hp1 & Hx1); [done..|]. cbn [rbind].
  destruct (IH c1 Hc1) as (c' & -> & ? & Hp' & Hx'); [by rewrite Hp1|].
  exists c'. rewrite Hp' in *. rewrite Hp1 in *. split_and!; try done. intros x.
  rewrite Hx', Hx1. set_solver.
Qed.

Lemma fire_spec now asks c :
  armed now c → legal now c (Fire asks) →
  ∃ c', processCurrentEvent now (requests now asks) c = Ok c' ∧ armed now c' ∧
    Clocked.clockPeriod (em c') = Clocked.clockPeriod (em c) ∧
    ∀ x, x ∈ align (Clocked.clockPeriod (em c)) <$> asks ∨ x ∈ m_wakeup_ticks c →
         x = now ∨ x ∈ m_wakeup_ticks c'.
Proof.
  intros [Hc Hev] [Hnow Hasks]. unfold processCurrentEvent. rewrite Hnow in Hev.
  destruct (edge_spec now 0 c Hc) as (e & -> & He & Hpe & Ht); [lia|destruct Hc as (_&_&?&_); lia|].
  destruct Hc as ((Hp & _) & ? & ? & _ & Hs & Hf & _).
  destruct (m_wakeup_ticks c) as [|x l]; [done|]. injection Hev as ->. cbn [rbind].
  apply Forall_cons in Hf as [[_ [k Hk]] Hf]. apply StronglySorted_cons in Hs as [_ Hs].
  assert (align (Clocked.clockPeriod (em c)) x + Clocked.clockPeriod (em c) * 0 = x) as ->.
  { rewrite <- (align_unique _ x k); lia. }
  rewrite Z.eqb_refl. cbn [require rbind].
  destruct (requests_spec x asks (mk l None e)) as (c1 & -> & Hc1 & Hp1 & Hx1).
  { unfold pending. simpl. rewrite Hpe. by split_and!. }
  { simpl. by rewrite Hpe. }
  cbn [rbind]. destruct (schedule_next x c1 Hc1) as (c' & -> & Harm & Htk & Hp').
  exists c'. simpl in *. rewrite Hpe in *. split_and!; [done|done|lia|].
  intros y. rewrite Htk, Hx1. set_solver.
Qed.

Lemma armed_new period : 0 < period → 2 * period < 2 ^ 64 → armed 0 (new (Clocked.new period)).
Proof.
  intros ? ?. split; [|done]. unfold pending, clock_wf. simpl. split_and!; try done; try lia.
  constructor.
Qed.

(** One legal action keeps the event armed; a tick that is asked for or waited
    for is served by it or still waited for. *)
Lemma step_spec now c a :
  armed now c → legal now c a →
  ∃ now' c' served, step now c a = Ok (now', c', served) ∧ armed now' c' ∧
    Clocked.clockPeriod (em c') = Clocked.clockPeriod (em c) ∧
    ∀ x, x ∈ asked (Clocked.clockPeriod (em c)) now a ∨ x ∈ m_wakeup_ticks c →
         x ∈ served ∨ x ∈ m_wakeup_ticks c'.
Proof.
  intros Hc. destruct a as [n|e|k|asks]; cbn [step legal asked].
  - intros (Hn & Hov & Hw). exists n, c, []. split_and!; [done| |done|set_solver].
    destruct Hc as [(? & ? & ? & ? & Hs & Hf & ?) Hev]. split; [|done].
    split_and!; try done; [lia..|]. destruct (m_wakeup_ticks c) as [|x l]; [done|].
    specialize (Hw x Hev). apply StronglySorted_cons in Hs as [Hs _].
    rewrite Forall_forall in *. intros y Hy. split; [|by apply Hf].
    apply elem_of_cons in Hy as [->|Hy]; [done|]. specialize (Hs y Hy). lia.
  - intros [? ?]. destruct (request_spec now e c) as (c' & -> & ? & ? & Hx); [apply Hc|done..|].
    exists now, c', []. split_and!; try done. intros x. rewrite Hx. set_solver.
  - intros [? ?]. destruct (request_cycles_spec now k c) as (c' & -> & ? & ? & Hx);
      [apply Hc|done..|].
    exists now, c', []. split_and!; try done. intros x. rewrite Hx. set_solver.
  - intros Hl. destruct (fire_spec now asks c Hc Hl) as (c' & -> & ? & ? & Hx).
    exists now, c', [now]. split_and!; try done. intros x ?%Hx. set_solver.
Qed.

(** A whole run: the ticks served and the ticks asked for. *)
Fixpoint wakeup_run now c (acts : list action) : res (Z * t * list Z * list Z) :=
  match acts with
  | [] => Ok (now, c, [], [])
  | a :: acts =>
      let* (now', c', s) := step now c a in
      let* (now'', c'', served, ask) := wakeup_run now' c' acts in
      Ok (now'', c'', s ++ served, asked (Clocked.clockPeriod (em c)) now a ++ ask)
  end.

Fixpoint legal_wakeups now c (acts : list action) : Prop :=
  match acts with
  | [] => True
  | a :: acts => legal now c a ∧
      ∀ now' c' s, step now c a = Ok (now', c', s) → legal_wakeups now' c' acts
  end.

Lemma wakeup_run_spec acts now c :
  armed now c → legal_wakeups now c acts →
  ∃ now' c' served ask, wakeup_run now c acts = Ok (now', c', served, ask) ∧ armed now' c' ∧
    ∀ x, x ∈ ask ∨ x ∈ m_wakeup_ticks c → x ∈ served ∨ x ∈ m_wakeup_ticks c'.
Proof.
  revert now c. induction acts as [|a acts IH]; intros now c Hc Hl; simpl.
  { exists now, c, [], []. split; [done|]. split; [done|]. set_solver. }
  destruct Hl as [Ha Hl]. destruct (step_spec now c a Hc Ha) as (n1 & c1 & s & E & H1 & _ & Hx1).
  rewrite E. cbn [rbind]. destruct (IH n1 c1 H1 (Hl _ _ _ E)) as (n2 & c2 & sv & ask & -> & H2 & Hx2).
  cbn [rbind]. do 4 eexists. split_and!; [done|done|]. intros x Hx.
  rewrite elem_of_app in *. destruct Hx as [[Hx|Hx]|Hx].
  - destruct (Hx1 x) as [?|?]; [auto|auto|]. destruct (Hx2 x); auto.
  - destruct (Hx2 x); auto.
  - destruct (Hx1 x) as [?|?]; [auto|auto|]. destruct (Hx2 x); auto.
Qed.

(** The same, as a decision procedure. *)
Definition legalb now c (a : action) : bool :=
  let p := Clocked.clockPeriod (em c) in
  match a with
  | Advance n => (now <=? n) && (n + 2 * p <? 2 ^ 64) &&
      match m_wakeup_event c with Some w => n <=? w | None => true end
  | Request e => (now <=? e) && (e + 2 * p <? 2 ^ 64)
  | RequestCycles k => (0 <=? k) && (now + (k + 2) * p <? 2 ^ 64)
  | Fire asks => bool_decide (m_wakeup_event c = Some now) &&
      forallb (λ e, (now <=? e) && (e + 2 * p <? 2 ^ 64)) asks
  end.

Fixpoint legal_wakeupsb now c (acts : list action) : bool :=
  match acts with
  | [] => true
  | a :: acts => legalb now c a &&
      match step now c a with Ok (now', c', _) => legal_wakeupsb now' c' acts | Err _ => true end
  end.

Lemma wakeup_legalb_sound now c a : legalb now c a = true → legal now c a.
Proof.
  destruct a; simpl; intros H; reflect_bool; try done.
  - split_and!; try done. intros w Hw. rewrite Hw in *. by reflect_bool.
  - split; [done|]. apply Forall_forall. intros e He.
    match goal with H : forallb _ _ = true |- _ =>
      rewrite forallb_forall in H; specialize (H e ltac:(by apply list_elem_of_In)) end.
    by reflect_bool.
Qed.

Lemma legal_wakeupsb_sound acts now c : legal_wakeupsb now c acts = true → legal_wakeups now c acts.
Proof.
  revert now c. induction acts as [|a acts IH]; intros now c H; [done|]. simpl in *. reflect_bool.
  split; [by apply wakeup_legalb_sound|]. intros now' c' s E. rewrite E in *. by apply IH.
Qed.

(** C19. No wake-up of a consumer is lost. In every legal run of a simulation
    from a new consumer, no assertion of its scheduling code fails, and every
    tick at which it was asked to wake up, rounded up to its next clock edge,
    was served by its event at exactly that time, or is still to come and the
    event is scheduled no later than it. *)
Theorem wakeups_not_lost period acts (Hp : 0 < period) (Hov : 2 * period < 2 ^ 64)
    (Hl : legal_wakeups 0 (new (Clocked.new period)) acts) :
  ∃ now c served ask,
    wakeup_run 0 (new (Clocked.new period)) acts = Ok (now, c, served, ask) ∧
    ∀ x, x ∈ ask → x ∈ served ∨
      (x ∈ m_wakeup_ticks c ∧ ∃ w, m_wakeup_event c = Some w ∧ now ≤ w ≤ x).
Proof.
  destruct (wakeup_run_spec acts 0 (new (Clocked.new period))) as (now & c & sv & ask & E & Hc & Hx);
    [by apply armed_new|done|].
  exists now, c, sv, ask. split; [done|]. intros x Hask. destruct (Hx x) as [?|Hin]; [auto..|].
  right. split; [done|]. destruct Hc as [(_ & _ & _ & _ & Hs & Hf & _) Hev].
  destruct (m_wakeup_ticks c) as [|w l]; [set_solver|]. exists w. split; [done|].
  apply Forall_cons in Hf as [[? _] _]. apply StronglySorted_cons in Hs as [Hs _].
  rewrite Forall_forall in Hs. apply elem_of_cons in Hin as [->|Hin]; [lia|].
  specialize (Hs x Hin). lia.
Qed.

Lemma wakeups_not_lost_witness :
  ∃ now c served ask,
    wakeup_run 0 (new (Clocked.new 500))
      [Request 700; RequestCycles 1; Advance 500; Fire [1700]; Advance 1000; Fire []]
    = Ok (now, c, served, ask) ∧
    ∀ x, x ∈ ask → x ∈ served ∨
      (x ∈ m_wakeup_ticks c ∧ ∃ w, m_wakeup_event c = Some w ∧ now ≤ w ≤ x).
Proof.
  apply wakeups_not_lost; [lia|lia|]. apply legal_wakeupsb_sound. by vm_compute.
Defined.

End Wakeups.
