(* ===== verification/MessageBuffer.v ===== *)
(** The queues between Ruby's controllers: messages (slicc_interface/Message.hh)
    and message buffers (network/MessageBuffer). *)

From stdpp Require Import prelude list gmap sorting.
From Stdlib Require Import ZArith Lia.
From S2P Require Import Prelude Bits Replacement Heap Clocking.

Open Scope Z_scope.

(** ** slicc_interface/Message.hh *)

Module Message.

(** [payload] is what a protocol's message class adds. *)
Record t (A : Type) := mk {
  m_time : Z; m_LastEnqueueTime : Z; m_DelayedTicks : Z; m_msg_counter : Z;
  incoming_link : Z; vnet : Z; payload : A }.
Arguments mk {A}.
Arguments m_time {A}.
Arguments m_LastEnqueueTime {A}.
Arguments m_DelayedTicks {A}.
Arguments m_msg_counter {A}.
Arguments incoming_link {A}.
Arguments vnet {A}.
Arguments payload {A}.

Section Operations.
Context {A : Type}.
Implicit Types m : t A.

(** The constructor; the link and the virtual network are not initialised. *)
Definition new (curTime garbage : Z) (a : A) : t A := mk curTime curTime 0 0 garbage garbage a.

Definition updateDelayedTicks m (curTime : Z) : res (t A) :=
  assert! m_LastEnqueueTime m <=? curTime in
  let delta := u64 (curTime - m_LastEnqueueTime m) in
  Ok (mk (m_time m) (m_LastEnqueueTime m) (u64 (m_DelayedTicks m + delta)) (m_msg_counter m)
         (incoming_link m) (vnet m) (payload m)).

Definition getDelayedTicks m : Z := m_DelayedTicks m.
Definition setLastEnqueueTime m (time : Z) : t A :=
  mk (m_time m) time (m_DelayedTicks m) (m_msg_counter m) (incoming_link m) (vnet m) (payload m).
Definition getLastEnqueueTime m : Z := m_LastEnqueueTime m.
Definition getTime m : Z := m_time m.
Definition setMsgCounter m (c : Z) : t A :=
  mk (m_time m) (m_LastEnqueueTime m) (m_DelayedTicks m) c (incoming_link m) (vnet m) (payload m).
Definition getMsgCounter m : Z := m_msg_counter m.
Definition getIncomingLink m : Z := incoming_link m.
Definition setIncomingLink m (link : Z) : t A :=
  mk (m_time m) (m_LastEnqueueTime m) (m_DelayedTicks m) (m_msg_counter m) link (vnet m) (payload m).
Definition getVnet m : Z := vnet m.
Definition setVnet m (net : Z) : t A :=
  mk (m_time m) (m_LastEnqueueTime m) (m_DelayedTicks m) (m_msg_counter m) (incoming_link m) net
     (payload m).
Definition with_payload m (a : A) : t A :=
  mk (m_time m) (m_LastEnqueueTime m) (m_DelayedTicks m) (m_msg_counter m) (incoming_link m)
     (vnet m) a.

(** [operator>] on message pointers: later, or at the same time with a higher
    counter. *)
Definition gt (l r : t A) : bool :=
  if getLastEnqueueTime l =? getLastEnqueueTime r
  then getMsgCounter r <? getMsgCounter l
  else getLastEnqueueTime r <? getLastEnqueueTime l.

End Operations.
End Message.

(** ** network/MessageBuffer *)

Module MessageBuffer.
Import Message.

Inductive MessageRandomization := disabled | enabled | ruby_system.

(** The constant members. *)
Record Config := mkConfig {
  m_max_size : Z; m_max_dequeue_rate : Z; m_strict_fifo : bool;
  m_randomization : MessageRandomization; m_allow_zero_latency : bool; m_routing_priority : Z }.

(** The messages: the priority heap and the two maps by address. *)
Record Queue (A : Type) := mkQueue {
  m_prio_heap : list (Message.t A); m_stall_msg_map : gmap Z (list (Message.t A));
  m_deferred_msg_map : gmap Z (list (Message.t A)); m_stall_map_size : Z }.
Arguments mkQueue {A}.
Arguments m_prio_heap {A}.
Arguments m_stall_msg_map {A}.
Arguments m_deferred_msg_map {A}.
Arguments m_stall_map_size {A}.

(** The sizes and times by which enqueues appear at once and pops a cycle later. *)
Record Cycle := mkCycle {
  m_dequeues_this_cy : Z; m_time_last_time_size_checked : Z; m_size_last_time_size_checked : Z;
  m_time_last_time_enqueue : Z; m_time_last_time_pop : Z; m_size_at_cycle_start : Z;
  m_stalled_at_cycle_start : Z; m_msgs_this_cycle : Z }.

(** What orders the messages. *)
Record Order := mkOrder {
  m_last_arrival_time : Z; m_msg_counter : Z; m_last_message_strict_fifo_bypassed : bool }.

Record Stats := mkStats {
  m_not_avail_count : Z; m_msg_count : Z; m_buf_msgs : Z; m_stall_time : Z; m_stall_count : Z }.

(** Who is connected; a callback is known by its number. *)
Record Wiring := mkWiring {
  m_consumer : bool; m_dequeue_callback : option nat; m_priority_rank : Z;
  m_input_link_id : Z; m_vnet_id : Z }.

Record t (A : Type) := mk {
  cfg : Config; queue : Queue A; cyc : Cycle; ord : Order; stats : Stats; wires : Wiring }.
Arguments mk {A}.
Arguments cfg {A}.
Arguments queue {A}.
Arguments cyc {A}.
Arguments ord {A}.
Arguments stats {A}.
Arguments wires {A}.

Section Operations.
Context {A : Type} `{HeapOps (Message.t A)}.
Implicit Types (b : t A) (m : Message.t A) (q : Queue A) (now current_time : Z) (c : Consumer.t).

Abbreviation heap b := (m_prio_heap (queue b)).

Definition new (g : Config) : t A :=
  mk g (mkQueue [] ∅ ∅ 0) (mkCycle 0 0 0 0 0 0 0 0) (mkOrder 0 0 false) (mkStats 0 0 0 0 0)
     (mkWiring false None 0 0 0).

Definition with_queue b q : t A := mk (cfg b) q (cyc b) (ord b) (stats b) (wires b).
Definition with_cyc b (y : Cycle) : t A := mk (cfg b) (queue b) y (ord b) (stats b) (wires b).
Definition with_ord b (o : Order) : t A := mk (cfg b) (queue b) (cyc b) o (stats b) (wires b).
Definition with_stats b (s : Stats) : t A := mk (cfg b) (queue b) (cyc b) (ord b) s (wires b).
Definition with_wires b (w : Wiring) : t A := mk (cfg b) (queue b) (cyc b) (ord b) (stats b) w.

Definition set_heap q (h : list (Message.t A)) : Queue A :=
  mkQueue h (m_stall_msg_map q) (m_deferred_msg_map q) (m_stall_map_size q).

Definition getPriority b : Z := m_priority_rank (wires b).
Definition setPriority b (rank : Z) : t A :=
  let w := wires b in
  with_wires b (mkWiring (m_consumer w) (m_dequeue_callback w) rank (m_input_link_id w) (m_vnet_id w)).
Definition setConsumer b : res (t A) :=
  let w := wires b in
  let* _ := require (negb (m_consumer w)) EFatal in
  Ok (with_wires b (mkWiring true (m_dequeue_callback w) (m_priority_rank w)
                             (m_input_link_id w) (m_vnet_id w))).
Definition getOrdered b : bool := m_strict_fifo (cfg b).
Definition setIncomingLink b (link_id : Z) : t A :=
  let w := wires b in
  with_wires b (mkWiring (m_consumer w) (m_dequeue_callback w) (m_priority_rank w) link_id (m_vnet_id w)).
Definition setVnet b (net : Z) : t A :=
  let w := wires b in
  with_wires b (mkWiring (m_consumer w) (m_dequeue_callback w) (m_priority_rank w)
                         (m_input_link_id w) net).
Definition registerDequeueCallback b (callback : nat) : t A :=
  let w := wires b in
  with_wires b (mkWiring (m_consumer w) (Some callback) (m_priority_rank w)
                         (m_input_link_id w) (m_vnet_id w)).
Definition unregisterDequeueCallback b : t A :=
  let w := wires b in
  with_wires b (mkWiring (m_consumer w) None (m_priority_rank w) (m_input_link_id w) (m_vnet_id w)).

Definition isEmpty b : bool := zlen (heap b) =? 0.
Definition isStallMapEmpty b : bool := Z.of_nat (size (m_stall_msg_map (queue b))) =? 0.
Definition getStallMapSize b : Z := u32 (Z.of_nat (size (m_stall_msg_map (queue b)))).
Definition hasStalledMsg b (addr : Z) : bool :=
  bool_decide (is_Some (m_stall_msg_map (queue b) !! addr)).
Definition isDeferredMsgMapEmpty b (addr : Z) : bool :=
  negb (bool_decide (is_Some (m_deferred_msg_map (queue b) !! addr))).
Definition routingPriority b : Z := m_routing_priority (cfg b).
Definition clearStats b : t A :=
  let s := stats b in
  with_stats (with_ord b (mkOrder (m_last_arrival_time (ord b)) 0
                                  (m_last_message_strict_fifo_bypassed (ord b))))
             (mkStats 0 (m_msg_count s) (m_buf_msgs s) (m_stall_time s) (m_stall_count s)).

(** The size at the first query of a tick. *)
Definition getSize b (curTime : Z) : Z * t A :=
  let y := cyc b in
  let y := if m_time_last_time_size_checked y =? curTime then y
           else mkCycle (m_dequeues_this_cy y) curTime (u32 (zlen (heap b)))
                  (m_time_last_time_enqueue y) (m_time_last_time_pop y)
                  (m_size_at_cycle_start y) (m_stalled_at_cycle_start y) (m_msgs_this_cycle y) in
  (m_size_last_time_size_checked y, with_cyc b y).

Definition areNSlotsAvailable b (n current_time : Z) : bool * t A :=
  if m_max_size (cfg b) =? 0 then (true, b)
  else
    let y := cyc b in
    let '(current_size, current_stall_size) :=
      if m_time_last_time_pop y <? current_time
      then (u32 (zlen (heap b)), u32 (m_stall_map_size (queue b)))
      else ((if m_time_last_time_enqueue y <? current_time then m_size_at_cycle_start y
             else u32 (m_size_at_cycle_start y + m_msgs_this_cycle y)),
            m_stalled_at_cycle_start y) in
    if u32 (u32 (current_size + current_stall_size) + n) <=? m_max_size (cfg b)
    then (true, b)
    else
      let s := stats b in
      (false, with_stats b (mkStats (m_not_avail_count s + 1) (m_msg_count s) (m_buf_msgs s)
                                    (m_stall_time s) (m_stall_count s))).

(** The first message of the heap; the vector must not be empty. *)
Definition front b : res (Message.t A) := of_option EUndef (head (heap b)).

Definition peek b : res (Message.t A) := front b.

Definition readyTime b : Z :=
  match heap b with [] => 2 ^ 64 - 1 | m :: _ => getLastEnqueueTime m end.

(** [m_consumer->...]: the consumer must be connected. *)
Definition on_consumer b (f : Consumer.t → res Consumer.t) c : res Consumer.t :=
  if m_consumer (wires b) then f c else Err EUndef.

Definition isReady now c b current_time : res (bool * Consumer.t) :=
  let y := cyc b in
  assert! m_time_last_time_pop y <=? current_time in
  let rate := m_max_dequeue_rate (cfg b) in
  let can_dequeue := (rate =? 0) || (m_time_last_time_pop y <? current_time) ||
                     (m_dequeues_this_cy y <? rate) in
  let is_ready := match heap b with
                  | [] => false
                  | m :: _ => getLastEnqueueTime m <=? current_time
                  end in
  let* c := (if negb can_dequeue && is_ready
             then on_consumer b (Consumer.scheduleEvent now 1) c else Ok c) in
  Ok (can_dequeue && is_ready, c).

(** The delay of a randomized message, from three outputs of the generator. *)
Definition random_time (draws : Z * Z * Z) : res Z :=
  let '(g1, g2, g3) := draws in
  let* r1 := random_range g1 0 3 in
  let* r2 := random_range g2 0 7 in
  if r2 =? 0 then let* r3 := random_range g3 1 15 in Ok (1 + r1 + (100 + r3)) else Ok (1 + r1).

(** [enqueue] counts the message, ... *)
Definition count_enqueue b current_time : t A :=
  let y := cyc b in
  let first := m_time_last_time_enqueue y <? current_time in
  let msgs := if first then 0 else m_msgs_this_cycle y in
  let time := if first then current_time else m_time_last_time_enqueue y in
  let o := ord b in
  with_ord (with_cyc b (mkCycle (m_dequeues_this_cy y) (m_time_last_time_size_checked y)
                          (m_size_last_time_size_checked y) time (m_time_last_time_pop y)
                          (m_size_at_cycle_start y) (m_stalled_at_cycle_start y) (u32 (msgs + 1))))
    (mkOrder (m_last_arrival_time o) (u64 (m_msg_counter o + 1))
             (m_last_message_strict_fifo_bypassed o)).

(** ... computes its arrival time, which may move [m_last_arrival_time], ... *)
Definition arrival b current_time (delta : Z) (ruby_is_random : bool) (draws : Z * Z * Z)
    : res (Z * Z) :=
  let last := m_last_arrival_time (ord b) in
  let g := cfg b in
  if match m_randomization g with
     | disabled => true | ruby_system => negb ruby_is_random | enabled => false
     end
  then Ok (u64 (current_time + delta), last)
  else
    let* r := random_time draws in
    if m_strict_fifo g
    then let last := if last <? current_time then current_time else last in
         Ok (u64 (last + r), last)
    else Ok (u64 (current_time + r), last).

(** ... and inserts it into the heap. *)
Definition push b m : t A :=
  let q := queue b in
  let s := stats b in
  with_stats (with_queue b (set_heap q (push_heap gt (m_prio_heap q ++ [m]))))
    (mkStats (m_not_avail_count s) (m_msg_count s) (m_buf_msgs s + 1) (m_stall_time s)
             (m_stall_count s)).

Definition enqueue now c (draws : Z * Z * Z) b (message : Message.t A) current_time (delta : Z)
    (ruby_is_random ruby_warmup bypassStrictFIFO : bool) : res (t A * Consumer.t) :=
  let b := count_enqueue b current_time in
  let g := cfg b in
  let* _ := require (negb ((delta =? 0) && negb (m_allow_zero_latency g))) EPanic in
  let* (arrival_time, last) := arrival b current_time delta ruby_is_random draws in
  assert! current_time <=? arrival_time in
  let* _ := require (negb (m_strict_fifo g &&
                           negb (bypassStrictFIFO || m_last_message_strict_fifo_bypassed (ord b)) &&
                           (arrival_time <? last))) EPanic in
  let b := with_ord b (mkOrder (if ruby_warmup then last else arrival_time)
                               (m_msg_counter (ord b)) bypassStrictFIFO) in
  assert! getLastEnqueueTime message <=? current_time in
  let* message := updateDelayedTicks message current_time in
  let message := setMsgCounter (setLastEnqueueTime message arrival_time) (m_msg_counter (ord b)) in
  let b := push b message in
  assert! (m_max_size g =? 0) ||
          (u64 (zlen (heap b) + m_stall_map_size (queue b)) <=? m_max_size g) in
  assert! m_consumer (wires b) in
  let* c := Consumer.scheduleEventAbsolute now arrival_time c in
  Ok (b, c).

(** [pop_heap] and [pop_back]. *)
Definition pop_message (h : list (Message.t A)) : list (Message.t A) :=
  removelast (pop_heap gt h).

Definition count_pop b current_time : t A :=
  let y := cyc b in
  let y := if m_time_last_time_pop y <? current_time
           then mkCycle 0 (m_time_last_time_size_checked y) (m_size_last_time_size_checked y)
                  (m_time_last_time_enqueue y) current_time (u32 (zlen (heap b)))
                  (u32 (m_stall_map_size (queue b))) (m_msgs_this_cycle y)
           else y in
  with_cyc b (mkCycle (u32 (m_dequeues_this_cy y + 1)) (m_time_last_time_size_checked y)
                (m_size_last_time_size_checked y) (m_time_last_time_enqueue y)
                (m_time_last_time_pop y) (m_size_at_cycle_start y) (m_stalled_at_cycle_start y)
                (m_msgs_this_cycle y)).

(** [dequeue]: the message taken off the heap, whose delay it returns, and the
    callback it ran last. *)
Definition dequeue now c b current_time (decrement_messages : bool)
    : res (Message.t A * option nat * t A * Consumer.t) :=
  let* (ready, c) := isReady now c b current_time in
  assert! ready in
  let* message := front b in
  let* message := updateDelayedTicks message current_time in
  let b := count_pop b current_time in
  let b := with_queue b (set_heap (queue b) (pop_message (heap b))) in
  let s := stats b in
  let b := if decrement_messages
           then with_stats b (mkStats (m_not_avail_count s) (m_msg_count s + 1) (m_buf_msgs s - 1)
                                (m_stall_time s + u64 (now - getLastEnqueueTime message))
                                (m_stall_count s))
           else b in
  Ok (message, m_dequeue_callback (wires b), b, c).

Definition delayHead now c (draws : Z * Z * Z) b current_time (delta : Z)
    (ruby_is_random ruby_warmup : bool) : res (t A * Consumer.t) :=
  let* m := front b in
  let b := with_queue b (set_heap (queue b) (pop_message (heap b))) in
  enqueue now c draws b m current_time delta ruby_is_random ruby_warmup false.

Definition clear b : t A :=
  let y := cyc b in
  let o := ord b in
  mk (cfg b) (set_heap (queue b) [])
     (mkCycle (m_dequeues_this_cy y) (m_time_last_time_size_checked y)
        (m_size_last_time_size_checked y) 0 0 0 0 0)
     (mkOrder (m_last_arrival_time o) 0 (m_last_message_strict_fifo_bypassed o))
     (stats b) (wires b).

Definition recycle now c b current_time (recycle_latency : Z) : res (t A * Consumer.t) :=
  let* (ready, c) := isReady now c b current_time in
  assert! ready in
  let* node := front b in
  let future_time := u64 (current_time + recycle_latency) in
  let node := setLastEnqueueTime node future_time in
  let h := push_heap gt (pop_message (heap b) ++ [node]) in
  let* c := on_consumer b (Consumer.scheduleEventAbsolute now future_time) c in
  Ok (with_queue b (set_heap (queue b) h), c).

(** [reanalyzeList]: the stalled messages go back into the heap, in order. *)
Fixpoint reanalyzeList now c b (lt : list (Message.t A)) (schdTick : Z)
    : res (t A * Consumer.t) :=
  match lt with
  | [] => Ok (b, c)
  | m :: lt =>
      assert! getLastEnqueueTime m <=? schdTick in
      let q := queue b in
      let b := with_queue b (set_heap q (push_heap gt (m_prio_heap q ++ [m]))) in
      let* c := on_consumer b (Consumer.scheduleEventAbsolute now schdTick) c in
      reanalyzeList now c b lt schdTick
  end.

Definition set_stalled q (s : gmap Z (list (Message.t A))) (n : Z) : Queue A :=
  mkQueue (m_prio_heap q) s (m_deferred_msg_map q) n.

Definition reanalyzeMessages now c b (addr : Z) current_time : res (t A * Consumer.t) :=
  match m_stall_msg_map (queue b) !! addr with
  | None => Err EAssert
  | Some lt =>
      let n := i32 (m_stall_map_size (queue b) - zlen lt) in
      assert! 0 <=? n in
      let b := with_queue b (set_stalled (queue b) (m_stall_msg_map (queue b)) n) in
      let* (b, c) := reanalyzeList now c b lt current_time in
      Ok (with_queue b (set_stalled (queue b) (delete addr (m_stall_msg_map (queue b))) n), c)
  end.

Fixpoint reanalyze_each now c b (addrs : list Z) current_time : res (t A * Consumer.t) :=
  match addrs with
  | [] => Ok (b, c)
  | addr :: addrs =>
      let lt := default [] (m_stall_msg_map (queue b) !! addr) in
      let n := i32 (m_stall_map_size (queue b) - zlen lt) in
      assert! 0 <=? n in
      let b := with_queue b (set_stalled (queue b) (m_stall_msg_map (queue b)) n) in
      let* (b, c) := reanalyzeList now c b lt current_time in
      reanalyze_each now c b addrs current_time
  end.

Definition reanalyzeAllMessages now c b current_time : res (t A * Consumer.t) :=
  let* (b, c) := reanalyze_each now c b (keys (m_stall_msg_map (queue b))) current_time in
  Ok (with_queue b (set_stalled (queue b) ∅ (m_stall_map_size (queue b))), c).

Definition stallMessage now c b (addr : Z) current_time : res (t A * Consumer.t) :=
  let* (ready, c) := isReady now c b current_time in
  assert! ready in
  let* (message, _, b, c) := dequeue now c b current_time false in
  let q := queue b in
  let lt := default [] (m_stall_msg_map q !! addr) in
  let s := stats b in
  Ok (with_stats
        (with_queue b (set_stalled q (<[addr := lt ++ [message]]> (m_stall_msg_map q))
                                   (i32 (m_stall_map_size q + 1))))
        (mkStats (m_not_avail_count s) (m_msg_count s) (m_buf_msgs s) (m_stall_time s)
                 (m_stall_count s + 1)), c).

Definition set_deferred q (d : gmap Z (list (Message.t A))) : Queue A :=
  mkQueue (m_prio_heap q) (m_stall_msg_map q) d (m_stall_map_size q).

Definition deferEnqueueingMessage b (addr : Z) m : t A :=
  let q := queue b in
  let l := default [] (m_deferred_msg_map q !! addr) in
  with_queue b (set_deferred q (<[addr := l ++ [m]]> (m_deferred_msg_map q))).

Fixpoint enqueue_each now c (draws : nat → Z * Z * Z) b (ms : list (Message.t A))
    (curTime delay : Z) (ruby_is_random ruby_warmup : bool) : res (t A * Consumer.t) :=
  match ms with
  | [] => Ok (b, c)
  | m :: ms =>
      let* (b, c) := enqueue now c (draws O) b m curTime delay ruby_is_random ruby_warmup false in
      enqueue_each now c (λ i, draws (S i)) b ms curTime delay ruby_is_random ruby_warmup
  end.

Definition enqueueDeferredMessages now c (draws : nat → Z * Z * Z) b (addr curTime delay : Z)
    (ruby_is_random ruby_warmup : bool) : res (t A * Consumer.t) :=
  assert! negb (isDeferredMsgMapEmpty b addr) in
  let msg_vec := default [] (m_deferred_msg_map (queue b) !! addr) in
  assert! 0 <? zlen msg_vec in
  let* (b, c) := enqueue_each now c draws b msg_vec curTime delay ruby_is_random ruby_warmup in
  Ok (with_queue b (set_deferred (queue b) (delete addr (m_deferred_msg_map (queue b)))), c).

End Operations.

(** *** Functional accesses

    The virtual functions of a protocol's messages are arguments: whether the
    message has data for the packet, the packet (with the mask) after a read,
    the message after a write. *)
Section Functional.
Context {A P M : Type}.
Context (functionalRead : A → P → bool * P).
Context (functionalRead_mask : A → P → M → bool * (P * M)).
Context (functionalWrite : A → P → bool * A).

(** One message: whether it was accessed, and what the access changed. *)
Definition access_one (is_read : bool) (m : Message.t A) (pkt : P) (mask : option M)
    : bool * (Message.t A * P * option M) :=
  match is_read, mask with
  | true, None => let '(hit, pkt) := functionalRead (payload m) pkt in (hit, (m, pkt, None))
  | true, Some k =>
      let '(hit, (pkt, k)) := functionalRead_mask (payload m) pkt k in (hit, (m, pkt, Some k))
  | false, _ => let '(hit, a) := functionalWrite (payload m) pkt in
                (hit, (with_payload m a, pkt, mask))
  end.

(** A list of messages: [inl] when a read without a mask found one, and the
    number of accesses otherwise. *)
Fixpoint access_list (is_read : bool) (ms : list (Message.t A)) (pkt : P) (mask : option M)
    (n : Z) : P + (list (Message.t A) * P * option M * Z) :=
  match ms with
  | [] => inr ([], pkt, mask, n)
  | m :: ms =>
      let '(hit, (m, pkt', mask')) := access_one is_read m pkt mask in
      if hit && is_read && match mask with None => true | Some _ => false end then inl pkt'
      else match access_list is_read ms pkt' mask' (if hit then n + 1 else n) with
           | inl pkt => inl pkt
           | inr (ms, pkt, mask, n) => inr (m :: ms, pkt, mask, n)
           end
  end.

Fixpoint access_map (is_read : bool) (addrs : list Z) (s : gmap Z (list (Message.t A)))
    (pkt : P) (mask : option M) (n : Z)
    : P + (gmap Z (list (Message.t A)) * P * option M * Z) :=
  match addrs with
  | [] => inr (s, pkt, mask, n)
  | addr :: addrs =>
      match access_list is_read (default [] (s !! addr)) pkt mask n with
      | inl pkt => inl pkt
      | inr (ms, pkt, mask, n) => access_map is_read addrs (<[addr := ms]> s) pkt mask n
      end
  end.

Definition functionalAccess (is_read : bool) (b : t A) (pkt : P) (mask : option M)
    : Z * t A * P * option M :=
  let q := queue b in
  match access_list is_read (m_prio_heap q) pkt mask 0 with
  | inl pkt => (1, b, pkt, mask)
  | inr (h, pkt, mask, n) =>
      match access_map is_read (keys (m_stall_msg_map q)) (m_stall_msg_map q) pkt mask n with
      | inl pkt => (1, b, pkt, mask)
      | inr (s, pkt, mask, n) =>
          (n, with_queue b (mkQueue h s (m_deferred_msg_map q) (m_stall_map_size q)), pkt, mask)
      end
  end.

Definition functionalWrite_buffer (b : t A) (pkt : P) : Z * t A :=
  let '(n, b, _, _) := functionalAccess false b pkt None in (n, b).

Definition functionalRead_buffer (b : t A) (pkt : P) (mask : option M) : bool * P * option M :=
  let '(n, _, pkt, mask) := functionalAccess true b pkt mask in (n =? 1, pkt, mask).

End Functional.
End MessageBuffer.
