(* ===== verification/MessageBufferSpec.v ===== *)
(** What message buffers promise: an ordered buffer is a FIFO queue, no message
    is lost or duplicated by stalling, reanalysis, recycling or delays, and the
    slots a buffer announces are really there. *)

From stdpp Require Import prelude list gmap sorting.
From Stdlib Require Import ZArith Lia.
From S2P Require Import Prelude Bits Replacement Heap Clocking MessageBuffer.

Open Scope Z_scope.

Import Message MessageBuffer.

(** ** The order of messages *)

#[global] Instance gt_weak {A} : WeakOrder (gt (A := A)).
Proof.
  split; unfold gt; intros *; repeat case_match; intros; reflect_bool; try done;
    rewrite ?Z.ltb_ge, ?Z.ltb_lt in *; lia.
Qed.

Section Heap.
Context {A : Type} `{HeapLaws (Message.t A)}.
Implicit Types (b : t A) (m : Message.t A) (h : list (Message.t A)).

Lemma push_heap_spec h m :
  is_heap gt h → is_heap gt (push_heap gt (h ++ [m])) ∧ push_heap gt (h ++ [m]) ≡ₚ m :: h.
Proof. apply push_heap_law, _. Qed.

Lemma pop_message_spec h m :
  is_heap gt (m :: h) → is_heap gt (pop_message (m :: h)) ∧ pop_message (m :: h) ≡ₚ h.
Proof.
  intros Hh. unfold pop_message.
  destruct (pop_heap_law gt _ h m Hh) as (l & -> & ? & ?). by rewrite removelast_last.
Qed.

(** A strictly increasing arrangement of the messages of a heap starts with
    the message at its front. *)
Lemma front_head h m ms n :
  is_heap gt (m :: h) → m :: h ≡ₚ n :: ms →
  StronglySorted (λ x y, gt y x = true) (n :: ms) → m = n ∧ h ≡ₚ ms.
Proof.
  intros Hh Hp Hs. assert (m = n) as ->; [|split; [done|by eapply Permutation_cons_inv]].
  assert (m ∈ n :: ms) as [->|Hm]%elem_of_cons by (rewrite <- Hp; set_solver); [done|].
  apply StronglySorted_cons in Hs as [Hs _]. rewrite Forall_forall in Hs. specialize (Hs m Hm).
  assert (n ∈ m :: h) as Hn by (rewrite Hp; set_solver).
  pose proof (heap_front gt h m n Hh Hn). congruence.
Qed.

End Heap.

(** ** An ordered buffer is a FIFO queue *)

Section Fifo.
Context {A : Type} `{HeapLaws (Message.t A)}.
Implicit Types (b : t A) (m : Message.t A) (now : Z) (c : Consumer.t).

(** [ms] are the messages of the ordered buffer [b], oldest first. *)
Definition queued b (ms : list (Message.t A)) : Prop :=
  is_heap gt (m_prio_heap (queue b)) ∧ m_prio_heap (queue b) ≡ₚ ms ∧
  StronglySorted (λ x y, gt y x = true) ms ∧
  Forall (λ m, m_LastEnqueueTime m ≤ m_last_arrival_time (ord b) ∧
               Message.m_msg_counter m ≤ m_msg_counter (ord b)) ms ∧
  m_last_message_strict_fifo_bypassed (ord b) = false ∧
  0 ≤ m_msg_counter (ord b).

(** The buffer is ordered, without random delays, and connected. *)
Definition ordered b : Prop :=
  m_strict_fifo (cfg b) = true ∧ m_randomization (cfg b) = disabled ∧
  m_consumer (wires b) = true ∧ 0 ≤ m_max_size (cfg b) ∧ 0 ≤ m_stall_map_size (queue b).

(** Room for one more message. *)
Definition room b : Prop :=
  m_max_size (cfg b) = 0 ∨
  zlen (m_prio_heap (queue b)) + 1 + m_stall_map_size (queue b) ≤ m_max_size (cfg b) < 2 ^ 32.

Definition can_enqueue now c b m (delta : Z) : Prop :=
  (delta ≠ 0 ∨ m_allow_zero_latency (cfg b) = true) ∧ 0 ≤ delta ∧
  now + delta + 2 * Clocked.clockPeriod (Consumer.em c) < 2 ^ 64 ∧
  m_last_arrival_time (ord b) ≤ now + delta ∧ m_LastEnqueueTime m ≤ now ∧
  m_msg_counter (ord b) < 2 ^ 64 - 1 ∧ room b.

Lemma enqueue_fifo now c draws b m delta ms :
  ordered b → queued b ms → armed now c → can_enqueue now c b m delta →
  ∃ b' c' m', enqueue now c draws b m now delta false false false = Ok (b', c') ∧
    queued b' (ms ++ [m']) ∧ ordered b' ∧ cfg b' = cfg b ∧ armed now c' ∧
    Clocked.clockPeriod (Consumer.em c') = Clocked.clockPeriod (Consumer.em c) ∧
    payload m' = payload m ∧ m_LastEnqueueTime m' = now + delta.
Proof.
  intros (Hs & Hr & Hcon & Hmax & Hst) (Hh & Hp & Hso & Hall & Hby & Hcnt) Harm
    (Hd & Hd0 & Hov & Hlast & Hlet & Hc & Hroom).
  assert (0 ≤ now) by (destruct Harm as [(_ & ? & _) _]; done).
  assert (0 < Clocked.clockPeriod (Consumer.em c)) by (destruct Harm as [((? & _) & _) _]; done).
  unfold enqueue, arrival, updateDelayedTicks, count_enqueue. cbn [cfg ord with_ord with_cyc].
  rewrite Hr, Hs, Hby. cbn [rbind].
  assert (negb ((delta =? 0) && negb (m_allow_zero_latency (cfg b))) = true) as ->.
  { destruct (Z.eqb_spec delta 0), Hd as [?| ->]; done. }
  rewrite (u64_small (now + delta)) by lia. cbn [require rbind m_last_arrival_time
    m_last_message_strict_fifo_bypassed m_msg_counter].
  rewrite (proj2 (Z.leb_le now (now + delta))), (proj2 (Z.ltb_ge (now + delta) _)) by lia.
  cbn [require rbind andb orb negb]. rewrite !(proj2 (Z.leb_le _ now)) by done. cbn [require rbind].
  rewrite (u64_small (m_msg_counter (ord b) + 1)) by lia.
  set (m' := setMsgCounter _ _).
  destruct (push_heap_spec (m_prio_heap (queue b)) m' Hh) as [Hh' Hp'].
  match goal with |- context [(?x =? 0) || ?y] => assert ((x =? 0) || y = true) as -> end.
  { destruct Hroom as [->|[Hroom ?]]; [done|]. apply orb_true_iff. right. simpl.
    rewrite Hp'. simpl. rewrite u64_small by lia. apply Z.leb_le. lia. }
  simpl. rewrite Hcon. cbn [require rbind].
  destruct (request_spec now (now + delta) c) as (c' & -> & Harm' & Hper & _);
    [apply Harm|lia|lia|]. cbn [rbind].
  eexists _, c', m'. split; [done|]. split; [|split_and!; done].
  split_and!; simpl; [done| | | |done|lia].
  - by rewrite Hp', Hp, Permutation_app_comm.
  - apply StronglySorted_app_2; [|done|repeat constructor].
    intros x y Hx ->%list_elem_of_singleton. rewrite Forall_forall in Hall.
    destruct (Hall x Hx) as [Hx1 Hx2]. unfold gt, m', getLastEnqueueTime, getMsgCounter. simpl.
    destruct (Z.eqb_spec (now + delta) (m_LastEnqueueTime x)); apply Z.ltb_lt; lia.
  - apply Forall_app. split; [|constructor; [simpl; lia|constructor]].
    eapply Forall_impl; [done|]. simpl. lia.
Qed.

(** The first message is due and the rate of this cycle is not used up. *)
Definition can_dequeue now b : Prop :=
  (∃ m h, m_prio_heap (queue b) = m :: h ∧ m_LastEnqueueTime m ≤ now) ∧
  m_time_last_time_pop (cyc b) ≤ now ∧
  (m_max_dequeue_rate (cfg b) = 0 ∨ m_time_last_time_pop (cyc b) < now ∨
   m_dequeues_this_cy (cyc b) < m_max_dequeue_rate (cfg b)).

Lemma isReady_ready now c b :
  can_dequeue now b → isReady now c b now = Ok (true, c).
Proof.
  intros ((m & h & E & Hm) & Ht & Hr). unfold isReady. rewrite (proj2 (Z.leb_le _ _)), E by done.
  cbn [require rbind]. unfold getLastEnqueueTime. rewrite (proj2 (Z.leb_le _ now)) by done.
  match goal with |- context [(?x =? 0) || ?y || ?z] => assert ((x =? 0) || y || z = true) as -> end.
  { destruct Hr as [->|[?|?]]; [done|apply orb_true_iff; left; apply orb_true_iff; right
      |apply orb_true_iff; right]; by apply Z.ltb_lt. }
  done.
Qed.

Lemma dequeue_fifo now c b ms :
  queued b ms → can_dequeue now b →
  ∃ m m' rest cb b', ms = m :: rest ∧ dequeue now c b now true = Ok (m', cb, b', c) ∧
    payload m' = payload m ∧ m_LastEnqueueTime m ≤ now ∧ queued b' rest ∧ cfg b' = cfg b ∧
    wires b' = wires b ∧ m_stall_map_size (queue b') = m_stall_map_size (queue b).
Proof.
  intros (Hh & Hp & Hso & Hall & Hby & Hc) Hcan. unfold dequeue.
  rewrite isReady_ready by done. cbn [require rbind].
  destruct Hcan as ((m & h & E & Hm) & _). unfold front. rewrite E in Hh, Hp |- *.
  destruct ms as [|n ms]; [by apply Permutation_nil_r in Hp|].
  destruct (front_head h m ms n Hh Hp Hso) as [-> Hp']. simpl. cbn [rbind of_option].
  unfold updateDelayedTicks. rewrite (proj2 (Z.leb_le _ now)) by done. cbn [require rbind].
  destruct (pop_message_spec h n Hh) as [Hh2 Hp2].
  do 5 eexists. split; [done|]. split; [done|]. split_and!; try done. simpl. rewrite E.
  split_and!; simpl; try done.
  - by rewrite Hp2.
  - by apply StronglySorted_cons in Hso as [_ ?].
  - by apply Forall_cons in Hall as [_ ?].
Qed.

(** A run of an ordered buffer and its consumer: messages are enqueued and
    dequeued, time passes, and the consumer's event runs when it is due. *)
Inductive fifo_op := Enq (m : Message.t A) (delta : Z) | Deq | Wait (t : Z) | Wake.

(** One step: the state after it, the payloads put in and the payloads taken. *)
Definition fifo_step now b c (o : fifo_op) : res (Z * t A * Consumer.t * list A * list A) :=
  match o with
  | Enq m delta =>
      let* (b, c) := enqueue now c (0, 0, 0) b m now delta false false false in
      Ok (now, b, c, [payload m], [])
  | Deq => let* (m, _, b, c) := dequeue now c b now true in Ok (now, b, c, [], [payload m])
  | Wait t => Ok (t, b, c, [], [])
  | Wake => let* c := Consumer.processCurrentEvent now Ok c in Ok (now, b, c, [], [])
  end.

Definition fifo_legal now b c (o : fifo_op) : Prop :=
  match o with
  | Enq m delta => can_enqueue now c b m delta
  | Deq => can_dequeue now b
  | Wait t => legal now c (Advance t)
  | Wake => legal now c (Fire [])
  end.

Fixpoint fifo_run now b c (os : list fifo_op) : res (Z * t A * Consumer.t * list A * list A) :=
  match os with
  | [] => Ok (now, b, c, [], [])
  | o :: os =>
      let* (now, b, c, i, u) := fifo_step now b c o in
      let* (now, b, c, ins, outs) := fifo_run now b c os in
      Ok (now, b, c, i ++ ins, u ++ outs)
  end.

Fixpoint fifo_legal_run now b c (os : list fifo_op) : Prop :=
  match os with
  | [] => True
  | o :: os => fifo_legal now b c o ∧ ∀ now' b' c' i u,
      fifo_step now b c o = Ok (now', b', c', i, u) → fifo_legal_run now' b' c' os
  end.

(** The same, as a decision procedure. *)
Definition can_enqueueb now c b m (delta : Z) : bool :=
  (negb (delta =? 0) || m_allow_zero_latency (cfg b)) && (0 <=? delta) &&
  (now + delta + 2 * Clocked.clockPeriod (Consumer.em c) <? 2 ^ 64) &&
  (m_last_arrival_time (ord b) <=? now + delta) && (m_LastEnqueueTime m <=? now) &&
  (m_msg_counter (ord b) <? 2 ^ 64 - 1) &&
  ((m_max_size (cfg b) =? 0) ||
   ((zlen (m_prio_heap (queue b)) + 1 + m_stall_map_size (queue b) <=? m_max_size (cfg b)) &&
    (m_max_size (cfg b) <? 2 ^ 32))).

Definition can_dequeueb now b : bool :=
  match m_prio_heap (queue b) with [] => false | m :: _ => m_LastEnqueueTime m <=? now end &&
  (m_time_last_time_pop (cyc b) <=? now) &&
  ((m_max_dequeue_rate (cfg b) =? 0) || (m_time_last_time_pop (cyc b) <? now) ||
   (m_dequeues_this_cy (cyc b) <? m_max_dequeue_rate (cfg b))).

Definition fifo_legalb now b c (o : fifo_op) : bool :=
  match o with
  | Enq m delta => can_enqueueb now c b m delta
  | Deq => can_dequeueb now b
  | Wait t => legalb now c (Advance t)
  | Wake => legalb now c (Fire [])
  end.

Fixpoint fifo_legal_runb now b c (os : list fifo_op) : bool :=
  match os with
  | [] => true
  | o :: os => fifo_legalb now b c o &&
      match fifo_step now b c o with
      | Ok (now', b', c', _, _) => fifo_legal_runb now' b' c' os
      | Err _ => true
      end
  end.

Lemma fifo_legalb_sound now b c o : fifo_legalb now b c o = true → fifo_legal now b c o.
Proof.
  destruct o; cbn [fifo_legalb fifo_legal]; [| |by apply wakeup_legalb_sound..].
  - unfold can_enqueueb, can_enqueue, room. intros E. reflect_bool.
    rewrite !orb_true_iff in *. split_and!; try done.
    + match goal with H : negb _ = true ∨ _ |- _ => destruct H; reflect_bool; auto end.
    + match goal with H : (_ =? 0) = true ∨ _ |- _ => destruct H; reflect_bool; auto end.
  - unfold can_dequeueb, can_dequeue. intros E. reflect_bool. rewrite !orb_true_iff in *.
    split_and!; [|done|].
    + destruct (m_prio_heap (queue b)) as [|m h]; [done|]. reflect_bool. eauto.
    + match goal with H : (_ ∨ _) ∨ _ |- _ => destruct H as [[H|H]|H]; reflect_bool; auto end.
Qed.

Lemma fifo_legal_runb_sound os now b c :
  fifo_legal_runb now b c os = true → fifo_legal_run now b c os.
Proof.
  revert now b c. induction os as [|o os IH]; intros now b c E; [done|].
  cbn [fifo_legal_runb] in E. reflect_bool. split; [by apply fifo_legalb_sound|].
  intros now' b' c' i u Es. rewrite Es in *. by apply IH.
Qed.

Lemma fifo_step_spec now b c o ms :
  ordered b → queued b ms → armed now c → fifo_legal now b c o →
  ∃ now' b' c' i u ms', fifo_step now b c o = Ok (now', b', c', i, u) ∧
    ordered b' ∧ queued b' ms' ∧ armed now' c' ∧
    (payload <$> ms) ++ i = u ++ (payload <$> ms').
Proof.
  intros Hb Hq Hc. destruct o as [m delta| |t|]; cbn [fifo_step fifo_legal]; intros Hl.
  - destruct (enqueue_fifo now c (0, 0, 0) b m delta ms) as (b' & c' & m' & -> & Hq' & ? & _ & ? & _ & Hpl & _);
      [done..|]. cbn [rbind]. do 6 eexists. split_and!; [done..|].
    rewrite fmap_app. simpl. by rewrite Hpl.
  - destruct (dequeue_fifo now c b ms) as (m & m' & rest & cb & b' & -> & -> & Hpl & _ & Hq' & Hcf & Hw & Hst);
      [done..|]. cbn [rbind]. do 6 eexists. split_and!; [done| |done|done|].
    + destruct Hb as (? & ? & ? & ? & ?). unfold ordered. rewrite Hcf, Hw, Hst. by split_and!.
    + simpl. rewrite app_nil_r. by rewrite Hpl.
  - destruct (step_spec now c (Advance t) Hc Hl) as (n & c' & sv & [= <- <- <-] & Hc' & _).
    do 6 eexists. split_and!; [done..|]. by rewrite app_nil_r.
  - destruct (fire_spec now [] c Hc Hl) as (c' & E & Hc' & _). cbn [Clocking.requests] in E.
    change (λ x : Consumer.t, Ok x) with (@Ok Consumer.t) in E. rewrite E. cbn [rbind].
    do 6 eexists. split_and!; [done..|]. by rewrite app_nil_r.
Qed.

Lemma fifo_run_spec os now b c ms :
  ordered b → queued b ms → armed now c → fifo_legal_run now b c os →
  ∃ now' b' c' ins outs ms', fifo_run now b c os = Ok (now', b', c', ins, outs) ∧
    queued b' ms' ∧ (payload <$> ms) ++ ins = outs ++ (payload <$> ms').
Proof.
  revert now b c ms. induction os as [|o os IH]; intros now b c ms Hb Hq Hc Hl; simpl.
  { do 6 eexists. split_and!; [done|done|]. by rewrite app_nil_r. }
  destruct Hl as [Ho Hl].
  destruct (fifo_step_spec now b c o ms) as (n1 & b1 & c1 & i & u & ms1 & E & ? & ? & ? & Heq);
    [done..|]. rewrite E. cbn [rbind].
  destruct (IH n1 b1 c1 ms1) as (n2 & b2 & c2 & ins & outs & ms2 & -> & ? & Heq2);
    [done..|by eapply Hl|]. cbn [rbind]. do 6 eexists. split_and!; [done|done|].
  by rewrite app_assoc, Heq, <- !app_assoc, Heq2.
Qed.

(** C11. An ordered message buffer is a FIFO queue. From a new buffer connected to
    a new consumer, every legal run of enqueues (each with any latency that keeps
    the arrival times in order), dequeues of due messages and passing time
    completes without an assertion failing, and the messages taken out are the
    first ones put in, in order: what was put in is what was taken out followed
    by what is still in the buffer. *)
Theorem ordered_buffer_is_fifo (g : Config) (period : Z) (b : t A) (os : list fifo_op)
    (Hg : m_strict_fifo g = true ∧ m_randomization g = disabled ∧ 0 ≤ m_max_size g)
    (Hp : 0 < period) (Hov : 2 * period < 2 ^ 64) (Hb : setConsumer (new g) = Ok b)
    (Hl : fifo_legal_run 0 b (Consumer.new (Clocked.new period)) os) :
  ∃ now b' c ins outs ms,
    fifo_run 0 b (Consumer.new (Clocked.new period)) os = Ok (now, b', c, ins, outs) ∧
    m_prio_heap (queue b') ≡ₚ ms ∧ ins = outs ++ (payload <$> ms).
Proof.
  destruct Hg as (Hs & Hr & Hm). injection Hb as <-.
  destruct (fifo_run_spec os 0 (with_wires (new g) (mkWiring true None 0 0 0))
    (Consumer.new (Clocked.new period)) []) as (n & b' & c & ins & outs & ms & E & Hq & Heq).
  - done.
  - split_and!; simpl; try done; try apply is_heap_nil; constructor.
  - by apply armed_new.
  - done.
  - do 6 eexists. split_and!; [done|apply Hq|done].
Qed.

End Fifo.

(** ** All operations: conservation and accounting *)

Section Accounting.
Context {A : Type} `{HeapLaws (Message.t A)}.
Implicit Types (b : t A) (m : Message.t A) (now cur : Z) (c : Consumer.t) (k : Z).

(** The stalled messages, in any order. *)
Definition stalled (s : gmap Z (list (Message.t A))) : list (Message.t A) :=
  concat (map_to_list s).*2.

Lemma stalled_empty : stalled ∅ = [].
Proof. unfold stalled. by rewrite map_to_list_empty. Qed.

Lemma stalled_insert s addr lt : s !! addr = None → stalled (<[addr := lt]> s) ≡ₚ lt ++ stalled s.
Proof. intros Hs. unfold stalled. by rewrite map_to_list_insert by done. Qed.

Lemma stalled_delete s addr lt : s !! addr = Some lt → stalled s ≡ₚ lt ++ stalled (delete addr s).
Proof.
  intros Hs. rewrite <- stalled_insert by apply lookup_delete_eq. by rewrite insert_delete_id.
Qed.

Lemma stalled_append s addr m :
  stalled (<[addr := default [] (s !! addr) ++ [m]]> s) ≡ₚ m :: stalled s.
Proof.
  destruct (s !! addr) as [lt|] eqn:E; simpl.
  - rewrite (stalled_delete s addr lt E), <- insert_delete_eq.
    rewrite stalled_insert by apply lookup_delete_eq. solve_Permutation.
  - by rewrite stalled_insert.
Qed.

(** Everything in the buffer. *)
Definition contents b : list A :=
  payload <$> (m_prio_heap (queue b) ++ stalled (m_stall_msg_map (queue b))).

Definition total b : Z := zlen (m_prio_heap (queue b)) + m_stall_map_size (queue b).

(** After [k] operations, the last at time [cur]. *)
Record buffer_inv k cur b : Prop := {
  inv_heap : is_heap gt (m_prio_heap (queue b));
  inv_stall : m_stall_map_size (queue b) = zlen (stalled (m_stall_msg_map (queue b)));
  inv_size : total b ≤ k < 2 ^ 30;
  inv_times : m_time_last_time_pop (cyc b) ≤ cur ∧ m_time_last_time_enqueue (cyc b) ≤ cur;
  inv_msgs : 0 ≤ m_msgs_this_cycle (cyc b) ≤ k;
  inv_start : 0 ≤ m_size_at_cycle_start (cyc b) ∧ 0 ≤ m_stalled_at_cycle_start (cyc b) ∧
    m_size_at_cycle_start (cyc b) + m_stalled_at_cycle_start (cyc b) ≤ k;
  inv_account : m_time_last_time_enqueue (cyc b) ≤ m_time_last_time_pop (cyc b) →
    total b ≤ m_size_at_cycle_start (cyc b) + m_stalled_at_cycle_start (cyc b) +
      (if m_time_last_time_enqueue (cyc b) =? m_time_last_time_pop (cyc b)
       then m_msgs_this_cycle (cyc b) else 0);
}.

Lemma inv_weaken k k' cur cur' b :
  buffer_inv k cur b → k ≤ k' < 2 ^ 30 → cur ≤ cur' → buffer_inv k' cur' b.
Proof. intros [] ? ?. split; try done; lia. Qed.

(** Replacing the messages by as many or fewer. *)
Lemma inv_with_queue k cur b q :
  buffer_inv k cur b → is_heap gt (m_prio_heap q) →
  m_stall_map_size q = zlen (stalled (m_stall_msg_map q)) →
  zlen (m_prio_heap q) + m_stall_map_size q ≤ total b → buffer_inv k cur (with_queue b q).
Proof.
  intros [? ? ? ? ? ? Ha] ? ? Hle. split; unfold total in *; simpl in *; try done; [lia|].
  intros Hp. specialize (Ha Hp). lia.
Qed.

Lemma inv_with_stats k cur b s : buffer_inv k cur b → buffer_inv k cur (with_stats b s).
Proof. by intros []. Qed.

Lemma inv_with_ord k cur b o : buffer_inv k cur b → buffer_inv k cur (with_ord b o).
Proof. by intros []. Qed.

(** The invariant looks at the messages and the cycle only. *)
Lemma inv_cong k cur b b' :
  buffer_inv k cur b → queue b' = queue b → cyc b' = cyc b → buffer_inv k cur b'.
Proof. intros [] Hq Hy. split; unfold total in *; rewrite ?Hq, ?Hy; done. Qed.

Lemma inv_stall_nonneg k cur b : buffer_inv k cur b → 0 ≤ m_stall_map_size (queue b).
Proof. intros []. lia. Qed.

Lemma count_pop_inv k cur cur' b :
  buffer_inv k cur b → cur ≤ cur' → m_time_last_time_pop (cyc b) ≤ cur' →
  buffer_inv k cur' (count_pop b cur') ∧ queue (count_pop b cur') = queue b.
Proof.
  intros Hb Hle Ht. pose proof (inv_stall_nonneg _ _ _ Hb). destruct Hb as [? ? ? [? ?] ? [? ?] Ha].
  unfold total in *. split; [|done].
  unfold count_pop. destruct (Z.ltb_spec (m_time_last_time_pop (cyc b)) cur'); split;
    unfold total; simpl; try done; try lia.
  - rewrite !u32_small; lia.
  - intros _. rewrite !u32_small by lia. destruct (Z.eqb_spec (m_time_last_time_enqueue (cyc b)) cur'); lia.
Qed.

(** One more message: counted, and pushed into a heap. *)
Lemma enqueue_count_inv k cur cur' b o h :
  buffer_inv k cur b → cur ≤ cur' → k + 1 < 2 ^ 30 → is_heap gt h →
  zlen h = zlen (m_prio_heap (queue b)) + 1 →
  buffer_inv (k + 1) cur' (with_queue (with_ord (count_enqueue b cur') o) (set_heap (queue b) h)).
Proof.
  intros Hb Hle Hk Hh Hl. pose proof (inv_stall_nonneg _ _ _ Hb).
  destruct Hb as [? ? ? [? ?] ? [? ?] Ha]. unfold total in *.
  unfold count_enqueue. split; unfold total; simpl; try done; try lia.
  - destruct (Z.ltb_spec (m_time_last_time_enqueue (cyc b)) cur'); split; lia.
  - destruct (Z.ltb_spec (m_time_last_time_enqueue (cyc b)) cur'); rewrite u32_small; lia.
  - destruct (Z.ltb_spec (m_time_last_time_enqueue (cyc b)) cur') as [Hlt|Hge];
      rewrite u32_small by lia; intros Hp.
    + assert (m_time_last_time_pop (cyc b) = cur') as Epop by lia.
      specialize (Ha ltac:(lia)). rewrite (proj2 (Z.eqb_neq _ _)) in Ha by lia.
      rewrite (proj2 (Z.eqb_eq _ _)) by lia. lia.
    + specialize (Ha Hp). case_match; reflect_bool; [lia|]. lia.
Qed.

(** *** The operations one by one *)

Lemma updateDelayedTicks_payload m t m' : updateDelayedTicks m t = Ok m' →
  payload m' = payload m ∧ m_LastEnqueueTime m' = m_LastEnqueueTime m ∧
  Message.m_msg_counter m' = Message.m_msg_counter m.
Proof. unfold updateDelayedTicks. intros E. inv_res. done. Qed.

Lemma enqueue_inv k now c draws b m cur cur' delta r w bp b' c' :
  buffer_inv k cur b → cur ≤ cur' → k + 1 < 2 ^ 30 →
  enqueue now c draws b m cur' delta r w bp = Ok (b', c') →
  buffer_inv (k + 1) cur' b' ∧ contents b' ≡ₚ payload m :: contents b.
Proof.
  intros Hb Hle Hk E. unfold enqueue in E. inv_run.
  match goal with Hu : updateDelayedTicks m cur' = Ok ?m1 |- _ =>
    apply updateDelayedTicks_payload in Hu as (Hpl & _ & _);
    set (m2 := setMsgCounter (setLastEnqueueTime m1 _) _) in *;
    assert (payload m2 = payload m) as Hpl2 by done end.
  destruct (push_heap_spec (m_prio_heap (queue b)) m2 (inv_heap _ _ _ Hb)) as [Hh Hp].
  split.
  - apply inv_with_stats. apply (enqueue_count_inv k cur cur' b); [done..|]. rewrite Hp. simpl. lia.
  - unfold contents. simpl. rewrite Hp. simpl. by rewrite Hpl.
Qed.

Lemma front_Ok b m : front b = Ok m → ∃ h, m_prio_heap (queue b) = m :: h.
Proof.
  unfold front. intros E%of_option_Ok. destruct (m_prio_heap (queue b)); [done|].
  injection E as <-. eauto.
Qed.

(** Taking the first message off the heap. *)
Lemma pop_inv k cur b m h :
  buffer_inv k cur b → m_prio_heap (queue b) = m :: h →
  let b' := with_queue b (set_heap (queue b) (pop_message (m_prio_heap (queue b)))) in
  buffer_inv k cur b' ∧ contents b ≡ₚ payload m :: contents b' ∧ total b' = total b - 1.
Proof.
  intros Hb E. simpl. destruct (pop_message_spec h m) as [Hh Hp].
  { rewrite <- E. apply Hb. }
  rewrite E. assert (zlen (pop_message (m :: h)) = zlen h) as Hl by (by rewrite Hp).
  split_and!.
  - apply inv_with_queue; simpl; [done|done|apply Hb|]. unfold total. rewrite E. simpl. lia.
  - unfold contents. simpl. rewrite E, Hp. done.
  - unfold total. simpl. rewrite E. simpl. lia.
Qed.

Lemma isReady_time now c b cur r c' :
  isReady now c b cur = Ok (r, c') → m_time_last_time_pop (cyc b) ≤ cur.
Proof. unfold isReady. intros E. inv_res. by reflect_bool. Qed.

Lemma dequeue_shape now c b cur d m' cb b' c' :
  dequeue now c b cur d = Ok (m', cb, b', c') →
  ∃ m h s, m_prio_heap (queue b) = m :: h ∧ payload m' = payload m ∧
    m_time_last_time_pop (cyc b) ≤ cur ∧
    b' = with_stats (with_queue (count_pop b cur) (set_heap (queue b) (pop_message (m :: h)))) s.
Proof.
  unfold dequeue. intros E. inv_run.
  match goal with Hr : isReady _ _ _ _ = _ |- _ => apply isReady_time in Hr as Ht end.
  match goal with Hf : front b = Ok _ |- _ => apply front_Ok in Hf as [h Hh] end.
  match goal with Hu : updateDelayedTicks _ _ = _ |- _ =>
    apply updateDelayedTicks_payload in Hu as (Hpl & _) end.
  destruct d; [do 2 eexists; eexists|eexists _, h, (stats b)];
    (split; [done|]; split; [done|]; split; [done|]); simpl; rewrite Hh; reflexivity.
Qed.

Lemma dequeue_inv k now c b cur cur' d m cb b' c' :
  buffer_inv k cur b → cur ≤ cur' → dequeue now c b cur' d = Ok (m, cb, b', c') →
  buffer_inv k cur' b' ∧ contents b ≡ₚ payload m :: contents b'.
Proof.
  intros Hb Hle (m0 & h & s & Hh & -> & Ht & ->)%dequeue_shape.
  destruct (count_pop_inv k cur cur' b Hb Hle Ht) as [Hb1 Hq1].
  destruct (pop_inv k cur' (count_pop b cur') m0 h Hb1) as (Hb2 & Hc2 & _); [by rewrite Hq1|].
  rewrite Hq1, Hh in *. split; [by apply inv_with_stats|exact Hc2].
Qed.

Lemma stall_inv k now c b addr cur cur' b' c' :
  buffer_inv k cur b → cur ≤ cur' → stallMessage now c b addr cur' = Ok (b', c') →
  buffer_inv k cur' b' ∧ contents b' ≡ₚ contents b.
Proof.
  intros Hb Hle E. unfold stallMessage in E. inv_run.
  match goal with Hd : dequeue _ _ _ _ _ = Ok _ |- _ =>
    apply dequeue_shape in Hd as (m0 & h & s & Hh & Hpl & Ht & ->) end.
  destruct (count_pop_inv k cur cur' b Hb Hle Ht) as [Hb1 Hq1].
  pose proof (inv_size _ _ _ Hb). pose proof (inv_stall_nonneg _ _ _ Hb).
  pose proof (inv_stall _ _ _ Hb) as Hst.
  destruct (pop_message_spec h m0) as [Hh' Hp']; [rewrite <- Hh; apply Hb|].
  simpl. unfold total in *. rewrite i32_small by lia. split.
  - eapply inv_cong; [eapply (inv_with_queue k cur' (count_pop b cur')); [done| | |]|reflexivity|done].
    + done.
    + simpl. rewrite stalled_append. simpl. lia.
    + unfold total. simpl. rewrite Hh, Hp'. simpl. lia.
  - unfold contents. simpl. rewrite stalled_append, Hh, Hp', !fmap_app. simpl.
    rewrite Hpl. by rewrite Permutation_middle.
Qed.

Lemma reanalyzeList_spec now c b lt tick b' c' :
  is_heap gt (m_prio_heap (queue b)) → reanalyzeList now c b lt tick = Ok (b', c') →
  ∃ h, b' = with_queue b (set_heap (queue b) h) ∧ is_heap gt h ∧
       h ≡ₚ lt ++ m_prio_heap (queue b).
Proof.
  revert b c. induction lt as [|m lt IH]; intros b c Hh E; simpl in E.
  { injection E as <- <-. exists (m_prio_heap (queue b)). by destruct b as [? [] ? ? ? ?]. }
  inv_res. destruct (push_heap_spec (m_prio_heap (queue b)) m Hh) as [Hh1 Hp1].
  apply IH in E as (h & -> & Hh' & Hp'); [|done]. simpl in *.
  exists h. split; [done|]. split; [done|]. rewrite Hp', Hp1. by rewrite Permutation_middle.
Qed.

Lemma reanalyze_inv k now c b addr cur cur' b' c' :
  buffer_inv k cur b → cur ≤ cur' → reanalyzeMessages now c b addr cur' = Ok (b', c') →
  buffer_inv k cur' b' ∧ contents b' ≡ₚ contents b.
Proof.
  intros Hb Hle E. unfold reanalyzeMessages in E.
  destruct (m_stall_msg_map (queue b) !! addr) as [lt|] eqn:El; [|done]. inv_run.
  match goal with Hr : reanalyzeList _ _ _ _ _ = _ |- _ =>
    apply reanalyzeList_spec in Hr as (h & -> & Hh & Hp); [|apply Hb] end. simpl in *.
  pose proof (inv_stall _ _ _ Hb) as Hst. pose proof (inv_size _ _ _ Hb).
  pose proof (stalled_delete _ _ _ El) as Hsd. unfold total in *.
  assert (zlen (stalled (m_stall_msg_map (queue b))) =
    zlen lt + zlen (stalled (delete addr (m_stall_msg_map (queue b))))) as Hlen
    by (rewrite Hsd, length_app; lia).
  rewrite i32_small by lia. split.
  - apply (inv_weaken k k cur); [|lia|done].
    apply (inv_with_queue k cur b); [done|done|simpl; lia|].
    unfold total. simpl. rewrite Hp, length_app. lia.
  - unfold contents. simpl. rewrite Hp, Hsd, !fmap_app. solve_Permutation.
Qed.

(** The messages stalled for some addresses, in the order of the addresses. *)
Definition moved (s : gmap Z (list (Message.t A))) (addrs : list Z) : list (Message.t A) :=
  concat ((λ a, default [] (s !! a)) <$> addrs).

Lemma moved_cons s a addrs : moved s (a :: addrs) = default [] (s !! a) ++ moved s addrs.
Proof. done. Qed.

Lemma keys_stalled (s : gmap Z (list (Message.t A))) : moved s (keys s) ≡ₚ stalled s.
Proof.
  unfold moved.
  pose proof (keys_Permutation s) as Hk.
  rewrite Hk. unfold stalled. rewrite <- list_fmap_compose.
  rewrite (list_fmap_ext _ snd); [done|]. intros i [a lt] Hi. apply list_elem_of_lookup_2, elem_of_map_to_list in Hi.
  simpl. by rewrite Hi.
Qed.

Lemma reanalyze_each_spec now c b addrs cur b' c' :
  is_heap gt (m_prio_heap (queue b)) →
  zlen (moved (m_stall_msg_map (queue b)) addrs) ≤ m_stall_map_size (queue b) < 2 ^ 31 →
  reanalyze_each now c b addrs cur = Ok (b', c') →
  ∃ h, b' = with_queue b (mkQueue h (m_stall_msg_map (queue b)) (m_deferred_msg_map (queue b))
       (m_stall_map_size (queue b) - zlen (moved (m_stall_msg_map (queue b)) addrs))) ∧
       is_heap gt h ∧ h ≡ₚ moved (m_stall_msg_map (queue b)) addrs ++ m_prio_heap (queue b).
Proof.
  revert b c. induction addrs as [|a addrs IH]; intros b c Hh Hlen E.
  { injection E as <- <-. exists (m_prio_heap (queue b)). rewrite Z.sub_0_r.
    by destruct b as [? [] ? ? ? ?]. }
  rewrite moved_cons, length_app in Hlen |- *. cbn [reanalyze_each] in E.
  set (lt := default [] (m_stall_msg_map (queue b) !! a)) in *. inv_run.
  match goal with Hr : reanalyzeList _ _ _ _ _ = _ |- _ =>
    apply reanalyzeList_spec in Hr as (h1 & -> & Hh1 & Hp1); [|done] end.
  cbn [queue with_queue set_stalled m_stall_map_size m_prio_heap] in Hp1.
  rewrite i32_small in E by lia.
  apply IH in E as (h & -> & Hh' & Hp'); [|done|cbn; lia].
  exists h. split_and!; [|done|].
  - unfold with_queue. cbn. do 2 f_equal. lia.
  - rewrite Hp'. cbn. rewrite Hp1. solve_Permutation.
Qed.

Lemma reanalyze_all_inv k now c b cur cur' b' c' :
  buffer_inv k cur b → cur ≤ cur' → reanalyzeAllMessages now c b cur' = Ok (b', c') →
  buffer_inv k cur' b' ∧ contents b' ≡ₚ contents b.
Proof.
  intros Hb Hle E. unfold reanalyzeAllMessages in E. inv_run.
  pose proof (inv_stall _ _ _ Hb) as Hst. pose proof (inv_size _ _ _ Hb) as Hsz.
  pose proof (keys_stalled (m_stall_msg_map (queue b))) as Hks. unfold total in Hsz.
  match goal with Hr : reanalyze_each _ _ _ _ _ = _ |- _ =>
    apply reanalyze_each_spec in Hr as (h & -> & Hh & Hp); [|apply Hb|rewrite Hks; lia] end.
  simpl in *. rewrite Hks in Hp. rewrite Hks, Hst, Z.sub_diag. split.
  - apply (inv_weaken k k cur); [|lia|done].
    eapply inv_cong; [eapply (inv_with_queue k cur b); [done| | |]|reflexivity|done]; simpl.
    + done.
    + by rewrite stalled_empty.
    + unfold total. rewrite Hp, length_app. lia.
  - unfold contents. simpl. rewrite Hp, stalled_empty, app_nil_r. by rewrite Permutation_app_comm.
Qed.

Lemma recycle_inv k now c b cur cur' latency b' c' :
  buffer_inv k cur b → cur ≤ cur' → recycle now c b cur' latency = Ok (b', c') →
  buffer_inv k cur' b' ∧ contents b' ≡ₚ contents b.
Proof.
  intros Hb Hle E. unfold recycle in E. inv_run.
  match goal with Hf : front b = Ok ?m |- _ => apply front_Ok in Hf as [h Hh]; rename m into m0 end.
  destruct (pop_message_spec h m0) as [Hh1 Hp1]; [rewrite <- Hh; apply Hb|].
  match goal with |- context [push_heap gt (_ ++ [?n])] =>
    destruct (push_heap_spec (pop_message (m0 :: h)) n Hh1) as [Hh2 Hp2] end.
  rewrite Hh. pose proof (inv_size _ _ _ Hb). split.
  - apply (inv_weaken k k cur); [|lia|done]. apply inv_with_queue; simpl; [done|done|apply Hb|].
    unfold total. rewrite Hp2, Hh. simpl. rewrite Hp1. lia.
  - unfold contents. simpl. rewrite Hp2, Hp1, Hh. done.
Qed.

Lemma delay_inv k now c draws b cur cur' delta r w b' c' :
  buffer_inv k cur b → cur ≤ cur' → k + 1 < 2 ^ 30 →
  delayHead now c draws b cur' delta r w = Ok (b', c') →
  buffer_inv (k + 1) cur' b' ∧ contents b' ≡ₚ contents b.
Proof.
  intros Hb Hle Hk E. unfold delayHead in E. inv_run.
  match goal with Hf : front b = Ok ?m |- _ => apply front_Ok in Hf as [h Hh]; rename m into m0 end.
  destruct (pop_inv k cur b m0 h Hb Hh) as (Hb1 & Hc1 & _).
  apply (enqueue_inv k _ _ _ _ _ cur) in E as [? Hc]; [|done..]. split; [done|].
  by rewrite Hc, Hc1.
Qed.

(** *** Runs of all operations *)

Inductive buffer_op :=
| OEnqueue (m : Message.t A) (delta : Z) (random warmup bypass : bool) (draws : Z * Z * Z)
| ODequeue | OStall (addr : Z) | OReanalyze (addr : Z) | OReanalyzeAll | ORecycle (latency : Z)
| ODelayHead (delta : Z) (random warmup : bool) (draws : Z * Z * Z).

(** The state after an operation at the tick [now], for the time [cur] of the
    caller, and the payloads it put in and took out. *)
Definition buffer_step now cur b c (o : buffer_op) : res (t A * Consumer.t * list A * list A) :=
  match o with
  | OEnqueue m delta random warmup bypass draws =>
      let* (b, c) := enqueue now c draws b m cur delta random warmup bypass in
      Ok (b, c, [payload m], [])
  | ODequeue => let* (m, _, b, c) := dequeue now c b cur true in Ok (b, c, [], [payload m])
  | OStall addr => let* (b, c) := stallMessage now c b addr cur in Ok (b, c, [], [])
  | OReanalyze addr => let* (b, c) := reanalyzeMessages now c b addr cur in Ok (b, c, [], [])
  | OReanalyzeAll => let* (b, c) := reanalyzeAllMessages now c b cur in Ok (b, c, [], [])
  | ORecycle latency => let* (b, c) := recycle now c b cur latency in Ok (b, c, [], [])
  | ODelayHead delta random warmup draws =>
      let* (b, c) := delayHead now c draws b cur delta random warmup in Ok (b, c, [], [])
  end.

Lemma buffer_step_inv k now cur cur' b c o b' c' i u :
  buffer_inv k cur b → cur ≤ cur' → k + 1 < 2 ^ 30 →
  buffer_step now cur' b c o = Ok (b', c', i, u) →
  buffer_inv (k + 1) cur' b' ∧ contents b ++ i ≡ₚ u ++ contents b'.
Proof.
  intros Hb Hle Hk E. pose proof (inv_msgs _ _ _ Hb).
  assert (∀ b1, buffer_inv k cur' b1 → buffer_inv (k + 1) cur' b1) as Hw.
  { intros b1 Hb1. apply (inv_weaken k _ cur'); [done|lia|lia]. }
  destruct o; cbn [buffer_step] in E; inv_run; rewrite ?app_nil_r; simpl.
  - match goal with Hr : enqueue _ _ _ _ _ _ _ _ _ _ = _ |- _ =>
      apply (enqueue_inv k _ _ _ _ _ cur) in Hr as [? ->]; [|done..] end.
    split; [done|]. by rewrite Permutation_app_comm.
  - match goal with Hr : dequeue _ _ _ _ _ = _ |- _ =>
      apply (dequeue_inv k _ _ _ cur) in Hr as [? ->]; [|done..] end. auto.
  - match goal with Hr : stallMessage _ _ _ _ _ = _ |- _ =>
      apply (stall_inv k _ _ _ _ cur) in Hr as [? ->]; [|done..] end. auto.
  - match goal with Hr : reanalyzeMessages _ _ _ _ _ = _ |- _ =>
      apply (reanalyze_inv k _ _ _ _ cur) in Hr as [? ->]; [|done..] end. auto.
  - match goal with Hr : reanalyzeAllMessages _ _ _ _ = _ |- _ =>
      apply (reanalyze_all_inv k _ _ _ cur) in Hr as [? ->]; [|done..] end. auto.
  - match goal with Hr : recycle _ _ _ _ _ = _ |- _ =>
      apply (recycle_inv k _ _ _ cur) in Hr as [? ->]; [|done..] end. auto.
  - match goal with Hr : delayHead _ _ _ _ _ _ _ _ = _ |- _ =>
      apply (delay_inv k _ _ _ _ cur) in Hr as [? ->]; [|done..] end. auto.
Qed.

(** A run: each operation with the current tick and the time of its caller. *)
Fixpoint buffer_run b c (tr : list (Z * Z * buffer_op)) : res (t A * Consumer.t * list A * list A) :=
  match tr with
  | [] => Ok (b, c, [], [])
  | (now, cur, o) :: tr =>
      let* (b, c, i, u) := buffer_step now cur b c o in
      let* (b, c, ins, outs) := buffer_run b c tr in
      Ok (b, c, i ++ ins, u ++ outs)
  end.

(** The callers' times do not decrease, from [cur] on, and end by [fin]. *)
Fixpoint times_between cur (tr : list (Z * Z * buffer_op)) (fin : Z) : Prop :=
  match tr with
  | [] => cur ≤ fin
  | (_, t, _) :: tr => cur ≤ t ∧ times_between t tr fin
  end.

Lemma buffer_run_inv tr k cur fin b c b' c' ins outs :
  buffer_inv k cur b → times_between cur tr fin → k + Z.of_nat (length tr) < 2 ^ 30 →
  buffer_run b c tr = Ok (b', c', ins, outs) →
  (∃ k', buffer_inv k' fin b') ∧ contents b ++ ins ≡ₚ outs ++ contents b'.
Proof.
  revert k cur b c ins outs. induction tr as [|[[now t] o] tr IH]; intros k cur b c ins outs Hb Ht Hk E.
  { injection E as <- <- <- <-. rewrite app_nil_r. split; [|done]. exists k.
    apply (inv_weaken k k cur); [done| |done]. simpl in Hk. pose proof (inv_size _ _ _ Hb). lia. }
  destruct Ht as [Hle Ht]. cbn [buffer_run length] in *. inv_run.
  match goal with Hs : buffer_step _ _ _ _ _ = _ |- _ =>
    apply (buffer_step_inv k _ cur) in Hs as [Hb1 Hc1]; [|done|done|lia] end.
  match goal with Hs : buffer_run _ _ _ = _ |- _ =>
    apply (IH (k + 1) t) in Hs as [? Hc2]; [|done|done|lia] end.
  split; [done|]. by rewrite app_assoc, Hc1, <- !app_assoc, Hc2.
Qed.

Lemma buffer_inv_new g b : setConsumer (new g) = Ok b → buffer_inv 0 0 b ∧ contents b = [].
Proof.
  intros [= <-]. split; [|done]. split; simpl; try done.
Qed.


Lemma u32_sum x y n : 0 ≤ x → 0 ≤ y → 0 ≤ n → x + y + n < 2 ^ 32 → u32 (u32 (x + y) + n) = x + y + n.
Proof. intros. rewrite (u32_small (x + y)), u32_small; lia. Qed.

Lemma slots_total k cur b n b' :
  buffer_inv k cur b → 0 ≤ n < 2 ^ 30 → areNSlotsAvailable b n cur = (true, b') →
  m_max_size (cfg b) = 0 ∨ total b + n ≤ m_max_size (cfg b).
Proof.
  intros Hb Hn. pose proof (inv_stall_nonneg _ _ _ Hb). destruct Hb as [_ _ Hs [? ?] ? (? & ? & ?) Ha].
  unfold areNSlotsAvailable, total in *. destruct (Z.eqb_spec (m_max_size (cfg b)) 0); [auto|].
  intros E. right. destruct (Z.ltb_spec (m_time_last_time_pop (cyc b)) cur).
  - rewrite (u32_small (zlen _)), (u32_small (m_stall_map_size _)), u32_sum in E by lia.
    case_match; [|done]. reflect_bool. lia.
  - specialize (Ha ltac:(lia)).
    destruct (Z.ltb_spec (m_time_last_time_enqueue (cyc b)) cur).
    + rewrite (proj2 (Z.eqb_neq _ _)) in Ha by lia.
      rewrite u32_sum in E by lia. case_match; [|done]. reflect_bool. lia.
    + rewrite (proj2 (Z.eqb_eq _ _)) in Ha by lia.
      rewrite (u32_small (m_size_at_cycle_start _ + m_msgs_this_cycle _)), u32_sum in E by lia.
      case_match; [|done]. reflect_bool. lia.
Qed.

(** The slots a buffer announces are there. Whatever operations were run
    before, when [areNSlotsAvailable] says at the current time that [n] slots are
    available, the messages in the heap and the stalled ones leave room for [n]
    more, although it counts with the sizes of the start of the cycle when
    messages were popped in it; so none of the next [n] enqueues fails the
    capacity assertion. *)
Theorem announced_slots_exist (g : Config) b c tr fin b' c' ins outs n b''
    (Hb : setConsumer (new g) = Ok b) (Hlen : Z.of_nat (length tr) < 2 ^ 30)
    (Ht : times_between 0 tr fin) (E : buffer_run b c tr = Ok (b', c', ins, outs))
    (Hn : 0 ≤ n < 2 ^ 30) (Hs : areNSlotsAvailable b' n fin = (true, b'')) :
  m_max_size (cfg b') = 0 ∨
  zlen (m_prio_heap (queue b')) + zlen (stalled (m_stall_msg_map (queue b'))) + n
    ≤ m_max_size (cfg b').
Proof.
  destruct (buffer_inv_new g b Hb) as [Hi _].
  destruct (buffer_run_inv tr 0 0 fin b c b' c' ins outs) as [[k Hk] _]; [done..|].
  rewrite <- (inv_stall _ _ _ Hk). by eapply slots_total.
Qed.

End Accounting.

(** ** The theorems at work *)

Section Examples.

Definition small_buffer : Config := mkConfig 4 0 true disabled false 0.
Definition message (p : nat) : Message.t nat := Message.new 0 0 p.
Definition connected : t nat := with_wires (new small_buffer) (mkWiring true None 0 0 0).
Definition half_ns : Consumer.t := Consumer.new (Clocked.new 500).

Lemma ordered_buffer_is_fifo_witness :
  ∃ now b' c ins outs ms,
    fifo_run 0 connected half_ns
      [Enq (message 7) 500; Enq (message 8) 500; Wait 500; Wake; Deq; Enq (message 9) 1000; Deq]
    = Ok (now, b', c, ins, outs) ∧
    m_prio_heap (queue b') ≡ₚ ms ∧ ins = outs ++ (payload <$> ms).
Proof.
  apply (ordered_buffer_is_fifo small_buffer 500); [done|lia|lia|done|].
  apply fifo_legal_runb_sound. by vm_compute.
Defined.

(** Two messages, the first one stalled and reanalyzed. *)
Definition stall_trace : list (Z * Z * buffer_op (A := nat)) :=
  [(0, 0, OEnqueue (message 7) 500 false false false (0, 0, 0));
   (0, 0, OEnqueue (message 8) 500 false false false (0, 0, 0));
   (500, 500, OStall 64); (500, 500, ODequeue); (500, 500, OReanalyze 64)].


Lemma announced_slots_exist_witness :
  ∃ b' c', buffer_run connected half_ns stall_trace = Ok (b', c', [7; 8]%nat, [8]%nat) ∧
    (m_max_size (cfg b') = 0 ∨
     zlen (m_prio_heap (queue b')) + zlen (stalled (m_stall_msg_map (queue b'))) + 2
       ≤ m_max_size (cfg b')).
Proof.
  eexists _, _. split; [by vm_compute|].
  eapply (announced_slots_exist small_buffer connected half_ns stall_trace 500);
    [done|done|by repeat split|by vm_compute|done|by vm_compute].
Defined.

(** A functional read with a mask reports a miss when two messages of the buffer
    have data for it, although both were read into the packet. *)
Lemma masked_read_of_two_messages :
  ∃ b c, buffer_run connected half_ns (take 2 stall_trace) = Ok (b, c, [7; 8]%nat, []) ∧
    functionalRead_buffer (λ (a : nat) (p : list nat), (true, a :: p))
      (λ a p k, (true, (a :: p, k))) (λ a _, (true, a)) b [] (Some ())
    = (false, [8; 7]%nat, Some ()).
Proof. eexists _, _. split; by vm_compute. Qed.

(** [clear] empties the heap and forgets the counters, but the stalled messages
    stay. *)
Lemma clear_keeps_stalled :
  ∃ b c, buffer_run connected half_ns (take 3 stall_trace) = Ok (b, c, [7; 8]%nat, []) ∧
    contents b = [8; 7]%nat ∧ contents (clear b) = [7]%nat.
Proof. eexists _, _. split_and!; by vm_compute. Qed.

End Examples.
