(* ===== verification/Routing.v ===== *)
(** The routing of the simple network: the message buffers and consumers that its
    parts reach by pointers, what a network message offers, and
    network/simple/routing/WeightBased, which chooses the links of a message. *)

From stdpp Require Import prelude list gmap sorting.
From Stdlib Require Import ZArith Lia.
From S2P Require Import Prelude Replacement NetDest Heap Clocking MessageBuffer.

Open Scope Z_scope.

(** ** [std::sort] *)

(** [comp a b] means that [a] comes first. *)
Class SortOps A := sort : (A → A → bool) → list A → list A.

(** What the standard guarantees for a strict weak order: the elements, in an order
    in which none comes before one it follows. *)
Class SortLaws A `{SortOps A} :=
  sort_law comp : WeakOrder comp → ∀ l, sort comp l ≡ₚ l ∧ StronglySorted (λ x y, comp y x = false) (sort comp l).

(** An implementation. *)
Definition in_order {A} (comp : A → A → bool) (x y : A) : Prop := comp y x = false.

#[export] Instance in_order_dec {A} comp : RelDecision (in_order (A := A) comp) :=
  λ x y, decide (comp y x = false).

#[export] Instance merge_SortOps A : SortOps A := λ comp, merge_sort (in_order comp).

#[export] Instance merge_SortLaws A : SortLaws A.
Proof.
  intros comp Hc l. split; [apply merge_sort_Permutation|].
  assert (Transitive (in_order comp)) by (intros x y z ? ?; unfold in_order in *; eapply comp_trans; eauto).
  assert (Total (in_order comp)).
  { intros x y. unfold in_order. destruct (comp y x) eqn:E; [right; by apply comp_asym|by left]. }
  apply (StronglySorted_merge_sort (in_order comp)).
Qed.

(** ** Message buffers and consumers reached by pointers *)

Module Store.
Section Store.
Context {A : Type} `{HeapOps (Message.t A)}.

(** [m_consumer] of a buffer is in [consumer_of]. The vectors that the consumers
    which override [storeEventInfo] count in are in [pending]. [rng] are the outputs
    of the generator of [random_time] to come. *)
Record t := mk {
  buffers : gmap nat (MessageBuffer.t A); consumer_of : gmap nat nat;
  consumers : gmap nat Consumer.t; pending : gmap nat (list Z); rng : nat → Z * Z * Z }.
Implicit Types (st : t) (p : option nat) (a k : nat) (now cur : Z).

Definition deref st p : res (nat * MessageBuffer.t A) :=
  let* a := of_option EUndef p in let* b := of_option EUndef (buffers st !! a) in Ok (a, b).

Definition put st a (b : MessageBuffer.t A) : t :=
  mk (<[a := b]> (buffers st)) (consumer_of st) (consumers st) (pending st) (rng st).
Definition put_consumer st k (c : Consumer.t) : t :=
  mk (buffers st) (consumer_of st) (<[k := c]> (consumers st)) (pending st) (rng st).
Definition put_pending st k (l : list Z) : t :=
  mk (buffers st) (consumer_of st) (consumers st) (<[k := l]> (pending st)) (rng st).
Definition drawn st : t :=
  mk (buffers st) (consumer_of st) (consumers st) (pending st) (λ i, rng st (S i)).

(** The consumer of a buffer; one that nothing uses if it has none. *)
Definition consumer st a : Consumer.t :=
  default (Consumer.new (Clocked.new 1)) (k ← consumer_of st !! a; consumers st !! k).
Definition woken st a (c : Consumer.t) : t :=
  match consumer_of st !! a with Some k => put_consumer st k c | None => st end.

Definition setConsumer st p k : res t :=
  let* (a, b) := deref st p in
  let* b := MessageBuffer.setConsumer b in
  Ok (mk (<[a := b]> (buffers st)) (<[a := k]> (consumer_of st)) (consumers st) (pending st) (rng st)).

(** [m_consumer->storeEventInfo(m_vnet_id)]: [PerfectSwitch] counts, the others do
    nothing. *)
Definition storeEventInfo st a (info : Z) : res t :=
  match consumer_of st !! a with
  | Some k =>
      match pending st !! k with
      | Some l => let* n := vget l info in
                  let* n := chk_i32 (n + 1) in
                  let* l := vset l info n in Ok (put_pending st k l)
      | None => Ok st
      end
  | None => Ok st
  end.

Definition isReady now st p cur : res (bool * t) :=
  let* (a, b) := deref st p in
  let* (r, c) := MessageBuffer.isReady now (consumer st a) b cur in
  Ok (r, woken st a c).

Definition peekMsgPtr st p : res (Message.t A) :=
  let* (_, b) := deref st p in MessageBuffer.peek b.

Definition readyTime st p : res Z := let* (_, b) := deref st p in Ok (MessageBuffer.readyTime b).

Definition getSize st p cur : res (Z * t) :=
  let* (a, b) := deref st p in let '(n, b) := MessageBuffer.getSize b cur in Ok (n, put st a b).

Definition areNSlotsAvailable st p (n cur : Z) : res (bool * t) :=
  let* (a, b) := deref st p in
  let '(r, b) := MessageBuffer.areNSlotsAvailable b n cur in Ok (r, put st a b).

Definition enqueue now st p (m : Message.t A) cur (delta : Z) (ruby_is_random ruby_warmup : bool) : res t :=
  let* (a, b) := deref st p in
  let* (b, c) := MessageBuffer.enqueue now (consumer st a) (rng st 0%nat) b m cur delta
                   ruby_is_random ruby_warmup false in
  let st := woken (drawn (put st a b)) a c in
  storeEventInfo st a (MessageBuffer.m_vnet_id (MessageBuffer.wires b)).

(** The message is the object that was at the front, as [dequeue] leaves it. *)
Definition dequeue now st p cur : res (Message.t A * t) :=
  let* (a, b) := deref st p in
  let* (m, _, b, c) := MessageBuffer.dequeue now (consumer st a) b cur true in
  Ok (m, woken (put st a b) a c).

(** The operations on the stalled messages of a buffer. *)
Definition stallMessage now st p (addr cur : Z) : res t :=
  let* (a, b) := deref st p in
  let* (b, c) := MessageBuffer.stallMessage now (consumer st a) b addr cur in
  Ok (woken (put st a b) a c).

Definition reanalyzeMessages now st p (addr cur : Z) : res t :=
  let* (a, b) := deref st p in
  let* (b, c) := MessageBuffer.reanalyzeMessages now (consumer st a) b addr cur in
  Ok (woken (put st a b) a c).

Definition reanalyzeAllMessages now st p (cur : Z) : res t :=
  let* (a, b) := deref st p in
  let* (b, c) := MessageBuffer.reanalyzeAllMessages now (consumer st a) b cur in
  Ok (woken (put st a b) a c).

(** [scheduleEvent] of a consumer. *)
Definition scheduleEvent now st k (timeDelta : Z) : res t :=
  let* c := of_option EUndef (consumers st !! k) in
  let* c := Consumer.scheduleEvent now timeDelta c in Ok (put_consumer st k c).

(** [clockEdge()] of the object a consumer belongs to. *)
Definition clockEdge now st k : res (Z * t) :=
  let* c := of_option EUndef (consumers st !! k) in
  let* (edge, e) := Clocked.clockEdge now 0 (Consumer.em c) in
  Ok (edge, put_consumer st k (Consumer.mk (Consumer.m_wakeup_ticks c) (Consumer.m_wakeup_event c) e)).

End Store.
Arguments t A : clear implicits.
End Store.

(** ** What a network message offers *)

(** The enumeration of protocol/RubySlicc_Exports.sm. *)
Inductive MessageSizeType :=
  | Control | Data | Request_Control | Reissue_Control | Response_Data | ResponseL2hit_Data
  | ResponseLocal_Data | Response_Control | Writeback_Data | Writeback_Control | Broadcast_Control
  | Multicast_Control | Forwarded_Control | Invalidate_Control | Unblock_Control
  | Persistent_Control | Completion_Control.

#[export] Instance MessageSizeType_eq_dec : EqDecision MessageSizeType.
Proof. solve_decision. Defined.

(** The virtual functions of a protocol's message classes: [getDestination()], by
    which the set is read and assigned, and [getMessageSize()]. *)
Class NetMessage (R A : Type) := {
  getDestination : A → NetDest.t R;
  setDestination : NetDest.t R → A → A;
  getMessageSize : A → MessageSizeType }.

(** ** network/simple/routing/WeightBased *)

Module WeightBased.
Section WeightBased.
Context (NUMBER_BITS_PER_SET : Z) {R A : Type} `{MachineTypes R} `{NetMessage R A}.
Context `{HeapOps (Message.t A)}.

Record LinkInfo := mkInfo {
  m_link_id : Z; m_routing_entry : NetDest.t R; m_out_buffers : list (option nat);
  m_order : Z; m_weight : Z }.
Context `{SortOps LinkInfo}.

Record RouteInfo := mkRoute { m_destinations : NetDest.t R; r_link_id : Z }.

(** [gens] are the outputs of [rng] to come. *)
Record t := mk { m_links : list LinkInfo; adaptive_routing : bool; gens : nat → Z }.
Implicit Types (u : t) (st : Store.t A) (l : LinkInfo).

(** Comparison of the tuples [(m_order, m_weight, m_link_id)]. *)
Definition tup_lt l l' : bool :=
  (m_order l <? m_order l') ||
  ((m_order l =? m_order l') &&
   ((m_weight l <? m_weight l') ||
    ((m_weight l =? m_weight l') && (m_link_id l <? m_link_id l')))).

Definition sortLinks u : t := mk (sort tup_lt (m_links u)) (adaptive_routing u) (gens u).

Definition addOutPort u (link_id : Z) (m_out_buffer : list (option nat))
    (routing_table_entry : NetDest.t R) (link_weight : Z) : res t :=
  let* _ := require (link_id =? zlen (m_links u)) EPanic in
  Ok (sortLinks (mk (m_links u ++ [mkInfo link_id routing_table_entry m_out_buffer 0 link_weight])
                    (adaptive_routing u) (gens u))).

Definition with_order l (order : Z) : LinkInfo :=
  mkInfo (m_link_id l) (m_routing_entry l) (m_out_buffers l) order (m_weight l).

(** The sum of the sizes of the buffers of a link, in an [int]. *)
Fixpoint out_queue_length st (bs : list (option nat)) (current_time sum : Z) : res (Z * Store.t A) :=
  match bs with
  | [] => Ok (sum, st)
  | b :: bs =>
      let* (n, st) := Store.getSize st b current_time in
      out_queue_length st bs current_time (i32 (u32 (sum + n)))
  end.

(** How clogged each link is. *)
Fixpoint order_links st (gens : nat → Z) (ls : list LinkInfo) (current_time : Z)
    : res (list LinkInfo * Store.t A * (nat → Z)) :=
  match ls with
  | [] => Ok ([], st, gens)
  | l :: ls =>
      let* (n, st) := out_queue_length st (m_out_buffers l) current_time 0 in
      let* r := random_range (gens 0%nat) 0 0xff in
      let* _ := require (0 <=? n) EUndef in
      let* n := chk_i32 (n * 2 ^ 8) in
      let* (ls, st, gens) := order_links st (λ i, gens (S i)) ls current_time in
      Ok (with_order l (Z.lor n r) :: ls, st, gens)
  end.

(** The loop of [findRoute] over the links, with the destinations still to be
    handled, and the check after it. *)
Fixpoint find_links (msg_dsts : NetDest.t R) (ls : list LinkInfo) : res (list RouteInfo) :=
  match ls with
  | [] => let* n := NetDest.count NUMBER_BITS_PER_SET msg_dsts in
          let* _ := require (n =? 0) EPanic in Ok []
  | l :: ls =>
      let dst := m_routing_entry l in
      let* b := NetDest.intersectionIsNotEmpty msg_dsts dst in
      if b : bool then
        let* d := NetDest.AND NUMBER_BITS_PER_SET msg_dsts dst in
        let* msg_dsts := NetDest.removeNetDest msg_dsts dst in
        let* out_links := find_links msg_dsts ls in
        Ok (mkRoute d (m_link_id l) :: out_links)
      else find_links msg_dsts ls
  end.

Definition findRoute u (msg : Message.t A) (out_links : list RouteInfo) : res (list RouteInfo) :=
  assert! zlen out_links =? 0 in
  let* routes := find_links (getDestination (Message.payload msg)) (m_links u) in
  Ok (out_links ++ routes).

(** [current_time] is [m_parent_switch->clockEdge()]. *)
Definition route (current_time : Z) st u (msg : Message.t A) (deterministic : bool)
    (out_links : list RouteInfo) : res (list RouteInfo * t * Store.t A) :=
  let* (u, st) :=
    (if adaptive_routing u then
       let* (ls, st, gens) :=
         (if deterministic then Ok ((λ l, with_order l 0) <$> m_links u, st, gens u)
          else order_links st (gens u) (m_links u) current_time) in
       Ok (sortLinks (mk ls (adaptive_routing u) gens), st)
     else Ok (u, st)) in
  let* out_links := findRoute u msg out_links in
  Ok (out_links, u, st).

End WeightBased.
Arguments LinkInfo R : clear implicits.
Arguments RouteInfo R : clear implicits.
Arguments t R : clear implicits.
End WeightBased.
