(* ===== verification/NetExample.v ===== *)
(** A small network: two machines of different types behind one switch. *)

From stdpp Require Import prelude list gmap.
From Stdlib Require Import ZArith Lia.
From S2P Require Import Prelude NetDest NetDestSpec Heap Clocking MessageBuffer Routing.

Open Scope Z_scope.

Module Tiny.

#[export] Instance types : MachineTypes unit := {
  MachineType_NUM := 2;
  MachineType_base_level ty := ty;
  MachineType_from_base_level i := Ok i;
  MachineType_base_count _ _ := 1;
  MachineType_base_number _ ty := ty }.

#[export] Instance types_laws : MachineLaws 64 ().
Proof. constructor; simpl; done || lia. Qed.

(** A set of machines, by a bit for each. *)
Definition dest (first second : bool) : NetDest.t unit :=
  NetDest.mk [Set_.mk 1 (Z.b2z first); Set_.mk 1 (Z.b2z second)] (Some ()).

Lemma dest_valid first second : valid () (dest first second).
Proof.
  split; [done|]. split; [done|]. intros [|[|i]] s; simpl; try done;
    intros [= <-]; apply set_ok_small; [done|destruct first; simpl; lia|done|destruct second; simpl; lia].
Qed.

(** A message is a destination and a number. *)
Definition payload : Type := NetDest.t unit * nat.
#[export] Instance messages : NetMessage unit payload := {
  getDestination := fst; setDestination d a := (d, snd a); getMessageSize _ := Request_Control }.

Definition both (n : nat) : Message.t payload := Message.new 0 0 (dest true true, n).

(** The links of the switch: one to the first machine, one to either. *)
Definition links : list (WeightBased.LinkInfo unit) :=
  [WeightBased.mkInfo 0 (dest true false) [Some 1%nat] 0 1;
   WeightBased.mkInfo 1 (dest true true) [Some 2%nat] 0 1].
Definition unit_ : WeightBased.t unit := WeightBased.mk links false (λ _, 0).

Definition config : MessageBuffer.Config := MessageBuffer.mkConfig 0 0 true MessageBuffer.disabled false 0.

(** A buffer with messages; its consumer is connected. *)
Definition holding (ms : list (Message.t payload)) : MessageBuffer.t payload :=
  MessageBuffer.mk config (MessageBuffer.mkQueue ms ∅ ∅ 0) (MessageBuffer.mkCycle 0 0 0 0 0 0 0 0)
    (MessageBuffer.mkOrder 0 0 false) (MessageBuffer.mkStats 0 0 0 0 0) (MessageBuffer.mkWiring true None 0 0 0).

Definition idle : Consumer.t := Consumer.new (Clocked.new 500).

(** A buffer with a message for the device 10, and two buffers behind it. *)
Definition store (pending : gmap nat (list Z)) : Store.t payload :=
  Store.mk (<[0%nat := holding [both 7]]> (<[1%nat := holding []]> {[2%nat := holding []]}))
    (<[0%nat := 10%nat]> (<[1%nat := 11%nat]> {[2%nat := 12%nat]}))
    (<[10%nat := idle]> (<[11%nat := idle]> {[12%nat := idle]})) pending (λ _, (0, 0, 0)).

End Tiny.
