(* ===== verification/RoutingSpec.v ===== *)
(** What the routing unit promises: every destination of a message is served by
    exactly one link, the first that leads to it in the order of the links. *)

From stdpp Require Import prelude list gmap sorting.
From Stdlib Require Import ZArith Lia.
From S2P Require Import Prelude Replacement NetDest NetDestSpec Heap Clocking MessageBuffer Routing NetExample.

Open Scope Z_scope.

(** ** The destinations of a message as sets *)

Section Sets.
Context (N : Z) {R : Type} `{MachineTypes R} (rs : R) `{!MachineLaws N rs}.
Implicit Types d e : NetDest.t R.

Lemma AND_members d e : valid rs d → valid rs e → yields N rs (NetDest.AND N d e) (members N d ∩ members N e).
Proof.
  intros Hd He. destruct (AND_bitwise N) as [F HF].
  destruct (combine_new_ok N rs _ F _ d e HF Hd He) as (d' & E & Hv & Hb).
  apply yields_bits; [done|]. exists d'. split; [done|]. split; [done|]. intros m.
  rewrite Hb, !(bit_members N rs) by done. apply eq_true_iff_eq. rewrite andb_true_iff, !bool_decide_eq_true. set_solver.
Qed.

Lemma removeNetDest_members d e : valid rs d → valid rs e →
  yields N rs (NetDest.removeNetDest d e) (members N d ∖ members N e).
Proof.
  intros Hd He. destruct (removeSet_bitwise N) as [F HF].
  destruct (combine_ok N rs _ F _ d e HF Hd He) as (d' & E & Hv & Hb).
  apply yields_bits; [done|]. exists d'. split; [done|]. split; [done|]. intros m.
  rewrite Hb, !(bit_members N rs) by done. apply eq_true_iff_eq.
  rewrite andb_true_iff, negb_true_iff, bool_decide_eq_true, bool_decide_eq_false, bool_decide_eq_true. set_solver.
Qed.

End Sets.

(** ** The loop over the links *)

Section Serve.
Import WeightBased.
Context (N : Z) {R : Type}.
Implicit Types (l : LinkInfo R) (ls : list (LinkInfo R)) (D X : gset MachineID.t) (x : MachineID.t).

(** The machines a link leads to. *)
Definition table l : gset MachineID.t := members N (m_routing_entry l).

(** The sets of machines, with the links they are sent to. *)
Fixpoint serve D ls : list (gset MachineID.t * Z) :=
  match ls with
  | [] => []
  | l :: ls =>
      if decide (D ∩ table l = ∅) then serve D ls
      else (D ∩ table l, m_link_id l) :: serve (D ∖ table l) ls
  end.

Definition covered D ls : Prop := ∀ x, x ∈ D → ∃ l, l ∈ ls ∧ x ∈ table l.

Lemma serve_in D ls X id : (X, id) ∈ serve D ls →
  X ≠ ∅ ∧ X ⊆ D ∧ ∃ l, l ∈ ls ∧ m_link_id l = id ∧ X ⊆ table l.
Proof.
  revert D. induction ls as [|l ls IH]; intros D; simpl; [set_solver|]. case_decide.
  - intros (? & ? & l' & ? & ? & ?)%IH. split; [done|]. split; [done|]. exists l'. set_solver.
  - intros [[= -> ->]|(? & ? & l' & ? & ? & ?)%IH]%elem_of_cons.
    + split; [done|]. split; [set_solver|]. exists l. set_solver.
    + split; [done|]. split; [set_solver|]. exists l'. set_solver.
Qed.

(** Every destination is served, by the first link that leads to it. *)
Lemma serve_first D ls x : x ∈ D → (∃ l, l ∈ ls ∧ x ∈ table l) →
  ∃ pre l post X, ls = pre ++ l :: post ∧ x ∈ table l ∧ (∀ l', l' ∈ pre → x ∉ table l') ∧
    (X, m_link_id l) ∈ serve D ls ∧ x ∈ X.
Proof.
  revert D. induction ls as [|l ls IH]; intros D Hx (l0 & Hl0 & Hx0); [set_solver|]. simpl.
  destruct (decide (x ∈ table l)) as [Hxl|Hxl].
  { exists [], l, ls, (D ∩ table l). rewrite decide_False by set_solver. set_solver. }
  assert (∃ l, l ∈ ls ∧ x ∈ table l) as Hex.
  { exists l0. apply elem_of_cons in Hl0 as [->|?]; done. }
  assert (∃ D', x ∈ D' ∧ serve D' ls ⊆ (if decide (D ∩ table l = ∅) then serve D ls
    else (D ∩ table l, m_link_id l) :: serve (D ∖ table l) ls)) as (D' & Hx' & Hsub).
  { case_decide; [by exists D|]. exists (D ∖ table l). set_solver. }
  destruct (IH D' Hx' Hex) as (pre & l1 & post & X & -> & ? & Hpre & ? & ?).
  exists (l :: pre), l1, post, X. split; [done|]. split; [done|]. split; [set_solver|]. set_solver.
Qed.

Lemma serve_disjoint D ls : ∀ i j s t, serve D ls !! i = Some s → serve D ls !! j = Some t → i ≠ j → s.1 ## t.1.
Proof.
  revert D. induction ls as [|l ls IH]; intros D i j s t; simpl; [done|]. case_decide; [by apply IH|].
  assert (∀ k u, serve (D ∖ table l) ls !! k = Some u → (D ∩ table l) ## u.1) as Hd.
  { intros k [u id] Hu. apply list_elem_of_lookup_2, serve_in in Hu as (_ & ? & _). set_solver. }
  destruct i as [|i], j as [|j]; simpl; intros Hs Ht Hne; simplify_eq/=; [by eapply Hd| |].
  - symmetry. by eapply Hd.
  - apply (IH (D ∖ table l) i j); [done|done|lia].
Qed.

Lemma serve_ids D ls : sublist (serve D ls).*2 (m_link_id <$> ls).
Proof.
  revert D. induction ls as [|l ls IH]; intros D; simpl; [constructor|]. case_decide; simpl; by constructor.
Qed.

(** Each destination is in one of the sets, and the sets have as many elements as
    there are destinations. *)
Lemma serve_once {B} D ls x (y : B) : (x ∈ D → ∃ l, l ∈ ls ∧ x ∈ table l) →
  concat ((λ s, if decide (x ∈ s.1) then [y] else []) <$> serve D ls) = if decide (x ∈ D) then [y] else [].
Proof.
  revert D. induction ls as [|l ls IH]; intros D Hc; simpl.
  { rewrite decide_False; [done|]. intros (? & ? & _)%Hc. set_solver. }
  assert (x ∈ D → x ∉ table l → ∃ l, l ∈ ls ∧ x ∈ table l) as Hrest.
  { intros Hx Hn. destruct (Hc Hx) as (l' & [->|?]%elem_of_cons & ?); eauto. done. }
  destruct (decide (D ∩ table l = ∅)) as [He|He].
  - apply IH. intros Hx. apply Hrest; [done|set_solver].
  - rewrite fmap_cons. simpl. rewrite IH by (intros ?; apply Hrest; set_solver).
    destruct (decide (x ∈ D)), (decide (x ∈ table l)).
    + rewrite decide_True, decide_False by set_solver. done.
    + rewrite decide_False, decide_True by set_solver. done.
    + rewrite !decide_False by set_solver. done.
    + rewrite !decide_False by set_solver. done.
Qed.

Lemma serve_size D ls : covered D ls → foldr (λ s n, Z.max 1 (Z.of_nat (size s.1)) + n) 0 (serve D ls) = Z.of_nat (size D).
Proof.
  revert D. induction ls as [|l ls IH]; intros D Hc; simpl.
  { destruct (decide (D = ∅)) as [->|[x Hx]%set_choose_L]; [done|]. destruct (Hc x Hx) as (? & ? & _). set_solver. }
  assert (covered (D ∖ table l) ls) as Hc'.
  { intros x [Hx Hn]%elem_of_difference. destruct (Hc x Hx) as (l' & [->|?]%elem_of_cons & ?); [done|eauto]. }
  destruct (decide (D ∩ table l = ∅)) as [He|He].
  - apply IH. replace D with (D ∖ table l) by set_solver. done.
  - simpl. rewrite IH by done. assert (size (D ∩ table l) ≠ 0%nat) by (intros E%size_empty_iff; set_solver).
    assert (size D = size (D ∩ table l) + size (D ∖ table l))%nat as ->; [|lia].
    rewrite <- size_union by set_solver. f_equal. apply set_eq. intros x. destruct (decide (x ∈ table l)); set_solver.
Qed.

End Serve.

Section Links.
Import WeightBased.
Context (N : Z) {R : Type} `{MachineTypes R} (rs : R) `{!MachineLaws N rs}.
Implicit Types (l : LinkInfo R) (ls : list (LinkInfo R)) (d : NetDest.t R).

Abbreviation table := (table N).
Abbreviation serve := (serve N).
Abbreviation covered := (covered N).

Definition serves (r : RouteInfo R) (s : gset MachineID.t * Z) : Prop :=
  valid rs (m_destinations r) ∧ members N (m_destinations r) = s.1 ∧ r_link_id r = s.2.

Lemma find_links_ok d ls : valid rs d → Forall (λ l, valid rs (m_routing_entry l)) ls →
  (covered (members N d) ls → ∃ routes, find_links N d ls = Ok routes ∧ Forall2 serves routes (serve (members N d) ls)) ∧
  (¬ covered (members N d) ls → find_links N d ls = Err EPanic).
Proof.
  intros Hd Hls. revert d Hd. induction Hls as [|l ls Hl Hls IH]; intros d Hd; simpl.
  { rewrite (count_ok N rs) by done. simpl. split.
    - intros Hc. replace (size (members N d)) with 0%nat; [by exists []|]. symmetry. apply size_empty_iff.
      intros x. split; [|set_solver]. intros Hx. destruct (Hc x Hx) as (l & Hl & _). set_solver.
    - intros Hc. destruct (Z.eqb_spec (Z.of_nat (size (members N d))) 0) as [E|E]; [|done]. destruct Hc.
      assert (size (members N d) = 0%nat) as E' by lia. apply size_empty_iff in E'. intros x Hx. set_solver. }
  destruct (intersection_ok N rs d (m_routing_entry l) Hd Hl) as (b & -> & Hb). simpl.
  fold (table l) in Hb. destruct b.
  - destruct (AND_members N rs d _ Hd Hl) as (d1 & -> & Hd1 & E1), (removeNetDest_members N rs d _ Hd Hl) as (d2 & -> & Hd2 & E2).
    simpl. fold (table l) in E1, E2. destruct (IH d2 Hd2) as [IHc IHn]. rewrite E2 in IHc, IHn.
    rewrite decide_False by (by apply Hb).
    assert (covered (members N d) (l :: ls) ↔ covered (members N d ∖ table l) ls) as Hcov.
    { split; intros Hc x Hx.
      - destruct (Hc x) as (l' & [->|?]%elem_of_cons & ?); set_solver.
      - destruct (decide (x ∈ table l)); [set_solver|]. destruct (Hc x) as (l' & ? & ?); set_solver. }
    rewrite Hcov. split; intros Hc.
    + destruct (IHc Hc) as (routes & -> & Hr). eexists. split; [done|]. constructor; [|done]. done.
    + by rewrite IHn.
  - assert (members N d ∩ table l = ∅) as He by (destruct (decide (members N d ∩ table l = ∅)); [done|by apply Hb in n]).
    rewrite decide_True by done. destruct (IH d Hd) as [IHc IHn].
    assert (covered (members N d) (l :: ls) ↔ covered (members N d) ls) as ->; [|by split].
    split; intros Hc x Hx; destruct (Hc x Hx) as (l' & Hl' & ?); set_solver.
Qed.

End Links.

(** ** The routing unit *)

Section Unit.
Import WeightBased.
Context (N : Z) {R A : Type} `{MachineTypes R} (rs : R) `{!MachineLaws N rs} `{NetMessage R A}.
Context `{HeapOps (Message.t A)} `{SortLaws (LinkInfo R)}.
Implicit Types (l : LinkInfo R) (u : t R) (st : Store.t A) (msg : Message.t A).

#[local] Instance tup_lt_order : WeakOrder (tup_lt (R := R)).
Proof.
  split.
  - intros l l'. unfold tup_lt. rewrite !orb_true_iff, orb_false_iff, !andb_true_iff, andb_false_iff, !orb_true_iff,
      orb_false_iff, !andb_true_iff, andb_false_iff, !Z.ltb_lt, !Z.ltb_ge, !Z.eqb_eq, !Z.eqb_neq. lia.
  - intros a b c. unfold tup_lt. rewrite !orb_false_iff, !andb_false_iff, !orb_false_iff, !andb_false_iff,
      !Z.ltb_ge, !Z.eqb_neq. lia.
Qed.

(** The links of a unit: one per identifier, with valid tables. *)
Definition links_wf (ls : list (LinkInfo R)) : Prop :=
  NoDup (m_link_id <$> ls) ∧ Forall (λ l, valid rs (m_routing_entry l)) ls.

(** A unit between two messages: its links are in order, and none is preferred
    unless routing is adaptive. *)
Definition unit_ok u : Prop :=
  links_wf (m_links u) ∧ StronglySorted (in_order tup_lt) (m_links u) ∧
  (adaptive_routing u = false → Forall (λ l, m_order l = 0) (m_links u)).

#[export] Instance links_wf_Permutation : Proper ((≡ₚ) ==> iff) links_wf.
Proof. intros ls ls' E. unfold links_wf. by rewrite E. Qed.

Lemma sortLinks_ok u : links_wf (m_links u) →
  (adaptive_routing u = false → Forall (λ l, m_order l = 0) (m_links u)) →
  unit_ok (sortLinks u) ∧ m_links (sortLinks u) ≡ₚ m_links u.
Proof.
  intros Hw Ho. destruct (sort_law tup_lt tup_lt_order (m_links u)) as [Hp Hs].
  split; [|done]. unfold unit_ok, sortLinks. simpl. split; [by rewrite Hp|]. split; [done|].
  intros Ha. rewrite Hp. by apply Ho.
Qed.

Lemma unit_ok_empty a gens : unit_ok (mk [] a gens).
Proof. split; [by split; constructor|]. split; constructor. Qed.

(** [addOutPort] adds a link under the next identifier. *)
Lemma addOutPort_ok u buffers e w : unit_ok u → valid rs e →
  Forall (λ l, m_link_id l < zlen (m_links u)) (m_links u) →
  ∃ u', addOutPort u (zlen (m_links u)) buffers e w = Ok u' ∧ unit_ok u' ∧
    m_links u' ≡ₚ mkInfo (zlen (m_links u)) e buffers 0 w :: m_links u ∧
    adaptive_routing u' = adaptive_routing u ∧ gens u' = gens u.
Proof.
  intros ((Hnd & Hv) & Hs & Ho) He Hid. unfold addOutPort. rewrite Z.eqb_refl. simpl. eexists. split; [done|].
  edestruct sortLinks_ok as [Hok Hp]; cycle 2.
  { split; [exact Hok|]. split; [|by split]. rewrite Hp. simpl. by rewrite Permutation_app_comm. }
  - simpl. rewrite Permutation_app_comm. simpl. split; [|by constructor]. simpl. constructor; [|done].
    intros (l & E & Hl)%list_elem_of_fmap. rewrite Forall_forall in Hid. apply Hid in Hl. lia.
  - simpl. intros Ha. rewrite Permutation_app_comm. simpl. constructor; [done|by apply Ho].
Qed.

(** The links of two units, but for their order. *)
Definition same_links u u' : Prop :=
  ((λ l, with_order l 0) <$> m_links u') ≡ₚ ((λ l, with_order l 0) <$> m_links u) ∧
  adaptive_routing u' = adaptive_routing u.

Lemma same_links_refl u : same_links u u.
Proof. by split. Qed.

Lemma same_links_trans u u1 u2 : same_links u u1 → same_links u1 u2 → same_links u u2.
Proof. intros [E1 ?] [E2 ?]. split; [by rewrite E2|congruence]. Qed.

(** A property of links that does not look at [m_order] holds of all links of both. *)
Lemma same_links_elem u u' (P : LinkInfo R → Prop) : same_links u u' → (∀ l o, P (with_order l o) ↔ P l) →
  (∃ l, l ∈ m_links u ∧ P l) ↔ ∃ l, l ∈ m_links u' ∧ P l.
Proof.
  intros [E _] HP.
  assert (∀ ls : list (LinkInfo R), (∃ l, l ∈ ls ∧ P l) ↔ ∃ l, l ∈ ((λ l, with_order l 0) <$> ls) ∧ P l) as Hf.
  { intros ls. split.
    - intros (l & ? & ?). exists (with_order l 0). split; [by apply (list_elem_of_fmap_2 (λ l, with_order l 0))|by apply HP].
    - intros (? & (l & -> & ?)%list_elem_of_fmap & ?). exists l. split; [done|]. by apply (HP l 0). }
  rewrite (Hf (m_links u)), (Hf (m_links u')). by setoid_rewrite E.
Qed.

Lemma same_links_wf u u' : same_links u u' → links_wf (m_links u) → links_wf (m_links u').
Proof.
  intros [E _]. assert (∀ ls : list (LinkInfo R), links_wf ls ↔ links_wf ((λ l, with_order l 0) <$> ls)) as Hf.
  { intros ls. unfold links_wf. rewrite <- list_fmap_compose, Forall_fmap. done. }
  by rewrite (Hf (m_links u)), (Hf (m_links u')), E.
Qed.

(** [getSize] only remembers the size it gives. *)
Definition size_checked (b b' : MessageBuffer.t A) : Prop :=
  ∃ time size, let y := MessageBuffer.cyc b in
    b' = MessageBuffer.with_cyc b (MessageBuffer.mkCycle (MessageBuffer.m_dequeues_this_cy y) time size
           (MessageBuffer.m_time_last_time_enqueue y) (MessageBuffer.m_time_last_time_pop y)
           (MessageBuffer.m_size_at_cycle_start y) (MessageBuffer.m_stalled_at_cycle_start y)
           (MessageBuffer.m_msgs_this_cycle y)).

Definition sizes_only st st' : Prop :=
  Store.consumer_of st' = Store.consumer_of st ∧ Store.consumers st' = Store.consumers st ∧
  Store.pending st' = Store.pending st ∧ Store.rng st' = Store.rng st ∧
  ∀ a, option_Forall2 size_checked (Store.buffers st !! a) (Store.buffers st' !! a).

Lemma size_checked_refl b : size_checked b b.
Proof. destruct b as [? ? [] ? ? ?]. eexists _, _. done. Qed.

Lemma size_checked_trans b b1 b2 : size_checked b b1 → size_checked b1 b2 → size_checked b b2.
Proof. intros (? & ? & ->) (? & ? & ->). eexists _, _. done. Qed.

Lemma sizes_only_refl st : sizes_only st st.
Proof. split_and!; try done. intros a. destruct (Store.buffers st !! a); constructor. apply size_checked_refl. Qed.

Lemma sizes_only_trans st st1 st2 : sizes_only st st1 → sizes_only st1 st2 → sizes_only st st2.
Proof.
  intros (? & ? & ? & ? & Hb) (? & ? & ? & ? & Hb'). split_and!; [congruence..|]. intros a.
  specialize (Hb a). specialize (Hb' a). destruct Hb as [b b1 Hb|]; inv Hb'; constructor. by eapply size_checked_trans.
Qed.

(** What a query at time [cur] says of a buffer; asking does not change it. *)
Definition queue_size (cur : Z) (b : MessageBuffer.t A) : Z := (MessageBuffer.getSize b cur).1.

Lemma getSize_spec st p a b cur : p = Some a → Store.buffers st !! a = Some b →
  ∃ st', Store.getSize st p cur = Ok (queue_size cur b, st') ∧ sizes_only st st' ∧
    ∀ a' b', Store.buffers st !! a' = Some b' →
      ∃ b'', Store.buffers st' !! a' = Some b'' ∧ queue_size cur b'' = queue_size cur b'.
Proof.
  intros -> Hb. unfold Store.getSize, Store.deref, queue_size. cbn [of_option rbind]. rewrite Hb. cbn [of_option rbind].
  destruct (MessageBuffer.getSize b cur) as [n b1] eqn:E. exists (Store.put st a b1). split; [done|].
  assert (size_checked b b1 ∧ (MessageBuffer.getSize b1 cur).1 = n) as [Hs Hn].
  { unfold MessageBuffer.getSize in *. destruct (Z.eqb_spec (MessageBuffer.m_time_last_time_size_checked (MessageBuffer.cyc b)) cur) as [Et|Et];
      injection E as <- <-; simpl.
    - rewrite (proj2 (Z.eqb_eq _ _) Et). split; [|done]. destruct b as [? ? [] ? ? ?]. by eexists _, _.
    - rewrite Z.eqb_refl. split; [|done]. by eexists _, _. }
  split; [split_and!; try done|]; cbn [Store.buffers Store.put]; intros a'.
  - destruct (decide (a = a')) as [<-|?]; [by rewrite lookup_insert_eq, Hb; constructor|].
    rewrite lookup_insert_ne by done. destruct (Store.buffers st !! a'); constructor. apply size_checked_refl.
  - intros b' Hb'. destruct (decide (a = a')) as [<-|?]; [|exists b'; by rewrite lookup_insert_ne].
    rewrite Hb in Hb'. injection Hb' as <-. exists b1. by rewrite lookup_insert_eq, Hn, E.
Qed.

(** The buffers of the links exist, and their sizes fit the computation. *)
Definition queues_fit (cur : Z) st (bs : list (option nat)) (most : Z) : Prop :=
  Forall (λ p, ∃ a b, p = Some a ∧ Store.buffers st !! a = Some b ∧ 0 ≤ queue_size cur b ≤ most) bs.

Lemma queues_fit_mono cur st st' bs most :
  (∀ a b, Store.buffers st !! a = Some b → ∃ b', Store.buffers st' !! a = Some b' ∧ queue_size cur b' = queue_size cur b) →
  queues_fit cur st bs most → queues_fit cur st' bs most.
Proof.
  intros Hm Hq. eapply Forall_impl; [exact Hq|]. intros p (a & b & -> & Hb & Hs). destruct (Hm a b Hb) as (b' & Hb' & E).
  exists a, b'. by rewrite E.
Qed.

Lemma out_queue_length_spec cur st bs most sum : queues_fit cur st bs most → 0 ≤ sum →
  sum + zlen bs * most < 2 ^ 31 →
  ∃ n st', out_queue_length st bs cur sum = Ok (n, st') ∧ 0 ≤ n ≤ sum + zlen bs * most ∧ sizes_only st st' ∧
    ∀ a b, Store.buffers st !! a = Some b → ∃ b', Store.buffers st' !! a = Some b' ∧ queue_size cur b' = queue_size cur b.
Proof.
  revert st sum. induction bs as [|p bs IH]; intros st sum Hq Hs Hlt; simpl.
  { exists sum, st. split; [done|]. split; [simpl; lia|]. split; [apply sizes_only_refl|eauto]. }
  apply Forall_cons in Hq as [(a & b & -> & Hb & Hsz) Hq]. simpl length in Hlt.
  destruct (getSize_spec st (Some a) a b cur eq_refl Hb) as (st1 & -> & Hs1 & Hm1). simpl.
  assert (0 ≤ zlen bs * most) by nia. rewrite u32_small, i32_small by lia.
  destruct (IH st1 (sum + queue_size cur b)) as (n & st2 & -> & Hn & Hs2 & Hm2); [by eapply queues_fit_mono|lia|lia|].
  exists n, st2. split; [done|]. split; [lia|]. split; [by eapply sizes_only_trans|].
  intros a' b' Hb'. destruct (Hm1 _ _ Hb') as (b1 & Hb1 & E1). destruct (Hm2 _ _ Hb1) as (b2 & Hb2 & E2).
  exists b2. split; [done|congruence].
Qed.

Lemma order_links_spec cur st gens ls most :
  Forall (λ l, queues_fit cur st (m_out_buffers l) most ∧ zlen (m_out_buffers l) * most < 2 ^ 23) ls →
  ∃ ls' st' gens', order_links st gens ls cur = Ok (ls', st', gens') ∧ sizes_only st st' ∧
    ((λ l, with_order l 0) <$> ls') = ((λ l, with_order l 0) <$> ls).
Proof.
  revert st gens. induction ls as [|l ls IH]; intros st gens Hq; simpl.
  { exists [], st, gens. split; [done|]. split; [apply sizes_only_refl|done]. }
  apply Forall_cons in Hq as [[Hl Hlt] Hq].
  destruct (out_queue_length_spec cur st (m_out_buffers l) most 0 Hl) as (n & st1 & -> & Hn & Hs1 & Hm1); [lia|lia|].
  simpl. unfold random_range. simpl. rewrite (proj2 (Z.leb_le 0 n)) by lia. simpl.
  rewrite chk_i32_Ok by lia. simpl.
  destruct (IH st1 (λ i, gens (S i))) as (ls' & st2 & gens' & -> & Hs2 & E).
  { eapply Forall_impl; [done|]. intros l' [? ?]. split; [by eapply queues_fit_mono|done]. }
  eexists _, st2, gens'. split; [done|]. split; [by eapply sizes_only_trans|]. by rewrite !fmap_cons, E.
Qed.

(** What adaptive routing needs to look at the queues. *)
Definition queues_ok (cur : Z) st u (deterministic : bool) : Prop :=
  adaptive_routing u = true → deterministic = false →
  ∃ most, Forall (λ l, queues_fit cur st (m_out_buffers l) most ∧ zlen (m_out_buffers l) * most < 2 ^ 23) (m_links u).

(** The links are put in order, ... *)
Lemma reorder_spec cur st u deterministic : unit_ok u → queues_ok cur st u deterministic →
  ∃ u' st', (if adaptive_routing u then
       let* (ls, st, gens) :=
         (if deterministic then Ok ((λ l, with_order l 0) <$> m_links u, st, gens u)
          else order_links st (gens u) (m_links u) cur) in
       Ok (sortLinks (mk ls (adaptive_routing u) gens), st)
     else Ok (u, st)) = Ok (u', st') ∧ unit_ok u' ∧ same_links u u' ∧ sizes_only st st' ∧
    (adaptive_routing u = false ∨ deterministic = true → Forall (λ l, m_order l = 0) (m_links u')).
Proof.
  intros Hu Hq. destruct (adaptive_routing u) eqn:Ea; cycle 1.
  { exists u, st. split; [done|]. split; [done|]. split; [apply same_links_refl|]. split; [apply sizes_only_refl|].
    intros _. by apply Hu. }
  assert (∃ ls st' gens', (if deterministic then Ok ((λ l, with_order l 0) <$> m_links u, st, gens u)
      else order_links st (gens u) (m_links u) cur) = Ok (ls, st', gens') ∧ sizes_only st st' ∧
    ((λ l, with_order l 0) <$> ls) = ((λ l, with_order l 0) <$> m_links u) ∧
    (deterministic = true → Forall (λ l, m_order l = 0) ls)) as (ls & st' & gens' & -> & Hs & El & Ho).
  { destruct deterministic.
    - eexists _, st, (gens u). split; [done|]. split; [apply sizes_only_refl|]. rewrite <- list_fmap_compose.
      split; [done|]. intros _. by apply Forall_fmap, Forall_forall.
    - destruct Hq as [most Hq]; [done..|]. destruct (order_links_spec cur st (gens u) (m_links u) most Hq) as (ls & st' & g & -> & ? & ?).
      by exists ls, st', g. }
  simpl. assert (same_links u (mk ls true gens')) as Hsl by (split; simpl; [by rewrite El|done]).
  destruct (sortLinks_ok (mk ls true gens')) as [Hok Hp]; [|done|].
  { eapply same_links_wf; [done|]. apply Hu. }
  exists (sortLinks (mk ls true gens')), st'. split; [done|]. split; [done|]. split.
  { split; [|done]. rewrite Hp. apply Hsl. }
  split; [done|]. intros [?|?]; [done|]. rewrite Hp. by apply Ho.
Qed.

(** ... and the destinations are given to the first that lead to them. *)
Lemma route_serves cur st u msg deterministic : unit_ok u → queues_ok cur st u deterministic →
  valid rs (getDestination (Message.payload msg)) →
  let D := members N (getDestination (Message.payload msg)) in
  (covered N D (m_links u) → ∃ routes u' st', route N cur st u msg deterministic [] = Ok (routes, u', st') ∧
    unit_ok u' ∧ same_links u u' ∧ sizes_only st st' ∧
    (adaptive_routing u = false ∨ deterministic = true → Forall (λ l, m_order l = 0) (m_links u')) ∧
    Forall2 (serves N rs) routes (serve N D (m_links u')) ∧ covered N D (m_links u')) ∧
  (¬ covered N D (m_links u) → route N cur st u msg deterministic [] = Err EPanic).
Proof.
  intros Hu Hq Hd D. unfold route. destruct (reorder_spec cur st u deterministic Hu Hq) as (u' & st' & -> & Hu' & Hl & Hs & Ho).
  simpl. unfold findRoute. simpl. pose proof Hu' as ((_ & Hv) & _).
  destruct (find_links_ok N rs _ (m_links u') Hd Hv) as [Hc Hn]. fold D in Hc, Hn.
  assert (covered N D (m_links u) ↔ covered N D (m_links u')) as E.
  { unfold covered. split; intros Hcov x Hx; apply (same_links_elem u u' (λ l, x ∈ table N l) Hl); auto. }
  rewrite E. split; intros Hcov.
  - destruct (Hc Hcov) as (routes & -> & Hr). exists routes, u', st'. done.
  - by rewrite Hn.
Qed.

(** Two links of a unit are in one order. *)
Lemma tup_lt_total l l' : m_link_id l ≠ m_link_id l' → tup_lt l' l = false → tup_lt l l' = true.
Proof.
  unfold tup_lt. rewrite orb_false_iff, orb_true_iff, andb_false_iff, andb_true_iff, orb_false_iff, orb_true_iff,
    andb_false_iff, andb_true_iff, !Z.ltb_ge, !Z.ltb_lt, !Z.eqb_neq, !Z.eqb_eq. lia.
Qed.


End Unit.

(** ** Two links *)

Section TwoLinks.
Import WeightBased Tiny.

Lemma tiny_unit : unit_ok () unit_.
Proof.
  split; [|split].
  - split; [repeat (constructor; [set_solver|]); constructor|].
    do 2 (apply Forall_cons; split; [apply dest_valid|]). by apply Forall_nil.
  - repeat constructor.
  - intros _. by repeat constructor.
Qed.

Lemma tiny_covered : covered 64 (members 64 (dest true true)) links.
Proof. intros x Hx. exists (mkInfo 1 (dest true true) [Some 2%nat] 0 1). split; [right; left|done]. Qed.


End TwoLinks.
