(* ===== verification/StoreSpec.v ===== *)
(** Message buffers in use by a network: what an enqueue, a dequeue and a query do
    to one of them and to its consumer, and to the buffers and consumers that are
    reached by pointers. *)

From stdpp Require Import prelude list gmap sorting.
From Stdlib Require Import ZArith Lia.
From S2P Require Import Prelude Replacement NetDest NetDestSpec Heap Clocking MessageBuffer MessageBufferSpec Routing NetExample RoutingSpec.

Open Scope Z_scope.

(** ** Sums and concatenations over a finite map *)

Section Maps.
Context {X : Type}.
Implicit Types (m : gmap nat X) (a : nat) (b : X).

Definition msum (f : nat → X → Z) m : Z := foldr (λ kv n, f kv.1 kv.2 + n) 0 (map_to_list m).
Definition mconcat {B} (f : nat → X → list B) m : list B := concat ((λ kv, f kv.1 kv.2) <$> map_to_list m).

Lemma msum_split f m a b : m !! a = Some b → msum f m = f a b + msum f (delete a m).
Proof.
  intros Ha. unfold msum. rewrite <- (insert_delete_id m a b Ha) at 1.
  rewrite (foldr_permutation eq (λ kv n, f kv.1 kv.2 + n) 0 (map_to_list (<[a:=b]> (delete a m))) ((a, b) :: map_to_list (delete a m)));
    [done|by intros; lia|]. apply map_to_list_insert, lookup_delete_eq.
Qed.

Lemma msum_put f m a b b' : m !! a = Some b → msum f (<[a := b']> m) = msum f m - f a b + f a b'.
Proof.
  intros Ha. rewrite (msum_split f m a b Ha), (msum_split f _ a b') by apply lookup_insert_eq.
  rewrite delete_insert_eq. lia.
Qed.

Lemma mconcat_split {B} (f : nat → X → list B) m a b : m !! a = Some b → mconcat f m ≡ₚ f a b ++ mconcat f (delete a m).
Proof.
  intros Ha. unfold mconcat. rewrite <- (insert_delete_id m a b Ha) at 1.
  rewrite map_to_list_insert by apply lookup_delete_eq. done.
Qed.

Lemma mconcat_put {B} (f : nat → X → list B) m a b b' l : m !! a = Some b → f a b' ≡ₚ l ++ f a b →
  mconcat f (<[a := b']> m) ≡ₚ l ++ mconcat f m.
Proof.
  intros Ha Hf. rewrite (mconcat_split f m a b Ha), (mconcat_split f _ a b') by apply lookup_insert_eq.
  rewrite delete_insert_eq, Hf. by rewrite <- app_assoc.
Qed.

Lemma msum_nonneg f m : (∀ a b, m !! a = Some b → 0 ≤ f a b) → 0 ≤ msum f m.
Proof.
  intros Hf. unfold msum. assert (Forall (λ kv, 0 ≤ f kv.1 kv.2) (map_to_list m)) as Hall.
  { apply Forall_forall. intros [a b] Hab%elem_of_map_to_list. by apply Hf. }
  induction Hall; simpl; lia.
Qed.

Lemma msum_ge f m a b : (∀ a b, m !! a = Some b → 0 ≤ f a b) → m !! a = Some b → f a b ≤ msum f m.
Proof.
  intros Hf Ha. rewrite (msum_split f m a b Ha). enough (0 ≤ msum f (delete a m)) by lia.
  apply msum_nonneg. intros a' b' [_ ?]%lookup_delete_Some. by apply Hf.
Qed.

Lemma msum_le f g m : (∀ a b, m !! a = Some b → f a b ≤ g a b) → msum f m ≤ msum g m.
Proof.
  intros Hf. unfold msum. assert (Forall (λ kv, f kv.1 kv.2 ≤ g kv.1 kv.2) (map_to_list m)) as Hall.
  { apply Forall_forall. intros [a b] Hab%elem_of_map_to_list. by apply Hf. }
  induction Hall; simpl; lia.
Qed.

(** Maps that agree up to [R], on which [f] does not depend. *)
Lemma msum_cong f m m' (P : X → X → Prop) : (∀ a, option_Forall2 P (m !! a) (m' !! a)) →
  (∀ a b b', P b b' → f a b' = f a b) → msum f m' = msum f m.
Proof.
  intros Hm Hf. revert m' Hm. induction m as [|a b m Ha IH] using map_ind; intros m' Hm.
  { assert (m' = ∅) as ->; [|done]. apply map_empty. intros a. specialize (Hm a). rewrite lookup_empty in Hm. by inv Hm. }
  pose proof (Hm a) as Hma. rewrite lookup_insert_eq in Hma. inv Hma as [? b' Hb E|]. rewrite (msum_split f m' a b') by done.
  rewrite (msum_split f (<[a:=b]> m) a b), delete_insert_id by (done || apply lookup_insert_eq).
  rewrite (Hf a b b' Hb), (IH (delete a m')); [done|]. intros a'. destruct (decide (a = a')) as [<-|Hne].
  - rewrite lookup_delete_eq, Ha. constructor.
  - rewrite lookup_delete_ne by done. specialize (Hm a'). by rewrite lookup_insert_ne in Hm.
Qed.

Lemma mconcat_cong {B} (f : nat → X → list B) m m' (P : X → X → Prop) : (∀ a, option_Forall2 P (m !! a) (m' !! a)) →
  (∀ a b b', P b b' → f a b' ≡ₚ f a b) → mconcat f m' ≡ₚ mconcat f m.
Proof.
  intros Hm Hf. revert m' Hm. induction m as [|a b m Ha IH] using map_ind; intros m' Hm.
  { assert (m' = ∅) as ->; [|done]. apply map_empty. intros a. specialize (Hm a). rewrite lookup_empty in Hm. by inv Hm. }
  pose proof (Hm a) as Hma. rewrite lookup_insert_eq in Hma. inv Hma as [? b' Hb E|]. rewrite (mconcat_split f m' a b') by done.
  rewrite (mconcat_split f (<[a:=b]> m) a b), delete_insert_id by (done || apply lookup_insert_eq).
  rewrite (Hf a b b' Hb), (IH (delete a m')); [done|]. intros a'. destruct (decide (a = a')) as [<-|Hne].
  - rewrite lookup_delete_eq, Ha. constructor.
  - rewrite lookup_delete_ne by done. specialize (Hm a'). by rewrite lookup_insert_ne in Hm.
Qed.

End Maps.

(** ** One buffer and its consumer *)

Abbreviation heap_of b := (MessageBuffer.m_prio_heap (MessageBuffer.queue b)).
Abbreviation period c := (Clocked.clockPeriod (Consumer.em c)).

Section Buffer.
Import Message MessageBuffer.
Context {A : Type} `{HeapLaws (Message.t A)}.
Implicit Types (b : MessageBuffer.t A) (m : Message.t A) (now : Z) (c : Consumer.t).

(** A consumer that was at most asked for more wake-ups. *)
Definition asked_more now c c' : Prop :=
  period c' = period c ∧ (∀ t, t ∈ Consumer.m_wakeup_ticks c → t ∈ Consumer.m_wakeup_ticks c') ∧
  pending now c' ∧ (armed now c → armed now c').

Lemma asked_more_refl now c : pending now c → asked_more now c c.
Proof. intros. by split_and!. Qed.

Lemma asked_more_trans now c c1 c2 : asked_more now c c1 → asked_more now c1 c2 → asked_more now c c2.
Proof. intros (? & ? & ? & ?) (? & ? & ? & ?). split_and!; [congruence|auto..]. Qed.

(** A buffer in use: nothing is stalled, and a bounded one accounts for its messages
    within the bound. *)
Record buf_ok now b : Prop := {
  bo_heap : is_heap gt (heap_of b);
  bo_stall : m_stall_msg_map (queue b) = ∅;
  bo_stall_size : m_stall_map_size (queue b) = 0;
  bo_pop : m_time_last_time_pop (cyc b) ≤ now;
  bo_enqueue : m_time_last_time_enqueue (cyc b) ≤ now;
  bo_consumer : m_consumer (wires b) = true;
  bo_max : m_max_size (cfg b) = 0 ∨
    0 < m_max_size (cfg b) < 2 ^ 30 - 1 ∧ buffer_inv (m_max_size (cfg b)) now b ∧
    (m_time_last_time_pop (cyc b) < m_time_last_time_enqueue (cyc b) → m_msgs_this_cycle (cyc b) ≤ zlen (heap_of b));
}.

Lemma buf_ok_mono now now' b : buf_ok now b → now ≤ now' → buf_ok now' b.
Proof.
  intros [] Hle. split; try done; try lia. destruct bo_max0 as [?|(? & ? & ?)]; [by left|right].
  split; [done|]. split; [|done]. eapply inv_weaken; [done|lia|done].
Qed.

(** Buffers that differ in statistics and remembered sizes only. *)
Definition alike b b' : Prop :=
  queue b' = queue b ∧ ord b' = ord b ∧ cfg b' = cfg b ∧ wires b' = wires b ∧
  m_dequeues_this_cy (cyc b') = m_dequeues_this_cy (cyc b) ∧
  m_time_last_time_enqueue (cyc b') = m_time_last_time_enqueue (cyc b) ∧
  m_time_last_time_pop (cyc b') = m_time_last_time_pop (cyc b) ∧
  m_size_at_cycle_start (cyc b') = m_size_at_cycle_start (cyc b) ∧
  m_stalled_at_cycle_start (cyc b') = m_stalled_at_cycle_start (cyc b) ∧
  m_msgs_this_cycle (cyc b') = m_msgs_this_cycle (cyc b).

Lemma alike_refl b : alike b b.
Proof. by split_and!. Qed.

Lemma alike_sym b b' : alike b b' → alike b' b.
Proof. unfold alike. intros. destruct_and!. by split_and!. Qed.

Lemma alike_trans b b1 b2 : alike b b1 → alike b1 b2 → alike b b2.
Proof. unfold alike. intros. destruct_and!. split_and!; congruence. Qed.

Lemma alike_inv k now b b' : alike b b' → buffer_inv k now b → buffer_inv k now b'.
Proof.
  intros (Eq & _ & _ & _ & _ & E1 & E2 & E3 & E4 & E5) []. split; unfold total in *; rewrite ?Eq, ?E1, ?E2, ?E3, ?E4, ?E5; done.
Qed.

Lemma alike_ok now b b' : alike b b' → buf_ok now b → buf_ok now b'.
Proof.
  intros Ha []. pose proof Ha as (Eq & _ & Ec & Ew & _ & E1 & E2 & _ & _ & E5).
  split; rewrite ?Eq, ?Ec, ?Ew, ?E1, ?E2, ?E5; try done.
  destruct bo_max0 as [?|(? & ? & ?)]; [by left|right]. split; [done|]. split; [by eapply alike_inv|done].
Qed.

Lemma size_checked_alike b b' : size_checked b b' → alike b b'.
Proof. intros (? & ? & ->). by split_and!. Qed.

(** A query whether there is room. *)
Definition has_room now b : Prop := (areNSlotsAvailable b 1 now).1 = true.

Lemma slots_alike now n b : alike b (areNSlotsAvailable b n now).2.
Proof. unfold areNSlotsAvailable. repeat case_match; by split_and!. Qed.

Lemma has_room_alike now b b' : alike b b' → has_room now b → has_room now b'.
Proof.
  intros (Eq & _ & Ec & Ew & _ & E1 & E2 & E3 & E4 & E5). unfold has_room, areNSlotsAvailable.
  rewrite Eq, Ec, E1, E2, E3, E4, E5. by repeat case_match.
Qed.

Lemma can_dequeue_alike now b b' : alike b b' → can_dequeue now b → can_dequeue now b'.
Proof. intros (Eq & _ & Ec & _ & Ed & _ & Ep & _). unfold can_dequeue. by rewrite Eq, Ec, Ed, Ep. Qed.

Lemma room_total now b : buf_ok now b → has_room now b → m_max_size (cfg b) = 0 ∨ zlen (heap_of b) + 1 ≤ m_max_size (cfg b).
Proof.
  intros Hb Hr. destruct (bo_max _ _ Hb) as [?|(? & Hi & _)]; [by left|].
  destruct (areNSlotsAvailable b 1 now) as [r b'] eqn:E. unfold has_room in Hr. rewrite E in Hr. simpl in Hr. subst r.
  destruct (slots_total _ _ _ 1 _ Hi ltac:(lia) E) as [?|Ht]; [by left|right].
  unfold total in Ht. rewrite (bo_stall_size _ _ Hb) in Ht. lia.
Qed.

(** The first message of a heap is due first. *)
Lemma due_first h m m' t : is_heap gt (m :: h) → m' ∈ m :: h → m_LastEnqueueTime m' ≤ t → m_LastEnqueueTime m ≤ t.
Proof.
  intros Hh Hm Ht. pose proof (heap_front gt h m m' Hh Hm) as Hg. unfold gt, getLastEnqueueTime in Hg.
  destruct (Z.eqb_spec (m_LastEnqueueTime m) (m_LastEnqueueTime m')); [lia|]. apply Z.ltb_ge in Hg. lia.
Qed.

Lemma not_due now b m : buf_ok now b → ¬ can_dequeue now b → m_max_dequeue_rate (cfg b) = 0 → m ∈ heap_of b →
  now < m_LastEnqueueTime m.
Proof.
  intros Hb Hn Hr Hm. apply Z.nle_gt. intros Hle. apply Hn. pose proof (bo_heap _ _ Hb) as Hh. destruct (heap_of b) as [|m0 h] eqn:Eh.
  { by apply not_elem_of_nil in Hm. }
  split; [exists m0, h; split; [done|by eapply due_first]|]. split; [apply Hb|auto].
Qed.

Lemma isReady_ok now c b : buf_ok now b → pending now c → now + 3 * period c < 2 ^ 64 →
  ∃ r c', isReady now c b now = Ok (r, c') ∧ asked_more now c c' ∧
    (r = true → c' = c ∧ can_dequeue now b) ∧
    (r = false → ∀ m, m ∈ heap_of b → m_LastEnqueueTime m ≤ now →
       align (period c) now + period c ∈ Consumer.m_wakeup_ticks c').
Proof.
  intros Hb Hc Hov. unfold isReady. rewrite (proj2 (Z.leb_le _ _) (bo_pop _ _ Hb)). cbn [require rbind].
  set (can := _ || _ || _). destruct (heap_of b) as [|m h] eqn:Eh.
  { rewrite andb_false_r. exists false, c. rewrite andb_false_r. split; [done|]. split; [by apply asked_more_refl|].
    split; [done|]. intros _ m Hm. by apply not_elem_of_nil in Hm. }
  unfold getLastEnqueueTime. destruct (Z.leb_spec (m_LastEnqueueTime m) now) as [Hle|Hlt]; cycle 1.
  { rewrite !andb_false_r. exists false, c. split; [done|]. split; [by apply asked_more_refl|]. split; [done|].
    intros _ m' Hm' Ht. pose proof (bo_heap _ _ Hb) as Hh. rewrite Eh in Hh. pose proof (due_first h m m' now Hh Hm' Ht). lia. }
  destruct can eqn:Ecan; cbn [negb andb].
  - exists true, c. split; [done|]. split; [by apply asked_more_refl|]. split; [|done]. intros _. split; [done|].
    split; [eauto|]. split; [apply Hb|]. unfold can in Ecan. rewrite !orb_true_iff, Z.eqb_eq, !Z.ltb_lt in Ecan. naive_solver.
  - unfold on_consumer. rewrite (bo_consumer _ _ Hb).
    destruct (request_cycles_spec now 1 c Hc) as (c' & -> & Ha & Hp & Hx); [lia|lia|]. cbn [rbind].
    exists false, c'. split; [done|]. split; [split_and!; [done| |apply Ha|done]|].
    { intros t Ht. apply Hx. by right. }
    split; [done|]. intros _ _ _ _. apply Hx. left. lia.
Qed.

(** What a sender relies on: without random delays, the latency of a link is
    allowed, and an ordered buffer has no later message than one sent now. *)
Definition port_ok now (delta : Z) (random : bool) b : Prop :=
  0 ≤ delta ∧ (delta ≠ 0 ∨ m_allow_zero_latency (cfg b) = true) ∧
  (m_strict_fifo (cfg b) = true → m_last_arrival_time (ord b) ≤ now + delta) ∧
  (m_randomization (cfg b) = disabled ∨ m_randomization (cfg b) = ruby_system ∧ random = false).

Lemma port_ok_alike now delta r b b' : alike b b' → port_ok now delta r b → port_ok now delta r b'.
Proof. intros (_ & Eo & Ec & _). unfold port_ok. by rewrite Eo, Ec. Qed.

Lemma port_ok_mono now now' delta r b : port_ok now delta r b → now ≤ now' → port_ok now' delta r b.
Proof. intros (? & ? & Hl & ?) Hle. split_and!; try done. intros Hs. specialize (Hl Hs). lia. Qed.

(** The message as it is put into the heap, and the buffer with it. *)
Definition sent now (delta : Z) b m : Message.t A :=
  setMsgCounter (setLastEnqueueTime (Message.mk (m_time m) (m_LastEnqueueTime m)
    (u64 (m_DelayedTicks m + u64 (now - m_LastEnqueueTime m))) (Message.m_msg_counter m) (incoming_link m)
    (Message.vnet m) (payload m)) (now + delta)) (u64 (m_msg_counter (ord b) + 1)).

Definition received now (delta : Z) (warmup : bool) b m : MessageBuffer.t A :=
  push (with_ord (count_enqueue b now)
    (mkOrder (if warmup then m_last_arrival_time (ord b) else now + delta) (u64 (m_msg_counter (ord b) + 1)) false))
    (sent now delta b m).

Lemma enqueue_runs now c draws b m delta random warmup :
  buf_ok now b → port_ok now delta random b → has_room now b → m_LastEnqueueTime m ≤ now → pending now c →
  now + delta + 2 * period c < 2 ^ 64 →
  ∃ c', enqueue now c draws b m now delta random warmup false = Ok (received now delta warmup b m, c') ∧
    asked_more now c c' ∧ align (period c) (now + delta) ∈ Consumer.m_wakeup_ticks c'.
Proof.
  intros Hb (Hd0 & Hd & Hl & Hr) Hroom Hm Hc Hov. pose proof Hc as ((Hper & _) & Hnow & _).
  unfold enqueue, arrival, updateDelayedTicks. cbn [cfg ord count_enqueue with_ord with_cyc].
  assert (negb ((delta =? 0) && negb (m_allow_zero_latency (cfg b))) = true) as ->.
  { destruct (Z.eqb_spec delta 0), Hd as [?| ->]; done. }
  cbn [require rbind].
  assert (match m_randomization (cfg b) with disabled => true | ruby_system => negb random | enabled => false end = true) as ->.
  { destruct Hr as [->|[-> ->]]; done. }
  rewrite (u64_small (now + delta)) by lia. cbn [require rbind m_last_arrival_time
    m_last_message_strict_fifo_bypassed m_msg_counter].
  rewrite (proj2 (Z.leb_le now (now + delta))) by lia. cbn [require rbind].
  match goal with |- context [require (negb (?x && ?y && ?z)) EPanic] => assert (x && y && z = false) as -> end.
  { destruct (m_strict_fifo (cfg b)) eqn:Es; [|done]. specialize (Hl eq_refl).
    rewrite (proj2 (Z.ltb_ge (now + delta) _)) by lia. by rewrite andb_false_r. }
  cbn [negb require rbind]. unfold getLastEnqueueTime. rewrite !(proj2 (Z.leb_le _ now)) by done. cbn [require rbind].
  fold (sent now delta b m) (received now delta warmup b m).
  destruct (push_heap_spec (heap_of b) (sent now delta b m) (bo_heap _ _ Hb)) as [_ Hp].
  match goal with |- context [(?x =? 0) || ?y] => assert ((x =? 0) || y = true) as -> end.
  { destruct (room_total now b Hb Hroom) as [->|Hroom']; [done|]. apply orb_true_iff. right. simpl.
    rewrite Hp, (bo_stall_size _ _ Hb). simpl. destruct (bo_max _ _ Hb) as [?|(? & _)]; rewrite u64_small by lia; apply Z.leb_le; lia. }
  cbn [require rbind]. change (m_consumer (wires (received now delta warmup b m))) with (m_consumer (wires b)).
  rewrite (bo_consumer _ _ Hb). cbn [require rbind].
  destruct (request_spec now (now + delta) c Hc) as (c' & -> & Ha & Hp' & Hx); [lia|lia|]. cbn [rbind].
  exists c'. split; [done|]. split; [|apply Hx; by left]. split_and!; [done| |apply Ha|done]. intros t Ht. apply Hx. by right.
Qed.

(** A message that was announced a slot is counted within the bound. *)
Lemma room_msgs now b : buf_ok now b → has_room now b → m_max_size (cfg b) ≠ 0 →
  (if m_time_last_time_enqueue (cyc b) <? now then 0 else m_msgs_this_cycle (cyc b)) + 1 ≤ m_max_size (cfg b).
Proof.
  intros Hb Hr Hmax. pose proof (room_total now b Hb Hr) as [?|Hroom]; [done|].
  destruct (bo_max _ _ Hb) as [?|(Hm & Hi & Hmsgs)]; [done|].
  pose proof (bo_pop _ _ Hb). pose proof (bo_enqueue _ _ Hb).
  destruct (Z.ltb_spec (m_time_last_time_enqueue (cyc b)) now); [lia|].
  destruct (decide (m_time_last_time_pop (cyc b) < now)); [specialize (Hmsgs ltac:(lia)); lia|].
  destruct Hi as [_ _ _ _ ? (? & ? & ?) _]. unfold has_room, areNSlotsAvailable in Hr.
  rewrite (proj2 (Z.eqb_neq _ _)), !(proj2 (Z.ltb_ge _ now)) in Hr by lia.
  rewrite (u32_small (m_size_at_cycle_start _ + _)), u32_sum in Hr by lia.
  destruct (Z.leb_spec (m_size_at_cycle_start (cyc b) + m_msgs_this_cycle (cyc b) + m_stalled_at_cycle_start (cyc b) + 1)
    (m_max_size (cfg b))); [lia|done].
Qed.

Lemma received_inv now delta warmup b m : buf_ok now b → has_room now b → m_max_size (cfg b) ≠ 0 →
  let b' := received now delta warmup b m in
  buffer_inv (m_max_size (cfg b)) now b' ∧
  (m_time_last_time_pop (cyc b') < m_time_last_time_enqueue (cyc b') → m_msgs_this_cycle (cyc b') ≤ zlen (heap_of b')).
Proof.
  intros Hb Hr Hmax. pose proof (room_msgs now b Hb Hr Hmax) as Hmsgs.
  pose proof (room_total now b Hb Hr) as [?|Hroom]; [done|].
  destruct (bo_max _ _ Hb) as [?|(Hm & Hi & Hm')]; [done|]. pose proof (bo_enqueue _ _ Hb).
  destruct (push_heap_spec (heap_of b) (sent now delta b m) (bo_heap _ _ Hb)) as [Hh Hp].
  assert (zlen (push_heap gt (heap_of b ++ [sent now delta b m])) = zlen (heap_of b) + 1) as Hl by (rewrite Hp; simpl; lia).
  pose proof (enqueue_count_inv (m_max_size (cfg b)) now now b
    (mkOrder (if warmup then m_last_arrival_time (ord b) else now + delta) (u64 (m_msg_counter (ord b) + 1)) false)
    (push_heap gt (heap_of b ++ [sent now delta b m])) Hi ltac:(lia) ltac:(lia) Hh Hl) as Hi'.
  apply inv_with_stats with (s := stats (received now delta warmup b m)) in Hi'.
  destruct Hi as [_ _ _ _ ? Hst _]. simpl. split.
  - destruct Hi' as [? ? ? ? ? ? Ha]. split; try done.
    + unfold total in *. simpl in *. rewrite Hl, (bo_stall_size _ _ Hb). lia.
    + simpl in *. rewrite u32_small by (destruct (_ <? now); lia). destruct (_ <? now); lia.
  - rewrite Hl. intros Hlt. rewrite u32_small by (destruct (_ <? now); lia).
    destruct (Z.ltb_spec (m_time_last_time_enqueue (cyc b)) now); [lia|]. specialize (Hm' ltac:(lia)). lia.
Qed.

Lemma received_ok now delta random warmup b m : buf_ok now b → port_ok now delta random b → has_room now b →
  let b' := received now delta warmup b m in
  buf_ok now b' ∧ port_ok now delta random b' ∧ heap_of b' ≡ₚ sent now delta b m :: heap_of b.
Proof.
  intros Hb Hport Hr b'. pose proof (bo_enqueue _ _ Hb).
  destruct (push_heap_spec (heap_of b) (sent now delta b m) (bo_heap _ _ Hb)) as [Hh Hp]. split; [|split; [|done]].
  - split; try done; try apply Hb.
    + unfold b'. simpl. destruct (_ <? now); lia.
    + destruct (decide (m_max_size (cfg b) = 0)) as [?|Hmax]; [by left|right]. simpl.
      split; [by destruct (bo_max _ _ Hb) as [?|(? & _)]|]. by apply received_inv.
  - destruct Hport as (? & ? & Hl & ?). split_and!; try done. unfold b'. simpl. intros Hs. specialize (Hl Hs).
    destruct warmup; lia.
Qed.

(** The message as [dequeue] leaves it, and the buffer without it. *)
Lemma dequeue_runs now c b : buf_ok now b → can_dequeue now b →
  ∃ m h m' cb b', heap_of b = m :: h ∧ dequeue now c b now true = Ok (m', cb, b', c) ∧
    payload m' = payload m ∧ m_LastEnqueueTime m' = m_LastEnqueueTime m ∧ m_LastEnqueueTime m ≤ now ∧
    heap_of b' ≡ₚ h ∧ buf_ok now b' ∧ cfg b' = cfg b ∧ wires b' = wires b ∧ ord b' = ord b.
Proof.
  intros Hb Hcan. pose proof Hcan as ((m & h & Eh & Hm) & Hpop & _). exists m, h.
  destruct (dequeue now c b now true) as [[[[m' cb] b'] c']|e] eqn:E; cycle 1.
  { exfalso. unfold dequeue in E. rewrite isReady_ready in E by done. cbn [require rbind] in E. unfold front in E.
    rewrite Eh in E. cbn [head of_option rbind] in E. unfold updateDelayedTicks in E. by rewrite (proj2 (Z.leb_le _ now)) in E. }
  assert (c' = c ∧ m_LastEnqueueTime m' = m_LastEnqueueTime m) as [-> HL].
  { unfold dequeue in E. rewrite isReady_ready in E by done. cbn [require rbind] in E. unfold front in E.
    rewrite Eh in E. cbn [head of_option rbind] in E. unfold updateDelayedTicks in E.
    rewrite (proj2 (Z.leb_le _ now)) in E by done. cbn [require rbind] in E. by injection E as <- _ _ <-. }
  destruct (dequeue_shape _ _ _ _ _ _ _ _ _ E) as (m0 & h0 & s & Eh0 & Hpl & Ht & Eb'). rewrite Eh in Eh0.
  injection Eh0 as <- <-. exists m', cb, b'. split; [done|]. split; [done|]. do 3 (split; [done|]).
  pose proof (bo_heap _ _ Hb) as Hh. rewrite Eh in Hh. destruct (pop_message_spec h m Hh) as [Hh' Hp].
  split; [by rewrite Eb'|]. split; [|by rewrite Eb'; unfold count_pop; case_match]. split.
  1: by rewrite Eb'.
  1-2: rewrite Eb'; simpl; apply Hb.
  1-3: rewrite Eb'; unfold count_pop; simpl; pose proof (bo_pop _ _ Hb); pose proof (bo_enqueue _ _ Hb);
    pose proof (bo_consumer _ _ Hb); repeat case_match; simpl; try done; lia.
  assert (cfg b' = cfg b) as -> by (rewrite Eb'; unfold count_pop; by case_match).
  destruct (bo_max _ _ Hb) as [?|(? & Hi & Hmsgs)]; [by left|right]. split; [done|].
  destruct (dequeue_inv (m_max_size (cfg b)) now c b now now true m' cb b' c Hi ltac:(lia) E) as [Hi' _]. split; [done|].
  intros Hlt. exfalso. revert Hlt. rewrite Eb'. unfold count_pop. simpl.
  pose proof (bo_enqueue _ _ Hb). destruct (Z.ltb_spec (m_time_last_time_pop (cyc b)) now); simpl; lia.
Qed.

End Buffer.

(** ** The buffers and consumers of a network *)

(** What a network does with a message does not change its body. *)
Class NetMessageLaws {R A B : Type} `{NetMessage R A} (body : A → B) : Prop := {
  get_setDestination d a : getDestination (setDestination d a) = d;
  body_setDestination d a : body (setDestination d a) = body a;
  size_setDestination d a : getMessageSize (setDestination d a) = getMessageSize a }.

Section Stores.
Import Message MessageBuffer Store.
Context (N : Z) {R A B : Type} `{MachineTypes R} (rs : R) `{!MachineLaws N rs}.
Context `{NetMessage R A} (body : A → B) `{!NetMessageLaws body} `{HeapLaws (Message.t A)}.
Implicit Types (st : Store.t A) (b : MessageBuffer.t A) (m : Message.t A) (now : Z) (c : Consumer.t).
Implicit Types (a k : nat) (x : MachineID.t).

Definition goes_to m : gset MachineID.t := members N (getDestination (payload m)).

(** The messages of a buffer for a machine, and those of all buffers. *)
Definition bound x b : list B :=
  (λ m, body (payload m)) <$> filter (λ m, x ∈ goes_to m) (heap_of b).
Definition flight x st : list B := mconcat (λ _, bound x) (buffers st).

(** The deliveries the messages stand for. *)
Definition weight m : Z := Z.max 1 (Z.of_nat (size (goes_to m))).
Definition weights (ms : list (Message.t A)) : Z := foldr (λ m n, weight m + n) 0 ms.
Definition load st : Z := msum (λ _ b, weights (heap_of b)) (buffers st).

(** The messages that wait for a consumer on a virtual network. *)
Definition waits_for st k (v : Z) a b : Z :=
  if bool_decide (consumer_of st !! a = Some k) && (m_vnet_id (wires b) =? v) then zlen (heap_of b) else 0.
Definition waiting st k (v : Z) : Z := msum (waits_for st k v) (buffers st).

Record store_ok now st : Prop := {
  so_buf a b : buffers st !! a = Some b → buf_ok now b;
  so_valid a b m : buffers st !! a = Some b → m ∈ heap_of b → valid rs (getDestination (payload m));
  so_consumer a b : buffers st !! a = Some b →
    ∃ k c, consumer_of st !! a = Some k ∧ consumers st !! k = Some c;
  so_asked k c : consumers st !! k = Some c → Clocking.pending now c ∧ now + 3 * period c < 2 ^ 64;
  so_future a b k c m : buffers st !! a = Some b → consumer_of st !! a = Some k → consumers st !! k = Some c →
    m ∈ heap_of b → now < m_LastEnqueueTime m →
    align (period c) (m_LastEnqueueTime m) ∈ Consumer.m_wakeup_ticks c;
  so_vnet a b k l : buffers st !! a = Some b → consumer_of st !! a = Some k → Store.pending st !! k = Some l →
    0 ≤ m_vnet_id (wires b) < zlen l;
  so_load : load st < 2 ^ 30;
}.

(** The counts that [storeEventInfo] keeps are those of the waiting messages. *)
Definition counts_ok st : Prop :=
  ∀ k l v n, Store.pending st !! k = Some l → l !! v = Some n → n = waiting st k (Z.of_nat v).

(** Operations that send and take nothing. *)
Definition quiet now st st' : Prop :=
  consumer_of st' = consumer_of st ∧ Store.pending st' = Store.pending st ∧
  (∀ a, option_Forall2 alike (buffers st !! a) (buffers st' !! a)) ∧
  (∀ k, option_Forall2 (asked_more now) (consumers st !! k) (consumers st' !! k)).

Lemma quiet_trans now st st1 st2 : quiet now st st1 → quiet now st1 st2 → quiet now st st2.
Proof.
  intros (? & ? & Hb & Hc) (? & ? & Hb' & Hc'). split_and!; [congruence..| |].
  - intros a. specialize (Hb a). specialize (Hb' a). destruct Hb; inv Hb'; constructor. by eapply alike_trans.
  - intros k. specialize (Hc k). specialize (Hc' k). destruct Hc; inv Hc'; constructor. by eapply asked_more_trans.
Qed.

Lemma quiet_refl now st : store_ok now st → quiet now st st.
Proof.
  intros Hs. split_and!; [done..| |].
  - intros a. destruct (buffers st !! a); constructor. apply alike_refl.
  - intros k. destruct (consumers st !! k) eqn:E; constructor. apply asked_more_refl. by eapply so_asked.
Qed.

Lemma quiet_buffer now st st' a b' : quiet now st st' → buffers st' !! a = Some b' →
  ∃ b, buffers st !! a = Some b ∧ alike b b'.
Proof. intros (_ & _ & Hb & _) E. specialize (Hb a). rewrite E in Hb. inv Hb. eauto. Qed.

Lemma quiet_buffer_2 now st st' a b : quiet now st st' → buffers st !! a = Some b →
  ∃ b', buffers st' !! a = Some b' ∧ alike b b'.
Proof. intros (_ & _ & Hb & _) E. specialize (Hb a). rewrite E in Hb. inv Hb. eauto. Qed.

Lemma quiet_consumer now st st' k c' : quiet now st st' → consumers st' !! k = Some c' →
  ∃ c, consumers st !! k = Some c ∧ asked_more now c c'.
Proof. intros (_ & _ & _ & Hc) E. specialize (Hc k). rewrite E in Hc. inv Hc. eauto. Qed.

Lemma quiet_consumer_2 now st st' k c : quiet now st st' → consumers st !! k = Some c →
  ∃ c', consumers st' !! k = Some c' ∧ asked_more now c c'.
Proof. intros (_ & _ & _ & Hc) E. specialize (Hc k). rewrite E in Hc. inv Hc. eauto. Qed.

Lemma quiet_flight now st st' x : quiet now st st' → flight x st' ≡ₚ flight x st.
Proof. intros (_ & _ & Hb & _). eapply mconcat_cong; [done|]. intros a b b' (Eq & _). unfold bound. by rewrite Eq. Qed.

Lemma quiet_load now st st' : quiet now st st' → load st' = load st.
Proof. intros (_ & _ & Hb & _). eapply msum_cong; [done|]. intros a b b' (Eq & _). by rewrite Eq. Qed.

Lemma quiet_waiting now st st' k v : quiet now st st' → waiting st' k v = waiting st k v.
Proof.
  intros (Eo & _ & Hb & _). unfold waiting. assert (waits_for st' k v = waits_for st k v) as ->
    by (unfold waits_for; by rewrite Eo).
  eapply msum_cong; [done|]. intros a b b' (Eq & _ & _ & Ew & _). unfold waits_for. by rewrite Eq, Ew.
Qed.

Lemma quiet_ok now st st' : quiet now st st' → store_ok now st → store_ok now st'.
Proof.
  intros Hq Hs. pose proof Hq as (Eo & Ep & _). split.
  - intros a b' E. destruct (quiet_buffer _ _ _ _ _ Hq E) as (b & Eb & Ha). eapply alike_ok; [done|by eapply so_buf].
  - intros a b' m E Hm. destruct (quiet_buffer _ _ _ _ _ Hq E) as (b & Eb & (Eq & _)). rewrite Eq in Hm. by eapply so_valid.
  - intros a b' E. destruct (quiet_buffer _ _ _ _ _ Hq E) as (b & Eb & _).
    destruct (so_consumer _ _ Hs a b Eb) as (k & c & Ek & Ec). rewrite Eo. exists k.
    destruct (quiet_consumer_2 _ _ _ _ _ Hq Ec) as (c' & ? & _). by exists c'.
  - intros k c' E. destruct (quiet_consumer _ _ _ _ _ Hq E) as (c & Ec & (Hp & _ & ? & _)).
    split; [done|]. rewrite Hp. by apply (so_asked _ _ Hs k c Ec).
  - intros a b' k c' m E Ek Ec' Hm Hlt. rewrite Eo in Ek. destruct (quiet_buffer _ _ _ _ _ Hq E) as (b & Eb & (Eq & _)).
    destruct (quiet_consumer _ _ _ _ _ Hq Ec') as (c & Ec & (Hp & Ht & _)). rewrite Eq in Hm. rewrite Hp.
    apply Ht. by eapply so_future.
  - intros a b' k l E Ek El. rewrite Eo in Ek. rewrite Ep in El.
    destruct (quiet_buffer _ _ _ _ _ Hq E) as (b & Eb & (_ & _ & _ & Ew & _)). rewrite Ew. by eapply so_vnet.
  - rewrite (quiet_load _ _ _ Hq). apply Hs.
Qed.

Lemma quiet_counts now st st' : quiet now st st' → counts_ok st → counts_ok st'.
Proof.
  intros Hq Hc k l v n El En. pose proof Hq as (_ & Ep & _). rewrite Ep in El.
  rewrite (quiet_waiting _ _ _ _ _ Hq). by eapply Hc.
Qed.

(** *** Queries *)

Lemma consumer_quiet now st k c c' : store_ok now st → consumers st !! k = Some c → asked_more now c c' →
  quiet now st (put_consumer st k c').
Proof.
  intros Hs Ec Ha. pose proof (quiet_refl now st Hs) as (_ & _ & Hb & Hc). split_and!; [done..|]. simpl. intros k'.
  destruct (decide (k = k')) as [<-|?]; [rewrite lookup_insert_eq, Ec; by constructor|by rewrite lookup_insert_ne].
Qed.

Lemma put_quiet now st a b b' : store_ok now st → buffers st !! a = Some b → alike b b' → quiet now st (put st a b').
Proof.
  intros Hs Eb Ha. pose proof (quiet_refl now st Hs) as (_ & _ & Hb & Hc). split_and!; [done..| |done]. simpl. intros a'.
  destruct (decide (a = a')) as [<-|?]; [rewrite lookup_insert_eq, Eb; by constructor|by rewrite lookup_insert_ne].
Qed.

Lemma consumer_lookup st a k c : consumer_of st !! a = Some k → consumers st !! k = Some c → consumer st a = c.
Proof. intros Ek Ec. unfold consumer. rewrite Ek. simpl. by rewrite Ec. Qed.

Lemma deref_Some st a b : buffers st !! a = Some b → deref st (Some a) = Ok (a, b).
Proof. intros E. unfold deref. simpl. by rewrite E. Qed.

(** A message that is due has its consumer woken soon. *)
Definition alert now st a : Prop :=
  ∀ b k c m, buffers st !! a = Some b → consumer_of st !! a = Some k → consumers st !! k = Some c →
    m ∈ heap_of b → m_LastEnqueueTime m ≤ now →
    ∃ t, t ∈ Consumer.m_wakeup_ticks c ∧ t ≤ align (period c) now + period c.

Lemma alert_quiet now st st' a : quiet now st st' → alert now st a → alert now st' a.
Proof.
  intros Hq Ha b' k c' m Eb Ek Ec Hm Ht. pose proof Hq as (Eo & _). rewrite Eo in Ek.
  destruct (quiet_buffer _ _ _ _ _ Hq Eb) as (b & Eb0 & (Eq & _)).
  destruct (quiet_consumer _ _ _ _ _ Hq Ec) as (c & Ec0 & (Hp & Hin & _)). rewrite Eq in Hm.
  destruct (Ha b k c m) as (t & ? & ?); [done..|]. exists t. rewrite Hp. auto.
Qed.

Lemma isReady_store now st a b : store_ok now st → buffers st !! a = Some b →
  ∃ r st', Store.isReady now st (Some a) now = Ok (r, st') ∧ quiet now st st' ∧ buffers st' = buffers st ∧
    (r = true → st' = st ∧ can_dequeue now b) ∧ (r = false → alert now st' a ∧ ¬ can_dequeue now b).
Proof.
  intros Hs Eb. destruct (so_consumer _ _ Hs a b Eb) as (k & c & Ek & Ec). destruct (so_asked _ _ Hs k c Ec) as [Hc Hov].
  unfold Store.isReady. rewrite (deref_Some st a b Eb). cbn [rbind]. rewrite (consumer_lookup st a k c Ek Ec).
  destruct (isReady_ok now c b (so_buf _ _ Hs a b Eb) Hc Hov) as (r & c' & E & Ha & Ht & Hf). rewrite E. cbn [rbind].
  exists r, (woken st a c'). unfold woken. rewrite Ek. split; [done|]. split; [by eapply consumer_quiet|].
  split; [done|]. split.
  - intros Er. destruct (Ht Er) as [-> ?]. split; [|done]. unfold put_consumer. rewrite insert_id by done. by destruct st.
  - intros Er. split; [|intros Hcan; rewrite (isReady_ready now c b Hcan) in E; congruence].
    intros b' k' c1 m Eb' Ek' Ec' Hm Hle. simpl in *. simplify_eq. rewrite lookup_insert_eq in Ec'. injection Ec' as <-.
    destruct Ha as (Hp & _). rewrite Hp. eexists. split; [by eapply Hf|lia].
Qed.

Lemma slots_store now st a b : store_ok now st → buffers st !! a = Some b →
  ∃ r st', Store.areNSlotsAvailable st (Some a) 1 now = Ok (r, st') ∧ quiet now st st' ∧ (r = true ↔ has_room now b).
Proof.
  intros Hs Eb. unfold Store.areNSlotsAvailable. rewrite (deref_Some st a b Eb). cbn [rbind].
  pose proof (slots_alike now 1 b) as Ha. unfold has_room. destruct (MessageBuffer.areNSlotsAvailable b 1 now) as [r b'].
  exists r, (put st a b'). split; [done|]. split; [by eapply put_quiet|done].
Qed.

Lemma sizes_quiet now st st' : store_ok now st → sizes_only st st' → quiet now st st'.
Proof.
  intros Hs (Eo & Ec & Ep & _ & Hb). split_and!; [done..| |].
  - intros a. destruct (Hb a); constructor. by apply size_checked_alike.
  - intros k. rewrite Ec. destruct (consumers st !! k) eqn:E; constructor. apply asked_more_refl. by eapply so_asked.
Qed.

Lemma clockEdge_store now st k c : store_ok now st → consumers st !! k = Some c → (period c | now) →
  ∃ st', Store.clockEdge now st k = Ok (now, st') ∧ quiet now st st' ∧ buffers st' = buffers st.
Proof.
  intros Hs Ec Hdiv. destruct (so_asked _ _ Hs k c Ec) as [Hc Hov]. unfold Store.clockEdge. rewrite Ec. cbn [of_option rbind].
  pose proof Hc as ((Hpos & _) & _).
  destruct (edge_spec now 0 c Hc) as (e & -> & He & Hp & Ht); [lia|lia|]. cbn [rbind].
  assert (align (period c) now = now) as ->.
  { destruct Hdiv as [q ->]. symmetry. apply align_unique; [done|nia]. }
  rewrite Z.mul_0_r, Z.add_0_r. eexists. split; [done|]. split; [|done]. eapply consumer_quiet; [done..|].
  assert (Clocking.pending now (Consumer.mk (Consumer.m_wakeup_ticks c) (Consumer.m_wakeup_event c) e)) as Hpend.
  { destruct Hc as (_ & ? & ? & _ & ? & ? & ?). unfold Clocking.pending. simpl. rewrite Hp. by split_and!. }
  split_and!; [done|done|done|]. intros [_ ?]. by split.
Qed.

Lemma schedule_store now st k c : store_ok now st → consumers st !! k = Some c →
  ∃ st' c', Store.scheduleEvent now st k 1 = Ok st' ∧ quiet now st st' ∧ buffers st' = buffers st ∧
    consumers st' !! k = Some c' ∧ align (period c) now + period c ∈ Consumer.m_wakeup_ticks c'.
Proof.
  intros Hs Ec. destruct (so_asked _ _ Hs k c Ec) as [Hc Hov]. unfold Store.scheduleEvent. rewrite Ec. cbn [of_option rbind].
  destruct (request_cycles_spec now 1 c Hc) as (c' & -> & Ha & Hp & Hx); [lia|lia|]. cbn [rbind].
  eexists _, c'. split; [done|]. split; [|split; [done|split; [apply lookup_insert_eq|apply Hx; left; lia]]].
  eapply consumer_quiet; [done..|]. split_and!; [done| |apply Ha|done]. intros t Ht. apply Hx. by right.
Qed.

(** *** Sending *)

(** The consumers stay connected, and at most are asked for more wake-ups. *)
Definition same_wiring now st st' : Prop :=
  consumer_of st' = consumer_of st ∧
  (∀ k, option_Forall2 (λ l l' : list Z, length l' = length l) (Store.pending st !! k) (Store.pending st' !! k)) ∧
  (∀ k, option_Forall2 (asked_more now) (consumers st !! k) (consumers st' !! k)).

Lemma quiet_wiring now st st' : quiet now st st' → same_wiring now st st'.
Proof. intros (? & Ep & _ & ?). split_and!; [done| |done]. intros k. rewrite Ep. by destruct (Store.pending st !! k); constructor. Qed.

Lemma same_wiring_trans now st st1 st2 : same_wiring now st st1 → same_wiring now st1 st2 → same_wiring now st st2.
Proof.
  intros (? & Hp & Hc) (? & Hp' & Hc'). split_and!; [congruence| |]; intros k.
  - specialize (Hp k). specialize (Hp' k). destruct Hp; inv Hp'; constructor. congruence.
  - specialize (Hc k). specialize (Hc' k). destruct Hc; inv Hc'; constructor. by eapply asked_more_trans.
Qed.

Lemma wiring_consumer now st st' k c : same_wiring now st st' → consumers st !! k = Some c →
  ∃ c', consumers st' !! k = Some c' ∧ asked_more now c c'.
Proof. intros (_ & _ & Hc) E. specialize (Hc k). rewrite E in Hc. inv Hc. eauto. Qed.

Lemma wiring_consumer_2 now st st' k c' : same_wiring now st st' → consumers st' !! k = Some c' →
  ∃ c, consumers st !! k = Some c ∧ asked_more now c c'.
Proof. intros (_ & _ & Hc) E. specialize (Hc k). rewrite E in Hc. inv Hc. eauto. Qed.

Lemma wiring_pending now st st' k l' : same_wiring now st st' → Store.pending st' !! k = Some l' →
  ∃ l, Store.pending st !! k = Some l ∧ length l' = length l.
Proof. intros (_ & Hp & _) E. specialize (Hp k). rewrite E in Hp. inv Hp. eauto. Qed.

Lemma weights_perm ms ms' : ms ≡ₚ ms' → weights ms = weights ms'.
Proof. intros E. apply (foldr_permutation eq (λ m n, weight m + n) 0); [intros; lia|done]. Qed.

Lemma weight_pos m : 1 ≤ weight m.
Proof. unfold weight. lia. Qed.

Lemma weights_length ms : zlen ms ≤ weights ms.
Proof. induction ms as [|m ms IH]; simpl; [lia|]. pose proof (weight_pos m). lia. Qed.

Lemma load_nonneg st : 0 ≤ load st.
Proof. apply msum_nonneg. intros a b _. pose proof (weights_length (heap_of b)). lia. Qed.

Lemma waiting_bounds st k v : 0 ≤ waiting st k v ≤ load st.
Proof.
  unfold waiting, load, waits_for. split.
  - apply msum_nonneg. intros a b _. case_match; lia.
  - apply msum_le. intros a b _. pose proof (weights_length (heap_of b)). case_match; lia.
Qed.

Lemma bound_cons x b b' m : heap_of b' ≡ₚ m :: heap_of b →
  bound x b' ≡ₚ (if decide (x ∈ goes_to m) then [body (payload m)] else []) ++ bound x b.
Proof. intros E. unfold bound. rewrite E, filter_cons. by case_decide. Qed.

(** A buffer gets a message for its consumer: the store but for the counts. *)
Lemma put_ok now st a b b' k c c' m rng' : store_ok now st → buffers st !! a = Some b → consumer_of st !! a = Some k →
  consumers st !! k = Some c → asked_more now c c' → buf_ok now b' → wires b' = wires b → heap_of b' ≡ₚ m :: heap_of b →
  valid rs (getDestination (payload m)) → load st + weight m < 2 ^ 30 →
  (now < m_LastEnqueueTime m → align (period c) (m_LastEnqueueTime m) ∈ Consumer.m_wakeup_ticks c') →
  let st' := Store.mk (<[a := b']> (buffers st)) (consumer_of st) (<[k := c']> (consumers st)) (Store.pending st) rng' in
  store_ok now st' ∧ same_wiring now st st' ∧ load st' = load st + weight m ∧
  ∀ k' v, waiting st' k' v = waiting st k' v + (if decide (k' = k ∧ m_vnet_id (wires b) = v) then 1 else 0).
Proof.
  intros Hs Eb Ek Ec Ha Hb' Ew Hh Hv Hl Hfut st'.
  assert (load st' = load st + weight m) as El.
  { unfold load. simpl. rewrite (msum_put _ _ a b b' Eb), (weights_perm _ _ Hh). simpl. lia. }
  assert (same_wiring now st st') as Hw.
  { split_and!; [done| |]; intros k'; simpl; [by destruct (Store.pending st !! k'); constructor|].
    destruct (consumer_quiet now st k c c' Hs Ec Ha) as (_ & _ & _ & Hq). apply Hq. }
  split; [|split; [done|split; [done|]]].
  - split.
    + intros a' b1. simpl. intros [[<- <-]|[? E]]%lookup_insert_Some; [done|by eapply so_buf].
    + intros a' b1 m1. simpl. intros [[<- <-]|[? E]]%lookup_insert_Some Hm; [|by eapply so_valid].
      rewrite Hh in Hm. apply elem_of_cons in Hm as [->|Hm]; [done|by eapply so_valid].
    + intros a' b1 E. assert (∃ b0, buffers st !! a' = Some b0) as [b0 E0].
      { simpl in E. apply lookup_insert_Some in E as [[<- <-]|[? E]]; eauto. }
      destruct (so_consumer _ _ Hs a' b0 E0) as (k1 & c1 & ? & E1). exists k1.
      destruct (wiring_consumer _ _ _ _ _ Hw E1) as (c2 & ? & _). by exists c2.
    + intros k1 c1 E. destruct (wiring_consumer_2 _ _ _ _ _ Hw E) as (c0 & E0 & (Hp & _ & ? & _)).
      split; [done|]. rewrite Hp. by apply (so_asked _ _ Hs k1 c0 E0).
    + intros a' b1 k1 c1 m1 E E1 E2 Hm Hlt. destruct (wiring_consumer_2 _ _ _ _ _ Hw E2) as (c0 & E0 & (Hp & Hin & _)).
      simpl in E. apply lookup_insert_Some in E as [[<- <-]|[? E]]; [|rewrite Hp; apply Hin; by eapply so_future].
      rewrite Hh in Hm. simpl in E1. simplify_eq. simpl in E2. rewrite lookup_insert_eq in E2. injection E2 as <-.
      apply elem_of_cons in Hm as [->|Hm]; rewrite Hp; [by apply Hfut|apply Hin; by eapply so_future].
    + intros a' b1 k1 l E E1 E2. simpl in *. apply lookup_insert_Some in E as [[<- <-]|[? E]]; [rewrite Ew|]; by eapply so_vnet.
    + lia.
  - intros k' v. unfold waiting. simpl. rewrite (msum_put _ _ a b b' Eb).
    assert (zlen (heap_of b') = zlen (heap_of b) + 1) as Hlen by (rewrite Hh; simpl; lia).
    change (waits_for st' k' v) with (waits_for st k' v). unfold waits_for at 2 3. rewrite Ek, Ew, Hlen.
    destruct (decide (k' = k ∧ m_vnet_id (wires b) = v)) as [[-> ->]|Hn]; [rewrite bool_decide_true, Z.eqb_refl by done; simpl; lia|].
    destruct (bool_decide_reflect (Some k = Some k')), (Z.eqb_spec (m_vnet_id (wires b)) v); simpl; try lia. naive_solver.
Qed.

(** Only the counts of a consumer change. *)
Lemma pending_ok now st k l l' : store_ok now st → Store.pending st !! k = Some l → length l' = length l →
  store_ok now (put_pending st k l') ∧ same_wiring now st (put_pending st k l').
Proof.
  intros Hs El Hlen. split.
  - destruct Hs. split; try done. intros a b k1 l1 Eb Ek El1. simpl in *.
    apply lookup_insert_Some in El1 as [[<- <-]|[? ?]]; [rewrite Hlen|]; by eapply so_vnet0.
  - destruct (quiet_refl now st Hs) as (_ & _ & _ & Hc). split_and!; [done| |done]. intros k1. simpl.
    destruct (decide (k = k1)) as [<-|?]; [rewrite lookup_insert_eq, El; by constructor|].
    rewrite lookup_insert_ne by done. by destruct (Store.pending st !! k1); constructor.
Qed.

(** One count is changed together with the messages it counts. *)
Lemma put_counts st st0 k l v (n n' : Z) : Store.pending st !! k = Some l → l !! Z.to_nat v = Some n → 0 ≤ v →
  (∀ k1 l1 v1 n1, Store.pending st !! k1 = Some l1 → l1 !! v1 = Some n1 →
     waiting st k1 (Z.of_nat v1) = n1 + (if decide (k1 = k ∧ v = Z.of_nat v1) then n' - n else 0)) →
  st0 = put_pending st k (<[Z.to_nat v := n']> l) → counts_ok st0.
Proof.
  intros El En Hv Hw -> k1 l1 v1 n1 El1 En1. simpl in El1.
  change (waiting (put_pending st k (<[Z.to_nat v := n']> l)) k1 (Z.of_nat v1)) with (waiting st k1 (Z.of_nat v1)).
  apply lookup_insert_Some in El1 as [[<- <-]|[Hne El1]].
  - destruct (decide (Z.to_nat v = v1)) as [<-|Hne].
    + rewrite list_lookup_insert_eq in En1 by (by eapply lookup_lt_Some). injection En1 as <-.
      rewrite (Hw k l (Z.to_nat v) n El En), decide_True by (split; [done|lia]). lia.
    + rewrite list_lookup_insert_ne in En1 by done. rewrite (Hw k l v1 n1 El En1), decide_False by lia. lia.
  - rewrite (Hw k1 l1 v1 n1 El1 En1), decide_False by naive_solver. lia.
Qed.

Lemma storeEventInfo_store now st a b k v : store_ok now st → buffers st !! a = Some b → consumer_of st !! a = Some k →
  m_vnet_id (wires b) = v →
  (∀ k1 l1 v1 n1, Store.pending st !! k1 = Some l1 → l1 !! v1 = Some n1 →
     waiting st k1 (Z.of_nat v1) = n1 + (if decide (k1 = k ∧ v = Z.of_nat v1) then 1 else 0)) →
  ∃ st', storeEventInfo st a v = Ok st' ∧ store_ok now st' ∧ counts_ok st' ∧ same_wiring now st st' ∧
    buffers st' = buffers st ∧ consumers st' = consumers st.
Proof.
  intros Hs Eb Ek Ev Hw. unfold storeEventInfo. rewrite Ek. destruct (Store.pending st !! k) as [l|] eqn:El; cycle 1.
  { exists st. split; [done|]. split; [done|]. split; [|split; [by apply quiet_wiring, quiet_refl|done]].
    intros k1 l1 v1 n1 El1 En1. rewrite (Hw _ _ _ _ El1 En1), decide_False by naive_solver. lia. }
  pose proof (so_vnet _ _ Hs a b k l Eb Ek El) as Hv. rewrite Ev in Hv.
  destruct (vget_inbounds l v Hv) as (n & -> & En). cbn [rbind].
  assert (waiting st k v = n + 1) as Hn.
  { pose proof (Hw k l (Z.to_nat v) n El En) as Hw'. rewrite Z2Nat.id, decide_True in Hw' by (done || lia). done. }
  pose proof (waiting_bounds st k v). pose proof (so_load _ _ Hs). rewrite chk_i32_Ok by lia. cbn [rbind].
  rewrite vset_inbounds by done. cbn [rbind]. eexists. split; [done|].
  destruct (pending_ok now st k l (<[Z.to_nat v := n + 1]> l) Hs El) as [Hok Hwi]; [by rewrite length_insert|].
  split; [done|]. split; [|by split].
  eapply (put_counts st _ k l v n (n + 1)); [done|done|lia| |done].
  intros k1 l1 v1 n1 El1 En1. rewrite (Hw _ _ _ _ El1 En1). case_decide; lia.
Qed.

Lemma enqueue_store now st a b k c m delta random warmup : store_ok now st → counts_ok st →
  buffers st !! a = Some b → consumer_of st !! a = Some k → consumers st !! k = Some c →
  port_ok now delta random b → has_room now b → m_LastEnqueueTime m ≤ now → now + delta + 2 * period c < 2 ^ 64 →
  valid rs (getDestination (payload m)) → load st + weight m < 2 ^ 30 →
  ∃ st' c', Store.enqueue now st (Some a) m now delta random warmup = Ok st' ∧
    store_ok now st' ∧ counts_ok st' ∧ same_wiring now st st' ∧
    buffers st' = <[a := received now delta warmup b m]> (buffers st) ∧ load st' = load st + weight m ∧
    consumers st' !! k = Some c' ∧ align (period c) (now + delta) ∈ Consumer.m_wakeup_ticks c'.
Proof.
  intros Hs Hcnt Eb Ek Ec Hport Hroom Hm Hov Hv Hl. destruct (so_asked _ _ Hs k c Ec) as [Hc _].
  unfold Store.enqueue. rewrite (deref_Some st a b Eb). cbn [rbind]. rewrite (consumer_lookup st a k c Ek Ec).
  pose proof (so_buf _ _ Hs a b Eb) as Hb.
  destruct (enqueue_runs now c (Store.rng st 0%nat) b m delta random warmup Hb Hport Hroom Hm Hc Hov) as (c' & -> & Ha & Ht).
  cbn [rbind]. destruct (received_ok now delta random warmup b m Hb Hport Hroom) as (Hb' & _ & Hh).
  set (b' := received now delta warmup b m) in *.
  unfold woken. simpl consumer_of. rewrite Ek.
  destruct (put_ok now st a b b' k c c' (sent now delta b m) (λ i, Store.rng st (S i)) Hs Eb Ek Ec Ha Hb' eq_refl Hh Hv Hl)
    as (Hs1 & Hw1 & Hl1 & Hwait); [by intros _|].
  set (st1 := Store.mk _ _ _ _ _) in *.
  change (put_consumer (drawn (put st a b')) k c') with st1.
  destruct (storeEventInfo_store now st1 a b' k (m_vnet_id (wires b')) Hs1) as (st' & -> & Hs' & Hc' & Hw' & Eb' & Ec').
  { apply lookup_insert_eq. } { done. } { done. }
  { intros k1 l1 v1 n1 El1 En1. rewrite Hwait, (Hcnt k1 l1 v1 n1 El1 En1). do 2 case_decide; naive_solver. }
  exists st', c'. split; [done|]. split; [done|]. split; [done|]. split; [by eapply same_wiring_trans|].
  split; [done|]. split; [unfold load in *; by rewrite Eb'|]. rewrite Ec'. split; [apply lookup_insert_eq|done].
Qed.

(** A message for a consumer that is asked to wake up for it. *)
Lemma alert_sent now st st' a b k c c' m delta warmup a' : store_ok now st → 0 ≤ delta → buffers st !! a = Some b →
  consumer_of st !! a = Some k → consumers st !! k = Some c → heap_of (received now delta warmup b m) ≡ₚ sent now delta b m :: heap_of b →
  same_wiring now st st' → buffers st' = <[a := received now delta warmup b m]> (buffers st) →
  consumers st' !! k = Some c' → align (period c) (now + delta) ∈ Consumer.m_wakeup_ticks c' →
  alert now st a' → alert now st' a'.
Proof.
  intros Hs Hd Eb Ek Ec Hh Hw Eb' Ec' Ht Ha b1 k1 c1 m1 Eb1 Ek1 Ec1 Hm1 Hle. pose proof Hw as (Eo & _). rewrite Eo in Ek1.
  destruct (wiring_consumer_2 _ _ _ _ _ Hw Ec1) as (c0 & Ec0 & (Hp & Hin & _)). rewrite Eb' in Eb1.
  assert (∀ b0, buffers st !! a' = Some b0 → m1 ∈ heap_of b0 →
    ∃ t, t ∈ Consumer.m_wakeup_ticks c1 ∧ t ≤ align (period c1) now + period c1) as Hold.
  { intros b0 Eb0 Hm0. destruct (Ha b0 k1 c0 m1) as (t & ? & ?); [done..|]. exists t. rewrite Hp. auto. }
  apply lookup_insert_Some in Eb1 as [[<- <-]|[? Eb1]]; [|by eapply Hold].
  rewrite Hh in Hm1. apply elem_of_cons in Hm1 as [->|Hm1]; [|by eapply Hold].
  simplify_eq. rewrite Hp. simpl in Hle. exists (align (period c) (now + delta)). split; [done|].
  destruct (so_asked _ _ Hs _ _ Ec) as [((? & _) & _) _]. replace (now + delta) with now by lia. lia.
Qed.

(** *** Taking *)

Lemma dequeue_store now st a b : store_ok now st → buffers st !! a = Some b → can_dequeue now b →
  ∃ m h m' st' b', heap_of b = m :: h ∧ Store.dequeue now st (Some a) now = Ok (m', st') ∧
    payload m' = payload m ∧ m_LastEnqueueTime m' ≤ now ∧ m_LastEnqueueTime m ≤ now ∧ store_ok now st' ∧
    buffers st' = <[a := b']> (buffers st) ∧ heap_of b' ≡ₚ h ∧ cfg b' = cfg b ∧ wires b' = wires b ∧ ord b' = ord b ∧
    consumer_of st' = consumer_of st ∧ consumers st' = consumers st ∧ Store.pending st' = Store.pending st ∧
    load st' = load st - weight m ∧
    (∀ k v, waiting st' k v = waiting st k v -
       (if decide (consumer_of st !! a = Some k ∧ m_vnet_id (wires b) = v) then 1 else 0)).
Proof.
  intros Hs Eb Hcan. destruct (so_consumer _ _ Hs a b Eb) as (k & c & Ek & Ec). pose proof (so_buf _ _ Hs a b Eb) as Hb.
  unfold Store.dequeue. rewrite (deref_Some st a b Eb). cbn [rbind]. rewrite (consumer_lookup st a k c Ek Ec).
  destruct (dequeue_runs now c b Hb Hcan) as (m & h & m' & cb & b' & Eh & -> & Hpl & HL & Hle & Hh & Hb' & Ecf & Ew & Eo).
  cbn [rbind]. exists m, h, m', (put st a b'), b'. split; [done|].
  assert (woken (put st a b') a c = put st a b') as ->.
  { unfold woken. simpl. rewrite Ek. unfold put_consumer, put. simpl. by rewrite (insert_id (consumers st) k c Ec). }
  split; [done|]. split; [done|]. split; [lia|]. split; [done|].
  assert (load (put st a b') = load st - weight m) as Hl.
  { unfold load. simpl. rewrite (msum_put _ _ a b b' Eb), (weights_perm _ _ Hh), Eh. simpl. lia. }
  assert (∀ m1, m1 ∈ heap_of b' → m1 ∈ heap_of b) as Hsub by (intros m1; rewrite Hh, Eh; apply list_elem_of_further).
  split.
  { split; simpl; try apply Hs.
    - intros a' b1 [[<- <-]|[? E]]%lookup_insert_Some; [done|by apply (so_buf _ _ Hs a' b1)].
    - intros a' b1 m1 [[<- <-]|[? E]]%lookup_insert_Some Hm; eapply so_valid; eauto.
    - intros a' b1 [[<- <-]|[? E]]%lookup_insert_Some; [by apply (so_consumer _ _ Hs a b)|by eapply so_consumer].
    - intros a' b1 k1 c1 m1 [[<- <-]|[? E]]%lookup_insert_Some; intros; eapply so_future; eauto.
    - intros a' b1 k1 l [[<- <-]|[? E]]%lookup_insert_Some; [rewrite Ew; by apply (so_vnet _ _ Hs a b)|by eapply so_vnet].
    - rewrite Hl. pose proof (so_load _ _ Hs). pose proof (weight_pos m). lia. }
  do 8 (split; [done|]). split; [done|]. intros k1 v. unfold waiting. simpl. rewrite (msum_put _ _ a b b' Eb).
  change (waits_for (put st a b') k1 v) with (waits_for st k1 v). unfold waits_for at 2 3. rewrite Ew, Hh, Eh.
  destruct (decide (consumer_of st !! a = Some k1 ∧ m_vnet_id (wires b) = v)) as [[E1 E2]|Hn].
  - rewrite E1, E2, bool_decide_true, Z.eqb_refl by done. simpl. lia.
  - destruct (bool_decide_reflect (consumer_of st !! a = Some k1)), (Z.eqb_spec (m_vnet_id (wires b)) v); simpl; try lia. naive_solver.
Qed.

End Stores.

(** ** Three buffers *)

Section ThreeBuffers.
Import Tiny.

#[export] Instance tiny_message_laws : NetMessageLaws (R := unit) (A := payload) snd.
Proof. by constructor. Qed.

Lemma idle_pending : Clocking.pending 0 idle.
Proof. split_and!; simpl; try lia; try done; constructor. Qed.

Lemma holding_ok ms : is_heap Message.gt ms → buf_ok 0 (holding ms).
Proof. intros Hh. split; simpl; try done; lia. Qed.

(** The buffers and consumers of the store. *)
Lemma tiny_buffers p a b : Store.buffers (store p) !! a = Some b →
  a = 0%nat ∧ b = holding [both 7] ∨ (a = 1%nat ∨ a = 2%nat) ∧ b = holding [].
Proof.
  simpl. intros [[<- <-]|[_ [[<- <-]|[_ [<- <-]%lookup_singleton_Some]]%lookup_insert_Some]]%lookup_insert_Some; auto.
Qed.

Lemma tiny_consumers p k c : Store.consumers (store p) !! k = Some c → c = idle.
Proof.
  simpl. by intros [[<- <-]|[_ [[<- <-]|[_ [<- <-]%lookup_singleton_Some]]%lookup_insert_Some]]%lookup_insert_Some.
Qed.

Lemma tiny_store_ok p : (∀ k l, p !! k = Some l → 0 < zlen l) → store_ok 64 () 0 (store p).
Proof.
  intros Hp. split.
  - intros a b [[-> ->]|[_ ->]]%tiny_buffers; apply holding_ok.
    + intros [|i] x y Hi _ E; [lia|done].
    + apply is_heap_nil.
  - intros a b m [[-> ->]|[_ ->]]%tiny_buffers; simpl; [intros ->%list_elem_of_singleton; apply dest_valid|].
    intros Hm. by apply not_elem_of_nil in Hm.
  - intros a b [[-> ->]|[[->| ->] ->]]%tiny_buffers; eexists _, idle; by split.
  - intros k c ->%tiny_consumers. split; [apply idle_pending|simpl; lia].
  - intros a b k c m [[-> ->]|[_ ->]]%tiny_buffers _ _; simpl; [intros ->%list_elem_of_singleton; simpl; lia|].
    intros Hm. by apply not_elem_of_nil in Hm.
  - intros a b k l [[-> ->]|[_ ->]]%tiny_buffers _ ?%Hp; simpl; lia.
  - by vm_compute.
Qed.

End ThreeBuffers.
