(* ===== verification/DeviceSpec.v ===== *)
(** What a device of a network, which takes messages from the buffers that it
    consumes and sends them to others, does to the buffers and consumers. *)

From stdpp Require Import prelude list gmap sorting.
From Stdlib Require Import ZArith Lia.
From S2P Require Import Prelude Replacement NetDest NetDestSpec Heap Clocking MessageBuffer MessageBufferSpec Routing RoutingSpec StoreSpec.

Open Scope Z_scope.

Section Device.
Import Message MessageBuffer Store.
Context (N : Z) {R A B : Type} `{MachineTypes R} (rs : R) `{!MachineLaws N rs}.
Context `{NetMessage R A} (body : A → B) `{!NetMessageLaws body} `{HeapLaws (Message.t A)}.
Implicit Types (st : Store.t A) (b : MessageBuffer.t A) (m : Message.t A) (now lat : Z) (c : Consumer.t).
Implicit Types (a k : nat) (x : MachineID.t).

Abbreviation store_ok := (store_ok N rs).
Abbreviation flight := (flight N body).
Abbreviation load := (load N).
Abbreviation goes_to := (goes_to N).
Abbreviation weight := (weight N).

(** The device [self] with its outputs and their latencies. *)
Context (self : nat) (outs : nat → Z → Prop) (rnd : bool).

(** The buffers change, but keep their wiring, and an output stays one that may be
    sent to. *)
Definition evolves now st st' : Prop :=
  ∀ a, option_Forall2 (λ b b', wires b' = wires b ∧ cfg b' = cfg b ∧
    ∀ lat, outs a lat → port_ok now lat rnd b → port_ok now lat rnd b') (buffers st !! a) (buffers st' !! a).

Lemma evolves_refl now st : evolves now st st.
Proof. intros a. destruct (buffers st !! a); constructor. done. Qed.

Lemma evolves_trans now st st1 st2 : evolves now st st1 → evolves now st1 st2 → evolves now st st2.
Proof.
  intros H1' H2' a. specialize (H1' a). specialize (H2' a). destruct H1' as [b b1 (? & ? & Hp)|]; inv H2' as [? b2 (? & ? & Hp')|]; constructor.
  split; [congruence|]. split; [congruence|]. intros lat E Ho. eapply Hp'; [done|]. by eapply Hp.
Qed.

Lemma quiet_evolves now st st' : quiet now st st' → evolves now st st'.
Proof.
  intros (_ & _ & Hb & _) a. destruct (Hb a) as [b b' Ha|]; constructor. pose proof Ha as (_ & _ & ? & ? & _).
  split; [done|]. split; [done|]. intros. by eapply port_ok_alike.
Qed.

(** The messages at the inputs are at most taken. *)
Definition taken st st' : Prop :=
  ∀ a b b', consumer_of st !! a = Some self → buffers st !! a = Some b → buffers st' !! a = Some b' →
    ∀ m, m ∈ heap_of b' → m ∈ heap_of b.

(** What the handlers of a switch do to its surroundings. *)
Definition moved now st st' : Prop :=
  same_wiring now st st' ∧ evolves now st st' ∧ taken st st' ∧ (∀ a, alert now st a → alert now st' a).

Lemma moved_trans now st st1 st2 : moved now st st1 → moved now st1 st2 → moved now st st2.
Proof.
  intros (Hw & He & Ht & Ha) (Hw' & He' & Ht' & Ha').
  split; [by eapply same_wiring_trans|]. split; [by eapply evolves_trans|]. split; [|auto].
  intros a b b2 Ek Eb Eb2 m Hm. pose proof (He a) as Hea. rewrite Eb in Hea. inv Hea as [? b1 _ Eb1|].
  eapply Ht; [done..|]. eapply Ht'; [|done..|done]. by destruct Hw as (-> & _).
Qed.

Lemma quiet_moved now st st' : quiet now st st' → moved now st st'.
Proof.
  intros Hq. split; [by apply quiet_wiring|]. split; [by apply quiet_evolves|]. split; [|intros a; by eapply alert_quiet].
  intros a b b' _ Eb Eb' m. destruct (quiet_buffer _ _ _ _ _ Hq Eb') as (b0 & E0 & (-> & _)). by simplify_eq.
Qed.

(** No message is lost or doubled, either. *)
Definition handled now st st' : Prop :=
  moved now st st' ∧ (∀ x, flight x st' ≡ₚ flight x st) ∧ load st' ≤ load st.

Lemma handled_trans now st st1 st2 : handled now st st1 → handled now st1 st2 → handled now st st2.
Proof.
  intros (? & Hf & ?) (? & Hf' & ?). split; [by eapply moved_trans|]. split; [|lia]. intros x. by rewrite Hf'.
Qed.

Lemma quiet_handled now st st' : quiet now st st' → handled now st st'.
Proof.
  intros Hq. split; [by apply quiet_moved|]. split; [intros x; by eapply quiet_flight|]. by rewrite (quiet_load _ _ _ _ Hq).
Qed.

(** A buffer of which messages are taken. *)
Lemma shrink_moved now st st' a b b' : same_wiring now st st' → buffers st !! a = Some b →
  buffers st' = <[a := b']> (buffers st) → cfg b' = cfg b → wires b' = wires b → ord b' = ord b →
  (∀ m, m ∈ heap_of b' → m ∈ heap_of b) → moved now st st'.
Proof.
  intros Hw Eb Eb' Ec Ew Eo Hm. split; [done|]. pose proof Hw as (Ek & _ & _).
  assert (∀ a1 b1, buffers st' !! a1 = Some b1 → ∃ b0, buffers st !! a1 = Some b0 ∧ ∀ m, m ∈ heap_of b1 → m ∈ heap_of b0) as Hsub.
  { intros a1 b1. rewrite Eb'. intros [[<- <-]|[? E]]%lookup_insert_Some; eauto. }
  split; [|split].
  - intros a1. rewrite Eb'. destruct (decide (a = a1)) as [<-|?]; [|rewrite lookup_insert_ne by done; apply evolves_refl].
    rewrite lookup_insert_eq, Eb. constructor. split; [done|]. split; [done|]. intros lat _. unfold port_ok. by rewrite Ec, Eo.
  - intros a1 b1 b2 _ Eb1 Eb2. destruct (Hsub a1 b2 Eb2) as (b0 & E0 & ?). by simplify_eq.
  - intros a1 Ha b1 k c m Eb1 Ek1 Ec1 Hm1 Hle. destruct (Hsub a1 b1 Eb1) as (b0 & E0 & Hin). rewrite Ek in Ek1.
    destruct (wiring_consumer_2 _ _ _ _ _ Hw Ec1) as (c0 & Ec0 & (Hp & Ht & _)).
    destruct (Ha b0 k c0 m) as (t & ? & ?); [auto..|]. exists t. rewrite Hp. auto.
Qed.

(** A message is sent. *)
Lemma send_moved now st a b k c m lat warmup : store_ok now st → counts_ok st → buffers st !! a = Some b →
  consumer_of st !! a = Some k → k ≠ self → consumers st !! k = Some c → port_ok now lat rnd b → has_room now b →
  (∀ lat', outs a lat' → lat' = lat) → m_LastEnqueueTime m ≤ now → now + lat + 2 * period c < 2 ^ 64 →
  valid rs (getDestination (payload m)) → load st + weight m < 2 ^ 30 →
  ∃ st', Store.enqueue now st (Some a) m now lat rnd warmup = Ok st' ∧ store_ok now st' ∧ counts_ok st' ∧ moved now st st' ∧
    buffers st' = <[a := received now lat warmup b m]> (buffers st) ∧ load st' = load st + weight m ∧
    ∀ x, flight x st' ≡ₚ (if decide (x ∈ goes_to m) then [body (payload m)] else []) ++ flight x st.
Proof.
  intros Hs Hcnt Eb Ek Hne Ec Hport Hrm Hlat Hm Hov Hd Hl.
  destruct (enqueue_store N rs now st a b k c m lat rnd warmup Hs Hcnt Eb Ek Ec Hport Hrm Hm Hov)
    as (st' & c' & E & Hs' & Hcnt' & Hw & Eb' & Hl' & Ec' & Ht); [done|lia|].
  destruct (received_ok now lat rnd warmup b m (so_buf _ _ _ _ Hs a b Eb) Hport Hrm) as (_ & Hport' & Hh).
  exists st'. do 3 (split; [done|]). split; [split; [done|split; [|split]]|split; [done|split; [lia|]]].
  - intros a'. rewrite Eb'. destruct (decide (a = a')) as [<-|?].
    + rewrite lookup_insert_eq, Eb. constructor. split; [done|]. split; [done|]. intros lat1 ->%Hlat _. done.
    + rewrite lookup_insert_ne by done. by apply evolves_refl.
  - intros a' b1 b2 Ek1 Eb1 Eb2 m1 Hm1. rewrite Eb' in Eb2. apply lookup_insert_Some in Eb2 as [[<- <-]|[? Eb2]]; [congruence|]. by simplify_eq.
  - intros a'. destruct Hport as (? & _). by eapply alert_sent.
  - intros x. unfold StoreSpec.flight. rewrite Eb'. apply (mconcat_put _ _ a b); [done|].
    rewrite (bound_cons N body x b _ _ Hh). unfold StoreSpec.goes_to. done.
Qed.

(** A message is taken, by a device that keeps no counts. *)
Lemma take_moved now st a b : store_ok now st → counts_ok st → buffers st !! a = Some b → consumer_of st !! a = Some self →
  Store.pending st !! self = None → can_dequeue now b →
  ∃ m h m' st' b', heap_of b = m :: h ∧ Store.dequeue now st (Some a) now = Ok (m', st') ∧
    payload m' = payload m ∧ m_LastEnqueueTime m' ≤ now ∧ store_ok now st' ∧ counts_ok st' ∧ moved now st st' ∧
    buffers st' = <[a := b']> (buffers st) ∧ heap_of b' ≡ₚ h ∧ load st' = load st - weight m ∧
    ∀ x, flight x st ≡ₚ (if decide (x ∈ goes_to m) then [body (payload m)] else []) ++ flight x st'.
Proof.
  intros Hs Hcnt Eb Ek Hnp Hcan.
  destruct (dequeue_store N rs now st a b Hs Eb Hcan) as (m & h & m' & st' & b' & Eh & Ed & Ep & Hm' & Hm & Hs' & Eb' & Hh & Ecf & Ew & Eo & Eco & Ecs & Epd & Hl & Hw).
  exists m, h, m', st', b'. do 5 (split; [done|]). split; [|split; [|do 3 (split; [done|])]].
  - intros k l v n El En. rewrite Epd in El. rewrite Hw, (Hcnt k l v n El En), decide_False; [lia|]. intros [E _]. congruence.
  - eapply shrink_moved; [|done..|intros m1; rewrite Hh, Eh; apply list_elem_of_further].
    destruct (quiet_wiring _ _ _ (quiet_refl N rs now st Hs)) as (_ & Hp & Hc). split; [done|]. by rewrite Epd, Ecs.
  - intros x. unfold StoreSpec.flight. rewrite Eb'. etrans; [|apply (mconcat_put _ _ a b'); [apply lookup_insert_eq|]].
    + rewrite insert_insert_eq, insert_id by done. reflexivity.
    + apply bound_cons. by rewrite Eh, Hh.
Qed.

(** The device is to be woken in the next cycle. *)
Lemma retry_alert now st c : store_ok now st → consumers st !! self = Some c →
  ∃ st', Store.scheduleEvent now st self 1 = Ok st' ∧ quiet now st st' ∧
    ∀ a, consumer_of st !! a = Some self → alert now st' a.
Proof.
  intros Hs Ec. destruct (schedule_store N rs now st self c Hs Ec) as (st' & c' & -> & Hq & _ & Ec' & Ht).
  exists st'. split; [done|]. split; [done|]. intros a Ek b k c1 m Eb Ek1 Ec1 _ _. pose proof Hq as (Eo & _). rewrite Eo, Ek in Ek1.
  injection Ek1 as <-. rewrite Ec' in Ec1. injection Ec1 as <-. destruct (quiet_consumer _ _ _ _ _ Hq Ec') as (c0 & Ec0 & (Hp & _)).
  rewrite Ec in Ec0. injection Ec0 as <-. rewrite Hp. eexists. split; [done|lia].
Qed.

End Device.
