(* ===== verification/Switch.v ===== *)
(** network/simple: the switches of the simple network, each a crossbar
    ([PerfectSwitch]) with a [Throttle] per output link. *)

From stdpp Require Import prelude list gmap strings.
From Stdlib Require Import ZArith Lia.
From S2P Require Import Prelude NetDest Topology Heap Clocking MessageBuffer Routing.

Open Scope Z_scope.

(** What the switches ask of their network and of the [RubySystem]. *)
Record NetConfig := mkNet {
  m_ordered : list bool; randomization : bool; warmupEnabled : bool; m_control_msg_size : Z;
  m_data_msg_size : Z; endpointBandwidth : Z; physical_vnets_channels : list Z;
  physical_vnets_bandwidth : list Z; number_of_virtual_networks : Z }.

(** [Network::MessageSizeType_to_int]. *)
Definition MessageSizeType_to_int (g : NetConfig) (size_type : MessageSizeType) : Z :=
  match size_type with
  | Control | Request_Control | Reissue_Control | Response_Control | Writeback_Control
  | Broadcast_Control | Multicast_Control | Forwarded_Control | Invalidate_Control
  | Unblock_Control | Persistent_Control | Completion_Control => m_control_msg_size g
  | Data | Response_Data | ResponseLocal_Data | ResponseL2hit_Data | Writeback_Data =>
      m_data_msg_size g
  end.

(** ** network/simple/PerfectSwitch *)

Module PerfectSwitch.
Section PerfectSwitch.
Context (NUMBER_BITS_PER_SET : Z) {R A : Type} `{MachineTypes R} `{NetMessage R A}.
Context `{HeapOps (Message.t A)} `{SortOps (WeightBased.LinkInfo R)} `{SortOps (nat * Z)}.
Import WeightBased.

Definition PRIORITY_SWITCH_LIMIT : Z := 128.

Record OutputPort := mkPort { latency : Z; out_buffers : list (option nat) }.

(** [self] is the switch as a consumer; its [m_pending_message_count] is with the
    consumers. The vectors by priority hold no null pointers. *)
Record t := mk {
  m_switch_id : Z; self : nat; m_in : list (list (option nat)); m_out : list OutputPort;
  m_in_prio : list (list nat); m_in_prio_groups : list (list (list nat));
  m_virtual_networks : Z; m_wakeups_wo_switch : Z }.
Implicit Types (ps : t) (st : Store.t A) (u : WeightBased.t R) (now current_time vnet : Z).

Definition new (sid : Z) (self : nat) (virt_nets : Z) : t := mk sid self [] [] [] [] virt_nets 0.

Definition init st ps : Store.t A :=
  Store.put_pending st (self ps)
    (default [] (Store.pending st !! self ps) ++ replicate (Z.to_nat (m_virtual_networks ps)) 0).

(** [while (l.size() <= vnet) l.emplace_back()]. *)
Definition grow {X} (l : list (list X)) vnet : list (list X) :=
  l ++ replicate (Z.to_nat (vnet + 1 - zlen l)) [].

(** The buffers with their routing priorities. *)
Fixpoint priorities st (bufs : list nat) : res (list (nat * Z)) :=
  match bufs with
  | [] => Ok []
  | a :: bufs =>
      let* (_, b) := Store.deref st (Some a) in
      let* l := priorities st bufs in Ok ((a, MessageBuffer.routingPriority b) :: l)
  end.

(** The loop that makes the groups; [group] is the last one so far. *)
Fixpoint groups (cur_prio : Z) (group : list nat) (bufs : list (nat * Z)) : list (list nat) :=
  match bufs with
  | [] => [group]
  | (a, prio) :: bufs =>
      if prio =? cur_prio then groups cur_prio (group ++ [a]) bufs
      else group :: groups cur_prio [a] bufs
  end.

Definition updatePriorityGroups st ps vnet (in_buf : nat) : res t :=
  let prio := grow (m_in_prio ps) vnet in
  let prio_groups := grow (m_in_prio_groups ps) vnet in
  let* bufs := vget prio vnet in
  let* bufs := priorities st (bufs ++ [in_buf]) in
  let bufs := sort (λ i j, i.2 <? j.2) bufs in
  let* first := of_option EUndef (head bufs) in
  let* prio := vset prio vnet bufs.*1 in
  let* prio_groups := vset prio_groups vnet (groups first.2 [] bufs) in
  Ok (mk (m_switch_id ps) (self ps) (m_in ps) (m_out ps) prio prio_groups
         (m_virtual_networks ps) (m_wakeups_wo_switch ps)).

Definition add_in_buffer (port : Z) vnet (p : option nat) (s : t * Store.t A) : res (t * Store.t A) :=
  let '(ps, st) := s in
  match p with
  | None => Ok (ps, st)
  | Some a =>
      let* st := Store.setConsumer st p (self ps) in
      let* (_, b) := Store.deref st p in
      let st := Store.put st a (MessageBuffer.setVnet (MessageBuffer.setIncomingLink b port) vnet) in
      let* ps := updatePriorityGroups st ps vnet a in
      Ok (ps, st)
  end.

Definition addInPort st ps (ins : list (option nat)) : res (t * Store.t A) :=
  let port := zlen (m_in ps) in
  let ps := mk (m_switch_id ps) (self ps) (m_in ps ++ [ins]) (m_out ps) (m_in_prio ps)
               (m_in_prio_groups ps) (m_virtual_networks ps) (m_wakeups_wo_switch ps) in
  loop_from (length ins) 0 (λ i s, let* p := vget ins i in add_in_buffer port i p s) (ps, st).

Definition addOutPort u ps (out : list (option nat)) (routing_table_entry : NetDest.t R)
    (routing_latency link_weight : Z) : res (WeightBased.t R * t) :=
  let* u := WeightBased.addOutPort u (zlen (m_out ps)) out routing_table_entry link_weight in
  Ok (u, mk (m_switch_id ps) (self ps) (m_in ps) (m_out ps ++ [mkPort routing_latency out])
            (m_in_prio ps) (m_in_prio_groups ps) (m_virtual_networks ps) (m_wakeups_wo_switch ps)).

Definition inBuffer ps (in_port vnet : Z) : res (option nat) :=
  let* l := vget (m_in ps) in_port in
  if zlen l <=? vnet then Ok None else vget l vnet.

(** The buffer of an output link for a virtual network, with the latency. *)
Definition out_buffer ps vnet (outgoing : Z) : res (option nat * Z) :=
  let* out_port := vget (m_out ps) outgoing in
  let* p := vget (out_buffers out_port) vnet in Ok (p, latency out_port).

(** Check for resources, for all outgoing queues. *)
Fixpoint check_outputs st ps vnet current_time (output_links : list (RouteInfo R)) (enough : bool)
    : res (bool * Store.t A) :=
  match output_links with
  | [] => Ok (enough, st)
  | r :: output_links =>
      let* (p, _) := out_buffer ps vnet (r_link_id r) in
      let* (b, st) := Store.areNSlotsAvailable st p 1 current_time in
      check_outputs st ps vnet current_time output_links (if b then enough else false)
  end.

(** Enqueue the message for all outgoing queues: the first gets the message itself,
    the others copies of [unmodified]. *)
Fixpoint enqueue_outputs (g : NetConfig) now st ps vnet current_time (msg unmodified : Message.t A)
    (output_links : list (RouteInfo R)) : res (Store.t A) :=
  match output_links with
  | [] => Ok st
  | r :: output_links =>
      let* (p, latency) := out_buffer ps vnet (r_link_id r) in
      let msg := Message.with_payload msg (setDestination (m_destinations r) (Message.payload msg)) in
      let* st := Store.enqueue now st p msg current_time latency (randomization g) (warmupEnabled g) in
      enqueue_outputs g now st ps vnet current_time unmodified unmodified output_links
  end.

(** [m_pending_message_count[vnet]--]. *)
Definition count_down st ps vnet : res (Store.t A) :=
  let* l := of_option EUndef (Store.pending st !! self ps) in
  let* n := vget l vnet in
  let* n := chk_i32 (n - 1) in
  let* l := vset l vnet n in
  Ok (Store.put_pending st (self ps) l).

(** The loop over the messages of a buffer that are ready. *)
Fixpoint forward (fuel : nat) (g : NetConfig) now current_time st u ps (buffer : nat) vnet
    : res (Store.t A * WeightBased.t R) :=
  match fuel with
  | O => Err EFuel
  | S fuel =>
      let* (ready, st) := Store.isReady now st (Some buffer) current_time in
      if negb ready then Ok (st, u) else
      let* unmodified := Store.peekMsgPtr st (Some buffer) in
      let* ordered := vget (m_ordered g) vnet in
      let* (output_links, u, st) :=
        WeightBased.route NUMBER_BITS_PER_SET current_time st u unmodified ordered [] in
      let* (enough, st) := check_outputs st ps vnet current_time output_links true in
      if negb enough then let* st := Store.scheduleEvent now st (self ps) 1 in Ok (st, u) else
      let* (msg, st) := Store.dequeue now st (Some buffer) current_time in
      let* st := count_down st ps vnet in
      let* st := enqueue_outputs g now st ps vnet current_time msg unmodified output_links in
      forward fuel g now current_time st u ps buffer vnet
  end.

(** A round for every message in the buffer and the last test. *)
Definition operateMessageBuffer (g : NetConfig) now st u ps (buffer : nat) vnet
    : res (Store.t A * WeightBased.t R) :=
  let* (current_time, st) := Store.clockEdge now st (self ps) in
  let* (_, b) := Store.deref st (Some buffer) in
  forward (S (length (MessageBuffer.m_prio_heap (MessageBuffer.queue b)))) g now current_time st u ps
          buffer vnet.

(** The port of a group with the oldest message. *)
Fixpoint oldest st (bufs : list nat) (i start_in_port lowest_tick : Z) : res Z :=
  match bufs with
  | [] => Ok start_in_port
  | a :: bufs =>
      let* ready_time := Store.readyTime st (Some a) in
      if ready_time <? lowest_tick then oldest st bufs (i + 1) i ready_time
      else oldest st bufs (i + 1) start_in_port lowest_tick
  end.

Definition operate_group (g : NetConfig) now ps vnet (bufs : list nat) (s : Store.t A * WeightBased.t R)
    : res (Store.t A * WeightBased.t R) :=
  let* start_in_port := oldest (fst s) bufs 0 0 (2 ^ 64 - 1) in
  loop_from (length bufs) 0
    (λ i s, let '(st, u) := s in
            let* a := vget bufs ((i + start_in_port) mod zlen bufs) in
            operateMessageBuffer g now st u ps a vnet) s.

Fixpoint operate_groups (g : NetConfig) now ps vnet (gs : list (list nat)) (s : Store.t A * WeightBased.t R)
    : res (Store.t A * WeightBased.t R) :=
  match gs with
  | [] => Ok s
  | bufs :: gs => let* s := operate_group g now ps vnet bufs s in operate_groups g now ps vnet gs s
  end.

Definition operateVnet (g : NetConfig) now st u ps vnet : res (Store.t A * WeightBased.t R) :=
  let* l := of_option EUndef (Store.pending st !! self ps) in
  let* n := vget l vnet in
  if n =? 0 then Ok (st, u)
  else let* gs := vget (m_in_prio_groups ps) vnet in operate_groups g now ps vnet gs (st, u).

Fixpoint operate_each (g : NetConfig) now ps (vnets : list Z) (s : Store.t A * WeightBased.t R)
    : res (Store.t A * WeightBased.t R) :=
  match vnets with
  | [] => Ok s
  | vnet :: vnets =>
      let* s := operateVnet g now (fst s) (snd s) ps vnet in operate_each g now ps vnets s
  end.

(** The virtual networks from the highest to the lowest, now and then the other way
    round. *)
Definition wakeup (g : NetConfig) now st u ps : res (t * WeightBased.t R * Store.t A) :=
  let* wakeups := chk_i32 (m_wakeups_wo_switch ps + 1) in
  let switched := PRIORITY_SWITCH_LIMIT <? wakeups in
  let vnets := seqZ 0 (m_virtual_networks ps) in
  let ps := mk (m_switch_id ps) (self ps) (m_in ps) (m_out ps) (m_in_prio ps) (m_in_prio_groups ps)
               (m_virtual_networks ps) (if switched then 0 else wakeups) in
  let* (st, u) := operate_each g now ps (if switched then vnets else reverse vnets) (st, u) in
  Ok (ps, u, st).

End PerfectSwitch.
End PerfectSwitch.

(** ** network/simple/Throttle *)

Module Throttle.
Section Throttle.
Context {R A : Type} `{NetMessage R A} `{HeapOps (Message.t A)}.

Definition MESSAGE_SIZE_MULTIPLIER : Z := 1000.
Definition PRIORITY_SWITCH_LIMIT : Z := 128.

(** [acc_link_utilization] as the remaining and the total bandwidth of each wakeup;
    [msg_counts] by message size type and virtual network. *)
Record Stats := mkStats {
  acc_link_utilization : list (Z * Z); msg_counts : list (MessageSizeType * Z * Z);
  total_msg_count : Z; total_msg_bytes : Z; total_data_msg_bytes : Z; total_msg_wait_time : Z;
  total_stall_cy : Z; total_bw_sat_cy : Z }.

(** [self] is the throttle as a consumer. *)
Record t := mk {
  self : nat; m_in : list (option nat); m_out : list (option nat); m_vnets : Z;
  m_units_remaining : list (list Z); m_physical_vnets : bool; m_link_bandwidth_multiplier : list Z;
  m_vnet_channels : list Z; m_link_latency : Z; m_wakeups_wo_switch : Z; m_endpoint_bandwidth : Z;
  throttleStats : Stats }.
Implicit Types (th : t) (st : Store.t A) (now current_time vnet : Z).

Definition new_common (self : nat) (physical : bool) (multipliers channels : list Z)
    (link_latency endpoint_bandwidth : Z) : t :=
  mk self [] [] 0 [] physical multipliers channels link_latency 0 endpoint_bandwidth
     (mkStats [] [] 0 0 0 0 0 0).

(** The constructor for one bandwidth, ... *)
Definition new (self : nat) (link_latency link_bandwidth_multiplier endpoint_bandwidth : Z) : res t :=
  let* _ := require (0 <? link_bandwidth_multiplier) EPanic in
  Ok (new_common self false [link_bandwidth_multiplier] [] link_latency endpoint_bandwidth).

(** ... and the one for a bandwidth and a number of channels per virtual network. *)
Definition new_physical (self : nat) (link_latency : Z) (vnet_channels vnet_bandwidth_multiplier : list Z)
    (endpoint_bandwidth : Z) : res t :=
  let* _ := require (forallb (λ m, 0 <? m) vnet_bandwidth_multiplier) EPanic in
  let* _ := require (forallb (λ c, 0 <? c) vnet_channels) EPanic in
  let* _ := require (zlen vnet_bandwidth_multiplier =? zlen vnet_channels) EPanic in
  Ok (new_common self true vnet_bandwidth_multiplier vnet_channels link_latency endpoint_bandwidth).

Definition getChannelCnt th vnet : res Z :=
  if m_physical_vnets th then vget (m_vnet_channels th) vnet else Ok 1.

Definition getLinkBandwidth th vnet : res Z :=
  let* bw := vget (m_link_bandwidth_multiplier th) (if m_physical_vnets th then vnet else 0) in
  let* _ := require (0 <? bw) EPanic in
  chk_i32 (m_endpoint_bandwidth th * bw).

(** The bandwidth of all channels of a virtual network. *)
Definition vnet_bandwidth th vnet : res Z :=
  let* bw := getLinkBandwidth th vnet in
  let* n := getChannelCnt th vnet in chk_i32 (bw * n).

Definition getTotalLinkBandwidth th : res Z :=
  let* sum := vnet_bandwidth th 0 in
  if m_physical_vnets th
  then loop_from (Z.to_nat (m_vnets th - 1)) 1
         (λ i sum, let* bw := vnet_bandwidth th i in chk_i32 (sum + bw)) sum
  else Ok sum.

Definition with_links th (ins outs : list (option nat)) (units : list (list Z)) (vnets : Z) : t :=
  mk (self th) ins outs vnets units (m_physical_vnets th) (m_link_bandwidth_multiplier th)
     (m_vnet_channels th) (m_link_latency th) (m_wakeups_wo_switch th) (m_endpoint_bandwidth th)
     (throttleStats th).

Definition addLinks st th (in_vec out_vec : list (option nat)) : res (t * Store.t A) :=
  assert! zlen in_vec =? zlen out_vec in
  let* (th, st) := loop_from (length in_vec) 0
    (λ vnet s, let '(th, st) := s : t * Store.t A in
       let* in_ptr := vget in_vec vnet in
       let* out_ptr := vget out_vec vnet in
       let* n := getChannelCnt th vnet in
       let* _ := require (0 <=? n) EThrow in
       let* st := Store.setConsumer st in_ptr (self th) in
       Ok (with_links th (m_in th ++ [in_ptr]) (m_out th ++ [out_ptr])
             (m_units_remaining th ++ [replicate (Z.to_nat n) 0]) (m_vnets th), st)) (th, st) in
  let th := with_links th (m_in th) (m_out th) (m_units_remaining th) (zlen in_vec) in
  let* _ := require (zlen (m_link_bandwidth_multiplier th) =? (if m_physical_vnets th then m_vnets th else 1)) EPanic in
  Ok (th, st).

(** [network_message_to_size]; [BROADCAST_SCALING] is 1. *)
Definition network_message_to_size (g : NetConfig) (a : A) : res Z :=
  chk_i32 (i32 (MessageSizeType_to_int g (getMessageSize a)) * MESSAGE_SIZE_MULTIPLIER).

(** Count the message. *)
Fixpoint count_type (l : list (MessageSizeType * Z * Z)) (ty : MessageSizeType) vnet : list (MessageSizeType * Z * Z) :=
  match l with
  | [] => [(ty, vnet, 1)]
  | (k, n) :: l => if decide (k = (ty, vnet)) then (k, n + 1) :: l else (k, n) :: count_type l ty vnet
  end.

Definition count_message (g : NetConfig) (s : Stats) (a : A) vnet (wait : Z) : Stats :=
  let total_size := u32 (MessageSizeType_to_int g (getMessageSize a)) in
  mkStats (acc_link_utilization s) (count_type (msg_counts s) (getMessageSize a) vnet)
    (total_msg_count s + 1) (total_msg_bytes s + total_size)
    (total_data_msg_bytes s + u32 (total_size - MessageSizeType_to_int g Control))
    (total_msg_wait_time s + wait) (total_stall_cy s) (total_bw_sat_cy s).

Definition hasPendingWork now st (inp : option nat) current_time (units_remaining : Z)
    : res (bool * Store.t A) :=
  let* (r, st) := Store.isReady now st inp current_time in Ok (r || (0 <? units_remaining), st).

(** Move the message at the front of [inp]: its size in units. *)
Definition move (g : NetConfig) now current_time st th vnet (inp out : option nat) (s : Stats)
    : res (Z * Stats * Store.t A) :=
  let* msg := Store.peekMsgPtr st inp in
  let msg_enqueue_time := Message.getLastEnqueueTime msg in
  let* units := network_message_to_size g (Message.payload msg) in
  let* (msg, st) := Store.dequeue now st inp current_time in
  let* c := of_option EUndef (Store.consumers st !! self th) in
  let* st := Store.enqueue now st out msg current_time
               (Clocked.cyclesToTicks (Consumer.em c) (m_link_latency th))
               (randomization g) (warmupEnabled g) in
  Ok (units, count_message g s (Message.payload msg) vnet (u64 (current_time - msg_enqueue_time)), st).

(** The loop of [operateVnet]: the units of the current message and the bandwidths
    that remain. *)
Fixpoint transfer (fuel : nat) (g : NetConfig) now current_time st th vnet (inp out : option nat)
    (units_remaining bw_remaining total_bw_remaining : Z) (s : Stats)
    : res (Z * Z * Z * Stats * Store.t A) :=
  match fuel with
  | O => Err EFuel
  | S fuel =>
      let stop st := Ok (units_remaining, bw_remaining, total_bw_remaining, s, st) in
      if bw_remaining <=? 0 then stop st else
      let* (work, st) := hasPendingWork now st inp current_time units_remaining in
      if negb work then stop st else
      let* (slot, st) := Store.areNSlotsAvailable st out 1 current_time in
      if negb slot then stop st else
      let* (units_remaining, s, st) :=
        (if units_remaining =? 0 then
           let* (ready, st) := Store.isReady now st inp current_time in
           if ready : bool then move g now current_time st th vnet inp out s else Ok (units_remaining, s, st)
         else Ok (units_remaining, s, st)) in
      let spent := Z.min units_remaining bw_remaining in
      let* units_remaining := chk_i32 (units_remaining - spent) in
      let* bw_remaining := chk_i32 (bw_remaining - spent) in
      let* total_bw_remaining := chk_i32 (total_bw_remaining - spent) in
      transfer fuel g now current_time st th vnet inp out units_remaining bw_remaining
               total_bw_remaining s
  end.

Definition with_units th (units : list (list Z)) (s : Stats) : t :=
  mk (self th) (m_in th) (m_out th) (m_vnets th) units (m_physical_vnets th)
     (m_link_bandwidth_multiplier th) (m_vnet_channels th) (m_link_latency th)
     (m_wakeups_wo_switch th) (m_endpoint_bandwidth th) s.

(** Whether the caller must wake up again: out of bandwidth with work left, or
    blocked by the output. *)
Definition notify now current_time st (inp out : option nat) (units_remaining bw_remaining : Z)
    (bw_saturated output_blocked : bool) : res (bool * bool * Store.t A) :=
  let* (work, st) := hasPendingWork now st inp current_time units_remaining in
  if negb work then Ok (bw_saturated, output_blocked, st) else
  let* (ok, st) := (if bw_remaining =? 0 then Ok (true, st)
                    else let* (slot, st) := Store.areNSlotsAvailable st out 1 current_time in
                         Ok (negb slot, st)) in
  let* _ := require ok EPanic in
  let bw_saturated := bw_saturated || (bw_remaining =? 0) in
  if output_blocked then Ok (bw_saturated, true, st)
  else let* (slot, st) := Store.areNSlotsAvailable st out 1 current_time in
       Ok (bw_saturated, negb slot, st).

(** The variables of [wakeup] that [operateVnet] gets by reference. *)
Record Cycle := mkCycle { bw_left : Z; bw_saturated : bool; output_blocked : bool }.

Definition operateVnet (g : NetConfig) now vnet (channel : Z) (inp out : option nat)
    (s : t * Cycle * Store.t A) : res (t * Cycle * Store.t A) :=
  let '(th, y, st) := s in
  match out, inp with
  | None, _ | _, None => Ok (th, y, st)
  | Some _, Some a =>
      let* row := vget (m_units_remaining th) vnet in
      let* units_remaining := vget row channel in
      let* _ := require (0 <=? units_remaining) EPanic in
      let* (current_time, st) := Store.clockEdge now st (self th) in
      let* bw_remaining := (if m_physical_vnets th then getLinkBandwidth th vnet else Ok (bw_left y)) in
      let* (_, b) := Store.deref st inp in
      let* (units_remaining, bw_remaining, total_bw_remaining, stats, st) :=
        transfer (S (S (length (MessageBuffer.m_prio_heap (MessageBuffer.queue b))))) g now current_time
                 st th vnet inp out units_remaining bw_remaining (bw_left y) (throttleStats th) in
      let* row := vset row channel units_remaining in
      let* units := vset (m_units_remaining th) vnet row in
      let th := with_units th units stats in
      let* _ := require (0 <=? units_remaining) EPanic in
      let* _ := require (0 <=? bw_remaining) EPanic in
      let* _ := require (0 <=? total_bw_remaining) EPanic in
      let* (sat, blocked, st) := notify now current_time st inp out units_remaining bw_remaining
                                        (bw_saturated y) (output_blocked y) in
      Ok (th, mkCycle total_bw_remaining sat blocked, st)
  end.

Definition operate_channels (g : NetConfig) now vnet (s : t * Cycle * Store.t A)
    : res (t * Cycle * Store.t A) :=
  let '(th, y, st) := s in
  let* n := getChannelCnt th vnet in
  loop_from (Z.to_nat n) 0
    (λ channel s,
       let '(th, y, st) := s in
       let* inp := vget (m_in th) vnet in
       let* out := vget (m_out th) vnet in
       operateVnet g now vnet channel inp out (th, y, st)) s.

Fixpoint operate_each (g : NetConfig) now (vnets : list Z) (s : t * Cycle * Store.t A)
    : res (t * Cycle * Store.t A) :=
  match vnets with
  | [] => Ok s
  | vnet :: vnets => let* s := operate_channels g now vnet s in operate_each g now vnets s
  end.

Definition with_wakeup th (n : Z) : t :=
  mk (self th) (m_in th) (m_out th) (m_vnets th) (m_units_remaining th) (m_physical_vnets th)
     (m_link_bandwidth_multiplier th) (m_vnet_channels th) (m_link_latency th) n
     (m_endpoint_bandwidth th) (throttleStats th).

Definition count_cycle (s : Stats) (y : Cycle) (total : Z) : Stats :=
  mkStats (acc_link_utilization s ++ [(bw_left y, total)]) (msg_counts s) (total_msg_count s)
    (total_msg_bytes s) (total_data_msg_bytes s) (total_msg_wait_time s)
    (total_stall_cy s + Z.b2z (output_blocked y)) (total_bw_sat_cy s + Z.b2z (bw_saturated y)).

Definition wakeup (g : NetConfig) now st th : res (t * Store.t A) :=
  let* total := getTotalLinkBandwidth th in
  assert! 0 <? total in
  let* wakeups := chk_i32 (m_wakeups_wo_switch th + 1) in
  let switched := PRIORITY_SWITCH_LIMIT <? wakeups in
  let th := with_wakeup th (if switched then 0 else wakeups) in
  let vnets := seqZ 0 (m_vnets th) in
  let* (th, y, st) := operate_each g now (if switched then vnets else reverse vnets)
                        (th, mkCycle total false false, st) in
  let th := with_units th (m_units_remaining th) (count_cycle (throttleStats th) y total) in
  let* st := (if bw_saturated y || output_blocked y then Store.scheduleEvent now st (self th) 1 else Ok st) in
  Ok (th, st).

End Throttle.
End Throttle.

(** ** network/simple/Switch *)

Module Switch.
Section Switch.
Context (NUMBER_BITS_PER_SET : Z) {R A : Type} `{MachineTypes R} `{NetMessage R A}.
Context `{HeapOps (Message.t A)} `{SortOps (WeightBased.LinkInfo R)} `{SortOps (nat * Z)}.

(** [clock] is the clock of the switch, which its consumers share. *)
Record t := mk {
  perfectSwitch : PerfectSwitch.t; throttles : list Throttle.t; m_int_routing_latency : Z;
  m_ext_routing_latency : Z; m_routing_unit : WeightBased.t R; m_num_connected_buffers : Z;
  m_port_buffers : list (option nat); clock : Clocked.t }.
Implicit Types (s : t) (st : Store.t A) (now : Z).

(** A consumer that is not in use yet. *)
Definition new_consumer st (clk : Clocked.t) : nat * Store.t A :=
  let k := S (foldr max 0%nat (map_to_list (Store.consumers st)).*1) in
  (k, Store.put_consumer st k (Consumer.new clk)).

Definition new st (id virt_nets int_latency ext_latency : Z) (unit : WeightBased.t R)
    (port_buffers : list (option nat)) (clk : Clocked.t) : t * Store.t A :=
  let '(k, st) := new_consumer st clk in
  (mk (PerfectSwitch.new id k virt_nets) [] int_latency ext_latency unit 0 port_buffers clk, st).

Definition init st s : Store.t A := PerfectSwitch.init st (perfectSwitch s).

Definition with_switch s (ps : PerfectSwitch.t) (u : WeightBased.t R) : t :=
  mk ps (throttles s) (m_int_routing_latency s) (m_ext_routing_latency s) u (m_num_connected_buffers s)
     (m_port_buffers s) (clock s).

Definition addInPort st s (ins : list (option nat)) : res (t * Store.t A) :=
  let* (ps, st) := PerfectSwitch.addInPort st (perfectSwitch s) ins in
  Ok (with_switch s ps (m_routing_unit s), st).

(** [vector::resize(n, x)]. *)
Definition resize {X} (l : list X) (n : nat) (x : X) : list X := take n l ++ replicate (n - length l) x.

Definition new_throttle (g : NetConfig) st s (out : list (option nat)) (link_latency bw_multiplier : Z)
    : res (Throttle.t * Store.t A) :=
  let '(k, st) := new_consumer st (clock s) in
  let* th :=
    (if (0 <? zlen (physical_vnets_channels g)) && (0 <? zlen out)
     then Throttle.new_physical k link_latency (physical_vnets_channels g)
            (resize (physical_vnets_bandwidth g) (length out) bw_multiplier) (endpointBandwidth g)
     else Throttle.new k link_latency bw_multiplier (endpointBandwidth g)) in
  Ok (th, st).

(** The next buffers of the switch, one per buffer of the link. *)
Definition intermediate s (n : nat) : res (list (option nat)) :=
  loop_from n 0
    (λ i bufs, let c := u32 (m_num_connected_buffers s + i) in
               assert! c <? zlen (m_port_buffers s) in
               let* p := vget (m_port_buffers s) c in Ok (bufs ++ [p])) [].

Definition addOutPort (g : NetConfig) st s (out : list (option nat)) (routing_table_entry : NetDest.t R)
    (link_latency link_weight bw_multiplier : Z) (is_external : bool) : res (t * Store.t A) :=
  let* (th, st) := new_throttle g st s out link_latency bw_multiplier in
  let* bufs := intermediate s (length out) in
  let routing_latency := Clocked.cyclesToTicks (clock s)
    (if is_external then m_ext_routing_latency s else m_int_routing_latency s) in
  let* (u, ps) := PerfectSwitch.addOutPort (m_routing_unit s) (perfectSwitch s) bufs routing_table_entry
                    routing_latency link_weight in
  let* (th, st) := Throttle.addLinks st th bufs out in
  Ok (mk ps (throttles s ++ [th]) (m_int_routing_latency s) (m_ext_routing_latency s) u
         (u32 (m_num_connected_buffers s + zlen out)) (m_port_buffers s) (clock s), st).

End Switch.
Arguments t R : clear implicits.
End Switch.

(** ** network/Network and network/simple/SimpleNetwork *)

Module SimpleNetwork.
Section SimpleNetwork.
Context (NUMBER_BITS_PER_SET : Z) {R A : Type} `{MachineTypes R} `{NetMessage R A}.
Context `{HeapOps (Message.t A)} `{SortOps (WeightBased.LinkInfo R)} `{SortOps (nat * Z)}.

(** What [SimpleExtLink] and [SimpleIntLink] add to a link; an external link has no
    buffers. *)
Record SimpleLink := mkSimple { m_bw_multiplier : Z; m_buffers : list (option nat) }.

Record t := mk {
  cfg : NetConfig; m_nodes : Z; globalToLocalMap : gmap Z Z; m_toNetQueues : list (list (option nat));
  m_fromNetQueues : list (list (option nat)); m_switches : gmap Z (Switch.t R);
  m_int_link_buffers : list (option nat); simple_links : gmap nat SimpleLink }.
Implicit Types (n : t) (st : Store.t A).

Definition getLocalNodeID n (global_id : Z) : res Z :=
  of_option EAssert (globalToLocalMap n !! global_id).

Definition with_queues n (to from : list (list (option nat))) (ordered : list bool) : t :=
  let g := cfg n in
  mk (mkNet ordered (randomization g) (warmupEnabled g) (m_control_msg_size g) (m_data_msg_size g)
        (endpointBandwidth g) (physical_vnets_channels g) (physical_vnets_bandwidth g)
        (number_of_virtual_networks g))
     (m_nodes n) (globalToLocalMap n) to from (m_switches n) (m_int_link_buffers n) (simple_links n).
Definition with_switches n (sw : gmap Z (Switch.t R)) (from : list (list (option nat)))
    (bufs : list (option nat)) : t :=
  mk (cfg n) (m_nodes n) (globalToLocalMap n) (m_toNetQueues n) from sw bufs (simple_links n).

(** [checkNetworkAllocation]: the flags of the ordered virtual networks. *)
Definition checkNetworkAllocation n (local_id : Z) (ordered : bool) (network_num : Z) : res (list bool) :=
  let* _ := require (local_id <? m_nodes n) EFatal in
  let* _ := require (u32 network_num <? number_of_virtual_networks (cfg n)) EFatal in
  if ordered then vset (m_ordered (cfg n)) network_num true else Ok (m_ordered (cfg n)).

(** A queue is entered under its virtual network; the vector grows as needed. *)
Definition set_queue (qs : list (list (option nat))) (local_id network_num : Z) (b : nat)
    : res (list (list (option nat))) :=
  let* l := vget qs local_id in
  let l := l ++ replicate (Z.to_nat (network_num + 1 - zlen l)) None in
  let* l := vset l network_num (Some b) in
  vset qs local_id l.

Definition setToNetQueue n (global_id : Z) (ordered : bool) (network_num : Z) (b : nat) : res t :=
  let* local_id := getLocalNodeID n global_id in
  let* flags := checkNetworkAllocation n local_id ordered network_num in
  let* qs := set_queue (m_toNetQueues n) local_id network_num b in
  Ok (with_queues n qs (m_fromNetQueues n) flags).

Definition setFromNetQueue n (global_id : Z) (ordered : bool) (network_num : Z) (b : nat) : res t :=
  let* local_id := getLocalNodeID n global_id in
  let* flags := checkNetworkAllocation n local_id ordered network_num in
  let* qs := set_queue (m_fromNetQueues n) local_id network_num b in
  Ok (with_queues n (m_toNetQueues n) qs flags).

(** From a switch to an endpoint node. *)
Definition makeExtOutLink st n (src global_dest : Z) (link : Topology.BasicLink)
    (routing_table_entry : list (NetDest.t R)) : res (t * Store.t A) :=
  let* local_dest := getLocalNodeID n global_dest in
  assert! local_dest <? m_nodes n in
  let* s := of_option EAssert (m_switches n !! src) in
  let* simple_link := of_option EPanic (simple_links n !! Topology.name link) in
  let num_vnets := number_of_virtual_networks (cfg n) in
  let* queues := vget (m_fromNetQueues n) local_dest in
  let* _ := require (zlen queues <=? num_vnets) EPanic in
  let queues := Switch.resize queues (Z.to_nat num_vnets) None in
  let* from := vset (m_fromNetQueues n) local_dest queues in
  let* route := vget routing_table_entry 0 in
  let* (s, st) := Switch.addOutPort (cfg n) st s queues route (Topology.m_latency link) 0
                    (m_bw_multiplier simple_link) true in
  Ok (with_switches n (<[src := s]> (m_switches n)) from (m_int_link_buffers n), st).

(** From an endpoint node to a switch. *)
Definition makeExtInLink st n (global_src dest : Z) : res (t * Store.t A) :=
  let* local_src := getLocalNodeID n global_src in
  assert! local_src <? m_nodes n in
  let* s := of_option EUndef (m_switches n !! dest) in
  let* queues := vget (m_toNetQueues n) local_src in
  let* (s, st) := Switch.addInPort st s queues in
  Ok (with_switches n (<[dest := s]> (m_switches n)) (m_fromNetQueues n) (m_int_link_buffers n), st).

(** From a switch to a switch. *)
Definition makeInternalLink st n (src dest : Z) (link : Topology.BasicLink)
    (routing_table_entry : list (NetDest.t R)) : res (t * Store.t A) :=
  let* simple_link := of_option EPanic (simple_links n !! Topology.name link) in
  let* s := of_option EUndef (m_switches n !! dest) in
  let* (s, st) := Switch.addInPort st s (m_buffers simple_link) in
  let n := with_switches n (<[dest := s]> (m_switches n)) (m_fromNetQueues n) (m_int_link_buffers n) in
  let* s := of_option EUndef (m_switches n !! src) in
  let* route := vget routing_table_entry 0 in
  let* (s, st) := Switch.addOutPort (cfg n) st s (m_buffers simple_link) route (Topology.m_latency link)
                    (Topology.m_weight link) (m_bw_multiplier simple_link) false in
  Ok (with_switches n (<[src := s]> (m_switches n)) (m_fromNetQueues n)
        (m_int_link_buffers n ++ m_buffers simple_link), st).

(** The calls [Topology::createLinks] makes, in their order. *)
Fixpoint make_links st n (calls : list (Topology.Made (R := R))) : res (t * Store.t A) :=
  match calls with
  | [] => Ok (n, st)
  | call :: calls =>
      let* (n, st) := (match call with
        | Topology.ExtIn src dest _ _ => makeExtInLink st n src dest
        | Topology.ExtOut src dest link routes => makeExtOutLink st n src dest link routes
        | Topology.Internal src dest link routes _ _ => makeInternalLink st n src dest link routes
        end) in
      make_links st n calls
  end.

Definition init (fuel : nat) st n (tp : Topology.t (R := R)) : res (t * Store.t A * Topology.t (R := R)) :=
  let* (tp, calls) := Topology.createLinks NUMBER_BITS_PER_SET fuel tp in
  let* (n, st) := make_links st n calls in Ok (n, st, tp).

End SimpleNetwork.
Arguments t R : clear implicits.
End SimpleNetwork.
