(* ===== verification/WiringSpec.v ===== *)
(** The ports of a switch while its network is built: [addInPort] enters every
    buffer under its virtual network, in the order of the priorities. *)

From stdpp Require Import prelude list gmap sorting.
From Stdlib Require Import ZArith Lia.
From S2P Require Import Prelude Heap Clocking MessageBuffer NetDest Routing Switch.

Open Scope Z_scope.

Section Ports.
Import MessageBuffer Store PerfectSwitch.
Context {A : Type} `{SortLaws (nat * Z)}.
Implicit Types (st : Store.t A) (b : MessageBuffer.t A) (a : nat) (ps : PerfectSwitch.t) (l : list (nat * Z)).

#[local] Instance prio_order : WeakOrder (λ i j : nat * Z, i.2 <? j.2).
Proof. split; intros; rewrite ?Z.ltb_ge, ?Z.ltb_lt in *; lia. Qed.

Definition not_after (i j : nat * Z) : Prop := (j.2 <? i.2) = false.

(** The groups of buffers in order: the first for the highest priority, and one for
    each of the others. *)
Lemma groups_sorted p l : StronglySorted not_after l → Forall (λ i, p ≤ i.2) l →
  ∀ g, groups p g l = (g ++ (filter (λ i, i.2 = p) l).*1) :: ((λ i, [i.1]) <$> filter (λ i, i.2 ≠ p) l).
Proof.
  induction 1 as [|[a q] l Hs IH Hall]; intros Hp g; cbn [groups]. { simpl. by rewrite app_nil_r. }
  apply Forall_cons in Hp as [Hq Hp]. simpl in Hq. destruct (Z.eqb_spec q p) as [->|Hne].
  - rewrite (IH Hp), filter_cons_True, filter_cons_False by (simpl; lia). rewrite fmap_cons, <- app_assoc. done.
  - rewrite (IH Hp), (filter_cons_False _ (a, q)), (filter_cons_True _ (a, q)) by done. rewrite fmap_cons.
    assert (filter (λ i, i.2 = p) l = []) as ->; [|simpl; by rewrite app_nil_r].
    apply elem_of_nil_inv. intros i [E Hi]%list_elem_of_filter. rewrite Forall_forall in Hall. apply Hall, Z.ltb_ge in Hi. simpl in Hi. lia.
Qed.

(** The groups hold the buffers in their order. *)
Lemma concat_groups p l g : concat (groups p g l) = g ++ l.*1.
Proof.
  revert g. induction l as [|[a q] l IH]; intros g; simpl; [done|]. destruct (q =? p); simpl; rewrite IH; [by rewrite <- app_assoc|done].
Qed.

Definition prio_of st a : Z := from_option routingPriority 0 (buffers st !! a).

Lemma priorities_ok st bufs : Forall (λ a, is_Some (buffers st !! a)) bufs → priorities st bufs = Ok ((λ a, (a, prio_of st a)) <$> bufs).
Proof.
  induction 1 as [|a bufs [b Eb] _ IH]; [done|]. simpl. unfold deref. simpl. rewrite Eb. cbn [of_option rbind]. rewrite IH.
  cbn [rbind]. unfold prio_of. by rewrite Eb.
Qed.

Definition by_prio st a a' : Prop := (prio_of st a' <? prio_of st a) = false.

(** What the code makes of buffers in order. *)
Definition prio_groups st (bufs : list nat) : list (list nat) :=
  match bufs with
  | [] => []
  | h :: _ => filter (λ a, prio_of st a = prio_of st h) bufs :: ((λ a, [a]) <$> filter (λ a, prio_of st a ≠ prio_of st h) bufs)
  end.

Lemma groups_spec st l p : StronglySorted not_after l → Forall (λ i, i.2 = prio_of st i.1) l → head l = Some p →
  groups p.2 [] l = prio_groups st l.*1 ∧ StronglySorted (by_prio st) l.*1.
Proof.
  intros Hs Hl Hp. split.
  - destruct l as [|q l]; [done|]. injection Hp as ->. rewrite groups_sorted; [|done|]; cycle 1.
    { inv Hs as [|? ? Hs' Hall]. constructor; [lia|]. eapply Forall_impl; [done|]. intros i ?%Z.ltb_ge. done. }
    unfold prio_groups. rewrite fmap_cons at 1. apply Forall_cons in Hl as Hl'. destruct Hl' as [Hp _]. rewrite <- Hp.
    f_equal; [cbn [app]|f_equal].
    + clear Hs. induction Hl as [|i k Hi Hk IH]; [done|]. rewrite fmap_cons, !filter_cons, <- Hi. by case_decide; rewrite ?fmap_cons, IH.
    + clear Hs. induction Hl as [|i k Hi Hk IH]; [done|]. rewrite fmap_cons, !filter_cons, <- Hi. by case_decide; rewrite ?fmap_cons, IH.
  - clear Hp. induction Hs as [|i l Hs IH Hall]; [constructor|]. apply Forall_cons in Hl as [Hi Hl]. rewrite fmap_cons. constructor; [auto|].
    apply Forall_forall. intros a (j & -> & Hj)%list_elem_of_fmap. rewrite Forall_forall in Hall, Hl.
    unfold by_prio. rewrite <- Hi, <- (Hl j Hj). by apply Hall.
Qed.

(** The buffers of a virtual network; the vectors grow as needed. *)
Definition row {X} (l : list (list X)) (v : nat) : list X := default [] (l !! v).

Lemma grow_row {X} (l : list (list X)) vnet v : row (grow l vnet) v = row l v.
Proof.
  unfold row, grow. destruct (decide (v < length l)%nat); [by rewrite lookup_app_l|].
  rewrite lookup_app_r, (lookup_ge_None_2 l) by lia. destruct (_ !! _) as [x|] eqn:E; [|done]. by apply lookup_replicate in E as [-> _].
Qed.

Lemma grow_length {X} (l : list (list X)) vnet : 0 ≤ vnet → 0 ≤ vnet < zlen (grow l vnet).
Proof. intros Hv. unfold grow. rewrite length_app, length_replicate. lia. Qed.

Lemma insert_row {X} (l : list (list X)) v x v' : (v < length l)%nat → row (<[v := x]> l) v' = if decide (v = v') then x else row l v'.
Proof.
  intros Hv. unfold row. case_decide as E; [subst v'; by rewrite list_lookup_insert_eq|by rewrite list_lookup_insert_ne].
Qed.

(** Only the buffers by priority differ. *)
Definition same_ports ps ps' : Prop :=
  m_switch_id ps' = m_switch_id ps ∧ self ps' = self ps ∧ m_in ps' = m_in ps ∧ m_out ps' = m_out ps ∧
  m_virtual_networks ps' = m_virtual_networks ps ∧ m_wakeups_wo_switch ps' = m_wakeups_wo_switch ps.

Lemma same_ports_trans ps ps1 ps2 : same_ports ps ps1 → same_ports ps1 ps2 → same_ports ps ps2.
Proof. unfold same_ports. intros. destruct_and!. split_and!; congruence. Qed.

Lemma updatePriorityGroups_ok st ps vnet a : 0 ≤ vnet →
  Forall (λ a, is_Some (buffers st !! a)) (row (m_in_prio ps) (Z.to_nat vnet) ++ [a]) →
  ∃ ps' bufs, updatePriorityGroups st ps vnet a = Ok ps' ∧ same_ports ps ps' ∧
    bufs ≡ₚ a :: row (m_in_prio ps) (Z.to_nat vnet) ∧ StronglySorted (by_prio st) bufs ∧
    (∀ v, row (m_in_prio ps') v = if decide (Z.to_nat vnet = v) then bufs else row (m_in_prio ps) v) ∧
    (∀ v, row (m_in_prio_groups ps') v = if decide (Z.to_nat vnet = v) then prio_groups st bufs else row (m_in_prio_groups ps) v).
Proof.
  intros Hv Hbufs. unfold updatePriorityGroups.
  pose proof (grow_length (m_in_prio ps) vnet Hv) as Hl. pose proof (grow_length (m_in_prio_groups ps) vnet Hv) as Hlg.
  destruct (vget_inbounds (grow (m_in_prio ps) vnet) vnet Hl) as (r & -> & Er). cbn [rbind].
  assert (r = row (m_in_prio ps) (Z.to_nat vnet)) as -> by (rewrite <- (grow_row _ vnet); unfold row; by rewrite Er).
  rewrite (priorities_ok _ _ Hbufs). cbn [rbind].
  destruct (sort_law (λ i j : nat * Z, i.2 <? j.2) prio_order ((λ a, (a, prio_of st a)) <$> (row (m_in_prio ps) (Z.to_nat vnet) ++ [a]))) as [Hp Hs].
  set (l := sort _ _) in *. destruct (head l) as [p|] eqn:Eh; cycle 1.
  { destruct l; [|done]. apply Permutation_nil_l in Hp. rewrite fmap_app in Hp. by destruct (row _ _). }
  cbn [of_option rbind]. rewrite vset_inbounds by done. cbn [rbind]. rewrite vset_inbounds by done. cbn [rbind].
  destruct (groups_spec st l p Hs) as [Eg Hsort]; [|done|].
  { rewrite Hp. apply Forall_forall. by intros i (x & -> & _)%list_elem_of_fmap. }
  eexists _, l.*1. split; [done|]. split; [done|]. split.
  { rewrite Hp, <- list_fmap_compose. simpl. rewrite list_fmap_id. by rewrite Permutation_app_comm. }
  split; [done|]. simpl. split; intros v; rewrite insert_row by lia; case_decide; try done; apply grow_row.
Qed.

(** An input of a virtual network. *)
Definition input st ps (v : Z) a : Prop :=
  ∃ b, buffers st !! a = Some b ∧ consumer_of st !! a = Some (self ps) ∧ m_vnet_id (wires b) = v.

(** The inputs of a switch are known by virtual network and priority. *)
Record wired st ps : Prop := {
  wi_groups v : row (m_in_prio_groups ps) v = prio_groups st (row (m_in_prio ps) v);
  wi_inputs v a : a ∈ row (m_in_prio ps) v ↔ input st ps (Z.of_nat v) a;
  wi_nodup v : NoDup (row (m_in_prio ps) v);
  wi_sorted v : StronglySorted (by_prio st) (row (m_in_prio ps) v);
}.

(** A buffer has a consumer if it is connected. *)
Definition connected st : Prop :=
  ∀ a b, buffers st !! a = Some b → m_consumer (wires b) = false → consumer_of st !! a = None.

(** A buffer as a switch connects it. *)
Definition connect b (port vnet : Z) : MessageBuffer.t A :=
  with_wires b (mkWiring true (m_dequeue_callback (wires b)) (m_priority_rank (wires b)) port vnet).

Lemma prio_of_put st st' a b b' : buffers st !! a = Some b → buffers st' = <[a := b']> (buffers st) → cfg b' = cfg b →
  ∀ a', prio_of st' a' = prio_of st a'.
Proof.
  intros Eb Eb' Ec a'. unfold prio_of. rewrite Eb'. destruct (decide (a = a')) as [<-|?]; [|by rewrite lookup_insert_ne].
  rewrite lookup_insert_eq, Eb. simpl. unfold routingPriority. by rewrite Ec.
Qed.

Lemma prio_groups_ext st st' bufs : (∀ a, prio_of st' a = prio_of st a) → prio_groups st' bufs = prio_groups st bufs.
Proof.
  intros E. destruct bufs as [|h bufs]; [done|]. unfold prio_groups. f_equal; [|f_equal]; apply list_filter_iff; intros a; by rewrite !E.
Qed.

Lemma sorted_ext st st' bufs : (∀ a, prio_of st' a = prio_of st a) → StronglySorted (by_prio st') bufs → StronglySorted (by_prio st) bufs.
Proof.
  intros E. induction 1 as [|a bufs Hs IH Hall]; constructor; [done|]. eapply Forall_impl; [done|]. intros a'. unfold by_prio. by rewrite !E.
Qed.

(** One more input, entered under its virtual network. *)
Lemma wired_step st st' ps ps' vnet a b port bufs : wired st ps → (∀ v, ¬ input st ps v a) → 0 ≤ vnet → self ps' = self ps →
  buffers st !! a = Some b → buffers st' = <[a := connect b port vnet]> (buffers st) → consumer_of st' = <[a := self ps]> (consumer_of st) →
  bufs ≡ₚ a :: row (m_in_prio ps) (Z.to_nat vnet) → StronglySorted (by_prio st') bufs →
  (∀ v, row (m_in_prio ps') v = if decide (Z.to_nat vnet = v) then bufs else row (m_in_prio ps) v) →
  (∀ v, row (m_in_prio_groups ps') v = if decide (Z.to_nat vnet = v) then prio_groups st' bufs else row (m_in_prio_groups ps) v) →
  wired st' ps'.
Proof.
  intros Hw Hna Hv Es Eb Eb' Ek' Hbufs Hsort Hrow Hgrow.
  assert (∀ a', prio_of st' a' = prio_of st a') as Hpr by by eapply prio_of_put.
  assert (∀ v a', input st' ps' v a' ↔ (a' = a ∧ v = vnet) ∨ input st ps v a') as Hin.
  { intros v a'. unfold input. rewrite Eb', Ek', Es. destruct (decide (a = a')) as [<-|Hne].
    - rewrite !lookup_insert_eq. split; [intros (b' & [= <-] & _ & <-); by left|]. intros [[_ ->]|Hi]; [|by destruct (Hna v)]. by eexists.
    - rewrite !lookup_insert_ne by done. split; [by right|]. by intros [[-> _]|?]. }
  split; intros v.
  - rewrite Hrow, Hgrow. case_decide; [done|]. rewrite (wi_groups _ _ Hw). symmetry. by apply prio_groups_ext.
  - intros a'. rewrite Hrow, Hin, <- (wi_inputs _ _ Hw). case_decide as E; [subst v; rewrite Hbufs, elem_of_cons, Z2Nat.id by lia; naive_solver|].
    split; [by right|]. intros [[-> <-]|?]; [|done]. by rewrite Nat2Z.id in E.
  - rewrite Hrow. case_decide; [|apply Hw]. rewrite Hbufs. constructor; [|apply Hw]. intros Hi%(wi_inputs _ _ Hw). by eapply Hna.
  - rewrite Hrow. case_decide; [done|]. apply (sorted_ext st' st); [by intros|apply Hw].
Qed.

Lemma add_in_buffer_ok st ps port vnet a b : wired st ps → connected st → 0 ≤ vnet → buffers st !! a = Some b → m_consumer (wires b) = false →
  ∃ ps' st', add_in_buffer port vnet (Some a) (ps, st) = Ok (ps', st') ∧ wired st' ps' ∧ connected st' ∧ same_ports ps ps' ∧
    buffers st' = <[a := connect b port vnet]> (buffers st) ∧ consumer_of st' = <[a := self ps]> (consumer_of st) ∧
    consumers st' = consumers st ∧ Store.pending st' = Store.pending st.
Proof.
  intros Hw Hco Hv Eb Hn. unfold add_in_buffer, Store.setConsumer, deref. cbn [of_option rbind]. rewrite Eb. cbn [of_option rbind].
  unfold MessageBuffer.setConsumer. rewrite Hn. cbn [negb require rbind]. unfold put. cbn [buffers consumer_of consumers Store.pending Store.rng].
  rewrite lookup_insert_eq. cbn [of_option rbind]. rewrite insert_insert_eq.
  change (setVnet (setIncomingLink (with_wires b _) port) vnet) with (connect b port vnet).
  set (st' := Store.mk _ _ _ _ _).
  assert (∀ v, ¬ input st ps v a) as Hna. { intros v (b0 & E0 & Ek & _). simplify_eq. by rewrite (Hco a b Eb Hn) in Ek. }
  destruct (updatePriorityGroups_ok st' ps vnet a Hv) as (ps' & bufs & -> & Hsp & Hbufs & Hsort & Hrow & Hgrow).
  { apply Forall_app. split; [|apply Forall_singleton; simpl; rewrite lookup_insert_eq; eauto]. apply Forall_forall.
    intros a' (b' & Eb' & _)%(wi_inputs _ _ Hw). simpl. destruct (decide (a = a')) as [<-|?]; [rewrite lookup_insert_eq; eauto|].
    rewrite lookup_insert_ne by done. eauto. }
  cbn [rbind]. exists ps', st'. split; [done|]. pose proof Hsp as (_ & Es & _). split; [|split; [|by split]].
  - by eapply wired_step.
  - intros a' b'. simpl. intros [[<- <-]|[Hne E]]%lookup_insert_Some Hc; [done|]. rewrite lookup_insert_ne by done. by eapply Hco.
Qed.

Lemma prio_groups_concat st bufs : StronglySorted (by_prio st) bufs → concat (prio_groups st bufs) = bufs.
Proof.
  intros Hs. destruct (head bufs) as [h|] eqn:E; [|by destruct bufs]. set (l := (λ a, (a, prio_of st a)) <$> bufs).
  assert (l.*1 = bufs) as El by (unfold l; rewrite <- list_fmap_compose; apply list_fmap_id).
  destruct (groups_spec st l (h, prio_of st h)) as [Eg _].
  - unfold l. clear E El l. induction Hs as [|a bs Hs IH Hall]; [constructor|]. rewrite fmap_cons. constructor; [done|].
    apply Forall_forall. intros i (a' & -> & Ha')%list_elem_of_fmap. rewrite Forall_forall in Hall. by apply Hall.
  - apply Forall_forall. by intros i (a & -> & _)%list_elem_of_fmap.
  - unfold l. destruct bufs; [done|]. by injection E as ->.
  - rewrite El in Eg. rewrite <- Eg, concat_groups. done.
Qed.

Lemma prio_groups_tail st bufs : Forall (λ g, length g = 1%nat) (tail (prio_groups st bufs)).
Proof. destruct bufs; [constructor|]. simpl. apply Forall_forall. by intros g (a & -> & _)%list_elem_of_fmap. Qed.

(** C24. The input buffers of a new port are entered. Each buffer that is not null
    gets the switch as its consumer, the number of the port and its virtual
    network, and nothing else changes. For every virtual network the groups then
    hold each input of the switch once, in the order of the priorities, so the
    handlers visit all of them. But only the first group has buffers of the same
    priority: [cur_prio] is not advanced, and every other group has one buffer. *)
Theorem inputs_entered st ps ins (Hw : wired st ps) (Hco : connected st)
    (Hfree : ∀ i a, ins !! i = Some (Some a) → ∃ b, buffers st !! a = Some b ∧ m_consumer (wires b) = false)
    (Hdis : ∀ i j a, ins !! i = Some (Some a) → ins !! j = Some (Some a) → i = j) :
  ∃ ps' st', addInPort st ps ins = Ok (ps', st') ∧ wired st' ps' ∧ connected st' ∧
    self ps' = self ps ∧ m_in ps' = m_in ps ++ [ins] ∧ m_out ps' = m_out ps ∧
    (∀ i a b, ins !! i = Some (Some a) → buffers st !! a = Some b →
       buffers st' !! a = Some (connect b (zlen (m_in ps)) (Z.of_nat i)) ∧ consumer_of st' !! a = Some (self ps)) ∧
    (∀ a, (∀ i, ins !! i ≠ Some (Some a)) → buffers st' !! a = buffers st !! a ∧ consumer_of st' !! a = consumer_of st !! a) ∧
    ∀ v, let gs := default [] (m_in_prio_groups ps' !! v) in
      (∀ a, a ∈ concat gs ↔ input st' ps' (Z.of_nat v) a) ∧ NoDup (concat gs) ∧ StronglySorted (by_prio st') (concat gs) ∧
      Forall (λ g, length g = 1%nat) (tail gs).
Proof.
  unfold addInPort. set (ps0 := PerfectSwitch.mk _ _ (m_in ps ++ [ins]) _ _ _ _ _).
  destruct (loop_from_inv (λ j q, wired q.2 q.1 ∧ connected q.2 ∧ same_ports ps0 q.1 ∧
    (∀ i a b, ins !! i = Some (Some a) → buffers st !! a = Some b → if decide (Z.of_nat i < j)
       then buffers q.2 !! a = Some (connect b (zlen (m_in ps)) (Z.of_nat i)) ∧ consumer_of q.2 !! a = Some (self ps)
       else buffers q.2 !! a = Some b) ∧
    (∀ a, (∀ i, ins !! i ≠ Some (Some a)) → buffers q.2 !! a = buffers st !! a ∧ consumer_of q.2 !! a = consumer_of st !! a))
    (length ins) 0 (λ i s, let* p := vget ins i in add_in_buffer (zlen (m_in ps)) i p s) (ps0, st)) as ([ps' st'] & E & Hw' & Hc' & Hsp & Hnew & Hold).
  - simpl. split; [by destruct Hw|]. split; [done|]. split; [done|]. split; [|done]. intros i a b _ Eb. by rewrite decide_False by lia.
  - intros j [ps1 st1] Hj (Hw1 & Hc1 & Hsp1 & Hnew & Hold). cbn [fst snd] in *.
    destruct (vget_inbounds ins j ltac:(lia)) as ([a|] & -> & Ea); cbn [rbind].
    + destruct (Hfree _ a Ea) as (b & Eb & Hcb). pose proof (Hnew _ a b Ea Eb) as Eb1. rewrite decide_False in Eb1 by lia.
      destruct (add_in_buffer_ok st1 ps1 (zlen (m_in ps)) j a b Hw1 Hc1 ltac:(lia) Eb1 Hcb) as (ps2 & st2 & -> & Hw2 & Hc2 & Hsp2 & Eb2 & Ek2 & _).
      exists (ps2, st2). split; [done|]. cbn [fst snd]. split; [done|]. split; [done|]. split; [by eapply same_ports_trans|].
      rewrite Eb2, Ek2. destruct Hsp1 as (_ & Es & _). rewrite Es. split.
      * intros i a' b' Ea' Eb'. destruct (decide (a = a')) as [<-|Hne].
        -- rewrite !lookup_insert_eq. rewrite (Hdis i (Z.to_nat j) a Ea' Ea). rewrite Z2Nat.id, decide_True by lia. by simplify_eq.
        -- rewrite !lookup_insert_ne by done. specialize (Hnew i a' b' Ea' Eb'). assert (Z.of_nat i ≠ j).
           { intros <-. rewrite Nat2Z.id in Ea. congruence. }
           destruct (decide (Z.of_nat i < j)); [rewrite decide_True by lia|rewrite decide_False by lia]; done.
      * intros a' Ha'. assert (a ≠ a') by (intros <-; by apply (Ha' _ Ea)). rewrite !lookup_insert_ne by done. by apply Hold.
    + exists (ps1, st1). split; [done|]. do 3 (split; [done|]). split; [|done]. intros i a b Ea' Eb'. specialize (Hnew i a b Ea' Eb').
      assert (Z.of_nat i ≠ j). { intros <-. rewrite Nat2Z.id in Ea. congruence. }
      destruct (decide (Z.of_nat i < j)); [rewrite decide_True by lia|rewrite decide_False by lia]; done.
  - exists ps', st'. split; [done|]. simpl in *. destruct Hsp as (_ & ? & ? & ? & _). do 5 (split; [done|]). split; [|split; [done|]].
    + intros i a b Ea Eb. specialize (Hnew i a b Ea Eb). rewrite decide_True in Hnew; [done|]. apply lookup_lt_Some in Ea. lia.
    + intros v. simpl. change (default [] (m_in_prio_groups ps' !! v)) with (row (m_in_prio_groups ps') v).
      rewrite (wi_groups _ _ Hw'), prio_groups_concat by apply Hw'. split; [apply Hw'|]. split; [apply Hw'|]. split; [apply Hw'|]. apply prio_groups_tail.
Qed.

End Ports.

(** ** A port with two buffers *)

Section OnePort.
Import MessageBuffer PerfectSwitch.

Definition loose (prio : Z) : MessageBuffer.t nat := MessageBuffer.new (mkConfig 0 0 false disabled false prio).
Definition loose_store : Store.t nat :=
  Store.mk (<[0%nat := loose 1]> {[1%nat := loose 0]}) ∅ ∅ ∅ (λ _, (0, 0, 0)).

Lemma inputs_entered_witness :
  ∃ ps' st', addInPort loose_store (PerfectSwitch.new 0 10 3) [Some 0%nat; None; Some 1%nat] = Ok (ps', st') ∧
    Store.consumer_of st' !! 1%nat = Some 10%nat ∧ wired st' ps'.
Proof.
  destruct (inputs_entered loose_store (PerfectSwitch.new 0 10 3) [Some 0%nat; None; Some 1%nat])
    as (ps' & st' & E & Hw & _ & _ & _ & _ & Hnew & _).
  - split; intros v; [done| |constructor|constructor]. intros a. split; [intros Ha; by apply not_elem_of_nil in Ha|].
    intros (b & _ & Ek & _). simpl in Ek; by rewrite lookup_empty in Ek.
  - intros a b _ _. apply lookup_empty.
  - intros [|[|[|i]]] a [= <-]; eexists; by split.
  - intros [|[|[|i]]] [|[|[|j]]] a [= <-]; done.
  - exists ps', st'. split; [done|]. split; [|done]. by destruct (Hnew 2%nat 1%nat (loose 0) eq_refl eq_refl).
Defined.

End OnePort.
