(* ===== verification/SwitchSpec.v ===== *)
(** The crossbar of a switch: one wake-up handles the messages that are due without
    failing, loses and duplicates nothing, and leaves none behind unannounced. *)

From stdpp Require Import prelude list gmap sorting.
From Stdlib Require Import ZArith Lia.
From S2P Require Import Prelude Replacement NetDest NetDestSpec Heap Clocking MessageBuffer MessageBufferSpec Routing NetExample RoutingSpec StoreSpec DeviceSpec Switch WiringSpec.

Open Scope Z_scope.

Section Crossbar.
Import Message MessageBuffer Store WeightBased PerfectSwitch.
Context (N : Z) {R A B : Type} `{MachineTypes R} (rs : R) `{!MachineLaws N rs}.
Context `{NetMessage R A} (body : A → B) `{!NetMessageLaws body} `{HeapLaws (Message.t A)}.
Context `{SortLaws (LinkInfo R)} `{SortOps (nat * Z)} (g : NetConfig).
Implicit Types (st : Store.t A) (b : MessageBuffer.t A) (m : Message.t A) (now v : Z) (c : Consumer.t).
Implicit Types (a k : nat) (x : MachineID.t) (ps : PerfectSwitch.t) (u : WeightBased.t R) (r : RouteInfo R).

Abbreviation store_ok := (store_ok N rs).
Abbreviation flight := (flight N body).
Abbreviation load := (load N).
Abbreviation goes_to := (goes_to N).
Abbreviation weight := (weight N).

(** The outputs with their latencies. *)
Definition outputs ps (a : nat) (lat : Z) : Prop := ∃ v id, out_buffer ps v id = Ok (Some a, lat).

Abbreviation moved now ps := (moved (self ps) (outputs ps) (randomization g) now).
Abbreviation handled now ps := (handled N body (self ps) (outputs ps) (randomization g) now).

(** A switch in its network: the outputs are different buffers that may be sent to,
    the inputs are known by virtual network, and every message at an input can be
    routed. *)
Record switch_ok now st u ps : Prop := {
  sw_unit : unit_ok rs u;
  sw_fixed : adaptive_routing u = false;
  sw_ids l : l ∈ m_links u → 0 ≤ m_link_id l < zlen (m_out ps);
  sw_outs v id : 0 ≤ v < m_virtual_networks ps → 0 ≤ id < zlen (m_out ps) →
    ∃ a lat b k c, out_buffer ps v id = Ok (Some a, lat) ∧ buffers st !! a = Some b ∧
      consumer_of st !! a = Some k ∧ k ≠ self ps ∧ consumers st !! k = Some c ∧
      port_ok now lat (randomization g) b ∧ now + lat + 2 * period c < 2 ^ 64;
  sw_inj v v' id id' a lat lat' : out_buffer ps v id = Ok (Some a, lat) →
    out_buffer ps v' id' = Ok (Some a, lat') → v = v' ∧ id = id';
  sw_groups v a : 0 ≤ v < m_virtual_networks ps →
    a ∈ concat (default [] (m_in_prio_groups ps !! Z.to_nat v)) ↔ input st ps v a;
  sw_pending : ∃ l, Store.pending st !! self ps = Some l ∧ zlen l = m_virtual_networks ps;
  sw_self : ∃ c, consumers st !! self ps = Some c ∧ (period c | now);
  sw_ordered : m_virtual_networks ps ≤ zlen (m_ordered g);
  sw_cover a b m : consumer_of st !! a = Some (self ps) → buffers st !! a = Some b → m ∈ heap_of b →
    covered N (goes_to m) (m_links u);
}.

Lemma moved_switch now st st' u ps : moved now ps st st' → switch_ok now st u ps → switch_ok now st' u ps.
Proof.
  intros (Hw & He & Ht & _) Hs. pose proof Hw as (Eo & Hp & Hc).
  assert (∀ a b, buffers st !! a = Some b → ∃ b', buffers st' !! a = Some b' ∧ wires b' = wires b ∧ cfg b' = cfg b ∧
    ∀ lat, outputs ps a lat → port_ok now lat (randomization g) b → port_ok now lat (randomization g) b') as Hb.
  { intros a b E. specialize (He a). rewrite E in He. inv He as [? b' Hb Eb'|]. by exists b'. }
  split; try apply Hs.
  - intros v id Hv Hid. destruct (sw_outs _ _ _ _ Hs v id Hv Hid) as (a & lat & b & k & c & Eout & Eb & Ek & Hne & Ec & Hport & Hov).
    destruct (Hb a b Eb) as (b' & Eb' & _ & _ & Hport'). destruct (wiring_consumer _ _ _ _ _ Hw Ec) as (c' & Ec' & (Hper & _)).
    exists a, lat, b', k, c'. rewrite Eo, Hper. assert (outputs ps a lat) by (by exists v, id). eauto 10.
  - intros v a Hv. rewrite (sw_groups _ _ _ _ Hs v a Hv). unfold input. rewrite Eo. split.
    + intros (b & Eb & ? & ?). destruct (Hb a b Eb) as (b' & Eb' & Ew & _). exists b'. by rewrite Ew.
    + intros (b' & Eb' & ? & ?). pose proof (He a) as Hea. rewrite Eb' in Hea. inv Hea as [b ? (Ew & _) Eb|]. exists b. by rewrite <- Ew.
  - destruct (sw_pending _ _ _ _ Hs) as (l & El & Hl). specialize (Hp (self ps)). rewrite El in Hp. inv Hp as [? l' Hl' El'|]. exists l'. split; [done|lia].
  - destruct (sw_self _ _ _ _ Hs) as (c & Ec & Hd). destruct (wiring_consumer _ _ _ _ _ Hw Ec) as (c' & Ec' & (Hper & _)). exists c'. by rewrite Hper.
  - intros a b' m Ek Eb' Hm. rewrite Eo in Ek. pose proof (He a) as Hea. rewrite Eb' in Hea. inv Hea as [b ? _ Eb|].
    eapply sw_cover; [done|done|done|]. by eapply Ht.
Qed.

(** *** One message *)

(** The outputs of the links of a message have room. *)
Definition rooms now ps v (routes : list (RouteInfo R)) st : Prop :=
  ∀ r a lat b, r ∈ routes → out_buffer ps v (r_link_id r) = Ok (Some a, lat) → buffers st !! a = Some b → has_room now b.

Lemma check_outputs_spec now st u ps v routes enough : store_ok now st → switch_ok now st u ps →
  0 ≤ v < m_virtual_networks ps → Forall (λ r, 0 ≤ r_link_id r < zlen (m_out ps)) routes →
  ∃ e st', check_outputs st ps v now routes enough = Ok (e, st') ∧ quiet now st st' ∧
    (e = true → enough = true ∧ rooms now ps v routes st') ∧ (enough = true → rooms now ps v routes st → e = true).
Proof.
  intros Hs Hsw Hv Hr. revert st enough Hs Hsw. induction Hr as [|r routes Hid Hr IH]; intros st enough Hs Hsw; simpl.
  { exists enough, st. split; [done|]. split; [by eapply quiet_refl|]. split; [|done]. intros ->. split; [done|].
    intros r a lat b Hr'. by apply not_elem_of_nil in Hr'. }
  destruct (sw_outs _ _ _ _ Hsw v (r_link_id r) Hv Hid) as (a & lat & b & k & c & Eout & Eb & _).
  rewrite Eout. cbn [rbind]. destruct (slots_store N rs now st a b Hs Eb) as (e1 & st1 & -> & Hq & Hroom). cbn [rbind].
  destruct (IH st1 (if e1 then enough else false)) as (e & st' & -> & Hq' & He & Hen);
    [by eapply quiet_ok|by eapply moved_switch; [apply quiet_moved|]|].
  exists e, st'. split; [done|]. split; [by eapply quiet_trans|]. split; cycle 1.
  { intros -> Hrooms. apply Hen.
    - rewrite (proj2 Hroom); [done|]. eapply Hrooms; [apply list_elem_of_here|done..].
    - intros r' a' lat' b' Hr' E Eb'. destruct (quiet_buffer _ _ _ _ _ Hq Eb') as (b0 & E0 & Ha).
      eapply has_room_alike; [done|]. eapply Hrooms; [by apply list_elem_of_further|done..]. }
  intros ->. destruct (He eq_refl) as [He1 Hrooms].
  destruct e1; [|done]. split; [done|]. intros r' a' lat' b' [->|Hr']%elem_of_cons E Eb'; [|by eapply Hrooms].
  rewrite Eout in E. injection E as <- <-. pose proof (quiet_trans _ _ _ _ Hq Hq') as Hqq.
  destruct (quiet_buffer _ _ _ _ _ Hqq Eb') as (b0 & E0 & Ha). simplify_eq. eapply has_room_alike; [done|by apply Hroom].
Qed.

(** One copy of a message is sent. *)
Lemma send_spec now st u ps v r m : store_ok now st → counts_ok st → switch_ok now st u ps →
  0 ≤ v < m_virtual_networks ps → 0 ≤ r_link_id r < zlen (m_out ps) → rooms now ps v [r] st →
  m_LastEnqueueTime m ≤ now → valid rs (m_destinations r) →
  load st + Z.max 1 (Z.of_nat (size (members N (m_destinations r)))) < 2 ^ 30 →
  let m' := Message.with_payload m (setDestination (m_destinations r) (payload m)) in
  ∃ a lat b st', out_buffer ps v (r_link_id r) = Ok (Some a, lat) ∧ buffers st !! a = Some b ∧
    Store.enqueue now st (Some a) m' now lat (randomization g) (warmupEnabled g) = Ok st' ∧
    store_ok now st' ∧ counts_ok st' ∧ moved now ps st st' ∧
    buffers st' = <[a := received now lat (warmupEnabled g) b m']> (buffers st) ∧
    load st' = load st + Z.max 1 (Z.of_nat (size (members N (m_destinations r)))) ∧
    (∀ x, flight x st' ≡ₚ (if decide (x ∈ members N (m_destinations r)) then [body (payload m)] else []) ++ flight x st).
Proof.
  intros Hs Hcnt Hsw Hv Hid Hroom Hm Hd Hl m'.
  destruct (sw_outs _ _ _ _ Hsw v (r_link_id r) Hv Hid) as (a & lat & b & k & c & Eout & Eb & Ek & Hne & Ec & Hport & Hov).
  assert (getDestination (payload m') = m_destinations r) as Ed by (simpl; apply get_setDestination).
  assert (goes_to m' = members N (m_destinations r)) as Eg by (unfold StoreSpec.goes_to; by rewrite Ed).
  destruct (send_moved N rs body (self ps) (outputs ps) (randomization g) now st a b k c m' lat (warmupEnabled g))
    as (st' & E & Hs' & Hcnt' & Hm' & Eb' & Hl' & Hf'); try done.
  - eapply Hroom; [apply list_elem_of_here|done..].
  - intros lat' (v1 & id1 & E1). destruct (sw_inj _ _ _ _ Hsw _ _ _ _ _ _ _ Eout E1) as [<- <-]. congruence.
  - by rewrite Ed.
  - unfold StoreSpec.weight. by rewrite Eg.
  - exists a, lat, b, st'. do 7 (split; [done|]). unfold StoreSpec.weight in Hl'. rewrite Eg in Hl'. split; [done|].
    intros x. rewrite Hf', Eg. simpl. by rewrite body_setDestination.
Qed.

(** The deliveries of the copies, and those to one machine. *)
Definition route_load (routes : list (RouteInfo R)) : Z :=
  foldr (λ r n, Z.max 1 (Z.of_nat (size (members N (m_destinations r)))) + n) 0 routes.
Definition copies x (y : B) (routes : list (RouteInfo R)) : list B :=
  concat ((λ r, if decide (x ∈ members N (m_destinations r)) then [y] else []) <$> routes).

Lemma route_load_nonneg routes : 0 ≤ route_load routes.
Proof. induction routes; simpl; lia. Qed.

Lemma rooms_tail now ps v r routes st st' u a lat b b' : switch_ok now st u ps →
  NoDup (r_link_id <$> r :: routes) → out_buffer ps v (r_link_id r) = Ok (Some a, lat) → buffers st !! a = Some b →
  buffers st' = <[a := b']> (buffers st) → rooms now ps v (r :: routes) st → rooms now ps v routes st'.
Proof.
  intros Hsw Hnd Eout Eb Eb' Hrooms r' a' lat' b1 Hr' E' E1. rewrite Eb' in E1.
  apply lookup_insert_Some in E1 as [[<- <-]|[? E1]]; [|eapply Hrooms; [by apply list_elem_of_further|done..]].
  destruct (sw_inj _ _ _ _ Hsw _ _ _ _ _ _ _ Eout E') as [_ Eid].
  rewrite fmap_cons in Hnd. apply NoDup_cons in Hnd as [Hni _]. destruct Hni. rewrite Eid. by apply list_elem_of_fmap_2.
Qed.

Lemma enqueue_outputs_spec now st u ps v routes msg unmodified : store_ok now st → counts_ok st → switch_ok now st u ps →
  0 ≤ v < m_virtual_networks ps →
  Forall (λ r, 0 ≤ r_link_id r < zlen (m_out ps) ∧ valid rs (m_destinations r)) routes →
  NoDup (r_link_id <$> routes) → rooms now ps v routes st → m_LastEnqueueTime msg ≤ now →
  m_LastEnqueueTime unmodified ≤ now → payload msg = payload unmodified → load st + route_load routes < 2 ^ 30 →
  ∃ st', enqueue_outputs g now st ps v now msg unmodified routes = Ok st' ∧
    store_ok now st' ∧ counts_ok st' ∧ moved now ps st st' ∧
    load st' = load st + route_load routes ∧ (∀ x, flight x st' ≡ₚ copies x (body (payload unmodified)) routes ++ flight x st) ∧
    (∀ a, consumer_of st !! a = Some (self ps) → buffers st' !! a = buffers st !! a).
Proof.
  intros Hs Hcnt Hsw Hv Hr. revert st msg Hs Hcnt Hsw.
  induction Hr as [|r routes [Hid Hd] Hr IH]; intros st msg Hs Hcnt Hsw Hnd Hrooms Hm Hu Ep Hl; simpl.
  { exists st. do 3 (split; [done|]). split; [by eapply quiet_moved, quiet_refl|]. split; [simpl; lia|]. done. }
  simpl in Hl. pose proof (route_load_nonneg routes).
  destruct (send_spec now st u ps v r msg Hs Hcnt Hsw Hv Hid) as (a & lat & b & st1 & Eout & Eb & E & Hs1 & Hcnt1 & Hm1 & Eb1 & Hl1 & Hf1);
    [|done|done|lia|].
  { intros r' a lat b ->%list_elem_of_singleton. apply Hrooms, list_elem_of_here. }
  rewrite Eout. cbn [rbind]. rewrite E. cbn [rbind].
  destruct (IH st1 unmodified Hs1 Hcnt1) as (st' & -> & Hs' & Hcnt' & Hm' & Hl' & Hf' & Hin').
  { by eapply moved_switch. } { rewrite fmap_cons in Hnd. by apply NoDup_cons in Hnd as [_ ?]. }
  { by eapply rooms_tail. } { done. } { done. } { done. } { lia. }
  exists st'. do 3 (split; [done|]). split; [by eapply moved_trans|]. split; [lia|]. split.
  - intros x. rewrite Hf', Hf1, Ep. unfold copies. rewrite fmap_cons. simpl. rewrite !app_assoc. f_equiv. apply Permutation_app_comm.
  - intros a' Ek. destruct Hm1 as ((Eo & _) & _). rewrite Hin' by by rewrite Eo. rewrite Eb1, lookup_insert_ne; [done|].
    intros <-. destruct (sw_outs _ _ _ _ Hsw v (r_link_id r) Hv Hid) as (a1 & lat1 & b1 & k1 & c1 & Eout1 & _ & Ek1 & Hne & _).
    rewrite Eout in Eout1. injection Eout1 as <- <-. congruence.
Qed.

(** Taking the first message of an input takes it from the count, too. *)
Lemma take_spec now st u ps v a b : store_ok now st → counts_ok st → switch_ok now st u ps → 0 ≤ v < m_virtual_networks ps →
  buffers st !! a = Some b → consumer_of st !! a = Some (self ps) → m_vnet_id (wires b) = v → can_dequeue now b →
  ∃ m h m' st1 st2 b', heap_of b = m :: h ∧ Store.dequeue now st (Some a) now = Ok (m', st1) ∧
    count_down st1 ps v = Ok st2 ∧ payload m' = payload m ∧ m_LastEnqueueTime m' ≤ now ∧ m_LastEnqueueTime m ≤ now ∧
    store_ok now st2 ∧ counts_ok st2 ∧ moved now ps st st2 ∧ buffers st2 = <[a := b']> (buffers st) ∧
    heap_of b' ≡ₚ h ∧ wires b' = wires b ∧ load st2 = load st - weight m ∧
    ∀ x, flight x st ≡ₚ (if decide (x ∈ goes_to m) then [body (payload m)] else []) ++ flight x st2.
Proof.
  intros Hs Hcnt Hsw Hv Eb Ek Ev Hcan.
  destruct (dequeue_store N rs now st a b Hs Eb Hcan) as (m & h & m' & st1 & b' & Eh & Ed & Ep & Hm' & Hm & Hs1 & Eb1 & Hh & Ecf & Ew & Eo & Eco & Ecs & Epd & Hl & Hw).
  destruct (sw_pending _ _ _ _ Hsw) as (l & El & Hlen).
  destruct (vget_inbounds l v) as (n & Eg & En); [lia|].
  assert (n = waiting st (self ps) v) as Hn by (pose proof (Hcnt _ _ _ _ El En) as E; by rewrite Z2Nat.id in E by lia).
  pose proof (waiting_bounds N st (self ps) v). pose proof (waiting_bounds N st1 (self ps) v) as Hn1. pose proof (so_load _ _ _ _ Hs).
  rewrite Hw, decide_True in Hn1 by done.
  exists m, h, m', st1, (put_pending st1 (self ps) (<[Z.to_nat v := n - 1]> l)), b'.
  split; [done|]. split; [done|]. split.
  { unfold count_down. rewrite Epd, El. cbn [of_option rbind]. rewrite Eg. cbn [rbind].
    rewrite chk_i32_Ok by lia. cbn [rbind]. by rewrite vset_inbounds by lia. }
  rewrite <- Epd in El.
  destruct (pending_ok N rs now st1 (self ps) l (<[Z.to_nat v := n - 1]> l) Hs1 El) as [Hs2 Hw2]; [by rewrite length_insert|].
  do 3 (split; [done|]). split; [done|]. split; [|split; [|do 4 (split; [done|])]].
  - eapply (put_counts st1 _ (self ps) l v n (n - 1)); [done|done|lia| |done]. intros k1 l1 v1 n1 El1 En1. rewrite Epd in El1.
    rewrite Hw, (Hcnt _ _ _ _ El1 En1), Ek, Ev. do 2 case_decide; try lia; naive_solver.
  - eapply shrink_moved; [|done|simpl; done|done|done|done|intros m1; rewrite Hh, Eh; apply list_elem_of_further].
    destruct Hw2 as (? & Hp2 & Hc2). split; [congruence|]. split; intros k1; [rewrite <- Epd; apply Hp2|rewrite <- Ecs; apply Hc2].
  - intros x. unfold StoreSpec.flight. simpl. rewrite Eb1. etrans; [|apply (mconcat_put _ _ a b'); [apply lookup_insert_eq|]].
    + rewrite insert_insert_eq, insert_id by done. reflexivity.
    + apply bound_cons. by rewrite Eh, Hh.
Qed.

(** Without adaptive routing a unit does not change, and the links of a message are
    those that serve its destinations. *)
Lemma route_fixed now st u ps m ordered : switch_ok now st u ps → valid rs (getDestination (payload m)) →
  covered N (goes_to m) (m_links u) →
  ∃ routes, WeightBased.route N now st u m ordered [] = Ok (routes, u, st) ∧
    Forall (λ r, 0 ≤ r_link_id r < zlen (m_out ps) ∧ valid rs (m_destinations r)) routes ∧
    NoDup (r_link_id <$> routes) ∧ route_load routes ≤ weight m ∧
    ∀ x, copies x (body (payload m)) routes = if decide (x ∈ goes_to m) then [body (payload m)] else [].
Proof.
  intros Hsw Hd Hc. destruct (sw_unit _ _ _ _ Hsw) as ((Hnd & Hv) & _). unfold WeightBased.route. rewrite (sw_fixed _ _ _ _ Hsw).
  cbn [rbind]. unfold findRoute. simpl. destruct (find_links_ok N rs _ _ Hd Hv) as [Hok _]. destruct (Hok Hc) as (routes & -> & Hr).
  cbn [rbind]. exists routes. split; [done|].
  assert (r_link_id <$> routes = (serve N (goes_to m) (m_links u)).*2) as Eid.
  { clear -Hr. unfold StoreSpec.goes_to. induction Hr as [|r s ? ? (_ & _ & ?)]; [done|]. rewrite !fmap_cons. by f_equal. }
  split; [|split; [|split]].
  - apply Forall_forall. intros r [i Hi]%list_elem_of_lookup. destruct (Forall2_lookup_l _ _ _ _ _ Hr Hi) as ([X id] & Hs0 & (? & _ & Ei)).
    split; [|done]. apply list_elem_of_lookup_2, serve_in in Hs0 as (_ & _ & l & Hl & El & _). simpl in Ei. rewrite Ei, <- El. by eapply sw_ids.
  - rewrite Eid. eapply sublist_NoDup; [done|apply serve_ids].
  - pose proof (serve_size N _ _ Hc) as Hsz. unfold StoreSpec.weight. rewrite <- Hsz. etrans; [|apply Z.le_max_r].
    clear -Hr. unfold StoreSpec.goes_to. induction Hr as [|r s ? ? (_ & E & _)]; simpl; [lia|]. rewrite E. lia.
  - intros x. rewrite <- (serve_once N _ (m_links u) x (body (payload m)) (Hc x)). unfold copies. f_equal.
    clear -Hr. unfold StoreSpec.goes_to. induction Hr as [|r s ? ? (_ & E & _)]; [done|]. rewrite !fmap_cons, E. by f_equal.
Qed.

(** Taking a message from an input leaves the room at the outputs. *)
Lemma rooms_taken now ps v routes st st' u a b' : switch_ok now st u ps → 0 ≤ v < m_virtual_networks ps →
  Forall (λ r, 0 ≤ r_link_id r < zlen (m_out ps) ∧ valid rs (m_destinations r)) routes →
  consumer_of st !! a = Some (self ps) → buffers st' = <[a := b']> (buffers st) →
  rooms now ps v routes st → rooms now ps v routes st'.
Proof.
  intros Hsw Hv Hr Ek Eb' Hrooms r a1 lat b1 Hin Eout E1. rewrite Eb' in E1. rewrite Forall_forall in Hr. destruct (Hr r Hin) as [Hid _].
  destruct (sw_outs _ _ _ _ Hsw v (r_link_id r) Hv Hid) as (a2 & lat2 & b2 & k & c & Eout2 & _ & Ek2 & Hne & _).
  rewrite Eout in Eout2. injection Eout2 as <- <-. rewrite lookup_insert_ne in E1 by congruence. by eapply Hrooms.
Qed.

(** A message that can leave does. *)
Lemma pass_spec now st u ps v a b m h routes : store_ok now st → counts_ok st → switch_ok now st u ps →
  0 ≤ v < m_virtual_networks ps → buffers st !! a = Some b → consumer_of st !! a = Some (self ps) →
  m_vnet_id (wires b) = v → can_dequeue now b → heap_of b = m :: h →
  Forall (λ r, 0 ≤ r_link_id r < zlen (m_out ps) ∧ valid rs (m_destinations r)) routes →
  NoDup (r_link_id <$> routes) → route_load routes ≤ weight m →
  (∀ x, copies x (body (payload m)) routes = if decide (x ∈ goes_to m) then [body (payload m)] else []) →
  rooms now ps v routes st →
  ∃ msg st1 st2 st' b', Store.dequeue now st (Some a) now = Ok (msg, st1) ∧ count_down st1 ps v = Ok st2 ∧
    enqueue_outputs g now st2 ps v now msg m routes = Ok st' ∧ store_ok now st' ∧ counts_ok st' ∧ handled now ps st st' ∧
    buffers st' !! a = Some b' ∧ length (heap_of b') = length h ∧ wires b' = wires b.
Proof.
  intros Hs Hcnt Hsw Hv Eb Ek Ev Hcan Eh Hr Hnd Hload Hcopies Hrooms.
  destruct (take_spec now st u ps v a b Hs Hcnt Hsw Hv Eb Ek Ev Hcan)
    as (m0 & h0 & msg & st1 & st2 & b' & Eh0 & Ed & Ecd & Ep & Hmsg & Hm & Hs2 & Hcnt2 & Hm2 & Eb2 & Hh & Ew & Hl2 & Hf2).
  rewrite Eh in Eh0. injection Eh0 as <- <-. pose proof (so_load _ _ _ _ Hs). pose proof Hm2 as ((Eo & _) & _).
  destruct (enqueue_outputs_spec now st2 u ps v routes msg m Hs2 Hcnt2) as (st' & Ee & Hs' & Hcnt' & Hm' & Hl' & Hf' & Hin');
    [by eapply moved_switch|done..|by eapply rooms_taken|done|done|done|lia|].
  exists msg, st1, st2, st', b'. do 5 (split; [done|]). split; [|split; [|split; [by rewrite Hh|done]]].
  - split; [by eapply moved_trans|]. split; [|lia]. intros x. by rewrite Hf', Hf2, Hcopies.
  - rewrite Hin' by by rewrite Eo. rewrite Eb2. apply lookup_insert_eq.
Qed.

(** Outputs that always have room. *)
Definition unbounded ps st : Prop :=
  ∀ v id a lat b, out_buffer ps v id = Ok (Some a, lat) → buffers st !! a = Some b → m_max_size (cfg b) = 0.

Lemma unbounded_rooms now ps st v routes : unbounded ps st → rooms now ps v routes st.
Proof. intros Hu r a lat b _ E Eb. unfold has_room, MessageBuffer.areNSlotsAvailable. by rewrite (Hu _ _ _ _ _ E Eb). Qed.

(** An input that was handled: the switch will be woken for what is left, and with
    outputs that have room nothing is left that is due. *)
Definition cleared now ps st a : Prop :=
  alert now st a ∧
  ∀ b m, unbounded ps st → buffers st !! a = Some b → m_max_dequeue_rate (cfg b) = 0 → m ∈ heap_of b → now < m_LastEnqueueTime m.

Lemma moved_unbounded now ps st st' : moved now ps st st' → unbounded ps st' → unbounded ps st.
Proof.
  intros (_ & He & _) Hu v id a lat b E Eb. specialize (He a). rewrite Eb in He. inv He as [? b' (_ & Ec & _) Eb'|].
  rewrite <- Ec. by eapply Hu.
Qed.

Lemma moved_unbounded_2 now ps st st' : moved now ps st st' → unbounded ps st → unbounded ps st'.
Proof.
  intros (_ & He & _) Hu v id a lat b' E Eb'. specialize (He a). rewrite Eb' in He. inv He as [b ? (_ & Ec & _) Eb|].
  rewrite Ec. by eapply Hu.
Qed.

Lemma moved_cleared now ps st st' a : moved now ps st st' → consumer_of st !! a = Some (self ps) →
  cleared now ps st a → cleared now ps st' a.
Proof.
  intros Hm Ek [Ha Hd]. pose proof Hm as (_ & He & Ht & Hal). split; [auto|]. intros b' m Hu Eb' Hr Hin.
  specialize (He a). rewrite Eb' in He. inv He as [b ? (_ & Ec & _) Eb|]. rewrite Ec in Hr.
  eapply Hd; [by eapply moved_unbounded|done|done|by eapply Ht].
Qed.

(** The loop over the messages of an input ends, and leaves the input cleared. *)
Lemma forward_spec now u ps a v fuel st b : store_ok now st → counts_ok st → switch_ok now st u ps →
  0 ≤ v < m_virtual_networks ps → buffers st !! a = Some b → consumer_of st !! a = Some (self ps) →
  m_vnet_id (wires b) = v → (length (heap_of b) < fuel)%nat →
  ∃ st', forward N fuel g now now st u ps a v = Ok (st', u) ∧ store_ok now st' ∧ counts_ok st' ∧
    handled now ps st st' ∧ cleared now ps st' a.
Proof.
  revert st b. induction fuel as [|fuel IH]; intros st b Hs Hcnt Hsw Hv Eb Ek Ev Hf; [lia|]. simpl.
  destruct (isReady_store N rs now st a b Hs Eb) as (ready & st1 & -> & Hq & Eb1 & Hr & Ha). cbn [rbind].
  destruct ready; simpl; cycle 1.
  { exists st1. split; [done|]. split; [by eapply quiet_ok|]. split; [by eapply quiet_counts|]. split; [by apply quiet_handled|].
    destruct (Ha eq_refl) as [? Hn]. split; [done|]. intros b1 m _ E1. rewrite Eb1, Eb in E1. injection E1 as <-.
    eapply not_due; [by eapply so_buf|done]. }
  destruct (Hr eq_refl) as [-> Hcan]. clear Hr Ha Hq. pose proof Hcan as ((m & h & Eh & Hm) & _).
  unfold Store.peekMsgPtr. rewrite (deref_Some st a b Eb). cbn [rbind]. unfold peek, front. rewrite Eh. cbn [head of_option rbind].
  destruct (vget_inbounds (m_ordered g) v) as (ordered & -> & _); [pose proof (sw_ordered _ _ _ _ Hsw); lia|]. cbn [rbind].
  assert (m ∈ heap_of b) as Hin by (rewrite Eh; apply list_elem_of_here).
  destruct (route_fixed now st u ps m ordered Hsw) as (routes & -> & Hroutes & Hnd & Hload & Hcopies);
    [by eapply so_valid|by eapply sw_cover|]. cbn [rbind].
  destruct (check_outputs_spec now st u ps v routes true Hs Hsw Hv) as (enough & st2 & -> & Hq & Henough & Hroom).
  { eapply Forall_impl; [done|]. by intros ? []. } cbn [rbind].
  assert (store_ok now st2) as Hs2 by by eapply quiet_ok.
  assert (counts_ok st2) as Hcnt2 by by eapply quiet_counts.
  assert (switch_ok now st2 u ps) as Hsw2 by (eapply moved_switch; [by apply quiet_moved|done]).
  assert (consumer_of st2 !! a = Some (self ps)) as Ek2 by (destruct Hq as (-> & _); done).
  destruct enough; simpl; cycle 1.
  { destruct (sw_self _ _ _ _ Hsw2) as (c & Ec & _).
    destruct (retry_alert N rs (self ps) now st2 c Hs2 Ec) as (st' & -> & Hq' & Ha). exists st'. split; [done|].
    split; [by eapply quiet_ok|]. split; [by eapply quiet_counts|]. split; [by eapply quiet_handled, quiet_trans|].
    split; [auto|]. intros b1 m1 Hu. discriminate Hroom; [done|]. apply unbounded_rooms. eapply moved_unbounded; [|done].
    by eapply quiet_moved, quiet_trans. }
  destruct (Henough eq_refl) as [_ Hrooms]. destruct (quiet_buffer_2 _ _ _ _ _ Hq Eb) as (b2 & Eb2 & Hal).
  pose proof Hal as (Eq & _ & _ & Ew & _).
  destruct (pass_spec now st2 u ps v a b2 m h routes Hs2 Hcnt2 Hsw2 Hv Eb2 Ek2)
    as (msg & st3 & st4 & st5 & b5 & -> & Hcd & He & Hs5 & Hcnt5 & Hh5 & Eb5 & Hlen & Ew5);
    [by rewrite Ew|by eapply can_dequeue_alike|by rewrite Eq|done..|].
  cbn [rbind]. rewrite Hcd. cbn [rbind]. rewrite He. cbn [rbind]. pose proof Hh5 as (Hm5 & _). pose proof Hm5 as ((Eo5 & _) & _).
  destruct (IH st5 b5 Hs5 Hcnt5) as (st' & -> & Hs' & Hcnt' & Hh' & Ha');
    [by eapply moved_switch|done|done|by rewrite Eo5|by rewrite Ew5, Ew|rewrite Eh in Hf; simpl in Hf; lia|].
  exists st'. do 3 (split; [done|]). split; [|done]. eapply handled_trans; [by apply quiet_handled|]. by eapply handled_trans.
Qed.

(** *** All messages *)

(** The handlers run on a store that stays settled. *)
Definition settled now u ps st0 st : Prop :=
  store_ok now st ∧ counts_ok st ∧ switch_ok now st u ps ∧ handled now ps st0 st.

Lemma settled_refl now u ps st : store_ok now st → counts_ok st → switch_ok now st u ps → settled now u ps st st.
Proof. intros. split; [done|]. split; [done|]. split; [done|]. by eapply quiet_handled, quiet_refl. Qed.

Lemma settled_step now u ps st0 st st' : settled now u ps st0 st → store_ok now st' → counts_ok st' → handled now ps st st' →
  settled now u ps st0 st'.
Proof.
  intros (? & ? & ? & ?) ? ? Hh. pose proof Hh as (? & _). split; [done|]. split; [done|].
  split; [by eapply moved_switch|by eapply handled_trans].
Qed.

Lemma settled_trans now u ps st0 st1 st2 : settled now u ps st0 st1 → settled now u ps st1 st2 → settled now u ps st0 st2.
Proof. intros H1' (? & ? & _ & ?). by eapply settled_step. Qed.

Lemma settled_cleared now u ps st0 st v a : settled now u ps st0 st → input st0 ps v a → cleared now ps st0 a → cleared now ps st a.
Proof. intros (_ & _ & _ & Hm & _) (b & _ & Ek & _). by apply moved_cleared. Qed.

Lemma settled_input now u ps st0 st v a : settled now u ps st0 st → input st0 ps v a → input st ps v a.
Proof.
  intros (_ & _ & _ & ((Eo & _) & He & _) & _) (b & Eb & Ek & Ev). specialize (He a). rewrite Eb in He. inv He as [? b' (Ew & _) Eb'|].
  exists b'. rewrite Eo, Ew. done.
Qed.

Lemma operateMessageBuffer_spec now st u ps v a : store_ok now st → counts_ok st → switch_ok now st u ps →
  0 ≤ v < m_virtual_networks ps → input st ps v a →
  ∃ st', operateMessageBuffer N g now st u ps a v = Ok (st', u) ∧ settled now u ps st st' ∧ cleared now ps st' a.
Proof.
  intros Hs Hcnt Hsw Hv (b & Eb & Ek & Ev). destruct (sw_self _ _ _ _ Hsw) as (c & Ec & Hd). unfold operateMessageBuffer.
  destruct (clockEdge_store N rs now st (self ps) c Hs Ec Hd) as (st1 & -> & Hq & Eb1). cbn [rbind].
  rewrite (deref_Some st1 a b) by by rewrite Eb1. cbn [rbind]. pose proof Hq as (Eo & _).
  destruct (forward_spec now u ps a v (S (length (heap_of b))) st1 b) as (st' & -> & Hs' & Hcnt' & Hh' & Ha');
    [by eapply quiet_ok|by eapply quiet_counts|by eapply moved_switch; [apply quiet_moved|]|done|by rewrite Eb1|by rewrite Eo|done|lia|].
  exists st'. split; [done|]. split; [|done]. eapply settled_step; [by apply settled_refl|done|done|].
  eapply handled_trans; [by apply quiet_handled|done].
Qed.

Lemma oldest_spec st ps v bufs i start low : Forall (input st ps v) bufs → 0 ≤ start → start < i + zlen bufs ∨ start = 0 → 0 ≤ i →
  ∃ s, oldest st bufs i start low = Ok s ∧ 0 ≤ s ∧ (s < i + zlen bufs ∨ s = 0).
Proof.
  intros Hb. revert i start low. induction Hb as [|a bufs (b & Eb & _) Hb IH]; intros i start low Hs Hst Hi; simpl.
  { exists start. split; [done|]. split; [done|]. simpl in Hst. lia. }
  unfold Store.readyTime. rewrite (deref_Some st a b Eb). cbn [rbind].
  destruct (_ <? low).
  - destruct (IH (i + 1) i (MessageBuffer.readyTime b)) as (s & -> & ? & ?); [lia|lia|lia|]. exists s. simpl. split; [done|]. lia.
  - destruct (IH (i + 1) start low) as (s & -> & ? & ?); [lia|simpl in Hst; lia|lia|]. exists s. simpl. split; [done|]. lia.
Qed.

Lemma operate_group_spec now st u ps v bufs : store_ok now st → counts_ok st → switch_ok now st u ps →
  0 ≤ v < m_virtual_networks ps → Forall (input st ps v) bufs →
  ∃ st', operate_group N g now ps v bufs (st, u) = Ok (st', u) ∧ settled now u ps st st' ∧ ∀ a, a ∈ bufs → cleared now ps st' a.
Proof.
  intros Hs Hcnt Hsw Hv Hb. unfold operate_group. cbn [fst].
  destruct (oldest_spec st ps v bufs 0 0 (2 ^ 64 - 1) Hb) as (s & -> & Hs0 & Hs1); [lia|lia|lia|]. cbn [rbind].
  destruct (loop_from_inv (λ i q, q.2 = u ∧ settled now u ps st q.1 ∧
    ∀ j a, 0 ≤ j < i → bufs !! Z.to_nat ((j + s) mod zlen bufs) = Some a → cleared now ps q.1 a) (length bufs) 0
    (λ i q, let '(st, u) := q in
            let* a := vget bufs ((i + s) mod zlen bufs) in operateMessageBuffer N g now st u ps a v) (st, u))
    as ([st' u'] & E & Eu & Hset & Hal).
  - split; [done|]. split; [by apply settled_refl|lia].
  - intros i [st1 u1] Hi (Eu & Hset & Hal). cbn [fst snd] in *. subst u1.
    pose proof (Z.mod_pos_bound (i + s) (zlen bufs) ltac:(lia)) as Hmod. destruct (vget_inbounds bufs _ Hmod) as (a & -> & Ea). cbn [rbind].
    pose proof Hset as (Hs' & Hcnt' & Hsw' & _).
    destruct (operateMessageBuffer_spec now st1 u ps v a Hs' Hcnt' Hsw' Hv) as (st2 & -> & Hset2 & Ha2).
    { eapply settled_input; [done|]. rewrite Forall_forall in Hb. by eapply Hb, list_elem_of_lookup_2. }
    exists (st2, u). split; [done|]. split; [done|]. split; [by eapply settled_trans|]. intros j a' Hj Ea'. cbn [fst] in *.
    destruct (decide (j = i)) as [->|Hne]; [by simplify_eq|]. assert (input st1 ps v a') as Hin.
    { eapply settled_input; [done|]. rewrite Forall_forall in Hb. by eapply Hb, list_elem_of_lookup_2. }
    eapply settled_cleared; [done|done|]. eapply Hal; [|done]. lia.
  - simpl in Eu. subst u'. exists st'. split; [done|]. split; [done|]. intros a [p Ep]%list_elem_of_lookup. cbn [fst] in *.
    pose proof (lookup_lt_Some _ _ _ Ep). pose proof (Z.mod_pos_bound (Z.of_nat p - s) (zlen bufs) ltac:(lia)).
    apply (Hal ((Z.of_nat p - s) mod zlen bufs)); [lia|]. rewrite Zplus_mod_idemp_l. replace (Z.of_nat p - s + s) with (Z.of_nat p) by lia.
    rewrite Z.mod_small by lia. by rewrite Nat2Z.id.
Qed.

Lemma operate_groups_spec now u ps v gs st : store_ok now st → counts_ok st → switch_ok now st u ps →
  0 ≤ v < m_virtual_networks ps → Forall (input st ps v) (concat gs) →
  ∃ st', operate_groups N g now ps v gs (st, u) = Ok (st', u) ∧ settled now u ps st st' ∧ ∀ a, a ∈ concat gs → cleared now ps st' a.
Proof.
  intros Hs Hcnt Hsw Hv. revert st Hs Hcnt Hsw. induction gs as [|bufs gs IH]; intros st Hs Hcnt Hsw Hb; simpl.
  { exists st. split; [done|]. split; [by apply settled_refl|]. intros a Ha. by apply not_elem_of_nil in Ha. }
  simpl in Hb. apply Forall_app in Hb as [Hb Hgs].
  destruct (operate_group_spec now st u ps v bufs Hs Hcnt Hsw Hv Hb) as (st1 & -> & Hset & Hal). cbn [rbind].
  pose proof Hset as (Hs1 & Hcnt1 & Hsw1 & _).
  destruct (IH st1 Hs1 Hcnt1 Hsw1) as (st' & -> & Hset' & Hal').
  { eapply Forall_impl; [done|]. intros a. by eapply settled_input. }
  exists st'. split; [done|]. split; [by eapply settled_trans|]. intros a [Ha|Ha]%elem_of_app; [|auto].
  eapply settled_cleared; [done| |auto]. eapply settled_input; [done|]. rewrite Forall_forall in Hb. auto.
Qed.

(** A virtual network whose count is zero has no messages. *)
Lemma none_waiting now st ps v a : input st ps v a → waiting st (self ps) v = 0 → cleared now ps st a.
Proof.
  intros (b & Eb & Ek & Ev) Hw. assert (heap_of b = []) as Eh.
  { assert (waits_for st (self ps) v a b ≤ 0) as Hle.
    { rewrite <- Hw. apply (msum_ge (waits_for st (self ps) v)); [|done]. intros a1 b1 _. unfold waits_for. destruct (_ && _); lia. }
    unfold waits_for in Hle. rewrite bool_decide_true, Ev, Z.eqb_refl in Hle by done. simpl in Hle. by destruct (heap_of b). }
  split; [intros b1 k c m Eb1 _ _ Hm|intros b1 m _ Eb1 _ Hm]; rewrite Eb in Eb1; injection Eb1 as <-; rewrite Eh in Hm;
    by apply not_elem_of_nil in Hm.
Qed.

Lemma no_inputs st ps v : (∀ a, ¬ input st ps v a) → waiting st (self ps) v = 0.
Proof.
  intros Hn. apply Z.le_antisymm; [|apply (waiting_bounds N st)]. unfold waiting. etrans; [apply (msum_le _ (λ _ _, 0))|].
  - intros a b Eb. unfold waits_for. destruct (_ && _) eqn:E; [|done]. apply andb_true_iff in E as [Ek Ev].
    destruct (Hn a). exists b. split; [done|]. split; [by apply bool_decide_eq_true in Ek|lia].
  - unfold msum. induction (map_to_list _); simpl; lia.
Qed.

Lemma operateVnet_spec now u ps v st : store_ok now st → counts_ok st → switch_ok now st u ps →
  0 ≤ v < m_virtual_networks ps →
  ∃ st', operateVnet N g now st u ps v = Ok (st', u) ∧ settled now u ps st st' ∧ ∀ a, input st ps v a → cleared now ps st' a.
Proof.
  intros Hs Hcnt Hsw Hv. destruct (sw_pending _ _ _ _ Hsw) as (l & El & Hlen). unfold operateVnet. rewrite El. cbn [of_option rbind].
  destruct (vget_inbounds l v) as (n & -> & En); [lia|]. cbn [rbind].
  pose proof (Hcnt _ _ _ _ El En) as Hn. rewrite Z2Nat.id in Hn by lia. destruct (Z.eqb_spec n 0) as [->|Hne].
  { exists st. split; [done|]. split; [by apply settled_refl|]. intros a Ha. by eapply none_waiting. }
  assert (∃ gs, vget (m_in_prio_groups ps) v = Ok gs ∧ ∀ a, a ∈ concat gs ↔ input st ps v a) as (gs & -> & Hgs).
  { pose proof (λ a, sw_groups _ _ _ _ Hsw v a Hv) as Hgs. destruct (m_in_prio_groups ps !! Z.to_nat v) as [gs|] eqn:Eg.
    - exists gs. split; [|done]. apply vget_Ok. by split; [lia|].
    - destruct Hne. rewrite Hn. apply no_inputs. intros a Ha%Hgs. by apply not_elem_of_nil in Ha. }
  cbn [rbind]. destruct (operate_groups_spec now u ps v gs st Hs Hcnt Hsw Hv) as (st' & -> & Hset & Hal).
  { apply Forall_forall. intros a. apply Hgs. }
  exists st'. split; [done|]. split; [done|]. intros a Ha. by apply Hal, Hgs.
Qed.

Lemma operate_each_spec now u ps vnets st : store_ok now st → counts_ok st → switch_ok now st u ps →
  Forall (λ v, 0 ≤ v < m_virtual_networks ps) vnets →
  ∃ st', operate_each N g now ps vnets (st, u) = Ok (st', u) ∧ settled now u ps st st' ∧
    ∀ v a, v ∈ vnets → input st ps v a → cleared now ps st' a.
Proof.
  intros Hs Hcnt Hsw Hv. revert st Hs Hcnt Hsw. induction Hv as [|v vnets Hv Hvs IH]; intros st Hs Hcnt Hsw; simpl.
  { exists st. split; [done|]. split; [by apply settled_refl|]. intros v a Ha. by apply not_elem_of_nil in Ha. }
  destruct (operateVnet_spec now u ps v st Hs Hcnt Hsw Hv) as (st1 & -> & Hset & Hal). cbn [rbind].
  pose proof Hset as (Hs1 & Hcnt1 & Hsw1 & _). destruct (IH st1 Hs1 Hcnt1 Hsw1) as (st' & -> & Hset' & Hal').
  exists st'. split; [done|]. split; [by eapply settled_trans|]. intros v' a [->|Hv']%elem_of_cons Ha.
  - eapply settled_cleared; [done|by eapply settled_input|auto].
  - eapply Hal'; [done|by eapply settled_input].
Qed.


End Crossbar.

(** ** A switch with one input and two outputs *)

Section OneMessage.
Import PerfectSwitch Tiny.

Definition tiny_net : NetConfig := mkNet [false] false false 8 72 1000 [] [] 1.
Definition tiny_switch : PerfectSwitch.t :=
  PerfectSwitch.mk 0 10 [[Some 0%nat]] [mkPort 500 [Some 1%nat]; mkPort 500 [Some 2%nat]] [[0%nat]] [[[0%nat]]] 1 0.
Definition tiny_store : Store.t payload := store {[10%nat := [1]]}.

Lemma tiny_out v id a lat : out_buffer tiny_switch v id = Ok (Some a, lat) →
  v = 0 ∧ lat = 500 ∧ (id = 0 ∧ a = 1%nat ∨ id = 1 ∧ a = 2%nat).
Proof.
  unfold out_buffer. destruct (vget (m_out tiny_switch) id) as [port|] eqn:Ep; [|done]. cbn [rbind].
  destruct (vget (out_buffers port) v) as [o|] eqn:Eo; [|done]. intros [= -> <-].
  pose proof (vget_bounds _ _ _ Ep) as Hid. pose proof (vget_bounds _ _ _ Eo) as Hv. simpl in Hid.
  assert (id = 0 ∨ id = 1) as [-> | ->] by lia; injection Ep as <-; simpl in Hv; assert (v = 0) as -> by lia; injection Eo as <-; simpl; auto.
Qed.

Lemma tiny_switch_ok : switch_ok 64 () tiny_net 0 tiny_store unit_ tiny_switch.
Proof.
  split.
  - apply tiny_unit.
  - done.
  - intros l [->|[->|Hl]%elem_of_cons]%elem_of_cons; [done|done|by apply not_elem_of_nil in Hl].
  - intros v id Hv Hid. simpl in Hv, Hid. assert (v = 0) as -> by lia. assert (id = 0 ∨ id = 1) as [-> | ->] by lia.
    + eexists _, 500, (holding []), 11%nat, idle. do 5 (split; [done|]). split; [|simpl; lia].
      split; [lia|]. split; [by left|]. split; [simpl; lia|by left].
    + eexists _, 500, (holding []), 12%nat, idle. do 5 (split; [done|]). split; [|simpl; lia].
      split; [lia|]. split; [by left|]. split; [simpl; lia|by left].
  - intros v v' id id' a lat lat' (-> & _ & H1)%tiny_out (-> & _ & H2)%tiny_out. lia.
  - intros v a Hv. simpl in Hv. assert (v = 0) as -> by lia. simpl.
    rewrite list_elem_of_singleton. split; [intros ->; by exists (holding [both 7])|].
    intros (b & Eb & E & _). apply (tiny_buffers {[10%nat := [1]]}) in Eb as [[-> _]|[[->| ->] _]]; [done|discriminate E|discriminate E].
  - by exists [1].
  - exists idle. split; [done|]. by exists 0.
  - done.
  - intros a b m _ [[_ ->]|[_ ->]]%(tiny_buffers {[10%nat := [1]]}); simpl; [intros ->%list_elem_of_singleton; apply tiny_covered|].
    intros Hm. by apply not_elem_of_nil in Hm.
Qed.


End OneMessage.
