(* ===== verification/ThrottleSpec.v ===== *)
(** The throttle of a link: one wake-up sends what the bandwidth of the link allows,
    accounts for it exactly, and is repeated as long as there is work. *)

From stdpp Require Import prelude list gmap sorting.
From Stdlib Require Import ZArith Lia.
From S2P Require Import Prelude Replacement NetDest NetDestSpec Heap Clocking MessageBuffer MessageBufferSpec Routing NetExample RoutingSpec StoreSpec DeviceSpec Switch.

Open Scope Z_scope.

Section Link.
Import Message MessageBuffer Store Throttle.
Context (N : Z) {R A B : Type} `{MachineTypes R} (rs : R) `{!MachineLaws N rs}.
Context `{NetMessage R A} (body : A → B) `{!NetMessageLaws body} `{HeapLaws (Message.t A)} (g : NetConfig) (lat : Z).
Implicit Types (st : Store.t A) (b : MessageBuffer.t A) (m : Message.t A) (now v : Z) (c : Consumer.t) (s : Stats).
Implicit Types (a k : nat) (x : MachineID.t) (th : Throttle.t).

Abbreviation store_ok := (store_ok N rs).
Abbreviation flight := (flight N body).

(** The bandwidth of a channel, and the number of channels. *)
Definition speed th v : Z :=
  m_endpoint_bandwidth th * default 0 (m_link_bandwidth_multiplier th !! Z.to_nat (if m_physical_vnets th then v else 0)).
Definition channels th v : Z := if m_physical_vnets th then default 0 (m_vnet_channels th !! Z.to_nat v) else 1.

(** The sum over the virtual networks in [vnets]. *)
Definition shares th (vnets : list Z) : Z := foldr (λ v n, speed th v * channels th v + n) 0 vnets.
Definition total th : Z := if m_physical_vnets th then shares th (seqZ 0 (m_vnets th)) else speed th 0.

(** A throttle as the constructors and [addLinks] set it up. *)
Record config_ok th : Prop := {
  co_vnets : 0 < m_vnets th;
  co_in : zlen (m_in th) = m_vnets th;
  co_out : zlen (m_out th) = m_vnets th;
  co_units : zlen (m_units_remaining th) = m_vnets th;
  co_endpoint : 0 < m_endpoint_bandwidth th;
  co_multipliers : zlen (m_link_bandwidth_multiplier th) = if m_physical_vnets th then m_vnets th else 1;
  co_positive : Forall (λ n, 0 < n) (m_link_bandwidth_multiplier th);
  co_channels : m_physical_vnets th = true → zlen (m_vnet_channels th) = m_vnets th ∧ Forall (λ n, 0 < n) (m_vnet_channels th);
  co_total : total th < 2 ^ 31;
  co_sizes ty : 0 ≤ MessageSizeType_to_int g ty ∧ MessageSizeType_to_int g ty * MESSAGE_SIZE_MULTIPLIER < 2 ^ 31;
}.

Lemma speed_ok th v : config_ok th → 0 ≤ v < m_vnets th → 0 < speed th v ∧ 0 < channels th v.
Proof.
  intros Hc Hv. unfold speed, channels. pose proof (co_endpoint _ Hc). pose proof (co_multipliers _ Hc) as Hm. pose proof (co_positive _ Hc) as Hp.
  split.
  - destruct (lookup_lt_is_Some_2 (m_link_bandwidth_multiplier th) (Z.to_nat (if m_physical_vnets th then v else 0))) as [n En];
      [destruct (m_physical_vnets th); lia|]. rewrite En. simpl. rewrite Forall_forall in Hp. apply list_elem_of_lookup_2, Hp in En. lia.
  - destruct (m_physical_vnets th) eqn:Ep; [|lia]. destruct (co_channels _ Hc Ep) as [Hl Hcs].
    destruct (lookup_lt_is_Some_2 (m_vnet_channels th) (Z.to_nat v)) as [n En]; [lia|]. rewrite En. simpl.
    rewrite Forall_forall in Hcs. by apply list_elem_of_lookup_2, Hcs in En.
Qed.

Lemma shares_nonneg th vnets : config_ok th → Forall (λ v, 0 ≤ v < m_vnets th) vnets → 0 ≤ shares th vnets.
Proof.
  intros Hc. induction 1 as [|v vnets Hv _ IH]; simpl; [lia|]. destruct (speed_ok th v Hc Hv). nia.
Qed.

Lemma shares_perm th vs vs' : vs ≡ₚ vs' → shares th vs = shares th vs'.
Proof. intros E. apply (foldr_permutation eq (λ v n, speed th v * channels th v + n) 0); [intros; lia|done]. Qed.

Lemma share_le th v : config_ok th → 0 ≤ v < m_vnets th → 0 < speed th v * channels th v ≤ total th.
Proof.
  intros Hc Hv. destruct (speed_ok th v Hc Hv). split; [nia|]. unfold total. destruct (m_physical_vnets th) eqn:Ep.
  - assert (v ∈ seqZ 0 (m_vnets th)) as (i & vs & E)%list_elem_of_split by (apply elem_of_seqZ; lia).
    rewrite (shares_perm th (seqZ 0 (m_vnets th)) (v :: i ++ vs)) by (rewrite E; symmetry; apply Permutation_middle). simpl.
    enough (0 ≤ shares th (i ++ vs)) by lia. apply shares_nonneg; [done|]. apply Forall_forall. intros v' Hv'.
    assert (v' ∈ seqZ 0 (m_vnets th)) as ?%elem_of_seqZ; [|lia]. rewrite E. set_solver.
  - unfold speed, channels. rewrite Ep. lia.
Qed.

Lemma getChannelCnt_ok th v : config_ok th → 0 ≤ v < m_vnets th → getChannelCnt th v = Ok (channels th v).
Proof.
  intros Hc Hv. unfold getChannelCnt, channels. destruct (m_physical_vnets th) eqn:Ep; [|done]. destruct (co_channels _ Hc Ep) as [Hl _].
  destruct (vget_inbounds (m_vnet_channels th) v) as (n & -> & En); [lia|]. by rewrite En.
Qed.

Lemma getLinkBandwidth_ok th v : config_ok th → 0 ≤ v < m_vnets th → getLinkBandwidth th v = Ok (speed th v).
Proof.
  intros Hc Hv. destruct (speed_ok th v Hc Hv). pose proof (share_le th v Hc Hv). pose proof (co_total _ Hc).
  unfold getLinkBandwidth. pose proof (co_multipliers _ Hc) as Hm. pose proof (co_endpoint _ Hc).
  destruct (vget_inbounds (m_link_bandwidth_multiplier th) (if m_physical_vnets th then v else 0)) as (n & -> & En);
    [destruct (m_physical_vnets th); lia|]. cbn [rbind].
  assert (m_endpoint_bandwidth th * n = speed th v) as E by (unfold speed; by rewrite En).
  rewrite (proj2 (Z.ltb_lt 0 n)) by nia. cbn [require rbind]. rewrite E. apply chk_i32_Ok. nia.
Qed.

Lemma vnet_bandwidth_ok th v : config_ok th → 0 ≤ v < m_vnets th → vnet_bandwidth th v = Ok (speed th v * channels th v).
Proof.
  intros Hc Hv. unfold vnet_bandwidth. rewrite getLinkBandwidth_ok, getChannelCnt_ok by done. cbn [rbind].
  pose proof (share_le th v Hc Hv). pose proof (co_total _ Hc). apply chk_i32_Ok. lia.
Qed.

Lemma shares_app th vs vs' : shares th (vs ++ vs') = shares th vs + shares th vs'.
Proof. induction vs; simpl; lia. Qed.

Lemma shares_seq th i : 0 ≤ i → shares th (seqZ 0 (i + 1)) = shares th (seqZ 0 i) + speed th i * channels th i.
Proof.
  intros Hi. rewrite seqZ_app, shares_app by lia. replace (seqZ (0 + i) 1) with [i]; [simpl; lia|].
  unfold seqZ. simpl. by rewrite !Z.add_0_l.
Qed.

Lemma getTotalLinkBandwidth_ok th : config_ok th → getTotalLinkBandwidth th = Ok (total th) ∧ 0 < total th.
Proof.
  intros Hc. pose proof (co_vnets _ Hc) as Hv. pose proof (co_total _ Hc) as Ht. pose proof (share_le th 0 Hc ltac:(lia)).
  split; [|lia]. unfold getTotalLinkBandwidth. rewrite vnet_bandwidth_ok by (done || lia). cbn [rbind]. unfold total in *.
  destruct (m_physical_vnets th) eqn:Ep; cycle 1. { unfold channels. rewrite Ep. f_equal. lia. }
  destruct (loop_from_inv (λ i sum, sum = shares th (seqZ 0 i)) (Z.to_nat (m_vnets th - 1)) 1
    (λ i sum, let* bw := vnet_bandwidth th i in chk_i32 (sum + bw)) (speed th 0 * channels th 0)) as (sum & -> & ->).
  - change (seqZ 0 1) with [0]. simpl. lia.
  - intros i sum Hi ->. rewrite vnet_bandwidth_ok by (done || lia). cbn [rbind]. eexists. split; [|done].
    rewrite shares_seq by lia. apply chk_i32_Ok.
    assert (shares th (seqZ 0 i) + speed th i * channels th i + shares th (seqZ (i + 1) (m_vnets th - (i + 1))) = shares th (seqZ 0 (m_vnets th))) as E.
    { rewrite <- shares_seq by lia. rewrite <- shares_app.
      pose proof (seqZ_app 0 (i + 1) (m_vnets th - (i + 1)) ltac:(lia) ltac:(lia)) as E0. rewrite Z.add_0_l in E0. rewrite <- E0.
      do 2 f_equal. lia. }
    assert (0 ≤ shares th (seqZ 0 i) ∧ 0 ≤ shares th (seqZ (i + 1) (m_vnets th - (i + 1)))).
    { split; apply shares_nonneg; try done; apply Forall_forall; intros v ?%elem_of_seqZ; lia. }
    pose proof (share_le th i Hc ltac:(lia)). lia.
  - do 3 f_equal. lia.
Qed.

(** The outputs of a throttle have one latency. *)
Definition outs th (a : nat) (l : Z) : Prop := l = lat ∧ Some a ∈ m_out th.

Abbreviation moved now th := (moved (self th) (outs th) (randomization g) now).
Abbreviation handled now th := (handled N body (self th) (outs th) (randomization g) now).

(** A throttle in its network: it reads its inputs and may send to its outputs;
    virtual networks that are not used have no output. *)
Record throttle_ok now st th : Prop := {
  th_config : config_ok th;
  th_ins : None ∉ m_in th;
  th_in a : Some a ∈ m_in th → ∃ b, buffers st !! a = Some b ∧ consumer_of st !! a = Some (self th);
  th_out a : Some a ∈ m_out th → ∃ b k c, buffers st !! a = Some b ∧ consumer_of st !! a = Some k ∧ k ≠ self th ∧
    consumers st !! k = Some c ∧ port_ok now lat (randomization g) b ∧ now + lat + 2 * period c < 2 ^ 64;
  th_self : ∃ c, consumers st !! self th = Some c ∧ (period c | now) ∧ u64 (period c * m_link_latency th) = lat;
  th_silent : Store.pending st !! self th = None;
  th_units (i : nat) row : m_units_remaining th !! i = Some row →
    zlen row = channels th (Z.of_nat i) ∧ Forall (λ n, 0 ≤ n < 2 ^ 31) row;
}.

Lemma moved_throttle now st st' th : moved now th st st' → throttle_ok now st th → throttle_ok now st' th.
Proof.
  intros (Hw & He & Ht & _) Hok. pose proof Hw as (Eo & Hp & Hc). split; try apply Hok.
  - intros a Ha. destruct (th_in _ _ _ Hok a Ha) as (b & Eb & Ek). specialize (He a). rewrite Eb in He. inv He as [? b' _ Eb'|].
    exists b'. by rewrite Eo.
  - intros a Ha. destruct (th_out _ _ _ Hok a Ha) as (b & k & c & Eb & Ek & Hne & Ec & Hport & Hov).
    specialize (He a). rewrite Eb in He. inv He as [? b' (_ & _ & Hport') Eb'|].
    destruct (wiring_consumer _ _ _ _ _ Hw Ec) as (c' & Ec' & (Hper & _)).
    exists b', k, c'. rewrite Eo, Hper. do 4 (split; [done|]). split; [|done]. by apply Hport'.
  - destruct (th_self _ _ _ Hok) as (c & Ec & ?). destruct (wiring_consumer _ _ _ _ _ Hw Ec) as (c' & Ec' & (Hper & _)). exists c'. by rewrite Hper.
  - specialize (Hp (self th)). rewrite (th_silent _ _ _ Hok) in Hp. by inv Hp.
Qed.

(** The units of a message. *)
Lemma message_size th (x : A) : config_ok th → let n := MessageSizeType_to_int g (getMessageSize x) in
  network_message_to_size g x = Ok (n * MESSAGE_SIZE_MULTIPLIER) ∧ u32 n = n ∧ 0 ≤ n * MESSAGE_SIZE_MULTIPLIER < 2 ^ 31.
Proof.
  intros Hc n. destruct (co_sizes _ Hc (getMessageSize x)) as [H0' H1']. fold n in H0', H1'. unfold MESSAGE_SIZE_MULTIPLIER in *.
  split; [|split; [apply u32_small; lia|lia]]. unfold network_message_to_size. fold n. unfold MESSAGE_SIZE_MULTIPLIER.
  rewrite i32_small by lia. apply chk_i32_Ok. lia.
Qed.

(** *** One channel *)

(** The units of the messages that were counted; the counts of cycles. *)
Definition sent_units s : Z := MESSAGE_SIZE_MULTIPLIER * total_msg_bytes s.
Definition same_cycles s s' : Prop :=
  acc_link_utilization s' = acc_link_utilization s ∧ total_stall_cy s' = total_stall_cy s ∧ total_bw_sat_cy s' = total_bw_sat_cy s.

Lemma same_cycles_trans s s1 s2 : same_cycles s s1 → same_cycles s1 s2 → same_cycles s s2.
Proof. unfold same_cycles. intros. destruct_and!. split_and!; congruence. Qed.

(** The first message of an input is moved. *)
Lemma move_spec now st th v ai ao bi bo s : store_ok now st → counts_ok st → throttle_ok now st th →
  Some ai ∈ m_in th → Some ao ∈ m_out th → buffers st !! ai = Some bi → buffers st !! ao = Some bo →
  can_dequeue now bi → has_room now bo →
  ∃ n s' st' bi', move g now now st th v (Some ai) (Some ao) s = Ok (n, s', st') ∧
    store_ok now st' ∧ counts_ok st' ∧ handled now th st st' ∧ 0 ≤ n < 2 ^ 31 ∧
    sent_units s' = sent_units s + n ∧ same_cycles s s' ∧
    buffers st' !! ai = Some bi' ∧ length (heap_of bi) = S (length (heap_of bi')).
Proof.
  intros Hs Hcnt Hth Hai Hao Ebi Ebo Hcan Hroom. destruct (th_in _ _ _ Hth ai Hai) as (bi0 & Ebi0 & Eki).
  rewrite Ebi in Ebi0. injection Ebi0 as <-.
  destruct (take_moved N rs body (self th) (outs th) (randomization g) now st ai bi Hs Hcnt Ebi Eki (th_silent _ _ _ Hth) Hcan)
    as (m & h & m' & st1 & b1 & Eh & Ed & Ep & Hm' & Hs1 & Hcnt1 & Hm1 & Eb1 & Hh & Hl1 & Hf1).
  assert (throttle_ok now st1 th) as Hth1 by by eapply moved_throttle.
  destruct (th_out _ _ _ Hth1 ao Hao) as (bo1 & k & c & Ebo1 & Eko & Hne & Ec & Hport & Hov).
  assert (ai ≠ ao) as Hio. { intros <-. destruct (th_in _ _ _ Hth1 ai Hai) as (? & _ & ?). congruence. }
  assert (bo1 = bo) as -> by (rewrite Eb1, lookup_insert_ne in Ebo1 by done; congruence).
  assert (StoreSpec.goes_to N m' = StoreSpec.goes_to N m) as Eg by (unfold StoreSpec.goes_to; by rewrite Ep).
  destruct (send_moved N rs body (self th) (outs th) (randomization g) now st1 ao bo k c m' lat (warmupEnabled g))
    as (st2 & Ee & Hs2 & Hcnt2 & Hm2 & Eb2 & Hl2 & Hf2); try done.
  { by intros lat' [-> _]. }
  { rewrite Ep. apply (so_valid _ _ _ _ Hs ai bi m Ebi). rewrite Eh. apply list_elem_of_here. }
  { unfold StoreSpec.weight in *. rewrite Eg. pose proof (so_load _ _ _ _ Hs). lia. }
  destruct (message_size th (payload m) (th_config _ _ _ Hth)) as (En & Eu & Hn). destruct (th_self _ _ _ Hth1) as (c0 & Ec0 & _ & Elat).
  eexists _, _, st2, b1. split.
  { unfold move, Store.peekMsgPtr. rewrite (deref_Some st ai bi Ebi). cbn [rbind]. unfold peek, front. rewrite Eh. cbn [head of_option rbind].
    rewrite En. cbn [rbind]. rewrite Ed. cbn [rbind]. rewrite Ec0. cbn [of_option rbind]. unfold Clocked.cyclesToTicks. rewrite Elat, Ee. cbn [rbind]. done. }
  do 2 (split; [done|]). split.
  { split; [by eapply moved_trans|]. split; [|unfold StoreSpec.weight in *; rewrite Eg in Hl2; lia].
    intros x. by rewrite Hf2, Hf1, Eg, Ep. }
  split; [done|]. unfold sent_units. simpl. rewrite Ep, Eu. split; [lia|]. split; [done|]. split.
  - rewrite Eb2, lookup_insert_ne by done. rewrite Eb1. apply lookup_insert_eq.
  - rewrite Eh. simpl. by rewrite Hh.
Qed.

(** A round of the loop takes up a message if the last one is through. *)
Lemma fetch_spec now st th v ai ao bi bo (u : Z) s : store_ok now st → counts_ok st → throttle_ok now st th →
  Some ai ∈ m_in th → Some ao ∈ m_out th → buffers st !! ai = Some bi → buffers st !! ao = Some bo →
  0 ≤ u < 2 ^ 31 → 0 < u ∨ can_dequeue now bi → has_room now bo →
  ∃ u' s' st' bi',
    (if u =? 0 then
       let* (ready, st) := Store.isReady now st (Some ai) now in
       if ready : bool then move g now now st th v (Some ai) (Some ao) s else Ok (u, s, st)
     else Ok (u, s, st)) = Ok (u', s', st') ∧
    store_ok now st' ∧ counts_ok st' ∧ handled now th st st' ∧ 0 ≤ u' < 2 ^ 31 ∧
    sent_units s' + u = sent_units s + u' ∧ same_cycles s s' ∧ buffers st' !! ai = Some bi' ∧
    (length (heap_of bi') + 1 = length (heap_of bi) + (if decide (u = 0%Z) then 0 else 1))%nat.
Proof.
  intros Hs Hcnt Hth Hai Hao Ebi Ebo Hu Hwork Hroom. destruct (Z.eqb_spec u 0) as [->|Hne]; cycle 1.
  { exists u, s, st, bi. split; [done|]. do 2 (split; [done|]). split; [by eapply quiet_handled, quiet_refl|].
    split; [done|]. split; [lia|]. split; [done|]. split; [done|]. by rewrite decide_False. }
  destruct (isReady_store N rs now st ai bi Hs Ebi) as (ready & st1 & -> & _ & _ & Hr & Hnr). cbn [rbind].
  destruct ready; [|destruct (Hnr eq_refl); destruct Hwork; [lia|done]]. destruct (Hr eq_refl) as [-> Hcan].
  destruct (move_spec now st th v ai ao bi bo s Hs Hcnt Hth Hai Hao Ebi Ebo Hcan Hroom) as (n & s' & st' & bi' & -> & Hs' & Hcnt' & Hh & Hn & Hsu & Hcy & Eb & Hlen).
  exists n, s', st', bi'. do 5 (split; [done|]). split; [lia|]. do 2 (split; [done|]). rewrite Hlen, decide_True by done. lia.
Qed.

(** What holds when the loop ends: the bandwidth is used up, the output is full, or
    there is no work. *)
Definition finished now st ai ao (u bw : Z) : Prop :=
  bw = 0 ∨ (∀ bo, buffers st !! ao = Some bo → ¬ has_room now bo) ∨
  (u = 0 ∧ ∀ bi, buffers st !! ai = Some bi → ¬ can_dequeue now bi).

Lemma finished_quiet now st st' ai ao u bw : quiet now st st' → finished now st ai ao u bw → finished now st' ai ao u bw.
Proof.
  intros Hq [?|[Hf|[? Hf]]]; [by left|right; left|right; right; split; [done|]]; intros b' Eb'.
  - destruct (quiet_buffer _ _ _ _ _ Hq Eb') as (b & Eb & Ha). intros Hr. apply (Hf b Eb). eapply has_room_alike; [|done].
    by apply alike_sym.
  - destruct (quiet_buffer _ _ _ _ _ Hq Eb') as (b & Eb & Ha). intros Hr. apply (Hf b Eb). eapply can_dequeue_alike; [|done].
    by apply alike_sym.
Qed.

Lemma work_spec now st ai bi (u : Z) : store_ok now st → buffers st !! ai = Some bi → 0 ≤ u →
  ∃ w st', hasPendingWork now st (Some ai) now u = Ok (w, st') ∧ quiet now st st' ∧ buffers st' = buffers st ∧
    (w = true → 0 < u ∨ can_dequeue now bi) ∧ (w = false → u = 0 ∧ ¬ can_dequeue now bi ∧ alert now st' ai).
Proof.
  intros Hs Eb Hu. unfold hasPendingWork.
  destruct (isReady_store N rs now st ai bi Hs Eb) as (r & st' & -> & Hq & Eb' & Hr & Hnr). cbn [rbind].
  exists (r || (0 <? u)), st'. do 3 (split; [done|]). destruct r; simpl.
  - split; [|done]. intros _. right. by apply Hr.
  - destruct (Z.ltb_spec 0 u); split; try done; [auto|]. intros _. split; [lia|]. by destruct (Hnr eq_refl).
Qed.

(** The loop ends within a round for every message and one for the message on the
    link, and charges the bandwidth for what it sends. *)
Lemma transfer_spec now th v ai ao fuel st bi (u bw tot : Z) s : store_ok now st → counts_ok st → throttle_ok now st th →
  Some ai ∈ m_in th → Some ao ∈ m_out th → buffers st !! ai = Some bi → 0 ≤ u < 2 ^ 31 → 0 ≤ bw ≤ tot → tot < 2 ^ 31 →
  (0 < fuel)%nat → (0 < bw → (length (heap_of bi) + (if decide (u = 0%Z) then 0 else 1) < fuel)%nat) →
  ∃ u' bw' tot' s' st', transfer fuel g now now st th v (Some ai) (Some ao) u bw tot s = Ok (u', bw', tot', s', st') ∧
    store_ok now st' ∧ counts_ok st' ∧ handled now th st st' ∧ 0 ≤ u' < 2 ^ 31 ∧ 0 ≤ bw' ≤ bw ∧ tot - tot' = bw - bw' ∧
    sent_units s' + u = sent_units s + u' + (bw - bw') ∧ same_cycles s s' ∧ finished now st' ai ao u' bw'.
Proof.
  revert st bi u bw tot s. induction fuel as [|fuel IH]; intros st bi u bw tot s Hs Hcnt Hth Hai Hao Ebi Hu Hbw Htot Hf Hfuel; [lia|]. simpl.
  assert (∀ st', quiet now st st' → finished now st' ai ao u bw → ∃ u' bw' tot' s' st'',
    Ok (u, bw, tot, s, st') = Ok (u', bw', tot', s', st'') ∧ store_ok now st'' ∧ counts_ok st'' ∧ handled now th st st'' ∧
    0 ≤ u' < 2 ^ 31 ∧ 0 ≤ bw' ≤ bw ∧ tot - tot' = bw - bw' ∧ sent_units s' + u = sent_units s + u' + (bw - bw') ∧
    same_cycles s s' ∧ finished now st'' ai ao u' bw') as Hstop.
  { intros st' Hq Hfin. exists u, bw, tot, s, st'. split; [done|]. split; [by eapply quiet_ok|]. split; [by eapply quiet_counts|].
    split; [by apply quiet_handled|]. split_and!; try lia; try done. }
  destruct (Z.leb_spec bw 0) as [Hle|Hgt]. { apply Hstop; [by eapply quiet_refl|]. left. lia. }
  destruct (work_spec now st ai bi u Hs Ebi ltac:(lia)) as (w & st1 & -> & Hq1 & Eb1 & Hw & Hnw). cbn [rbind].
  destruct w; simpl; cycle 1.
  { destruct (Hnw eq_refl) as (-> & Hn & _). apply Hstop; [done|]. right. right. split; [done|]. rewrite Eb1. intros b Eb. congruence. }
  assert (store_ok now st1) as Hs1 by by eapply quiet_ok. destruct (th_out _ _ _ Hth ao Hao) as (bo & _ & _ & Ebo & _).
  rewrite <- Eb1 in Ebi, Ebo. destruct (slots_store N rs now st1 ao bo Hs1 Ebo) as (slot & st2 & -> & Hq2 & Hroom). cbn [rbind].
  pose proof (quiet_trans _ _ _ _ Hq1 Hq2) as Hq. destruct (quiet_buffer_2 _ _ _ _ _ Hq2 Ebo) as (bo2 & Ebo2 & Hao2).
  destruct (quiet_buffer_2 _ _ _ _ _ Hq2 Ebi) as (bi2 & Ebi2 & Hai2).
  destruct slot; simpl; cycle 1.
  { apply Hstop; [done|]. right. left. intros b Eb Hr. assert (false = true); [|done]. apply Hroom. simplify_eq.
    eapply has_room_alike; [by apply alike_sym|done]. }
  assert (throttle_ok now st2 th) as Hth2 by (eapply moved_throttle; [by apply quiet_moved|done]).
  destruct (fetch_spec now st2 th v ai ao bi2 bo2 u s) as (u1 & s1 & st3 & bi3 & -> & Hs3 & Hcnt3 & Hh3 & Hu1 & Hsu & Hcy & Ebi3 & Hlen);
    [by eapply quiet_ok|by eapply quiet_counts|done..| |by eapply has_room_alike, Hroom|].
  { destruct (Hw eq_refl); [by left|right; by eapply can_dequeue_alike]. }
  cbn [rbind]. rewrite !chk_i32_Ok by lia. cbn [rbind]. destruct Hai2 as (Eq2 & _). rewrite Eq2 in Hlen.
  destruct (IH st3 bi3 (u1 - Z.min u1 bw) (bw - Z.min u1 bw) (tot - Z.min u1 bw) s1)
    as (u' & bw' & tot' & s' & st' & -> & Hs' & Hcnt' & Hh' & Hu' & Hbw' & Htot' & Hsu' & Hcy' & Hfin); try done; try lia.
  { eapply moved_throttle; [|done]. by destruct Hh3. }
  { intros Hpos. rewrite decide_True by lia. specialize (Hfuel Hgt). lia. }
  exists u', bw', tot', s', st'. do 3 (split; [done|]). split.
  { eapply handled_trans; [by apply quiet_handled|]. by eapply handled_trans. }
  split_and!; try lia; [by eapply same_cycles_trans|done].
Qed.

(** An input after its turn: the throttle will be woken for what is left, and
    nothing is left that is due. *)
Definition served now st ai : Prop :=
  alert now st ai ∧
  ∀ b m, buffers st !! ai = Some b → m_max_dequeue_rate (cfg b) = 0 → m ∈ heap_of b → now < m_LastEnqueueTime m.

Lemma moved_served now th st st' ai : moved now th st st' → consumer_of st !! ai = Some (self th) → served now st ai → served now st' ai.
Proof.
  intros (_ & He & Ht & Hal) Ek [Ha Hd]. split; [auto|]. intros b' m Eb' Hr Hin.
  specialize (He ai). rewrite Eb' in He. inv He as [b ? (_ & Ec & _) Eb|]. rewrite Ec in Hr. eapply Hd; [done|done|by eapply Ht].
Qed.

(** Outputs that always have room. *)
Definition unbounded_outs th st : Prop := ∀ a b, Some a ∈ m_out th → buffers st !! a = Some b → m_max_size (cfg b) = 0.

Lemma notify_spec now st th ai ao bi (u bw : Z) (sat blk : bool) : store_ok now st → throttle_ok now st th →
  Some ai ∈ m_in th → Some ao ∈ m_out th → buffers st !! ai = Some bi → 0 ≤ u → finished now st ai ao u bw →
  ∃ sat' blk' st', notify now now st (Some ai) (Some ao) u bw sat blk = Ok (sat', blk', st') ∧ quiet now st st' ∧
    (sat = true → sat' = true) ∧ (blk = true → blk' = true) ∧ (sat' = true → sat = true ∨ bw = 0) ∧
    (unbounded_outs th st → blk' = blk) ∧ (sat' = true ∨ blk' = true ∨ served now st' ai).
Proof.
  intros Hs Hth Hai Hao Ebi Hu Hfin. unfold notify.
  destruct (work_spec now st ai bi u Hs Ebi Hu) as (w & st1 & -> & Hq1 & Eb1 & Hw & Hnw). cbn [rbind]. destruct w; simpl; cycle 1.
  { exists sat, blk, st1. do 4 (split; [done|]). split; [auto|]. split; [done|]. right. right. destruct (Hnw eq_refl) as (_ & Hn & Ha).
    split; [done|]. intros b m Eb. rewrite Eb1, Ebi in Eb. injection Eb as <-. eapply not_due; [by eapply so_buf|done]. }
  assert (store_ok now st1) as Hs1 by by eapply quiet_ok. destruct (th_out _ _ _ Hth ao Hao) as (bo & _ & _ & Ebo & _).
  assert (∀ st2, quiet now st st2 → ∃ slot st3, Store.areNSlotsAvailable st2 (Some ao) 1 now = Ok (slot, st3) ∧
    quiet now st st3 ∧ (slot = true ↔ has_room now bo)) as Hslot.
  { intros st2 Hq2. destruct (quiet_buffer_2 _ _ _ _ _ Hq2 Ebo) as (bo2 & Ebo2 & Ha2).
    destruct (slots_store N rs now st2 ao bo2) as (slot & st3 & -> & Hq3 & Hr); [by eapply quiet_ok|done|].
    exists slot, st3. split; [done|]. split; [by eapply quiet_trans|]. rewrite Hr. split; apply has_room_alike; [by apply alike_sym|done]. }
  assert (unbounded_outs th st → has_room now bo) as Hun.
  { intros Hub. unfold has_room, MessageBuffer.areNSlotsAvailable. by rewrite (Hub ao bo Hao Ebo). }
  assert (∃ st2, (if bw =? 0 then Ok (true, st1) else
    let* (slot, st) := Store.areNSlotsAvailable st1 (Some ao) 1 now in Ok (negb slot, st)) = Ok (true, st2) ∧ quiet now st st2) as (st2 & -> & Hq2).
  { destruct (Z.eqb_spec bw 0) as [_|Hne]; [by exists st1|]. destruct (Hslot st1 Hq1) as (slot & st3 & -> & Hq3 & Hr). cbn [rbind].
    exists st3. split; [|done]. destruct Hfin as [?|[Hf|[-> Hf]]]; [done| |by destruct (Hw eq_refl) as [?|?]; [lia|destruct (Hf bi)]].
    destruct slot; [|done]. destruct (Hf bo Ebo). by apply Hr. }
  cbn [require rbind]. destruct blk.
  { exists (sat || (bw =? 0)), true, st2. split; [done|]. split; [done|]. rewrite !orb_true_iff, !Z.eqb_eq. auto 10. }
  destruct (Hslot st2 Hq2) as (slot & st3 & -> & Hq3 & Hr). cbn [rbind]. exists (sat || (bw =? 0)), (negb slot), st3.
  split; [done|]. split; [done|]. rewrite !orb_true_iff, !Z.eqb_eq. split; [auto|]. split; [done|]. split; [auto|].
  split; [intros Hub; by rewrite (proj2 Hr (Hun Hub))|]. destruct slot; [|auto]. destruct Hfin as [?|[Hf|[-> Hf]]]; [auto| |].
  - destruct (Hf bo Ebo). by apply Hr.
  - destruct (Hw eq_refl) as [?|?]; [lia|]. by destruct (Hf bi).
Qed.

(** *** All channels *)

(** The units of the messages on the links that are not through. *)
Definition zsum (l : list Z) : Z := foldr Z.add 0 l.
Definition on_link th : Z := zsum (zsum <$> m_units_remaining th).

Lemma zsum_insert l i (n n' : Z) : l !! i = Some n → zsum (<[i := n']> l) = zsum l - n + n'.
Proof. revert i. induction l as [|y l IH]; intros [|i] E; simplify_eq/=; [lia|]. rewrite (IH i E). lia. Qed.

(** A throttle of which only the units and statistics changed. *)
Definition same_link th th' : Prop := th' = with_units th (m_units_remaining th') (throttleStats th').

Lemma same_link_trans th th1 th2 : same_link th th1 → same_link th1 th2 → same_link th th2.
Proof. unfold same_link. intros E1 E2. rewrite E2, E1. done. Qed.

(** What a part of a wake-up does, with the variables that it works on. *)
Definition ran now (p q : Throttle.t * Cycle * Store.t A) : Prop :=
  let '(th, y, st) := p in let '(th', y', st') := q in
  same_link th th' ∧ handled now th st st' ∧ 0 ≤ bw_left y' ≤ bw_left y ∧
  sent_units (throttleStats th') + on_link th = sent_units (throttleStats th) + on_link th' + (bw_left y - bw_left y') ∧
  same_cycles (throttleStats th) (throttleStats th') ∧
  (bw_saturated y = true → bw_saturated y' = true) ∧ (output_blocked y = true → output_blocked y' = true) ∧
  (m_physical_vnets th = false → bw_saturated y' = true → bw_saturated y = true ∨ bw_left y' = 0) ∧
  (unbounded_outs th st → output_blocked y' = output_blocked y).

Lemma ran_refl now th y st : store_ok now st → 0 ≤ bw_left y → ran now (th, y, st) (th, y, st).
Proof.
  intros Hs Hy. split; [by destruct th|]. split; [by eapply quiet_handled, quiet_refl|]. split; [lia|]. split; [lia|]. split; [done|]. auto.
Qed.

Lemma same_moved now th th' st st' : same_link th th' → moved now th' st st' ↔ moved now th st st'.
Proof. intros E. rewrite E. done. Qed.

Lemma unbounded_moved now th st st' : moved now th st st' → unbounded_outs th st → unbounded_outs th st'.
Proof.
  intros (_ & He & _) Hu a b' Ha Eb'. specialize (He a). rewrite Eb' in He. inv He as [b ? (_ & Ec & _) Eb|]. rewrite Ec. by eapply Hu.
Qed.

Lemma ran_trans now p q r : ran now p q → ran now q r → ran now p r.
Proof.
  destruct p as [[th y] st], q as [[th1 y1] st1], r as [[th2 y2] st2].
  intros (Hl & Hh & Hb & Ha & Hc & Hs & Ho & Hp & Hu) (Hl' & Hh' & Hb' & Ha' & Hc' & Hs' & Ho' & Hp' & Hu').
  split; [by eapply same_link_trans|]. assert (handled now th st1 st2) as Hh1 by (rewrite Hl in Hh'; done).
  split; [by eapply handled_trans|]. split; [lia|]. split; [lia|]. split; [by eapply same_cycles_trans|]. split; [auto|]. split; [auto|].
  assert (m_physical_vnets th1 = m_physical_vnets th ∧ m_out th1 = m_out th) as [Ep Eo] by (rewrite Hl; done).
  split.
  - intros Hph Hsat. destruct (Hp' ltac:(congruence) Hsat) as [Hsat1|]; [|auto]. destruct (Hp Hph Hsat1) as [|E]; [auto|right; lia].
  - intros Hub. rewrite Hu', Hu; [done..|]. unfold unbounded_outs. rewrite Eo. eapply unbounded_moved; [|done]. by destruct Hh.
Qed.

(** A new state of a channel. *)
Lemma set_units now st th (i j : nat) row (u u' : Z) s' : throttle_ok now st th → m_units_remaining th !! i = Some row →
  row !! j = Some u → 0 ≤ u' < 2 ^ 31 →
  let th' := with_units th (<[i := <[j := u']> row]> (m_units_remaining th)) s' in
  throttle_ok now st th' ∧ on_link th' = on_link th - u + u'.
Proof.
  intros Hth Erow Eu Hu' th'. split.
  - destruct Hth as [Hc ? ? ? ? ? Hunits]. split; try done.
    + destruct Hc. split; try done. simpl. by rewrite length_insert.
    + intros i' row' E. simpl in E. apply list_lookup_insert_Some in E as [(<- & <- & _)|[_ E]]; [|by apply (Hunits i' row')].
      destruct (Hunits i row Erow) as [Hlen Hall]. rewrite length_insert. split; [done|]. by apply Forall_insert.
  - unfold on_link. simpl. rewrite list_fmap_insert. rewrite (zsum_insert _ i (zsum row)) by (rewrite list_lookup_fmap, Erow; done).
    rewrite (zsum_insert row j u) by done. lia.
Qed.

(** What a channel may use: its own bandwidth, or what the others leave. *)
Definition quota th v : Z := if m_physical_vnets th then speed th v else 0.

Lemma operateVnet_ok now th y st v channel ai out rest : store_ok now st → counts_ok st → throttle_ok now st th →
  0 ≤ v < m_vnets th → 0 ≤ channel < channels th v → m_in th !! Z.to_nat v = Some (Some ai) → m_out th !! Z.to_nat v = Some out →
  0 ≤ rest → rest + quota th v ≤ bw_left y → bw_left y < 2 ^ 31 → (m_physical_vnets th = false → rest = 0) →
  ∃ th' y' st', operateVnet g now v channel (Some ai) out (th, y, st) = Ok (th', y', st') ∧
    store_ok now st' ∧ counts_ok st' ∧ throttle_ok now st' th' ∧ ran now (th, y, st) (th', y', st') ∧ rest ≤ bw_left y' ∧
    (out ≠ None → bw_saturated y' = true ∨ output_blocked y' = true ∨ served now st' ai).
Proof.
  intros Hs Hcnt Hth Hv Hch Ein Eout Hrest Hbw Hbig Hph. pose proof (th_config _ _ _ Hth) as Hc.
  assert (0 ≤ quota th v) as Hq0. { unfold quota. destruct (speed_ok th v Hc Hv). destruct (m_physical_vnets th); lia. }
  unfold operateVnet. destruct out as [ao|]; cbv beta iota; cycle 1.
  { exists th, y, st. split; [done|]. do 3 (split; [done|]). split; [apply ran_refl; [done|lia]|]. split; [lia|done]. }
  destruct (vget_inbounds (m_units_remaining th) v) as (row & Erow' & Erow); [by rewrite (co_units _ Hc)|]. rewrite Erow'. cbn [rbind].
  destruct (th_units _ _ _ Hth _ _ Erow) as [Hlen Hall]. rewrite Z2Nat.id in Hlen by lia.
  destruct (vget_inbounds row channel) as (u & -> & Eu); [lia|]. cbn [rbind].
  assert (0 ≤ u < 2 ^ 31) as Hu by (rewrite Forall_forall in Hall; by eapply Hall, list_elem_of_lookup_2).
  rewrite (proj2 (Z.leb_le 0 u)) by lia. cbn [require rbind]. destruct (th_self _ _ _ Hth) as (c & Ec & Hd & _).
  destruct (clockEdge_store N rs now st (self th) c Hs Ec Hd) as (st1 & -> & Hq1 & Eb1). cbn [rbind].
  assert (Some ai ∈ m_in th) as Hai by by eapply list_elem_of_lookup_2. assert (Some ao ∈ m_out th) as Hao by by eapply list_elem_of_lookup_2.
  destruct (th_in _ _ _ Hth ai Hai) as (bi & Ebi & Eki). rewrite <- Eb1 in Ebi.
  set (bw := if m_physical_vnets th then speed th v else bw_left y).
  replace (if m_physical_vnets th then getLinkBandwidth th v else Ok (bw_left y)) with (Ok bw : res Z)
    by (unfold bw; destruct (m_physical_vnets th); [by rewrite getLinkBandwidth_ok|done]). cbn [rbind].
  rewrite (deref_Some st1 ai bi Ebi). cbn [rbind].
  assert (throttle_ok now st1 th) as Hth1 by (eapply moved_throttle; [by apply quiet_moved|done]).
  assert (0 ≤ bw ≤ bw_left y) as Hbwr by (unfold bw, quota in *; destruct (m_physical_vnets th); lia).
  destruct (transfer_spec now th v ai ao (S (S (length (heap_of bi)))) st1 bi u bw (bw_left y) (throttleStats th))
    as (u' & bw' & tot' & s' & st2 & -> & Hs2 & Hcnt2 & Hh2 & Hu' & Hbw' & Htot & Hsu & Hcy & Hfin);
    [by eapply quiet_ok|by eapply quiet_counts|done..|lia|intros _; case_decide; lia|].
  cbn [rbind]. rewrite vset_inbounds by lia. cbn [rbind]. rewrite vset_inbounds by (rewrite (co_units _ Hc); lia). cbn [rbind].
  assert (throttle_ok now st2 th) as Hth2 by (eapply moved_throttle; [|done]; by destruct Hh2).
  destruct (set_units now st2 th (Z.to_nat v) (Z.to_nat channel) row u u' s' Hth2 Erow Eu Hu') as [Hth' Hon].
  set (th' := with_units _ _ _) in *.
  rewrite (proj2 (Z.leb_le 0 u')), (proj2 (Z.leb_le 0 bw')), (proj2 (Z.leb_le 0 tot')) by lia. cbn [require rbind].
  destruct (th_in _ _ _ Hth2 ai Hai) as (bi2 & Ebi2 & _).
  destruct (notify_spec now st2 th ai ao bi2 u' bw' (bw_saturated y) (output_blocked y) Hs2 Hth2 Hai Hao Ebi2 ltac:(lia) Hfin)
    as (sat' & blk' & st' & -> & Hq' & Hsat & Hblk & Hsat' & Hblk' & Hdone). cbn [rbind].
  exists th', (mkCycle tot' sat' blk'), st'. split; [done|]. split; [by eapply quiet_ok|]. split; [by eapply quiet_counts|].
  split; [eapply moved_throttle; [by eapply quiet_moved|done]|]. split; [|split; [|done]].
  - assert (handled now th st st2) as Hh by (eapply handled_trans; [by eapply quiet_handled|done]).
    split; [done|]. split; [eapply handled_trans; [done|by eapply quiet_handled]|]. simpl. split; [lia|]. split; [lia|].
    do 3 (split; [done|]). split.
    + intros Ep Hs1. destruct (Hsat' Hs1) as [|E0]; [auto|right]. unfold bw in *. rewrite Ep in *. lia.
    + intros Hub. apply Hblk'. eapply unbounded_moved; [|done]. by destruct Hh.
  - simpl. unfold bw, quota in *. destruct (m_physical_vnets th); [lia|]. rewrite Hph by done. lia.
Qed.

(** The input of a virtual network was served, or the throttle will run again. *)
Definition done_with now v (q : Throttle.t * Cycle * Store.t A) : Prop :=
  ∀ ai ao, m_in q.1.1 !! Z.to_nat v = Some (Some ai) → m_out q.1.1 !! Z.to_nat v = Some (Some ao) →
    bw_saturated q.1.2 = true ∨ output_blocked q.1.2 = true ∨ served now q.2 ai.

(** The state after a part of a wake-up that leaves [rest] of the bandwidth. *)
Definition after now p rest (q : Throttle.t * Cycle * Store.t A) : Prop :=
  store_ok now q.2 ∧ counts_ok q.2 ∧ throttle_ok now q.2 q.1.1 ∧ ran now p q ∧ rest ≤ bw_left q.1.2.

Lemma after_trans now p p' q r r' : after now p r p' → after now p' r' q → after now p r' q.
Proof. intros (_ & _ & _ & Hr & _) (? & ? & ? & ? & ?). do 3 (split; [done|]). split; [by eapply ran_trans|done]. Qed.

Lemma ran_done now p q v : throttle_ok now p.2 p.1.1 → ran now p q → done_with now v p → done_with now v q.
Proof.
  destruct p as [[th y] st], q as [[th1 y1] st1]. intros Hth (Hl & (Hm & _) & _ & _ & _ & Hs & Ho & _) Hd ai ao. simpl in *.
  assert (m_in th1 = m_in th ∧ m_out th1 = m_out th) as [-> ->] by (rewrite Hl; done). intros Ein Eout.
  destruct (Hd ai ao Ein Eout) as [?|[?|Hsv]]; [auto|auto|]. right. right. simpl in *.
  destruct (th_in _ _ _ Hth ai) as (b & _ & Ek); [by eapply list_elem_of_lookup_2|]. by eapply moved_served.
Qed.

Lemma operate_channels_ok now th y st v rest : store_ok now st → counts_ok st → throttle_ok now st th →
  0 ≤ v < m_vnets th → 0 ≤ rest → rest + channels th v * quota th v ≤ bw_left y → bw_left y < 2 ^ 31 →
  (m_physical_vnets th = false → rest = 0) →
  ∃ q, operate_channels g now v (th, y, st) = Ok q ∧ after now (th, y, st) rest q ∧ done_with now v q.
Proof.
  intros Hs Hcnt Hth Hv Hrest Hbw Hbig Hph. pose proof (th_config _ _ _ Hth) as Hc. destruct (speed_ok th v Hc Hv) as [Hsp Hch].
  assert (0 ≤ quota th v) as Hq0. { unfold quota. destruct (m_physical_vnets th); lia. }
  unfold operate_channels. rewrite getChannelCnt_ok by done. cbn [rbind].
  destruct (loop_from_inv (λ i q, after now (th, y, st) (rest + (channels th v - i) * quota th v) q ∧ (0 < i → done_with now v q))
    (Z.to_nat (channels th v)) 0
    (λ channel q, let '(th, y, st) := q in
       let* inp := vget (m_in th) v in
       let* out := vget (m_out th) v in operateVnet g now v channel inp out (th, y, st)) (th, y, st)) as (q & E & Hq & Hd).
  - split; [|lia]. split; [done|]. split; [done|]. split; [done|]. split; [apply ran_refl; [done|nia]|simpl; lia].
  - intros i [[th1 y1] st1] Hi [(Hs1 & Hcnt1 & Hth1 & Hr1 & Hb1) _]. cbn [fst snd] in *. pose proof Hr1 as (Hl & Hh & Hb & _).
    assert (m_vnets th1 = m_vnets th ∧ channels th1 v = channels th v ∧ quota th1 v = quota th v ∧ m_in th1 = m_in th ∧ m_out th1 = m_out th ∧
      m_physical_vnets th1 = m_physical_vnets th) as (E1 & E2 & E3 & E4 & E5 & E6) by (rewrite Hl; done).
    destruct (vget_inbounds (m_in th1) v) as (inp & -> & Ein); [rewrite E4, (co_in _ Hc); lia|]. cbn [rbind].
    destruct (vget_inbounds (m_out th1) v) as (out & -> & Eout); [rewrite E5, (co_out _ Hc); lia|]. cbn [rbind].
    destruct inp as [ai|]; cycle 1. { destruct (th_ins _ _ _ Hth1). by eapply list_elem_of_lookup_2. }
    assert (0 ≤ (channels th v - (i + 1)) * quota th v) as Hq1 by (apply Z.mul_nonneg_nonneg; lia).
    replace ((channels th v - i) * quota th v) with ((channels th v - (i + 1)) * quota th v + quota th v) in Hb1 by lia.
    destruct (operateVnet_ok now th1 y1 st1 v i ai out (rest + (channels th v - (i + 1)) * quota th v))
      as (th' & y' & st' & -> & Hs' & Hcnt' & Hth' & Hr' & Hb' & Hd'); try done; try lia.
    { rewrite E6. intros Ep. unfold quota. rewrite Ep, (Hph Ep). lia. }
    exists (th', y', st'). split; [done|]. split.
    + split; [done|]. split; [done|]. split; [done|]. split; [by eapply ran_trans|done].
    + intros _ ai1 ao. destruct Hr' as (Hl' & _). simpl. assert (m_in th' = m_in th1 ∧ m_out th' = m_out th1) as [-> ->] by (rewrite Hl'; done).
      rewrite Ein, Eout. intros [= <-] [= ->]. by apply Hd'.
  - exists q. split; [done|]. split; [|apply Hd; lia]. destruct Hq as (? & ? & ? & ? & Hle). do 4 (split; [done|]).
    replace (channels th v - (0 + Z.of_nat (Z.to_nat (channels th v)))) with 0 in Hle by lia. lia.
Qed.

(** The bandwidth that is set aside for virtual networks. *)
Definition reserve th (vnets : list Z) : Z := if m_physical_vnets th then shares th vnets else 0.

Lemma operate_each_ok now vnets : ∀ th y st, store_ok now st → counts_ok st → throttle_ok now st th →
  Forall (λ v, 0 ≤ v < m_vnets th) vnets → 0 ≤ bw_left y → reserve th vnets ≤ bw_left y → bw_left y < 2 ^ 31 →
  ∃ q, operate_each g now vnets (th, y, st) = Ok q ∧ after now (th, y, st) 0 q ∧ ∀ v, v ∈ vnets → done_with now v q.
Proof.
  induction vnets as [|v vnets IH]; intros th y st Hs Hcnt Hth Hvs Hb0 Hb Hbig; cbn [operate_each].
  { exists (th, y, st). split; [done|]. split; [|intros v Hv; by apply not_elem_of_nil in Hv]. do 3 (split; [done|]).
    split; [by apply ran_refl|done]. }
  apply Forall_cons in Hvs as [Hv Hvs]. pose proof (th_config _ _ _ Hth) as Hc.
  assert (0 ≤ reserve th vnets) as Hres. { unfold reserve. destruct (m_physical_vnets th); [by apply shares_nonneg|done]. }
  destruct (operate_channels_ok now th y st v (reserve th vnets)) as ([[th1 y1] st1] & -> & Ha & Hd); try done.
  { unfold reserve, quota in *. destruct (m_physical_vnets th); simpl in *; lia. }
  { unfold reserve. by intros ->. }
  cbn [rbind]. pose proof Ha as (Hs1 & Hcnt1 & Hth1 & Hr1 & Hb1). cbn [fst snd] in *. pose proof Hr1 as (Hl & _ & Hle & _).
  assert (m_vnets th1 = m_vnets th ∧ reserve th1 vnets = reserve th vnets) as [E1 E2] by (rewrite Hl; done).
  destruct (IH th1 y1 st1) as (q & -> & Ha' & Hd'); [done|done|done|by rewrite E1|lia|lia|lia|].
  exists q. split; [done|]. split; [by eapply after_trans|]. intros v' [->|Hv']%elem_of_cons; [|auto].
  destruct Ha' as (_ & _ & _ & Hr' & _). by apply (ran_done now (th1, y1, st1) q v).
Qed.

(** The throttle runs again if it has to. *)
Lemma again_ok now th y st : store_ok now st → throttle_ok now st th →
  (∀ v, 0 ≤ v < m_vnets th → done_with now v (th, y, st)) →
  ∃ st', (if bw_saturated y || output_blocked y then Store.scheduleEvent now st (self th) 1 else Ok st) = Ok st' ∧
    quiet now st st' ∧
    ∀ (i : nat) ai ao, m_in th !! i = Some (Some ai) → m_out th !! i = Some (Some ao) →
      alert now st' ai ∧ (bw_saturated y = false → output_blocked y = false → served now st' ai).
Proof.
  intros Hs Hth Hd. destruct (bw_saturated y || output_blocked y) eqn:E.
  - destruct (th_self _ _ _ Hth) as (c & Ec & _). destruct (retry_alert N rs (self th) now st c Hs Ec) as (st' & -> & Hq & Ha).
    exists st'. split; [done|]. split; [done|]. intros i ai ao Ein _.
    destruct (th_in _ _ _ Hth ai) as (b & _ & Ek); [by eapply list_elem_of_lookup_2|]. split; [auto|].
    intros E1 E2. by rewrite E1, E2 in E.
  - apply orb_false_iff in E as [E1 E2]. exists st. split; [done|]. split; [by eapply quiet_refl|]. intros i ai ao Ein Eout.
    assert (served now st ai) as Hsv; [|split; [apply Hsv|done]]. pose proof (lookup_lt_Some _ _ _ Ein).
    pose proof (co_in _ (th_config _ _ _ Hth)). destruct (Hd (Z.of_nat i) ltac:(lia) ai ao) as [E|[E|?]]; simpl in *; rewrite ?Nat2Z.id; congruence || done.
Qed.


End Link.

(** ** A link that is narrower than a message *)

Section OneLink.
Import Throttle Tiny.

(** The link has 1000 units a cycle, the message 8000. *)
Definition narrow_net : NetConfig := mkNet [false] false false 8 72 1000 [] [] 1.
Definition narrow : Throttle.t :=
  Throttle.mk 10 [Some 0%nat] [Some 1%nat] 1 [[0]] false [1] [] 1 0 1000 (mkStats [] [] 0 0 0 0 0 0).

Lemma narrow_ok : throttle_ok narrow_net 500 0 (store ∅) narrow.
Proof.
  split.
  - split; [simpl; lia..| |by vm_compute| |].
    + by repeat constructor.
    + by vm_compute.
    + intros ty. unfold MESSAGE_SIZE_MULTIPLIER. destruct ty; simpl; lia.
  - intros Hn%list_elem_of_singleton. done.
  - intros a [= ->]%list_elem_of_singleton. by exists (holding [both 7]).
  - intros a [= ->]%list_elem_of_singleton. exists (holding []), 11%nat, idle. do 4 (split; [done|]). split; [|simpl; lia].
    split; [lia|]. split; [by left|]. split; [simpl; lia|by left].
  - exists idle. split; [done|]. split; [by exists 0|by vm_compute].
  - done.
  - intros [|i] row; [|done]. intros [= <-]. split; [done|]. by repeat constructor.
Qed.


End OneLink.
