(* ===== verification/Multicast.v ===== *)
(** The simple network as a whole: the routing units that [SimpleNetwork::init]
    builds from a topology bring every message to each of its destinations once. *)

From stdpp Require Import prelude list gmap sorting strings.
From Stdlib Require Import ZArith Lia.
From S2P Require Import Prelude Replacement NetDest NetDestSpec Topology TopologySpec Heap Clocking MessageBuffer Routing NetExample RoutingSpec Switch.

Open Scope Z_scope.

(** Where a link leads. *)
Inductive Target := ToNode (k : Z) | ToSwitch (k : Z).

Section Network.
Import Topology WeightBased SimpleNetwork.
Context (N : Z) {R A : Type} `{MachineTypes R} (rs : R) `{!MachineLaws N rs, !MachineNumbers rs} `{NetMessage R A}.
Context `{HeapOps (Message.t A)} `{SortLaws (LinkInfo R)} `{SortOps (nat * Z)}.
Implicit Types (st : Store.t A) (n : SimpleNetwork.t R) (u : WeightBased.t R) (c : Made (R := R)) (d : NetDest.t R).

(** The output links of a switch, in the order in which they are made. *)
Definition out_port (src : Z) c : option (Target * NetDest.t R * Z) :=
  match c with
  | ExtIn _ _ _ _ => None
  | ExtOut s k l r => if s =? src then (λ t, (ToNode k, t, 0)) <$> head r else None
  | Internal s k l r _ _ => if s =? src then (λ t, (ToSwitch k, t, Topology.m_weight l)) <$> head r else None
  end.
Definition ports (src : Z) (calls : list (Made (R := R))) : list (Target * NetDest.t R * Z) := omap (out_port src) calls.

(** A unit that has these links, by number. *)
Definition realises u (ports : list (Target * NetDest.t R * Z)) : Prop :=
  unit_ok rs u ∧ ∃ infos, m_links u ≡ₚ infos ∧ length infos = length ports ∧
    ∀ i l p, infos !! i = Some l → ports !! i = Some p →
      m_link_id l = Z.of_nat i ∧ m_routing_entry l = p.1.2 ∧ WeightBased.m_weight l = p.2.

Lemma realises_add u ports p bufs : realises u ports → valid rs p.1.2 →
  ∃ u', addOutPort u (zlen (m_links u)) bufs p.1.2 p.2 = Ok u' ∧ realises u' (ports ++ [p]).
Proof.
  intros (Hu & infos & Hp & Hl & Hi) Hv.
  destruct (addOutPort_ok rs u bufs p.1.2 p.2 Hu Hv) as (u' & E & Hu' & Hp' & _).
  { apply Forall_forall. intros l Hin. rewrite Hp in Hin. apply list_elem_of_lookup in Hin as [i Ei]. pose proof (lookup_lt_Some _ _ _ Ei).
    destruct (lookup_lt_is_Some_2 ports i) as [q Eq]; [lia|]. destruct (Hi i l q Ei Eq) as (-> & _). rewrite Hp. lia. }
  exists u'. split; [done|]. split; [done|]. exists (infos ++ [mkInfo (zlen (m_links u)) p.1.2 bufs 0 p.2]).
  split; [rewrite Hp', Hp; by rewrite Permutation_cons_append|]. split; [rewrite !length_app; simpl; lia|].
  intros i l q El Eq. apply lookup_snoc_Some in El as [[Hlt El]|[-> <-]].
  - rewrite lookup_app_l in Eq by lia. by apply (Hi i).
  - rewrite lookup_app_r, Hl, Nat.sub_diag in Eq by lia. injection Eq as <-. simpl. rewrite Hp. done.
Qed.

Lemma switch_addOutPort_unit g st (s s' : Switch.t R) st' out d lat weight bw ext :
  Switch.addOutPort g st s out d lat weight bw ext = Ok (s', st') →
  ∃ bufs, addOutPort (Switch.m_routing_unit s) (zlen (m_links (Switch.m_routing_unit s))) bufs d weight = Ok (Switch.m_routing_unit s').
Proof.
  unfold Switch.addOutPort. intros ([th st1] & _ & E)%rbind_Ok. apply rbind_Ok in E as (bufs & _ & E).
  apply rbind_Ok in E as ([u ps] & E1 & E). apply rbind_Ok in E as ([th' st2] & _ & E). injection E as <- <-.
  unfold PerfectSwitch.addOutPort in E1. apply rbind_Ok in E1 as (u' & E1 & E). injection E as -> <-.
  exists bufs. simpl. pose proof E1 as E2. unfold addOutPort in E2. apply rbind_Ok in E2 as (? & E2%require_Ok & _).
  apply Z.eqb_eq in E2. by rewrite <- E2.
Qed.

Lemma switch_addInPort_unit st (s s' : Switch.t R) st' ins :
  Switch.addInPort st s ins = Ok (s', st') → Switch.m_routing_unit s' = Switch.m_routing_unit s.
Proof. unfold Switch.addInPort. intros ([ps st1] & _ & E)%rbind_Ok. by injection E as <- <-. Qed.

(** The units of the switches after the calls. *)
Definition built n (calls : list (Made (R := R))) : Prop :=
  ∀ src s, m_switches n !! src = Some s → realises (Switch.m_routing_unit s) (ports src calls).

(** The routes of a call for the first virtual network. *)
Definition call_ok c : Prop :=
  match c with
  | ExtIn _ _ _ _ => True
  | ExtOut _ _ _ r | Internal _ _ _ r _ _ => ∃ d, head r = Some d ∧ valid rs d
  end.

(** The switches a call is about. *)
Definition call_in n c : Prop :=
  match c with
  | ExtIn _ k _ _ => is_Some (m_switches n !! k)
  | ExtOut s _ _ _ => is_Some (m_switches n !! s)
  | Internal s k _ _ _ _ => is_Some (m_switches n !! s) ∧ is_Some (m_switches n !! k)
  end.

Definition same_switches n n' : Prop := ∀ k, is_Some (m_switches n' !! k) ↔ is_Some (m_switches n !! k).

Lemma ports_snoc src calls c : ports src (calls ++ [c]) = ports src calls ++ option_list (out_port src c).
Proof. unfold ports. rewrite omap_app. simpl. by destruct (out_port src c). Qed.

(** One more output link of switch [k]; the units of the others stay. *)
Lemma built_out n n' calls c k s s' d target weight bufs : built n calls → m_switches n !! k = Some s →
  (∀ src, out_port src c = if src =? k then Some (target, d, weight) else None) → valid rs d →
  addOutPort (Switch.m_routing_unit s) (zlen (m_links (Switch.m_routing_unit s))) bufs d weight = Ok (Switch.m_routing_unit s') →
  (∀ src, option_map Switch.m_routing_unit (m_switches n' !! src) =
     if src =? k then Some (Switch.m_routing_unit s') else option_map Switch.m_routing_unit (m_switches n !! src)) →
  built n' (calls ++ [c]).
Proof.
  intros Hb Es Hc Hv Ea Hn' src s1 E1. specialize (Hn' src). rewrite E1 in Hn'. simpl in Hn'. rewrite ports_snoc, Hc.
  destruct (Z.eqb_spec src k) as [->|Hne].
  - injection Hn' as ->. destruct (realises_add (Switch.m_routing_unit s) (ports k calls) (target, d, weight) bufs (Hb k s Es) Hv) as (u' & E & Hr).
    simpl in E. rewrite Ea in E. injection E as ->. done.
  - simpl. rewrite app_nil_r. destruct (m_switches n !! src) as [s0|] eqn:E0; [|done]. injection Hn' as ->. by apply Hb.
Qed.

Lemma unit_insert (sw : gmap Z (Switch.t R)) k s' src :
  option_map Switch.m_routing_unit (<[k := s']> sw !! src) =
    if src =? k then Some (Switch.m_routing_unit s') else option_map Switch.m_routing_unit (sw !! src).
Proof. destruct (Z.eqb_spec src k) as [->|Hne]; [by rewrite lookup_insert_eq|by rewrite lookup_insert_ne]. Qed.

Lemma dom_insert_same (sw : gmap Z (Switch.t R)) k s s' j : sw !! k = Some s → is_Some (<[k := s']> sw !! j) ↔ is_Some (sw !! j).
Proof. intros E. destruct (decide (k = j)) as [<-|?]; [rewrite lookup_insert_eq, E; split; eauto|by rewrite lookup_insert_ne]. Qed.

Lemma head_vget {X} (r : list X) (d x : X) : head r = Some d → vget r 0 = Ok x → x = d.
Proof. destruct r; [done|]. intros [= ->] [_ [= ->]]%vget_Ok. done. Qed.

Definition step_ok n n' (calls : list (Made (R := R))) c : Prop := built n' (calls ++ [c]) ∧ same_switches n n' ∧ call_in n c.

Lemma extOut_ok st n n' st' s k l r calls : built n calls → call_ok (ExtOut s k l r) → makeExtOutLink st n s k l r = Ok (n', st') →
  step_ok n n' calls (ExtOut s k l r).
Proof.
  intros Hb (d & Er & Hv). unfold makeExtOutLink. intros (? & _ & E)%rbind_Ok. apply rbind_Ok in E as (? & _ & E).
  apply rbind_Ok in E as (sw & Es%of_option_Ok & E). apply rbind_Ok in E as (link & _ & E). apply rbind_Ok in E as (q & _ & E).
  apply rbind_Ok in E as (? & _ & E). apply rbind_Ok in E as (from & _ & E). apply rbind_Ok in E as (rt & Ex & E).
  apply (head_vget _ _ _ Er) in Ex as ->. apply rbind_Ok in E as ([sw' st1] & Ea & E). injection E as <- <-.
  apply switch_addOutPort_unit in Ea as [bufs Ea]. split; [|split; [intros j; simpl; by eapply dom_insert_same|by eexists]].
  eapply (built_out n _ calls _ s sw sw' d (ToNode k) 0 bufs Hb Es); [|done|done|apply unit_insert].
  intros src. simpl. rewrite Z.eqb_sym, Er. by destruct (src =? s).
Qed.

Lemma extIn_ok st n n' st' s k l r calls : built n calls → makeExtInLink st n s k = Ok (n', st') → step_ok n n' calls (ExtIn s k l r).
Proof.
  intros Hb. unfold makeExtInLink. intros (? & _ & E)%rbind_Ok. apply rbind_Ok in E as (? & _ & E).
  apply rbind_Ok in E as (sw & Es%of_option_Ok & E). apply rbind_Ok in E as (q & _ & E). apply rbind_Ok in E as ([sw' st1] & Ea & E).
  injection E as <- <-. apply switch_addInPort_unit in Ea. split; [|split; [intros j; simpl; by eapply dom_insert_same|by eexists]].
  intros src s1 E1. rewrite ports_snoc. simpl in *. rewrite app_nil_r.
  apply lookup_insert_Some in E1 as [[<- <-]|[_ E1]]; [rewrite Ea|]; by apply Hb.
Qed.

Lemma internal_ok st n n' st' s k l r sd dd calls : built n calls → call_ok (Internal s k l r sd dd) → makeInternalLink st n s k l r = Ok (n', st') →
  step_ok n n' calls (Internal s k l r sd dd).
Proof.
  intros Hb (d & Er & Hv). unfold makeInternalLink. intros (link & _ & E)%rbind_Ok.
  apply rbind_Ok in E as (sk & Ek%of_option_Ok & E). apply rbind_Ok in E as ([sk' st1] & Ei & E). cbv zeta in E. cbn [with_switches m_switches] in E.
  apply rbind_Ok in E as (sw & Es%of_option_Ok & E). apply rbind_Ok in E as (rt & Ex & E). apply (head_vget _ _ _ Er) in Ex as ->.
  apply rbind_Ok in E as ([sw' st2] & Ea & E). injection E as <- <-.
  apply switch_addOutPort_unit in Ea as [bufs Ea]. apply switch_addInPort_unit in Ei.
  assert (∃ sw0, m_switches n !! s = Some sw0 ∧ Switch.m_routing_unit sw = Switch.m_routing_unit sw0) as (sw0 & Es0 & Eu).
  { apply lookup_insert_Some in Es as [[<- <-]|[_ Es]]; eauto. }
  split; [|split; [|split; by eexists]].
  - rewrite Eu in Ea. eapply (built_out n _ calls _ s sw0 sw' d (ToSwitch k) (Topology.m_weight l) bufs Hb Es0); [|done|done|].
    + intros src. simpl. rewrite Z.eqb_sym, Er. by destruct (src =? s).
    + intros src. simpl. rewrite !unit_insert, Ei. destruct (src =? s); [done|]. destruct (Z.eqb_spec src k) as [->|]; [by rewrite Ek|done].
  - intros j. simpl. rewrite (dom_insert_same _ s sw) by done. by eapply dom_insert_same.
Qed.

Lemma call_in_same n n' c : same_switches n n' → call_in n c → call_in n' c.
Proof. intros Hs. unfold same_switches in Hs. destruct c; simpl; rewrite !Hs; done. Qed.

Lemma make_links_built calls : ∀ st n done n' st', built n done → Forall call_ok calls → make_links st n calls = Ok (n', st') →
  built n' (done ++ calls) ∧ same_switches n n' ∧ Forall (call_in n') calls.
Proof.
  induction calls as [|c calls IH]; intros st n done n' st' Hb Hc; simpl.
  { intros [= -> ->]. rewrite app_nil_r. split; [done|]. split; [by intros k|constructor]. }
  apply Forall_cons in Hc as [Hc Hcs]. intros ([n1 st1] & E1 & E)%rbind_Ok.
  assert (step_ok n n1 done c) as (Hb1 & Hs1 & Hin).
  { destruct c; [by eapply extIn_ok|by eapply extOut_ok|by eapply internal_ok]. }
  destruct (IH st1 n1 (done ++ [c]) n' st' Hb1 Hcs E) as (Hb' & Hs' & Hins). rewrite <- app_assoc in Hb'.
  assert (same_switches n n') as Hs by (intros k; unfold same_switches in *; by rewrite Hs'). split; [done|]. split; [done|]. constructor; [by eapply call_in_same|done].
Qed.

End Network.

(** ** The links of a topology *)

Section Links.
Import Topology.
Context (N : Z) {R : Type} `{MachineTypes R} (rs : R) `{!MachineLaws N rs, !MachineNumbers rs}.
Context (tp : t (R := R)) (fuel : nat) (n nv : Z) (w lat dist : Matrix.t) (calls : list (Made (R := R))).
Context (Htp : topology_ok rs tp fuel n nv) (Hdw : direct_weights tp = Ok (w, lat)).
Context (Hsp : shortest_path fuel tp w lat (Matrix.new n n nv 0) = Ok dist) (Hnet : createLinks N fuel tp = Ok (tp, calls)).
Implicit Types (c : Made (R := R)) (x : MachineID.t) (s k : Z) (t : Target).

Abbreviation nodes := (nodes rs).
Abbreviation links := (links_of (m_link_map tp)).

(** The switch of the topology a link leads to. *)
Definition index t : Z := match t with ToNode k => nodes + k | ToSwitch k => 2 * nodes + k end.
Definition distance t x : Z := entry dist 0 (index t) (out_switch rs x).

Lemma calls_made : (∀ c, c ∈ calls → ∃ i j e, e ∈ links i j ∧ makes N rs tp nv w dist i j e c) ∧
  (∀ i j e, e ∈ links i j → ∃ c, c ∈ calls ∧ makes N rs tp nv w dist i j e c).
Proof.
  destruct (createLinks_spec N rs tp fuel n nv w lat dist Htp Hdw Hsp) as (net & E & Hfrom & Hto).
  rewrite Hnet in E. injection E as ->. done.
Qed.

(** The three kinds of calls. *)
Lemma make_call_spec i j e r : e ∈ links i j →
  (i < nodes ∧ ∃ k, make_call tp i j e r = ExtIn i k (link e) r) ∨
  (2 * nodes ≤ i < n ∧ nodes ≤ j < 2 * nodes ∧ make_call tp i j e r = ExtOut (i - 2 * nodes) (j - nodes) (link e) r) ∨
  (2 * nodes ≤ i < n ∧ 2 * nodes ≤ j < n ∧
   make_call tp i j e r = Internal (i - 2 * nodes) (j - 2 * nodes) (link e) r (src_outport_dirn e) (dst_inport_dirn e)).
Proof.
  intros He. pose proof Htp as (_ & Hmn & _ & _ & Hnd & _ & Hn & _ & _ & _ & Hends & _).
  assert (links i j ≠ []) as Hne by (intros E; rewrite E in He; by apply not_elem_of_nil in He).
  destruct (links_group rs tp fuel n nv Htp i j Hne) as (_ & _ & Hi & Hj & _). unfold make_call. rewrite Hmn, (u32_small (2 * nodes)) by lia.
  destruct (Hends i j Hne) as [[Hin Hjn]|[Hin Hjn]].
  - left. rewrite (proj2 (Z.ltb_lt _ _)) by lia. split; [lia|]. by eexists.
  - right. rewrite (proj2 (Z.ltb_ge i _)) by lia. destruct (Z.ltb_spec j (2 * nodes)).
    + left. rewrite !u32_small by lia. split; [lia|]. by split; [lia|].
    + right. rewrite !u32_small by lia. split; [lia|]. by split; [lia|].
Qed.

(** The table [d] of the link [e] from switch [s] to [t]. *)
Definition table_of s t e d : Prop :=
  e ∈ links (2 * nodes + s) (index t) ∧ valid rs d ∧ nodes ≤ index t < n ∧ (index t < 2 * nodes ↔ ∃ k, t = ToNode k) ∧
  ∀ x, x ∈ members N d ↔ machine rs x ∧ 0 ∈ vnets nv (link e) ∧
    entry w 0 (2 * nodes + s) (index t) + distance t x = entry dist 0 (2 * nodes + s) (out_switch rs x).

Lemma made_table s j e r : 0 ≤ s → e ∈ links (2 * nodes + s) j → link_routes_ok N rs nv w dist (2 * nodes + s) j e r →
  ∃ t d wt, out_port s (make_call tp (2 * nodes + s) j e r) = Some (t, d, wt) ∧ index t = j ∧ table_of s t e d.
Proof.
  intros Hs He [Hlen Hr]. pose proof Htp as (_ & _ & _ & Hnv & Hnd & _). destruct (Hr 0 ltac:(lia)) as (d & Ed & Hv & Hm).
  assert (head r = Some d) as Eh by (by destruct r; [|apply vget_Ok in Ed as [_ [= ->]]]).
  destruct (make_call_spec _ j e r He) as [(? & _)|[(Hi & Hj & ->)|(Hi & Hj & ->)]]; [lia|..]; simpl;
    rewrite (proj2 (Z.eqb_eq _ _)), Eh by lia; eexists _, d, _; (split; [done|]); unfold table_of, distance; simpl.
  - replace (nodes + (j - nodes)) with j by lia. split; [done|]. split; [done|]. split; [done|]. split; [lia|]. split; [split; [by eexists|lia]|done].
  - replace (2 * nodes + (j - 2 * nodes)) with j by lia. split; [done|]. split; [done|]. split; [done|]. split; [lia|].
    split; [split; [lia|by intros [? ?]]|done].
Qed.

Lemma port_table s c t d wt : 0 ≤ s → c ∈ calls → out_port s c = Some (t, d, wt) → ∃ e, table_of s t e d.
Proof.
  intros Hs Hc Ho. destruct calls_made as [Hfrom _]. destruct (Hfrom c Hc) as (i & j & e & He & r & -> & Hr). exists e.
  assert (i = 2 * nodes + s) as ->.
  { destruct (make_call_spec i j e r He) as [(_ & k & E)|[(Hi & Hj & E)|(Hi & Hj & E)]]; rewrite E in Ho; simpl in Ho; [done|..];
      destruct (Z.eqb_spec (i - 2 * nodes) s); done || lia. }
  destruct (made_table s j e r Hs He Hr) as (t' & d' & wt' & E & _ & Ht). rewrite Ho in E. by injection E as <- <- <-.
Qed.

(** The facts about distances, for the first virtual network. *)
Lemma hops i x : 0 ≤ i < n → machine rs x → entry dist 0 i (out_switch rs x) < INFINITE_LATENCY →
  i = out_switch rs x ∨ ∃ j e, e ∈ links i j ∧ 0 ∈ vnets nv (link e) ∧
    entry w 0 i j + entry dist 0 j (out_switch rs x) = entry dist 0 i (out_switch rs x).
Proof.
  intros Hi Hx Hlt. destruct (decide (i = out_switch rs x)) as [|Hne]; [by left|right].
  pose proof Htp as (Hrs & _ & Hvn & Hnv & Hnd & _ & Hn & _ & _ & _ & _ & Hf). destruct (tables rs tp fuel n nv w lat dist Htp Hdw Hsp) as (Hok & _).
  assert (0 < n) as Hn0 by lia. assert (0 ≤ 0 < nv) as Hv by lia. assert (2 * nodes ≤ n) as Hnn by lia.
  destruct (next_hop N rs n nv Hn0 Hnv fuel tp w lat _ dist 0 x Hok Hvn Hrs Hf Hsp Hnn Hv Hx i Hi Hne Hlt) as (j & Hh).
  pose proof Hh as (Hj & Hpos & Hinf & _). apply (on_path_hop N rs n nv Hn0 Hnv fuel tp w lat _ dist 0 x Hok Hvn Hrs Hf Hsp Hnn Hv Hx) in Hh; try done.
  pose proof (real_link N rs tp fuel n nv w lat dist Htp Hdw Hsp 0 i j Hv Hi Hj) as Hr.
  rewrite (proj2 (Z.ltb_lt _ _)), (proj2 (Z.eqb_neq _ _)) in Hr by done. symmetry in Hr. apply bool_decide_eq_true in Hr.
  destruct (carrier nv (links i j) 0) as [l|] eqn:Ec; [|done]. apply carrier_Some in Ec as [H0 (e & He & <-)]. by exists j, e.
Qed.

Lemma carried_weight i j e : e ∈ links i j → 0 ∈ vnets nv (link e) → 1 ≤ entry w 0 i j.
Proof.
  intros He H0. assert (links i j ≠ []) as Hne by (intros E; rewrite E in He; by apply not_elem_of_nil in He).
  destruct (links_group rs tp fuel n nv Htp i j Hne) as (_ & Hg & Hi & Hj & _). pose proof Htp as (_ & _ & _ & Hnv & _).
  pose proof (real_link N rs tp fuel n nv w lat dist Htp Hdw Hsp 0 i j ltac:(lia) Hi Hj) as Hr.
  rewrite (carrier_unique nv _ 0 e Hg He H0), bool_decide_true in Hr by done. apply andb_true_iff in Hr as [?%Z.ltb_lt _]. lia.
Qed.

(** A message comes closer on every link, ... *)
Lemma closer s t e d x : 0 ≤ s → table_of s t e d → x ∈ members N d → machine rs x ∧ distance t x + 1 ≤ distance (ToSwitch s) x.
Proof.
  intros Hs (He & _ & _ & _ & Hm) (Hx & H0 & E)%Hm. split; [done|]. pose proof (carried_weight _ _ _ He H0). unfold distance in *. simpl. lia.
Qed.

(** ... finds one at every switch, ... *)
Lemma some_port s x : 0 ≤ s → 2 * nodes + s < n → machine rs x → distance (ToSwitch s) x < INFINITE_LATENCY →
  ∃ c t d wt, c ∈ calls ∧ out_port s c = Some (t, d, wt) ∧ x ∈ members N d.
Proof.
  intros Hs Hn Hx Hlt. pose proof Htp as (_ & _ & _ & _ & Hnd & _). pose proof (out_switch_bounds N rs x Hx) as Ho.
  assert (0 ≤ 2 * nodes + s < n) as Hsn by lia. destruct (hops (2 * nodes + s) x Hsn Hx Hlt) as [E|(j & e & He & H0 & E)]; [lia|].
  destruct calls_made as [_ Hto]. destruct (Hto _ _ _ He) as (c & Hc & r & -> & Hr).
  destruct (made_table s j e r Hs He Hr) as (t & d & wt & Ep & Ej & Ht). exists (make_call tp (2 * nodes + s) j e r), t, d, wt.
  split; [done|]. split; [done|]. destruct Ht as (_ & _ & _ & _ & Hm). apply Hm. unfold distance. rewrite Ej. done.
Qed.

(** ... and does not leave the node of a machine. *)
Lemma at_node k x : 0 ≤ k < nodes → machine rs x → distance (ToNode k) x < INFINITE_LATENCY → nodes + k = out_switch rs x.
Proof.
  intros Hk Hx Hlt. pose proof Htp as (_ & _ & _ & _ & Hnd & _ & Hn & _ & _ & _ & Hends & _).
  assert (0 ≤ nodes + k < n) as Hkn by lia. destruct (hops (nodes + k) x Hkn Hx Hlt) as [E|(j & e & He & _)]; [done|].
  assert (links (nodes + k) j ≠ []) as Hne by (intros E; rewrite E in He; by apply not_elem_of_nil in He).
  destruct (Hends _ _ Hne); lia.
Qed.

End Links.

(** ** The way of a message *)

Fixpoint concat_res {X Y : Type} (f : X → res (list Y)) (l : list X) : res (list Y) :=
  match l with
  | [] => Ok []
  | x :: l => let* a := f x in let* b := concat_res f l in Ok (a ++ b)
  end.

Lemma concat_res_ok {X Y : Type} (f : X → res (list Y)) (P : X → list Y → Prop) l :
  (∀ x, x ∈ l → ∃ out, f x = Ok out ∧ P x out) → ∃ outs, concat_res f l = Ok (concat outs) ∧ Forall2 P l outs.
Proof.
  induction l as [|x l IH]; intros Hl; simpl; [by exists []|]. destruct (Hl x) as (a & -> & Ha); [apply list_elem_of_here|]. cbn [rbind].
  destruct IH as (outs & -> & Hf); [intros y Hy; apply Hl; by apply list_elem_of_further|]. cbn [rbind]. exists (a :: outs). split; [done|by constructor].
Qed.

Section Delivery.
Import Topology WeightBased SimpleNetwork.
Context (N : Z) {R A : Type} `{MachineTypes R} (rs : R) `{!MachineLaws N rs, !MachineNumbers rs} `{NetMessage R A}.
Context `{HeapOps (Message.t A)} `{SortLaws (LinkInfo R)} `{SortOps (nat * Z)}.
Implicit Types (net : SimpleNetwork.t R) (calls : list (Made (R := R))) (d : NetDest.t R) (x : MachineID.t) (t : Target) (s : Z).

(** The nodes at which the copies of a message end that is at [t], with the
    destinations they still have: every switch sends a copy on each of the links
    that its unit gives. *)
Fixpoint spread (fuel : nat) net calls t d : res (list (Z * NetDest.t R)) :=
  match fuel with
  | O => Err EFuel
  | S fuel =>
      match t with
      | ToNode k => Ok [(k, d)]
      | ToSwitch s =>
          let* sw := of_option EUndef (m_switches net !! s) in
          let* routes := find_links N d (m_links (Switch.m_routing_unit sw)) in
          concat_res (λ r, let* p := of_option EUndef (ports s calls !! Z.to_nat (r_link_id r)) in
                           spread fuel net calls p.1.1 (m_destinations r)) routes
      end
  end.

(** The nodes that get a copy for machine [x]. *)
Definition copies_for x (out : list (Z * NetDest.t R)) : list Z :=
  concat ((λ o, if decide (x ∈ members N o.2) then [o.1] else []) <$> out).

(** The number of the node of a machine. *)
Definition node_of x : Z := MachineType_base_number rs (MachineID.type x) + MachineID.num x.

Lemma copies_concat x outs : copies_for x (concat outs) = concat (copies_for x <$> outs).
Proof. unfold copies_for. induction outs as [|o outs IH]; [done|]. simpl. rewrite fmap_app, concat_app, IH. done. Qed.

Section Ways.
Context (tp : Topology.t (R := R)) (fuel : nat) (n nv : Z) (w lat dist : Matrix.t) (calls : list (Made (R := R))) (net : SimpleNetwork.t R).
Context (Htp : topology_ok rs tp fuel n nv) (Hdw : direct_weights tp = Ok (w, lat)).
Context (Hsp : shortest_path fuel tp w lat (Matrix.new n n nv 0) = Ok dist) (Hnet : createLinks N fuel tp = Ok (tp, calls)).
Context (Hbuilt : built rs net calls) (Hin : Forall (call_in net) calls).

Abbreviation distance := (distance rs dist).

(** A place of the network. *)
Definition place t : Prop :=
  match t with
  | ToNode k => 0 ≤ k < nodes rs
  | ToSwitch s => 0 ≤ s ∧ 2 * nodes rs + s < n ∧ is_Some (m_switches net !! s)
  end.

Lemma port_place s c t d wt : 0 ≤ s → c ∈ calls → out_port s c = Some (t, d, wt) → place t.
Proof.
  intros Hs Hc Ho. pose proof Htp as (_ & _ & _ & _ & Hnd & _).
  destruct (port_table N rs tp fuel n nv w lat dist calls Htp Hdw Hsp Hnet s c t d wt Hs Hc Ho) as (e & _ & _ & Hn & Hk & _).
  rewrite Forall_forall in Hin. specialize (Hin c Hc). destruct t as [k|k]; simpl in *.
  - assert (nodes rs + k < 2 * nodes rs) by (apply Hk; eauto). lia.
  - assert (¬ 2 * nodes rs + k < 2 * nodes rs) by (rewrite Hk; by intros [? ?]). split; [lia|]. split; [lia|].
    destruct c as [|? ? ? r|? ? ? r]; simpl in *; [done|..]; destruct (_ =? s); try done; destruct (head r); try done. injection Ho as -> _ _. by destruct Hin.
Qed.

(** The link with number [i] of a switch. *)
Lemma link_number s sw l : m_switches net !! s = Some sw → l ∈ m_links (Switch.m_routing_unit sw) →
  ∃ c t wt, c ∈ calls ∧ out_port s c = Some (t, m_routing_entry l, wt) ∧ (∃ p, ports s calls !! Z.to_nat (m_link_id l) = Some p ∧ p.1.1 = t).
Proof.
  intros Es Hl. destruct (Hbuilt s sw Es) as (_ & infos & Hp & Hlen & Hi). rewrite Hp in Hl. apply list_elem_of_lookup in Hl as [i Ei].
  pose proof (lookup_lt_Some _ _ _ Ei). destruct (lookup_lt_is_Some_2 (ports s calls) i) as [[[t d] wt] Eq]; [lia|].
  destruct (Hi i l _ Ei Eq) as (Eid & Er & Ew). simpl in *. apply list_elem_of_lookup_2 in Eq as Hq. unfold ports in Hq.
  apply list_elem_of_omap in Hq as (c & Hc & Ho). exists c, t, wt. rewrite Er, Eid, Nat2Z.id. split; [done|]. split; [done|]. by eexists.
Qed.

Lemma switch_covered s sw d : place (ToSwitch s) → m_switches net !! s = Some sw → 
  (∀ x, x ∈ members N d → machine rs x ∧ distance (ToSwitch s) x < INFINITE_LATENCY) →
  covered N (members N d) (m_links (Switch.m_routing_unit sw)).
Proof.
  intros (Hs & Hn & _) Es Hd x Hx. destruct (Hd x Hx) as [Hm Hlt].
  destruct (some_port N rs tp fuel n nv w lat dist calls Htp Hdw Hsp Hnet s x Hs Hn Hm Hlt) as (c & t & e & wt & Hc & Ho & Hxe).
  destruct (Hbuilt s sw Es) as (_ & infos & Hp & Hlen & Hi).
  assert ((t, e, wt) ∈ ports s calls) as [i Ei]%list_elem_of_lookup by (apply list_elem_of_omap; eauto).
  pose proof (lookup_lt_Some _ _ _ Ei). destruct (lookup_lt_is_Some_2 infos i) as [l El]; [lia|]. destruct (Hi i l _ El Ei) as (_ & Er & _).
  exists l. rewrite Hp. split; [by eapply list_elem_of_lookup_2|]. unfold table. by rewrite Er.
Qed.

Lemma node_index k x : nodes rs + k = out_switch rs x → k = node_of x.
Proof. unfold out_switch, node_of. lia. Qed.

Lemma distance_nonneg t x : place t → machine rs x → 0 ≤ distance t x.
Proof.
  intros Hp Hx. pose proof Htp as (_ & _ & _ & Hnv & Hnd & _ & Hn & _). pose proof (out_switch_bounds N rs x Hx).
  destruct (tables rs tp fuel n nv w lat dist Htp Hdw Hsp) as (_ & _ & Ht).
  assert (0 ≤ index rs t < n) as Hi by (destruct t as [k|k]; simpl in *; lia).
  destruct (Ht 0 (index rs t) (out_switch rs x)) as [_ ?]; [lia|done|lia|]. unfold Multicast.distance. lia.
Qed.

Lemma copies_served x routes served outs : Forall2 (serves N rs) routes served →
  Forall2 (λ r out, ∀ x, copies_for x out = if decide (x ∈ members N (m_destinations r)) then [node_of x] else []) routes outs →
  copies_for x <$> outs = (λ q, if decide (x ∈ q.1) then [node_of x] else []) <$> served.
Proof.
  intros Hr. revert outs. induction Hr as [|r q routes served (_ & E & _) _ IH]; intros outs Ho; inv Ho as [|? out ? outs' Hx Ho']; [done|].
  rewrite !fmap_cons, Hx, E. f_equal. by apply IH.
Qed.

(** The copies of a message end at the nodes of its destinations, one at each. *)
Lemma spread_ok : ∀ f t d, valid rs d → place t → (0 < f)%nat →
  (∀ x, x ∈ members N d → machine rs x ∧ distance t x < INFINITE_LATENCY ∧ distance t x < Z.of_nat f) →
  ∃ out, spread f net calls t d = Ok out ∧ ∀ x, copies_for x out = if decide (x ∈ members N d) then [node_of x] else [].
Proof.
  induction f as [|f IH]; intros t d Hv Hp Hf Hd; [lia|]. destruct t as [k|s]; simpl.
  { exists [(k, d)]. split; [done|]. intros x. unfold copies_for. simpl. rewrite app_nil_r. case_decide as Hx; [|done].
    destruct (Hd x Hx) as (Hm & Hlt & _). f_equal. apply node_index. by eapply (at_node N rs tp fuel n nv w lat dist). }
  pose proof Hp as (Hs & Hn & [sw Es]). rewrite Es. cbn [of_option rbind].
  assert (covered N (members N d) (m_links (Switch.m_routing_unit sw))) as Hcov.
  { eapply switch_covered; [done|done|]. intros x Hx. by destruct (Hd x Hx) as (? & ? & _). }
  destruct (Hbuilt s sw Es) as (((_ & Hvl) & _) & _). destruct (find_links_ok N rs d _ Hv Hvl) as [Hok _].
  destruct (Hok Hcov) as (routes & -> & Hr). cbn [rbind].
  destruct (concat_res_ok (λ r, let* p := of_option EUndef (ports s calls !! Z.to_nat (r_link_id r)) in
      spread f net calls p.1.1 (m_destinations r))
    (λ r out, ∀ x, copies_for x out = if decide (x ∈ members N (m_destinations r)) then [node_of x] else []) routes) as (outs & -> & Houts).
  { intros r [i Ei]%list_elem_of_lookup. destruct (Forall2_lookup_l _ _ _ _ _ Hr Ei) as ([X id] & EX & Hvr & EmX & Eid).
    apply list_elem_of_lookup_2, serve_in in EX as (HX0 & HXD & l & Hl & El & HXl). simpl in *.
    destruct (link_number s sw l Es Hl) as (c & t & wt & Hc & Ho & p & Eport & Ept). rewrite Eid, <- El, Eport. cbn [of_option rbind]. rewrite Ept.
    destruct (port_table N rs tp fuel n nv w lat dist calls Htp Hdw Hsp Hnet s c t _ wt Hs Hc Ho) as (e & Ht).
    assert (∀ x, x ∈ X → machine rs x ∧ distance t x < INFINITE_LATENCY ∧ distance t x < Z.of_nat f) as Hnext.
    { intros x Hx. destruct (closer N rs tp fuel n nv w lat dist Htp Hdw Hsp s t e _ x Hs Ht (HXl x Hx)) as [Hm Hcl].
      destruct (Hd x (HXD x Hx)) as (_ & ? & ?). split; [done|]. lia. }
    apply IH; [done|by eapply port_place| |by rewrite EmX].
    apply set_choose_L in HX0 as [x Hx]. destruct (Hnext x Hx) as (Hm & _ & Hlt).
    assert (0 ≤ distance t x); [|lia]. apply distance_nonneg; [by eapply port_place|done]. }
  exists (concat outs). split; [done|]. intros x. rewrite copies_concat, <- (serve_once N _ (m_links (Switch.m_routing_unit sw)) x (node_of x) (Hcov x)).
  f_equal. by eapply copies_served.
Qed.

End Ways.

Lemma calls_ok tp fuel n nv w lat dist calls : topology_ok rs tp fuel n nv → direct_weights tp = Ok (w, lat) →
  shortest_path fuel tp w lat (Matrix.new n n nv 0) = Ok dist → createLinks N fuel tp = Ok (tp, calls) → Forall (call_ok rs) calls.
Proof.
  intros Htp Hdw Hsp Hnet. apply Forall_forall. intros c Hc.
  destruct (calls_made N rs tp fuel n nv w lat dist calls Htp Hdw Hsp Hnet) as [Hfrom _].
  destruct (Hfrom c Hc) as (i & j & e & He & r & -> & Hlen & Hr). pose proof Htp as (_ & _ & _ & Hnv & _).
  destruct (Hr 0 ltac:(lia)) as (d & Ed & Hv & _).
  assert (head r = Some d) as Eh by (by destruct r; [|apply vget_Ok in Ed as [_ [= ->]]]).
  unfold make_call. repeat case_match; simpl; eauto.
Qed.


End Delivery.


(** ** Two switches *)

Section TwoSwitches.
Import Topology SimpleNetwork.
#[local] Existing Instances two_types two_types_laws two_types_numbers Tiny.messages.

Definition new_buffer : MessageBuffer.t Tiny.payload := MessageBuffer.new Tiny.config.
Definition new_switch (id : Z) (k : nat) (port_buffers : list (option nat)) : Switch.t unit :=
  Switch.mk (PerfectSwitch.new id k 1) [] 1 1 (WeightBased.mk [] false (λ _, 0)) 0 port_buffers (Clocked.new 500).
Definition new_store : Store.t Tiny.payload :=
  Store.mk (list_to_map ((λ a, (a, new_buffer)) <$> seq 0 10)) ∅ (<[10%nat := Tiny.idle]> {[11%nat := Tiny.idle]}) ∅ (λ _, (0, 0, 0)).
Definition two_switches : SimpleNetwork.t unit :=
  SimpleNetwork.mk (mkNet [false] false false 8 72 1000 [] [] 1) 2 (<[0 := 0]> {[1 := 1]}) [[Some 0%nat]; [Some 1%nat]]
    [[Some 2%nat]; [Some 3%nat]]
    (<[0 := new_switch 0 10 [Some 4%nat; Some 5%nat]]> {[1 := new_switch 1 11 [Some 6%nat; Some 7%nat]]}) []
    (<[0%nat := mkSimple 1 []]> (<[1%nat := mkSimple 1 []]> (<[2%nat := mkSimple 1 [Some 8%nat]]> {[3%nat := mkSimple 1 [Some 9%nat]]}))).

Definition built_ok (fuel : nat) : bool :=
  match SimpleNetwork.init 64 fuel new_store two_switches routers with Ok _ => true | Err _ => false end.

Lemma two_switches_built : built_ok rounds = true.
Proof. vm_compute. reflexivity. Qed.

Lemma both_reached x : x ∈ members 64 (Tiny.dest true true) →
  entry distances 0 (2 * nodes () + 0) (out_switch () x) < INFINITE_LATENCY.
Proof.
  intros Hx. assert (x ∈ [MachineID.mk 0 0; MachineID.mk 1 0]) as Hin by (apply elem_of_list_to_set in Hx; exact Hx).
  apply elem_of_cons in Hin as [->|[->|Hin]%elem_of_cons]; [by vm_compute|by vm_compute|by apply not_elem_of_nil in Hin].
Qed.


End TwoSwitches.
