(* ===== verification/Network.v ===== *)
(** network/Network and network/simple/SimpleNetwork: their constructors, which
    number the nodes of a network, and functional accesses to all messages in it. *)

From stdpp Require Import prelude list gmap.
From Stdlib Require Import ZArith Lia.
From S2P Require Import Prelude AddrRange NetDest Topology Heap Clocking MessageBuffer Routing Switch.

Open Scope Z_scope.

(** ** Numbers of nodes *)

Module Nodes.
Import MachineID.
Section Nodes.
Context {R : Type} `{MachineTypes R} (r : R).
Implicit Types (m : gmap Z Z) (cntrls : list MachineID.t).

(** The versions of the controllers of each type, in the order of the links. *)
Definition localNodeVersions cntrls : gmap Z (list Z) :=
  foldl (λ v c, <[type c := default [] (v !! type c) ++ [num c]]> v) ∅ cntrls.

(** [globalToLocalMap] and [local_node_id]; [emplace] leaves an entry that is there. *)
Definition number_version (mach : Z) (s : gmap Z Z * Z) (ver : Z) : gmap Z Z * Z :=
  let global_node_id := u32 (MachineType_base_number r mach + ver) in
  (match s.1 !! global_node_id with
   | Some _ => s.1
   | None => <[global_node_id := s.2]> s.1
   end, u32 (s.2 + 1)).

Definition number_type (versions : gmap Z (list Z)) (s : gmap Z Z * Z) (mach : Z) : gmap Z Z * Z :=
  match versions !! mach with
  | Some l => foldl (number_version mach) s l
  | None => s
  end.

Definition number_nodes cntrls : gmap Z Z * Z :=
  foldl (number_type (localNodeVersions cntrls)) (∅, 0) (seqZ 0 (MachineType_base_level MachineType_NUM)).

End Nodes.
End Nodes.

(** ** The constructors *)

Module NetworkBase.
Section NetworkBase.
Context {R A : Type} `{MachineTypes R}.

(** The parameters of a network. *)
Record Params := mkParams {
  number_of_virtual_networks : Z; control_msg_size : Z; data_msg_size : Z; block_size : Z; ruby_system : R;
  ext_links : list Topology.BasicExtLink; int_links : list Topology.BasicIntLink;
  routers : list (Z * Switch.t R); endpoint_bandwidth : Z; physical_vnets_channels : list Z;
  physical_vnets_bandwidth : list Z; links : gmap nat SimpleNetwork.SimpleLink }.
Implicit Types p : Params.

Definition ext_node (l : Topology.BasicExtLink) : MachineID.t :=
  MachineID.mk (Topology.ext_node_type l) (Topology.ext_node_version l).

(** [Network::Network] up to the queues of the controllers, which they enter
    themselves. *)
Definition new p (randomization warmup : bool) : res (SimpleNetwork.t R * Topology.t (R := R)) :=
  let* _ := require (data_msg_size p <=? block_size p) EFatal in
  let '(globalToLocalMap, m_nodes) := Nodes.number_nodes (ruby_system p) (ext_node <$> ext_links p) in
  assert! negb (m_nodes =? 0) in
  assert! negb (number_of_virtual_networks p =? 0) in
  let* tp := Topology.new (zlen (routers p)) (number_of_virtual_networks p) (ext_links p) (int_links p) (ruby_system p) in
  Ok (SimpleNetwork.mk
        (mkNet (replicate (Z.to_nat (number_of_virtual_networks p)) false) randomization warmup (control_msg_size p)
           (u32 (data_msg_size p + control_msg_size p)) (endpoint_bandwidth p) (physical_vnets_channels p)
           (physical_vnets_bandwidth p) (number_of_virtual_networks p))
        m_nodes globalToLocalMap (replicate (Z.to_nat m_nodes) []) (replicate (Z.to_nat m_nodes) []) ∅ [] (links p), tp).

(** [SimpleNetwork::SimpleNetwork]. *)
Definition new_simple p (randomization warmup : bool) : res (SimpleNetwork.t R * Topology.t (R := R)) :=
  let* (n, tp) := new p randomization warmup in
  let n := SimpleNetwork.with_switches n (foldl (λ m s, <[s.1 := s.2]> m) ∅ (routers p)) (SimpleNetwork.m_fromNetQueues n) [] in
  let physical_vnets := 0 <? zlen (physical_vnets_channels p) in
  let vnets := number_of_virtual_networks p in
  let* _ := require (negb (physical_vnets && negb (zlen (physical_vnets_channels p) =? vnets))) EFatal in
  let* _ := require (negb (negb physical_vnets && negb (zlen (physical_vnets_bandwidth p) =? 0))) EFatal in
  let* _ := require (negb (negb (zlen (physical_vnets_bandwidth p) =? vnets) &&
                           negb (zlen (physical_vnets_bandwidth p) =? 0))) EFatal in
  Ok (n, tp).

End NetworkBase.
Arguments Params R : clear implicits.
End NetworkBase.

(** ** Functional accesses

    The virtual functions of the messages are arguments, as in [MessageBuffer]. *)

Module Functional.
Section Functional.
Context {R A P M : Type} `{MachineTypes R}.
Context (functionalRead : A → P → bool * P) (functionalRead_mask : A → P → M → bool * (P * M)).
Context (functionalWrite : A → P → bool * A).
Implicit Types (st : Store.t A) (s : Switch.t R) (n : SimpleNetwork.t R) (bufs : list (option nat)) (pkt : P).

(** The loops over buffers: a read ends at the first hit, a read with a mask and a
    write go through all. *)
Fixpoint read_buffers st bufs pkt : res (bool * P) :=
  match bufs with
  | [] => Ok (false, pkt)
  | b :: bufs =>
      let* (_, b) := Store.deref st b in
      let '(hit, pkt, _) := MessageBuffer.functionalRead_buffer functionalRead functionalRead_mask functionalWrite b pkt None in
      if hit : bool then Ok (true, pkt) else read_buffers st bufs pkt
  end.

Fixpoint read_buffers_mask st bufs (read : bool) pkt (mask : M) : res (bool * P * M) :=
  match bufs with
  | [] => Ok (read, pkt, mask)
  | b :: bufs =>
      let* (_, b) := Store.deref st b in
      let '(hit, pkt, mask') := MessageBuffer.functionalRead_buffer functionalRead functionalRead_mask functionalWrite b pkt (Some mask) in
      read_buffers_mask st bufs (read || hit) pkt (default mask mask')
  end.

Fixpoint write_buffers st bufs pkt (num_functional_writes : Z) : res (Z * Store.t A) :=
  match bufs with
  | [] => Ok (num_functional_writes, st)
  | b :: bufs =>
      let* (a, b) := Store.deref st b in
      let '(k, b) := MessageBuffer.functionalWrite_buffer functionalRead functionalRead_mask functionalWrite b pkt in
      write_buffers (Store.put st a b) bufs pkt (u32 (num_functional_writes + k))
  end.

Definition Switch_functionalRead st s pkt : res (bool * P) := read_buffers st (Switch.m_port_buffers s) pkt.
Definition Switch_functionalRead_mask st s pkt (mask : M) : res (bool * P * M) :=
  read_buffers_mask st (Switch.m_port_buffers s) false pkt mask.
Definition Switch_functionalWrite st s pkt : res (Z * Store.t A) := write_buffers st (Switch.m_port_buffers s) pkt 0.

(** The loops over the switches, in the order of the hash table. *)
Fixpoint read_switches st (switches : list (Switch.t R)) pkt : res (bool * P) :=
  match switches with
  | [] => Ok (false, pkt)
  | s :: switches =>
      let* (hit, pkt) := Switch_functionalRead st s pkt in
      if hit : bool then Ok (true, pkt) else read_switches st switches pkt
  end.

Fixpoint read_switches_mask st (switches : list (Switch.t R)) (read : bool) pkt (mask : M) : res (bool * P * M) :=
  match switches with
  | [] => Ok (read, pkt, mask)
  | s :: switches =>
      let* (hit, pkt, mask) := Switch_functionalRead_mask st s pkt mask in
      read_switches_mask st switches (read || hit) pkt mask
  end.

Fixpoint write_switches st (switches : list (Switch.t R)) pkt (num_functional_writes : Z) : res (Z * Store.t A) :=
  match switches with
  | [] => Ok (num_functional_writes, st)
  | s :: switches =>
      let* (k, st) := Switch_functionalWrite st s pkt in
      write_switches st switches pkt (u32 (num_functional_writes + k))
  end.

Definition SimpleNetwork_functionalRead st n (switches : list (Switch.t R)) pkt : res (bool * P) :=
  let* (hit, pkt) := read_switches st switches pkt in
  if hit : bool then Ok (true, pkt) else read_buffers st (SimpleNetwork.m_int_link_buffers n) pkt.

Definition SimpleNetwork_functionalRead_mask st n (switches : list (Switch.t R)) pkt (mask : M) : res (bool * P * M) :=
  let* (read, pkt, mask) := read_switches_mask st switches false pkt mask in
  read_buffers_mask st (SimpleNetwork.m_int_link_buffers n) read pkt mask.

Definition SimpleNetwork_functionalWrite st n (switches : list (Switch.t R)) pkt : res (Z * Store.t A) :=
  let* (k, st) := write_switches st switches pkt 0 in
  write_buffers st (SimpleNetwork.m_int_link_buffers n) pkt k.

End Functional.
End Functional.
