(* ===== verification/NetworkSpec.v ===== *)
(** The constructors of a network number its nodes one to one, and functional
    accesses reach every message in its buffers. *)

From stdpp Require Import prelude list gmap fin_maps strings.
From Stdlib Require Import ZArith Lia.
From S2P Require Import Prelude AddrRange NetDest NetDestSpec Topology TopologySpec Heap Clocking MessageBuffer Routing NetExample Switch Network.

Open Scope Z_scope.

(** ** Numbers of nodes *)

Section Numbers.
Import MachineID Nodes.
Context (N : Z) {R : Type} `{MachineTypes R} (rs : R) `{!MachineLaws N rs, !MachineNumbers rs}.
Implicit Types (c : MachineID.t) (cs : list MachineID.t) (m : gmap Z Z).

(** The number of a machine in the whole system. *)
Definition global c : Z := MachineType_base_number rs (type c) + num c.

Lemma global_bounds c : machine rs c → MachineType_base_number rs (type c) ≤ global c < MachineType_base_number rs (type c + 1).
Proof. intros [Ht Hn]. unfold global. rewrite (base_number_next rs) by done. lia. Qed.

Lemma global_range c : machine rs c → 0 ≤ global c < 2 ^ 32.
Proof.
  intros Hc. pose proof (global_bounds c Hc). pose proof Hc as [Ht _]. pose proof (out_switch_bounds N rs c Hc) as Ho.
  unfold out_switch, nodes in Ho. unfold global in *. split; [lia|]. pose proof (total_fits (N := N) (rs := rs)).
  assert (∀ k : nat, Z.of_nat k ≤ MachineType_NUM → MachineType_base_number rs (Z.of_nat k) ≤ Z.of_nat k * N) as Hb.
  { induction k as [|k IH]; intros Hk; [by rewrite base_numbers by lia|].
    rewrite Nat2Z.inj_succ, <- Z.add_1_r, (base_number_next rs) by lia. pose proof (counts_fit (N := N) (rs := rs) (Z.of_nat k)). lia. }
  pose proof (num_types (N := N) (rs := rs)). specialize (Hb (Z.to_nat MachineType_NUM)). rewrite Z2Nat.id in Hb by lia. lia.
Qed.

Lemma global_mono c c' : machine rs c → machine rs c' → type c < type c' → global c < global c'.
Proof.
  intros Hc Hc' Hlt. pose proof (global_bounds c Hc). pose proof (global_bounds c' Hc'). destruct Hc as [? _], Hc' as [? _].
  assert (MachineType_base_number rs (type c + 1) ≤ MachineType_base_number rs (type c')) by (apply (base_number_mono N rs); lia). lia.
Qed.

Lemma global_inj c c' : machine rs c → machine rs c' → global c = global c' → c = c'.
Proof.
  intros Hc Hc' E. assert (type c = type c') as Et.
  { destruct (Z.lt_trichotomy (type c) (type c')) as [Hlt|[?|Hlt]]; [|done|]; apply global_mono in Hlt; (done || lia). }
  unfold global in E. rewrite Et in E. destruct c, c'; simpl in *. f_equal; [done|lia].
Qed.

(** The controllers in the order in which they are numbered. *)
Definition of_kind cs (ty : Z) : list MachineID.t := filter (λ c, type c = ty) cs.
Definition in_order cs : list MachineID.t := concat (of_kind cs <$> seqZ 0 MachineType_NUM).

Lemma versions_of cs ty : default [] (localNodeVersions cs !! ty) = num <$> of_kind cs ty.
Proof.
  unfold localNodeVersions, of_kind. induction cs as [|c cs IH] using rev_ind; [done|]. rewrite foldl_snoc, filter_app, fmap_app, <- IH, filter_cons.
  destruct (decide (type c = ty)) as [<-|Hne].
  - by rewrite lookup_insert_eq.
  - rewrite lookup_insert_ne by done. simpl. by rewrite app_nil_r.
Qed.

Definition number_step (s : gmap Z Z * Z) c : gmap Z Z * Z := number_version rs (type c) s (num c).

Lemma number_type_step cs ty s : number_type rs (localNodeVersions cs) s ty = foldl number_step s (of_kind cs ty).
Proof.
  assert (number_type rs (localNodeVersions cs) s ty = foldl (number_version rs ty) s (default [] (localNodeVersions cs !! ty))) as ->.
  { unfold number_type. by destruct (_ !! ty). }
  rewrite versions_of. unfold of_kind. revert s. induction cs as [|c cs IH]; intros s; [done|]. rewrite filter_cons.
  destruct (decide (type c = ty)) as [E|]; [|apply IH]. simpl. unfold number_step at 2. rewrite E. apply IH.
Qed.

Lemma number_nodes_step cs : number_nodes rs cs = foldl number_step (∅, 0) (in_order cs).
Proof.
  unfold number_nodes, in_order. pose proof (num_types (N := N) (rs := rs)). rewrite (base_level_id (N := N) (rs := rs)) by lia.
  generalize (seqZ 0 MachineType_NUM) (∅ : gmap Z Z, 0). intros l. induction l as [|ty l IH]; intros s; [done|].
  simpl. by rewrite number_type_step, IH, foldl_app.
Qed.

Lemma in_order_elem cs c : Forall (machine rs) cs → c ∈ in_order cs ↔ c ∈ cs.
Proof.
  intros Hm. unfold in_order, of_kind. rewrite elem_of_concat. split.
  - intros (l & (ty & -> & _)%list_elem_of_fmap & Hc). by apply list_elem_of_filter in Hc as [_ ?].
  - intros Hc. eexists. split; [apply list_elem_of_fmap; exists (type c); split; [done|]|by apply list_elem_of_filter].
    rewrite Forall_forall in Hm. destruct (Hm c Hc) as [? _]. apply elem_of_seqZ. lia.
Qed.

Lemma in_order_NoDup cs : NoDup cs → NoDup (in_order cs).
Proof.
  intros Hn. unfold in_order. assert (NoDup (seqZ 0 MachineType_NUM)) as Hs by apply NoDup_seqZ.
  induction (seqZ 0 MachineType_NUM) as [|ty l IH]; [constructor|]. apply NoDup_cons in Hs as [Hty Hs]. simpl. apply NoDup_app.
  split; [by apply NoDup_filter|]. split; [|by apply IH]. intros c [E _]%list_elem_of_filter (l' & (ty' & -> & Ht)%list_elem_of_fmap & Hc)%elem_of_concat.
  apply list_elem_of_filter in Hc as [E' _]. congruence.
Qed.

Lemma in_order_length cs : NoDup cs → Forall (machine rs) cs → length (in_order cs) = length cs.
Proof.
  intros Hn Hm. apply Permutation_length, NoDup_Permutation; [by apply in_order_NoDup|done|]. intros c. by apply in_order_elem.
Qed.

(** Numbering a list of controllers from the state after [done]. *)
Definition numbered (l : list MachineID.t) (s : gmap Z Z * Z) : Prop :=
  s.2 = zlen l ∧ ∀ g k, s.1 !! g = Some k ↔ 0 ≤ k ∧ ∃ c, l !! Z.to_nat k = Some c ∧ global c = g.

Lemma number_step_ok l s c : numbered l s → NoDup (l ++ [c]) → Forall (machine rs) (l ++ [c]) → zlen l < 2 ^ 32 - 1 → numbered (l ++ [c]) (number_step s c).
Proof.
  intros [Hk Hm] Hn Hall Hlen. rewrite Forall_forall in Hall. apply NoDup_app in Hn as (_ & Hn & _). unfold number_step, number_version. fold (global c).
  assert (machine rs c) as Hc by (apply Hall; set_solver). rewrite u32_small by (by apply global_range).
  assert (s.1 !! global c = None) as Hnone.
  { apply eq_None_not_Some. intros [k (_ & c' & Hc' & E)%Hm]. apply list_elem_of_lookup_2 in Hc'.
    apply global_inj in E; [|apply Hall; set_solver|done]. subst c'. by apply (Hn c Hc'), list_elem_of_singleton. }
  rewrite Hnone. split; simpl; [rewrite u32_small, length_app by lia; simpl; lia|]. intros g k.
  destruct (decide (global c = g)) as [<-|Hne].
  - rewrite lookup_insert_eq. split.
    + intros [= <-]. split; [lia|]. exists c. split; [|done]. rewrite Hk, Nat2Z.id. by apply list_lookup_middle.
    + intros (Hk0 & c' & Hc' & E). f_equal. apply global_inj in E; [|apply Hall; by eapply list_elem_of_lookup_2|done]. subst c'.
      apply lookup_app_Some in Hc' as [Hc'|[Hle Hc']]; [apply list_elem_of_lookup_2 in Hc'; by destruct (Hn c Hc'); left|].
      apply list_lookup_singleton_Some in Hc' as [? _]. lia.
  - rewrite lookup_insert_ne by done. rewrite Hm. split; intros (Hk0 & c' & Hc' & E); (split; [done|]); exists c'; (split; [|done]).
    + by apply lookup_app_l_Some.
    + apply lookup_app_Some in Hc' as [Hc'|[Hle Hc']]; [done|]. apply list_lookup_singleton_Some in Hc' as [_ ->]. done.
Qed.

Lemma number_list_ok l : NoDup l → Forall (machine rs) l → zlen l < 2 ^ 32 → numbered l (foldl number_step (∅, 0) l).
Proof.
  intros Hn Hm Hl. induction l as [|c l IH] using rev_ind.
  { split; [done|]. intros g k. simpl. rewrite lookup_empty. split; [done|]. by intros (_ & c & ? & _). }
  rewrite foldl_snoc. rewrite length_app in Hl. simpl in Hl. apply number_step_ok; [|done|done|lia].
  apply NoDup_app in Hn as [Hn _]. apply Forall_app in Hm as [Hm _]. apply IH; [done|done|lia].
Qed.

(** If a network has all machines, those of each type in order, the numbers are
    those of the whole system. *)
Definition all_in_order cs : Prop :=
  ∀ ty, 0 ≤ ty < MachineType_NUM → of_kind cs ty = MachineID.mk ty <$> seqZ 0 (MachineType_base_count rs ty).

Lemma in_order_global cs c : all_in_order cs → machine rs c → in_order cs !! Z.to_nat (global c) = Some c.
Proof.
  intros Ha Hc. unfold in_order.
  assert (∀ k : nat, Z.of_nat k ≤ MachineType_NUM →
    let l := concat (of_kind cs <$> seqZ 0 (Z.of_nat k)) in
    zlen l = MachineType_base_number rs (Z.of_nat k) ∧ (type c < Z.of_nat k → l !! Z.to_nat (global c) = Some c)) as Hk.
  { induction k as [|k IH]; intros Hk; cbn zeta.
    { rewrite base_numbers by lia. split; [done|]. destruct Hc as [? _]. lia. }
    destruct IH as [IHl IHc]; [lia|]. rewrite Nat2Z.inj_succ, <- Z.add_1_r, seqZ_app, fmap_app, concat_app by lia.
    rewrite Z.add_0_l, (seqZ_cons (Z.of_nat k) 1) by lia. simpl. rewrite app_nil_r, length_app, (Ha (Z.of_nat k)), length_fmap, length_seqZ by lia.
    rewrite (base_number_next rs) by lia. pose proof (counts_fit (N := N) (rs := rs) (Z.of_nat k)). split; [lia|]. intros Hlt.
    pose proof (global_bounds c Hc) as Hb. pose proof (global_range c Hc). destruct (decide (type c < Z.of_nat k)) as [Hl|Hl].
    - apply lookup_app_l_Some. by apply IHc.
    - assert (type c = Z.of_nat k) as E by lia. rewrite lookup_app_r by (rewrite E in Hb; lia).
      destruct Hc as [_ Hn]. rewrite list_lookup_fmap. rewrite lookup_seqZ_lt by (unfold global in *; rewrite E in *; lia).
      simpl. f_equal. destruct c as [ty v]; simpl in *. f_equal; [done|]. unfold global in *. simpl in *. subst ty. lia. }
  pose proof (num_types (N := N) (rs := rs)). destruct (Hk (Z.to_nat MachineType_NUM)) as [_ Hr]; [lia|]. rewrite Z2Nat.id in Hr by lia.
  apply Hr, Hc.
Qed.

End Numbers.

(** ** The constructed network *)

Section Constructed.
Import SimpleNetwork.
Context (N : Z) {R : Type} `{MachineTypes R}.
Implicit Types (p : NetworkBase.Params R) (n : SimpleNetwork.t R) (c : MachineID.t).

Abbreviation vnets p := (NetworkBase.number_of_virtual_networks p).

(** The conditions that the constructors test, on parameters that fit their types. *)
Definition sound_params p : Prop :=
  NetworkBase.data_msg_size p ≤ NetworkBase.block_size p ∧ 0 < vnets p < 2 ^ 31 ∧
  NetworkBase.ext_links p ≠ [] ∧ zlen (NetworkBase.ext_links p) < 2 ^ 32 ∧
  (NetworkBase.physical_vnets_channels p = [] ∧ NetworkBase.physical_vnets_bandwidth p = [] ∨
   zlen (NetworkBase.physical_vnets_channels p) = vnets p ∧
   (NetworkBase.physical_vnets_bandwidth p = [] ∨ zlen (NetworkBase.physical_vnets_bandwidth p) = vnets p)).

Definition controllers p : list MachineID.t := NetworkBase.ext_node <$> NetworkBase.ext_links p.

Lemma new_simple_ok p rnd warm tp : sound_params p →
  (Nodes.number_nodes (NetworkBase.ruby_system p) (controllers p)).2 = zlen (controllers p) →
  Topology.new (zlen (NetworkBase.routers p)) (vnets p) (NetworkBase.ext_links p) (NetworkBase.int_links p) (NetworkBase.ruby_system p) = Ok tp →
  ∃ n, NetworkBase.new_simple p rnd warm = Ok (n, tp) ∧ m_nodes n = zlen (controllers p) ∧
    globalToLocalMap n = (Nodes.number_nodes (NetworkBase.ruby_system p) (controllers p)).1 ∧
    m_toNetQueues n = replicate (length (controllers p)) [] ∧ m_fromNetQueues n = replicate (length (controllers p)) [] ∧
    number_of_virtual_networks (cfg n) = vnets p ∧ zlen (m_ordered (cfg n)) = vnets p.
Proof.
  intros (Hd & Hv & Hne & _ & Hph) Hk Etp. unfold NetworkBase.new_simple, NetworkBase.new. rewrite (proj2 (Z.leb_le _ _) Hd). cbn [require rbind].
  fold (controllers p). destruct (Nodes.number_nodes _ _) as [m k]. simpl in Hk. subst k.
  assert (zlen (controllers p) ≠ 0) as Hz by (unfold controllers; rewrite length_fmap; destruct (NetworkBase.ext_links p); simpl; [done|lia]).
  rewrite (proj2 (Z.eqb_neq _ _) Hz), (proj2 (Z.eqb_neq (vnets p) 0)) by lia. simpl negb. cbn iota. rewrite Etp. cbn [rbind].
  assert (∀ b, b = true → require b EFatal = Ok tt) as Hreq by (by intros ? ->).
  rewrite !Hreq; cbn [rbind]; [eexists; split; [done|]; simpl; rewrite length_replicate, Nat2Z.id; split_and!; (done || lia)|..].
  all: destruct Hph as [[E1 E2]|[Hc Hb]]; [rewrite ?E1, ?E2; simpl; by rewrite ?andb_false_r|].
  - destruct Hb as [->| ->]; [by rewrite andb_false_r|]. by rewrite Z.eqb_refl.
  - by rewrite (proj2 (Z.ltb_lt _ _)) by lia.
  - by rewrite Hc, Z.eqb_refl, andb_false_r.
Qed.

(** *** The queues of the nodes *)

Section Queues.
Context (rs : R) `{!MachineLaws N rs, !MachineNumbers rs} (cs : list MachineID.t).
Context (Hnodup : NoDup cs) (Hmach : Forall (machine rs) cs).

(** Every controller has its own place among the queues. *)
Record placed_queues n : Prop := {
  pq_nodes : m_nodes n = zlen cs;
  pq_numbers : numbered rs (in_order cs) (globalToLocalMap n, zlen cs);
  pq_to : length (m_toNetQueues n) = length cs;
  pq_from : length (m_fromNetQueues n) = length cs;
  pq_vnets : 0 < number_of_virtual_networks (cfg n) < 2 ^ 31;
  pq_ordered : zlen (m_ordered (cfg n)) = number_of_virtual_networks (cfg n) }.

Definition entry_of (qs : list (list (option nat))) n c (v : Z) : option nat :=
  i ← globalToLocalMap n !! global rs c; l ← qs !! Z.to_nat i; mjoin (l !! Z.to_nat v).

Lemma local_id n c : placed_queues n → c ∈ cs →
  ∃ i, globalToLocalMap n !! global rs c = Some i ∧ 0 ≤ i < zlen cs ∧ in_order cs !! Z.to_nat i = Some c.
Proof.
  intros Hn Hc. destruct (pq_numbers n Hn) as [_ Hm]. apply (in_order_elem rs cs c Hmach) in Hc.
  apply list_elem_of_lookup in Hc as [k Hk]. exists (Z.of_nat k). rewrite Nat2Z.id. split.
  - apply Hm. rewrite Nat2Z.id. split; [lia|]. by exists c.
  - split; [|done]. apply lookup_lt_Some in Hk. rewrite (in_order_length rs) in Hk by done. lia.
Qed.

Lemma set_queue_ok (qs : list (list (option nat))) i v b l : 0 ≤ i → 0 ≤ v → qs !! Z.to_nat i = Some l →
  ∃ l' qs', set_queue qs i v b = Ok qs' ∧ qs' = <[Z.to_nat i := l']> qs ∧ l' !! Z.to_nat v = Some (Some b) ∧
    ∀ w : nat, w ≠ Z.to_nat v → mjoin (l' !! w) = mjoin (l !! w).
Proof.
  intros Hi Hv Hl. unfold set_queue. assert (vget qs i = Ok l) as -> by by apply vget_Ok. cbn [rbind].
  set (l1 := l ++ replicate (Z.to_nat (v + 1 - zlen l)) None). assert (v < zlen l1) by (unfold l1; rewrite length_app, length_replicate; lia).
  rewrite vset_inbounds by lia. cbn [rbind]. rewrite vset_inbounds by (apply lookup_lt_Some in Hl; lia). eexists _, _. split; [done|]. split; [done|]. split.
  - apply list_lookup_insert_eq. lia.
  - intros w Hw. rewrite list_lookup_insert_ne by done. unfold l1. destruct (decide (w < length l)%nat); [by rewrite lookup_app_l|].
    rewrite lookup_app_r, (lookup_ge_None_2 l) by lia. destruct (replicate _ _ !! _) as [x|] eqn:E; [|done]. by apply lookup_replicate in E as [-> _].
Qed.

Lemma allocation_ok n c i (ordered : bool) v : placed_queues n → c ∈ cs → globalToLocalMap n !! global rs c = Some i → i < zlen cs →
  0 ≤ v < number_of_virtual_networks (cfg n) → ∃ flags, checkNetworkAllocation n i ordered v = Ok flags ∧ length flags = length (m_ordered (cfg n)).
Proof.
  intros [] Hc Ei Hi Hv. unfold checkNetworkAllocation. rewrite pq_nodes0, (proj2 (Z.ltb_lt _ _)) by lia. cbn [require rbind].
  rewrite u32_small, (proj2 (Z.ltb_lt v _)) by lia. cbn [require rbind]. destruct ordered; [|by eexists].
  rewrite vset_inbounds by lia. eexists. split; [done|]. apply length_insert.
Qed.

(** One place changes, all others keep their buffers. *)
Definition entered (qs qs' : list (list (option nat))) n n' c v (b : nat) : Prop :=
  entry_of qs' n' c v = Some b ∧ ∀ c' v', c' ∈ cs → 0 ≤ v' → (c', v') ≠ (c, v) → entry_of qs' n' c' v' = entry_of qs n c' v'.

Lemma entered_ok (qs : list (list (option nat))) n n' c i v b l l' : placed_queues n → c ∈ cs → 0 ≤ v →
  globalToLocalMap n' = globalToLocalMap n → globalToLocalMap n !! global rs c = Some i → 0 ≤ i < zlen qs →
  qs !! Z.to_nat i = Some l → l' !! Z.to_nat v = Some (Some b) → (∀ w : nat, w ≠ Z.to_nat v → mjoin (l' !! w) = mjoin (l !! w)) →
  entered qs (<[Z.to_nat i := l']> qs) n n' c v b.
Proof.
  intros Hn Hc Hv Em Ei Hi Hl Hb Hw. unfold entered, entry_of. rewrite Em. split.
  - rewrite Ei. simpl. rewrite list_lookup_insert_eq by lia. simpl. by rewrite Hb.
  - intros c' v' Hc' Hv' Hne. destruct (local_id n c' Hn Hc') as (i' & Ei' & Hi' & Ec'). rewrite Ei'. simpl.
    destruct (decide (i' = i)) as [->|Hni]; [|by rewrite list_lookup_insert_ne by lia].
    rewrite list_lookup_insert_eq, Hl by lia. simpl. apply Hw.
    destruct (local_id n c Hn Hc) as (j & Ej & _ & Ec). rewrite Ei in Ej. injection Ej as <-. rewrite Ec in Ec'. injection Ec' as <-.
    intros E. apply Hne. f_equal. lia.
Qed.

Lemma set_queues_ok n c v b (ordered : bool) : placed_queues n → c ∈ cs → 0 ≤ v < number_of_virtual_networks (cfg n) →
  (∃ n', setToNetQueue n (global rs c) ordered v b = Ok n' ∧ placed_queues n' ∧ m_fromNetQueues n' = m_fromNetQueues n ∧
     number_of_virtual_networks (cfg n') = number_of_virtual_networks (cfg n) ∧ entered (m_toNetQueues n) (m_toNetQueues n') n n' c v b) ∧
  (∃ n', setFromNetQueue n (global rs c) ordered v b = Ok n' ∧ placed_queues n' ∧ m_toNetQueues n' = m_toNetQueues n ∧
     number_of_virtual_networks (cfg n') = number_of_virtual_networks (cfg n) ∧ entered (m_fromNetQueues n) (m_fromNetQueues n') n n' c v b).
Proof.
  intros Hn Hc Hv. destruct (local_id n c Hn Hc) as (i & Ei & Hi & _). unfold setToNetQueue, setFromNetQueue, getLocalNodeID. rewrite Ei.
  cbn [of_option rbind]. destruct (allocation_ok n c i ordered v Hn Hc Ei ltac:(lia) Hv) as (flags & -> & Hf). cbn [rbind]. pose proof Hn as [].
  split; [destruct (lookup_lt_is_Some_2 (m_toNetQueues n) (Z.to_nat i)) as [l Hl]|destruct (lookup_lt_is_Some_2 (m_fromNetQueues n) (Z.to_nat i)) as [l Hl]]; try lia.
  all: destruct (set_queue_ok _ i v b l ltac:(lia) ltac:(lia) Hl) as (l' & qs' & -> & -> & Hb & Hw); cbn [rbind]; eexists; split; [done|].
  all: split; [split; simpl; rewrite ?length_insert; (done || lia)|]; split; [done|]; split; [done|].
  all: eapply entered_ok; (done || lia).
Qed.

End Queues.

(** A controller enters one of its queues. *)
Definition set_step (rs : R) (cs : list MachineID.t) n n' : Prop :=
  ∃ c v b ordered, c ∈ cs ∧ 0 ≤ v < number_of_virtual_networks (cfg n) ∧
    (setToNetQueue n (global rs c) ordered v b = Ok n' ∨ setFromNetQueue n (global rs c) ordered v b = Ok n').

Lemma set_steps_ok rs `{!MachineLaws N rs, !MachineNumbers rs} cs n n' : NoDup cs → Forall (machine rs) cs → placed_queues rs cs n →
  rtc (set_step rs cs) n n' → placed_queues rs cs n' ∧ number_of_virtual_networks (cfg n') = number_of_virtual_networks (cfg n).
Proof.
  intros Hd Hm Hn. induction 1 as [|n n1 n2 (c & v & b & o & Hc & Hv & Hset) _ IH]; [done|].
  destruct (set_queues_ok rs cs Hd Hm n c v b o Hn Hc Hv) as [(nt & Et & Ht & _ & Evt & _) (nf & Ef & Hf & _ & Evf & _)].
  destruct Hset as [E|E]; rewrite E in *; [injection Et as <-; rewrite <- Evt|injection Ef as <-; rewrite <- Evf]; by apply IH.
Qed.

(** C25. A network numbers its nodes one to one. For parameters that pass its tests,
    the constructor of the simple network succeeds; the controllers of its external
    links, which are different machines, get the local numbers from 0 to the number of
    nodes, each its own, and if the network has all machines of the system, those of
    each type in order, these are their numbers in the system. Then the controllers
    can enter their queues in any order: each goes to the place of its node, its
    direction and its virtual network, and no other place changes. *)
Theorem network_constructed p rnd warm tp `{!MachineLaws N (NetworkBase.ruby_system p), !MachineNumbers (NetworkBase.ruby_system p)}
    (Hp : sound_params p) (Hd : NoDup (controllers p)) (Hm : Forall (machine (NetworkBase.ruby_system p)) (controllers p))
    (Htp : Topology.new (zlen (NetworkBase.routers p)) (vnets p) (NetworkBase.ext_links p) (NetworkBase.int_links p) (NetworkBase.ruby_system p) = Ok tp) :
  let rs := NetworkBase.ruby_system p in let cs := controllers p in
  ∃ n, NetworkBase.new_simple p rnd warm = Ok (n, tp) ∧ m_nodes n = zlen cs ∧
    (∀ c, c ∈ cs → ∃ i, getLocalNodeID n (global rs c) = Ok i ∧ 0 ≤ i < m_nodes n) ∧
    (∀ i, 0 ≤ i < m_nodes n → ∃ c, c ∈ cs ∧ ∀ c', c' ∈ cs → getLocalNodeID n (global rs c') = Ok i ↔ c' = c) ∧
    (all_in_order rs cs → ∀ c, c ∈ cs → getLocalNodeID n (global rs c) = Ok (global rs c)) ∧
    ∀ n1 c v b ordered, rtc (set_step rs cs) n n1 → c ∈ cs → 0 ≤ v < vnets p →
      (∃ n2, setToNetQueue n1 (global rs c) ordered v b = Ok n2 ∧ m_fromNetQueues n2 = m_fromNetQueues n1 ∧
         entered rs cs (m_toNetQueues n1) (m_toNetQueues n2) n1 n2 c v b) ∧
      (∃ n2, setFromNetQueue n1 (global rs c) ordered v b = Ok n2 ∧ m_toNetQueues n2 = m_toNetQueues n1 ∧
         entered rs cs (m_fromNetQueues n1) (m_fromNetQueues n2) n1 n2 c v b).
Proof.
  intros rs cs. assert (numbered rs (in_order cs) (Nodes.number_nodes rs cs)) as Hnum.
  { rewrite (number_nodes_step N rs). apply (number_list_ok N rs); [by apply in_order_NoDup| |].
    - apply Forall_forall. intros c Hc. apply (in_order_elem rs cs c Hm) in Hc. rewrite Forall_forall in Hm. by apply Hm.
    - rewrite (in_order_length rs) by done. unfold cs, controllers. rewrite length_fmap. by destruct Hp as (_ & _ & _ & ? & _). }
  pose proof (in_order_length rs cs Hd Hm) as Hlen. pose proof Hnum as [Hk Hmap]. rewrite Hlen in Hk.
  destruct (new_simple_ok p rnd warm tp Hp Hk Htp) as (n & E & En & Em & Eto & Efrom & Ev & Eo). fold cs in En, Em, Eto, Efrom. fold rs in Em.
  assert (placed_queues rs cs n) as Hn.
  { split; try done; [|by rewrite Eto, length_replicate|by rewrite Efrom, length_replicate|rewrite Ev; apply Hp|by rewrite Ev].
    split; [by rewrite <- Hlen|]. intros g k. simpl. rewrite Em. apply Hmap. }
  exists n. split; [done|]. split; [done|]. rewrite En. unfold getLocalNodeID. split; [|split; [|split]].
  - intros c Hc. destruct (local_id rs cs Hd Hm n c Hn Hc) as (i & Ei & Hi & _). exists i. by rewrite Ei.
  - intros i Hi. destruct (lookup_lt_is_Some_2 (in_order cs) (Z.to_nat i)) as [c Ec]; [rewrite Hlen; lia|]. exists c.
    split; [apply (in_order_elem rs cs c Hm); by eapply list_elem_of_lookup_2|]. intros c' Hc'.
    destruct (local_id rs cs Hd Hm n c' Hn Hc') as (i' & Ei' & Hi' & Ec'). rewrite Ei'. simpl. split; [intros [= ->]; congruence|]. intros ->.
    f_equal. assert (Z.to_nat i' = Z.to_nat i) by (eapply (NoDup_lookup (in_order cs)); [by apply in_order_NoDup|done|done]). lia.
  - intros Ha c Hc. rewrite Forall_forall in Hm. rewrite Em, (proj2 (Hmap (global rs c) (global rs c))); [done|].
    split; [apply (global_range N rs c (Hm c Hc))|]. exists c. split; [|done]. by apply (in_order_global N rs); [|apply Hm].
  - intros n1 c v b o Hs Hc Hv. destruct (set_steps_ok rs cs n n1 Hd Hm Hn Hs) as [Hn1 Ev1].
    destruct (set_queues_ok rs cs Hd Hm n1 c v b o Hn1 Hc) as [(nt & ? & _ & ? & _ & ?) (nf & ? & _ & ? & _ & ?)]; [by rewrite Ev1, Ev|].
    split; [by exists nt|by exists nf].
Qed.

End Constructed.

(** ** Functional accesses *)

Section Access.
Import Message MessageBuffer Functional.
Context {R A P M : Type} `{MachineTypes R}.
Context (functionalRead : A → P → bool * P) (functionalRead_mask : A → P → M → bool * (P * M)).
Context (functionalWrite : A → P → bool * A).
Implicit Types (b : MessageBuffer.t A) (ms : list (Message.t A)) (st : Store.t A) (pkt : P) (bufs : list (option nat)).

Local Abbreviation access_list := (access_list functionalRead functionalRead_mask functionalWrite).
Local Abbreviation access_map := (access_map functionalRead functionalRead_mask functionalWrite).

(** The messages that an access goes through: the queue and those stalled. *)
Definition messages b : list (Message.t A) :=
  m_prio_heap (queue b) ++ concat ((λ a, default [] (m_stall_msg_map (queue b) !! a)) <$> keys (m_stall_msg_map (queue b))).

(** A message after a write, and a buffer with all its messages written. *)
Definition write_one pkt (m : Message.t A) : Message.t A := with_payload m (functionalWrite (payload m) pkt).2.
Definition write_all pkt ms : list (Message.t A) := write_one pkt <$> ms.
Definition written pkt b : MessageBuffer.t A :=
  with_queue b (mkQueue (write_all pkt (m_prio_heap (queue b))) (write_all pkt <$> m_stall_msg_map (queue b))
    (m_deferred_msg_map (queue b)) (m_stall_map_size (queue b))).
Definition hits pkt ms : Z := zlen (filter (λ m, (functionalWrite (payload m) pkt).1 = true) ms).

Lemma hits_app pkt ms ms' : hits pkt (ms ++ ms') = hits pkt ms + hits pkt ms'.
Proof. unfold hits. rewrite filter_app, length_app. lia. Qed.

Lemma hits_cons pkt m ms : hits pkt (m :: ms) = (if (functionalWrite (payload m) pkt).1 then 1 else 0) + hits pkt ms.
Proof. unfold hits. rewrite filter_cons. destruct (functionalWrite (payload m) pkt) as [[] a]; simpl; lia. Qed.

Lemma write_list ms pkt mask n : access_list false ms pkt mask n = inr (write_all pkt ms, pkt, mask, n + hits pkt ms).
Proof.
  revert n. induction ms as [|m ms IH]; intros n; [by rewrite Z.add_0_r|]. rewrite hits_cons.
  change (write_all pkt (m :: ms)) with (write_one pkt m :: write_all pkt ms). simpl. unfold write_one.
  destruct (functionalWrite (payload m) pkt) as [[] a]; simpl; rewrite IH; do 2 f_equal; lia.
Qed.

Lemma write_map addrs (s : gmap Z (list (Message.t A))) pkt mask n : NoDup addrs → (∀ a, a ∈ addrs → is_Some (s !! a)) →
  ∃ s', access_map false addrs s pkt mask n = inr (s', pkt, mask, n + hits pkt (concat ((λ a, default [] (s !! a)) <$> addrs))) ∧
    ∀ a, s' !! a = if decide (a ∈ addrs) then write_all pkt <$> s !! a else s !! a.
Proof.
  revert s n. induction addrs as [|a addrs IH]; intros s n Hd Hs; simpl.
  { exists s. split; [by rewrite Z.add_0_r|done]. }
  apply NoDup_cons in Hd as [Ha Hd]. rewrite write_list. destruct (Hs a) as [l Hl]; [left|].
  destruct (IH (<[a := write_all pkt (default [] (s !! a))]> s) (n + hits pkt (default [] (s !! a))) Hd) as (s' & E & Hs').
  { intros a' Ha'. rewrite lookup_insert_ne by (by intros ->). apply Hs. by right. }
  exists s'. rewrite E. split.
  - rewrite hits_app, Z.add_assoc. do 5 f_equal. apply list_fmap_ext. intros i a' Ha'%list_elem_of_lookup_2. by rewrite lookup_insert_ne by (by intros ->).
  - intros a'. rewrite Hs'. destruct (decide (a' = a)) as [->|Hne].
    + rewrite decide_False, decide_True, lookup_insert_eq, Hl by (done || left). done.
    + rewrite lookup_insert_ne by done. by rewrite (decide_ext (a' ∈ a :: addrs) (a' ∈ addrs)) by set_solver.
Qed.

Lemma write_buffer b pkt : functionalWrite_buffer functionalRead functionalRead_mask functionalWrite b pkt = (hits pkt (messages b), written pkt b).
Proof.
  unfold functionalWrite_buffer, functionalAccess. rewrite write_list.
  destruct (write_map (keys (m_stall_msg_map (queue b))) (m_stall_msg_map (queue b)) pkt None (0 + hits pkt (m_prio_heap (queue b)))) as (s' & -> & Hs').
  { rewrite keys_Permutation. apply NoDup_fst_map_to_list. }
  { intros a. by rewrite elem_of_keys. }
  unfold messages, written. rewrite hits_app. f_equal. do 2 f_equal. apply map_eq. intros a. rewrite Hs', lookup_fmap.
  case_decide as Hd; [done|]. rewrite elem_of_keys in Hd. apply eq_None_not_Some in Hd. by rewrite Hd.
Qed.

(** *** Writes *)

Definition present st (p : option nat) : Prop := ∃ a b, p = Some a ∧ Store.buffers st !! a = Some b.
Definition messages_at st (p : option nat) : list (Message.t A) :=
  from_option messages [] (a ← p; Store.buffers st !! a).

(** The store with the messages of some buffers written. *)
Definition store_written st bufs pkt : Store.t A :=
  Store.mk (map_imap (λ a b, Some (if decide (Some a ∈ bufs) then written pkt b else b)) (Store.buffers st))
    (Store.consumer_of st) (Store.consumers st) (Store.pending st) (Store.rng st).

Lemma store_ext st st' : Store.buffers st = Store.buffers st' → Store.consumer_of st = Store.consumer_of st' →
  Store.consumers st = Store.consumers st' → Store.pending st = Store.pending st' → Store.rng st = Store.rng st' → st = st'.
Proof. destruct st, st'. simpl. by intros -> -> -> -> ->. Qed.

Lemma written_nil st pkt : store_written st [] pkt = st.
Proof.
  apply store_ext; try done. simpl. apply map_eq. intros a. rewrite map_lookup_imap. by destruct (Store.buffers st !! a).
Qed.

Lemma written_app st bufs bufs' pkt : (∀ p, p ∈ bufs → p ∉ bufs') →
  store_written (store_written st bufs pkt) bufs' pkt = store_written st (bufs ++ bufs') pkt.
Proof.
  intros Hd. apply store_ext; try done. simpl. apply map_eq. intros a. rewrite !map_lookup_imap.
  destruct (Store.buffers st !! a) as [b|]; simpl; [|done]. specialize (Hd (Some a)).
  destruct (decide (Some a ∈ bufs)), (decide (Some a ∈ bufs')), (decide (Some a ∈ bufs ++ bufs')) as [?|?]; set_solver.
Qed.

Lemma put_written st a b pkt : Store.buffers st !! a = Some b → Store.put st a (written pkt b) = store_written st [Some a] pkt.
Proof.
  intros Hb. apply store_ext; try done. simpl. apply map_eq. intros a'. rewrite map_lookup_imap.
  destruct (decide (a' = a)) as [->|Hne].
  - rewrite lookup_insert_eq, Hb. simpl. by rewrite decide_True by left.
  - rewrite lookup_insert_ne by done. destruct (Store.buffers st !! a'); simpl; [|done]. by rewrite decide_False by set_solver.
Qed.

Lemma messages_written st bufs pkt p : p ∉ bufs → messages_at (store_written st bufs pkt) p = messages_at st p.
Proof.
  intros Hp. unfold messages_at. destruct p as [a|]; [|done]. simpl. rewrite map_lookup_imap. destruct (Store.buffers st !! a); simpl; [|done].
  by rewrite decide_False.
Qed.

Lemma present_written st bufs pkt p : present st p → present (store_written st bufs pkt) p.
Proof. intros (a & b & -> & Hb). eexists a, _. split; [done|]. simpl. by rewrite map_lookup_imap, Hb. Qed.

(** The number of messages written in some buffers. *)
Definition total_hits st bufs pkt : Z := hits pkt (concat (messages_at st <$> bufs)).

Lemma total_hits_app st bufs bufs' pkt : (∀ p, p ∈ bufs → p ∉ bufs') →
  total_hits st (bufs ++ bufs') pkt = total_hits st bufs pkt + total_hits (store_written st bufs pkt) bufs' pkt.
Proof.
  intros Hd. unfold total_hits. rewrite fmap_app, concat_app, hits_app. do 3 f_equal. apply list_fmap_ext.
  intros i p Hp%list_elem_of_lookup_2. symmetry. apply messages_written. intros Hp'. by apply (Hd p).
Qed.

Lemma write_buffers_ok st bufs pkt k : Forall (present st) bufs → NoDup bufs → 0 ≤ k < 2 ^ 32 →
  write_buffers functionalRead functionalRead_mask functionalWrite st bufs pkt k = Ok (u32 (k + total_hits st bufs pkt), store_written st bufs pkt).
Proof.
  revert st k. induction bufs as [|p bufs IH]; intros st k Hp Hd Hk.
  { simpl. unfold total_hits, hits. simpl. by rewrite Z.add_0_r, u32_small, written_nil. }
  apply Forall_cons in Hp as [(a & b & -> & Hb) Hp]. apply NoDup_cons in Hd as [Ha Hd]. simpl write_buffers. unfold Store.deref.
  cbn [of_option rbind]. rewrite Hb. cbn [of_option rbind]. rewrite write_buffer, (put_written st a b pkt Hb), IH; [|eapply Forall_impl; [exact Hp|]; intros; by apply present_written|done|apply u32_bound].
  assert (∀ p, p ∈ [Some a] → p ∉ bufs) as Hdis by set_solver. rewrite written_app by done.
  rewrite (total_hits_app st [Some a] bufs pkt Hdis : total_hits st (Some a :: bufs) pkt = _).
  assert (total_hits st [Some a] pkt = hits pkt (messages b)) as -> by (unfold total_hits, messages_at; simpl; by rewrite Hb, app_nil_r).
  do 2 f_equal. rewrite Z.add_assoc. unfold u32. by rewrite Zplus_mod_idemp_l.
Qed.

Abbreviation ports switches := (concat (Switch.m_port_buffers <$> switches)).

Lemma write_switches_ok (switches : list (Switch.t R)) st pkt k : Forall (present st) (ports switches) → NoDup (ports switches) → 0 ≤ k < 2 ^ 32 →
  write_switches functionalRead functionalRead_mask functionalWrite st switches pkt k =
  Ok (u32 (k + total_hits st (ports switches) pkt), store_written st (ports switches) pkt).
Proof.
  revert st k. induction switches as [|s switches IH]; intros st k Hp Hd Hk.
  { simpl. unfold total_hits, hits. simpl. by rewrite Z.add_0_r, u32_small, written_nil. }
  rewrite fmap_cons in *. simpl concat in *. apply Forall_app in Hp as [Hp Hp']. apply NoDup_app in Hd as (Hd & Hdis & Hd'). simpl write_switches.
  unfold Switch_functionalWrite. rewrite write_buffers_ok by (done || lia). cbn [rbind].
  rewrite IH; [|eapply Forall_impl; [exact Hp'|]; intros; by apply present_written|done|apply u32_bound].
  rewrite written_app, total_hits_app by done. do 2 f_equal.
  unfold u32. rewrite Z.add_0_l, Zplus_mod_idemp_r, Zplus_mod_idemp_l, Z.add_assoc. done.
Qed.

(** *** Reads *)

Context (Hmiss : ∀ a pkt, (functionalRead a pkt).1 = false → (functionalRead a pkt).2 = pkt).

(** The result of a read of the messages [ms]. *)
Definition read_result (ms : Message.t A → Prop) pkt (hit : bool) pkt' : Prop :=
  if hit then ∃ m, ms m ∧ functionalRead (payload m) pkt = (true, pkt')
  else pkt' = pkt ∧ ∀ m, ms m → (functionalRead (payload m) pkt).1 = false.

#[local] Arguments read_result : simpl never.

Lemma read_result_or (P1 P2 Q : Message.t A → Prop) pkt hit pkt' : (∀ m, Q m ↔ P1 m ∨ P2 m) → read_result P1 pkt false pkt →
  read_result P2 pkt hit pkt' → read_result Q pkt hit pkt'.
Proof.
  intros Hq [_ Hp]. destruct hit; unfold read_result.
  - intros (m & Hm & E). exists m. split; [|done]. apply Hq. by right.
  - intros [-> Hp']. split; [done|]. intros m [?|?]%Hq; auto.
Qed.

Lemma read_list ms pkt n :
  (∃ pkt', access_list true ms pkt None n = inl pkt' ∧ read_result (.∈ ms) pkt true pkt') ∨
  (access_list true ms pkt None n = inr (ms, pkt, None, n) ∧ read_result (.∈ ms) pkt false pkt).
Proof.
  induction ms as [|m ms IH]; [right; split; [done|]; split; [done|]; by intros m ?%not_elem_of_nil|]. simpl.
  pose proof (Hmiss (payload m) pkt) as Hm. destruct (functionalRead (payload m) pkt) as [[] pkt1] eqn:E; simpl.
  - left. exists pkt1. split; [done|]. exists m. by split; [left|].
  - specialize (Hm eq_refl). simpl in Hm. subst pkt1. destruct IH as [(pkt' & -> & Hr)|[-> Hr]]; [left; exists pkt'; split; [done|]|right; split; [done|]].
    all: eapply (read_result_or (.= m)); [intros x; apply elem_of_cons|split; [done|]; intros x ->; by rewrite E|done].
Qed.

Lemma read_map addrs (s : gmap Z (list (Message.t A))) pkt n : NoDup addrs →
  (∃ pkt', access_map true addrs s pkt None n = inl pkt' ∧ read_result (.∈ concat ((λ a, default [] (s !! a)) <$> addrs)) pkt true pkt') ∨
  (∃ s', access_map true addrs s pkt None n = inr (s', pkt, None, n) ∧ read_result (.∈ concat ((λ a, default [] (s !! a)) <$> addrs)) pkt false pkt).
Proof.
  revert s. induction addrs as [|a addrs IH]; intros s Hd; [right; exists s; split; [done|]; split; [done|]; by intros m ?%not_elem_of_nil|].
  apply NoDup_cons in Hd as [Ha Hd]. simpl. destruct (read_list (default [] (s !! a)) pkt n) as [(pkt' & -> & m & Hm & E)|[-> Hr]].
  { left. exists pkt'. split; [done|]. exists m. split; [apply elem_of_app; by left|done]. }
  assert ((λ a0, default [] (<[a := default [] (s !! a)]> s !! a0)) <$> addrs = (λ a0, default [] (s !! a0)) <$> addrs) as Eq.
  { apply list_fmap_ext. intros i a' Ha'%list_elem_of_lookup_2. by rewrite lookup_insert_ne by (by intros ->). }
  destruct (IH (<[a := default [] (s !! a)]> s) Hd) as [(pkt' & -> & Hr')|(s' & -> & Hr')]; rewrite Eq in Hr';
    [left; exists pkt'; split; [done|]|right; exists s'; split; [done|]].
  all: eapply (read_result_or (.∈ default [] (s !! a))); [intros x; apply elem_of_app|done|done].
Qed.

Lemma read_buffer b pkt : ∃ hit pkt', functionalRead_buffer functionalRead functionalRead_mask functionalWrite b pkt None = (hit, pkt', None) ∧
  read_result (.∈ messages b) pkt hit pkt'.
Proof.
  unfold functionalRead_buffer, functionalAccess, messages. destruct (read_list (m_prio_heap (queue b)) pkt 0) as [(pkt' & -> & m & Hm & E)|[-> Hr]].
  { exists true, pkt'. split; [done|]. exists m. split; [apply elem_of_app; by left|done]. }
  destruct (read_map (keys (m_stall_msg_map (queue b))) (m_stall_msg_map (queue b)) pkt 0) as [(pkt' & -> & Hr')|(s' & -> & Hr')];
    [rewrite keys_Permutation; apply NoDup_fst_map_to_list|exists true, pkt'|exists false, pkt]; (split; [done|]).
  all: eapply (read_result_or (.∈ m_prio_heap (queue b))); [intros x; apply elem_of_app|done|done].
Qed.

Lemma read_buffers_ok st bufs pkt : Forall (present st) bufs →
  ∃ hit pkt', read_buffers functionalRead functionalRead_mask functionalWrite st bufs pkt = Ok (hit, pkt') ∧
    read_result (.∈ concat (messages_at st <$> bufs)) pkt hit pkt'.
Proof.
  induction 1 as [|p bufs (a & b & -> & Hb) _ IH]; [exists false, pkt; split; [done|]; split; [done|]; by intros m ?%not_elem_of_nil|].
  simpl. assert (messages_at st (Some a) = messages b) as -> by (unfold messages_at; simpl; by rewrite Hb).
  unfold Store.deref. cbn [of_option rbind]. rewrite Hb. cbn [of_option rbind].
  destruct (read_buffer b pkt) as (hit & pkt1 & -> & Hr). destruct hit.
  - exists true, pkt1. split; [done|]. destruct Hr as (m & Hm & E). exists m. split; [apply elem_of_app; by left|done].
  - pose proof Hr as [-> _]. destruct IH as (hit & pkt' & E & Hr'). exists hit, pkt'. split; [done|].
    eapply (read_result_or (.∈ messages b)); [intros x; apply elem_of_app|done|done].
Qed.

Lemma read_switches_ok (switches : list (Switch.t R)) st pkt : Forall (present st) (ports switches) →
  ∃ hit pkt', read_switches functionalRead functionalRead_mask functionalWrite st switches pkt = Ok (hit, pkt') ∧
    read_result (.∈ concat (messages_at st <$> ports switches)) pkt hit pkt'.
Proof.
  induction switches as [|s switches IH]; intros Hp; [exists false, pkt; split; [done|]; split; [done|]; by intros m ?%not_elem_of_nil|].
  rewrite fmap_cons in *. simpl concat in *. apply Forall_app in Hp as [Hp Hp']. simpl read_switches. unfold Switch_functionalRead.
  rewrite fmap_app, concat_app. destruct (read_buffers_ok st (Switch.m_port_buffers s) pkt Hp) as (hit & pkt1 & -> & Hr). cbn [rbind]. destruct hit.
  - exists true, pkt1. split; [done|]. destruct Hr as (m & Hm & E). exists m. split; [apply elem_of_app; by left|done].
  - pose proof Hr as [-> _]. destruct (IH Hp') as (hit & pkt' & E & Hr'). exists hit, pkt'. split; [done|].
    eapply read_result_or; [intros x; apply elem_of_app|exact Hr|done].
Qed.


End Access.

(** ** Two switches *)

Section Small.
Import Topology NetworkBase.
#[local] Existing Instances two_types two_types_laws two_types_numbers.

Definition small_switch (id : Z) (k : nat) (port_buffers : list (option nat)) : Switch.t unit :=
  Switch.mk (PerfectSwitch.new id k 1) [] 1 1 (WeightBased.mk [] false (λ _, 0)) 0 port_buffers (Clocked.new 500).

(** The link of the second machine comes first. *)
Definition small_params : NetworkBase.Params unit :=
  mkParams 1 8 64 64 () [mkExt (mkLink 1 1 1 []) 1 0 1; mkExt (mkLink 0 1 1 []) 0 0 0]
    [mkInt (mkLink 2 1 1 []) 0 1 "E" "W"; mkInt (mkLink 3 1 1 [0]) 1 0 "W" "E"]
    [(0, small_switch 0 10 [Some 4%nat]); (1, small_switch 1 11 [Some 6%nat])] 1000 [] [] ∅.

Lemma network_constructed_witness : ∃ n tp n2,
  new_simple small_params false false = Ok (n, tp) ∧ SimpleNetwork.m_nodes n = 2 ∧
  SimpleNetwork.getLocalNodeID n 1 = Ok 1 ∧ SimpleNetwork.setToNetQueue n 1 true 0 5 = Ok n2 ∧
  entry_of () (SimpleNetwork.m_toNetQueues n2) n2 (MachineID.mk 1 0) 0 = Some 5%nat.
Proof.
  assert (∃ tp, Topology.new 2 1 (ext_links small_params) (int_links small_params) () = Ok tp) as [tp Htp] by (eexists; vm_compute; reflexivity).
  destruct (network_constructed 64 small_params false false tp) as (n & E & En & _ & _ & Hall & Hq).
  - split; [simpl; lia|]. split; [simpl; lia|]. split; [done|]. split; [simpl; lia|by left].
  - repeat (constructor; [set_solver|]). constructor.
  - repeat (constructor; [by split; simpl; lia|]). constructor.
  - exact Htp.
  - destruct (Hq n (MachineID.mk 1 0) 0 5%nat true (rtc_refl _ _)) as [(n2 & E2 & _ & He & _) _]; [left|simpl; lia|].
    exists n, tp, n2. do 2 (split; [done|]). split; [|by split].
    apply (Hall ltac:(intros ty Hty; assert (ty = 0 ∨ ty = 1) as [->| ->] by (simpl in Hty; lia); reflexivity) (MachineID.mk 1 0)). left.
Defined.

(** Reads of numbers, and writes that add 1 to the number. *)
Definition number_read (a : Tiny.payload) (pkt : nat) : bool * nat := if decide (a.2 = pkt) then (true, (pkt + 100)%nat) else (false, pkt).
Definition number_write (a : Tiny.payload) (pkt : nat) : bool * Tiny.payload :=
  if decide (a.2 = pkt) then (true, (a.1, S a.2)) else (false, a).


(** A message whose enqueueing was deferred is in the buffer, but a functional
    access does not see it. *)
Lemma deferred_not_accessed :
  let b := MessageBuffer.with_queue (Tiny.holding []) (MessageBuffer.mkQueue [] ∅ {[64 := [Tiny.both 7]]} 0) in
  let mask := λ (a : Tiny.payload) (pkt : nat) (_ : unit), (false, (pkt, ())) in
  MessageBuffer.functionalRead_buffer number_read mask number_write b 7%nat None = (false, 7%nat, None) ∧
  MessageBuffer.functionalWrite_buffer number_read mask number_write b 7%nat = (0, b).
Proof. by vm_compute. Qed.

End Small.

(** ** Numbers that differ *)

Section Swapped.
#[local] Existing Instances three_types.

(** A network has all machines of its system, but the two of the first type come in
    the other order: their local numbers are not those of the system. *)
Lemma local_numbers_swapped :
  let m := (Nodes.number_nodes [2; 1; 1] [MachineID.mk 0 1; MachineID.mk 0 0; MachineID.mk 1 0; MachineID.mk 2 0]).1 in
  m !! 0 = Some 1 ∧ m !! 1 = Some 0 ∧ m !! 2 = Some 2 ∧ m !! 3 = Some 3.
Proof. by vm_compute. Qed.

End Swapped.
