(* ===== verification/Controller.v ===== *)
(** mem/ruby/slicc_interface/AbstractController: what all coherence controllers
    share. Here: the buffers that wait for an address, blocked addresses, and the
    machines an address belongs to. *)

From stdpp Require Import prelude list gmap.
From Stdlib Require Import ZArith Lia.
From S2P Require Import Prelude Bits AddrRange RangeMap NetDest Heap Clocking MessageBuffer Routing.

Open Scope Z_scope.

(** ** Stalled messages and blocked addresses *)

Module Stalls.
Section Stalls.
Context {A : Type} `{HeapOps (Message.t A)}.

(** [self] is the controller as a consumer. *)
Record t := mk {
  self : nat; m_in_ports : Z; m_cur_in_port : Z; m_waiting_buffers : gmap Z (list (option nat));
  m_is_blocking : bool; m_block_map : gmap Z (option nat) }.
Implicit Types (c : t) (st : Store.t A) (now addr : Z) (buf : option nat).

Definition with_waiting c (w : gmap Z (list (option nat))) : t :=
  mk (self c) (m_in_ports c) (m_cur_in_port c) w (m_is_blocking c) (m_block_map c).

Definition stallBuffer c buf addr : res t :=
  let msgVec := match m_waiting_buffers c !! addr with
                | None => replicate (Z.to_nat (m_in_ports c)) None
                | Some msgVec => msgVec
                end in
  assert! m_cur_in_port c <? m_in_ports c in
  let* msgVec := vset msgVec (m_cur_in_port c) buf in
  Ok (with_waiting c (<[addr := msgVec]> (m_waiting_buffers c))).

(** [buf->reanalyzeMessages(addr, clockEdge())]. *)
Definition reanalyze now c st buf addr : res (Store.t A) :=
  let* (edge, st) := Store.clockEdge now st (self c) in Store.reanalyzeMessages now st buf addr edge.

(** The loop of [wakeUpBuffer] over the ports, with [has_other_msgs]. *)
Definition wake_port now c addr buf (port : Z) (s : bool * list (option nat) * Store.t A)
    : res (bool * list (option nat) * Store.t A) :=
  let '(has_other_msgs, msgVec, st) := s in
  let* p := vget msgVec port in
  if bool_decide (p = buf) then
    let* st := reanalyze now c st buf addr in
    let* msgVec := vset msgVec port None in Ok (has_other_msgs, msgVec, st)
  else Ok (has_other_msgs || bool_decide (is_Some p), msgVec, st).

Definition wakeUpBuffer now c st buf addr : res (t * Store.t A) :=
  match m_waiting_buffers c !! addr with
  | None => Ok (c, st)
  | Some msgVec =>
      let* (has_other_msgs, msgVec, st) :=
        loop_from (length msgVec) 0 (wake_port now c addr buf) (false, msgVec, st) in
      Ok (with_waiting c (if has_other_msgs : bool then <[addr := msgVec]> (m_waiting_buffers c)
                          else delete addr (m_waiting_buffers c)), st)
  end.

(** The loop over the ports of some ranks. *)
Fixpoint wake_ranks now c st (msgVec : list (option nat)) addr (ranks : list Z) : res (Store.t A) :=
  match ranks with
  | [] => Ok st
  | in_port_rank :: ranks =>
      let* p := vget msgVec in_port_rank in
      let* st := (match p with None => Ok st | Some _ => reanalyze now c st p addr end) in
      wake_ranks now c st msgVec addr ranks
  end.

(** The ranks from [n] minus 1, which is converted to [int], down to 0. *)
Definition ranks_below (n : Z) : list Z := reverse (seqZ 0 (i32 (u32 (n - 1)) + 1)).

Definition wakeUpBuffers now c st addr : res (t * Store.t A) :=
  match m_waiting_buffers c !! addr with
  | None => Ok (c, st)
  | Some msgVec =>
      let* st := wake_ranks now c st msgVec addr (ranks_below (m_cur_in_port c)) in
      Ok (with_waiting c (delete addr (m_waiting_buffers c)), st)
  end.

Definition wakeUpAllBuffers_addr now c st addr : res (t * Store.t A) :=
  match m_waiting_buffers c !! addr with
  | None => Ok (c, st)
  | Some msgVec =>
      let* st := wake_ranks now c st msgVec addr (ranks_below (m_in_ports c)) in
      Ok (with_waiting c (delete addr (m_waiting_buffers c)), st)
  end.

(** The loop over the buffers of all addresses; [woken] are the buffers that were
    reanalyzed already. *)
Fixpoint wake_each now c st (bufs : list (option nat)) (woken : list nat) : res (list nat * Store.t A) :=
  match bufs with
  | [] => Ok (woken, st)
  | None :: bufs => wake_each now c st bufs woken
  | Some a :: bufs =>
      if bool_decide (a ∈ woken) then wake_each now c st bufs woken
      else let* (edge, st) := Store.clockEdge now st (self c) in
           let* st := Store.reanalyzeAllMessages now st (Some a) edge in
           wake_each now c st bufs (a :: woken)
  end.

Definition waiting_lists c : list (option nat) :=
  concat ((λ addr, default [] (m_waiting_buffers c !! addr)) <$> keys (m_waiting_buffers c)).

Definition wakeUpAllBuffers now c st : res (t * Store.t A) :=
  let* (_, st) := wake_each now c st (waiting_lists c) [] in Ok (with_waiting c ∅, st).

(** The statement [stall_and_wait] of SLICC. *)
Definition stall_and_wait now c st (in_port : nat) addr : res (t * Store.t A) :=
  let* c := stallBuffer c (Some in_port) addr in
  let* (edge, st) := Store.clockEdge now st (self c) in
  let* st := Store.stallMessage now st (Some in_port) addr edge in Ok (c, st).

Definition with_blocks c (b : bool) (m : gmap Z (option nat)) : t :=
  mk (self c) (m_in_ports c) (m_cur_in_port c) (m_waiting_buffers c) b m.

Definition blockOnQueue c addr (port : option nat) : t := with_blocks c true (<[addr := port]> (m_block_map c)).
Definition isBlocked_const c addr : bool := m_is_blocking c && bool_decide (is_Some (m_block_map c !! addr)).
Definition isBlocked c addr : bool := bool_decide (is_Some (m_block_map c !! addr)).
Definition unblock c addr : t :=
  let m := delete addr (m_block_map c) in
  with_blocks c (if bool_decide (m = ∅) then false else m_is_blocking c) m.

End Stalls.
End Stalls.

(** ** Machines of an address *)

Module Downstream.
Import MachineID.
Section Downstream.
Context (NUMBER_BITS_PER_SET : Z) {R : Type} `{MachineTypes R} (r : R).

Abbreviation addr_map := (AddrRangeMap.t MachineID.t).

Record t := mk {
  downstreamAddrMap : gmap Z addr_map; downstreamDestinations : NetDest.t R; upstreamDestinations : NetDest.t R }.
Implicit Types (maps : gmap Z addr_map) (s : t) (mid : MachineID.t) (addr mtype : Z).

Definition cache_size : Z := 3.

(** The loop of [init] over the ranges of a machine. *)
Definition add_range mid (range : AddrRange.t) maps : res (gmap Z addr_map) :=
  let* maps := (match maps !! type mid with
                | None => Ok maps
                | Some m =>
                    let* (i, m) := AddrRangeMap.intersects cache_size m range in
                    let* _ := require (bool_decide (i = None)) EFatal in Ok (<[type mid := m]> maps)
                end) in
  let m := default AddrRangeMap.new (maps !! type mid) in
  let* (_, m) := AddrRangeMap.insert cache_size m range mid in
  Ok (<[type mid := m]> maps).

(** The loop over the downstream controllers, each with its ranges. *)
Definition add_downstream (cntrl : MachineID.t * list AddrRange.t) (d : gmap Z addr_map * NetDest.t R)
    : res (gmap Z addr_map * NetDest.t R) :=
  let* maps := fold_res (add_range cntrl.1) cntrl.2 d.1 in
  let* dest := NetDest.add NUMBER_BITS_PER_SET d.2 cntrl.1 in Ok (maps, dest).

Definition init (downstream : list (MachineID.t * list AddrRange.t)) (upstream : list MachineID.t) : res t :=
  let* _ := NetDest.setRubySystem NUMBER_BITS_PER_SET r in
  let* _ := NetDest.setRubySystem NUMBER_BITS_PER_SET r in
  let* down := NetDest.resize NUMBER_BITS_PER_SET r in
  let* (maps, down) := fold_res add_downstream downstream (∅, down) in
  let* up := NetDest.resize NUMBER_BITS_PER_SET r in
  let* up := fold_res (λ mid up, NetDest.add NUMBER_BITS_PER_SET up mid) upstream up in
  Ok (mk maps down up).

Definition with_maps s maps : t := mk maps (downstreamDestinations s) (upstreamDestinations s).

(** The machine of one type; the search moves entries in the cache of the map. *)
Definition search_type s addr mtype : res (option MachineID.t * t) :=
  match downstreamAddrMap s !! mtype with
  | None => Ok (None, s)
  | Some m =>
      let* (mapping, m) := AddrRangeMap.contains cache_size m addr in
      let s := with_maps s (<[mtype := m]> (downstreamAddrMap s)) in
      match mapping with
      | None => Ok (None, s)
      | Some _ => let* e := AddrRangeMap.deref m mapping in Ok (Some e.2, s)
      end
  end.

Fixpoint search_types s addr (mtypes : list Z) : res (option MachineID.t * t) :=
  match mtypes with
  | [] => Ok (None, s)
  | mtype :: mtypes =>
      let* (found, s) := search_type s addr mtype in
      match found with Some _ => Ok (found, s) | None => search_types s addr mtypes end
  end.

(** [order] is the order in which the hash table is gone through. *)
Definition mapAddressToDownstreamMachine (order : list Z) s addr mtype : res (MachineID.t * t) :=
  let* (found, s) := (if mtype =? MachineType_NUM then search_types s addr order
                      else search_type s addr mtype) in
  let* mid := of_option EFatal found in Ok (mid, s).

Definition allDownstreamDest s : NetDest.t R := downstreamDestinations s.
Definition allUpstreamDest s : NetDest.t R := upstreamDestinations s.

(** [respondsTo], of a controller with some ranges. *)
Fixpoint respondsTo (addrRanges : list AddrRange.t) addr : res bool :=
  match addrRanges with
  | [] => Ok false
  | range :: addrRanges =>
      let* b := AddrRange.contains range addr in
      if b : bool then Ok true else respondsTo addrRanges addr
  end.

(** [broadcast]: all machines of a type. *)
Definition broadcast (mtype : Z) : res (NetDest.t R) :=
  let* dest := NetDest.new NUMBER_BITS_PER_SET r in
  loop_from (Z.to_nat (MachineType_base_count r mtype)) 0
    (λ i dest, NetDest.add NUMBER_BITS_PER_SET dest (MachineID.mk mtype i)) dest.

Definition machineCount (machType : Z) : Z := i32 (MachineType_base_count r machType).

(** *** Network::addressToNodeID

    The machines of a network that have address ranges. The order in which the hash
    table gives those of one type is the order of [addrMap]. *)
Record AddrMapNode := mkNode { id : Z; ranges : list AddrRange.t }.

(** The loop of the constructor of [Network] over the controllers of its links. *)
Definition addr_map_nodes (cntrls : list (MachineID.t * list AddrRange.t)) : list (Z * AddrMapNode) :=
  omap (λ c, if bool_decide (c.2 = []) then None else Some (type c.1, mkNode (num c.1) c.2)) cntrls.

Fixpoint addressToNodeID (addrMap : list (Z * AddrMapNode)) addr mtype : res Z :=
  match addrMap with
  | [] => Ok (MachineType_base_count r mtype)
  | (ty, node) :: addrMap =>
      if ty =? mtype then
        let* b := respondsTo (ranges node) addr in
        if b : bool then Ok (id node) else addressToNodeID addrMap addr mtype
      else addressToNodeID addrMap addr mtype
  end.

Definition mapAddressToMachine (addrMap : list (Z * AddrMapNode)) addr mtype : res MachineID.t :=
  let* node := addressToNodeID addrMap addr mtype in Ok (MachineID.mk mtype node).

End Downstream.
Arguments t R : clear implicits.
End Downstream.
