(* ===== verification/StallSpec.v ===== *)
(** The messages a controller stalls are not forgotten: the list of buffers that
    wait for an address is exactly where messages are stalled for it, and a wake-up
    puts them all back. *)

From stdpp Require Import prelude list gmap sorting.
From Stdlib Require Import ZArith Lia.
From S2P Require Import Prelude Heap Clocking MessageBuffer MessageBufferSpec Routing NetExample StoreSpec Controller.

Open Scope Z_scope.

Abbreviation stall_map b := (MessageBuffer.m_stall_msg_map (MessageBuffer.queue b)).

(** ** One buffer *)

Section Buffer.
Import Message MessageBuffer.
Context {A : Type} `{HeapLaws (Message.t A)}.
Implicit Types (b : MessageBuffer.t A) (m : Message.t A) (now addr n : Z) (k : Consumer.t).

(** A buffer of an input port, with at most [n] messages: what is stalled was due. *)
Record port_ok n now b : Prop := {
  po_inv : buffer_inv n now b;
  po_consumer : m_consumer (wires b) = true;
  po_due addr lt : stall_map b !! addr = Some lt → lt ≠ [] ∧ Forall (λ m, m_LastEnqueueTime m ≤ now) lt }.

(** What an operation on the stalled messages keeps. *)
Definition same_messages b b' : Prop :=
  contents b' ≡ₚ contents b ∧ wires b' = wires b ∧ cfg b' = cfg b.

Lemma same_messages_refl b : same_messages b b.
Proof. done. Qed.
Lemma same_messages_trans b b1 b2 : same_messages b b1 → same_messages b1 b2 → same_messages b b2.
Proof. intros (E1 & ? & ?) (E2 & ? & ?). split_and!; [by rewrite E2|congruence..]. Qed.

Lemma stall_runs n now k b addr : port_ok n now b → can_dequeue now b →
  ∃ m b', stallMessage now k b addr now = Ok (b', k) ∧ port_ok n now b' ∧ same_messages b b' ∧
    stall_map b' = <[addr := default [] (stall_map b !! addr) ++ [m]]> (stall_map b).
Proof.
  intros Hb Hcan. pose proof Hcan as ((m & h & Eh & Hm) & Hpop & _).
  destruct (stallMessage now k b addr now) as [[b' k']|e] eqn:E; cycle 1.
  { exfalso. unfold stallMessage, dequeue in E. rewrite !isReady_ready in E by done. cbn [require rbind] in E.
    rewrite isReady_ready in E by done. cbn [require rbind] in E. unfold front in E.
    rewrite Eh in E. cbn [head of_option rbind] in E. unfold updateDelayedTicks in E. by rewrite (proj2 (Z.leb_le _ now)) in E. }
  destruct (stall_inv n now k b addr now now b' k' (po_inv _ _ _ Hb) ltac:(lia) E) as [Hi Hc].
  unfold stallMessage, dequeue in E. rewrite !isReady_ready in E by done. cbn [require rbind] in E.
  rewrite isReady_ready in E by done. cbn [require rbind] in E. unfold front in E. rewrite Eh in E. cbn [head of_option rbind] in E.
  unfold updateDelayedTicks in E. rewrite (proj2 (Z.leb_le _ now)) in E by done. cbn [require rbind] in E. injection E as <- <-.
  set (m' := Message.mk _ _ _ _ _ _ _) in *. exists m'. eexists. split; [done|]. split; [|split; [|by unfold count_pop; case_match]].
  - split; [done|by unfold count_pop; case_match; apply Hb|]. intros addr' lt. simpl.
    replace (stall_map (count_pop b now)) with (stall_map b) by (unfold count_pop; by case_match).
    intros [[<- <-]|[_ Hl]]%lookup_insert_Some; [|by eapply (po_due _ _ _ Hb)].
    split; [by destruct (default [] _)|]. apply Forall_app. split; [|by repeat constructor].
    destruct (stall_map b !! addr) eqn:El; simpl; [|constructor]. by apply (po_due _ _ _ Hb) in El as [_ ?].
  - split; [done|]. unfold count_pop. by case_match.
Qed.

(** A consumer that is asked for a wake-up now. *)
Definition roused now k k' : Prop := asked_more now k k' ∧ align (period k) now ∈ Consumer.m_wakeup_ticks k'.

Lemma roused_trans now k k1 k2 : roused now k k1 → asked_more now k1 k2 → roused now k k2.
Proof. intros [Ha Ht] Hb. split; [by eapply asked_more_trans|]. destruct Hb as (_ & Hb & _). by apply Hb. Qed.

Lemma reanalyzeList_runs now k b lt : is_heap gt (heap_of b) → m_consumer (wires b) = true →
  Forall (λ m, m_LastEnqueueTime m ≤ now) lt → pending now k → now + 3 * period k < 2 ^ 64 →
  ∃ h k', reanalyzeList now k b lt now = Ok (with_queue b (set_heap (queue b) h), k') ∧ is_heap gt h ∧ h ≡ₚ lt ++ heap_of b ∧
    asked_more now k k' ∧ (lt ≠ [] → roused now k k').
Proof.
  revert k b. induction lt as [|m lt IH]; intros k b Hh Hw Hlt Hk Hov.
  { exists (heap_of b), k. split; [|split_and!; [done|done|by apply asked_more_refl|done]]. by destruct b as [? [] ? ? ? ?]. }
  apply Forall_cons in Hlt as [Hm Hlt]. cbn [reanalyzeList]. unfold getLastEnqueueTime. rewrite (proj2 (Z.leb_le _ now)) by done.
  cbn [require rbind]. destruct (push_heap_spec (heap_of b) m Hh) as [Hh1 Hp1]. unfold on_consumer. cbn [wires with_queue]. rewrite Hw.
  pose proof Hk as ((Hpos & _) & _). destruct (request_spec now now k Hk) as (k1 & -> & Ha & Hp & Hx); [lia|lia|]. cbn [rbind].
  assert (roused now k k1) as Hr.
  { split; [|apply Hx; by left]. split_and!; [done| |apply Ha|done]. intros t Ht. apply Hx. by right. }
  destruct (IH k1 (with_queue b (set_heap (queue b) (push_heap gt (heap_of b ++ [m]))))) as (h & k' & E & Hh' & Hp' & Ha' & _);
    [done|done|done|apply Ha|by rewrite Hp|].
  exists h, k'. split; [by rewrite E|]. split; [done|]. simpl in Hp'. split; [by rewrite Hp', Hp1, <- Permutation_middle|].
  pose proof (roused_trans _ _ _ _ Hr Ha') as Hrk. split; [apply Hrk|done].
Qed.

Lemma reanalyze_runs n now k b addr lt : port_ok n now b → stall_map b !! addr = Some lt → pending now k → now + 3 * period k < 2 ^ 64 →
  ∃ b' k', reanalyzeMessages now k b addr now = Ok (b', k') ∧ roused now k k' ∧ port_ok n now b' ∧ same_messages b b' ∧
    stall_map b' = delete addr (stall_map b) ∧ heap_of b' ≡ₚ lt ++ heap_of b.
Proof.
  intros Hb El Hk Hov. destruct (po_due _ _ _ Hb addr lt El) as [Hne Hdue]. pose proof (po_inv _ _ _ Hb) as Hi.
  destruct (reanalyzeMessages now k b addr now) as [[b' k']|e] eqn:E; cycle 1.
  - exfalso. unfold reanalyzeMessages in E. rewrite El in E.
    pose proof (inv_stall _ _ _ Hi) as Hst. pose proof (inv_size _ _ _ Hi) as Hsz. unfold total in Hsz.
    pose proof (stalled_delete _ _ _ El) as Hsd.
    assert (zlen lt ≤ m_stall_map_size (queue b)) by (rewrite Hst, Hsd, length_app; lia).
    rewrite i32_small in E by lia. rewrite (proj2 (Z.leb_le 0 _)) in E by lia. cbn [require rbind] in E.
    match type of E with context [reanalyzeList _ _ ?b0 _ _] =>
      destruct (reanalyzeList_runs now k b0 lt) as (h & k1 & E1 & _); [apply Hi|apply Hb|done|done|done|] end.
    by rewrite E1 in E.
  - destruct (reanalyze_inv n now k b addr now now b' k' Hi ltac:(lia) E) as [Hi' Hc]. exists b', k'. split; [done|].
    unfold reanalyzeMessages in E. rewrite El in E. apply rbind_Ok in E as ([] & _ & E).
    match type of E with context [reanalyzeList _ _ ?b0 _ _] =>
      destruct (reanalyzeList_runs now k b0 lt) as (h & k1 & E1 & Hh & Hp & _ & Hr); [apply Hi|apply Hb|done|done|done|] end.
    rewrite E1 in E. cbn [rbind] in E. injection E as <- <-. split; [by apply Hr|]. split; [|by split_and!].
    split; [done|apply Hb|]. simpl. intros addr' lt' [_ Hl]%lookup_delete_Some. by eapply (po_due _ _ _ Hb).
Qed.

Lemma reanalyze_each_runs now k b addrs : is_heap gt (heap_of b) → m_consumer (wires b) = true →
  (∀ addr lt, stall_map b !! addr = Some lt → Forall (λ m, m_LastEnqueueTime m ≤ now) lt) →
  zlen (moved (stall_map b) addrs) ≤ m_stall_map_size (queue b) < 2 ^ 31 → pending now k → now + 3 * period k < 2 ^ 64 →
  ∃ b' k', reanalyze_each now k b addrs now = Ok (b', k') ∧ wires b' = wires b ∧ cfg b' = cfg b ∧ asked_more now k k' ∧
    (∀ addr lt, addr ∈ addrs → stall_map b !! addr = Some lt → lt ≠ [] → roused now k k').
Proof.
  revert k b. induction addrs as [|addr addrs IH]; intros k b Hh Hw Hdue Hlen Hk Hov.
  { exists b, k. do 3 (split; [done|]). split; [by apply asked_more_refl|]. intros addr lt Ha. by apply not_elem_of_nil in Ha. }
  rewrite moved_cons, length_app in Hlen. cbn [reanalyze_each]. set (lt := default [] (stall_map b !! addr)) in *.
  rewrite i32_small by lia. rewrite (proj2 (Z.leb_le 0 _)) by lia. cbn [require rbind].
  match goal with |- context [reanalyzeList _ _ ?b0 _ _] =>
    destruct (reanalyzeList_runs now k b0 lt) as (h & k1 & E1 & Hh1 & Hp1 & Ha1 & Hr1); [done|done| |done|done|] end.
  { unfold lt. destruct (stall_map b !! addr) eqn:El; [by eapply Hdue|constructor]. }
  rewrite E1. cbn [rbind]. pose proof Ha1 as (Hper & _ & Hk1 & _).
  match goal with |- context [reanalyze_each _ _ ?b1 _ _] =>
    destruct (IH k1 b1) as (b' & k' & E' & Hw' & Hc' & Ha' & Hr'); [done|done|done|simpl; lia|done|by rewrite Hper|] end.
  rewrite E'. exists b', k'. split; [done|]. split; [done|]. split; [done|]. split; [by eapply asked_more_trans|].
  intros addr' lt' [->|Hin]%elem_of_cons El Hne.
  - eapply roused_trans; [|done]. apply Hr1. unfold lt. by rewrite El.
  - destruct (Hr' addr' lt' Hin El Hne) as [Hm' Ht]. split; [by eapply asked_more_trans|by rewrite <- Hper].
Qed.

Lemma reanalyzeAll_runs n now k b : port_ok n now b → pending now k → now + 3 * period k < 2 ^ 64 →
  ∃ b' k', reanalyzeAllMessages now k b now = Ok (b', k') ∧ asked_more now k k' ∧ (stall_map b ≠ ∅ → roused now k k') ∧
    port_ok n now b' ∧ same_messages b b' ∧ stall_map b' = ∅.
Proof.
  intros Hb Hk Hov. pose proof (po_inv _ _ _ Hb) as Hi. pose proof (inv_stall _ _ _ Hi) as Hst. pose proof (inv_size _ _ _ Hi) as Hsz.
  unfold total in Hsz. pose proof (keys_stalled (stall_map b)) as Hks.
  destruct (reanalyze_each_runs now k b (keys (stall_map b))) as (b1 & k1 & E1 & Hw & Hc & Ha & Hr); [apply Hi|apply Hb| | |done|done|].
  { intros addr lt El. by apply (po_due _ _ _ Hb) in El as [_ ?]. } { rewrite Hks. lia. }
  assert (reanalyzeAllMessages now k b now = Ok (with_queue b1 (set_stalled (queue b1) ∅ (m_stall_map_size (queue b1))), k1)) as E
    by (unfold reanalyzeAllMessages; by rewrite E1).
  destruct (reanalyze_all_inv n now k b now now _ _ Hi ltac:(lia) E) as [Hi' Hcont]. eexists _, k1. split; [done|]. split; [done|].
  split; [|split; [split; [done|simpl; rewrite Hw; apply Hb|simpl; intros addr lt; by rewrite lookup_empty]|by split_and!]].
  intros Hne. apply map_choose in Hne as (addr & lt & El). apply (Hr addr lt); [|done|by apply (po_due _ _ _ Hb) in El as [? _]].
  by apply elem_of_keys.
Qed.

End Buffer.

(** ** The ports of a controller *)

Section Ports.
Import Message MessageBuffer Store.
Context {A : Type} `{HeapLaws (Message.t A)}.
Context (n now : Z) (self : nat) (ins : list nat).
Implicit Types (st : Store.t A) (b : MessageBuffer.t A) (addr : Z) (a : nat) (k : Consumer.t).

(** The buffers of the input ports have the controller as their consumer, which is
    at a clock edge. *)
Record ports_ok st : Prop := {
  pt_buf a : a ∈ ins → ∃ b, buffers st !! a = Some b ∧ port_ok n now b ∧ consumer_of st !! a = Some self;
  pt_consumer : ∃ k, consumers st !! self = Some k ∧ Clocking.pending now k ∧ now + 3 * period k < 2 ^ 64 ∧ (period k | now) }.

Definition stalls_of st a : gmap Z (list (Message.t A)) := from_option (λ b, stall_map b) ∅ (buffers st !! a).
Definition contents_of st a : list A := from_option contents [] (buffers st !! a).

(** The controller is woken at this clock edge. *)
Definition alerted st : Prop := ∃ k, consumers st !! self = Some k ∧ now ∈ Consumer.m_wakeup_ticks k.

Record kept st st' : Prop := {
  kp_ports : ports_ok st';
  kp_of : consumer_of st' = consumer_of st;
  kp_contents a : contents_of st' a ≡ₚ contents_of st a;
  kp_alert : alerted st → alerted st' }.

Lemma kept_refl st : ports_ok st → kept st st.
Proof. intros. by split. Qed.
Lemma kept_trans st st1 st2 : kept st st1 → kept st1 st2 → kept st st2.
Proof. intros [] []. split; [done|congruence| |auto]. intros a. by rewrite kp_contents1. Qed.

(** A buffer and the controller as its consumer after an operation. *)
Lemma put_kept st a b b' k k' : ports_ok st → a ∈ ins → buffers st !! a = Some b → consumers st !! self = Some k →
  asked_more now k k' → port_ok n now b' → same_messages b b' →
  let st' := woken (put st a b') a k' in
  kept st st' ∧ (∀ a', stalls_of st' a' = if decide (a' = a) then stall_map b' else stalls_of st a') ∧ (roused now k k' → alerted st').
Proof.
  intros Hp Ha Eb Ek Hk Hb' Hs. destruct (pt_buf _ Hp a Ha) as (b0 & Eb0 & _ & Eo). replace b0 with b in * by congruence. clear b0 Eb0.
  destruct (pt_consumer _ Hp) as (k0 & Ek0 & Hpend & Hov & Hdiv). replace k0 with k in * by congruence. clear k0 Ek0.
  pose proof Hk as (Hper & Hticks & Hpend' & _). pose proof Hpend as ((Hpos & _) & _).
  assert (align (period k) now = now) as Hal. { destruct Hdiv as [q ->]. symmetry. apply align_unique; [done|nia]. }
  unfold woken. cbn [consumer_of put]. rewrite Eo. split; [split|split].
  - split.
    + intros a' Ha'. simpl. destruct (decide (a = a')) as [<-|Hne]; [rewrite lookup_insert_eq; by exists b'|].
      rewrite lookup_insert_ne by done. by apply (pt_buf _ Hp).
    + exists k'. simpl. rewrite lookup_insert_eq, Hper. done.
  - done.
  - intros a'. unfold contents_of. simpl. destruct (decide (a = a')) as [<-|Hne]; [|by rewrite lookup_insert_ne].
    rewrite lookup_insert_eq, Eb. apply Hs.
  - intros (k1 & Ek1 & Ht). exists k'. simpl. rewrite lookup_insert_eq. split; [done|]. apply Hticks. by simplify_eq.
  - intros a'. unfold stalls_of. simpl. case_decide as E; [subst a'; by rewrite lookup_insert_eq|by rewrite lookup_insert_ne].
  - intros [_ Ht]. exists k'. simpl. rewrite lookup_insert_eq. split; [done|]. by rewrite Hal in Ht.
Qed.

Lemma clockEdge_kept st : ports_ok st →
  ∃ st', Store.clockEdge now st self = Ok (now, st') ∧ kept st st' ∧ buffers st' = buffers st.
Proof.
  intros Hp. destruct (pt_consumer _ Hp) as (k & Ek & Hk & Hov & Hdiv). unfold Store.clockEdge. rewrite Ek. cbn [of_option rbind].
  pose proof Hk as ((Hpos & _) & _). destruct (edge_spec now 0 k Hk) as (e & -> & He & Hpe & Ht); [lia|lia|]. cbn [rbind].
  assert (align (period k) now = now) as ->. { destruct Hdiv as [q ->]. symmetry. apply align_unique; [done|nia]. }
  rewrite Z.mul_0_r, Z.add_0_r. eexists. split; [done|]. split; [|done]. split.
  - split; [apply Hp|]. eexists. simpl. rewrite lookup_insert_eq. split; [done|]. simpl. rewrite Hpe. split; [|done].
    destruct Hk as (_ & ? & ? & _ & ? & ? & ?). unfold Clocking.pending. simpl. rewrite Hpe. by split_and!.
  - done.
  - done.
  - intros (k1 & Ek1 & Ht1). eexists. simpl. rewrite lookup_insert_eq. split; [done|]. simpl. by simplify_eq.
Qed.

(** The consumer of a port is the controller. *)
Lemma port_consumer st a : ports_ok st → a ∈ ins → ∃ b k, deref st (Some a) = Ok (a, b) ∧ buffers st !! a = Some b ∧
  port_ok n now b ∧ consumers st !! self = Some k ∧ consumer st a = k ∧ Clocking.pending now k ∧ now + 3 * period k < 2 ^ 64.
Proof.
  intros Hp Ha. destruct (pt_buf _ Hp a Ha) as (b & Eb & Hb & Eo). destruct (pt_consumer _ Hp) as (k & Ek & Hk & Hov & _).
  exists b, k. unfold deref, consumer. cbn [of_option rbind]. rewrite Eb, Eo. simpl. rewrite Ek. done.
Qed.

Context (c : Stalls.t) (Hself : Stalls.self c = self).

Lemma reanalyze_ok st a addr : ports_ok st → a ∈ ins → is_Some (stalls_of st a !! addr) →
  ∃ st', Stalls.reanalyze now c st (Some a) addr = Ok st' ∧ kept st st' ∧ alerted st' ∧
    ∀ a', stalls_of st' a' = if decide (a' = a) then delete addr (stalls_of st a) else stalls_of st a'.
Proof.
  intros Hp Ha [lt Hl]. unfold Stalls.reanalyze. rewrite Hself.
  destruct (clockEdge_kept st Hp) as (st1 & -> & Hk1 & Eb1). cbn [rbind]. unfold reanalyzeMessages.
  destruct (port_consumer st1 a (kp_ports _ _ Hk1) Ha) as (b & k & -> & Eb & Hb & Ek & Ec & Hpend & Hov). cbn [rbind]. rewrite Ec.
  assert (stalls_of st a = stall_map b) as Es by (unfold stalls_of; by rewrite <- Eb1, Eb). rewrite Es in Hl.
  destruct (reanalyze_runs n now k b addr lt Hb Hl Hpend Hov) as (b' & k' & -> & Hr & Hb' & Hs & Em & _). cbn [rbind].
  destruct (put_kept st1 a b b' k k' (kp_ports _ _ Hk1) Ha Eb Ek (proj1 Hr) Hb' Hs) as (Hk2 & Hst & Hal). eexists. split; [done|].
  split; [by eapply kept_trans|]. split; [by apply Hal|]. intros a'. rewrite Hst, Em, Es. unfold stalls_of. by rewrite Eb1.
Qed.

Lemma reanalyzeAll_ok st a : ports_ok st → a ∈ ins → stalls_of st a ≠ ∅ →
  ∃ st1 st', Store.clockEdge now st self = Ok (now, st1) ∧ reanalyzeAllMessages now st1 (Some a) now = Ok st' ∧
    kept st st' ∧ alerted st' ∧ ∀ a', stalls_of st' a' = if decide (a' = a) then ∅ else stalls_of st a'.
Proof.
  intros Hp Ha Hne. destruct (clockEdge_kept st Hp) as (st1 & E1 & Hk1 & Eb1). exists st1. unfold reanalyzeAllMessages.
  destruct (port_consumer st1 a (kp_ports _ _ Hk1) Ha) as (b & k & -> & Eb & Hb & Ek & Ec & Hpend & Hov). cbn [rbind]. rewrite Ec.
  assert (stalls_of st a = stall_map b) as Es by (unfold stalls_of; by rewrite <- Eb1, Eb). rewrite Es in Hne.
  destruct (reanalyzeAll_runs n now k b Hb Hpend Hov) as (b' & k' & -> & Hask & Hr & Hb' & Hs & Em). cbn [rbind].
  destruct (put_kept st1 a b b' k k' (kp_ports _ _ Hk1) Ha Eb Ek Hask Hb' Hs) as (Hk2 & Hst & Hal). eexists. split; [done|]. split; [done|].
  split; [by eapply kept_trans|]. split; [by apply Hal, Hr|]. intros a'. rewrite Hst, Em. unfold stalls_of. by rewrite Eb1.
Qed.

Lemma stall_ok st a addr b : ports_ok st → a ∈ ins → buffers st !! a = Some b → can_dequeue now b →
  ∃ st1 st' m, Store.clockEdge now st self = Ok (now, st1) ∧ stallMessage now st1 (Some a) addr now = Ok st' ∧ kept st st' ∧
    ∀ a', stalls_of st' a' = if decide (a' = a) then <[addr := default [] (stalls_of st a !! addr) ++ [m]]> (stalls_of st a) else stalls_of st a'.
Proof.
  intros Hp Ha Eb Hcan. destruct (clockEdge_kept st Hp) as (st1 & E1 & Hk1 & Eb1). exists st1. unfold stallMessage.
  destruct (port_consumer st1 a (kp_ports _ _ Hk1) Ha) as (b1 & k & -> & Eb' & Hb & Ek & Ec & Hpend & Hov). cbn [rbind]. rewrite Ec.
  rewrite Eb1 in Eb'. replace b1 with b in * by congruence. clear b1.
  assert (stalls_of st a = stall_map b) as Es by (unfold stalls_of; by rewrite Eb).
  destruct (stall_runs n now k b addr Hb Hcan) as (m & b' & -> & Hb' & Hs & Em). cbn [rbind]. rewrite <- Eb1 in Eb.
  destruct (put_kept st1 a b b' k k (kp_ports _ _ Hk1) Ha Eb Ek (asked_more_refl _ _ Hpend) Hb' Hs) as (Hk2 & Hst & Hal).
  eexists _, m. split; [done|]. split; [done|].
  split; [by eapply kept_trans|]. intros a'. rewrite Hst, Em, Es. unfold stalls_of. by rewrite Eb1.
Qed.

End Ports.

(** ** The controller *)

Section Controller.
Import Message MessageBuffer Store Stalls.
Context {A : Type} `{HeapLaws (Message.t A)}.
Context (n now : Z) (ins : list nat).
Implicit Types (st : Store.t A) (c : Stalls.t) (addr : Z) (a p : nat) (vec : list (option nat)).

Definition vec_ok vec : Prop := length vec = length ins ∧ ∀ p a, vec !! p = Some (Some a) → ins !! p = Some a.

(** The controller records a port for an address exactly when messages of the
    address are stalled at the port. *)
Definition recorded c st : Prop :=
  ∀ p a addr, ins !! p = Some a →
    is_Some (stalls_of st a !! addr) ↔ ∃ vec, m_waiting_buffers c !! addr = Some vec ∧ vec !! p = Some (Some a).

Record stalls_ok c st : Prop := {
  sk_ports : ports_ok n now (self c) ins st;
  sk_count : zlen ins = m_in_ports c ∧ m_in_ports c < 2 ^ 31;
  sk_cur : 0 ≤ m_cur_in_port c < m_in_ports c;
  sk_nodup : NoDup ins;
  sk_vec addr vec : m_waiting_buffers c !! addr = Some vec → vec_ok vec;
  sk_recorded : recorded c st }.

Lemma ranks_below_spec (k : Z) : 0 ≤ k < 2 ^ 31 → ranks_below k = reverse (seqZ 0 k).
Proof.
  intros Hk. unfold ranks_below. destruct (decide (k = 0)) as [->|]; [done|].
  rewrite u32_small, i32_small by lia. by rewrite Z.sub_add.
Qed.

(** After waking some ports, what they had stalled for the address is back. *)
Definition wakes addr vec (ranks : list Z) p a : Prop := Z.of_nat p ∈ ranks ∧ vec !! p = Some (Some a).

Lemma wake_ranks_ok c addr vec ranks st : ports_ok n now (self c) ins st → NoDup ins → vec_ok vec → NoDup ranks →
  (∀ r, r ∈ ranks → 0 ≤ r < zlen ins) →
  (∀ p a, wakes addr vec ranks p a → is_Some (stalls_of st a !! addr)) →
  ∃ st', wake_ranks now c st vec addr ranks = Ok st' ∧ kept n now (self c) ins st st' ∧
    ((∃ p a, wakes addr vec ranks p a) → alerted now (self c) st') ∧
    (∀ p a, ins !! p = Some a → wakes addr vec ranks p a → stalls_of st' a = delete addr (stalls_of st a)) ∧
    (∀ p a, ins !! p = Some a → ¬ wakes addr vec ranks p a → stalls_of st' a = stalls_of st a).
Proof.
  intros Hp Hnd Hv. revert st Hp. induction ranks as [|r ranks IH]; intros st Hp Hr Hrange Hst.
  { exists st. split; [done|]. split; [by apply kept_refl|]. split; [intros (p & a & Hn & _); by apply not_elem_of_nil in Hn|].
    split; [|done]. intros p a _ [Hn _]. by apply not_elem_of_nil in Hn. }
  apply NoDup_cons in Hr as [Hnr Hr]. destruct (Hrange r) as [Hr0 Hr1]; [left|]. cbn [wake_ranks].
  destruct Hv as [Hlen Hins]. destruct (vget_inbounds vec r ltac:(lia)) as (x & -> & Ex). cbn [rbind].
  assert (∃ st1, match x with None => Ok st | Some _ => reanalyze now c st x addr end = Ok st1 ∧ kept n now (self c) ins st st1 ∧
    (is_Some x → alerted now (self c) st1) ∧ ∀ a, stalls_of st1 a = if decide (x = Some a) then delete addr (stalls_of st a) else stalls_of st a)
    as (st1 & -> & Hk1 & Hal1 & Hst1).
  { destruct x as [a0|].
    - destruct (reanalyze_ok n now (self c) ins c eq_refl st a0 addr Hp) as (st1 & E & Hk & Hal & Hs).
      + apply Hins in Ex. by eapply list_elem_of_lookup_2.
      + apply (Hst (Z.to_nat r)). split; [rewrite Z2Nat.id by done; left|done].
      + exists st1. split; [done|]. split; [done|]. split; [done|]. intros a. rewrite Hs. repeat case_decide; congruence.
    - exists st. split; [done|]. split; [by apply kept_refl|]. split; [by intros [? [=]]|]. intros a. by rewrite decide_False. }
  cbn [rbind]. assert (∀ p a, wakes addr vec ranks p a → x ≠ Some a) as Hdis.
  { intros p a [Hin Hpa] ->. apply Hins in Hpa, Ex. pose proof (NoDup_lookup _ _ _ _ Hnd Hpa Ex) as ->. rewrite Z2Nat.id in Hin by done. done. }
  destruct (IH st1 (kp_ports _ _ _ _ _ _ Hk1) Hr) as (st' & -> & Hk' & Hal' & Hw & Hnw).
  { intros r' Hr'. apply Hrange. by right. }
  { intros p a Hpa. rewrite Hst1, decide_False by (by eapply Hdis). apply (Hst p). destruct Hpa. split; [by right|done]. }
  assert (∀ p a, wakes addr vec (r :: ranks) p a → x = Some a ∨ wakes addr vec ranks p a) as Hcase.
  { intros p a [[E|Hin]%elem_of_cons Hpa]; [left|by right]. rewrite <- E, Nat2Z.id in Ex. congruence. }
  exists st'. split; [done|]. split; [by eapply kept_trans|]. split; [|split].
  - intros (p & a & [->|Hpa]%Hcase); [|apply Hal'; by eauto]. apply Hk'. by apply Hal1.
  - intros p a Hpa [->|Hwk]%Hcase.
    + rewrite (Hnw p a Hpa), Hst1, decide_True; [done..|]. intros Hwk. by apply Hdis in Hwk.
    + rewrite (Hw p a Hpa Hwk), Hst1, decide_False; [done|by eapply Hdis].
  - intros p a Hpa Hn. rewrite (Hnw p a Hpa), Hst1, decide_False; [done| |].
    + intros ->. apply Hn. split; [|apply Hins in Ex as Hx; by rewrite (NoDup_lookup _ _ _ _ Hnd Hpa Hx)].
      apply Hins in Ex. rewrite (NoDup_lookup _ _ _ _ Hnd Hpa Ex), Z2Nat.id by done. left.
    + intros [Hin Hpa']. apply Hn. split; [by right|done].
Qed.

(** All stalled messages of an address are back, and it is no longer recorded. *)
Lemma woken_ok c st st' addr : stalls_ok c st → kept n now (self c) ins st st' →
  (∀ a, a ∈ ins → stalls_of st' a = delete addr (stalls_of st a)) →
  stalls_ok (with_waiting c (delete addr (m_waiting_buffers c))) st'.
Proof.
  intros [] Hk Hs. split; try done; [apply Hk| |].
  - intros addr' vec. simpl. intros [_ Hl]%lookup_delete_Some. by eapply sk_vec0.
  - intros p a addr' Hp. simpl. rewrite Hs by (by eapply list_elem_of_lookup_2). destruct (decide (addr = addr')) as [<-|Hne].
    + rewrite !lookup_delete_eq. split; [by intros [? ?]|by intros (? & ? & _)].
    + rewrite !lookup_delete_ne by done. by apply sk_recorded0.
Qed.

(** Waking the ports of some ranks, among them all that wait for the address. *)
Lemma wake_addr_ok c st addr vec ranks : stalls_ok c st → m_waiting_buffers c !! addr = Some vec → NoDup ranks →
  (∀ r, r ∈ ranks → 0 ≤ r < zlen ins) → (∀ p a, vec !! p = Some (Some a) → Z.of_nat p ∈ ranks) →
  ∃ st', wake_ranks now c st vec addr ranks = Ok st' ∧ kept n now (self c) ins st st' ∧
    stalls_ok (with_waiting c (delete addr (m_waiting_buffers c))) st' ∧
    (∀ a, a ∈ ins → stalls_of st' a = delete addr (stalls_of st a)) ∧
    ((∃ a, a ∈ ins ∧ is_Some (stalls_of st a !! addr)) → alerted now (self c) st').
Proof.
  intros Hok Ev Hnd Hr Hall. pose proof (sk_vec _ _ Hok addr vec Ev) as Hv.
  destruct (wake_ranks_ok c addr vec ranks st) as (st' & -> & Hk & Hal & Hw & Hnw); [apply Hok|apply Hok|done|done|done| |].
  { intros p a [_ Hpa]. apply (sk_recorded _ _ Hok p a addr); [by apply Hv|]. by exists vec. }
  assert (∀ a, a ∈ ins → stalls_of st' a = delete addr (stalls_of st a)) as Hdel.
  { intros a [p Hp]%list_elem_of_lookup. destruct (decide (vec !! p = Some (Some a))) as [Hpa|Hpa].
    - apply (Hw p a Hp). split; [by eapply Hall|done].
    - rewrite (Hnw p a Hp) by (by intros [_ ?]). symmetry. apply delete_id. apply eq_None_not_Some.
      intros (vec' & Ev' & Hpa')%(sk_recorded _ _ Hok p a addr Hp). congruence. }
  exists st'. split; [done|]. split; [done|]. split; [by eapply woken_ok|]. split; [done|].
  intros (a & [p Hp]%list_elem_of_lookup & (vec' & Ev' & Hpa)%(sk_recorded _ _ Hok p a addr Hp)). apply Hal. exists p, a.
    rewrite Ev in Ev'. injection Ev' as <-. split; [by eapply Hall|done].
Qed.

Definition woke c st (addr : Z) (r : res (Stalls.t * Store.t A)) : Prop :=
  ∃ st', r = Ok (with_waiting c (delete addr (m_waiting_buffers c)), st') ∧ kept n now (self c) ins st st' ∧
    stalls_ok (with_waiting c (delete addr (m_waiting_buffers c))) st' ∧
    (∀ a, a ∈ ins → stalls_of st' a = delete addr (stalls_of st a)) ∧
    ((∃ a, a ∈ ins ∧ is_Some (stalls_of st a !! addr)) → alerted now (self c) st').

Lemma woke_nothing c st addr : stalls_ok c st → m_waiting_buffers c !! addr = None → woke c st addr (Ok (c, st)).
Proof.
  intros Hok E. exists st. assert (with_waiting c (delete addr (m_waiting_buffers c)) = c) as ->.
  { rewrite delete_id by done. by destruct c. }
  assert (∀ a, a ∈ ins → stalls_of st a !! addr = None) as Hn.
  { intros a [p Hp]%list_elem_of_lookup. apply eq_None_not_Some. intros (vec & Ev & _)%(sk_recorded _ _ Hok p a addr Hp). congruence. }
  split; [done|]. split; [apply kept_refl, Hok|]. split; [done|]. split; [intros a Ha; by rewrite delete_id by (by apply Hn)|].
  intros (a & Ha & [? ?]). by rewrite Hn in *.
Qed.

Lemma vec_ranks c st addr vec p a : stalls_ok c st → m_waiting_buffers c !! addr = Some vec → vec !! p = Some (Some a) →
  0 ≤ Z.of_nat p < m_in_ports c.
Proof.
  intros Hok Ev Hpa. pose proof (sk_count _ _ Hok) as [Hc _]. destruct (sk_vec _ _ Hok _ _ Ev) as [Hl _].
  apply lookup_lt_Some in Hpa. lia.
Qed.

Lemma wakeUpAll_addr_ok c st addr : stalls_ok c st → woke c st addr (wakeUpAllBuffers_addr now c st addr).
Proof.
  intros Hok. unfold wakeUpAllBuffers_addr. destruct (m_waiting_buffers c !! addr) as [vec|] eqn:Ev; [|by apply woke_nothing].
  pose proof (sk_count _ _ Hok) as [Hc Hmax]. pose proof (sk_cur _ _ Hok). rewrite ranks_below_spec by lia.
  destruct (wake_addr_ok c st addr vec (reverse (seqZ 0 (m_in_ports c))) Hok Ev) as (st' & -> & Hk & Hok' & Hal).
  - rewrite reverse_Permutation. apply NoDup_seqZ.
  - intros r. rewrite elem_of_reverse, elem_of_seqZ. lia.
  - intros p a Hpa. rewrite elem_of_reverse, elem_of_seqZ. pose proof (vec_ranks c st addr vec p a Hok Ev Hpa). lia.
  - by exists st'.
Qed.

(** Only ports below the current one wait for the address. *)
Definition only_lower c addr : Prop :=
  ∀ vec p a, m_waiting_buffers c !! addr = Some vec → vec !! p = Some (Some a) → Z.of_nat p < m_cur_in_port c.

Lemma wakeUpBuffers_ok c st addr : stalls_ok c st → only_lower c addr → woke c st addr (wakeUpBuffers now c st addr).
Proof.
  intros Hok Hlow. unfold wakeUpBuffers. destruct (m_waiting_buffers c !! addr) as [vec|] eqn:Ev; [|by apply woke_nothing].
  pose proof (sk_count _ _ Hok) as [Hc Hmax]. pose proof (sk_cur _ _ Hok). rewrite ranks_below_spec by lia.
  destruct (wake_addr_ok c st addr vec (reverse (seqZ 0 (m_cur_in_port c))) Hok Ev) as (st' & -> & Hk & Hok' & Hal).
  - rewrite reverse_Permutation. apply NoDup_seqZ.
  - intros r. rewrite elem_of_reverse, elem_of_seqZ. lia.
  - intros p a Hpa. rewrite elem_of_reverse, elem_of_seqZ. pose proof (Hlow vec p a Ev Hpa). lia.
  - by exists st'.
Qed.

Lemma stall_and_wait_ok c st addr a b : stalls_ok c st → ins !! Z.to_nat (m_cur_in_port c) = Some a →
  buffers st !! a = Some b → can_dequeue now b →
  ∃ c' st', stall_and_wait now c st a addr = Ok (c', st') ∧ kept n now (self c) ins st st' ∧ self c' = self c ∧ stalls_ok c' st'.
Proof.
  intros Hok Ea Eb Hcan. pose proof (sk_count _ _ Hok) as [Hc Hmax]. pose proof (sk_cur _ _ Hok) as Hcur.
  unfold stall_and_wait, stallBuffer. rewrite (proj2 (Z.ltb_lt _ _)) by lia. cbn [require rbind].
  set (vec := match m_waiting_buffers c !! addr with None => _ | Some v => v end).
  assert (vec_ok vec) as [Hlen Hv].
  { unfold vec. destruct (m_waiting_buffers c !! addr) eqn:Ev; [by eapply (sk_vec _ _ Hok)|]. split; [rewrite length_replicate; lia|].
    intros p a' [? _]%lookup_replicate. done. }
  rewrite vset_inbounds by lia. cbn [rbind]. set (vec' := <[_ := Some a]> vec).
  cbn [self with_waiting]. destruct (stall_ok n now (self c) ins st a addr b) as (st1 & st' & m & -> & E & Hk & Hs);
    [apply Hok|by eapply list_elem_of_lookup_2|done|done|]. cbn [rbind]. rewrite E. cbn [rbind].
  eexists _, st'. split; [done|]. split; [done|]. split; [done|]. split; try apply Hok; [apply Hk| |].
  - intros addr' v. simpl. intros [[<- <-]|[_ Hl]]%lookup_insert_Some; [|by eapply (sk_vec _ _ Hok)].
    split; [by unfold vec'; rewrite length_insert|]. intros p a'. unfold vec'. intros [(<- & [= <-] & _)|[_ Hl]]%list_lookup_insert_Some; [done|].
    by apply Hv.
  - intros p a' addr' Hp. simpl. rewrite Hs. destruct (decide (addr = addr')) as [<-|Hne].
    + rewrite lookup_insert_eq. case_decide as Haa.
      * subst a'. rewrite lookup_insert_eq. split; [|done]. intros _. exists vec'. split; [done|]. unfold vec'.
        rewrite (NoDup_lookup _ _ _ _ (sk_nodup _ _ Hok) Hp Ea). apply list_lookup_insert_eq. lia.
      * assert (p ≠ Z.to_nat (m_cur_in_port c)) as Hpn by (intros ->; congruence).
        rewrite (sk_recorded _ _ Hok p a' addr Hp). unfold vec', vec. destruct (m_waiting_buffers c !! addr) as [v|] eqn:Ev.
        -- split; intros (v' & [= <-] & Hv'); eexists; (split; [done|]); by rewrite list_lookup_insert_ne in *.
        -- split; [by intros (v' & ? & _)|]. intros (v' & [= <-] & Hv'). rewrite list_lookup_insert_ne in Hv' by done.
           apply lookup_replicate in Hv' as [? _]. done.
    + rewrite (lookup_insert_ne (m_waiting_buffers c)) by done. rewrite <- (sk_recorded _ _ Hok p a' addr' Hp).
      case_decide; [|done]. subst a'. by rewrite lookup_insert_ne.
Qed.

(** One port is woken; the address stays recorded for the others. *)
Section OnePort.
Context c st addr vec p0 a0 (Hok : stalls_ok c st) (Ev : m_waiting_buffers c !! addr = Some vec) (Ep0 : ins !! p0 = Some a0).

Definition others (j : Z) : Prop := ∃ p a, p ≠ p0 ∧ Z.of_nat p < j ∧ vec !! p = Some (Some a).
Definition without a : gmap Z (list (Message.t A)) := if decide (a = a0) then delete addr (stalls_of st a) else stalls_of st a.

(** The state of the loop before port [j]. *)
Definition visited (j : Z) (q : bool * list (option nat) * Store.t A) : Prop :=
  (q.1.1 = true ↔ others j) ∧ kept n now (self c) ins st q.2 ∧
  if decide (Z.of_nat p0 < j ∧ vec !! p0 = Some (Some a0))
  then q.1.2 = <[p0 := None]> vec ∧ alerted now (self c) q.2 ∧ ∀ a, stalls_of q.2 a = without a
  else q.1.2 = vec ∧ ∀ a, stalls_of q.2 a = stalls_of st a.

Lemma port_of_buffer p : vec !! p = Some (Some a0) → p = p0.
Proof. intros Hpa%(sk_vec _ _ Hok addr vec Ev). eapply NoDup_lookup; [apply Hok|done..]. Qed.

Lemma visited_start : visited 0 (false, vec, st).
Proof.
  split; [split; [done|intros (p & a & _ & ? & _); lia]|]. split; [apply kept_refl, Hok|]. by rewrite decide_False by lia.
Qed.

Lemma visit_port j q : 0 ≤ j < zlen vec → visited j q → ∃ q', wake_port now c addr (Some a0) j q = Ok q' ∧ visited (j + 1) q'.
Proof.
  destruct q as [[other v] s]. intros Hj (Hoth & Hk & Hst). cbn [fst snd] in Hoth, Hk, Hst. unfold wake_port.
  assert (v !! Z.to_nat j = vec !! Z.to_nat j ∧ length v = length vec) as [Ej Hlv].
  { destruct (decide (Z.of_nat p0 < j ∧ vec !! p0 = Some (Some a0))) as [[? ?]|?]; destruct Hst as [-> _]; [|done].
    rewrite length_insert. split; [|done]. apply list_lookup_insert_ne. lia. }
  destruct (vget_inbounds v j ltac:(lia)) as (x & -> & Ex). rewrite Ej in Ex. cbn [rbind]. case_bool_decide as Hx.
  - subst x. pose proof (port_of_buffer _ Ex) as Ep. rewrite decide_False in Hst by lia. destruct Hst as [-> Hst].
    destruct (reanalyze_ok n now (self c) ins c eq_refl s a0 addr (kp_ports _ _ _ _ _ _ Hk)) as (s' & -> & Hk' & Hal & Hs').
    { by eapply list_elem_of_lookup_2. } { rewrite Hst. apply (sk_recorded _ _ Hok p0 a0 addr Ep0). exists vec. by rewrite <- Ep. }
    cbn [rbind]. rewrite vset_inbounds by lia. cbn [rbind]. eexists. split; [done|]. split; [|split; [by eapply kept_trans|]]; cbn [fst snd].
    + rewrite Hoth. split; intros (p & a & ? & ? & ?); exists p, a; (split; [done|split; [lia|done]]).
    + rewrite decide_True by (split; [lia|by rewrite <- Ep]). rewrite Ep. split; [done|]. split; [done|]. intros a. rewrite Hs', !Hst.
      unfold without. case_decide; congruence.
  - eexists. split; [done|]. split; [|split; [done|]]; cbn [fst snd].
    + destruct x as [a|]; simpl.
      * rewrite orb_true_r. split; [|done]. intros _. exists (Z.to_nat j), a. split; [|split; [lia|done]].
        intros E. rewrite E in Ex. apply (sk_vec _ _ Hok addr vec Ev) in Ex. congruence.
      * rewrite orb_false_r, Hoth. split; intros (p & a & ? & ? & Hpa); exists p, a; (split; [done|split; [|done]]); [lia|].
        destruct (decide (p = Z.to_nat j)) as [->|]; [congruence|lia].
    + assert (¬ (Z.to_nat j = p0 ∧ vec !! p0 = Some (Some a0))) by (intros [E ?]; rewrite E in Ex; congruence).
      destruct (decide (Z.of_nat p0 < j + 1 ∧ _)) as [[Hlt Hat]|Hno].
      * assert (Z.to_nat j ≠ p0) by tauto. by rewrite decide_True in Hst by (split; [lia|done]).
      * by rewrite decide_False in Hst by (intros [? ?]; apply Hno; split; [lia|done]).
Qed.

Lemma wake_ports_ok :
  ∃ (other : bool) vec' st', loop_from (length vec) 0 (wake_port now c addr (Some a0)) (false, vec, st) = Ok (other, vec', st') ∧
    kept n now (self c) ins st st' ∧ (is_Some (stalls_of st a0 !! addr) → alerted now (self c) st') ∧
    (other = true ↔ ∃ p a, p ≠ p0 ∧ vec !! p = Some (Some a)) ∧ (vec' = vec ∧ vec !! p0 = Some None ∨ vec' = <[p0 := None]> vec) ∧
    ∀ a, stalls_of st' a = without a.
Proof.
  destruct (sk_vec _ _ Hok addr vec Ev) as [Hlen Hv]. assert (p0 < length vec)%nat as Hp0 by (rewrite Hlen; by eapply lookup_lt_Some).
  assert (stalls_of st a0 !! addr = None ∨ vec !! p0 = Some (Some a0)) as Hrec.
  { destruct (stalls_of st a0 !! addr) eqn:E; [right|by left].
    destruct (proj1 (sk_recorded _ _ Hok p0 a0 addr Ep0)) as (v & Ev' & ?); [by rewrite E|congruence]. }
  destruct (loop_from_inv visited (length vec) 0 (wake_port now c addr (Some a0)) (false, vec, st))
    as ([[other vec'] st'] & E & Hoth & Hk & Hfin); [apply visited_start|intros j q Hj; by apply visit_port|]. cbn [fst snd] in *.
  exists other, vec', st'. split; [done|]. split; [done|]. split; [|split; [|split]].
  - intros [lt Hl]. destruct Hrec as [?|Hrec]; [congruence|]. rewrite decide_True in Hfin by (split; [lia|done]). apply Hfin.
  - rewrite Hoth. split; intros (p & a & ?); [by naive_solver|]. exists p, a. destruct_and!. split; [done|]. split; [|done].
    match goal with Hpa : vec !! p = _ |- _ => apply lookup_lt_Some in Hpa; lia end.
  - destruct (vec !! p0) as [[a|]|] eqn:E0.
    + pose proof (Hv _ _ E0). right. replace a with a0 in * by congruence. by rewrite decide_True in Hfin by (split; [lia|done]); destruct Hfin.
    + left. rewrite decide_False in Hfin by (by intros [_ ?]). by destruct Hfin.
    + apply lookup_ge_None in E0. lia.
  - intros a. destruct (decide (Z.of_nat p0 < 0 + zlen vec ∧ _)) as [_|Hn]; destruct Hfin as [_ Hfin]; [by apply Hfin|].
    rewrite Hfin. unfold without. case_decide; [|done]. subst a. symmetry. apply delete_id. destruct Hrec as [?|Hrec]; [done|].
    exfalso. apply Hn. split; [lia|done].
Qed.

End OnePort.

Lemma wakeUpBuffer_ok c st addr p0 a0 : stalls_ok c st → ins !! p0 = Some a0 →
  ∃ c' st', wakeUpBuffer now c st (Some a0) addr = Ok (c', st') ∧ kept n now (self c) ins st st' ∧ self c' = self c ∧ stalls_ok c' st' ∧
    stalls_of st' a0 !! addr = None ∧ (is_Some (stalls_of st a0 !! addr) → alerted now (self c) st').
Proof.
  intros Hok Ep0. unfold wakeUpBuffer. destruct (m_waiting_buffers c !! addr) as [vec|] eqn:Ev; cycle 1.
  { assert (stalls_of st a0 !! addr = None) as Hn.
    { apply eq_None_not_Some. intros (v & ? & _)%(sk_recorded _ _ Hok p0 a0 addr Ep0). congruence. }
    exists c, st. split; [done|]. split; [apply kept_refl, Hok|]. split; [done|]. split; [done|]. split; [done|]. rewrite Hn. by intros [? ?]. }
  destruct (wake_ports_ok c st addr vec p0 a0 Hok Ev Ep0) as (other & vec' & st' & -> & Hk & Hal & Hoth & Hvec & Hs). cbn [rbind].
  destruct (sk_vec _ _ Hok addr vec Ev) as [Hlen Hv]. pose proof (sk_nodup _ _ Hok) as Hnd.
  assert (length vec' = length vec ∧ vec' !! p0 = Some None ∧ ∀ p, p ≠ p0 → vec' !! p = vec !! p) as (Hlen' & Hat & Hne).
  { destruct Hvec as [[-> ?]| ->]; [done|]. rewrite length_insert. split; [done|]. split; [|intros; by apply list_lookup_insert_ne].
    apply list_lookup_insert_eq. rewrite Hlen. by eapply lookup_lt_Some. }
  eexists _, st'. split; [done|]. split; [done|]. split; [done|]. split; [|split; [|done]].
  - split; try apply Hok; [apply Hk| |].
    + intros addr' v. simpl. destruct other; [intros [[<- <-]|[_ Hl]]%lookup_insert_Some|intros [_ Hl]%lookup_delete_Some];
        [|by eapply (sk_vec _ _ Hok)..]. split; [congruence|]. intros p a Hpa. destruct (decide (p = p0)) as [->|]; [congruence|].
      apply Hv. by rewrite <- Hne.
    + intros p a addr' Hp. simpl. rewrite Hs. unfold without. destruct (decide (addr = addr')) as [<-|Hna].
      * destruct (decide (p = p0)) as [->|Hpp].
        -- replace a with a0 by congruence. rewrite decide_True, lookup_delete_eq by done. split; [by intros [? ?]|].
           destruct other; [rewrite lookup_insert_eq|rewrite lookup_delete_eq]; intros (v & [= <-] & ?); congruence.
        -- rewrite decide_False by (intros ->; apply Hpp; by eapply NoDup_lookup). rewrite (sk_recorded _ _ Hok p a addr Hp), Ev.
           destruct other; [rewrite lookup_insert_eq|rewrite lookup_delete_eq].
           ++ split; intros (v & [= <-] & Hpa); eexists; (split; [done|]); [by rewrite Hne|by rewrite Hne in Hpa].
           ++ split; [|by intros (? & ? & _)]. intros (v & [= <-] & Hpa). assert (false = true) as [=]. apply Hoth. by exists p, a.
      * destruct other; [rewrite lookup_insert_ne by done|rewrite lookup_delete_ne by done];
          rewrite <- (sk_recorded _ _ Hok p a addr' Hp); case_decide; by rewrite ?lookup_delete_ne.
  - rewrite Hs. unfold without. rewrite decide_True by done. apply lookup_delete_eq.
Qed.

Lemma wake_each_ok c bufs done_ st : ports_ok n now (self c) ins st →
  (∀ a, Some a ∈ bufs → a ∈ ins ∧ (a ∉ done_ → stalls_of st a ≠ ∅)) →
  ∃ done' st', wake_each now c st bufs done_ = Ok (done', st') ∧ kept n now (self c) ins st st' ∧
    ((∃ a, Some a ∈ bufs ∧ a ∉ done_) → alerted now (self c) st') ∧
    (∀ a, Some a ∈ bufs → a ∉ done_ → stalls_of st' a = ∅) ∧
    (∀ a, Some a ∉ bufs ∨ a ∈ done_ → stalls_of st' a = stalls_of st a).
Proof.
  revert done_ st. induction bufs as [|[a0|] bufs IH]; intros done_ st Hp Hb.
  - exists done_, st. split; [done|]. split; [by apply kept_refl|]. split; [intros (a & Ha & _); by apply not_elem_of_nil in Ha|].
    split; [|done]. intros a Ha. by apply not_elem_of_nil in Ha.
  - cbn [wake_each]. case_bool_decide as Hd.
    + destruct (IH done_ st Hp) as (d' & st' & -> & Hk & Hal & Hw & Hn). { intros a Ha. apply Hb. by right. }
      exists d', st'. split; [done|]. split; [done|].
      assert (∀ a, Some a ∈ Some a0 :: bufs → a ∉ done_ → Some a ∈ bufs) as Hin by (intros a [[= ->]|?]%elem_of_cons ?; done).
      split; [intros (a & ? & ?); apply Hal; exists a; split; [by apply Hin|done]|].
      split; [intros a Ha Hna; apply Hw; [by apply Hin|done]|]. intros a [Ha|Ha]; apply Hn; [left; set_solver|by right].
    + destruct (Hb a0) as [Hin0 Hne0]; [left|].
      destruct (reanalyzeAll_ok n now (self c) ins st a0 Hp Hin0 (Hne0 Hd)) as (st1 & st2 & -> & E2 & Hk2 & Hal2 & Hs2).
      cbn [rbind]. rewrite E2. cbn [rbind].
      destruct (IH (a0 :: done_) st2 (kp_ports _ _ _ _ _ _ Hk2)) as (d' & st' & -> & Hk & Hal & Hw & Hn).
      { intros a Ha. destruct (Hb a) as [? Hne]; [by right|]. split; [done|]. rewrite not_elem_of_cons. intros [? ?].
        rewrite Hs2, decide_False by done. auto. }
      exists d', st'. split; [done|]. split; [by eapply kept_trans|]. split; [intros _; by apply Hk|]. split.
      * intros a Ha Hna. destruct (decide (a = a0)) as [->|Hne].
        -- rewrite Hn by (right; left). by rewrite Hs2, decide_True.
        -- apply Hw; [by apply elem_of_cons in Ha as [[= ->]|?]|]. rewrite not_elem_of_cons. done.
      * intros a Ha. assert (a ≠ a0) by (intros ->; destruct Ha as [Ha|Ha]; [apply Ha; left|done]).
        rewrite Hn, Hs2, decide_False; [done..|]. destruct Ha as [Ha|Ha]; [left|right; by right]. intros ?. apply Ha. by right.
  - cbn [wake_each]. destruct (IH done_ st Hp) as (d' & st' & -> & Hk & Hal & Hw & Hn). { intros a Ha. apply Hb. by right. }
    exists d', st'. split; [done|]. split; [done|].
    assert (∀ a, Some a ∈ None :: bufs → Some a ∈ bufs) as Hin by (intros a [?|?]%elem_of_cons; done).
    split; [intros (a & ? & ?); apply Hal; exists a; split; [by apply Hin|done]|].
    split; [intros a Ha Hna; apply Hw; [by apply Hin|done]|]. intros a [Ha|Ha]; apply Hn; [left; set_solver|by right].
Qed.

Lemma waiting_lists_spec c st a : stalls_ok c st → Some a ∈ waiting_lists c ↔ a ∈ ins ∧ stalls_of st a ≠ ∅.
Proof.
  intros Hok. unfold waiting_lists. rewrite elem_of_concat. split.
  - intros (l & (addr & -> & Ha)%list_elem_of_fmap & Hin). apply elem_of_keys in Ha as [vec Ev]. rewrite Ev in Hin. simpl in Hin.
    apply list_elem_of_lookup in Hin as [p Hp]. destruct (sk_vec _ _ Hok addr vec Ev) as [_ Hv]. pose proof (Hv p a Hp) as Hpa.
    split; [by eapply list_elem_of_lookup_2|]. intros E. destruct (proj2 (sk_recorded _ _ Hok p a addr Hpa)) as [lt Hl]; [by exists vec|].
    by rewrite E, lookup_empty in Hl.
  - intros ([p Hp]%list_elem_of_lookup & (addr & lt & Hl)%map_choose).
    destruct (proj1 (sk_recorded _ _ Hok p a addr Hp)) as (vec & Ev & Hpa); [by rewrite Hl|].
    exists vec. split; [|by eapply list_elem_of_lookup_2]. apply list_elem_of_fmap. exists addr. rewrite Ev. split; [done|].
    apply elem_of_keys. by rewrite Ev.
Qed.

Lemma wakeUpAll_ok c st : stalls_ok c st →
  ∃ st', wakeUpAllBuffers now c st = Ok (with_waiting c ∅, st') ∧ kept n now (self c) ins st st' ∧ stalls_ok (with_waiting c ∅) st' ∧
    ((∃ a, a ∈ ins ∧ stalls_of st a ≠ ∅) → alerted now (self c) st').
Proof.
  intros Hok. unfold wakeUpAllBuffers.
  destruct (wake_each_ok c (waiting_lists c) [] st) as (d & st' & -> & Hk & Hal & Hw & Hn); [apply Hok| |].
  { intros a Ha%(waiting_lists_spec c st a Hok). naive_solver. }
  cbn [rbind]. exists st'. split; [done|]. split; [done|]. split.
  - split; try apply Hok; [apply Hk|intros addr vec; simpl; by rewrite lookup_empty|].
    intros p a addr Hp. simpl. assert (stalls_of st' a = ∅) as ->.
    { destruct (decide (stalls_of st a = ∅)) as [E|E].
      - rewrite Hn; [done|left]. by intros [_ ?]%(waiting_lists_spec c st a Hok).
      - apply Hw; [|apply not_elem_of_nil]. apply (waiting_lists_spec c st a Hok). split; [by eapply list_elem_of_lookup_2|done]. }
    rewrite !lookup_empty. split; [by intros [? ?]|by intros (? & ? & _)].
  - intros (a & Ha & Hne). apply Hal. exists a. split; [by apply (waiting_lists_spec c st a Hok)|apply not_elem_of_nil].
Qed.

(** ** Runs of a wake-up handler *)

(** The handler turns to a port, stalls the message at its head, and wakes one port,
    the lower ports or all ports for an address, or all for all addresses. *)
Inductive act := AtPort (p : nat) | Stall (addr : Z) | WakeOne (p : nat) (addr : Z) | WakeLower (addr : Z) | WakeAddr (addr : Z) | WakeAll.

Definition at_port c p : Stalls.t :=
  Stalls.mk (self c) (m_in_ports c) (Z.of_nat p) (m_waiting_buffers c) (m_is_blocking c) (m_block_map c).

Definition do_act c st (x : act) : res (Stalls.t * Store.t A) :=
  match x with
  | AtPort p => Ok (at_port c p, st)
  | Stall addr => let* a := vget ins (m_cur_in_port c) in stall_and_wait now c st a addr
  | WakeOne p addr => let* a := vget ins (Z.of_nat p) in wakeUpBuffer now c st (Some a) addr
  | WakeLower addr => wakeUpBuffers now c st addr
  | WakeAddr addr => wakeUpAllBuffers_addr now c st addr
  | WakeAll => wakeUpAllBuffers now c st
  end.

Definition legal_act c st (x : act) : Prop :=
  match x with
  | AtPort p | WakeOne p _ => (p < length ins)%nat
  | Stall _ => ∀ a b, ins !! Z.to_nat (m_cur_in_port c) = Some a → buffers st !! a = Some b → can_dequeue now b
  | WakeLower addr => only_lower c addr
  | WakeAddr _ | WakeAll => True
  end.

Definition acts c st (xs : list act) : res (Stalls.t * Store.t A) :=
  fold_res (λ x s, do_act s.1 s.2 x) xs (c, st).

Fixpoint legal_acts c st (xs : list act) : Prop :=
  match xs with
  | [] => True
  | x :: xs => legal_act c st x ∧ ∀ c' st', do_act c st x = Ok (c', st') → legal_acts c' st' xs
  end.

Lemma do_act_ok c st x : stalls_ok c st → legal_act c st x →
  ∃ c' st', do_act c st x = Ok (c', st') ∧ kept n now (self c) ins st st' ∧ self c' = self c ∧ stalls_ok c' st'.
Proof.
  intros Hok Hl. pose proof (sk_count _ _ Hok) as [Hc Hmax]. pose proof (sk_cur _ _ Hok) as Hcur.
  destruct x as [p|addr|p addr|addr|addr|]; simpl in Hl |- *.
  - eexists _, st. split; [done|]. split; [apply kept_refl, Hok|]. split; [done|]. split; try apply Hok. simpl. lia.
  - destruct (vget_inbounds ins (m_cur_in_port c) ltac:(lia)) as (a & -> & Ea). cbn [rbind].
    destruct (pt_buf _ _ _ _ _ (sk_ports _ _ Hok) a) as (b & Eb & _); [by eapply list_elem_of_lookup_2|].
    by apply (stall_and_wait_ok c st addr a b Hok Ea Eb), Hl with a.
  - destruct (vget_inbounds ins (Z.of_nat p) ltac:(lia)) as (a & -> & Ea). cbn [rbind]. rewrite Nat2Z.id in Ea.
    destruct (wakeUpBuffer_ok c st addr p a Hok Ea) as (c' & st' & -> & Hk & Hs & Hok' & _). by exists c', st'.
  - destruct (wakeUpBuffers_ok c st addr Hok Hl) as (st' & -> & Hk & Hok' & _). by eexists _, st'.
  - destruct (wakeUpAll_addr_ok c st addr Hok) as (st' & -> & Hk & Hok' & _). by eexists _, st'.
  - destruct (wakeUpAll_ok c st Hok) as (st' & -> & Hk & Hok' & _). by eexists _, st'.
Qed.

Lemma acts_ok c st xs : stalls_ok c st → legal_acts c st xs →
  ∃ c' st', acts c st xs = Ok (c', st') ∧ kept n now (self c) ins st st' ∧ stalls_ok c' st'.
Proof.
  revert c st. induction xs as [|x xs IH]; intros c st Hok Hl; [exists c, st; split; [done|]; split; [apply kept_refl, Hok|done]|].
  destruct Hl as [Hx Hl]. destruct (do_act_ok c st x Hok Hx) as (c1 & st1 & E & Hk & Hs & Hok1).
  destruct (IH c1 st1 Hok1 (Hl _ _ E)) as (c' & st' & E' & Hk' & Hok'). exists c', st'. unfold acts. simpl. rewrite E. split; [done|].
  rewrite Hs in Hk'. split; [by eapply kept_trans|done].
Qed.


End Controller.

(** ** Two ports *)

Section TwoPorts.
Import Message MessageBuffer Store Stalls.

Definition port (ms : list (Message.t nat)) : MessageBuffer.t nat :=
  MessageBuffer.mk (mkConfig 0 0 true disabled false 0) (mkQueue ms ∅ ∅ 0) (mkCycle 0 0 0 0 0 0 0 1) (mkOrder 0 0 false)
    (mkStats 0 0 0 0 0) (mkWiring true None 0 0 0).
Definition two_ports : Store.t nat :=
  Store.mk (<[0%nat := port [Message.new 0 0 7%nat]]> {[1%nat := port [Message.new 0 0 8%nat]]})
    (<[0%nat := 10%nat]> {[1%nat := 10%nat]}) {[10%nat := Consumer.new (Clocked.new 500)]} ∅ (λ _, (0, 0, 0)).
Definition two_port_controller : Stalls.t := Stalls.mk 10 2 0 ∅ false ∅.

Lemma two_ports_ok : stalls_ok 1 0 [0%nat; 1%nat] two_port_controller two_ports.
Proof.
  assert (∀ x, port_ok 1 0 (port [Message.new 0 0 x])) as Hport.
  { intros x. split; [split; simpl; try done; try lia|done|intros addr lt; simpl; by rewrite lookup_empty].
    intros [|i] m m' Hi _ E; [lia|done]. }
  split.
  - split.
    + intros a [->| ->%list_elem_of_singleton]%elem_of_cons; eexists; (split; [done|]); (split; [apply Hport|done]).
    + eexists. split; [done|]. split; [apply armed_new; lia|]. split; [simpl; lia|by exists 0].
  - done.
  - simpl. lia.
  - repeat (constructor; [set_solver|]). constructor.
  - intros addr vec. simpl. by rewrite lookup_empty.
  - intros p a addr Hp. simpl. rewrite lookup_empty. split; [|by intros (? & ? & _)].
    assert (stalls_of two_ports a = ∅) as ->; [|rewrite lookup_empty; by intros [? ?]].
    destruct p as [|[|p]]; [..|done]; by injection Hp as <-.
Qed.


(** [wakeUpBuffers] forgets a port that does not rank below the current one: its
    message stays stalled, and no later wake-up of the address finds it. *)
Lemma lower_wakeup_forgets :
  (let* (c, st) := acts 0 [0%nat; 1%nat] two_port_controller two_ports [AtPort 1; Stall 64; WakeLower 64; WakeAddr 64; WakeAll] in
   Ok (bool_decide (m_waiting_buffers c = ∅), stalls_of st 1 !! 64 ≫= head, contents_of st 1)) =
  Ok (true, Some (Message.new 0 0 8%nat), [8%nat]).
Proof. vm_compute. reflexivity. Qed.

End TwoPorts.
