(* ===== verification/DownstreamSpec.v ===== *)
(** The machine of an address: the maps that a controller makes of the ranges of its
    downstream machines give each address to the one machine of a type that has it,
    as the map of the network does. *)

From stdpp Require Import prelude list gmap fin_sets sorting relations.
From Stdlib Require Import ZArith Lia.
From S2P Require Import Prelude Bits AddrRange AddrRangeSpec RangeMap RangeMapSpec NetDest NetDestSpec Heap Clocking MessageBuffer Routing Controller.

Open Scope Z_scope.

Import AddrRangeMap Downstream.

Section Maps.
Context (N : Z) {R : Type} `{MachineTypes R} (rs : R) `{!MachineLaws N rs}.
Implicit Types (maps : gmap Z (AddrRangeMap.t MachineID.t)) (mid : MachineID.t) (r : AddrRange.t).
Implicit Types (s : Downstream.t R) (l ps : list (AddrRange.t * MachineID.t)) (p q : AddrRange.t * MachineID.t).

Local Abbreviation kind p := (MachineID.type p.2).

(** The ranges of all machines, each with its machine. *)
Definition ranges_of (downs : list (MachineID.t * list AddrRange.t)) : list (AddrRange.t * MachineID.t) :=
  concat ((λ c : MachineID.t * list AddrRange.t, (λ r, (r, c.1)) <$> c.2) <$> downs).

Definition of_type (ty : Z) l : list (AddrRange.t * MachineID.t) := filter (λ p, kind p = ty) l.

(** Two ranges of machines of one type can be compared; and they do not clash. *)
Definition comparable_types p q : Prop := kind p = kind q → comparable p.1 q.1.
Definition separate p q : Prop := kind p = kind q → clash p.1 q.1 = false.
Definition apart l : Prop := StronglySorted separate l.
Definition usable_ranges l : Prop := Forall (λ p, usable p.1) l ∧ ∀ p q, p ∈ l → q ∈ l → comparable_types p q.

Lemma clash_comm r r' : clash r r' = clash r' r.
Proof. unfold clash. rewrite (Z.eqb_sym (AddrRange.intlvMatch r)). by do 4 case_bool_decide. Qed.

Lemma elem_of_type ty l p : p ∈ of_type ty l ↔ p ∈ l ∧ kind p = ty.
Proof. unfold of_type. rewrite list_elem_of_filter. tauto. Qed.

(** ** What the maps hold *)

Definition map_of maps (ty : Z) : AddrRangeMap.t MachineID.t := default AddrRangeMap.new (maps !! ty).
Definition maps_ok maps l : Prop :=
  ∀ ty, map_ok cache_size (map_of maps ty) ∧ holds (map_of maps ty) (of_type ty l).

Lemma cache_bound : 0 ≤ cache_size < 2 ^ 31.
Proof. unfold cache_size. lia. Qed.

Lemma map_of_insert maps ty ty' m : map_of (<[ty := m]> maps) ty' = if decide (ty = ty') then m else map_of maps ty'.
Proof. unfold map_of. case_decide; simplify_map_eq; done. Qed.

Lemma maps_empty : maps_ok ∅ [].
Proof. intros ty. unfold map_of. rewrite lookup_empty. apply new_map_ok, cache_bound. Qed.

Lemma maps_search maps l ty m : maps_ok maps l → map_ok cache_size m → tree m = tree (map_of maps ty) → maps_ok (<[ty := m]> maps) l.
Proof.
  intros Hl Hm Ht ty'. rewrite map_of_insert. case_decide as E; [|apply Hl]. subst ty'.
  split; [done|]. unfold holds. rewrite Ht. apply Hl.
Qed.

Lemma clashes_type r ty l : clashes r (of_type ty l) = false ↔ ∀ p, p ∈ l → kind p = ty → clash r p.1 = false.
Proof.
  unfold clashes. rewrite <- not_true_iff_false, existsb_exists. split.
  - intros Hn p Hp Hk. apply not_true_iff_false. intros Hc. apply Hn. exists p. by rewrite <- list_elem_of_In, elem_of_type.
  - intros Hc (p & Hp & E). apply list_elem_of_In, elem_of_type in Hp as [Hp Hk]. by rewrite (Hc p Hp Hk) in E.
Qed.

Lemma insert_ok maps l mid r : maps_ok maps l → usable r → (∀ p, p ∈ l → kind p = MachineID.type mid → comparable r p.1) →
  clashes r (of_type (MachineID.type mid) l) = false →
  ∃ it m, AddrRangeMap.insert cache_size (map_of maps (MachineID.type mid)) r mid = Ok (it, m) ∧
    maps_ok (<[MachineID.type mid := m]> maps) ((r, mid) :: l).
Proof.
  intros Hl Hr Hc Hcl. set (ty := MachineID.type mid) in *. destruct (Hl ty) as [Hm Hh].
  destruct (do_op_ok cache_size cache_bound _ _ (Insert r mid) Hm Hh) as (x & m & E & Hm' & _ & Hh').
  { split; [done|]. intros p [Hp Hk]%elem_of_type. by apply Hc. }
  simpl in E, Hh'. rewrite Hcl in Hh'. destruct (AddrRangeMap.insert _ _ _ _) as [[it m1]|]; [|done]. simpl in E. injection E as _ ->.
  exists it, m. split; [done|]. intros ty'. rewrite map_of_insert. unfold of_type. rewrite filter_cons. cbn [snd]. fold ty.
  destruct (decide (ty = ty')) as [<-|]; [by split|]. apply Hl.
Qed.

Lemma add_range_ok maps l mid r : maps_ok maps l → usable r → (∀ p, p ∈ l → kind p = MachineID.type mid → comparable r p.1) →
  if clashes r (of_type (MachineID.type mid) l) then add_range mid r maps = Err EFatal
  else ∃ maps', add_range mid r maps = Ok maps' ∧ maps_ok maps' ((r, mid) :: l).
Proof.
  intros Hl Hr Hc. unfold add_range. set (ty := MachineID.type mid) in *. destruct (Hl ty) as [Hm Hh].
  assert (∀ p, p ∈ of_type ty l → comparable r p.1) as Hct by (intros p [Hp Hk]%elem_of_type; by apply Hc).
  destruct (intersects_ok cache_size cache_bound (map_of maps ty) r Hm Hr) as (it & m & E & Hm' & Ht & Hf).
  { intros e He. by apply Hct, (holds_elem _ _ _ Hh). }
  pose proof (clashes_found _ _ r it Hh Hf) as Hcl. unfold map_of in E, Hcl.
  destruct (maps !! ty) as [m0|] eqn:Em; simpl in E.
  - rewrite E. cbn [rbind]. rewrite Hcl. destruct it as [i|]; [by rewrite bool_decide_true|]. rewrite bool_decide_false in Hcl |- * by (by intros [? ?]).
    rewrite bool_decide_true by done. cbn [require rbind].
    destruct (insert_ok (<[ty := m]> maps) l mid r) as (it' & m' & Ei & Hok); try done.
    { by apply maps_search. }
    fold ty in Ei, Hok. unfold map_of in Ei. rewrite Ei. cbn [rbind]. simpl. by eexists.
  - assert (of_type ty l = []) as Hn.
    { unfold holds, map_of in Hh. rewrite Em in Hh. simpl in Hh. by apply Permutation_nil_l in Hh. }
    rewrite Hn. simpl. cbn [rbind]. destruct (insert_ok maps l mid r) as (it' & m' & Ei & Hok); try done.
    { fold ty. by rewrite Hn. }
    fold ty in Ei, Hok. unfold map_of in Ei. rewrite Ei. cbn [rbind]. by eexists.
Qed.

(** ** [init] *)

Lemma apart_cons p l : apart (p :: l) ↔ clashes p.1 (of_type (kind p) l) = false ∧ apart l.
Proof.
  rewrite clashes_type. unfold apart, separate. split.
  - intros [Hl Hp]%StronglySorted_inv. rewrite Forall_forall in Hp. split; [|done]. intros q Hq E. by apply Hp.
  - intros [Hp Hl]. constructor; [done|]. rewrite Forall_forall. auto.
Qed.

Lemma apart_app_r l ps : apart (ps ++ l) → apart l.
Proof. unfold apart. induction ps as [|p ps IH]; [done|]. intros [? _]%StronglySorted_inv. by apply IH. Qed.

Lemma apart_reverse l : apart (reverse l) ↔ apart l.
Proof.
  assert (∀ l, apart l → apart (reverse l)) as Hr.
  { clear l. intros l Hl. apply StronglySorted_reverse in Hl.
    revert Hl. induction 1 as [|p l2 _ IH Hp]; constructor; [done|]. eapply Forall_impl; [exact Hp|].
    intros q Hq E. rewrite clash_comm. by apply Hq. }
  split; [|apply Hr]. intros Hl%Hr. by rewrite reverse_involutive in Hl.
Qed.

Definition spread mid (l : list AddrRange.t) : list (AddrRange.t * MachineID.t) := (λ r, (r, mid)) <$> l.

Lemma reverse_step p ps l : reverse (p :: ps) ++ l = reverse ps ++ p :: l.
Proof. by rewrite reverse_cons, <- app_assoc. Qed.

Lemma add_ranges_ok mid (xs : list AddrRange.t) maps l : maps_ok maps l → apart l → usable_ranges (reverse (spread mid xs) ++ l) →
  (∃ maps', fold_res (add_range mid) xs maps = Ok maps' ∧ maps_ok maps' (reverse (spread mid xs) ++ l) ∧ apart (reverse (spread mid xs) ++ l)) ∨
  (fold_res (add_range mid) xs maps = Err EFatal ∧ ¬ apart (reverse (spread mid xs) ++ l)).
Proof.
  revert maps l. induction xs as [|r xs IH]; intros maps l Hm Ha Hu; [left; by exists maps|].
  unfold spread in *. rewrite fmap_cons, reverse_step in *. simpl fold_res. pose proof Hu as [Hus Hco].
  assert (∀ p, p ∈ (r, mid) :: l → p ∈ reverse ((λ r, (r, mid)) <$> xs) ++ (r, mid) :: l) as Hin.
  { intros p Hp. apply elem_of_app. by right. }
  pose proof (add_range_ok maps l mid r Hm) as Hadd. destruct (clashes r (of_type (MachineID.type mid) l)) eqn:Ec.
  - right. rewrite Hadd; [|rewrite Forall_forall in Hus; by apply (Hus (r, mid)), Hin; left|].
    + split; [done|]. intros Hap%apart_app_r. apply apart_cons in Hap as [Hc _]. simpl in Hc. congruence.
    + intros p Hp E. apply (Hco (r, mid) p); [by apply Hin; left|by apply Hin; right|done].
  - destruct Hadd as (maps' & -> & Hm').
    + rewrite Forall_forall in Hus. by apply (Hus (r, mid)), Hin; left.
    + intros p Hp E. apply (Hco (r, mid) p); [by apply Hin; left|by apply Hin; right|done].
    + cbn [rbind]. apply IH; [done| |done]. by apply apart_cons.
Qed.

Lemma usable_app_r ps l : usable_ranges (ps ++ l) → usable_ranges l.
Proof.
  intros [Hf Hc]. apply Forall_app in Hf as [_ Hf]. split; [done|]. intros p q Hp Hq. apply Hc; apply elem_of_app; by right.
Qed.

Lemma add_bits mid (X : list MachineID.t) (d d1 d' : NetDest.t R) :
  (∀ m, bit d1 m = if decide (m = mid) then true else bit d m) → (∀ m, bit d' m = bool_decide (m ∈ X) || bit d1 m) →
  ∀ m, bit d' m = bool_decide (m ∈ mid :: X) || bit d m.
Proof.
  intros H1 H2 m. rewrite H2, H1, (bool_decide_ext _ _ (elem_of_cons X m mid)), bool_decide_or.
  destruct (decide (m = mid)); [rewrite (bool_decide_true (m = mid)) by done|rewrite (bool_decide_false (m = mid)) by done]; simpl; [by rewrite orb_true_r|done].
Qed.

Lemma fold_downstream mid (xs : list AddrRange.t) downs maps (dest : NetDest.t R) :
  fold_res (add_downstream N) ((mid, xs) :: downs) (maps, dest) =
  (let* maps := fold_res (add_range mid) xs maps in
   let* dest := NetDest.add N dest mid in fold_res (add_downstream N) downs (maps, dest)).
Proof.
  simpl fold_res at 1. unfold add_downstream at 1. simpl. destruct (fold_res (add_range mid) xs maps); [|done]. simpl.
  by destruct (NetDest.add N dest mid).
Qed.

Lemma add_downstreams_ok downs maps dest l : maps_ok maps l → apart l → usable_ranges (reverse (ranges_of downs) ++ l) →
  valid rs dest → Forall (machine rs) downs.*1 →
  (∃ maps' dest', fold_res (add_downstream N) downs (maps, dest) = Ok (maps', dest') ∧
     maps_ok maps' (reverse (ranges_of downs) ++ l) ∧ apart (reverse (ranges_of downs) ++ l) ∧ valid rs dest' ∧
     ∀ m, bit dest' m = bool_decide (m ∈ downs.*1) || bit dest m) ∨
  (fold_res (add_downstream N) downs (maps, dest) = Err EFatal ∧ ¬ apart (reverse (ranges_of downs) ++ l)).
Proof.
  revert maps dest l. induction downs as [|[mid xs] downs IH]; intros maps dest l Hm Ha Hu Hd Hmach.
  { left. exists maps, dest. by repeat (split; [done|]). }
  unfold ranges_of in *. rewrite fmap_cons in *. simpl concat in *. fold (ranges_of downs) in *. fold (spread mid xs) in *.
  rewrite reverse_app, <- app_assoc in *. apply Forall_cons in Hmach as [Hmid Hmach]. rewrite fold_downstream.
  destruct (add_ranges_ok mid xs maps l Hm Ha) as [(maps1 & -> & Hm1 & Ha1)|[-> Hn]]; [by eapply usable_app_r| |].
  - cbn [rbind]. destruct (add_ok N rs dest mid Hd Hmid) as (dest1 & -> & Hd1 & Hb1). cbn [rbind].
    destruct (IH maps1 dest1 _ Hm1 Ha1 Hu Hd1 Hmach) as [(maps' & dest' & E & Hm' & Ha' & Hd' & Hb')|]; [left|by right].
    exists maps', dest'. do 4 (split; [done|]). by eapply add_bits.
  - right. split; [done|]. intros Hap. by apply Hn, (apart_app_r _ (reverse (ranges_of downs))).
Qed.

Lemma add_upstreams_ok ups dest : valid rs dest → Forall (machine rs) ups →
  ∃ dest', fold_res (λ mid up, NetDest.add N up mid) ups dest = Ok dest' ∧ valid rs dest' ∧
    ∀ m, bit dest' m = bool_decide (m ∈ ups) || bit dest m.
Proof.
  revert dest. induction ups as [|mid ups IH]; intros dest Hd Hm; [by exists dest|]. apply Forall_cons in Hm as [Hmid Hm]. simpl fold_res.
  destruct (add_ok N rs dest mid Hd Hmid) as (dest1 & -> & Hd1 & Hb1). cbn [rbind]. destruct (IH dest1 Hd1 Hm) as (dest' & -> & Hd' & Hb').
  exists dest'. do 2 (split; [done|]). by eapply add_bits.
Qed.

(** ** Searches *)

Abbreviation address addr := (0 ≤ addr < 2 ^ 64 - 1).

(** What a search of the machines [tys] gives. *)
Definition search_result l (addr : Z) (tys : Z → Prop) (found : option MachineID.t) : Prop :=
  match found with
  | Some mid => tys (MachineID.type mid) ∧ ∃ r, (r, mid) ∈ l ∧ inside r addr
  | None => ∀ p, p ∈ l → tys (kind p) → ¬ inside p.1 addr
  end.

Lemma search_type_ok s l addr ty : maps_ok (downstreamAddrMap s) l → address addr →
  ∃ found s', search_type s addr ty = Ok (found, s') ∧ maps_ok (downstreamAddrMap s') l ∧ search_result l addr (λ t, t = ty) found.
Proof.
  intros Hl Ha. unfold search_type. destruct (Hl ty) as [Hm Hh].
  destruct (downstreamAddrMap s !! ty) as [m|] eqn:Em; unfold map_of in Hm, Hh; rewrite Em in Hm, Hh; simpl in Hm, Hh.
  - destruct (contains_ok cache_size cache_bound m addr Hm Ha) as (it & m' & -> & Hm' & Ht & Hf). cbn [rbind].
    assert (maps_ok (<[ty := m']> (downstreamAddrMap s)) l) as Hl'.
    { apply maps_search; [done|done|]. unfold map_of. by rewrite Em. }
    destruct it as [i|]; simpl in Hf.
    + destruct Hf as (e & He & <- & Hi). pose proof (fetch_ok cache_size m' e Hm') as Hd. rewrite Ht in Hd. specialize (Hd He). unfold fetch in Hd.
      destruct (deref m' (Some e.1)) as [x|] eqn:Ed; [|done]. simpl in Hd. injection Hd as ->. cbn [rbind].
      exists (Some e.2.2). eexists. split; [done|]. split; [done|].
      apply (holds_elem _ _ _ Hh), elem_of_type in He as [He Hk]. split; [done|]. exists e.2.1. by destruct e as [? [? ?]].
    + exists None. eexists. split; [done|]. split; [done|]. intros p Hp Hk Hi.
      destruct (elem_holds _ _ p Hh) as (e & He & <-); [by apply elem_of_type|]. by apply (Hf e).
  - exists None, s. split; [done|]. split; [done|]. intros p Hp Hk _.
    destruct (elem_holds _ _ p Hh) as (e & He & _); [by apply elem_of_type|]. by apply not_elem_of_nil in He.
Qed.

Lemma search_types_ok order s l addr : maps_ok (downstreamAddrMap s) l → address addr →
  ∃ found s', search_types s addr order = Ok (found, s') ∧ maps_ok (downstreamAddrMap s') l ∧ search_result l addr (.∈ order) found.
Proof.
  revert s. induction order as [|ty order IH]; intros s Hl Ha.
  { exists None, s. split; [done|]. split; [done|]. by intros p _ ?%not_elem_of_nil. }
  simpl. destruct (search_type_ok s l addr ty Hl Ha) as (found & s1 & -> & Hl1 & Hf). cbn [rbind]. destruct found as [mid|].
  - eexists _, _. split; [done|]. split; [done|]. destruct Hf as [<- Hr]. split; [left|done].
  - destruct (IH s1 Hl1 Ha) as (found & s' & -> & Hl' & Hf'). exists found, s'. do 2 (split; [done|]). destruct found as [mid|].
    + destruct Hf' as [? ?]. by split; [right|].
    + intros p Hp [Hk|Hk]%elem_of_cons; [by apply Hf|by apply Hf'].
Qed.

(** The machines an address is mapped to: of one type, or of all in some order. *)
Definition asked_types (order : list Z) (mtype ty : Z) : Prop := if mtype =? MachineType_NUM then ty ∈ order else ty = mtype.

Lemma mapAddress_ok order s l addr mtype : maps_ok (downstreamAddrMap s) l → address addr →
  (∃ mid s', mapAddressToDownstreamMachine order s addr mtype = Ok (mid, s') ∧ maps_ok (downstreamAddrMap s') l ∧
     search_result l addr (asked_types order mtype) (Some mid)) ∨
  (mapAddressToDownstreamMachine order s addr mtype = Err EFatal ∧ search_result l addr (asked_types order mtype) None).
Proof.
  intros Hl Ha. unfold mapAddressToDownstreamMachine, asked_types. destruct (mtype =? MachineType_NUM).
  - destruct (search_types_ok order s l addr Hl Ha) as ([mid|] & s' & -> & Hl' & Hf); [left; by exists mid, s'|by right].
  - destruct (search_type_ok s l addr mtype Hl Ha) as ([mid|] & s' & -> & Hl' & Hf); [left; by exists mid, s'|by right].
Qed.

(** No address has two machines of a type. *)
Lemma one_machine maps l p q addr : maps_ok maps l → p ∈ l → q ∈ l → kind p = kind q → inside p.1 addr → inside q.1 addr → p = q.
Proof.
  intros Hl Hp Hq Hk Hpi Hqi. destruct (Hl (kind p)) as [Hm Hh].
  destruct (elem_holds _ _ p Hh) as (e & He & <-); [by apply elem_of_type|].
  destruct (elem_holds _ _ q Hh) as (e' & He' & <-); [by apply elem_of_type|]. f_equal. by eapply owner_unique.
Qed.

(** ** The map of the network *)

(** [mid] has an address in one of its ranges. *)
Definition owns (downs : list (MachineID.t * list AddrRange.t)) (addr : Z) mid : Prop :=
  ∃ xs r, (mid, xs) ∈ downs ∧ r ∈ xs ∧ inside r addr.

Lemma elem_of_ranges downs r mid : (r, mid) ∈ ranges_of downs ↔ ∃ xs, (mid, xs) ∈ downs ∧ r ∈ xs.
Proof.
  unfold ranges_of. rewrite elem_of_concat. split.
  - intros (ps & ([m xs] & -> & Hc)%list_elem_of_fmap & Hp). apply list_elem_of_fmap in Hp as (r' & [= -> ->] & Hr). eauto.
  - intros (xs & Hc & Hr). eexists. split; [by apply list_elem_of_fmap; exists (mid, xs)|]. apply list_elem_of_fmap. by exists r.
Qed.

Lemma respondsTo_ok (xs : list AddrRange.t) addr : Forall usable xs →
  ∃ b, respondsTo xs addr = Ok b ∧ (b = true ↔ ∃ r, r ∈ xs ∧ inside r addr).
Proof.
  induction 1 as [|r xs Hr _ IH]; simpl.
  { exists false. split; [done|]. split; [done|]. by intros (? & ?%not_elem_of_nil & _). }
  destruct (contains_spec r addr) as (b & -> & Hb); [apply Hr|]. cbn [rbind]. destruct b.
  - exists true. split; [done|]. split; [|done]. intros _. exists r. split; [left|by apply Hb].
  - destruct IH as (b & -> & Hx). exists b. split; [done|]. rewrite Hx. split.
    + intros (r' & ? & ?). exists r'. by split; [right|].
    + intros (r' & [->|?]%elem_of_cons & Hi); [by apply Hb in Hi|eauto].
Qed.

Lemma elem_of_nodes downs ty node : (ty, node) ∈ addr_map_nodes downs ↔
  (MachineID.mk ty (id node), ranges node) ∈ downs ∧ ranges node ≠ [].
Proof.
  unfold addr_map_nodes. rewrite list_elem_of_omap. split.
  - intros ([[t k] xs] & Hc & E). simpl in E. case_bool_decide; [done|]. by injection E as <- <-.
  - intros [Hc Hn]. eexists. split; [exact Hc|]. simpl. rewrite bool_decide_false by done. by destruct node.
Qed.

Lemma addressToNodeID_ok (table : list (Z * AddrMapNode)) addr ty : (∀ e, e ∈ table → Forall usable (ranges e.2)) →
  ∃ k, addressToNodeID rs table addr ty = Ok k ∧
    ((∃ node, (ty, node) ∈ table ∧ id node = k ∧ ∃ r, r ∈ ranges node ∧ inside r addr) ∨
     (k = MachineType_base_count rs ty ∧ ∀ node, (ty, node) ∈ table → ∀ r, r ∈ ranges node → ¬ inside r addr)).
Proof.
  intros Hu. induction table as [|[t node] table IH].
  { eexists. split; [done|]. right. split; [done|]. by intros ? ?%not_elem_of_nil. }
  destruct IH as (k & E & Hk); [intros e He; apply Hu; by right|]. simpl.
  destruct (Z.eqb_spec t ty) as [->|Hne].
  - destruct (respondsTo_ok (ranges node) addr) as (b & -> & Hb); [apply (Hu (ty, node)); left|]. cbn [rbind]. destruct b.
    + eexists. split; [done|]. left. exists node. split; [left|]. split; [done|]. by apply Hb.
    + exists k. split; [done|]. destruct Hk as [(n & Hn & Hx)|[-> Hx]]; [left; exists n; by split; [right|]|right]. split; [done|].
      intros n [[= ->]|Hn]%elem_of_cons r Hr Hi; [|by eapply Hx]. by assert (false = true) by (apply Hb; eauto).
  - exists k. split; [done|]. destruct Hk as [(n & Hn & Hx)|[-> Hx]]; [left; exists n; by split; [right|]|right]. split; [done|].
    intros n [[= -> ->]|Hn]%elem_of_cons; [done|by apply Hx].
Qed.

Lemma mapAddressToMachine_ok downs (table : list (Z * AddrMapNode)) addr ty : usable_ranges (ranges_of downs) → table ≡ₚ addr_map_nodes downs →
  ∃ mid, mapAddressToMachine rs table addr ty = Ok mid ∧ MachineID.type mid = ty ∧
    (owns downs addr mid ∨ MachineID.num mid = MachineType_base_count rs ty ∧ ∀ m, MachineID.type m = ty → ¬ owns downs addr m).
Proof.
  intros [Hu _] Ht. rewrite Forall_forall in Hu. unfold mapAddressToMachine.
  destruct (addressToNodeID_ok table addr ty) as (k & -> & Hk).
  { intros [t node] He. rewrite Ht, elem_of_nodes in He. apply Forall_forall. intros r Hr.
    apply (Hu (r, MachineID.mk t (id node))), elem_of_ranges. by exists (ranges node); split; [apply He|]. }
  eexists. split; [done|]. split; [done|]. destruct Hk as [(node & Hn & <- & r & Hr & Hi)|[-> Hn]].
  - left. rewrite Ht, elem_of_nodes in Hn. exists (ranges node), r. by destruct Hn.
  - right. split; [done|]. intros [t k] <- (xs & r & Hc & Hr & Hi). apply (Hn (mkNode k xs)) with r; [|done..].
    rewrite Ht, elem_of_nodes. split; [done|]. simpl. intros ->. by apply not_elem_of_nil in Hr.
Qed.

(** ** The machines of a controller *)

(** One search, which leaves other maps behind. *)
Definition lookup_step s s' : Prop :=
  ∃ order addr mtype mid, address addr ∧ mapAddressToDownstreamMachine order s addr mtype = Ok (mid, s').

Lemma lookups_ok l s s' : maps_ok (downstreamAddrMap s) l → rtc lookup_step s s' → maps_ok (downstreamAddrMap s') l.
Proof.
  intros Hl. induction 1 as [|s s1 s2 (order & addr & mtype & mid & Ha & E) _ IH]; [done|]. apply IH.
  destruct (mapAddress_ok order s l addr mtype Hl Ha) as [(mid' & s' & E' & Hl' & _)|[E' _]]; rewrite E in E'; by simplify_eq.
Qed.

Lemma members_fold (X : list MachineID.t) (d d' : NetDest.t R) : valid rs d' → (∀ m, bit d m = false) →
  (∀ m, bit d' m = bool_decide (m ∈ X) || bit d m) → members N d' = list_to_set X.
Proof.
  intros Hd Hn Hb. apply (members_bits N rs); [done|]. intros m. rewrite Hb, Hn, orb_false_r. apply bool_decide_ext. by rewrite elem_of_list_to_set.
Qed.

Lemma downstream_init_ok downs ups : Forall (machine rs) downs.*1 → Forall (machine rs) ups → usable_ranges (ranges_of downs) →
  (apart (ranges_of downs) ∧ ∃ s, init N rs downs ups = Ok s ∧ maps_ok (downstreamAddrMap s) (reverse (ranges_of downs)) ∧
     members N (downstreamDestinations s) = list_to_set downs.*1 ∧ members N (upstreamDestinations s) = list_to_set ups) ∨
  (¬ apart (ranges_of downs) ∧ init N rs downs ups = Err EFatal).
Proof.
  intros Hm Hu [Hr Hc]. unfold init. destruct (new_ok N rs) as (d & E & Hd & Hb). unfold NetDest.new in E.
  unfold NetDest.setRubySystem. rewrite E. cbn [rbind].
  destruct (add_downstreams_ok downs ∅ d [] maps_empty) as [(maps & down & -> & Hok & Hap & Hdown & Hbd)|[-> Hn]]; try done.
  - constructor.
  - rewrite app_nil_r. split; [by rewrite Forall_reverse|]. intros p q. rewrite !elem_of_reverse. apply Hc.
  - left. rewrite app_nil_r in Hok, Hap. split; [by apply apart_reverse|]. cbn [rbind].
    destruct (add_upstreams_ok ups d Hd Hu) as (up & -> & Hup & Hbu). cbn [rbind]. eexists. split; [done|]. simpl.
    split; [done|]. split; by eapply members_fold.
  - right. rewrite app_nil_r, apart_reverse in Hn. by split.
Qed.

Lemma search_owns downs addr (tys : Z → Prop) found : search_result (reverse (ranges_of downs)) addr tys found →
  match found with Some mid => tys (MachineID.type mid) ∧ owns downs addr mid | None => ∀ m, tys (MachineID.type m) → ¬ owns downs addr m end.
Proof.
  destruct found as [mid|]; simpl.
  - intros (Ht & r & Hr & Hi). rewrite elem_of_reverse, elem_of_ranges in Hr. destruct Hr as (xs & Hc & Hr). split; [done|]. by exists xs, r.
  - intros Hn m Ht (xs & r & Hc & Hr & Hi). apply (Hn (r, m)); [|done..]. rewrite elem_of_reverse, elem_of_ranges. by exists xs.
Qed.

Lemma owns_unique maps downs addr m m' : maps_ok maps (reverse (ranges_of downs)) → MachineID.type m = MachineID.type m' →
  owns downs addr m → owns downs addr m' → m = m'.
Proof.
  intros Hl Ht (xs & r & Hc & Hr & Hi) (xs' & r' & Hc' & Hr' & Hi').
  assert ((r, m) = (r', m')) as E; [|congruence].
  apply (one_machine maps _ (r, m) (r', m') addr Hl); try done; rewrite elem_of_reverse, elem_of_ranges; eauto.
Qed.


End Maps.

(** ** Two banks of a directory *)

Section Banks.

#[local] Existing Instance three_types.
#[local] Existing Instance three_types_laws.

(** Two machines of the second type with a bank each, one of the third with all. *)
Definition bank_machines : list (MachineID.t * list AddrRange.t) :=
  [(MachineID.mk 1 0, [bank 0]); (MachineID.mk 1 1, [bank 1]); (MachineID.mk 2 0, [AddrRange.new 0 65536; AddrRange.new 65536 65600])].

Lemma bank_ranges : usable_ranges (ranges_of bank_machines) ∧ apart (ranges_of bank_machines).
Proof.
  assert (∀ k, 0 ≤ k < 4 → usable (bank k)) as Hb by apply bank_usable.
  split; [split|].
  - unfold ranges_of. simpl. repeat (apply Forall_cons_2; [simpl; first [apply Hb; lia|apply plain_usable; lia]|]). apply Forall_nil_2.
  - vm_compute. intros p q Hp Hq.
    repeat (apply elem_of_cons in Hp as [->|Hp]); [..|by apply not_elem_of_nil in Hp];
      (repeat (apply elem_of_cons in Hq as [->|Hq]); [..|by apply not_elem_of_nil in Hq]); intros [=] _; simpl; auto.
  - unfold apart, ranges_of. simpl. repeat first [apply SSorted_nil|apply SSorted_cons|apply Forall_nil_2|apply Forall_cons_2].
    all: by intros E.
Qed.


End Banks.
