(* ===== verification/MemoryPort.v ===== *)
(** slicc_interface/AbstractController, the memory side: requests to the memory
    controller and its responses, with the retries of the timing protocol of ports. *)

From stdpp Require Import prelude list gmap.
From Stdlib Require Import ZArith Lia.
From S2P Require Import Prelude Bits NetDest DataBlocks Heap Clocking MessageBuffer Routing.

Open Scope Z_scope.

(** ** Messages to and from memory: protocol/RubySlicc_MemControl.sm *)

Inductive MemoryRequestType := MEMORY_READ | MEMORY_WB | MEMORY_DATA | MEMORY_ACK.

(** The fields that are set or read outside of the protocols. *)
Record MemoryMsg := mkMemory {
  m_addr : Z; m_Type : MemoryRequestType; m_Sender : MachineID.t; m_OriginalRequestorMachId : option MachineID.t;
  m_DataBlk : DataBlock.t; m_MessageSize : MessageSizeType; m_Len : Z }.

(** ** Packets, as far as controllers use them

    The commands that requests without flags have, their responses, and one response
    that is neither a read nor a write. *)
Inductive MemCmd := ReadReq | ReadResp | WriteReq | WriteResp | CleanSharedResp.

(** [senderState] is the state the controller pushed, the machine of the request. *)
Record MemPacket := mkPacket {
  getAddr : Z; getSize : Z; cmd : MemCmd; getPtr : list Z; senderState : option MachineID.t }.

Definition isResponse (p : MemPacket) : bool :=
  match cmd p with ReadResp | WriteResp | CleanSharedResp => true | _ => false end.
Definition isRead (p : MemPacket) : bool := match cmd p with ReadReq | ReadResp => true | _ => false end.
Definition isWrite (p : MemPacket) : bool := match cmd p with WriteReq | WriteResp => true | _ => false end.

Module MemoryPort.
Section MemoryPort.
Context `{HeapOps (Message.t MemoryMsg)}.

(** [self] is the controller as a consumer. *)
Record Config := mkConfig {
  self : nat; getMemReqQueue : option nat; getMemRespQueue : option nat; m_machineID : MachineID.t;
  getBlockSizeBytes : Z; getBlockSizeBits : Z; getRandomization : bool; getWarmupEnabled : bool }.

(** [mRetryRespEvent] is the time the event is scheduled for. *)
Record t := mk { m_waiting_mem_retry : bool; m_mem_ctrl_waiting_retry : bool; mRetryRespEvent : option Z }.
Implicit Types (g : Config) (s : t) (st : Store.t MemoryMsg) (now : Z) (pkt : MemPacket).

Definition new : t := mk false false None.

(** What the port is asked for. *)
Inductive Call := sendTimingReq (pkt : MemPacket) | sendFunctional (pkt : MemPacket) | sendRetryResp.

Definition request_size g (msg : MemoryMsg) : Z := if 0 <? m_Len msg then m_Len msg else getBlockSizeBytes g.

(** The packet of a request. The bytes of a read are not initialised. *)
Definition make_packet (garbage : Z) g (msg : MemoryMsg) : res MemPacket :=
  let req_size := request_size g msg in
  match m_Type msg with
  | MEMORY_WB =>
      let* offset := Address.getOffset (m_addr msg) (getBlockSizeBits g) in
      let* src := DataBlock.getData (m_DataBlk msg) (i32 offset) (i32 req_size) in
      let* data := Bytes.memcpy (replicate (Z.to_nat req_size) garbage) 0 src req_size in
      Ok (mkPacket (m_addr msg) req_size WriteReq data (Some (m_Sender msg)))
  | MEMORY_READ =>
      Ok (mkPacket (m_addr msg) req_size ReadReq (replicate (Z.to_nat req_size) garbage) (Some (m_Sender msg)))
  | _ => Err EPanic
  end.

(** The message of a response, made at the clock edge [edge]. [garbage] is the value
    of uninitialised memory. *)
Definition make_message (garbage : Z) g (edge : Z) pkt : res (Message.t MemoryMsg) :=
  let* blk := DataBlock.new garbage (getBlockSizeBytes g) in
  let* id := of_option EUndef (senderState pkt) in
  if isRead pkt then
    let* blk := DataBlock.setData blk (getPtr pkt) 0 (getBlockSizeBytes g) in
    Ok (Message.new edge garbage
          (mkMemory (getAddr pkt) MEMORY_READ (m_machineID g) (Some id) blk Response_Data 0))
  else if isWrite pkt then
    Ok (Message.new edge garbage
          (mkMemory (getAddr pkt) MEMORY_WB (m_machineID g) (Some id) blk Writeback_Control 0))
  else Err EPanic.

Definition recvTimingResp (garbage : Z) g now s st pkt : res (bool * t * Store.t MemoryMsg) :=
  let* _ := require (bool_decide (is_Some (getMemRespQueue g))) EPanic in
  let* _ := require (isResponse pkt) EPanic in
  let* (slot, st) := Store.areNSlotsAvailable st (getMemRespQueue g) 1 now in
  if negb slot then Ok (false, mk (m_waiting_mem_retry s) true (mRetryRespEvent s), st) else
  let* (edge, st) := Store.clockEdge now st (self g) in
  let* msg := make_message garbage g edge pkt in
  let* (edge, st) := Store.clockEdge now st (self g) in
  let* k := of_option EUndef (Store.consumers st !! self g) in
  let* st := Store.enqueue now st (getMemRespQueue g) msg edge (Clocked.cyclesToTicks (Consumer.em k) 1)
               (getRandomization g) (getWarmupEnabled g) in
  Ok (true, s, st).

(** [accepts] is the answer of [sendTimingReq], [functional] what the memory does to
    the packet of a functional access. *)
Definition serviceMemoryQueue (garbage : Z) g now s st (accepts : bool) (functional : MemPacket → MemPacket)
    : res (bool * t * Store.t MemoryMsg * list Call) :=
  let mem_queue := getMemReqQueue g in
  assert! bool_decide (is_Some mem_queue) in
  let* (ready, st) := (if m_waiting_mem_retry s then Ok (false, st)
                       else let* (edge, st) := Store.clockEdge now st (self g) in
                            Store.isReady now st mem_queue edge) in
  if negb ready then Ok (false, s, st, []) else
  let* mem_msg := Store.peekMsgPtr st mem_queue in
  let* pkt := make_packet garbage g (Message.payload mem_msg) in
  let pop st := let* (edge, st) := Store.clockEdge now st (self g) in
                let* (_, st) := Store.dequeue now st mem_queue edge in Ok st in
  if getWarmupEnabled g then
    let* st := pop st in
    let* st := Store.scheduleEvent now st (self g) 1 in
    let* (_, s, st) := recvTimingResp garbage g now s st (functional pkt) in
    Ok (true, s, st, [sendFunctional pkt])
  else if accepts then
    let* st := pop st in
    let* st := Store.scheduleEvent now st (self g) 1 in
    Ok (true, s, st, [sendTimingReq pkt])
  else
    let* st := Store.scheduleEvent now st (self g) 1 in
    Ok (true, mk true (m_mem_ctrl_waiting_retry s) (mRetryRespEvent s), st, [sendTimingReq pkt]).

(** [MemoryPort::recvReqRetry]. *)
Definition recvReqRetry (garbage : Z) g now s st (accepts : bool) (functional : MemPacket → MemPacket)
    : res (bool * t * Store.t MemoryMsg * list Call) :=
  serviceMemoryQueue garbage g now (mk false (m_mem_ctrl_waiting_retry s) (mRetryRespEvent s)) st accepts functional.

(** [schedule(mRetryRespEvent, clockEdge(Cycles{1}))]. *)
Definition memRespQueueDequeued g now s st : res (t * Store.t MemoryMsg) :=
  if m_mem_ctrl_waiting_retry s && bool_decide (mRetryRespEvent s = None) then
    let* k := of_option EUndef (Store.consumers st !! self g) in
    let* (when, e) := Clocked.clockEdge now 1 (Consumer.em k) in
    let st := Store.put_consumer st (self g) (Consumer.mk (Consumer.m_wakeup_ticks k) (Consumer.m_wakeup_event k) e) in
    assert! now <=? when in
    Ok (mk (m_waiting_mem_retry s) (m_mem_ctrl_waiting_retry s) (Some when), st)
  else Ok (s, st).

Definition dequeueMemRespQueue g now s st : res (Message.t MemoryMsg * t * Store.t MemoryMsg) :=
  let* _ := require (bool_decide (is_Some (getMemRespQueue g))) EPanic in
  let* (edge, st) := Store.clockEdge now st (self g) in
  let* (msg, st) := Store.dequeue now st (getMemRespQueue g) edge in
  let* (s, st) := memRespQueueDequeued g now s st in
  Ok (msg, s, st).

(** [sendRetryRespToMem], run by the event, which is then no longer scheduled. *)
Definition sendRetryRespToMem s : t * list Call :=
  if m_mem_ctrl_waiting_retry s then (mk (m_waiting_mem_retry s) false None, [sendRetryResp])
  else (mk (m_waiting_mem_retry s) (m_mem_ctrl_waiting_retry s) None, []).

(** [functionalMemoryRead] and [functionalMemoryWrite]; [read] is the functional read
    of a buffer, the messages of which have the packet's data or not. *)
Definition functionalMemoryRead g st (read : MessageBuffer.t MemoryMsg → MemPacket → bool * MemPacket)
    (functional : MemPacket → MemPacket) pkt : res (MemPacket * list Call) :=
  match getMemReqQueue g with
  | None => Ok (functional pkt, [sendFunctional pkt])
  | Some _ =>
      let* (_, b) := Store.deref st (getMemReqQueue g) in
      let '(hit, pkt) := read b pkt in
      Ok (if hit then (pkt, []) else (functional pkt, [sendFunctional pkt]))
  end.

Definition functionalMemoryWrite (functional : MemPacket → MemPacket) pkt : Z * MemPacket * list Call :=
  (0 + 1, functional pkt, [sendFunctional pkt]).

End MemoryPort.
End MemoryPort.
