(* ===== verification/MemoryPortSpec.v ===== *)
(** The handshake between a controller and the memory controller: no request and no
    response is lost, and what is refused is retried. *)

From stdpp Require Import prelude list gmap sorting.
From Stdlib Require Import ZArith Lia.
From S2P Require Import Prelude Bits NetDest DataBlocks Heap Clocking MessageBuffer MessageBufferSpec Routing NetExample StoreSpec MemoryPort.

Open Scope Z_scope.

(** ** The two queues and the controller in the store *)

Section Queues.
Import Message MessageBuffer Store MemoryPort.
Context `{HeapLaws (Message.t MemoryMsg)}.
Context (g : MemoryPort.Config) (period : Z) (queue : bool → nat).
Implicit Types (st : Store.t MemoryMsg) (b : MessageBuffer.t MemoryMsg) (bs : bool → MessageBuffer.t MemoryMsg) (d : bool).

(** The queue of requests is [queue false], that of responses [queue true]. *)
Definition connected : Prop :=
  getMemReqQueue g = Some (queue false) ∧ getMemRespQueue g = Some (queue true) ∧ queue false ≠ queue true.

Definition in_use now st : Prop :=
  ∃ k, consumers st !! self g = Some k ∧ Clocking.pending now k ∧ now + 3 * period < 2 ^ 64 ∧ StoreSpec.period k = period.

Record queues now bs st : Prop := {
  qu_buf d : buffers st !! queue d = Some (bs d);
  qu_ok d : buf_ok now (bs d);
  qu_of d : consumer_of st !! queue d = Some (self g);
  qu_info : Store.pending st !! self g = None;
  qu_consumer : in_use now st }.

Definition upd bs d b : bool → MessageBuffer.t MemoryMsg := λ d', if eqb d' d then b else bs d'.
Lemma upd_eq bs d b : upd bs d b d = b.
Proof. unfold upd. by rewrite eqb_reflx. Qed.
Lemma upd_ne bs d d' b : d' ≠ d → upd bs d b d' = bs d'.
Proof. intros Hne. unfold upd. by rewrite (proj2 (eqb_false_iff d' d)). Qed.

Context (Hc : connected).

Lemma queue_inj d d' : queue d = queue d' → d = d'.
Proof. destruct Hc as (_ & _ & Hne), d, d'; congruence. Qed.

Lemma put_queues now bs st d b k : queues now bs st → buf_ok now b → Clocking.pending now k → StoreSpec.period k = period →
  queues now (upd bs d b) (woken (put st (queue d) b) (queue d) k).
Proof.
  intros Hq Hb Hk Hp. destruct (qu_consumer _ _ _ Hq) as (k0 & _ & _ & Hov & _).
  unfold woken. cbn [consumer_of put]. rewrite (qu_of _ _ _ Hq). split; simpl.
  - intros d'. destruct (decide (d' = d)) as [->|Hne]; [by rewrite lookup_insert_eq, upd_eq|].
    rewrite lookup_insert_ne, upd_ne by (done || intros ?%queue_inj; congruence). apply Hq.
  - intros d'. destruct (decide (d' = d)) as [->|Hne]; [by rewrite upd_eq|rewrite upd_ne by done; apply Hq].
  - apply Hq.
  - apply Hq.
  - exists k. simpl. by rewrite lookup_insert_eq.
Qed.

Lemma deref_queues now bs st d : queues now bs st → deref st (Some (queue d)) = Ok (queue d, bs d).
Proof. intros Hq. unfold deref. cbn [of_option rbind]. by rewrite (qu_buf _ _ _ Hq). Qed.

Lemma consumer_queues now bs st d : queues now bs st →
  ∃ k, consumers st !! self g = Some k ∧ consumer st (queue d) = k ∧ Clocking.pending now k ∧ now + 3 * period < 2 ^ 64 ∧ StoreSpec.period k = period.
Proof.
  intros Hq. destruct (qu_consumer _ _ _ Hq) as (k & Ek & Hk). exists k. split; [done|]. split; [|done].
  unfold consumer. rewrite (qu_of _ _ _ Hq). simpl. by rewrite Ek.
Qed.

Lemma period_pos now bs st : queues now bs st → 0 < period.
Proof. intros Hq. destruct (qu_consumer _ _ _ Hq) as (k & _ & ((Hp & _) & _) & _ & <-). done. Qed.

(** A consumer with other wake-ups or another cached edge. *)
Lemma consumer_put now bs st k : queues now bs st → Clocking.pending now k → StoreSpec.period k = period →
  queues now bs (put_consumer st (self g) k).
Proof.
  intros Hq Hk Hp. destruct (qu_consumer _ _ _ Hq) as (k0 & _ & _ & Hov & _). split; try apply Hq.
  exists k. simpl. by rewrite lookup_insert_eq.
Qed.

Lemma edge_queues now bs st n : queues now bs st → (period | now) → 0 ≤ n ≤ 1 →
  ∃ k e, consumers st !! self g = Some k ∧ Clocked.clockEdge now n (Consumer.em k) = Ok (now + period * n, e) ∧
    queues now bs (put_consumer st (self g) (Consumer.mk (Consumer.m_wakeup_ticks k) (Consumer.m_wakeup_event k) e)).
Proof.
  intros Hq Hdiv Hn. pose proof (period_pos _ _ _ Hq) as Hpos. destruct (qu_consumer _ _ _ Hq) as (k & Ek & Hk & Hov & Hp).
  exists k. destruct (edge_spec now n k Hk) as (e & E & He & Hpe & Ht); [lia|rewrite Hp; nia|]. rewrite Hp in E.
  assert (align period now = now) as Hal. { destruct Hdiv as [q ->]. symmetry. apply align_unique; [done|nia]. }
  rewrite Hal in E. exists e. split; [done|]. split; [done|]. apply consumer_put; [done| |].
  - destruct Hk as (_ & ? & ? & _ & ? & ? & ?). unfold Clocking.pending. simpl. rewrite Hpe. by split_and!.
  - simpl. congruence.
Qed.

Lemma clockEdge_queues now bs st : queues now bs st → (period | now) →
  ∃ st', Store.clockEdge now st (self g) = Ok (now, st') ∧ queues now bs st'.
Proof.
  intros Hq Hdiv. destruct (edge_queues now bs st 0 Hq Hdiv) as (k & e & Ek & E & Hq'); [lia|].
  unfold Store.clockEdge. rewrite Ek. cbn [of_option rbind]. rewrite E. cbn [rbind]. rewrite Z.mul_0_r, Z.add_0_r. by eexists.
Qed.

Lemma schedule_queues now bs st : queues now bs st →
  ∃ st', Store.scheduleEvent now st (self g) 1 = Ok st' ∧ queues now bs st'.
Proof.
  intros Hq. destruct (qu_consumer _ _ _ Hq) as (k & Ek & Hk & Hov & Hp). unfold Store.scheduleEvent. rewrite Ek. cbn [of_option rbind].
  destruct (request_cycles_spec now 1 k Hk) as (k' & -> & Ha & Hp' & _); [lia|rewrite Hp; lia|]. cbn [rbind].
  eexists. split; [done|]. apply consumer_put; [done|apply Ha|congruence].
Qed.

Lemma isReady_queues now bs st d : queues now bs st →
  ∃ r st', Store.isReady now st (Some (queue d)) now = Ok (r, st') ∧ queues now bs st' ∧ (r = true → can_dequeue now (bs d)).
Proof.
  intros Hq. destruct (consumer_queues now bs st d Hq) as (k & Ek & Ec & Hk & Hov & Hp). unfold Store.isReady.
  rewrite (deref_queues now bs) by done. cbn [rbind]. rewrite Ec.
  destruct (isReady_ok now k (bs d) (qu_ok _ _ _ Hq d) Hk) as (r & k' & -> & (Hper & _ & Hpend & _) & Hr & _); [by rewrite Hp|]. cbn [rbind].
  eexists r, _. split; [done|]. split; [|intros ?; by apply Hr]. unfold woken. rewrite (qu_of _ _ _ Hq). apply consumer_put; [done..|congruence].
Qed.

Lemma dequeue_queues now bs st d : queues now bs st → can_dequeue now (bs d) →
  ∃ m h m' b' st', heap_of (bs d) = m :: h ∧ Store.peekMsgPtr st (Some (queue d)) = Ok m ∧
    Store.dequeue now st (Some (queue d)) now = Ok (m', st') ∧ payload m' = payload m ∧ heap_of b' ≡ₚ h ∧
    cfg b' = cfg (bs d) ∧ ord b' = ord (bs d) ∧ queues now (upd bs d b') st'.
Proof.
  intros Hq Hcan. destruct (consumer_queues now bs st d Hq) as (k & Ek & Ec & Hk & Hov & Hp).
  destruct (dequeue_runs now k (bs d) (qu_ok _ _ _ Hq d) Hcan) as (m & h & m' & cb & b' & Eh & E & Hpl & _ & _ & Hh & Hb' & Hcf & _ & Ho).
  exists m, h, m', b'. eexists. split; [done|]. unfold Store.peekMsgPtr, Store.dequeue. rewrite (deref_queues now bs) by done. cbn [rbind].
  split; [unfold peek, front; by rewrite Eh|]. rewrite Ec, E. cbn [rbind]. split; [done|]. do 4 (split; [done|]). by apply put_queues.
Qed.

Lemma slots_queues now bs st d : queues now bs st →
  ∃ r b' st', Store.areNSlotsAvailable st (Some (queue d)) 1 now = Ok (r, st') ∧ alike (bs d) b' ∧ queues now (upd bs d b') st' ∧
    (r = true → has_room now b') ∧ (r = false → ¬ has_room now (bs d)).
Proof.
  intros Hq. unfold Store.areNSlotsAvailable. rewrite (deref_queues now bs) by done. cbn [rbind].
  pose proof (slots_alike now 1 (bs d)) as Ha. destruct (MessageBuffer.areNSlotsAvailable (bs d) 1 now) as [r b'] eqn:E.
  simpl in Ha. exists r, b', (put st (queue d) b'). split; [done|]. split; [done|].
  destruct (consumer_queues now bs st d Hq) as (k & Ek & _ & Hk & Hov & Hp).
  split; [|split; [intros ->; eapply has_room_alike; [done|]; unfold has_room; by rewrite E|intros ->; unfold has_room; by rewrite E]].
  split; simpl.
  - intros d'. destruct (decide (d' = d)) as [->|Hne]; [by rewrite lookup_insert_eq, upd_eq|].
    rewrite lookup_insert_ne, upd_ne by (done || intros ?%queue_inj; congruence). apply Hq.
  - intros d'. destruct (decide (d' = d)) as [->|Hne]; [rewrite upd_eq; eapply alike_ok; [done|apply Hq]|rewrite upd_ne by done; apply Hq].
  - apply Hq.
  - apply Hq.
  - by exists k.
Qed.

Lemma enqueue_queues now bs st d m delta random warmup : queues now bs st → port_ok now delta random (bs d) → has_room now (bs d) →
  m_LastEnqueueTime m ≤ now → now + delta + 2 * period < 2 ^ 64 →
  ∃ b' st', Store.enqueue now st (Some (queue d)) m now delta random warmup = Ok st' ∧ queues now (upd bs d b') st' ∧
    port_ok now delta random b' ∧ (payload <$> heap_of b') ≡ₚ payload m :: (payload <$> heap_of (bs d)) ∧ cfg b' = cfg (bs d).
Proof.
  intros Hq Hport Hroom Hm Hd. destruct (consumer_queues now bs st d Hq) as (k & Ek & Ec & Hk & Hov & Hp).
  pose proof (period_pos _ _ _ Hq). unfold Store.enqueue. rewrite (deref_queues now bs) by done. cbn [rbind]. rewrite Ec.
  destruct (enqueue_runs now k (rng st 0%nat) (bs d) m delta random warmup (qu_ok _ _ _ Hq d) Hport Hroom Hm Hk) as (k' & -> & (Hper & _ & Hk' & _) & _);
    [rewrite Hp; lia|]. cbn [rbind].
  destruct (received_ok now delta random warmup (bs d) m (qu_ok _ _ _ Hq d) Hport Hroom) as (Hb' & Hport' & Hh).
  set (b' := received now delta warmup (bs d) m) in *. exists b'.
  pose proof (put_queues now bs st d b' k' Hq Hb' Hk' ltac:(congruence)) as Hq'.
  assert (queues now (upd bs d b') (woken (drawn (put st (queue d) b')) (queue d) k')) as Hq2.
  { unfold woken in *. cbn [consumer_of put drawn] in *. rewrite (qu_of _ _ _ Hq) in *. by destruct Hq'. }
  eexists. split; [|split; [exact Hq2|split; [done|split; [by rewrite Hh|done]]]]. unfold storeEventInfo.
  rewrite (qu_of _ _ _ Hq2), (qu_info _ _ _ Hq2). done.
Qed.

(** ** The handlers *)

Context (garbage : Z) (Hwarm : getWarmupEnabled g = false).

Definition packet_of (m : MemoryMsg) : option MemPacket :=
  match make_packet garbage g m with Ok p => Some p | Err _ => None end.

Lemma packet_of_Some m p : packet_of m = Some p ↔ make_packet garbage g m = Ok p.
Proof. unfold packet_of. destruct (make_packet garbage g m); naive_solver. Qed.

(** What [serviceMemoryQueue] did: nothing, or it asked the memory to take the packet
    of the first request, which then left the queue or set the flag. *)
Definition serviced bs bs' (s s' : MemoryPort.t) (accepts : bool) (calls : list Call) : Prop :=
  calls = [] ∧ bs' false = bs false ∧ s' = s ∨
  ∃ m h p, heap_of (bs false) = m :: h ∧ packet_of (payload m) = Some p ∧ calls = [sendTimingReq p] ∧ m_waiting_mem_retry s = false ∧
    if accepts then heap_of (bs' false) ≡ₚ h ∧ s' = s
    else bs' false = bs false ∧ s' = MemoryPort.mk true (m_mem_ctrl_waiting_retry s) (mRetryRespEvent s).

Lemma service_ok now bs st s accepts f : queues now bs st → (period | now) →
  (∀ m, m ∈ heap_of (bs false) → is_Some (packet_of (payload m))) →
  ∃ r s' st' calls bs', serviceMemoryQueue garbage g now s st accepts f = Ok (r, s', st', calls) ∧ queues now bs' st' ∧
    bs' true = bs true ∧ serviced bs bs' s s' accepts calls.
Proof.
  intros Hq Hdiv Hpk. destruct Hc as (Erq & _ & _). unfold serviceMemoryQueue. rewrite Erq. cbn [require rbind].
  rewrite bool_decide_true by done. cbn [require rbind]. destruct (m_waiting_mem_retry s) eqn:Ew.
  { cbn [rbind negb]. eexists _, _, _, _, bs. split; [done|]. split; [done|]. split; [done|]. by left. }
  destruct (clockEdge_queues now bs st Hq Hdiv) as (st1 & -> & Hq1). cbn [rbind].
  destruct (isReady_queues now bs st1 false Hq1) as (r & st2 & -> & Hq2 & Hr). cbn [rbind]. destruct r; cbn [negb]; cycle 1.
  { eexists _, _, _, _, bs. split; [done|]. split; [done|]. split; [done|]. by left. }
  destruct (clockEdge_queues now bs st2 Hq2 Hdiv) as (st3 & E3 & Hq3).
  destruct (dequeue_queues now bs st2 false Hq2 (Hr eq_refl)) as (m & h & _ & _ & _ & Eh & -> & _). cbn [rbind].
  destruct (Hpk m) as [p Ep]; [rewrite Eh; left|]. pose proof (proj1 (packet_of_Some _ _) Ep) as Ep'. rewrite Ep', Hwarm. cbn [rbind].
  destruct accepts.
  - rewrite E3. cbn [rbind]. destruct (dequeue_queues now bs st3 false Hq3 (Hr eq_refl)) as (m0 & h0 & m' & b' & st4 & Eh0 & _ & -> & _ & Hh & _ & _ & Hq4).
    rewrite Eh in Eh0. injection Eh0 as <- <-. cbn [rbind]. destruct (schedule_queues now _ st4 Hq4) as (st5 & -> & Hq5). cbn [rbind].
    eexists _, _, _, _, _. split; [done|]. split; [done|]. split; [by apply upd_ne|]. right. exists m, h, p. rewrite upd_eq. done.
  - destruct (schedule_queues now bs st2 Hq2) as (st5 & -> & Hq5). cbn [rbind].
    eexists _, _, _, _, bs. split; [done|]. split; [done|]. split; [done|]. right. by exists m, h, p.
Qed.

Definition message_of (p : MemPacket) : option MemoryMsg :=
  match make_message garbage g 0 p with Ok m => Some (payload m) | Err _ => None end.

Lemma message_of_Some edge p a : message_of p = Some a → make_message garbage g edge p = Ok (Message.new edge garbage a).
Proof.
  unfold message_of, make_message. destruct (DataBlock.new _ _) as [blk|]; [|done]. cbn [rbind].
  destruct (senderState p) as [id|]; [|done]. cbn [of_option rbind]. destruct (isRead p).
  - destruct (DataBlock.setData _ _ _ _); [|done]. cbn [rbind]. by intros [= <-].
  - destruct (isWrite p); [|done]. by intros [= <-].
Qed.

(** A queue without room has a message, unless one was taken out at this time. *)
Lemma full_not_empty now b : buf_ok now b → ¬ has_room now b → m_time_last_time_pop (cyc b) < now → heap_of b ≠ [].
Proof.
  intros Hb Hn Hpop Eh. apply Hn. unfold has_room, MessageBuffer.areNSlotsAvailable. destruct (bo_max _ _ Hb) as [->|(Hm & _)]; [done|].
  rewrite (proj2 (Z.eqb_neq _ _)) by lia. rewrite (proj2 (Z.ltb_lt _ _)) by done. rewrite Eh, (bo_stall_size _ _ Hb). simpl.
  case_match; [done|]. exfalso. match goal with E : (_ <=? _) = false |- _ => apply Z.leb_gt in E; vm_compute (u32 _) in E; lia end.
Qed.

Lemma recv_ok now bs st s p a : queues now bs st → (period | now) → port_ok now period (getRandomization g) (bs true) →
  isResponse p = true → message_of p = Some a →
  ∃ ok s' st' bs', recvTimingResp garbage g now s st p = Ok (ok, s', st') ∧ queues now bs' st' ∧ bs' false = bs false ∧
    port_ok now period (getRandomization g) (bs' true) ∧
    if ok : bool then s' = s ∧ (payload <$> heap_of (bs' true)) ≡ₚ a :: (payload <$> heap_of (bs true))
    else s' = MemoryPort.mk (m_waiting_mem_retry s) true (mRetryRespEvent s) ∧ alike (bs true) (bs' true) ∧ ¬ has_room now (bs true).
Proof.
  intros Hq Hdiv Hport Hresp Ha. pose proof (period_pos _ _ _ Hq) as Hpos. destruct Hc as (_ & Erp & _). unfold recvTimingResp. rewrite Erp, Hresp.
  rewrite bool_decide_true by done. cbn [require rbind].
  destruct (slots_queues now bs st true Hq) as (r & b' & st1 & -> & Hal & Hq1 & Hroom & Hfull). cbn [rbind].
  pose proof (port_ok_alike _ _ _ _ _ Hal Hport) as Hport1. destruct r; cbn [negb]; cycle 1.
  { eexists false, _, _, (upd bs true b'). split; [done|]. split; [done|]. split; [by apply upd_ne|]. rewrite upd_eq. split; [done|]. auto. }
  destruct (clockEdge_queues now _ st1 Hq1 Hdiv) as (st2 & -> & Hq2). cbn [rbind].
  rewrite (message_of_Some now p a Ha). cbn [rbind].
  destruct (clockEdge_queues now _ st2 Hq2 Hdiv) as (st3 & -> & Hq3). cbn [rbind].
  destruct (qu_consumer _ _ _ Hq3) as (k & -> & _ & Hov & Hp). cbn [of_option rbind]. unfold Clocked.cyclesToTicks. rewrite Hp, Z.mul_1_r.
  destruct (consumer_queues now bs st true Hq) as (_ & _ & _ & (_ & Hnow & _) & _).
  rewrite u64_small by lia. rewrite Hwarm.
  destruct (enqueue_queues now _ st3 true (Message.new now garbage a) period (getRandomization g) false Hq3) as (b2 & st4 & -> & Hq4 & Hport4 & Hh & _);
    [by rewrite upd_eq|by rewrite upd_eq; apply Hroom|done|lia|]. cbn [rbind].
  eexists true, _, _, _. split; [done|]. split; [exact Hq4|]. split; [by rewrite !upd_ne|]. rewrite upd_eq. split; [done|]. split; [done|].
  rewrite Hh, upd_eq. destruct Hal as (-> & _). done.
Qed.

Lemma consume_ok now bs st s : queues now bs st → (period | now) → port_ok now period (getRandomization g) (bs true) →
  can_dequeue now (bs true) →
  ∃ m m' h s' st' bs', heap_of (bs true) = m :: h ∧ dequeueMemRespQueue g now s st = Ok (m', s', st') ∧ payload m' = payload m ∧
    queues now bs' st' ∧ bs' false = bs false ∧ port_ok now period (getRandomization g) (bs' true) ∧ heap_of (bs' true) ≡ₚ h ∧
    m_waiting_mem_retry s' = m_waiting_mem_retry s ∧ m_mem_ctrl_waiting_retry s' = m_mem_ctrl_waiting_retry s ∧
    (mRetryRespEvent s' = mRetryRespEvent s ∧ (m_mem_ctrl_waiting_retry s = true → is_Some (mRetryRespEvent s)) ∨ mRetryRespEvent s' = Some (now + period)).
Proof.
  intros Hq Hdiv Hport Hcan. pose proof (period_pos _ _ _ Hq) as Hpos. destruct Hc as (_ & Erp & _). unfold dequeueMemRespQueue. rewrite Erp.
  rewrite bool_decide_true by done. cbn [require rbind].
  destruct (clockEdge_queues now _ st Hq Hdiv) as (st1 & -> & Hq1). cbn [rbind].
  destruct (dequeue_queues now bs st1 true Hq1 Hcan) as (m & h & m' & b' & st2 & Eh & _ & -> & Hpl & Hh & Hcf & Ho & Hq2). cbn [rbind].
  assert (port_ok now period (getRandomization g) b') as Hport' by (unfold port_ok in *; by rewrite Hcf, Ho).
  exists m, m', h. unfold memRespQueueDequeued. destruct (m_mem_ctrl_waiting_retry s) eqn:Ew, (mRetryRespEvent s) as [w|] eqn:Ev; cbn [andb].
  2: { destruct (edge_queues now _ st2 1 Hq2 Hdiv) as (k & e & -> & E & Hq3); [lia|]. rewrite bool_decide_true by done.
    cbn [of_option rbind]. rewrite E. cbn [rbind]. rewrite (proj2 (Z.leb_le _ _)) by lia. cbn [require rbind]. rewrite Z.mul_1_r.
    eexists _, _, (upd bs true b'). do 4 (split; [done|]). split; [by apply upd_ne|]. rewrite upd_eq. do 4 (split; [done|]). by right. }
  all: rewrite ?bool_decide_false by done; cbn [rbind]; eexists s, st2, (upd bs true b'); do 4 (split; [done|]);
    split; [by apply upd_ne|]; rewrite upd_eq; do 4 (split; [done|]); left; by rewrite Ev.
Qed.

(** ** The controller and the memory together

    The system has a log of the requests the controller made, of the packets the
    memory took, of the responses the controller took and of those it consumed.
    [owes] is whether the memory refused a request and has not yet asked for it
    again, [refused] whether the controller refused a response likewise. *)
Record sys := mkSys {
  now : Z; ctl : MemoryPort.t; sto : Store.t MemoryMsg; asked : list MemoryMsg; sent : list MemPacket;
  answered : list MemPacket; consumed : list MemoryMsg; owes : bool; refused : bool }.

Inductive event :=
| Request (m : MemoryMsg) (delta : Z) | Service (accepts : bool) | Retry (accepts : bool)
| Response (p : MemPacket) | Consume | Fire | Wait (t : Z) (k : Consumer.t).

(** After a call of [serviceMemoryQueue]; [o] is what the memory owed before it. *)
Definition served (x : sys) (o accepts : bool) (r : res (bool * MemoryPort.t * Store.t MemoryMsg * list Call)) : res sys :=
  let* (_, s, st, calls) := r in
  let tried := omap (λ c, match c with sendTimingReq p => Some p | _ => None end) calls in
  Ok (mkSys (now x) s st (asked x) (if accepts then sent x ++ tried else sent x) (answered x) (consumed x)
        (if accepts then o else o || bool_decide (tried ≠ [])) (refused x)).

Definition exec (x : sys) (e : event) : res sys :=
  match e with
  | Request m delta =>
      let* st := Store.enqueue (now x) (sto x) (getMemReqQueue g) (Message.new (now x) garbage m) (now x) delta
                   (getRandomization g) (getWarmupEnabled g) in
      Ok (mkSys (now x) (ctl x) st (asked x ++ [m]) (sent x) (answered x) (consumed x) (owes x) (refused x))
  | Service accepts => served x (owes x) accepts (serviceMemoryQueue garbage g (now x) (ctl x) (sto x) accepts id)
  | Retry accepts => served x false accepts (recvReqRetry garbage g (now x) (ctl x) (sto x) accepts id)
  | Response p =>
      let* (ok, s, st) := recvTimingResp garbage g (now x) (ctl x) (sto x) p in
      Ok (mkSys (now x) s st (asked x) (sent x) (if ok : bool then answered x ++ [p] else answered x) (consumed x) (owes x)
            (negb ok || refused x))
  | Consume =>
      let* (m, s, st) := dequeueMemRespQueue g (now x) (ctl x) (sto x) in
      Ok (mkSys (now x) s st (asked x) (sent x) (answered x) (consumed x ++ [payload m]) (owes x) (refused x))
  | Fire =>
      let '(s, calls) := sendRetryRespToMem (ctl x) in
      Ok (mkSys (now x) s (sto x) (asked x) (sent x) (answered x) (consumed x) (owes x) (refused x && bool_decide (calls = [])))
  | Wait t k => Ok (mkSys t (ctl x) (put_consumer (sto x) (self g) k) (asked x) (sent x) (answered x) (consumed x) (owes x) (refused x))
  end.

Definition buf (x : sys) d : MessageBuffer.t MemoryMsg → Prop := λ b, buffers (sto x) !! queue d = Some b.

(** What the parties keep to: requests are well formed and have room, the memory asks
    again only for what it refused, answers well-formed packets and waits after a
    refusal, and time does not pass a scheduled event. A response does not come at
    the very time at which the last one was taken out of the queue. *)
Definition allowed (x : sys) (e : event) : Prop :=
  match e with
  | Request m delta => is_Some (packet_of m) ∧ now x + delta + 2 * period < 2 ^ 64 ∧
      ∀ b, buf x false b → port_ok (now x) delta (getRandomization g) b ∧ has_room (now x) b
  | Service _ => True
  | Retry _ => owes x = true
  | Response p => refused x = false ∧ isResponse p = true ∧ is_Some (message_of p) ∧
      ∀ b, buf x true b → heap_of b = [] → m_time_last_time_pop (cyc b) < now x
  | Consume => ∀ b, buf x true b → can_dequeue (now x) b
  | Fire => mRetryRespEvent (ctl x) = Some (now x)
  | Wait t k => now x ≤ t ∧ (period | t) ∧ t + 3 * period < 2 ^ 64 ∧ Clocking.pending t k ∧ StoreSpec.period k = period ∧
      ∀ w, mRetryRespEvent (ctl x) = Some w → t ≤ w
  end.

Inductive steps (x : sys) : sys → Prop :=
| steps_none : steps x x
| steps_more y z e : steps x y → allowed y e → exec y e = Ok z → steps x z.

Record good bs (x : sys) : Prop := {
  gd_queues : queues (now x) bs (sto x);
  gd_edge : (period | now x);
  gd_port : port_ok (now x) period (getRandomization g) (bs true);
  gd_wf m : m ∈ heap_of (bs false) → is_Some (packet_of (payload m));
  gd_requests : omap packet_of (asked x) ≡ₚ sent x ++ omap packet_of (payload <$> heap_of (bs false));
  gd_asked : length (asked x) = length (omap packet_of (asked x));
  gd_responses : omap message_of (answered x) ≡ₚ consumed x ++ (payload <$> heap_of (bs true));
  gd_answered : length (answered x) = length (omap message_of (answered x));
  gd_owes : owes x = m_waiting_mem_retry (ctl x);
  gd_refused : refused x = m_mem_ctrl_waiting_retry (ctl x);
  gd_retry : refused x = true → heap_of (bs true) ≠ [] ∨ is_Some (mRetryRespEvent (ctl x));
  gd_event w : mRetryRespEvent (ctl x) = Some w → now x ≤ w }.

Lemma served_ok bs x o s accepts : good bs x → o = m_waiting_mem_retry s →
  m_mem_ctrl_waiting_retry s = m_mem_ctrl_waiting_retry (ctl x) → mRetryRespEvent s = mRetryRespEvent (ctl x) →
  ∃ bs' y, served x o accepts (serviceMemoryQueue garbage g (now x) s (sto x) accepts id) = Ok y ∧ good bs' y.
Proof.
  intros [] Eo Ef Ee. destruct (service_ok (now x) bs (sto x) s accepts id gd_queues0 gd_edge0 gd_wf0)
    as (r & s' & st' & calls & bs' & -> & Hq' & Et & Hs). unfold served. cbn [rbind]. exists bs'. eexists. split; [done|].
  destruct Hs as [(-> & Eb & ->)|(m & h & p & Eh & Ep & -> & Ew & Hs)].
  - simpl. rewrite app_nil_r, orb_false_r. split; simpl; rewrite ?Et, ?Eb, ?Ef, ?Ee; try done; by destruct accepts.
  - simpl. destruct accepts.
    + destruct Hs as [Hh ->]. split; simpl; rewrite ?Et, ?Ef, ?Ee; try done.
      * intros m' Hm'. apply gd_wf0. rewrite Eh. right. by rewrite <- Hh.
      * rewrite gd_requests0, Eh, Hh. simpl. rewrite Ep. by rewrite <- app_assoc.
    + destruct Hs as [Eb ->]. split; simpl; rewrite ?Et, ?Eb, ?Ef, ?Ee; try done. by rewrite orb_true_r.
Qed.

Lemma request_ok bs x m delta : good bs x → allowed x (Request m delta) → ∃ bs' y, exec x (Request m delta) = Ok y ∧ good bs' y.
Proof.
  intros [] ([p Ep] & Hov & Hb). destruct (Hb (bs false)) as [Hport Hroom]; [apply gd_queues0|]. simpl exec.
  pose proof Hc as (-> & _). destruct (enqueue_queues (now x) bs (sto x) false (Message.new (now x) garbage m) delta (getRandomization g) (getWarmupEnabled g)
    gd_queues0 Hport Hroom) as (b' & st' & -> & Hq' & _ & Hh & _); [done|done|]. cbn [rbind].
  exists (upd bs false b'). eexists. split; [done|]. split; simpl; rewrite ?(upd_ne bs false true) by done; rewrite ?upd_eq; try done.
  - intros m' Hm'. apply (list_elem_of_fmap_2 payload) in Hm'. rewrite Hh in Hm'. apply elem_of_cons in Hm' as [->|(m0 & -> & Hm0)%list_elem_of_fmap].
    + simpl. by rewrite Ep.
    + by apply gd_wf0.
  - rewrite omap_app, gd_requests0, Hh. simpl. rewrite Ep. simpl. rewrite <- app_assoc. f_equiv. by rewrite Permutation_app_comm.
  - rewrite omap_app, !length_app. simpl. rewrite Ep. simpl. lia.
Qed.

Lemma response_ok bs x p : good bs x → allowed x (Response p) → ∃ bs' y, exec x (Response p) = Ok y ∧ good bs' y.
Proof.
  intros [] (Hnr & Hresp & [a Ha] & Hpop). simpl exec.
  destruct (recv_ok (now x) bs (sto x) (ctl x) p a gd_queues0 gd_edge0 gd_port0 Hresp Ha) as (ok & s' & st' & bs' & -> & Hq' & Ef & Hport' & Hok).
  cbn [rbind]. exists bs'. eexists. split; [done|]. destruct ok.
  - destruct Hok as [-> Hh]. split; simpl; rewrite ?Ef; try done.
    + rewrite omap_app, gd_responses0, Hh. simpl. rewrite Ha. simpl. rewrite <- app_assoc. f_equiv. by rewrite Permutation_app_comm.
    + rewrite omap_app, !length_app. simpl. rewrite Ha. simpl. lia.
    + rewrite Hnr. done.
  - destruct Hok as (-> & Hal & Hfull). pose proof Hal as (Eq & _). split; simpl; rewrite ?Ef, ?Eq; try done. intros _. left.
    intros Eh. apply (full_not_empty (now x) (bs true)); [apply gd_queues0|done| |done]. apply Hpop; [apply gd_queues0|done].
Qed.

Lemma consume_step_ok bs x : good bs x → allowed x Consume → ∃ bs' y, exec x Consume = Ok y ∧ good bs' y.
Proof.
  intros [] Hcan. simpl exec.
  destruct (consume_ok (now x) bs (sto x) (ctl x) gd_queues0 gd_edge0 gd_port0) as (m & m' & h & s' & st' & bs' & Eh & -> & Hpl & Hq' & Ef & Hport' & Hh & Ew & Ec & Hev);
    [apply Hcan, gd_queues0|]. pose proof (period_pos _ _ _ gd_queues0). cbn [rbind]. exists bs'. eexists. split; [done|].
  split; simpl; rewrite ?Ef, ?Ew, ?Ec; try done.
  - rewrite gd_responses0, Eh, Hh. simpl. by rewrite Hpl, <- app_assoc.
  - intros Hr. right. destruct Hev as [[-> Hev]| ->]; [|done]. apply Hev. by rewrite <- gd_refused0.
  - intros w Hw. destruct Hev as [[E _]|E]; [rewrite E in Hw; by apply gd_event0|]. rewrite E in Hw. injection Hw as <-. lia.
Qed.

Lemma wait_ok bs x t k : good bs x → allowed x (Wait t k) → ∃ y, exec x (Wait t k) = Ok y ∧ good bs y.
Proof.
  intros [] (Hle & Hdiv & Hov & Hk & Hp & Hev). eexists. split; [done|]. split; simpl; try done.
  - destruct gd_queues0. split; simpl; try done.
    + intros d. eapply buf_ok_mono; [apply qu_ok0|done].
    + exists k. simpl. by rewrite lookup_insert_eq.
  - by eapply port_ok_mono.
Qed.

Lemma exec_ok bs x e : good bs x → allowed x e → ∃ bs' y, exec x e = Ok y ∧ good bs' y.
Proof.
  intros Hg He. destruct e as [m delta|acc|acc|p| | |t k].
  - by apply (request_ok bs).
  - eapply served_ok; [done| |done|done]. apply Hg.
  - by eapply served_ok.
  - by apply (response_ok bs).
  - by apply (consume_step_ok bs).
  - simpl in He. simpl exec. unfold sendRetryRespToMem. destruct Hg. exists bs. destruct (m_mem_ctrl_waiting_retry (ctl x)) eqn:Ec; simpl;
      (eexists; split; [done|]); split; simpl; rewrite ?gd_refused0, ?Ec; done.
  - exists bs. by apply wait_ok.
Qed.

Lemma steps_good bs x y : good bs x → steps x y → ∃ bs', good bs' y.
Proof.
  intros Hg. induction 1 as [|y z e _ [bs1 IH] He E]; [by exists bs|].
  destruct (exec_ok bs1 y e IH He) as (bs' & z' & E' & Hz). exists bs'. congruence.
Qed.


End Queues.

(** ** A read of a line of four bytes *)

Section OneRead.
Import Message MessageBuffer MemoryPort.

(** The queue of requests is 0 and unbounded, that of responses 1 and holds one. *)
Definition small_port : MemoryPort.Config := MemoryPort.mkConfig 10 (Some 0%nat) (Some 1%nat) (MachineID.mk 1 0) 4 2 false false.
Definition number (d : bool) : nat := if d then 1 else 0.
Definition no_messages (max_size : Z) : MessageBuffer.t MemoryMsg :=
  MessageBuffer.mk (MessageBuffer.mkConfig max_size 0 false disabled true 0) (mkQueue [] ∅ ∅ 0) (mkCycle 0 0 0 0 0 0 0 0)
    (mkOrder 0 0 false) (mkStats 0 0 0 0 0) (mkWiring true None 0 0 0).
Definition small_buffers (d : bool) : MessageBuffer.t MemoryMsg := no_messages (if d then 1 else 0).
Definition small_store : Store.t MemoryMsg :=
  Store.mk (<[0%nat := small_buffers false]> {[1%nat := small_buffers true]}) (<[0%nat := 10%nat]> {[1%nat := 10%nat]})
    {[10%nat := Consumer.new (Clocked.new 500)]} ∅ (λ _, (0, 0, 0)).
Definition small : sys := mkSys 500 MemoryPort.new small_store [] [] [] [] false false.

Definition no_data : DataBlock.t := DataBlock.mk None false 0 [].
Definition read_line : MemoryMsg := mkMemory 64 MEMORY_READ (MachineID.mk 0 3) None no_data Request_Control 0.
Definition line_packet (c : MemCmd) (data : list Z) : MemPacket := mkPacket 64 4 c data (Some (MachineID.mk 0 3)).

Lemma small_connected : connected small_port number.
Proof. by split_and!. Qed.

Lemma small_good : good small_port 500 number 0 small_buffers small.
Proof.
  assert (∀ d, buf_ok 500 (small_buffers d)) as Hb.
  { intros d. split; simpl; try done. destruct d; [right|by left]. split; [lia|]. split; [|lia].
    split; simpl; try done; try lia; try apply is_heap_nil. }
  split; simpl; try done.
  - split; try done.
    + by intros [].
    + by intros [].
    + exists (Consumer.new (Clocked.new 500)). split; [done|]. split; [|by split; [lia|]].
      split_and!; simpl; try done; constructor.
  - split; [lia|]. split; [by left|]. split; [done|by left].
  - intros m Hm. by apply not_elem_of_nil in Hm.
Qed.

(** The memory refuses the request, asks for it again, takes it and answers. *)
Definition small_run : list event :=
  [Request read_line 0; Service false; Retry true; Response (line_packet ReadResp [1; 2; 3; 4])].
Definition run (x : sys) (es : list event) : res sys := fold_res (λ e x, exec small_port 0 x e) es x.
Definition ran (k : nat) : sys := match run small (take k small_run) with Ok y => y | Err _ => small end.

Lemma small_step k e : small_run !! k = Some e → allowed small_port 500 number 0 (ran k) e → exec small_port 0 (ran k) e = Ok (ran (S k)) →
  steps small_port 500 number 0 small (ran k) → steps small_port 500 number 0 small (ran (S k)).
Proof. intros _ He E Hs. by eapply steps_more. Qed.

Lemma small_steps : steps small_port 500 number 0 small (ran 4).
Proof.
  apply (small_step 3 (Response (line_packet ReadResp [1; 2; 3; 4]))); [done| |vm_compute; reflexivity|].
  { split_and!; [done|done|by eexists|]. intros b Hb _. vm_compute in Hb. injection Hb as <-. done. }
  apply (small_step 2 (Retry true)); [done|vm_compute; reflexivity|vm_compute; reflexivity|].
  apply (small_step 1 (Service false)); [done|done|vm_compute; reflexivity|].
  apply (small_step 0 (Request read_line 0)); [done| |vm_compute; reflexivity|constructor].
  split; [by eexists|]. split; [simpl; lia|]. intros b Hb. vm_compute in Hb. injection Hb as <-. split; [|done].
  split; [lia|]. split; [by right|]. split; [done|by left].
Qed.


(** ** What goes wrong *)

(** A response that comes at the time at which the only one was taken out of the queue
    is refused, as the slot appears free only in the next cycle. Nothing is left whose
    removal would schedule the retry: the memory waits for ever. *)
Lemma retry_lost :
  rmap (λ x, (refused x, mRetryRespEvent (ctl x), length (consumed x), rmap (λ '(_, b), length (heap_of b)) (Store.deref (sto x) (Some 1%nat))))
    (run small (small_run ++ [Wait 1000 (Consumer.new (Clocked.new 500)); Consume; Response (line_packet ReadResp [5; 6; 7; 8])])) =
  Ok (true, None, 1%nat, Ok 0%nat).
Proof. vm_compute. reflexivity. Qed.

(** While caches are warmed up, the answer of a functional access that finds the queue
    of responses full is dropped. *)
Lemma warmup_response_lost :
  let warm := MemoryPort.mkConfig 10 (Some 0%nat) (Some 1%nat) (MachineID.mk 1 0) 4 2 false true in
  let answer p := mkPacket (getAddr p) (MemoryPort.getSize p) ReadResp (getPtr p) (senderState p) in
  (let* x := run small [Request read_line 0; Request read_line 0] in
   let* (_, s, st, _) := serviceMemoryQueue 0 warm 500 (ctl x) (sto x) true answer in
   let* (done_, s, st, _) := serviceMemoryQueue 0 warm 500 s st true answer in
   let* (_, req) := Store.deref st (Some 0%nat) in
   let* (_, resp) := Store.deref st (Some 1%nat) in
   Ok (done_, length (heap_of req), length (heap_of resp))) = Ok (true, 0%nat, 1%nat).
Proof. vm_compute. reflexivity. Qed.

(** The response to a read of a part of a line has fewer bytes than a line, but a
    whole line is copied from it. *)
Lemma short_read_overruns : make_message 0 small_port 500 (mkPacket 64 2 ReadResp [1; 2] (Some (MachineID.mk 0 3))) = Err EUndef.
Proof. vm_compute. reflexivity. Qed.

End OneRead.
