(* ===== verification/WireBuffer.v ===== *)
(** mem/ruby/structures/WireBuffer.cc: a buffer that is meant to keep messages in
    the order they were sent. It does when no two messages arrive at the same
    time, and may swap those that do. *)

From stdpp Require Import prelude list sorting.
From Stdlib Require Import ZArith Lia.
From S2P Require Import Prelude Heap Clocking MessageBuffer MessageBufferSpec.

Open Scope Z_scope.

Module WireBuffer.
Import Message.
Section WireBuffer.
Context {A : Type} `{HeapOps (Message.t A)}.
Implicit Types (now current_time : Z) (c : Consumer.t).

(** [m_consumer_ptr] is whether a consumer is connected. *)
Record t := mk { m_msg_counter : Z; m_consumer_ptr : bool; m_message_queue : list (Message.t A) }.
Implicit Types b : t.

(** The constructor leaves the consumer pointer as it is. *)
Definition new (garbage : bool) : t := mk 0 garbage [].
Definition setConsumer b : t := mk (m_msg_counter b) true (m_message_queue b).

Definition isReady b current_time : bool :=
  match m_message_queue b with
  | [] => false
  | m :: _ => getLastEnqueueTime m <=? current_time
  end.

Definition enqueue now c b (message : Message.t A) current_time (delta : Z) : res (t * Consumer.t) :=
  let counter := u64 (m_msg_counter b + 1) in
  let arrival_time := u64 (current_time + delta) in
  assert! current_time <? arrival_time in
  let q := m_message_queue b ++ [setLastEnqueueTime message arrival_time] in
  if m_consumer_ptr b
  then let* c := Consumer.scheduleEventAbsolute now arrival_time c in
       Ok (mk counter (m_consumer_ptr b) q, c)
  else Err EPanic.

Definition dequeue b current_time : res t :=
  assert! isReady b current_time in
  Ok (mk (m_msg_counter b) (m_consumer_ptr b) (removelast (pop_heap gt (m_message_queue b)))).

Definition peek b : res (Message.t A) := of_option EUndef (head (m_message_queue b)).

(** The front message moves to the back with a new time, and up from there. *)
Definition recycle now c b current_time (recycle_latency : Z) : res (t * Consumer.t) :=
  assert! isReady b current_time in
  let* node := of_option EUndef (head (m_message_queue b)) in
  let q := removelast (pop_heap gt (m_message_queue b)) in
  let future_time := u64 (current_time + recycle_latency) in
  let q := push_heap gt (q ++ [setLastEnqueueTime node future_time]) in
  let* _ := require (m_consumer_ptr b) EUndef in
  let* c := Consumer.scheduleEventAbsolute now future_time c in
  Ok (mk (m_msg_counter b) (m_consumer_ptr b) q, c).

Definition areNSlotsAvailable b (n current_time : Z) : bool := true.

End WireBuffer.
Arguments t A : clear implicits.
End WireBuffer.

(** ** Messages at different times stay in order *)

Section InOrder.
Import Message WireBuffer.
Context {A : Type} `{HeapLaws (Message.t A)}.
Implicit Types (now : Z) (c : Consumer.t) (b : WireBuffer.t A) (m : Message.t A).

(** [ms] are the messages on the wire, the earliest first, all arriving before
    [last] or at it. *)
Definition on_wire b (last : Z) (ms : list (Message.t A)) : Prop :=
  is_heap gt (m_message_queue b) ∧ m_message_queue b ≡ₚ ms ∧
  StronglySorted (λ x y, m_LastEnqueueTime x < m_LastEnqueueTime y) ms ∧
  Forall (λ m, m_LastEnqueueTime m ≤ last) ms ∧ m_consumer_ptr b = true.

(** A message that comes after all others may be put at the end of a heap. *)
Lemma is_heap_snoc {B} (comp : B → B → bool) l x :
  is_heap comp l → (∀ y, y ∈ l → comp y x = false) → is_heap comp (l ++ [x]).
Proof.
  intros Hh Hx i y z Hi Hy Hz.
  assert ((i - 1) / 2 < i)%nat as Hlt by (apply Nat.Div0.div_lt_upper_bound; lia).
  pose proof (lookup_lt_Some _ _ _ Hz) as Hil. rewrite length_app in Hil. simpl in Hil.
  rewrite lookup_app_l in Hy by lia. apply lookup_app_Some in Hz as [Hz|[Hge Hz]].
  - by eapply Hh.
  - apply list_lookup_singleton_Some in Hz as [_ <-]. apply Hx. by eapply list_elem_of_lookup_2.
Qed.

Lemma StronglySorted_weaken {B} (R S : B → B → Prop) l :
  (∀ x y, R x y → S x y) → StronglySorted R l → StronglySorted S l.
Proof. intros HRS. induction 1; constructor; [done|]. eapply Forall_impl; [done|]. auto. Qed.

Lemma wire_enqueue now c b m delta last ms :
  on_wire b last ms → armed now c → 0 < delta → last < now + delta →
  now + delta + 2 * Clocked.clockPeriod (Consumer.em c) < 2 ^ 64 →
  ∃ b' c' m', enqueue now c b m now delta = Ok (b', c') ∧ on_wire b' (now + delta) (ms ++ [m']) ∧
    armed now c' ∧ payload m' = payload m.
Proof.
  intros (Hh & Hp & Hs & Hl & Hc) Harm Hd Hlast Hov. pose proof Harm as [(Hcw & Hn & _) _].
  pose proof Hcw as (Hper & _). unfold enqueue. rewrite (u64_small (now + delta)) by lia.
  rewrite (proj2 (Z.ltb_lt now _)) by lia. simpl. rewrite Hc.
  destruct (request_spec now (now + delta) c) as (c' & -> & Harm' & _); [apply Harm|lia|lia|]. simpl.
  set (m' := setLastEnqueueTime m (now + delta)). eexists _, c', m'. split; [done|].
  rewrite Forall_forall in Hl. split; [split_and!; simpl|done].
  - apply is_heap_snoc; [done|]. intros y Hy. rewrite Hp in Hy. specialize (Hl y Hy).
    unfold gt, getLastEnqueueTime. simpl. rewrite (proj2 (Z.eqb_neq _ _)) by lia. apply Z.ltb_ge. lia.
  - by rewrite Hp.
  - apply StronglySorted_app_2; [|done|repeat constructor].
    intros x y Hx ->%list_elem_of_singleton. specialize (Hl x Hx). simpl. lia.
  - apply Forall_forall. intros x [Hx| ->%list_elem_of_singleton]%elem_of_app; simpl; [|lia].
    specialize (Hl x Hx). lia.
  - done.
Qed.

Lemma wire_dequeue now b last ms m h :
  on_wire b last ms → m_message_queue b = m :: h → m_LastEnqueueTime m ≤ now →
  ∃ rest b', ms = m :: rest ∧ peek b = Ok m ∧ dequeue b now = Ok b' ∧ on_wire b' last rest.
Proof.
  intros (Hh & Hp & Hs & Hl & Hc) E Hm. rewrite E in Hh, Hp.
  destruct ms as [|n ms]; [by apply Permutation_nil_r in Hp|].
  destruct (front_head h m ms n) as [-> Hp']; [done|done| |].
  { eapply StronglySorted_weaken; [|exact Hs]. intros x y Hxy. simpl in Hxy. unfold gt, getLastEnqueueTime.
    rewrite (proj2 (Z.eqb_neq _ _)) by lia. by apply Z.ltb_lt. }
  unfold peek, dequeue, isReady. rewrite E. simpl. unfold getLastEnqueueTime.
  rewrite (proj2 (Z.leb_le _ now)) by done. simpl. eexists _, _. split; [done|]. split; [done|].
  split; [done|]. destruct (pop_message_spec h n Hh) as [Hh2 Hp2]. unfold MessageBuffer.pop_message in *.
  split_and!; simpl; [done|by rewrite Hp2| | |done].
  - by apply StronglySorted_cons in Hs as [_ ?].
  - by apply Forall_cons in Hl as [_ ?].
Qed.

(** A run of a wire: messages are sent and received, time passes, and the
    receiver is woken. *)
Inductive wire_op := Send (m : Message.t A) (delta : Z) | Receive | Pass (t : Z) | Woken.

Definition wire_step now b c (o : wire_op) : res (Z * WireBuffer.t A * Consumer.t * list A * list A) :=
  match o with
  | Send m delta => let* (b, c) := enqueue now c b m now delta in Ok (now, b, c, [payload m], [])
  | Receive => let* m := peek b in let* b := dequeue b now in Ok (now, b, c, [], [payload m])
  | Pass t => Ok (t, b, c, [], [])
  | Woken => let* c := Consumer.processCurrentEvent now Ok c in Ok (now, b, c, [], [])
  end.

Fixpoint wire_run now b c (os : list wire_op) : res (Z * WireBuffer.t A * Consumer.t * list A * list A) :=
  match os with
  | [] => Ok (now, b, c, [], [])
  | o :: os =>
      let* (now, b, c, i, u) := wire_step now b c o in
      let* (now, b, c, ins, outs) := wire_run now b c os in
      Ok (now, b, c, i ++ ins, u ++ outs)
  end.

(** Each message arrives after the one sent before, at [last]; only a message that
    is due is received; the consumer is used as it may be. *)
Definition wire_legal (last now : Z) b c (o : wire_op) : bool :=
  match o with
  | Send m delta => (0 <? delta) && (last <? now + delta) &&
      (now + delta + 2 * Clocked.clockPeriod (Consumer.em c) <? 2 ^ 64)
  | Receive => isReady b now
  | Pass t => legalb now c (Advance t)
  | Woken => legalb now c (Fire [])
  end.

Fixpoint wire_legal_run (last now : Z) b c (os : list wire_op) : bool :=
  match os with
  | [] => true
  | o :: os => wire_legal last now b c o &&
      match wire_step now b c o with
      | Ok (now', b', c', _, _) =>
          wire_legal_run (match o with Send _ delta => now + delta | _ => last end) now' b' c' os
      | Err _ => true
      end
  end.

Lemma wire_step_spec last now b c o ms :
  on_wire b last ms → armed now c → wire_legal last now b c o = true →
  ∃ now' b' c' i u ms', wire_step now b c o = Ok (now', b', c', i, u) ∧
    on_wire b' (match o with Send _ delta => now + delta | _ => last end) ms' ∧ armed now' c' ∧
    (payload <$> ms) ++ i = u ++ (payload <$> ms').
Proof.
  intros Hb Hc. destruct o as [m delta| |t|]; cbn [wire_legal wire_step]; intros Hl.
  - reflect_bool.
    destruct (wire_enqueue now c b m delta last ms) as (b' & c' & m' & -> & Hb' & Hc' & Hm); [done..|].
    cbn [rbind]. do 6 eexists. split_and!; [done..|]. rewrite fmap_app. simpl. by rewrite Hm.
  - unfold isReady in Hl. destruct (m_message_queue b) as [|m h] eqn:E; [done|]. reflect_bool.
    destruct (wire_dequeue now b last ms m h) as (rest & b' & -> & -> & E2 & Hb'); [done..|].
    cbn [rbind]. rewrite E2. cbn [rbind]. do 6 eexists. split_and!; [done..|]. by rewrite app_nil_r.
  - apply wakeup_legalb_sound in Hl.
    destruct (step_spec now c (Advance t) Hc Hl) as (n & c' & sv & [= <- <- <-] & Hc' & _).
    do 6 eexists. split_and!; [done..|]. by rewrite app_nil_r.
  - apply wakeup_legalb_sound in Hl. destruct (fire_spec now [] c Hc Hl) as (c' & E & Hc' & _).
    cbn [Clocking.requests] in E. change (λ x : Consumer.t, Ok x) with (@Ok Consumer.t) in E.
    rewrite E. cbn [rbind]. do 6 eexists. split_and!; [done..|]. by rewrite app_nil_r.
Qed.

Lemma wire_run_spec os last now b c ms :
  on_wire b last ms → armed now c → wire_legal_run last now b c os = true →
  ∃ now' b' c' ins outs ms', wire_run now b c os = Ok (now', b', c', ins, outs) ∧
    m_message_queue b' ≡ₚ ms' ∧ (payload <$> ms) ++ ins = outs ++ (payload <$> ms').
Proof.
  revert last now b c ms. induction os as [|o os IH]; intros last now b c ms Hb Hc Hl; simpl in *.
  { do 6 eexists. split_and!; [done|apply Hb|]. by rewrite app_nil_r. }
  apply andb_prop in Hl as [Ho Hl].
  destruct (wire_step_spec last now b c o ms Hb Hc Ho) as (n1 & b1 & c1 & i & u & ms1 & E & Hb1 & Hc1 & Heq).
  rewrite E in *. cbn [rbind].
  destruct (IH _ n1 b1 c1 ms1 Hb1 Hc1 Hl) as (n2 & b2 & c2 & ins & outs & ms2 & -> & ? & Heq2).
  cbn [rbind]. do 6 eexists. split_and!; [done|done|].
  by rewrite app_assoc, Heq, <- !app_assoc, Heq2.
Qed.

(** A wire keeps messages in order when no two of them arrive at the same
    time. In every legal run from a new buffer no assertion fails, and what was
    sent is what was received followed by what is still on the wire, although
    [enqueue] only appends to the vector that [dequeue] treats as a heap. *)
Theorem wire_in_order (period : Z) (garbage : bool) (os : list wire_op) (Hp : 0 < period)
    (Hov : 2 * period < 2 ^ 64)
    (Hl : wire_legal_run 0 0 (setConsumer (new garbage)) (Consumer.new (Clocked.new period)) os = true) :
  ∃ now b c ins outs ms,
    wire_run 0 (setConsumer (new garbage)) (Consumer.new (Clocked.new period)) os
      = Ok (now, b, c, ins, outs) ∧
    m_message_queue b ≡ₚ ms ∧ ins = outs ++ (payload <$> ms).
Proof.
  assert (on_wire (setConsumer (new garbage)) 0 []) as Hw.
  { split_and!; simpl; [apply is_heap_nil|done|constructor|constructor|done]. }
  destruct (wire_run_spec os 0 0 (setConsumer (new garbage)) (Consumer.new (Clocked.new period)) [])
    as (n & b & c & ins & outs & ms & ? & ? & ?); [done|by apply armed_new|done|].
  by exists n, b, c, ins, outs, ms.
Qed.

End InOrder.

(** ** Messages at the same time *)

Section Wires.
Import Message WireBuffer.

Definition fresh (a : nat) : Message.t nat := Message.new 0 0 a.

Lemma wire_in_order_witness :
  ∃ now b c ms,
    wire_run 0 (setConsumer (new false)) (Consumer.new (Clocked.new 500))
      [Send (fresh 1) 500; Pass 100; Send (fresh 2) 900; Pass 500; Woken; Receive; Send (fresh 3) 2000]
      = Ok (now, b, c, [1; 2; 3]%nat, [1]%nat) ∧
    m_message_queue b ≡ₚ ms ∧ payload <$> ms = [2; 3]%nat.
Proof.
  destruct (wire_in_order 500 false
      [Send (fresh 1) 500; Pass 100; Send (fresh 2) 900; Pass 500; Woken; Receive; Send (fresh 3) 2000])
    as (now & b & c & ins & outs & ms & E & Hm & Heq); [done|done|by vm_compute|].
  exists now, b, c, ms. split; [|split; [done|]].
  - rewrite E. vm_compute in E. injection E as <- <- <- <- <-. done.
  - vm_compute in E. injection E as _ _ _ <- <-. by injection Heq as <-.
Defined.

(** Four messages that arrive together are received in another order than they
    were sent in. *)
Lemma wire_reorders :
  ∃ now b c, wire_run 0 (setConsumer (new false)) (Consumer.new (Clocked.new 500))
      [Send (fresh 1) 500; Send (fresh 2) 500; Send (fresh 3) 500; Send (fresh 4) 500;
       Pass 500; Woken; Receive; Receive; Receive; Receive]
    = Ok (now, b, c, [1; 2; 3; 4]%nat, [1; 3; 2; 4]%nat).
Proof. do 3 eexists. by vm_compute. Qed.

End Wires.
