(* ===== verification/Prefetcher.v ===== *)
(** base/circular_queue.hh and mem/ruby/structures/RubyPrefetcher.cc: the stride
    prefetcher of the Ruby caches and the circular queues its filters are. *)

From stdpp Require Import prelude gmap list.
From Stdlib Require Import ZArith Lia.
From S2P Require Import Prelude Bits.
Import Bitfield IntMath.

Open Scope Z_scope.

(** ** base/circular_queue.hh *)

Module CircularQueue.
Section CircularQueue.
Context {T : Type}.

(** Indices grow without end and select the slot modulo the capacity. *)
Record t := mk { data : list T; _capacity : Z; _size : Z; _head : Z }.
Implicit Types q : t.

(** [dflt] is the default-constructed element. *)
Definition new (dflt : T) (size : Z) : t := mk (replicate (Z.to_nat size) dflt) size 0 1.

Definition at_ q (index : Z) : res T :=
  assert! 0 <=? index in
  let* _ := require (negb (_capacity q =? 0)) EUndef in
  vget (data q) (index mod _capacity q).

Definition set_at q (index : Z) (val : T) : res t :=
  assert! 0 <=? index in
  let* _ := require (negb (_capacity q =? 0)) EUndef in
  let* l := vset (data q) (index mod _capacity q) val in
  Ok (mk l (_capacity q) (_size q) (_head q)).

Definition with_window q (size head : Z) : t := mk (data q) (_capacity q) size head.

Definition flush q : t := with_window q 0 1.
Definition isValidIdx q (idx : Z) : bool := (_head q <=? idx) && (idx <? u64 (_head q + _size q)).
Definition head q : Z := _head q.
Definition tail q : Z := u64 (_head q + _size q - 1).
Definition front q : res T := at_ q (head q).
Definition back q : res T := at_ q (tail q).
Definition capacity q : Z := _capacity q.
Definition size q : Z := _size q.
Definition empty q : bool := _size q =? 0.
Definition full q : bool := _size q =? _capacity q.

Definition pop_front q (num_elem : Z) : res t :=
  assert! num_elem <=? size q in
  Ok (with_window q (u64 (_size q - num_elem)) (u64 (_head q + num_elem))).

Definition pop_back q : res t :=
  assert! negb (empty q) in Ok (with_window q (u64 (_size q - 1)) (_head q)).

Definition advance_tail q : t :=
  if full q then with_window q (_size q) (u64 (_head q + 1))
  else with_window q (u64 (_size q + 1)) (_head q).

Definition advance_tail_by q (len : Z) : t :=
  let remaining := u64 (_capacity q - _size q) in
  if remaining <? len
  then let overflow := u64 (len - remaining) in
       with_window q (u64 (_size q + u64 (len - overflow))) (u64 (_head q + overflow))
  else with_window q (u64 (_size q + len)) (_head q).

Definition push_back q (val : T) : res t :=
  let q := advance_tail q in set_at q (tail q) val.

Definition begin_ q : Z := _head q.
Definition end_ q : Z := u64 (tail q + 1).

(** [for (auto& entry : q)] up to the first element that satisfies [p]: its index
    in the queue. *)
Definition find_entry q (p : T → bool) : res (option Z) :=
  find_from (Z.to_nat (u64 (end_ q - begin_ q))) (begin_ q)
    (λ idx, let* e := at_ q (u64 idx) in Ok (if p e then Some (u64 idx) else None)).

End CircularQueue.
Arguments t T : clear implicits.
End CircularQueue.

(** ** mem/ruby/structures/RubyPrefetcher.cc *)

Module RubyPrefetcher.
Section RubyPrefetcher.
(** The type of requests is generated with the protocol. *)
Context {RubyRequestType : Type}.

Definition MAX_PF_INFLIGHT : Z := 8.

Record PrefetchEntry := mkEntry {
  m_address : Z; m_stride : Z; m_use_time : Z; m_is_valid : bool; m_type : RubyRequestType;
  requestIssued : Z; requestCompleted : Z }.

(** The constructor leaves the address and the type as they happen to be. *)
Definition new_entry (address : Z) (type : RubyRequestType) (block_size : Z) : res PrefetchEntry :=
  let* b := floorLog2 4 block_size in
  let* s := chk_i32 (Z.shiftl 1 b) in
  Ok (mkEntry address s 0 false type 0 0).

(** [addr] and [hits]. *)
Record UnitFilterEntry := mkUnit { u_addr : Z; u_hits : Z }.

Definition new_unit (addr : Z) : UnitFilterEntry := mkUnit addr 0.

Record NonUnitFilterEntry := mkNonUnit { n_addr : Z; n_hits : Z; n_stride : Z }.

Definition new_nonunit (addr : Z) : NonUnitFilterEntry := mkNonUnit addr 0 0.
Definition clear_nonunit (e : NonUnitFilterEntry) : NonUnitFilterEntry := mkNonUnit 0 0 0.

Record Stats := mkStats {
  numMissObserved : Z; numAllocatedStreams : Z; numPrefetchRequested : Z; numHits : Z;
  numPartialHits : Z; numPagesCrossed : Z; numMissedPrefetchedBlocks : Z }.

Record Config := mkConfig {
  m_num_streams : Z; m_train_misses : Z; m_num_startup_pfs : Z; m_prefetch_cross_pages : bool;
  pageShift : Z; m_block_size_bits : Z; m_block_size_bytes : Z }.

(** [m_controller] is seen as the prefetches enqueued with it, in order. *)
Record t := mk {
  cfg : Config; m_array : list PrefetchEntry;
  unitFilter : CircularQueue.t UnitFilterEntry; negativeFilter : CircularQueue.t UnitFilterEntry;
  nonUnitFilter : CircularQueue.t NonUnitFilterEntry;
  m_controller : list (Z * RubyRequestType); rubyPrefetcherStats : Stats }.
Implicit Types p : t.

Record Params := mkParams {
  num_streams : Z; unit_filter : Z; nonunit_filter : Z; train_misses : Z; num_startup_pfs : Z;
  cross_page : bool; page_shift : Z; block_size : Z }.

Definition new (address : Z) (type : RubyRequestType) (P : Params) : res t :=
  let* e := new_entry address type (i32 (block_size P)) in
  let* bits := floorLog2 4 (block_size P) in
  let g := mkConfig (num_streams P) (train_misses P) (num_startup_pfs P) (cross_page P)
             (page_shift P) bits (i32 (block_size P)) in
  assert! 0 <? num_streams P in
  assert! num_startup_pfs P <=? MAX_PF_INFLIGHT in
  Ok (mk g (replicate (Z.to_nat (num_streams P)) e)
         (CircularQueue.new (new_unit 0) (unit_filter P)) (CircularQueue.new (new_unit 0) (unit_filter P))
         (CircularQueue.new (new_nonunit 0) (nonunit_filter P)) [] (mkStats 0 0 0 0 0 0 0)).

(** Updates of one part of the state. *)
Definition with_array p (l : list PrefetchEntry) : t :=
  mk (cfg p) l (unitFilter p) (negativeFilter p) (nonUnitFilter p) (m_controller p)
     (rubyPrefetcherStats p).
Definition with_nonunit p (f : CircularQueue.t NonUnitFilterEntry) : t :=
  mk (cfg p) (m_array p) (unitFilter p) (negativeFilter p) f (m_controller p)
     (rubyPrefetcherStats p).
Definition with_stats p (s : Stats) : t :=
  mk (cfg p) (m_array p) (unitFilter p) (negativeFilter p) (nonUnitFilter p) (m_controller p) s.
Definition enqueuePrefetch p (line_addr : Z) (type : RubyRequestType) : t :=
  mk (cfg p) (m_array p) (unitFilter p) (negativeFilter p) (nonUnitFilter p)
     (m_controller p ++ [(line_addr, type)]) (rubyPrefetcherStats p).

(** The two unit-stride filters, which [accessUnitFilter] gets by pointer. *)
Inductive UnitFilter := UnitStride | NegativeStride.

Definition filter_of (f : UnitFilter) p : CircularQueue.t UnitFilterEntry :=
  match f with UnitStride => unitFilter p | NegativeStride => negativeFilter p end.
Definition with_filter (f : UnitFilter) p (q : CircularQueue.t UnitFilterEntry) : t :=
  match f with
  | UnitStride => mk (cfg p) (m_array p) q (negativeFilter p) (nonUnitFilter p) (m_controller p)
                     (rubyPrefetcherStats p)
  | NegativeStride => mk (cfg p) (m_array p) (unitFilter p) q (nonUnitFilter p) (m_controller p)
                         (rubyPrefetcherStats p)
  end.

(** One more of one statistic. *)
Inductive Stat :=
  | MissObserved | AllocatedStreams | PrefetchRequested | Hits | PartialHits | PagesCrossed
  | MissedPrefetchedBlocks.

#[global] Instance Stat_eq_dec : EqDecision Stat.
Proof. solve_decision. Defined.

Definition count (k : Stat) p : t :=
  let '(mkStats mo al rq hi ph cr mi) := rubyPrefetcherStats p in
  with_stats p
    match k with
    | MissObserved => mkStats (mo + 1) al rq hi ph cr mi
    | AllocatedStreams => mkStats mo (al + 1) rq hi ph cr mi
    | PrefetchRequested => mkStats mo al (rq + 1) hi ph cr mi
    | Hits => mkStats mo al rq (hi + 1) ph cr mi
    | PartialHits => mkStats mo al rq hi (ph + 1) cr mi
    | PagesCrossed => mkStats mo al rq hi ph (cr + 1) mi
    | MissedPrefetchedBlocks => mkStats mo al rq hi ph cr (mi + 1)
    end.

Definition modify p (i : Z) (f : PrefetchEntry → PrefetchEntry) : res t :=
  let* e := vget (m_array p) i in
  let* l := vset (m_array p) i (f e) in Ok (with_array p l).

Definition set_valid (v : bool) (e : PrefetchEntry) : PrefetchEntry :=
  mkEntry (m_address e) (m_stride e) (m_use_time e) v (m_type e) (requestIssued e) (requestCompleted e).
Definition set_address (a : Z) (e : PrefetchEntry) : PrefetchEntry :=
  mkEntry a (m_stride e) (m_use_time e) (m_is_valid e) (m_type e) (requestIssued e) (requestCompleted e).
Definition set_use_time (c : Z) (e : PrefetchEntry) : PrefetchEntry :=
  mkEntry (m_address e) (m_stride e) c (m_is_valid e) (m_type e) (requestIssued e) (requestCompleted e).

Definition pageAddress p (addr : Z) : Z := mbits addr 63 (pageShift (cfg p)).

Definition makeNextStrideAddress p (addr stride : Z) : res Z :=
  Address.makeNextStrideAddress addr stride (m_block_size_bytes (cfg p)).

(** Whether [address] is one of the last prefetches of a stream. *)
Definition in_stream p (e : PrefetchEntry) (address : Z) : res bool :=
  let* r := find_from (Z.to_nat (m_num_startup_pfs (cfg p))) 0
    (λ j, let* d := chk_i32 (m_stride e * j) in
          let* d := chk_i32 (- d) in
          let* a := makeNextStrideAddress p (m_address e) d in
          Ok (if a =? address then Some () else None)) in
  Ok (bool_decide (is_Some r)).

(** The stream as its position in [m_array]; the reference argument [index] is
    never assigned. *)
Definition getPrefetchEntry p (address : Z) : res (option Z) :=
  find_from (Z.to_nat (m_num_streams (cfg p))) 0
    (λ i, let* e := vget (m_array p) i in
          if m_is_valid e
          then let* b := in_stream p e address in Ok (if b : bool then Some i else None)
          else Ok None).

(** [cyc] is [m_controller->curCycle()]. *)
Definition extend_stream (cyc : Z) p (stream : Z) : res t :=
  let* e := vget (m_array p) stream in
  let page_addr := pageAddress p (m_address e) in
  let* line_addr := makeNextStrideAddress p (m_address e) (m_stride e) in
  let crossed := negb (page_addr =? pageAddress p line_addr) in
  if crossed && negb (m_prefetch_cross_pages (cfg p))
  then modify p stream (set_valid false)
  else
    let p := if crossed then count PagesCrossed p else p in
    let p := count PrefetchRequested p in
    let* p := modify p stream (set_address line_addr) in
    let* p := modify p stream (set_use_time cyc) in
    Ok (enqueuePrefetch p line_addr (m_type e)).

Definition issueNextPrefetch (cyc : Z) p (address : Z) (stream : option Z) : res t :=
  let* stream := (match stream with None => getPrefetchEntry p address | Some i => Ok (Some i) end) in
  match stream with None => Ok p | Some i => extend_stream cyc p i end.

Definition observePfMiss (cyc : Z) p (address : Z) : res t :=
  issueNextPrefetch cyc (count PartialHits p) address None.

Definition observePfHit (cyc : Z) p (address : Z) : res t :=
  issueNextPrefetch cyc (count Hits p) address None.

(** The loop of [getLRUindex] from stream [i] on, [n] streams to go. *)
Fixpoint lru_scan (l : list PrefetchEntry) (n : nat) (i lru_index lru_access : Z) : res Z :=
  match n with
  | O => Ok lru_index
  | S n =>
      let* e := vget l i in
      if negb (m_is_valid e) then Ok i
      else if m_use_time e <? lru_access then lru_scan l n (i + 1) i (m_use_time e)
      else lru_scan l n (i + 1) lru_index lru_access
  end.

Definition getLRUindex p : res Z :=
  let* e := vget (m_array p) 0 in
  lru_scan (m_array p) (Z.to_nat (m_num_streams (cfg p))) 0 0 (m_use_time e).

(** The loop that launches the first prefetches of a stream; the last address, or
    nothing if the stream was given up at the end of its page. *)
Fixpoint start_prefetches p (index page_addr stride : Z) (n : nat) (line_addr : Z)
    : res (t * option Z) :=
  match n with
  | O => Ok (p, Some line_addr)
  | S n =>
      let* line_addr := makeNextStrideAddress p line_addr stride in
      let crossed := negb (page_addr =? pageAddress p line_addr) in
      if crossed && negb (m_prefetch_cross_pages (cfg p))
      then let* p := modify p index (set_valid false) in Ok (p, None)
      else
        let p := if crossed then count PagesCrossed p else p in
        let p := count PrefetchRequested p in
        let* e := vget (m_array p) index in
        start_prefetches (enqueuePrefetch p line_addr (m_type e)) index page_addr stride n line_addr
  end.

Definition initializeStream (cyc : Z) p (address stride index : Z) (type : RubyRequestType) : res t :=
  let p := count AllocatedStreams p in
  let* line := Address.makeLineAddress address (m_block_size_bits (cfg p)) in
  let* p := modify p index (λ e, mkEntry line stride cyc true type (requestIssued e) (requestCompleted e)) in
  let page_addr := pageAddress p line in
  let* line_addr := Address.makeLineAddress line (m_block_size_bits (cfg p)) in
  let* r := start_prefetches p index page_addr stride (Z.to_nat (m_num_startup_pfs (cfg p))) line_addr in
  match r with
  | (p, None) => Ok p
  | (p, Some line_addr) => modify p index (set_address line_addr)
  end.

Definition accessUnitFilter (cyc : Z) p (f : UnitFilter) (line_addr stride : Z) (type : RubyRequestType)
    : res (bool * t) :=
  let q := filter_of f p in
  let* found := CircularQueue.find_entry q (λ e, u_addr e =? line_addr) in
  match found with
  | Some idx =>
      let* entry := CircularQueue.at_ q idx in
      let* addr := makeNextStrideAddress p (u_addr entry) stride in
      let entry := mkUnit addr (u32 (u_hits entry + 1)) in
      let* q := CircularQueue.set_at q idx entry in
      let p := with_filter f p q in
      let* p := (if m_train_misses (cfg p) <=? u_hits entry
                 then let* i := getLRUindex p in initializeStream cyc p line_addr stride i type
                 else Ok p) in
      Ok (true, p)
  | None =>
      let* addr := makeNextStrideAddress p line_addr stride in
      let* q := CircularQueue.push_back q (new_unit addr) in
      Ok (false, with_filter f p q)
  end.

Definition accessNonunitFilter (cyc : Z) p (line_addr : Z) (type : RubyRequestType) : res (bool * t) :=
  let page_addr := pageAddress p line_addr in
  let* found := CircularQueue.find_entry (nonUnitFilter p) (λ e, pageAddress p (n_addr e) =? page_addr) in
  match found with
  | Some idx =>
      let* entry := CircularQueue.at_ (nonUnitFilter p) idx in
      let delta := i32 (u64 (line_addr - n_addr entry)) in
      if negb (delta =? 0) then
        let* ep :=
          (if delta =? n_stride entry then
             let entry := mkNonUnit (n_addr entry) (u32 (n_hits entry + 1)) (n_stride entry) in
             if m_train_misses (cfg p) <? n_hits entry then
               let* _ := require (negb (m_block_size_bytes (cfg p) =? 0)) EUndef in
               let* stride := chk_i32 (n_stride entry ÷ m_block_size_bytes (cfg p)) in
               let entry := clear_nonunit entry in
               let* i := getLRUindex p in
               let* p := initializeStream cyc p line_addr stride i type in
               Ok (entry, p)
             else Ok (entry, p)
           else Ok (mkNonUnit (n_addr entry) 0 (n_stride entry), p)) in
        let '(entry, p) := ep : NonUnitFilterEntry * t in
        let* q := CircularQueue.set_at (nonUnitFilter p) idx (mkNonUnit line_addr (n_hits entry) delta) in
        Ok (true, with_nonunit p q)
      else Ok (false, p)
  | None =>
      let* q := CircularQueue.push_back (nonUnitFilter p) (new_nonunit line_addr) in
      Ok (false, with_nonunit p q)
  end.

Definition observeMiss (cyc : Z) p (address : Z) (type : RubyRequestType) : res t :=
  let* line_addr := Address.makeLineAddress address (m_block_size_bits (cfg p)) in
  let p := count MissObserved p in
  let index := 0 in
  let* pfEntry := getPrefetchEntry p line_addr in
  match pfEntry with
  | Some i =>
      let* e := vget (m_array p) i in
      if Z.testbit (requestIssued e) index then
        if Z.testbit (requestCompleted e) index then Ok (count MissedPrefetchedBlocks p)
        else observePfMiss cyc (count PartialHits p) line_addr
      else Ok p
  | None =>
      let* r := accessUnitFilter cyc p UnitStride line_addr 1 type in
      let '(hit, p) := r : bool * t in
      if hit then Ok p else
      let* r := accessUnitFilter cyc p NegativeStride line_addr (-1) type in
      let '(hit, p) := r : bool * t in
      if hit then Ok p else
      let* r := accessNonunitFilter cyc p line_addr type in
      let '(hit, p) := r : bool * t in Ok p
  end.

End RubyPrefetcher.
Arguments t RubyRequestType : clear implicits.
Arguments PrefetchEntry RubyRequestType : clear implicits.
End RubyPrefetcher.
