(* ===== verification/PrefetcherSpec.v ===== *)
(** Theorems about base/circular_queue.hh and the stride prefetcher: a circular
    queue is a bounded queue, prefetches stay in the page of the access that caused
    them, and misses to consecutive lines start a stream. *)

From stdpp Require Import prelude gmap list.
From Stdlib Require Import ZArith Lia.
From S2P Require Import Prelude Bits Prefetcher.

Open Scope Z_scope.

(** ** Circular queues *)

Section Queues.
Import CircularQueue.
Context {T : Type}.
Implicit Types (q : t T) (l : list T).

(** [q] holds the elements [l], the oldest one first. *)
Definition represents q l : Prop :=
  zlen (data q) = _capacity q ∧ zlen l = _size q ∧ 0 ≤ _size q ≤ _capacity q ∧
  1 ≤ _head q ∧ _head q + _size q < 2 ^ 64 ∧
  ∀ k x, l !! k = Some x → vget (data q) ((_head q + Z.of_nat k) mod _capacity q) = Ok x.

Lemma mod_window c h i j : 0 ≤ i < c → 0 ≤ j < c → (h + i) mod c = (h + j) mod c → i = j.
Proof.
  intros Hi Hj Heq. apply (f_equal (λ x, (x - h) mod c)) in Heq. rewrite !Zminus_mod_idemp_l in Heq.
  rewrite !(Z.add_comm h), !Z.add_simpl_r, !Z.mod_small in Heq by lia. done.
Qed.

(** The element at an index of the window. *)
Lemma at_spec q l k x : represents q l → l !! k = Some x →
  at_ q (_head q + Z.of_nat k) = Ok x.
Proof.
  intros (Hd & Hl & Hs & Hh & Hw & Hk) Hx. unfold at_. rewrite (proj2 (Z.leb_le _ _)) by lia. simpl.
  pose proof (lookup_lt_Some _ _ _ Hx). destruct (Z.eqb_spec (_capacity q) 0); [lia|]. simpl. by apply Hk.
Qed.

(** Writing an element of the window, or the slot behind it if there is one. *)
Lemma set_at_spec q l k x : represents q l → (k < length l)%nat →
  ∃ q', set_at q (_head q + Z.of_nat k) x = Ok q' ∧ represents q' (<[k := x]> l) ∧
    _head q' = _head q ∧ _capacity q' = _capacity q.
Proof.
  intros (Hd & Hl & Hs & Hh & Hw & Hk) Hlt. unfold set_at. rewrite (proj2 (Z.leb_le _ _)) by lia. simpl.
  destruct (Z.eqb_spec (_capacity q) 0); [lia|]. simpl.
  pose proof (Z.mod_pos_bound (_head q + Z.of_nat k) (_capacity q)).
  destruct (vset (data q) ((_head q + Z.of_nat k) mod _capacity q) x) as [d|] eqn:Ev;
    [|rewrite vset_inbounds in Ev by lia; done].
  simpl. eexists. split; [done|]. split; [|done]. pose proof (vset_length _ _ _ _ Ev).
  split; [simpl; lia|]. split; [by rewrite length_insert|]. do 3 (split; [done|]). simpl.
  intros k' y. destruct (decide (k' = k)) as [->|Hne].
  - rewrite list_lookup_insert_eq by done. intros [= <-]. by apply vget_vset_eq in Ev.
  - rewrite list_lookup_insert_ne by done. intros Hy. pose proof (lookup_lt_Some _ _ _ Hy).
    erewrite vget_vset_ne by (done || intros ?%mod_window; lia). by apply Hk.
Qed.

Lemma tail_spec q l : represents q l → tail q = _head q + _size q - 1.
Proof. intros (? & ? & ? & ? & ? & ?). apply u64_small. lia. Qed.

Lemma end_spec q l : represents q l → end_ q = _head q + _size q.
Proof.
  intros Hq. unfold end_. rewrite (tail_spec q l Hq). destruct Hq as (? & ? & ? & ? & ? & ?).
  rewrite Z.sub_add. apply u64_small. lia.
Qed.

(** Moving the tail leaves one slot to be written at the end. *)
Lemma advance_tail_spec q l : represents q l → 0 < _capacity q → _head q + _size q + 1 < 2 ^ 64 →
  ∃ y, represents (advance_tail q) ((if full q then drop 1 l else l) ++ [y]) ∧
    _head (advance_tail q) + _size (advance_tail q) = _head q + _size q + 1 ∧
    _capacity (advance_tail q) = _capacity q.
Proof.
  intros (Hd & Hl & Hs & Hh & Hw & Hk) Hc Hov.
  destruct (vget_inbounds (data q) ((_head q + _size q) mod _capacity q)) as (y & Ey & _).
  { rewrite Hd. apply Z.mod_pos_bound. lia. }
  exists y. unfold advance_tail, full. destruct (Z.eqb_spec (_size q) (_capacity q)) as [He|He]; simpl.
  - rewrite u64_small by lia. destruct l as [|x l]; simpl in *; [lia|].
    rewrite drop_0. split; [|lia]. split; [done|]. split; [simpl; rewrite length_app; simpl; lia|].
    do 3 (split; [simpl; lia|]). simpl. intros k z.
    intros [Hz|[Hlen [? Hz]%list_lookup_singleton_Some]]%lookup_app_Some.
    + rewrite <- (Hk (S k) z Hz). do 2 f_equal. lia.
    + subst z. rewrite <- Ey. do 2 f_equal. lia.
  - rewrite u64_small by lia. split; [|lia]. split; [done|].
    split; [simpl; rewrite length_app; simpl; lia|]. do 3 (split; [simpl; lia|]). simpl. intros k z.
    intros [Hz|[Hlen [? Hz]%list_lookup_singleton_Some]]%lookup_app_Some; [by apply Hk|].
    subst z. rewrite <- Ey. do 2 f_equal. lia.
Qed.

Lemma queue_push_spec q l x : represents q l → 0 < _capacity q → _head q + _size q + 1 < 2 ^ 64 →
  ∃ q', push_back q x = Ok q' ∧ represents q' ((if full q then drop 1 l else l) ++ [x]) ∧
    _head q' + _size q' = _head q + _size q + 1 ∧ _capacity q' = _capacity q.
Proof.
  intros Hq Hc Hov. destruct (advance_tail_spec q l Hq Hc Hov) as (y & Hr & Hsum & Hcap).
  unfold push_back. rewrite (tail_spec _ _ Hr). set (l0 := if full q then drop 1 l else l) in *.
  pose proof Hr as (_ & Hlen & _). rewrite length_app in Hlen. simpl in Hlen.
  destruct (set_at_spec _ _ (length l0) x Hr) as (q' & E & Hq' & Eh & Ec); [rewrite length_app; simpl; lia|].
  replace (_head (advance_tail q) + _size (advance_tail q) - 1)
    with (_head (advance_tail q) + Z.of_nat (length l0)) by lia.
  exists q'. split; [done|]. rewrite insert_app_r_alt, Nat.sub_diag in Hq' by done.
  split; [done|]. split; [|congruence].
  destruct Hq' as (_ & Hl' & _). rewrite length_app in Hl'. simpl in Hl'. lia.
Qed.

Lemma pop_front_spec q l n : represents q l → 0 ≤ n ≤ _size q →
  ∃ q', pop_front q n = Ok q' ∧ represents q' (drop (Z.to_nat n) l) ∧
    _head q' + _size q' = _head q + _size q ∧ _capacity q' = _capacity q.
Proof.
  intros (Hd & Hl & Hs & Hh & Hw & Hk) Hn. unfold pop_front, size.
  rewrite (proj2 (Z.leb_le _ _)) by lia. simpl. rewrite !u64_small by lia. eexists. split; [done|].
  split; [|simpl; lia]. split; [done|]. split; [simpl; rewrite length_drop; lia|].
  do 3 (split; [simpl; lia|]). simpl. intros k x. rewrite lookup_drop. intros Hx.
  rewrite <- (Hk _ _ Hx). do 2 f_equal. lia.
Qed.

Lemma pop_back_spec q l : represents q l → 0 < _size q →
  ∃ q', pop_back q = Ok q' ∧ represents q' (take (length l - 1) l) ∧
    _head q' + _size q' ≤ _head q + _size q ∧ _capacity q' = _capacity q.
Proof.
  intros (Hd & Hl & Hs & Hh & Hw & Hk) Hn. unfold pop_back, empty.
  destruct (Z.eqb_spec (_size q) 0); [lia|]. simpl. rewrite u64_small by lia. eexists. split; [done|].
  split; [|simpl; lia]. split; [done|]. split; [simpl; rewrite length_take; lia|].
  do 3 (split; [simpl; lia|]). simpl. intros k x. rewrite lookup_take_Some. intros [Hx _]. by apply Hk.
Qed.

(** The loops over a queue find the first element that satisfies their test. *)
Lemma find_entry_spec q l p : represents q l →
  ∃ r, find_entry q p = Ok r ∧
    match r with
    | Some idx => ∃ k x, idx = _head q + Z.of_nat k ∧ l !! k = Some x ∧ p x = true ∧
        ∀ k' y, (k' < k)%nat → l !! k' = Some y → p y = false
    | None => ∀ k x, l !! k = Some x → p x = false
    end.
Proof.
  intros Hq. pose proof Hq as (Hd & Hl & Hs & Hh & Hw & Hk).
  set (g := λ idx, match l !! Z.to_nat (idx - _head q) with
                   | Some x => if p x then Some idx else None | None => None end).
  unfold find_entry, begin_. rewrite (end_spec q l Hq), u64_small by lia.
  replace (_head q + _size q - _head q) with (_size q) by lia.
  destruct (find_from_spec (λ idx, let* e := at_ q (u64 idx) in Ok (if p e then Some (u64 idx) else None))
    g (Z.to_nat (_size q)) (_head q)) as (r & -> & Hr).
  { intros j Hj. rewrite u64_small by lia. unfold g.
    destruct (lookup_lt_is_Some_2 l (Z.to_nat (j - _head q))) as [x Hx]; [lia|].
    rewrite Hx. pose proof (at_spec q l _ x Hq Hx) as Ha.
    replace (_head q + Z.of_nat (Z.to_nat (j - _head q))) with j in Ha by lia. by rewrite Ha. }
  assert (∀ k, g (_head q + Z.of_nat k) = match l !! k with
    | Some x => if p x then Some (_head q + Z.of_nat k) else None | None => None end) as Hg.
  { intros k. unfold g. by replace (Z.to_nat (_head q + Z.of_nat k - _head q)) with k by lia. }
  exists r. split; [done|]. destruct r as [idx|].
  - destruct Hr as (j & Hj & Eg & Hbefore). replace j with (_head q + Z.of_nat (Z.to_nat (j - _head q))) in * by lia.
    set (k := Z.to_nat (j - _head q)) in *. rewrite Hg in Eg. destruct (l !! k) as [x|] eqn:Ex; [|done].
    destruct (p x) eqn:Ep; [|done]. injection Eg as <-. exists k, x. do 3 (split; [done|]).
    intros k' y Hk' Hy. specialize (Hbefore (_head q + Z.of_nat k')). rewrite Hg, Hy in Hbefore.
    destruct (p y); [|done]. discriminate Hbefore. lia.
  - intros k x Hx. specialize (Hr (_head q + Z.of_nat k)). rewrite Hg, Hx in Hr.
    pose proof (lookup_lt_Some _ _ _ Hx). destruct (p x); [|done]. discriminate Hr. lia.
Qed.

(** *** Runs *)

Inductive queue_op := Push (x : T) | PopFront (n : nat) | PopBack | Flush.

Definition queue_step q (o : queue_op) : res (t T) :=
  match o with
  | Push x => push_back q x
  | PopFront n => pop_front q (Z.of_nat n)
  | PopBack => pop_back q
  | Flush => Ok (flush q)
  end.

Fixpoint queue_run q (os : list queue_op) : res (t T) :=
  match os with [] => Ok q | o :: os => let* q := queue_step q o in queue_run q os end.

(** A queue of at most [cap] elements that forgets the oldest one when it is full;
    taking more elements than there are is an error. *)
Definition bounded_step (cap : Z) l (o : queue_op) : option (list T) :=
  match o with
  | Push x => Some ((if zlen l =? cap then drop 1 l else l) ++ [x])
  | PopFront n => if (n <=? length l)%nat then Some (drop n l) else None
  | PopBack => if (0 <? length l)%nat then Some (take (length l - 1) l) else None
  | Flush => Some []
  end.

Fixpoint bounded_run (cap : Z) l (os : list queue_op) : option (list T) :=
  match os with
  | [] => Some l
  | o :: os => match bounded_step cap l o with Some l => bounded_run cap l os | None => None end
  end.

Lemma new_represents dflt cap : 0 ≤ cap → represents (new dflt cap) [].
Proof.
  intros Hc. split; [simpl; rewrite length_replicate; lia|]. do 4 (split; [simpl; lia|]). by intros k x.
Qed.

Lemma queue_step_spec q l o : represents q l → 0 < _capacity q → _head q + _size q + 1 < 2 ^ 64 →
  match bounded_step (_capacity q) l o with
  | Some l' => ∃ q', queue_step q o = Ok q' ∧ represents q' l' ∧
      _head q' + _size q' ≤ _head q + _size q + 1 ∧ _capacity q' = _capacity q
  | None => queue_step q o = Err EAssert
  end.
Proof.
  intros Hq Hc Hov. pose proof Hq as (Hd & Hl & Hs & Hh & Hw & Hk). destruct o as [x|n| |]; simpl.
  - rewrite Hl. destruct (queue_push_spec q l x Hq Hc Hov) as (q' & ? & ? & ? & ?). exists q'.
    split; [done|]. split; [done|]. lia.
  - destruct (Nat.leb_spec n (length l)).
    + destruct (pop_front_spec q l (Z.of_nat n) Hq) as (q' & ? & ? & ? & ?); [lia|]. exists q'.
      rewrite Nat2Z.id in *. split; [done|]. split; [done|]. lia.
    + unfold pop_front, size. by rewrite (proj2 (Z.leb_gt _ _)) by lia.
  - destruct (Nat.ltb_spec 0 (length l)).
    + destruct (pop_back_spec q l Hq) as (q' & ? & ? & ? & ?); [lia|]. exists q'.
      split; [done|]. split; [done|]. lia.
    + unfold pop_back, empty. by replace (_size q) with 0 by lia.
  - eexists. split; [done|]. split; [|simpl; lia]. split; [done|]. do 4 (split; [simpl; lia|]).
    by intros k x.
Qed.

(** A circular queue is a bounded queue. In every run of pushes, pops and
    flushes from a new queue of at least one slot it fails exactly where too many
    elements are popped, and otherwise holds the last elements pushed and not yet
    popped: the index arithmetic modulo the capacity never mixes up two of them. *)
Theorem circular_queue_bounded dflt cap os (Hc : 0 < cap < 2 ^ 63) (Hos : zlen os < 2 ^ 63) :
  match bounded_run cap [] os with
  | Some l => ∃ q, queue_run (new dflt cap) os = Ok q ∧
      size q = zlen l ∧ empty q = bool_decide (l = []) ∧ full q = (zlen l =? cap) ∧
      (∀ k x, l !! k = Some x → at_ q (begin_ q + Z.of_nat k) = Ok x) ∧
      (∀ x, l !! 0%nat = Some x → front q = Ok x) ∧ (∀ x, last l = Some x → back q = Ok x)
  | None => queue_run (new dflt cap) os = Err EAssert
  end.
Proof.
  assert (∀ os q l, represents q l → _capacity q = cap → _head q + _size q + zlen os < 2 ^ 64 →
    match bounded_run cap l os with
    | Some l' => ∃ q', queue_run q os = Ok q' ∧ represents q' l' ∧ _capacity q' = cap
    | None => queue_run q os = Err EAssert
    end) as Hrun.
  { clear os Hos. induction os as [|o os IH]; intros q l Hq Hcap Hov; simpl; [by exists q|]. simpl in Hov.
    pose proof (queue_step_spec q l o Hq ltac:(lia) ltac:(lia)) as Hstep. rewrite Hcap in Hstep.
    destruct (bounded_step cap l o) as [l1|]; [|by rewrite Hstep].
    destruct Hstep as (q1 & -> & Hq1 & Hsum & Hcap1). simpl. apply IH; [done|congruence|lia]. }
  specialize (Hrun os (new dflt cap) [] (new_represents dflt cap ltac:(lia)) eq_refl ltac:(simpl; lia)).
  destruct (bounded_run cap [] os) as [l|]; [|done]. destruct Hrun as (q & E & Hq & Hcap). exists q.
  pose proof Hq as (Hd & Hl & Hs & Hh & Hw & Hk). split; [done|]. split; [done|].
  split; [|split; [unfold full; by rewrite Hcap, Hl|split; [by intros; eapply at_spec|]]].
  { unfold empty. rewrite <- Hl. by destruct l. }
  split; intros x Hx.
  - unfold front, CircularQueue.head. rewrite <- (Z.add_0_r (_head q)). by apply (at_spec q l 0 x Hq).
  - unfold back. rewrite (tail_spec q l Hq). rewrite last_lookup in Hx.
    pose proof (lookup_lt_Some _ _ _ Hx). rewrite <- (at_spec q l _ x Hq Hx). f_equal. lia.
Qed.

End Queues.

Lemma circular_queue_bounded_witness :
  ∃ q, queue_run (CircularQueue.new 0%nat 3)
         [Push 1; Push 2; Push 3; Push 4; PopFront 1; Push 5; Push 6]%nat = Ok q ∧
    CircularQueue.front q = Ok 4%nat ∧ CircularQueue.back q = Ok 6%nat.
Proof.
  destruct (circular_queue_bounded 0%nat 3
    [Push 1; Push 2; Push 3; Push 4; PopFront 1; Push 5; Push 6]%nat) as (q & E & _ & _ & _ & _ & Hf & Hb);
    [done|done|].
  exists q. split; [done|]. split; [by apply Hf|by apply Hb].
Defined.

(** ** Streams *)

Section Streams.
Import RubyPrefetcher.
Context {Ty : Type}.

(** Lines of a power of two of bytes, pages of whole lines, and no more than 2^27
    bytes, so that the stride arithmetic fits in an [int]. *)
Definition cfg_ok (g : Config) : Prop :=
  0 ≤ m_block_size_bits g ≤ pageShift g ∧ pageShift g ≤ 27 ∧
  m_block_size_bytes g = 2 ^ m_block_size_bits g ∧ 0 < m_num_streams g < 2 ^ 31 ∧
  0 ≤ m_num_startup_pfs g ≤ MAX_PF_INFLIGHT.

Context (g : Config) (Hg : cfg_ok g).
Implicit Types (p : t Ty) (e : PrefetchEntry Ty).
Local Notation "'B'" := (2 ^ m_block_size_bits g).

Definition is_line (a : Z) : Prop := 0 ≤ a < 2 ^ 64 ∧ (B | a).
Definition same_page (a a' : Z) : Prop := a / 2 ^ pageShift g = a' / 2 ^ pageShift g.
#[local] Instance same_page_dec a a' : Decision (same_page a a').
Proof. unfold same_page; apply _. Defined.
Definition stride_ok (d : Z) : Prop := Z.abs (B * d) ≤ 2 ^ pageShift g.

Lemma block_pos : 0 < B ≤ 2 ^ pageShift g ∧ 2 ^ pageShift g ≤ 2 ^ 27 ∧ (B | 2 ^ 64).
Proof.
  destruct Hg as (Hb & Hs & _). split; [split; [apply Z.pow_pos_nonneg; lia|apply Z.pow_le_mono_r; lia]|].
  split; [apply Z.pow_le_mono_r; lia|]. exists (2 ^ (64 - m_block_size_bits g)).
  rewrite <- Z.pow_add_r by lia. f_equal. lia.
Qed.

Lemma line_wrap x : (B | x) → is_line (u64 x).
Proof.
  intros [k ->]. pose proof block_pos as (HB & _ & [m Hm]). split; [apply u64_bound|]. unfold u64.
  rewrite Z.mod_eq by lia. exists (k - m * (k * B / 2 ^ 64)). rewrite Hm at 1. lia.
Qed.

Lemma line_of (a : Z) : 0 ≤ a < 2 ^ 64 →
  ∃ l, Address.makeLineAddress a (m_block_size_bits g) = Ok l ∧ is_line l ∧ same_page l a ∧
    (is_line a → l = a).
Proof.
  intros Ha. pose proof block_pos as (HB & HS & _). destruct Hg as (Hb & Hs & _).
  destruct (makeLineAddress_spec a (m_block_size_bits g)) as [-> _]; [done|lia|].
  eexists. split; [done|]. pose proof (Z.mod_pos_bound a B). pose proof (Z.mod_le a B). pose proof (Z.div_mod a B).
  split; [split; [lia|exists (a / B); lia]|]. split.
  - unfold same_page. pose proof (Z.pow_add_r 2 (m_block_size_bits g) (pageShift g - m_block_size_bits g)) as Hp.
    rewrite Zplus_minus in Hp. rewrite Hp, <- !Z.div_div by (try apply Z.pow_pos_nonneg; lia).
    f_equal. replace (a - a mod B) with (a / B * B) by lia. by rewrite Z.div_mul by lia.
  - intros [_ Hd]. apply Z.mod_divide in Hd; lia.
Qed.

Lemma next_stride_spec p a d : cfg p = g → is_line a → Z.abs (B * d) < 2 ^ 31 →
  makeNextStrideAddress p a d = Ok (u64 (a + B * d)) ∧ is_line (u64 (a + B * d)).
Proof.
  intros E Ha Hd. unfold makeNextStrideAddress, Address.makeNextStrideAddress. rewrite E.
  pose proof block_pos as (HB & HS & _). pose proof Hg as (Hb & Hs & -> & _).
  rewrite floorLog2_log2 by (set_solver || lia). rewrite Z.log2_pow2 by lia. simpl.
  destruct (line_of a) as (l & -> & _ & _ & Hl); [apply Ha|]. rewrite (Hl Ha). simpl.
  rewrite chk_i32_Ok by lia. simpl. split; [done|]. apply line_wrap.
  apply Z.divide_add_r; [apply Ha|by exists d; lia].
Qed.

Lemma page_eqb p a a' : cfg p = g → 0 ≤ a < 2 ^ 64 → 0 ≤ a' < 2 ^ 64 →
  (pageAddress p a =? pageAddress p a') = bool_decide (same_page a a').
Proof.
  intros E Ha Ha'. destruct Hg as (Hb & Hs & _).
  assert (∀ x, 0 ≤ x < 2 ^ 64 → pageAddress p x = x / 2 ^ pageShift g * 2 ^ pageShift g) as Hp.
  { intros x Hx. unfold pageAddress. rewrite E. pose proof (maskLowOrderBits_spec x (pageShift g) Hx) as Hm.
    unfold Address.maskLowOrderBits in Hm. rewrite Hm by lia.
    assert (0 < 2 ^ pageShift g) by (apply Z.pow_pos_nonneg; lia). pose proof (Z.div_mod x (2 ^ pageShift g)). lia. }
  rewrite !Hp by done. assert (0 < 2 ^ pageShift g) by (apply Z.pow_pos_nonneg; lia).
  apply eq_bool_prop_intro. rewrite bool_decide_spec, Is_true_true, Z.eqb_eq. unfold same_page.
  split; [|by intros ->]. intros ?%Z.mul_cancel_r; [done|lia].
Qed.

(** Without crossing pages, the last prefetches of a valid stream are in the page
    of its address. *)
Definition stream_ok e : Prop :=
  requestIssued e = 0 ∧
  (m_is_valid e = true → is_line (m_address e) ∧ stride_ok (m_stride e) ∧
    (m_prefetch_cross_pages g = false → ∀ j, 0 ≤ j < m_num_startup_pfs g →
       same_page (u64 (m_address e - B * m_stride e * j)) (m_address e))).

(** A filter after at most [k] insertions. *)
Definition filter_ok {E} (k : Z) (q : CircularQueue.t E) (P : E → Prop) : Prop :=
  ∃ l, represents q l ∧ Forall P l ∧ 0 < CircularQueue._capacity q ∧
    CircularQueue._head q + CircularQueue._size q ≤ 1 + k.

Definition unit_ok (x : UnitFilterEntry) : Prop := is_line (u_addr x).
Definition nonunit_ok (x : NonUnitFilterEntry) : Prop :=
  is_line (n_addr x) ∧ (B | n_stride x) ∧ Z.abs (n_stride x) < 2 ^ pageShift g.

(** The prefetcher after at most [k] misses. *)
Definition pf_ok (k : Z) p : Prop :=
  cfg p = g ∧ zlen (m_array p) = m_num_streams g ∧ Forall stream_ok (m_array p) ∧
  (∀ f, filter_ok k (filter_of f p) unit_ok) ∧ filter_ok k (nonUnitFilter p) nonunit_ok ∧
  numPrefetchRequested (rubyPrefetcherStats p) = zlen (m_controller p).

(** [p'] is [p] after at most [n] prefetches of lines in the page of [a]. *)
Definition issues (a n : Z) p p' : Prop :=
  ∃ new, m_controller p' = m_controller p ++ new ∧ zlen new ≤ n ∧
    Forall (λ r, is_line r.1 ∧ (m_prefetch_cross_pages g = false → same_page r.1 a)) new.

(** What stays the same while a stream is started or extended. *)
Definition same_filters p p' : Prop :=
  cfg p' = cfg p ∧ unitFilter p' = unitFilter p ∧ negativeFilter p' = negativeFilter p ∧
  nonUnitFilter p' = nonUnitFilter p ∧
  numPrefetchRequested (rubyPrefetcherStats p') - zlen (m_controller p') =
  numPrefetchRequested (rubyPrefetcherStats p) - zlen (m_controller p).

Lemma u64_add_l x y : u64 (u64 x + y) = u64 (x + y).
Proof. apply Zplus_mod_idemp_l. Qed.

Lemma stride_times d j : stride_ok d → 0 ≤ j ≤ 8 → Z.abs (B * (d * j)) < 2 ^ 31 ∧ Z.abs (d * j) < 2 ^ 31.
Proof.
  intros Hd Hj. pose proof block_pos as (HB & HS & _). unfold stride_ok in Hd.
  assert (Z.abs (B * (d * j)) = Z.abs (B * d) * j) as E by nia.
  assert (Z.abs (d * j) ≤ Z.abs (B * (d * j))) by nia. nia.
Qed.

Lemma in_stream_spec p e a : cfg p = g → stream_ok e → m_is_valid e = true →
  ∃ v, in_stream p e a = Ok v ∧
    (v = true ↔ ∃ j, 0 ≤ j < m_num_startup_pfs g ∧ a = u64 (m_address e - B * m_stride e * j)).
Proof.
  intros E [_ He] Hv. destruct (He Hv) as (Hl & Hd & _). unfold in_stream. rewrite E.
  set (a_ j := u64 (m_address e - B * m_stride e * j)).
  pose proof Hg as (_ & _ & _ & _ & Hn). unfold MAX_PF_INFLIGHT in Hn.
  destruct (find_from_spec (λ j, let* d := chk_i32 (m_stride e * j) in
          let* d := chk_i32 (- d) in
          let* a1 := makeNextStrideAddress p (m_address e) d in
          Ok (if a1 =? a then Some () else None))
    (λ j, if a_ j =? a then Some () else None) (Z.to_nat (m_num_startup_pfs g)) 0) as (r & -> & Hr).
  { intros j Hj. destruct (stride_times (m_stride e) j Hd) as [H1 H2]; [lia|].
    rewrite !chk_i32_Ok by lia. simpl. rewrite chk_i32_Ok by lia. simpl.
    destruct (next_stride_spec p (m_address e) (- (m_stride e * j)) E Hl) as [-> _]; [lia|]. simpl.
    unfold a_. by replace (m_address e + B * - (m_stride e * j)) with (m_address e - B * m_stride e * j) by lia. }
  exists (bool_decide (is_Some r)). split; [done|]. rewrite bool_decide_eq_true. destruct r as [[]|].
  - destruct Hr as (j & Hj & Hg' & _). split; [intros _|done]. exists j. split; [lia|].
    destruct (Z.eqb_spec (a_ j) a); [done|discriminate Hg'].
  - split; [intros [? [=]]|]. intros (j & Hj & ->). specialize (Hr j). unfold a_ in Hr.
    rewrite Z.eqb_refl in Hr. discriminate Hr. lia.
Qed.

Lemma getPrefetchEntry_spec k p a : pf_ok k p →
  ∃ r, getPrefetchEntry p a = Ok r ∧
    match r with
    | Some i => 0 ≤ i < m_num_streams g ∧ ∃ e, vget (m_array p) i = Ok e ∧ stream_ok e ∧
        m_is_valid e = true ∧ (m_prefetch_cross_pages g = false → same_page a (m_address e))
    | None => True
    end.
Proof.
  intros (E & Hlen & Hall & _). unfold getPrefetchEntry. rewrite E. pose proof Hg as (_ & _ & _ & Hn & _).
  destruct (find_from_ok (λ i, let* e := vget (m_array p) i in
      if m_is_valid e then let* b := in_stream p e a in Ok (if b : bool then Some i else None)
      else Ok None)
    (λ i i', i' = i ∧ ∃ e, vget (m_array p) i = Ok e ∧ stream_ok e ∧ m_is_valid e = true ∧
      (m_prefetch_cross_pages g = false → same_page a (m_address e)))
    (Z.to_nat (m_num_streams g)) 0) as (r & -> & Hr).
  { intros i Hi. destruct (vget_inbounds (m_array p) i) as (e & Ee & Hlk); [lia|].
    rewrite Ee. simpl. assert (stream_ok e) as He by by eapply Forall_lookup_1.
    destruct (m_is_valid e) eqn:Ev; [|by exists None].
    destruct (in_stream_spec p e a E He Ev) as (v & -> & Hv). simpl. eexists. split; [done|].
    intros i'. destruct v; [|done]. intros [= <-]. split; [done|]. exists e. do 3 (split; [done|]).
    intros Hc. destruct (proj1 Hv eq_refl) as (j & Hj & ->). destruct He as [_ He]. by apply He. }
  exists r. split; [done|]. destruct r as [i|]; [|done].
  destruct (Hr i eq_refl) as (j & Hj & -> & He). split; [lia|done].
Qed.

(** The stream to be replaced is an invalid one or else the least recently used. *)
Lemma lru_scan_spec (l : list (PrefetchEntry Ty)) n i lru el :
  0 ≤ i → i + Z.of_nat n = zlen l → vget l lru = Ok el →
  (∀ j e, 0 ≤ j < i → vget l j = Ok e → m_is_valid e = true ∧ m_use_time el ≤ m_use_time e) →
  ∃ r e, lru_scan l n i lru (m_use_time el) = Ok r ∧ vget l r = Ok e ∧
    (m_is_valid e = true → ∀ j e', vget l j = Ok e' → m_is_valid e' = true ∧ m_use_time e ≤ m_use_time e').
Proof.
  revert i lru el. induction n as [|n IH]; intros i lru el Hi Hlen Hel Hmin; simpl.
  { exists lru, el. split; [done|]. split; [done|]. intros _ j e' He'. pose proof (vget_bounds _ _ _ He').
    apply (Hmin j); [lia|done]. }
  destruct (vget_inbounds l i) as (e & Ee & _); [lia|]. rewrite Ee. simpl.
  destruct (m_is_valid e) eqn:Ev; simpl; [|exists i, e; rewrite Ev; done].
  destruct (Z.ltb_spec (m_use_time e) (m_use_time el)).
  all: apply IH; [lia|lia|done|]; intros j e' Hj He'; destruct (decide (j = i)) as [->|];
    [rewrite Ee in He'; injection He' as <-; split; [done|lia]
    |destruct (Hmin j e') as [? ?]; [lia|done|split; [done|lia]]].
Qed.

Lemma getLRUindex_spec k p : pf_ok k p →
  ∃ i e, getLRUindex p = Ok i ∧ vget (m_array p) i = Ok e ∧
    (m_is_valid e = true → ∀ j e', vget (m_array p) j = Ok e' →
       m_is_valid e' = true ∧ m_use_time e ≤ m_use_time e').
Proof.
  intros (E & Hlen & _). pose proof Hg as (_ & _ & _ & Hn & _). unfold getLRUindex.
  destruct (vget_inbounds (m_array p) 0) as (e & Ee & _); [lia|]. rewrite Ee, E. simpl.
  apply lru_scan_spec; [lia|lia|done|lia].
Qed.

Lemma modify_spec p i f e : vget (m_array p) i = Ok e →
  modify p i f = Ok (with_array p (<[Z.to_nat i := f e]> (m_array p))).
Proof.
  intros E. unfold modify. rewrite E. simpl. pose proof (vget_bounds _ _ _ E).
  by rewrite vset_inbounds by done.
Qed.

Lemma issues_step a n p p1 p' x ty : m_controller p1 = m_controller p ++ [(x, ty)] →
  is_line x → (m_prefetch_cross_pages g = false → same_page x a) → issues a n p1 p' →
  issues a (n + 1) p p'.
Proof.
  intros E1 Hx Hp (new & E2 & Hn & Hall). exists ((x, ty) :: new). rewrite E2, E1, <- app_assoc.
  split; [done|]. split; [simpl; lia|]. by constructor.
Qed.

Lemma same_filters_trans p p1 p2 : same_filters p p1 → same_filters p1 p2 → same_filters p p2.
Proof.
  intros (? & ? & ? & ? & Hn) (? & ? & ? & ? & Hn2). do 4 (split; [congruence|]). lia.
Qed.

Lemma count_frame c p :
  cfg (count c p) = cfg p ∧ m_array (count c p) = m_array p ∧ m_controller (count c p) = m_controller p ∧
  unitFilter (count c p) = unitFilter p ∧ negativeFilter (count c p) = negativeFilter p ∧
  nonUnitFilter (count c p) = nonUnitFilter p ∧
  numPrefetchRequested (rubyPrefetcherStats (count c p)) =
    numPrefetchRequested (rubyPrefetcherStats p) + (if decide (c = PrefetchRequested) then 1 else 0).
Proof.
  unfold count. destruct (rubyPrefetcherStats p). do 6 (split; [done|]).
  destruct c; simpl; lia.
Qed.

(** Counting and enqueueing one prefetch. *)
Lemma launch_spec p (crossed : bool) x ty :
  let p0 := count PrefetchRequested (if crossed then count PagesCrossed p else p) in
  m_array p0 = m_array p ∧ m_array (enqueuePrefetch p0 x ty) = m_array p ∧
  m_controller (enqueuePrefetch p0 x ty) = m_controller p ++ [(x, ty)] ∧
  same_filters p (enqueuePrefetch p0 x ty).
Proof.
  intros p0. set (p1 := if crossed then count PagesCrossed p else p) in *.
  assert (∃ c, c ≠ PrefetchRequested ∧ (p1 = count c p ∨ p1 = p)) as (c & Hc & Hp1)
    by (exists PagesCrossed; destruct crossed; auto).
  destruct (count_frame PrefetchRequested p1) as (E1 & E2 & E3 & E4 & E5 & E6 & E7).
  destruct (count_frame c p) as (F1 & F2 & F3 & F4 & F5 & F6 & F7).
  rewrite decide_True in E7 by done. rewrite decide_False in F7 by done.
  unfold same_filters, p0. simpl. rewrite E1, E2, E3, E4, E5, E6, E7, length_app. simpl.
  destruct Hp1 as [->| ->]; rewrite ?F1, ?F2, ?F3, ?F4, ?F5, ?F6, ?F7; do 7 (split; [done|]); lia.
Qed.

Lemma start_prefetches_spec n p i e d la start :
  cfg p = g → vget (m_array p) i = Ok e → stride_ok d → is_line la → 0 ≤ start < 2 ^ 64 →
  ∃ p' o, start_prefetches p i (pageAddress p start) d n la = Ok (p', o) ∧ same_filters p p' ∧
    issues start (Z.of_nat n) p p' ∧
    match o with
    | None => m_array p' = <[Z.to_nat i := set_valid false e]> (m_array p)
    | Some la' => m_array p' = m_array p ∧ la' = u64 (la + B * d * Z.of_nat n) ∧
        (m_prefetch_cross_pages g = false → ∀ j, 1 ≤ j ≤ Z.of_nat n →
           same_page (u64 (la + B * d * j)) start)
    end.
Proof.
  intros E Ee Hd Hla Hs. revert p la E Ee Hla.
  induction n as [|n IH]; intros p la E Ee Hla; cbn [start_prefetches].
  { exists p, (Some la). split; [done|]. split; [done|]. split; [exists []; by rewrite app_nil_r|].
    split; [done|]. split; [|intros; lia]. rewrite Z.mul_0_r, Z.add_0_r. symmetry. apply u64_small, Hla. }
  pose proof (stride_times d 1 Hd ltac:(lia)) as [H1 _]. rewrite Z.mul_1_r in H1.
  destruct (next_stride_spec p la d E Hla H1) as [-> Hline]. set (la1 := u64 (la + B * d)) in *. simpl.
  rewrite page_eqb by (done || apply Hline). rewrite E. set (crossed := negb (bool_decide (same_page start la1))).
  destruct (crossed && negb (m_prefetch_cross_pages g)) eqn:Ec.
  - rewrite (modify_spec p i _ e Ee). simpl. eexists _, None. split; [done|]. split; [done|].
    split; [|done]. exists []. rewrite app_nil_r. split; [done|]. split; [simpl; lia|done].
  - destruct (launch_spec p crossed la1 (m_type e)) as (Ea0 & Ea & Ectl & Hsf). rewrite Ea0, Ee. simpl.
    set (p1 := enqueuePrefetch _ la1 (m_type e)) in *.
    assert (m_prefetch_cross_pages g = false → same_page la1 start) as Hin.
    { intros Hc. rewrite Hc, andb_true_r in Ec. unfold crossed in Ec.
      by apply negb_false_iff, bool_decide_eq_true in Ec. }
    assert (pageAddress p start = pageAddress p1 start) as ->
      by (unfold pageAddress; by rewrite (proj1 Hsf)).
    destruct (IH p1 la1) as (p' & o & -> & Hsf' & Hiss & Ho); [rewrite <- E; apply Hsf|by rewrite Ea|done|].
    exists p', o. split; [done|]. split; [by eapply same_filters_trans|].
    split; [rewrite Nat2Z.inj_succ; by eapply issues_step|].
    rewrite Ea in Ho. destruct o as [la'|]; [|done]. destruct Ho as (-> & -> & Hw). split; [done|].
    unfold la1. split; [rewrite u64_add_l; f_equal; lia|].
    intros Hc j Hj. destruct (decide (j = 1)) as [->|]; [rewrite Z.mul_1_r; by apply Hin|].
    specialize (Hw Hc (j - 1)). unfold la1 in Hw. rewrite u64_add_l in Hw.
    replace (la + B * d * j) with (la + B * d + B * d * (j - 1)) by lia. apply Hw. lia.
Qed.

(** Replacing one stream keeps the invariant. *)
Lemma pf_ok_stream k p p' i e : pf_ok k p → same_filters p p' →
  m_array p' = <[i := e]> (m_array p) → stream_ok e → pf_ok k p'.
Proof.
  intros (E & Hlen & Hall & Hf & Hn & Hs) (Ec & Eu & En & Enu & Est) Ea He. split; [congruence|].
  rewrite Ea, length_insert. split; [done|]. split; [by apply Forall_insert|].
  split; [intros []; simpl; rewrite ?Eu, ?En; [apply (Hf UnitStride)|apply (Hf NegativeStride)]|].
  split; [by rewrite Enu|]. lia.
Qed.

Lemma issues_weaken a a' n n' p p' : issues a n p p' → n ≤ n' →
  (m_prefetch_cross_pages g = false → same_page a a') → issues a' n' p p'.
Proof.
  intros (new & E & Hn & Hall) Hle Hp. exists new. split; [done|]. split; [lia|].
  eapply Forall_impl; [done|]. intros r [? Hr]. split; [done|]. intros Hc. etrans; [by apply Hr|by apply Hp].
Qed.

Lemma issues_none a n p p' : 0 ≤ n → m_controller p' = m_controller p → issues a n p p'.
Proof. intros Hn E. exists []. by rewrite app_nil_r. Qed.

Lemma initializeStream_spec cyc k p a d i e0 ty :
  pf_ok k p → is_line a → stride_ok d → vget (m_array p) i = Ok e0 →
  ∃ p', initializeStream cyc p a d i ty = Ok p' ∧ pf_ok k p' ∧ same_filters p p' ∧
    issues a (m_num_startup_pfs g) p p'.
Proof.
  intros Hok Ha Hd Ei. pose proof Hok as (E & Hlen & Hall & _). pose proof Hg as (_ & _ & _ & _ & Hn).
  assert (requestIssued e0 = 0) as Hr0.
  { apply vget_Ok in Ei as [_ Ei]. by destruct (Forall_lookup_1 _ _ _ _ Hall Ei). }
  destruct (line_of a) as (l & El & _ & _ & Hl); [apply Ha|]. specialize (Hl Ha). subst l.
  destruct (count_frame AllocatedStreams p) as (F1 & F2 & F3 & F4 & F5 & F6 & F7).
  unfold initializeStream. rewrite F1, E, El. simpl.
  rewrite (modify_spec _ i _ e0) by by rewrite F2. simpl. rewrite F1, E, El. simpl.
  set (e1 := mkEntry a d cyc true ty (requestIssued e0) (requestCompleted e0)).
  set (p1 := with_array (count AllocatedStreams p) (<[Z.to_nat i := e1]> (m_array (count AllocatedStreams p)))).
  assert (same_filters p p1 ∧ m_controller p1 = m_controller p ∧ m_array p1 = <[Z.to_nat i := e1]> (m_array p))
    as (Hsf & Ectl & Ea).
  { unfold p1, same_filters. simpl. rewrite F1, F2, F3, F4, F5, F6, F7. simpl. split; [do 4 (split; [done|]); lia|done]. }
  pose proof (vget_bounds _ _ _ Ei) as Hi.
  destruct (start_prefetches_spec (Z.to_nat (m_num_startup_pfs g)) p1 i e1 d a a)
    as (p' & o & -> & Hsf' & Hiss & Ho); [rewrite <- E; apply Hsf| |done|done|apply Ha|].
  { rewrite Ea. apply vget_Ok. split; [lia|]. apply list_lookup_insert_eq. lia. }
  rewrite Z2Nat.id in * by lia. simpl. pose proof (same_filters_trans _ _ _ Hsf Hsf') as Hsf2.
  assert (issues a (m_num_startup_pfs g) p p') as Hiss2.
  { destruct Hiss as (new & En & ?). exists new. split; [by rewrite En, Ectl|done]. }
  destruct o as [la'|]; simpl.
  - destruct Ho as (Ea' & -> & Hw). erewrite (modify_spec p' i); last first.
    { rewrite Ea', Ea. apply vget_Ok. split; [lia|]. apply list_lookup_insert_eq. lia. }
    rewrite Ea', Ea, list_insert_insert_eq. eexists. split; [done|]. split; [|by split].
    eapply (pf_ok_stream k p); [done|exact Hsf2|done|]. split; [done|]. intros _. simpl. split; [|split; [done|]].
    + apply line_wrap. apply Z.divide_add_r; [apply Ha|]. exists (d * m_num_startup_pfs g). lia.
    + intros Hc j Hj. assert (∀ x, u64 (u64 x - B * d * j) = u64 (x - B * d * j)) as ->
        by (intros; unfold u64; apply Zminus_mod_idemp_l).
      replace (a + B * d * m_num_startup_pfs g - B * d * j) with (a + B * d * (m_num_startup_pfs g - j)) by lia.
      etrans; [apply Hw; [done|lia]|symmetry; apply Hw; [done|lia]].
  - exists p'. split; [done|]. split; [|by split]. rewrite Ea, list_insert_insert_eq in Ho.
    eapply (pf_ok_stream k p); [done|exact Hsf2|exact Ho|]. by split.
Qed.

Lemma extend_stream_spec cyc k p i e : pf_ok k p → vget (m_array p) i = Ok e → m_is_valid e = true →
  ∃ p', extend_stream cyc p i = Ok p' ∧ pf_ok k p' ∧ issues (m_address e) 1 p p'.
Proof.
  intros Hok Ei Hv. pose proof Hok as (E & Hlen & Hall & _). unfold extend_stream. rewrite Ei. simpl.
  assert (stream_ok e) as [He0 He] by (apply vget_Ok in Ei as [_ Ei]; by eapply Forall_lookup_1).
  destruct (He Hv) as (Hl & Hd & Hw). pose proof (stride_times _ 1 Hd ltac:(lia)) as [H1 _].
  rewrite Z.mul_1_r in H1. destruct (next_stride_spec p _ _ E Hl H1) as [-> Hl1]. simpl.
  set (la := u64 (m_address e + B * m_stride e)) in *.
  rewrite page_eqb by (done || apply Hl || apply Hl1). rewrite E.
  set (crossed := negb (bool_decide (same_page (m_address e) la))).
  destruct (crossed && negb (m_prefetch_cross_pages g)) eqn:Ec.
  - rewrite (modify_spec p i _ e Ei). eexists. split; [done|]. split; [|by apply issues_none].
    eapply (pf_ok_stream k p); [done| |done|by split]. by do 4 (split; [done|]).
  - destruct (launch_spec p crossed la (m_type e)) as (Ea0 & _ & Ectl & Hsf).
    set (p0 := count PrefetchRequested _) in *. rewrite (modify_spec p0 i _ e) by by rewrite Ea0. simpl.
    rewrite (modify_spec _ i _ (set_address la e)); last first.
    { pose proof (vget_bounds _ _ _ Ei). apply vget_Ok. simpl. rewrite Ea0. split; [lia|].
      apply list_lookup_insert_eq. lia. }
    simpl. rewrite Ea0, list_insert_insert_eq. eexists. split; [done|].
    assert (m_prefetch_cross_pages g = false → same_page la (m_address e)) as Hin.
    { intros Hc. rewrite Hc, andb_true_r in Ec. unfold crossed in Ec. symmetry.
      by apply negb_false_iff, bool_decide_eq_true in Ec. }
    split; [|by eapply (issues_step _ 0); [exact Ectl| | |apply issues_none]].
    eapply (pf_ok_stream k p); [done|exact Hsf|done|]. split; [done|]. intros _. simpl. do 2 (split; [done|]).
    intros Hc j Hj. assert (u64 (la - B * m_stride e * j) = u64 (m_address e - B * m_stride e * (j - 1))) as ->.
    { unfold la, u64. rewrite Zminus_mod_idemp_l. f_equal. lia. }
    destruct (decide (j = 0)) as [->|].
    + replace (m_address e - B * m_stride e * (0 - 1)) with (m_address e + B * m_stride e) by lia. done.
    + etrans; [apply Hw; [done|lia]|]. symmetry. by apply Hin.
Qed.

Lemma issueNextPrefetch_spec cyc k p a : pf_ok k p →
  ∃ p', issueNextPrefetch cyc p a None = Ok p' ∧ pf_ok k p' ∧ issues a 1 p p'.
Proof.
  intros Hok. unfold issueNextPrefetch. destruct (getPrefetchEntry_spec k p a Hok) as (r & -> & Hr). simpl.
  destruct r as [i|]; [|by exists p; split; [|split; [|apply issues_none]]].
  destruct Hr as (_ & e & Ee & _ & Hv & Hpage).
  destruct (extend_stream_spec cyc k p i e Hok Ee Hv) as (p' & -> & ? & ?). exists p'. split; [done|].
  split; [done|]. eapply issues_weaken; [done|done|]. intros Hc. symmetry. by apply Hpage.
Qed.

(** Statistics other than the number of prefetches do not matter here. *)
Lemma pf_ok_count c k p : c ≠ PrefetchRequested → pf_ok k p → pf_ok k (count c p).
Proof.
  intros Hc (E & Hlen & Hall & Hf & Hn & Hs). destruct (count_frame c p) as (F1 & F2 & F3 & F4 & F5 & F6 & F7).
  rewrite decide_False in F7 by done. unfold pf_ok. rewrite F1, F2, F3, F6, F7.
  do 3 (split; [done|]). split; [intros []; simpl; rewrite ?F4, ?F5; apply (Hf UnitStride) || apply (Hf NegativeStride)|].
  split; [done|]. lia.
Qed.

Lemma filter_ok_mono {E} k k' (q : CircularQueue.t E) P : filter_ok k q P → k ≤ k' → filter_ok k' q P.
Proof. intros (l & ? & ? & ? & ?) ?. exists l. do 3 (split; [done|]). lia. Qed.

Lemma pf_ok_mono k k' p : pf_ok k p → k ≤ k' → pf_ok k' p.
Proof.
  intros (E & Hlen & Hall & Hf & Hn & Hs) Hk. do 3 (split; [done|]).
  split; [intros f; by eapply filter_ok_mono|]. split; [by eapply filter_ok_mono|done].
Qed.


Lemma filter_push {E} k (q : CircularQueue.t E) P x : filter_ok k q P → P x → 0 ≤ k < 2 ^ 63 →
  ∃ q', CircularQueue.push_back q x = Ok q' ∧ filter_ok (k + 1) q' P.
Proof.
  intros (l & Hq & Hl & Hc & Hh) Hx Hk. destruct (queue_push_spec q l x Hq Hc) as (q' & -> & Hq' & Hsum & Hcap); [lia|].
  exists q'. split; [done|]. eexists. split; [done|]. split; [|lia].
  apply Forall_app. split; [|by repeat constructor]. destruct (CircularQueue.full q); [by apply Forall_drop|done].
Qed.

Lemma filter_find {E} k (q : CircularQueue.t E) P test : filter_ok k q P →
  ∃ r, CircularQueue.find_entry q test = Ok r ∧ ∀ idx, r = Some idx →
    ∃ x, CircularQueue.at_ q idx = Ok x ∧ P x ∧ test x = true ∧
      ∀ y, P y → ∃ q', CircularQueue.set_at q idx y = Ok q' ∧ filter_ok k q' P.
Proof.
  intros (l & Hq & Hl & Hc & Hh). destruct (find_entry_spec q l test Hq) as (r & -> & Hr).
  exists r. split; [done|]. intros idx ->. destruct Hr as (j & x & -> & Hx & Ht & _).
  exists x. split; [by eapply at_spec|]. split; [by eapply Forall_lookup_1|]. split; [done|].
  intros y Hy. destruct (set_at_spec q l j y Hq) as (q' & -> & Hq' & Eh & Ec); [by eapply lookup_lt_Some|].
  exists q'. split; [done|]. eexists. split; [done|]. split; [by apply Forall_insert|].
  pose proof Hq as (_ & ? & _). pose proof Hq' as (_ & Hsz & _). rewrite length_insert in Hsz. lia.
Qed.

Lemma pf_ok_filter k f p q : pf_ok k p → filter_ok k q unit_ok → pf_ok k (with_filter f p q).
Proof.
  intros (E & Hlen & Hall & Hf & Hn & Hs) Hq.
  destruct f; (do 3 (split; [done|]); split; [|by split]);
    intros []; done || apply (Hf UnitStride) || apply (Hf NegativeStride).
Qed.

Lemma pf_ok_nonunit k p q : pf_ok k p → filter_ok k q nonunit_ok → pf_ok k (with_nonunit p q).
Proof. intros (E & Hlen & Hall & Hf & Hn & Hs) Hq. by do 4 (split; [done|]). Qed.

Lemma accessUnitFilter_spec cyc k p f a d ty : pf_ok k p → is_line a → d = 1 ∨ d = -1 → 0 ≤ k < 2 ^ 63 →
  ∃ h p', accessUnitFilter cyc p f a d ty = Ok (h, p') ∧ pf_ok (k + 1) p' ∧
    issues a (if h : bool then m_num_startup_pfs g else 0) p p'.
Proof.
  intros Hok Ha Hd Hk. pose proof Hok as (E & Hlen & Hall & Hf & Hn & Hs).
  pose proof Hg as (_ & _ & _ & _ & Hst). pose proof block_pos as (HB & HS & _).
  assert (stride_ok d) as Hso by (unfold stride_ok; destruct Hd as [->| ->]; lia).
  pose proof (stride_times d 1 Hso ltac:(lia)) as [H1 _]. rewrite Z.mul_1_r in H1.
  unfold accessUnitFilter. destruct (filter_find k _ _ (λ x, u_addr x =? a) (Hf f)) as (r & -> & Hr). simpl.
  destruct r as [idx|].
  - destruct (Hr idx eq_refl) as (x & -> & Hx & _ & Hset). simpl.
    destruct (next_stride_spec p _ _ E Hx H1) as [-> Hl]. simpl.
    destruct (Hset (mkUnit (u64 (u_addr x + B * d)) (u32 (u_hits x + 1))) Hl) as (q' & -> & Hq'). simpl.
    pose proof (pf_ok_filter k f p q' Hok Hq') as Hok1.
    assert (m_controller (with_filter f p q') = m_controller p) as Ec by by destruct f.
    destruct (m_train_misses (cfg (with_filter f p q')) <=? u32 (u_hits x + 1)); simpl.
    + destruct (getLRUindex_spec k _ Hok1) as (i & e & -> & Ei & _). simpl.
      destruct (initializeStream_spec cyc k _ a d i e ty Hok1 Ha Hso Ei) as (p' & -> & Hok' & _ & Hiss). simpl.
      exists true, p'. split; [done|]. split; [eapply pf_ok_mono; [done|lia]|].
      destruct Hiss as (new & En & ?). exists new. split; [by rewrite En, Ec|done].
    + exists true, (with_filter f p q'). split; [done|]. split; [eapply pf_ok_mono; [done|lia]|].
      apply issues_none; [lia|done].
  - destruct (next_stride_spec p _ _ E Ha H1) as [-> Hl]. simpl.
    destruct (filter_push k _ _ (new_unit (u64 (a + B * d))) (Hf f) Hl Hk) as (q' & -> & Hq'). simpl.
    exists false, (with_filter f p q'). split; [done|]. split; [|by apply issues_none; [|destruct f]].
    apply pf_ok_filter; [|done]. eapply pf_ok_mono; [done|lia].
Qed.

(** The distance of two lines of a page. *)
Lemma page_delta a a' : is_line a → is_line a' → same_page a a' →
  i32 (u64 (a - a')) = a - a' ∧ Z.abs (a - a') < 2 ^ pageShift g ∧ (B | a - a').
Proof.
  intros [Ha Hd] [Ha' Hd'] Hp. pose proof block_pos as (HB & HS & _). unfold same_page in Hp.
  pose proof (Z.div_mod a (2 ^ pageShift g)). pose proof (Z.div_mod a' (2 ^ pageShift g)).
  pose proof (Z.mod_pos_bound a (2 ^ pageShift g)). pose proof (Z.mod_pos_bound a' (2 ^ pageShift g)).
  assert (Z.abs (a - a') < 2 ^ pageShift g) as Hlt by nia. split; [|split; [done|by apply Z.divide_sub_r]].
  unfold i32, u64. rewrite <- (Zplus_mod_idemp_l _ (2 ^ 31)), Z.mod_mod_divide by by exists (2 ^ 32).
  rewrite Zplus_mod_idemp_l. by apply i32_small; lia.
Qed.

Lemma accessNonunitFilter_spec cyc k p a ty : pf_ok k p → is_line a → 0 ≤ k < 2 ^ 63 →
  ∃ h p', accessNonunitFilter cyc p a ty = Ok (h, p') ∧ pf_ok (k + 1) p' ∧
    issues a (m_num_startup_pfs g) p p'.
Proof.
  intros Hok Ha Hk. pose proof Hok as (E & Hlen & Hall & Hf & Hn & Hs).
  pose proof Hg as (_ & _ & Hbytes & _ & Hst). pose proof block_pos as (HB & HS & _).
  unfold accessNonunitFilter.
  destruct (filter_find k _ _ (λ x, pageAddress p (n_addr x) =? pageAddress p a) Hn) as (r & -> & Hr). simpl.
  destruct r as [idx|]; last first.
  { destruct (filter_push k _ _ (new_nonunit a) Hn) as (q' & -> & Hq'); [|done|].
    { split; [done|]. split; [by exists 0|simpl; lia]. }
    exists false, (with_nonunit p q'). split; [done|]. split; [|by apply issues_none; [lia|]].
    apply pf_ok_nonunit; [|done]. eapply pf_ok_mono; [done|lia]. }
  destruct (Hr idx eq_refl) as (x & -> & (Hxl & Hxd & Hxs) & Hpage & Hset). simpl.
  rewrite page_eqb in Hpage by (done || apply Hxl || apply Ha). apply bool_decide_eq_true in Hpage.
  destruct (page_delta a (n_addr x) Ha Hxl) as (-> & Hlt & Hdiv); [done|].
  destruct (Z.eqb_spec (a - n_addr x) 0) as [|Hne]; simpl.
  { exists false, p. split; [done|]. split; [eapply pf_ok_mono; [done|lia]|by apply issues_none; [lia|]]. }
  assert (∀ hits p', pf_ok k p' → nonUnitFilter p' = nonUnitFilter p → issues a (m_num_startup_pfs g) p p' →
    ∃ h p'', (let* q := CircularQueue.set_at (nonUnitFilter p') idx (mkNonUnit a hits (a - n_addr x)) in
      Ok (true, with_nonunit p' q)) = Ok (h, p'') ∧ pf_ok (k + 1) p'' ∧ issues a (m_num_startup_pfs g) p p'')
    as Hfin.
  { intros hits p' Hok' Enu Hiss. rewrite Enu.
    destruct (Hset (mkNonUnit a hits (a - n_addr x))) as (q' & -> & Hq'); [by split|].
    exists true, (with_nonunit p' q'). split; [done|]. split; [|exact Hiss].
    eapply pf_ok_mono; [by apply pf_ok_nonunit|lia]. }
  destruct (Z.eqb_spec (a - n_addr x) (n_stride x)) as [Heq|Hneq]; simpl;
    [|by apply Hfin; [..|apply issues_none; [lia|]]].
  destruct (m_train_misses (cfg p) <? u32 (n_hits x + 1)); simpl;
    [|by apply Hfin; [..|apply issues_none; [lia|]]].
  rewrite E, Hbytes, <- Heq. destruct Hdiv as [c Hc]. rewrite (proj2 (Z.eqb_neq _ _)) by lia. simpl.
  rewrite Hc, Z.quot_mul by lia. rewrite chk_i32_Ok by nia. simpl.
  destruct (getLRUindex_spec k p Hok) as (i & e & -> & Ei & _). simpl.
  destruct (initializeStream_spec cyc k p a c i e ty Hok Ha) as (p' & -> & Hok' & Hsf & Hiss);
    [unfold stride_ok; lia|done|]. simpl. rewrite <- Hc. apply Hfin; [done|apply Hsf|done].
Qed.

Lemma observeMiss_spec cyc k p a ty : pf_ok k p → 0 ≤ a < 2 ^ 64 → 0 ≤ k < 2 ^ 62 →
  ∃ p', observeMiss cyc p a ty = Ok p' ∧ pf_ok (k + 3) p' ∧ issues a (m_num_startup_pfs g) p p'.
Proof.
  intros Hok Ha Hk. pose proof Hok as (E & _). pose proof Hg as (_ & _ & _ & _ & Hst).
  destruct (line_of a Ha) as (l & El & Hl & Hpl & _).
  assert (∀ n p', issues l n p p' → n ≤ m_num_startup_pfs g → issues a (m_num_startup_pfs g) p p') as Hweak.
  { intros n p' Hi Hle. by eapply issues_weaken. }
  unfold observeMiss. rewrite E, El. simpl. destruct (count_frame MissObserved p) as (_ & _ & Ec & _).
  assert (pf_ok k (count MissObserved p)) as Hok1 by by apply pf_ok_count.
  assert (∀ n p', issues l n (count MissObserved p) p' → issues l n p p') as Hmiss
    by (intros n p'; unfold issues; by rewrite Ec).
  set (p1 := count MissObserved p) in *.
  destruct (getPrefetchEntry_spec k p1 l Hok1) as (r & -> & Hr). simpl. destruct r as [i|].
  { destruct Hr as (_ & e & -> & [Hri _] & _). simpl. rewrite Hri. exists p1. split; [done|].
    split; [eapply pf_ok_mono; [done|lia]|]. by eapply Hweak, Hst; apply Hmiss, issues_none. }
  destruct (accessUnitFilter_spec cyc k p1 UnitStride l 1 ty Hok1 Hl) as (h & p2 & -> & Hok2 & Hi2);
    [by left|lia|]. simpl. destruct h.
  { exists p2. split; [done|]. split; [eapply pf_ok_mono; [done|lia]|]. by eapply Hweak; [apply Hmiss|]. }
  destruct (accessUnitFilter_spec cyc (k + 1) p2 NegativeStride l (-1) ty Hok2 Hl) as (h & p3 & -> & Hok3 & Hi3);
    [by right|lia|]. simpl.
  assert (∀ n p p' p'', issues l 0 p p' → issues l n p' p'' → issues l n p p'') as Htrans.
  { intros n q q' q'' (n1 & E1 & Hlen & _) (n2 & E2 & ? & ?). destruct n1; [|simpl in Hlen; lia].
    rewrite app_nil_r in E1. exists n2. by rewrite E2, E1. }
  destruct h.
  { exists p3. split; [done|]. split; [eapply pf_ok_mono; [done|lia]|].
    eapply Hweak; [by eapply Hmiss, Htrans|done]. }
  destruct (accessNonunitFilter_spec cyc (k + 2) p3 l ty) as (h & p4 & -> & Hok4 & Hi4);
    [by replace (k + 2) with (k + 1 + 1) by lia|done|lia|].
  exists p4. split; [done|]. replace (k + 3) with (k + 2 + 1) by lia. split; [done|].
  eapply Hweak; [by eapply Hmiss, Htrans, Htrans|done].
Qed.

End Streams.

(** ** Runs of the prefetcher *)

Section PrefetchRuns.
Import RubyPrefetcher.
Context {Ty : Type}.
Implicit Types (p : t Ty).

(** What the cache tells the prefetcher, and at which cycle. *)
Inductive pf_op := Miss (a : Z) (ty : Ty) | PfHit (a : Z) | PfMiss (a : Z).

Definition op_addr (o : pf_op) : Z := match o with Miss a _ | PfHit a | PfMiss a => a end.

Definition pf_step (cyc : Z) p (o : pf_op) : res (t Ty) :=
  match o with
  | Miss a ty => observeMiss cyc p a ty
  | PfHit a => observePfHit cyc p a
  | PfMiss a => observePfMiss cyc p a
  end.

(** The run and, for each observation, the prefetches it caused. *)
Fixpoint pf_run p (os : list (Z * pf_op)) : res (t Ty * list (Z * list (Z * Ty))) :=
  match os with
  | [] => Ok (p, [])
  | (cyc, o) :: os =>
      let* p1 := pf_step cyc p o in
      let new := drop (length (m_controller p)) (m_controller p1) in
      let* r := pf_run p1 os in
      let '(p', tr) := r in Ok (p', (op_addr o, new) :: tr)
  end.

Definition params_ok (b : Z) (P : Params) : Prop :=
  block_size P = 2 ^ b ∧ 0 ≤ b ≤ page_shift P ∧ page_shift P ≤ 27 ∧ 0 < num_streams P < 2 ^ 31 ∧
  0 ≤ num_startup_pfs P ≤ MAX_PF_INFLIGHT ∧ 0 < unit_filter P ∧ 0 < nonunit_filter P.

Definition config (b : Z) (P : Params) : Config :=
  mkConfig (num_streams P) (train_misses P) (num_startup_pfs P) (cross_page P) (page_shift P) b (2 ^ b).

Lemma params_cfg b P : params_ok b P → cfg_ok (config b P).
Proof. intros (? & ? & ? & ? & ? & ? & ?). by do 4 (split; [done|]). Qed.

Lemma new_filter_ok {E} (d : E) n P : 0 < n → filter_ok 0 (CircularQueue.new d n) P.
Proof. intros Hn. exists []. split; [apply new_represents; lia|]. split; [done|]. simpl. lia. Qed.

Lemma new_pf_ok a ty b P : params_ok b P → ∃ p, new a ty P = Ok p ∧ pf_ok (config b P) 0 p ∧ m_controller p = [].
Proof.
  intros (Hbs & Hb & Hs & Hn & Hst & Hu & Hnu). unfold new, new_entry.
  assert (0 < 2 ^ b ≤ 2 ^ 27) as HB by (split; [apply Z.pow_pos_nonneg; lia|apply Z.pow_le_mono_r; lia]).
  rewrite Hbs, i32_small, floorLog2_log2 by (set_solver || lia). rewrite Z.log2_pow2 by lia. simpl.
  rewrite Z.shiftl_1_l, chk_i32_Ok by lia. simpl. rewrite (proj2 (Z.ltb_lt _ _)) by lia. simpl.
  rewrite (proj2 (Z.leb_le _ _)) by lia. simpl. eexists. split; [done|]. split; [|done]. split; [done|]. simpl.
  rewrite length_replicate, Z2Nat.id by lia. split; [done|]. split; [by apply Forall_replicate|].
  split; [intros []; by apply new_filter_ok|]. split; [by apply new_filter_ok|done].
Qed.

Lemma pf_step_spec g k cyc p o : cfg_ok g → pf_ok g k p → 0 ≤ op_addr o < 2 ^ 64 → 0 ≤ k < 2 ^ 62 →
  ∃ p', pf_step cyc p o = Ok p' ∧ pf_ok g (k + 3) p' ∧
    issues g (op_addr o) (Z.max 1 (m_num_startup_pfs g)) p p'.
Proof.
  intros Hg Hok Ha Hk. destruct o as [a ty|a|a]; simpl in *.
  - destruct (observeMiss_spec g Hg cyc k p a ty Hok Ha Hk) as (p' & ? & ? & ?). exists p'.
    do 2 (split; [done|]). eapply issues_weaken; [done|lia|done].
  - destruct (count_frame Hits p) as (_ & _ & Ec & _).
    destruct (issueNextPrefetch_spec g Hg cyc k (count Hits p) a) as (p' & ? & ? & (new & En & ?));
      [by apply pf_ok_count|]. exists p'. split; [done|]. split; [eapply pf_ok_mono; [done|lia]|].
    eapply (issues_weaken _ a); [|apply Z.le_max_l|done]. exists new. by rewrite En, Ec.
  - destruct (count_frame PartialHits p) as (_ & _ & Ec & _).
    destruct (issueNextPrefetch_spec g Hg cyc k (count PartialHits p) a) as (p' & ? & ? & (new & En & ?));
      [by apply pf_ok_count|]. exists p'. split; [done|]. split; [eapply pf_ok_mono; [done|lia]|].
    eapply (issues_weaken _ a); [|apply Z.le_max_l|done]. exists new. by rewrite En, Ec.
Qed.

(** C34. Prefetches stay in the page. Whatever misses and prefetch hits a cache
    reports, at any addresses and cycles, the prefetcher never fails, each report
    causes at most as many prefetches as a stream starts with, each of them is a
    line, and unless crossing pages is allowed it is in the page of the address
    reported, also when a stride wraps around the end of the address space. The
    statistics count exactly the prefetches enqueued. *)
Theorem prefetches_in_page a0 ty0 b (P : Params) (os : list (Z * pf_op)) (HP : params_ok b P)
    (Hos : Forall (λ o, 0 ≤ op_addr o.2 < 2 ^ 64) os) (Hlen : zlen os < 2 ^ 60) :
  ∃ p p' tr, new a0 ty0 P = Ok p ∧ pf_run p os = Ok (p', tr) ∧
    Forall (λ '(a, reqs), zlen reqs ≤ Z.max 1 (num_startup_pfs P) ∧
      Forall (λ r, 0 ≤ r.1 < 2 ^ 64 ∧ (2 ^ b | r.1) ∧
        (cross_page P = false → r.1 / 2 ^ page_shift P = a / 2 ^ page_shift P)) reqs) tr ∧
    m_controller p' = concat tr.*2 ∧
    numPrefetchRequested (rubyPrefetcherStats p') = zlen (concat tr.*2).
Proof.
  destruct (new_pf_ok a0 ty0 b P HP) as (p & En & Hok & Ectl). pose proof (params_cfg b P HP) as Hg.
  exists p. assert (∀ k p, pf_ok (config b P) k p → 0 ≤ k → k + 3 * zlen os < 2 ^ 62 →
    ∃ p' tr, pf_run p os = Ok (p', tr) ∧ pf_ok (config b P) (k + 3 * zlen os) p' ∧
      m_controller p' = m_controller p ++ concat tr.*2 ∧
      Forall (λ '(a, reqs), zlen reqs ≤ Z.max 1 (num_startup_pfs P) ∧
        Forall (λ r, 0 ≤ r.1 < 2 ^ 64 ∧ (2 ^ b | r.1) ∧
          (cross_page P = false → r.1 / 2 ^ page_shift P = a / 2 ^ page_shift P)) reqs) tr) as Hrun.
  { clear -Hos Hg. induction os as [|[cyc o] os IH]; intros k p Hok Hk Hlen.
    { exists p, []. split; [done|]. split; [by rewrite Z.add_0_r|]. by rewrite app_nil_r. }
    apply Forall_cons in Hos as [Ho Hos]. simpl in Hlen, Ho.
    destruct (pf_step_spec (config b P) k cyc p o Hg Hok Ho) as (p1 & E1 & Hok1 & (new & Enew & Hnew & Hall)); [lia|].
    destruct (IH Hos (k + 3) p1 Hok1) as (p' & tr & E & Hok' & Ectl & Htr); [lia|lia|].
    exists p', ((op_addr o, new) :: tr). cbn [pf_run]. rewrite E1. simpl. rewrite E. simpl.
    rewrite Enew, drop_app_length. split; [done|].
    split; [by replace (k + 3 * Z.of_nat (S (length os))) with (k + 3 + 3 * zlen os) by lia|].
    split; [by rewrite Ectl, Enew, <- app_assoc|]. constructor; [|done]. split; [done|].
    eapply Forall_impl; [done|]. intros r [[? ?] ?]. split; [done|]. by split. }
  destruct (Hrun 0 p Hok) as (p' & tr & E & Hok' & Ec & Htr); [lia|lia|]. rewrite Ectl in Ec. simpl in Ec.
  exists p', tr. do 4 (split; [done|]). rewrite <- Ec. apply Hok'.
Qed.

(** *** Consecutive misses *)

Section Sequential.
Context (b : Z) (P : Params) (HP : params_ok b P).
Local Notation "'g'" := (config b P).
Local Notation "'B'" := (2 ^ b).

(** A stream that does not leave its page gets all its first prefetches. *)
Lemma start_prefetches_all n p i e d la start :
  cfg p = g → vget (m_array p) i = Ok e → stride_ok g d → is_line g la → 0 ≤ start < 2 ^ 64 →
  (cross_page P = true ∨ ∀ j, 1 ≤ j ≤ Z.of_nat n → same_page g (u64 (la + B * d * j)) start) →
  ∃ p' la', start_prefetches p i (pageAddress p start) d n la = Ok (p', Some la') ∧
    m_array p' = m_array p ∧
    m_controller p' = m_controller p ++ ((λ j, (u64 (la + B * d * Z.of_nat j), m_type e)) <$> seq 1 n).
Proof.
  pose proof (params_cfg b P HP) as Hg.
  intros E Ee Hd Hla Hs. revert p la E Ee Hla. induction n as [|n IH]; intros p la E Ee Hla Hin; cbn [start_prefetches].
  { exists p, la. split; [done|]. by rewrite app_nil_r. }
  pose proof (stride_times g Hg d 1 Hd ltac:(lia)) as [H1 _]. rewrite Z.mul_1_r in H1.
  destruct (next_stride_spec g Hg p la d E Hla H1) as [-> Hline]. simpl in Hline |- *. set (la1 := u64 (la + B * d)) in *.
  rewrite (page_eqb g Hg) by (done || apply Hline). rewrite E. simpl.
  set (crossed := negb (bool_decide (same_page g start la1))).
  assert (crossed && negb (cross_page P) = false) as ->.
  { destruct Hin as [->|Hin]; [apply andb_false_r|]. unfold crossed. rewrite bool_decide_true; [done|].
    symmetry. specialize (Hin 1). rewrite Z.mul_1_r in Hin. apply Hin. lia. }
  destruct (launch_spec p crossed la1 (m_type e)) as (Ea0 & Ea & Ectl & Hsf). rewrite Ea0, Ee. simpl.
  set (p1 := enqueuePrefetch _ la1 (m_type e)) in *.
  assert (pageAddress p start = pageAddress p1 start) as -> by (unfold pageAddress; by rewrite (proj1 Hsf)).
  destruct (IH p1 la1) as (p' & la' & -> & Ea' & Ec'); [rewrite <- E; apply Hsf|by rewrite Ea|done| |].
  { destruct Hin as [|Hin]; [by left|right]. intros j Hj. unfold la1. rewrite u64_add_l.
    replace (la + B * d + B * d * j) with (la + B * d * (j + 1)) by lia. apply Hin. lia. }
  exists p', la'. split; [done|]. split; [by rewrite Ea', Ea|]. rewrite Ec', Ectl, <- app_assoc. f_equal.
  simpl. f_equal; [by rewrite Z.mul_1_r|]. rewrite <- (fmap_S_seq 1 n), <- list_fmap_compose.
  apply list_fmap_ext. intros _ j _. simpl. unfold la1. rewrite u64_add_l. do 2 f_equal. lia.
Qed.

Context (a : Z) (ty : Ty) (Ha : is_line g a).

(** After the misses to the lines up to [a + i * B]: one entry of the unit filter
    waits for the next line, and no stream is valid. *)
Definition waiting (i : Z) p : Prop :=
  pf_ok g (3 * (i + 1)) p ∧ Forall (λ e, m_is_valid e = false) (m_array p) ∧
  represents (unitFilter p) [mkUnit (a + (i + 1) * B) i] ∧ m_controller p = [].

Lemma no_stream p l : cfg p = g → zlen (m_array p) = num_streams P →
  Forall (λ e, m_is_valid e = false) (m_array p) → getPrefetchEntry p l = Ok None.
Proof.
  intros E Hlen Hall. unfold getPrefetchEntry. rewrite E.
  destruct (find_from_spec (λ i, let* e := vget (m_array p) i in
      if m_is_valid e then let* b := in_stream p e l in Ok (if b : bool then Some i else None)
      else Ok None) (λ _, None) (Z.to_nat (m_num_streams g)) 0) as (r & -> & Hr).
  { intros j Hj. destruct (vget_inbounds (m_array p) j) as (e & -> & He); [simpl in Hj; lia|]. simpl.
    by rewrite (Forall_lookup_1 _ _ _ _ Hall He). }
  destruct r; [|done]. by destruct Hr as (j & _ & [=] & _).
Qed.

(** The line a miss asks for, and the streams when there is none. *)
Lemma miss_prefix p l : cfg p = g → zlen (m_array p) = num_streams P → is_line g l →
  Forall (λ e, m_is_valid e = false) (m_array p) →
  Address.makeLineAddress l (m_block_size_bits (cfg p)) = Ok l ∧
  getPrefetchEntry (count MissObserved p) l = Ok None.
Proof.
  intros E Hlen Hl Hall. split.
  - rewrite E. destruct (line_of g (params_cfg b P HP) l) as (l' & -> & _ & _ & Hll); [apply Hl|]. by rewrite Hll.
  - destruct (count_frame MissObserved p) as (F1 & F2 & _). apply no_stream; by rewrite ?F1, ?F2.
Qed.

(** A hit in the only entry of the unit filter. *)
Lemma unit_hit cyc p x : cfg p = g → represents (unitFilter p) [x] → is_line g (u_addr x) →
  ∃ q', represents q' [mkUnit (u64 (u_addr x + B)) (u32 (u_hits x + 1))] ∧
    let p1 := with_filter UnitStride p q' in
    accessUnitFilter cyc p UnitStride (u_addr x) 1 ty =
      (let* p' := (if train_misses P <=? u32 (u_hits x + 1)
                   then let* i := getLRUindex p1 in initializeStream cyc p1 (u_addr x) 1 i ty
                   else Ok p1) in Ok (true, p')).
Proof.
  intros E Hq Hx. pose proof (params_cfg b P HP) as Hg. unfold accessUnitFilter. simpl.
  destruct (find_entry_spec _ _ (λ y, u_addr y =? u_addr x) Hq) as (r & -> & Hr). destruct r as [idx|]; last first.
  { by specialize (Hr 0%nat x eq_refl); rewrite Z.eqb_refl in Hr. }
  destruct Hr as (j & y & -> & Hy & _ & _). destruct j as [|j]; [|done]. injection Hy as <-.
  simpl. rewrite (at_spec _ _ 0 x Hq eq_refl). simpl. pose proof (block_pos g Hg) as (HB & HS & _). simpl in HB, HS.
  destruct (next_stride_spec g Hg p (u_addr x) 1 E Hx) as [-> Hl]; [simpl; lia|]. simpl in Hl |- *.
  rewrite Z.mul_1_r. destruct (set_at_spec _ _ 0 (mkUnit (u64 (u_addr x + B)) (u32 (u_hits x + 1))) Hq)
    as (q' & -> & Hq' & _); [simpl; lia|]. exists q'. split; [done|]. simpl. rewrite E. done.
Qed.

(** A miss in an empty filter. *)
Lemma unit_miss cyc p f d : cfg p = g → represents (filter_of f p) [] → 0 < CircularQueue._capacity (filter_of f p) →
  CircularQueue._head (filter_of f p) = 1 → d = 1 ∨ d = -1 →
  ∃ q', accessUnitFilter cyc p f a d ty = Ok (false, with_filter f p q') ∧
    represents q' [new_unit (u64 (a + B * d))].
Proof.
  intros E Hq Hc Hh Hd. pose proof (params_cfg b P HP) as Hg. unfold accessUnitFilter.
  pose proof Hq as (_ & Hsz & _). simpl in Hsz.
  destruct (find_entry_spec _ _ (λ y, u_addr y =? a) Hq) as (r & -> & Hr). destruct r as [idx|];
    [by destruct Hr as (j & y & _ & Hy & _)|]. simpl. pose proof (block_pos g Hg) as (HB & HS & _). simpl in HB, HS.
  destruct (next_stride_spec g Hg p a d E Ha) as [-> Hl]; [destruct Hd as [->| ->]; simpl; lia|]. simpl.
  destruct (queue_push_spec _ _ (new_unit (u64 (a + B * d))) Hq Hc) as (q' & -> & Hq' & _); [lia|].
  exists q'. split; [done|]. by destruct (CircularQueue.full (filter_of f p)).
Qed.

Lemma nonunit_miss cyc p : represents (nonUnitFilter p) [] → 0 < CircularQueue._capacity (nonUnitFilter p) →
  CircularQueue._head (nonUnitFilter p) = 1 →
  ∃ q', accessNonunitFilter cyc p a ty = Ok (false, with_nonunit p q').
Proof.
  intros Hq Hc Hh. unfold accessNonunitFilter. pose proof Hq as (_ & Hsz & _). simpl in Hsz.
  destruct (find_entry_spec _ _ (λ y, pageAddress p (n_addr y) =? pageAddress p a) Hq) as (r & -> & Hr).
  destruct r as [idx|]; [by destruct Hr as (j & y & _ & Hy & _)|]. simpl.
  destruct (queue_push_spec _ _ (new_nonunit a) Hq Hc) as (q' & -> & _); [lia|]. by exists q'.
Qed.

Lemma first_miss cyc a0 ty0 p : new a0 ty0 P = Ok p → a + B < 2 ^ 64 →
  ∃ p', observeMiss cyc p a ty = Ok p' ∧ waiting 0 p'.
Proof.
  intros En Hov. destruct (new_pf_ok a0 ty0 b P HP) as (p0 & En0 & Hok & Ec). rewrite En in En0. injection En0 as <-.
  pose proof (params_cfg b P HP) as Hg. destruct Hok as (E & Hlen & Hall & Hf & Hn & Hs).
  assert (Forall (λ e, m_is_valid e = false) (m_array p) ∧ unitFilter p = CircularQueue.new (new_unit 0) (unit_filter P) ∧
    negativeFilter p = CircularQueue.new (new_unit 0) (unit_filter P) ∧
    nonUnitFilter p = CircularQueue.new (new_nonunit 0) (nonunit_filter P)) as (Hinv & Eu & Eneg & Enu).
  { unfold new, new_entry in En. inv_res. split; [|done]. by apply Forall_replicate. }
  destruct (observeMiss_spec g Hg cyc 0 p a ty) as (p' & Em & Hok' & _); [done|apply Ha|lia|].
  exists p'. split; [done|]. split; [done|].
  destruct (miss_prefix p a E Hlen Ha Hinv) as [El Eg]. unfold observeMiss in Em. rewrite El in Em. simpl in Em.
  rewrite Eg in Em. destruct (count_frame MissObserved p) as (F1 & F2 & F3 & F4 & F5 & F6 & _).
  pose proof HP as (_ & _ & _ & _ & _ & Hu & Hnu). set (p1 := count MissObserved p) in *.
  destruct (unit_miss cyc p1 UnitStride 1) as (q1 & E1 & Hq1); [congruence|simpl; rewrite F4, Eu; by apply new_represents; lia|
    simpl; by rewrite F4, Eu|simpl; by rewrite F4, Eu|by left|]. simpl in Em. rewrite E1 in Em. simpl in Em.
  destruct (unit_miss cyc (with_filter UnitStride p1 q1) NegativeStride (-1)) as (q2 & E2 & _);
    [by rewrite <- E, <- F1| |simpl; by rewrite F5, Eneg|simpl; by rewrite F5, Eneg|by right|].
  { simpl. rewrite F5, Eneg. apply new_represents. lia. }
  simpl in E2. rewrite E2 in Em. simpl in Em.
  destruct (nonunit_miss cyc (with_filter NegativeStride (with_filter UnitStride p1 q1) q2)) as (q3 & E3);
    [|simpl; by rewrite F6, Enu|simpl; by rewrite F6, Enu|].
  { simpl. rewrite F6, Enu. apply new_represents. lia. }
  simpl in E3. rewrite E3 in Em. simpl in Em. injection Em as <-. simpl. rewrite F2, F3.
  split; [done|]. split; [|done]. pose proof (block_pos g Hg) as (HB & _). simpl in HB.
  rewrite Z.mul_1_r in Hq1. rewrite u64_small in Hq1 by (destruct Ha; lia). by rewrite Z.mul_1_l.
Qed.

Lemma waiting_hit cyc i p : waiting i p → 0 ≤ i → i + 1 < 2 ^ 32 → a + (i + 2) * B < 2 ^ 64 →
  ∃ q', represents q' [mkUnit (a + (i + 2) * B) (i + 1)] ∧
    let p1 := with_filter UnitStride (count MissObserved p) q' in
    observeMiss cyc p (a + (i + 1) * B) ty =
      (if train_misses P <=? i + 1
       then let* j := getLRUindex p1 in initializeStream cyc p1 (a + (i + 1) * B) 1 j ty else Ok p1).
Proof.
  intros ((E & Hlen & _) & Hinv & Hq & Ec) Hi Hov Hend.
  pose proof (block_pos g (params_cfg b P HP)) as (HB & _). simpl in HB. destruct Ha as [Har Hal].
  assert (is_line g (a + (i + 1) * B)) as Hl.
  { split; [nia|]. apply Z.divide_add_r; [done|by exists (i + 1)]. }
  destruct (miss_prefix p _ E Hlen Hl Hinv) as [El Eg]. unfold observeMiss. rewrite El. simpl. rewrite Eg. simpl.
  destruct (count_frame MissObserved p) as (F1 & _ & _ & F4 & _).
  destruct (unit_hit cyc (count MissObserved p) (mkUnit (a + (i + 1) * B) i)) as (q' & Hq' & Eh);
    [congruence|by rewrite F4|done|]. simpl in Eh, Hq'. rewrite u32_small in * by lia.
  rewrite u64_small in Hq' by nia. replace (a + (i + 1) * B + B) with (a + (i + 2) * B) in Hq' by lia.
  exists q'. split; [done|]. simpl in Eh |- *. rewrite Eh. match goal with |- _ = ?X => by destruct X end.
Qed.

Lemma waiting_miss cyc i p : waiting i p → 0 ≤ i → i + 1 < train_misses P → i + 1 < 2 ^ 32 →
  a + (i + 2) * B < 2 ^ 64 → ∃ p', observeMiss cyc p (a + (i + 1) * B) ty = Ok p' ∧ waiting (i + 1) p'.
Proof.
  intros Hw Hi Ht Hov Hend. pose proof Hw as (Hok & Hinv & _ & Ec).
  pose proof (block_pos g (params_cfg b P HP)) as (HB & _). simpl in HB. destruct Ha as [Har Hal].
  destruct (waiting_hit cyc i p Hw Hi Hov Hend) as (q' & Hq' & Em).
  rewrite (proj2 (Z.leb_gt _ _)) in Em by lia. eexists. split; [done|].
  destruct (observeMiss_spec g (params_cfg b P HP) cyc (3 * (i + 1)) p (a + (i + 1) * B) ty) as (p' & Em' & Hok' & _);
    [done|nia|lia|]. simpl in Em. rewrite Em in Em'. injection Em' as <-.
  destruct (count_frame MissObserved p) as (_ & F2 & F3 & _).
  split; [by replace (3 * (i + 1 + 1)) with (3 * (i + 1) + 3) by lia|]. simpl. rewrite F2, F3.
  split; [done|]. split; [|done]. by replace (i + 1 + 1) with (i + 2) by lia.
Qed.

Lemma last_miss cyc i p : waiting i p → 0 ≤ i → i + 1 = train_misses P → i + 1 < 2 ^ 32 →
  a + (i + 2) * B < 2 ^ 64 →
  (cross_page P = true ∨ ∀ j, 1 ≤ j ≤ num_startup_pfs P →
     same_page g (u64 (a + (i + 1) * B + B * 1 * j)) (a + (i + 1) * B)) →
  ∃ p', observeMiss cyc p (a + (i + 1) * B) ty = Ok p' ∧
    m_controller p' = (λ j, (u64 (a + (i + 1) * B + B * 1 * Z.of_nat j), ty)) <$> seq 1 (Z.to_nat (num_startup_pfs P)).
Proof.
  intros Hw Hi Ht Hov Hend Hin. pose proof Hw as (Hok & Hinv & _ & Ec). pose proof (params_cfg b P HP) as Hg.
  pose proof (block_pos g Hg) as (HB & HS & _). simpl in HB, HS. pose proof Ha as [Har Hal].
  destruct (waiting_hit cyc i p Hw Hi Hov Hend) as (q' & Hq' & ->). rewrite (proj2 (Z.leb_le _ _)) by lia.
  set (l := a + (i + 1) * B) in *. set (p1 := with_filter UnitStride (count MissObserved p) q').
  assert (is_line g l) as Hl by (split; [nia|apply Z.divide_add_r; [done|by exists (i + 1)]]).
  destruct (count_frame MissObserved p) as (F1 & F2 & F3 & _). pose proof Hok as (E & Hlen & _).
  assert (∃ j e, getLRUindex p1 = Ok j ∧ vget (m_array p1) j = Ok e) as (j & e & -> & Ej).
  { unfold getLRUindex, p1. simpl. rewrite F1, F2, E. simpl. pose proof HP as (_ & _ & _ & Hns & _).
    destruct (vget_inbounds (m_array p) 0) as (e & Ee & _); [simpl in Hlen; lia|]. rewrite Ee. simpl.
    destruct (lru_scan_spec (m_array p) (Z.to_nat (num_streams P)) 0 0 e) as (r & e' & -> & ? & _);
      [lia|simpl in Hlen; lia|done|lia|]. by exists r, e'. }
  simpl. unfold initializeStream. destruct (count_frame AllocatedStreams p1) as (G1 & G2 & G3 & _).
  destruct (line_of g Hg l) as (l' & El & _ & _ & Hll); [apply Hl|]. rewrite (Hll Hl) in El. simpl in El.
  assert (cfg p1 = g) as E1 by (unfold p1; simpl; congruence).
  rewrite G1, E1. simpl. rewrite El. simpl. rewrite (modify_spec _ j _ e) by by rewrite G2. simpl.
  rewrite G1, E1. simpl. rewrite El. simpl. pose proof (vget_bounds _ _ _ Ej) as Hj. pose proof HP as (_ & _ & _ & _ & Hst & _).
  set (e1 := mkEntry l 1 cyc true ty _ _). set (p2 := with_array _ _).
  destruct (start_prefetches_all (Z.to_nat (num_startup_pfs P)) p2 j e1 1 l l) as (p3 & la & -> & Ea & Ectl).
  { by unfold p2; simpl; rewrite G1. }
  { unfold p2. simpl. rewrite G2. apply vget_Ok. split; [lia|]. apply list_lookup_insert_eq. lia. }
  { unfold stride_ok. simpl. lia. }
  { done. } { apply Hl. } { by rewrite Z2Nat.id by lia. }
  simpl. erewrite modify_spec; last first.
  { rewrite Ea. unfold p2. simpl. rewrite G2. apply vget_Ok. split; [lia|]. apply list_lookup_insert_eq. lia. }
  eexists. split; [done|]. simpl. rewrite Ectl. unfold p2. simpl. rewrite G3. unfold p1. simpl. by rewrite F3, Ec.
Qed.

Definition misses (cyc : nat → Z) (n : nat) : list (Z * pf_op) :=
  (λ i, (cyc i, Miss (a + Z.of_nat i * B) ty)) <$> seq 0 n.

Lemma pf_run_snoc p os cyc o p1 tr : pf_run p os = Ok (p1, tr) →
  pf_run p (os ++ [(cyc, o)]) =
    (let* p' := pf_step cyc p1 o in
     Ok (p', tr ++ [(op_addr o, drop (length (m_controller p1)) (m_controller p'))])).
Proof.
  revert p tr. induction os as [|[c o'] os IH]; intros p tr Hr.
  - injection Hr as <- <-. simpl. by destruct (pf_step cyc p o).
  - cbn [pf_run app] in Hr |- *. destruct (pf_step c p o') as [p2|]; [|done]. simpl in Hr |- *.
    destruct (pf_run p2 os) as [[p3 tr']|] eqn:E; [|done]. simpl in Hr. injection Hr as -> <-.
    rewrite (IH _ _ E). by destruct (pf_step cyc p1 o).
Qed.

Lemma waiting_run a0 ty0 cyc n p : new a0 ty0 P = Ok p → Z.of_nat (S n) ≤ train_misses P < 2 ^ 32 →
  a + (Z.of_nat n + 1) * B < 2 ^ 64 →
  ∃ p', pf_run p (misses cyc (S n)) = Ok (p', (λ i, (a + Z.of_nat i * B, [])) <$> seq 0 (S n)) ∧
    waiting (Z.of_nat n) p'.
Proof.
  intros En. destruct (new_pf_ok a0 ty0 b P HP) as (p0 & En0 & _ & Ec0). rewrite En in En0. injection En0 as <-.
  pose proof (block_pos g (params_cfg b P HP)) as (HB & _). simpl in HB.
  induction n as [|n IH]; intros Ht Hov.
  - destruct (first_miss (cyc 0%nat) a0 ty0 p En) as (p' & Em & Hw); [lia|]. exists p'. split; [|done].
    unfold misses. simpl. rewrite Z.add_0_r, Em. simpl. destruct Hw as (_ & _ & _ & ->). by rewrite Ec0.
  - destruct IH as (p1 & E1 & Hw1); [lia|nia|].
    destruct (waiting_miss (cyc (S n)) (Z.of_nat n) p1 Hw1) as (p' & Em & Hw'); [lia|lia|lia|lia|].
    exists p'. split; [|by replace (Z.of_nat (S n)) with (Z.of_nat n + 1) by lia].
    unfold misses in *. rewrite seq_S, !fmap_app. cbn [fmap list_fmap].
    rewrite (pf_run_snoc _ _ _ _ _ _ E1). simpl pf_step.
    replace (Z.of_nat (S n)) with (Z.of_nat n + 1) by lia. rewrite Em. simpl.
    destruct Hw' as (_ & _ & _ & ->). destruct Hw1 as (_ & _ & _ & ->). done.
Qed.

(** Misses to consecutive lines start a stream. In a new prefetcher that is
    trained by [T] misses, the first [T] misses to consecutive lines cause no
    prefetch, and the next one causes exactly the prefetches of the lines that
    follow it, as many as a stream starts with, when they are in its page or pages
    may be crossed. *)
Theorem consecutive_misses_start_stream a0 ty0 (cyc : nat → Z) (Ht : 1 ≤ train_misses P < 2 ^ 32)
    (Hov : a + (train_misses P + 1 + num_startup_pfs P) * B < 2 ^ 64)
    (Hpage : cross_page P = true ∨ (a + train_misses P * B) / 2 ^ page_shift P =
      (a + (train_misses P + num_startup_pfs P) * B) / 2 ^ page_shift P) :
  ∃ p p', new a0 ty0 P = Ok p ∧
    pf_run p (misses cyc (Z.to_nat (train_misses P) + 1)) =
      Ok (p', ((λ i, (a + Z.of_nat i * B, [])) <$> seq 0 (Z.to_nat (train_misses P))) ++
        [(a + train_misses P * B,
          (λ j, (a + (train_misses P + Z.of_nat j) * B, ty)) <$> seq 1 (Z.to_nat (num_startup_pfs P)))]).
Proof.
  destruct (new_pf_ok a0 ty0 b P HP) as (p & En & _ & _). exists p.
  pose proof (block_pos g (params_cfg b P HP)) as (HB & _). simpl in HB. pose proof Ha as [Har _].
  pose proof HP as (_ & Hb & _ & _ & Hst & _).
  assert (∃ n, train_misses P = Z.of_nat n + 1) as [n ET] by (exists (Z.to_nat (train_misses P - 1)); lia).
  destruct (waiting_run a0 ty0 cyc n p En) as (p1 & E1 & Hw); [lia|nia|].
  assert (0 < 2 ^ page_shift P) as Hps by (apply Z.pow_pos_nonneg; lia).
  destruct (last_miss (cyc (S n)) (Z.of_nat n) p1 Hw) as (p' & Em & Ec); [lia|lia|lia|nia| |].
  { destruct Hpage as [|Hpage]; [by left|right]. intros j Hj. rewrite u64_small by nia. unfold same_page. simpl.
    rewrite ET in Hpage. apply Z.le_antisymm; [rewrite Hpage|]; apply Z.div_le_mono; nia. }
  exists p'. split; [done|]. rewrite ET. replace (Z.to_nat (Z.of_nat n + 1)) with (S n) by lia.
  unfold misses in *. rewrite seq_app, fmap_app. cbn [seq fmap list_fmap] in E1 |- *.
  rewrite (pf_run_snoc _ _ _ _ _ _ E1). simpl pf_step. simpl (0 + S n)%nat.
  replace (Z.of_nat (S n)) with (Z.of_nat n + 1) by lia. rewrite Em. simpl. destruct Hw as (_ & _ & _ & ->).
  simpl. rewrite drop_0, Ec. do 6 f_equal. apply list_fmap_ext. intros _ j Hj%list_elem_of_lookup_2%elem_of_seq.
  f_equal. rewrite u64_small by nia. lia.
Qed.

End Sequential.

End PrefetchRuns.

(** ** The default parameters, with lines of 64 bytes *)

Section DefaultPrefetcher.
Import RubyPrefetcher.

Definition defaults : Params := mkParams 4 8 8 4 1 false 12 64.

Lemma defaults_ok : params_ok 6 defaults.
Proof. by vm_compute. Qed.

(** Lines three apart: the stream starts after enough equal distances, and stops at
    the end of the page. *)
Definition strided : list (Z * pf_op (Ty := unit)) :=
  (λ i, (Z.of_nat i, Miss (0x1000 + 192 * Z.of_nat i) ())) <$> seq 0 10.

Lemma prefetches_in_page_witness :
  ∃ p p' tr, new 0 () defaults = Ok p ∧ pf_run p strided = Ok (p', tr) ∧
    Forall (λ '(a, reqs), zlen reqs ≤ 1 ∧ Forall (λ r, r.1 / 4096 = a / 4096) reqs) tr ∧
    concat tr.*2 = [(0x1000 + 192 * 7, ())].
Proof.
  destruct (prefetches_in_page 0 () 6 defaults strided defaults_ok) as (p & p' & tr & En & Er & Htr & _).
  { unfold strided. apply Forall_fmap, Forall_forall. intros i Hi%elem_of_seq. simpl. lia. }
  { done. }
  exists p, p', tr. split; [done|]. split; [done|]. split.
  - eapply Forall_impl; [exact Htr|]. intros [a reqs] [Hn Hr]. split; [done|].
    eapply Forall_impl; [exact Hr|]. intros r (_ & _ & Hp). by apply Hp.
  - vm_compute in En. injection En as <-. vm_compute in Er. injection Er as _ <-. done.
Defined.

Lemma consecutive_misses_start_stream_witness :
  ∃ p p', new 0 () defaults = Ok p ∧
    pf_run p (misses 6 0x2000 () (λ i, Z.of_nat i) 5) =
      Ok (p', [(0x2000, []); (0x2040, []); (0x2080, []); (0x20C0, []); (0x2100, [(0x2140, ())])]).
Proof.
  assert (is_line (config 6 defaults) 0x2000) as Hl by (split; [done|by exists 128]).
  by apply (consecutive_misses_start_stream 6 defaults defaults_ok 0x2000 () Hl 0 () (λ i, Z.of_nat i));
    [done|done|right].
Defined.

End DefaultPrefetcher.
