(* ===== verification/Resources.v ===== *)
(** The resources an access to a Ruby cache occupies: the banks of the data and
    tag arrays ([structures/BankedArray]) and the pipelined atomic units
    ([structures/ALUFreeListArray]). *)

From stdpp Require Import prelude list sorting.
From Stdlib Require Import ZArith Lia.
From S2P Require Import Prelude Bits.

Open Scope Z_scope.

(** ** BankedArray *)

Module BankedArray.

Record AccessRecord := mkRecord { idx : Z; startAccess : Z; endAccess : Z }.

(** [bankBits] is set by the constructor only when there are banks. *)
Record t := mk {
  banks : Z; clockPeriod : Z; bankBits : option Z; startIndexBit : Z;
  busyBanks : list AccessRecord }.

Definition new (banks startIndexBit : Z) : res t :=
  let* bits := (if banks =? 0 then Ok None
                else rmap Some (IntMath.floorLog2 4 banks)) in
  Ok (mk banks 0 bits startIndexBit
         (replicate (Z.to_nat banks) (mkRecord 0 0 0))).

(** [idx % banks] is a division of signed 64-bit values, converted to
    [unsigned int] by the return. *)
Definition mapIndexToBank (a : t) (idx : Z) : res Z :=
  if banks a =? 1 then Ok 0
  else let* _ := require (negb (banks a =? 0)) EUndef in
       Ok (u32 (Z.rem idx (banks a))).

Definition tryAccess (now : Z) (a : t) (idx : Z) : res bool :=
  let* bank := mapIndexToBank a idx in
  assert! bank <? banks a in
  let* r := vget (busyBanks a) bank in
  Ok (negb (now <=? endAccess r)).

Definition reserve (now : Z) (a : t) (idx accessLatency : Z) : res t :=
  if accessLatency =? 0 then Ok a
  else
    assert! 0 <? clockPeriod a in
    let* bank := mapIndexToBank a idx in
    assert! bank <? banks a in
    let* r := vget (busyBanks a) bank in
    let startTime := Z.max now (endAccess r) in
    let finish := u64 (startTime + u64 (u64 (accessLatency - 1) * clockPeriod a)) in
    let* bs := vset (busyBanks a) bank (mkRecord idx startTime finish) in
    Ok (mk (banks a) (clockPeriod a) (bankBits a) (startIndexBit a) bs).

Definition getBankEndTime (a : t) (idx : Z) : res Z :=
  let* bank := mapIndexToBank a idx in
  rmap endAccess (vget (busyBanks a) bank).

Definition setClockPeriod (a : t) (c : Z) : t :=
  mk (banks a) c (bankBits a) (startIndexBit a) (busyBanks a).

End BankedArray.

(** ** ALUFreeListArray *)

Module ALUFreeListArray.

Record AccessRecord := mkRecord { lineAddr : Z; startTick : Z }.

(** The front of the deque is the head of the list. *)
Record t := mk {
  numALUs : Z; accessClocks : Z; accessLatency : Z;
  accessQueue : list AccessRecord; m_block_size_bits : Z }.

Definition new (num_ALUs access_clocks : Z) : t := mk num_ALUs access_clocks 0 [] 0.

Definition with_queue (a : t) (q : list AccessRecord) : t :=
  mk (numALUs a) (accessClocks a) (accessLatency a) q (m_block_size_bits a).

(** The [while] loop: [pop_back] as long as the oldest record is too old. *)
Fixpoint drop_old (oldest : Z) (rev_queue : list AccessRecord) : list AccessRecord :=
  match rev_queue with
  | [] => []
  | r :: q => if startTick r <? oldest then drop_old oldest q else rev_queue
  end.

(** The [for] loop over the queue. *)
Fixpoint try_records (now addr limit line_bits accesses_this_tick : Z)
    (q : list AccessRecord) : res bool :=
  match q with
  | [] => Ok true
  | r :: q =>
      let this_tick := startTick r =? now in
      let n := if this_tick then u32 (accesses_this_tick + 1) else accesses_this_tick in
      if this_tick && (limit <? n) then Ok false
      else
        let* line := Address.makeLineAddress addr line_bits in
        if lineAddr r =? line then Ok false
        else try_records now addr limit line_bits n q
  end.

Definition tryAccess (now : Z) (a : t) (addr : Z) : res (bool * t) :=
  let oldestValidRecordStart := u64 (now - accessLatency a) in
  let q := reverse (drop_old oldestValidRecordStart (reverse (accessQueue a))) in
  let* b := try_records now addr (numALUs a) (m_block_size_bits a) 0 q in
  Ok (b, with_queue a q).

Definition reserve (now : Z) (a : t) (addr : Z) : res t :=
  let* line := Address.makeLineAddress addr (m_block_size_bits a) in
  Ok (with_queue a (mkRecord line now :: accessQueue a)).

Definition getLatency (a : t) : res Z :=
  assert! 0 <? accessLatency a in Ok (accessLatency a).

Definition setClockPeriod (a : t) (clockPeriod : Z) : t :=
  mk (numALUs a) (accessClocks a) (u64 (accessClocks a * clockPeriod))
     (accessQueue a) (m_block_size_bits a).

Definition setBlockSize (a : t) (block_size : Z) : res t :=
  let* b := IntMath.floorLog2 4 block_size in
  Ok (mk (numALUs a) (accessClocks a) (accessLatency a) (accessQueue a) b).

End ALUFreeListArray.

(** ** Reservations of a bank do not overlap *)

Section BankReservations.
Import BankedArray.

(** Every bank exists and the clock runs: what the cache sets up in [init]. *)
Definition banked_wf (a : t) : Prop :=
  1 ≤ banks a < 2 ^ 32 ∧ zlen (busyBanks a) = banks a ∧ 0 < clockPeriod a.

(** A schedule of reservations, each a tick, an index and a latency; the log
    holds the bank and the interval each one was given. *)
Fixpoint reserve_all (a : t) (rs : list (Z * Z * Z)) : res (t * list (Z * Z * Z)) :=
  match rs with
  | [] => Ok (a, [])
  | (now, idx, lat) :: rs =>
      let* a' := reserve now a idx lat in
      let* b := mapIndexToBank a idx in
      let* r := vget (busyBanks a') b in
      let* (a'', log) := reserve_all a' rs in
      Ok (a'', (b, startAccess r, endAccess r) :: log)
  end.

(** No end time can overflow a [Tick]: [m] bounds the end times so far and the
    ticks of the schedule. *)
Definition no_overflow (m clk : Z) (rs : list (Z * Z * Z)) : Prop :=
  m + foldr (λ r acc, (r.2 - 1) * clk + acc) 0 rs < 2 ^ 64 ∧
  Forall (λ r, 0 ≤ r.1.1 ≤ m ∧ 0 ≤ r.1.2 ∧ 1 ≤ r.2 < 2 ^ 64) rs.

Definition ends_before (m : Z) (a : t) : Prop :=
  Forall (λ r, 0 ≤ endAccess r ≤ m) (busyBanks a).

Lemma mapIndexToBank_Ok a idx :
  banked_wf a → 0 ≤ idx →
  mapIndexToBank a idx = Ok (idx mod banks a) ∧ 0 ≤ idx mod banks a < banks a.
Proof.
  intros (Hb & _ & _) Hi. pose proof (Z.mod_pos_bound idx (banks a)).
  split; [|lia]. unfold mapIndexToBank. destruct (Z.eqb_spec (banks a) 1) as [->|].
  { by rewrite Z.mod_1_r. }
  rewrite (proj2 (Z.eqb_neq (banks a) 0)) by lia. simpl.
  rewrite Z.rem_mod_nonneg by lia. rewrite u32_small by lia. done.
Qed.

(** The array operations never fail on a well-formed array. *)
Lemma bank_get a idx :
  banked_wf a → 0 ≤ idx →
  ∃ r, mapIndexToBank a idx = Ok (idx mod banks a) ∧ (idx mod banks a <? banks a) = true ∧
    vget (busyBanks a) (idx mod banks a) = Ok r.
Proof.
  intros Hwf Hi. destruct (mapIndexToBank_Ok a idx Hwf Hi) as [Hm Hr].
  pose proof Hwf as (Hb & Hlen & Hc).
  destruct (vget_inbounds (busyBanks a) (idx mod banks a)) as (r & Hg & _); [lia|].
  exists r. split_and!; [done| |done]. apply Z.ltb_lt. lia.
Qed.

Lemma reserve_Ok now a idx lat :
  banked_wf a → 0 ≤ idx → ∃ a', reserve now a idx lat = Ok a' ∧ banked_wf a'.
Proof.
  intros Hwf Hi. destruct (bank_get a idx Hwf Hi) as (r & Hm & Hb & Hg).
  pose proof (vget_bounds _ _ _ Hg). unfold reserve. case_match; [eauto|].
  pose proof Hwf as (? & Hlen & Hc). rewrite (proj2 (Z.ltb_lt 0 _) Hc), Hm. cbn [rbind require].
  rewrite Hb. cbn [rbind require]. rewrite Hg. cbn [rbind].
  destruct (vset _ _ _) as [bs|] eqn:Hs; [|by unfold vset in Hs; case_decide].
  cbn [rbind]. eexists. split; [done|]. split_and!; simpl; try lia.
  rewrite <- Hlen. f_equal. by eapply vset_length.
Qed.

Lemma tryAccess_Ok now a idx :
  banked_wf a → 0 ≤ idx → ∃ b, tryAccess now a idx = Ok b.
Proof.
  intros Hwf Hi. destruct (bank_get a idx Hwf Hi) as (r & Hm & Hb & Hg).
  unfold tryAccess. rewrite Hm. cbn [rbind]. rewrite Hb. cbn [rbind require]. rewrite Hg. eauto.
Qed.

Lemma getBankEndTime_Ok a idx :
  banked_wf a → 0 ≤ idx → ∃ x, getBankEndTime a idx = Ok x.
Proof.
  intros Hwf Hi. destruct (bank_get a idx Hwf Hi) as (r & Hm & _ & Hg).
  unfold getBankEndTime. rewrite Hm. cbn [rbind]. rewrite Hg. simpl. eauto.
Qed.

Lemma reserve_spec now a idx lat :
  banked_wf a → 0 ≤ idx → 1 ≤ lat < 2 ^ 64 →
  let b := idx mod banks a in
  ∃ r r' a', vget (busyBanks a) b = Ok r ∧ reserve now a idx lat = Ok a' ∧
    vget (busyBanks a') b = Ok r' ∧ banked_wf a' ∧
    banks a' = banks a ∧ clockPeriod a' = clockPeriod a ∧
    startAccess r' = Z.max now (endAccess r) ∧
    endAccess r' = u64 (startAccess r' + u64 ((lat - 1) * clockPeriod a)) ∧
    (∀ b', b' ≠ b → vget (busyBanks a') b' = vget (busyBanks a) b').
Proof.
  intros Hwf Hi Hl b. destruct (mapIndexToBank_Ok a idx Hwf Hi) as [Hm Hr].
  destruct Hwf as (Hb & Hlen & Hc).
  destruct (vget_inbounds (busyBanks a) b) as (r & Hg & _); [lia|].
  unfold reserve. rewrite (proj2 (Z.eqb_neq lat 0)), (proj2 (Z.ltb_lt 0 _)) by lia.
  rewrite Hm. unfold rbind, require. rewrite (proj2 (Z.ltb_lt (idx mod banks a) _)) by lia.
  fold b. rewrite Hg.
  destruct (vset (busyBanks a) b _) as [bs|] eqn:Hs; [|exfalso].
  2: { unfold vset in Hs. case_decide; [done|lia]. }
  exists r. eexists _, _. split; [done|]. split; [done|]. simpl.
  split; [by eapply vget_vset_eq|]. split.
  { split_and!; simpl; [lia..| |done]. rewrite <- Hlen. f_equal. by eapply vset_length. }
  split_and!; [done..| |]; simpl.
  - by rewrite (u64_small (lat - 1)) by lia.
  - intros b' ?. by eapply vget_vset_ne.
Qed.

Lemma ends_before_get m a b r : ends_before m a → vget (busyBanks a) b = Ok r → 0 ≤ endAccess r ≤ m.
Proof. intros H [_ Hg]%vget_Ok. exact (Forall_lookup_1 _ _ _ _ H Hg). Qed.

Lemma sum_nonneg clk rs m :
  0 < clk → Forall (λ r : Z * Z * Z, 0 ≤ r.1.1 ≤ m ∧ 0 ≤ r.1.2 ∧ 1 ≤ r.2 < 2 ^ 64) rs →
  0 ≤ foldr (λ r acc, (r.2 - 1) * clk + acc) 0 rs.
Proof. intros Hc. induction 1 as [|[[n i] l] rs (? & ? & ?) _ IH]; simpl in *; nia. Qed.

(** One reservation within the bound keeps every end time within the bound
    raised by its duration. *)
Lemma reserve_step m now a idx lat rs :
  banked_wf a → ends_before m a → no_overflow m (clockPeriod a) ((now, idx, lat) :: rs) →
  let b := idx mod banks a in
  ∃ r r' a', vget (busyBanks a) b = Ok r ∧ reserve now a idx lat = Ok a' ∧
    vget (busyBanks a') b = Ok r' ∧ banked_wf a' ∧
    banks a' = banks a ∧ clockPeriod a' = clockPeriod a ∧
    startAccess r' = Z.max now (endAccess r) ∧
    endAccess r' = startAccess r' + (lat - 1) * clockPeriod a ∧
    (∀ b', b' ≠ b → vget (busyBanks a') b' = vget (busyBanks a) b') ∧
    ends_before (m + (lat - 1) * clockPeriod a) a' ∧
    no_overflow (m + (lat - 1) * clockPeriod a) (clockPeriod a) rs.
Proof.
  intros Hwf He [Hs [(Hn & Hi & Hl) Hrs]%Forall_cons]; cbv zeta; simpl in *.
  pose proof Hwf as (_ & _ & Hc). pose proof (sum_nonneg _ _ _ Hc Hrs).
  assert (0 ≤ (lat - 1) * clockPeriod a) by nia.
  destruct (reserve_spec now a idx lat Hwf Hi) as
    (r & r' & a' & Hr & Hres & Hr' & Hwf' & Hb & Hcl & Hst & Hen & Hoth); [lia|].
  pose proof (ends_before_get _ _ _ _ He Hr).
  rewrite (u64_small ((lat - 1) * _)), u64_small in Hen by lia.
  exists r, r', a'. split_and!; try done.
  - apply Forall_lookup. intros i x Hx. destruct (decide (Z.of_nat i = idx mod banks a)) as [Hib|Hib].
    + assert (vget (busyBanks a') (idx mod banks a) = Ok x) as Hg.
      { apply vget_Ok. rewrite <- Hib, Nat2Z.id. split; [lia|done]. }
      assert (x = r') as -> by congruence. lia.
    + assert (vget (busyBanks a) (Z.of_nat i) = Ok x) as Hg.
      { rewrite <- Hoth by done. apply vget_Ok. rewrite Nat2Z.id. split; [lia|done]. }
      pose proof (ends_before_get _ _ _ _ He Hg). lia.
  - split; [lia|].
    eapply Forall_impl; [exact Hrs|]. intros [[n i] l] ?. simpl in *. lia.
Qed.

(** Every interval of the log starts no earlier than its bank was free. *)
Lemma reserve_all_log rs m a :
  banked_wf a → ends_before m a → no_overflow m (clockPeriod a) rs →
  ∃ a' log, reserve_all a rs = Ok (a', log) ∧
    Forall2 (λ q l, l.1.1 = q.1.2 mod banks a ∧ q.1.1 ≤ l.1.2 ∧
                    l.2 = l.1.2 + (q.2 - 1) * clockPeriod a) rs log ∧
    Forall (λ l, ∀ r, vget (busyBanks a) l.1.1 = Ok r → endAccess r ≤ l.1.2) log ∧
    (∀ i j li lj, (i < j)%nat → log !! i = Some li → log !! j = Some lj →
       li.1.1 = lj.1.1 → li.2 ≤ lj.1.2).
Proof.
  revert m a. induction rs as [|[[now idx] lat] rs IH]; intros m a Hwf He Ho; simpl.
  { exists a, []. split_and!; [done|constructor|constructor|set_solver]. }
  destruct (reserve_step _ _ _ _ _ _ Hwf He Ho) as
    (r & r' & a' & Hr & Hres & Hr' & Hwf' & Hb & Hcl & Hst & Hen & Hoth & He' & Ho').
  assert (0 ≤ idx) as Hi by (destruct Ho as [_ [(_ & Hi & _) _]%Forall_cons]; exact Hi).
  assert (1 ≤ lat) as Hlat by (destruct Ho as [_ [(_ & _ & ? & _) _]%Forall_cons]; done).
  destruct (mapIndexToBank_Ok a idx Hwf Hi) as [Hm _].
  rewrite <- Hcl in He', Ho'.
  destruct (IH _ a' Hwf' He' Ho') as (a'' & log & Hlog & Hall & Hfree & Hpair).
  rewrite Hres. cbn [rbind]. rewrite Hm. cbn [rbind]. rewrite Hr'. cbn [rbind].
  rewrite Hlog. cbn [rbind]. eexists _, _. split; [done|].
  pose proof Hwf as (_ & _ & Hclk).
  assert (∀ b x, vget (busyBanks a) b = Ok x →
    ∃ y, vget (busyBanks a') b = Ok y ∧ endAccess x ≤ endAccess y) as Hmono.
  { intros b x Hx. destruct (decide (b = idx mod banks a)) as [->|]; [|exists x; split; [by rewrite Hoth|lia]].
    exists r'. split; [done|]. assert (x = r) as -> by congruence. nia. }
  split_and!.
  - constructor; [simpl; split_and!; [done|lia|done]|]. by rewrite <- Hb, <- Hcl.
  - constructor; simpl; [intros; assert (r0 = r) as -> by congruence; lia|].
    eapply Forall_impl; [exact Hfree|]. intros l Hl x Hx.
    destruct (Hmono _ _ Hx) as (y & Hy & ?). specialize (Hl _ Hy). lia.
  - intros [|i] [|j] li lj Hij Hli Hlj Hbk; simpl in *; [lia| |lia|].
    + simplify_eq/=. rewrite Forall_lookup in Hfree. apply (Hfree _ _ Hlj). by rewrite <- Hbk.
    + apply (Hpair i j); [lia|done..].
Qed.

(** For every schedule of reservations of a banked array whose times fit in
    a [Tick], each reservation succeeds and occupies its bank [index mod banks]
    for [latency - 1] clock periods from a start no earlier than the request,
    and two reservations of one bank never overlap: the later one starts no
    earlier than the earlier one ends. *)
Theorem bank_reservations_disjoint (rs : list (Z * Z * Z)) (m : Z) (a : t)
    (Hwf : banked_wf a) (He : ends_before m a) (Ho : no_overflow m (clockPeriod a) rs) :
  ∃ a' log, reserve_all a rs = Ok (a', log) ∧
    Forall2 (λ q l, l.1.1 = q.1.2 mod banks a ∧ q.1.1 ≤ l.1.2 ∧
                    l.2 = l.1.2 + (q.2 - 1) * clockPeriod a) rs log ∧
    (∀ i j li lj, (i < j)%nat → log !! i = Some li → log !! j = Some lj →
       li.1.1 = lj.1.1 → li.2 ≤ lj.1.2).
Proof.
  destruct (reserve_all_log rs m a Hwf He Ho) as (a' & log & ? & ? & _ & ?). eauto 6.
Qed.

Definition two_banks : t :=
  mk 2 500 (Some 1) 6 [mkRecord 0 0 0; mkRecord 0 0 0].

Lemma bank_reservations_disjoint_witness :
  ∃ a' log, reserve_all two_banks [(1000, 4, 5); (1000, 6, 3); (1500, 7, 3)] = Ok (a', log) ∧
    Forall2 (λ q l, l.1.1 = q.1.2 mod banks two_banks ∧ q.1.1 ≤ l.1.2 ∧
                    l.2 = l.1.2 + (q.2 - 1) * clockPeriod two_banks)
      [(1000, 4, 5); (1000, 6, 3); (1500, 7, 3)] log ∧
    (∀ i j li lj, (i < j)%nat → log !! i = Some li → log !! j = Some lj →
       li.1.1 = lj.1.1 → li.2 ≤ lj.1.2).
Proof.
  apply (bank_reservations_disjoint _ 2000); unfold banked_wf, ends_before, no_overflow; simpl;
    [lia|repeat constructor; simpl; lia|split; [lia|repeat constructor; simpl; lia]].
Defined.

End BankReservations.

(** ** Admission to the atomic units *)

Section AtomicUnits.
Import ALUFreeListArray.

Lemma try_records_Ok now addr limit line_bits n q :
  line_bits < 64 → ∃ b, try_records now addr limit line_bits n q = Ok b.
Proof.
  intros Hb. revert n. induction q as [|r q IH]; intros n; simpl; [eauto|].
  unfold Address.makeLineAddress. rewrite (proj2 (Z.ltb_lt _ _) Hb). cbn [rbind require].
  repeat case_match; eauto.
Qed.

(** The newest record is in front: ticks only grow. *)
Definition queue_sorted (q : list AccessRecord) : Prop :=
  StronglySorted (λ r s, startTick s ≤ startTick r) q.

Definition in_flight (oldest : Z) (q : list AccessRecord) : list AccessRecord :=
  filter (λ r, oldest ≤ startTick r) q.

(** Popping old records from the back of a sorted queue keeps exactly the
    records in flight. *)
Lemma drop_old_spec oldest q :
  queue_sorted q → reverse (drop_old oldest (reverse q)) = in_flight oldest q.
Proof.
  intros Hq%StronglySorted_reverse. unfold in_flight.
  rewrite <- (reverse_involutive q) at 2. rewrite filter_reverse. f_equal.
  induction Hq as [|r l Hl IH Hr]; [done|]. rewrite filter_cons. simpl.
  destruct (Z.ltb_spec (startTick r) oldest); [rewrite decide_False by lia; done|].
  rewrite decide_True by lia. rewrite filter_all; [done|].
  eapply Forall_impl; [exact Hr|]. unfold flip. simpl. lia.
Qed.

Definition this_tick (now : Z) (q : list AccessRecord) : Z :=
  zlen (filter (λ r, startTick r = now) q).

Lemma try_records_spec now addr limit bits line q n :
  Address.makeLineAddress addr bits = Ok line → 0 ≤ n → n + zlen q < 2 ^ 32 → n ≤ limit →
  ∃ b, try_records now addr limit bits n q = Ok b ∧
    (b = true ↔ Forall (λ r, lineAddr r ≠ line) q ∧ n + this_tick now q ≤ limit).
Proof.
  intros Hline. unfold this_tick. revert n. induction q as [|r q IH]; intros n Hn Hl Hlim; simpl.
  { exists true. rewrite Z.add_0_r. naive_solver. }
  rewrite filter_cons. rewrite Hline. simpl in Hl.
  destruct (Z.eqb_spec (startTick r) now) as [Ht|Ht].
  - rewrite decide_True by done. rewrite (u32_small (n + 1)) by lia. simpl.
    destruct (Z.ltb_spec limit (n + 1)).
    { exists false. split; [done|]. split; [done|]. intros [_ ?]. lia. }
    destruct (Z.eqb_spec (lineAddr r) line) as [|Hne].
    { exists false. split; [done|]. rewrite Forall_cons. naive_solver. }
    destruct (IH (n + 1)) as (b & Hb & Hiff); [lia..|]. exists b. split; [done|].
    rewrite Forall_cons, Hiff. rewrite <- Z.add_assoc, Nat2Z.inj_succ, Z.add_1_l. naive_solver.
  - rewrite decide_False by done. simpl.
    destruct (Z.eqb_spec (lineAddr r) line) as [|Hne].
    { exists false. split; [done|]. rewrite Forall_cons. naive_solver. }
    destruct (IH n) as (b & Hb & Hiff); [lia..|]. exists b. split; [done|].
    rewrite Forall_cons, Hiff. naive_solver.
Qed.

(** The atomic units admit a request exactly when no request to the same
    line is in flight (started within the pipeline's latency) and at most
    [numALUs] requests have already started in this tick; the queue afterwards
    holds exactly the requests in flight. *)
Theorem alu_admission (now addr : Z) (a : t) (Hq : queue_sorted (accessQueue a))
    (Hlat : 0 ≤ accessLatency a ≤ now) (Hnow : now < 2 ^ 64) (Ha : 0 ≤ addr < 2 ^ 64)
    (Hbits : 0 ≤ m_block_size_bits a < 64) (Hlen : zlen (accessQueue a) < 2 ^ 32)
    (HN : 0 ≤ numALUs a) :
  let flight := in_flight (now - accessLatency a) (accessQueue a) in
  let line := addr - addr mod 2 ^ m_block_size_bits a in
  ∃ b, tryAccess now a addr = Ok (b, with_queue a flight) ∧
    (b = true ↔ Forall (λ r, lineAddr r ≠ line) flight ∧ this_tick now flight ≤ numALUs a).
Proof.
  destruct (makeLineAddress_spec addr (m_block_size_bits a) Ha Hbits) as [Hl _].
  cbv zeta. unfold tryAccess. rewrite u64_small by lia. rewrite drop_old_spec by done.
  set (q := in_flight _ _).
  assert (length q ≤ length (accessQueue a))%nat by apply length_filter.
  destruct (try_records_spec now addr (numALUs a) (m_block_size_bits a) _ q 0 Hl)
    as (b & Hb & Hiff); [lia..|]. exists b. rewrite Hb. split; [done|]. exact Hiff.
Qed.

Lemma alu_admission_witness :
  let a := mk 2 4 2000 [mkRecord 128 5000; mkRecord 64 4000; mkRecord 0 1000] 6 in
  let flight := in_flight (5000 - 2000) (accessQueue a) in
  ∃ b, tryAccess 5000 a 10 = Ok (b, with_queue a flight) ∧
    (b = true ↔ Forall (λ r, lineAddr r ≠ 10 - 10 mod 2 ^ 6) flight ∧ this_tick 5000 flight ≤ 2).
Proof.
  apply (alu_admission 5000 10 (mk 2 4 2000 [mkRecord 128 5000; mkRecord 64 4000; mkRecord 0 1000] 6));
    simpl; [repeat constructor; simpl; lia|lia..].
Defined.

(** The class comment says that up to [numALUs] new requests can go through
    at once; with one unit, two requests to different lines are admitted in
    the same tick, and the third is refused. *)
Theorem alu_one_more_than_units :
  let try now a addr := let* (b, a) := tryAccess now a addr in
    let* a := (if b : bool then reserve now a addr else Ok a) in Ok (b, a) in
  (let* (b1, a) := try 9000 (mk 1 4 2000 [] 6) 0 in
   let* (b2, a) := try 9000 a 64 in
   let* (b3, _) := try 9000 a 128 in Ok (b1, b2, b3)) = Ok (true, true, false).
Proof. reflexivity. Qed.

(** Before the simulated time reaches the pipeline's latency, the
    subtraction of the latency from the current tick wraps around and every
    record in flight is dropped: a line whose atomic operation started in the
    same tick is admitted again. *)
Theorem alu_latency_underflow :
  (let* a := reserve 500 (mk 4 4 2000 [] 6) 64 in tryAccess 500 a 64)
  = Ok (true, mk 4 4 2000 [] 6).
Proof. reflexivity. Qed.

End AtomicUnits.
