(* ===== verification/CacheEntry.v ===== *)
(** The line of a Ruby cache, [slicc_interface/AbstractCacheEntry], with the
    enumerations of [protocol/RubySlicc_Exports.sm] that caches use, and the
    store the lines live in. *)

From stdpp Require Import prelude gmap.
From Stdlib Require Import ZArith Lia.
From S2P Require Import Prelude.

Open Scope Z_scope.

(** ** Enumerations *)

Inductive AccessPermission :=
| Read_Only | Read_Write | Maybe_Stale | Backing_Store | Backing_Store_Busy
| Invalid | NotPresent | Busy.

#[export] Instance AccessPermission_eq_dec : EqDecision AccessPermission.
Proof. solve_decision. Defined.

Inductive RubyRequestType :=
| RLD | RST | RATOMIC | RATOMIC_RETURN | RATOMIC_NO_RETURN | RIFETCH | RIO
| RREPLACEMENT | RLoad_Linked | RStore_Conditional | RRMW_Read | RRMW_Write
| RLocked_RMW_Read | RLocked_RMW_Write | RCOMMIT | RNULL | RFLUSH | RInvL2
| RRelease | RAcquire | RAcquireRelease | RHTM_Start | RHTM_Commit | RHTM_Cancel
| RHTM_Abort | RTLBI | RTLBI_SYNC | RTLBI_EXT_SYNC | RTLBI_EXT_SYNC_COMP
| RhasNoAddr.

#[export] Instance RubyRequestType_eq_dec : EqDecision RubyRequestType.
Proof. solve_decision. Defined.

(** [CacheRequestType_NUM] stands for a value outside the enumeration, which
    the generated type also has. *)
Inductive CacheRequestType :=
| DataArrayRead | DataArrayWrite | TagArrayRead | TagArrayWrite
| AtomicALUOperation | CacheRequestType_NUM.

Inductive CacheResourceType :=
| DataArray | TagArray | AtomicALUArray | CacheResourceType_NUM.

#[export] Instance CacheRequestType_eq_dec : EqDecision CacheRequestType.
Proof. solve_decision. Defined.

(** ** AbstractCacheEntry

    [replacementData] is the [std::shared_ptr] of [ReplaceableEntry], [None]
    when null. [validBlocks] is not initialised by the constructor, which takes
    its first value as an argument here. The data block belongs to the
    protocol's subclass of the entry. *)
Record Entry := mkEntry {
  m_Address : Z;
  m_locked : Z;
  m_Permission : AccessPermission;
  m_last_touch_tick : Z;
  m_last_refresh_tick : Z;
  m_retention_limit : Z;
  m_is_expired : bool;
  m_htmInReadSet : bool;
  m_htmInWriteSet : bool;
  validBlocks : Z;
  replacementData : option nat }.

Definition newEntry (now garbage : Z) : Entry :=
  mkEntry 0 (-1) NotPresent 0 now 2000000000000 false false false garbage None.

Definition set_Address (v : Z) (e : Entry) : Entry :=
  mkEntry v (m_locked e) (m_Permission e) (m_last_touch_tick e) (m_last_refresh_tick e)
    (m_retention_limit e) (m_is_expired e) (m_htmInReadSet e) (m_htmInWriteSet e)
    (validBlocks e) (replacementData e).

Definition set_locked (v : Z) (e : Entry) : Entry :=
  mkEntry (m_Address e) v (m_Permission e) (m_last_touch_tick e) (m_last_refresh_tick e)
    (m_retention_limit e) (m_is_expired e) (m_htmInReadSet e) (m_htmInWriteSet e)
    (validBlocks e) (replacementData e).

Definition set_Permission (v : AccessPermission) (e : Entry) : Entry :=
  mkEntry (m_Address e) (m_locked e) v (m_last_touch_tick e) (m_last_refresh_tick e)
    (m_retention_limit e) (m_is_expired e) (m_htmInReadSet e) (m_htmInWriteSet e)
    (validBlocks e) (replacementData e).

Definition setLastAccess (tick : Z) (e : Entry) : Entry :=
  mkEntry (m_Address e) (m_locked e) (m_Permission e) tick (m_last_refresh_tick e)
    (m_retention_limit e) (m_is_expired e) (m_htmInReadSet e) (m_htmInWriteSet e)
    (validBlocks e) (replacementData e).

Definition set_last_refresh_tick (v : Z) (e : Entry) : Entry :=
  mkEntry (m_Address e) (m_locked e) (m_Permission e) (m_last_touch_tick e) v
    (m_retention_limit e) (m_is_expired e) (m_htmInReadSet e) (m_htmInWriteSet e)
    (validBlocks e) (replacementData e).

Definition set_retention_limit (v : Z) (e : Entry) : Entry :=
  mkEntry (m_Address e) (m_locked e) (m_Permission e) (m_last_touch_tick e)
    (m_last_refresh_tick e) v (m_is_expired e) (m_htmInReadSet e) (m_htmInWriteSet e)
    (validBlocks e) (replacementData e).

Definition setExpired (v : bool) (e : Entry) : Entry :=
  mkEntry (m_Address e) (m_locked e) (m_Permission e) (m_last_touch_tick e)
    (m_last_refresh_tick e) (m_retention_limit e) v (m_htmInReadSet e) (m_htmInWriteSet e)
    (validBlocks e) (replacementData e).

Definition setInHtmReadSet (v : bool) (e : Entry) : Entry :=
  mkEntry (m_Address e) (m_locked e) (m_Permission e) (m_last_touch_tick e)
    (m_last_refresh_tick e) (m_retention_limit e) (m_is_expired e) v (m_htmInWriteSet e)
    (validBlocks e) (replacementData e).

Definition setInHtmWriteSet (v : bool) (e : Entry) : Entry :=
  mkEntry (m_Address e) (m_locked e) (m_Permission e) (m_last_touch_tick e)
    (m_last_refresh_tick e) (m_retention_limit e) (m_is_expired e) (m_htmInReadSet e) v
    (validBlocks e) (replacementData e).

Definition set_replacementData (v : option nat) (e : Entry) : Entry :=
  mkEntry (m_Address e) (m_locked e) (m_Permission e) (m_last_touch_tick e)
    (m_last_refresh_tick e) (m_retention_limit e) (m_is_expired e) (m_htmInReadSet e)
    (m_htmInWriteSet e) (validBlocks e) v.

Definition getPermission (e : Entry) : AccessPermission := m_Permission e.
Definition isExpired (e : Entry) : bool := m_is_expired e.
Definition getLastAccess (e : Entry) : Z := m_last_touch_tick e.
Definition getInHtmReadSet (e : Entry) : bool := m_htmInReadSet e.
Definition getInHtmWriteSet (e : Entry) : bool := m_htmInWriteSet e.

Definition changePermission (new_perm : AccessPermission) (e : Entry) : Entry :=
  let e := set_Permission new_perm e in
  if decide (new_perm = Invalid ∨ new_perm = NotPresent) then set_locked (-1) e else e.

Definition setLocked (context : Z) (e : Entry) : Entry := set_locked context e.
Definition clearLocked (e : Entry) : Entry := set_locked (-1) e.
Definition isLocked (context : Z) (e : Entry) : bool := m_locked e =? context.

(** ** The store

    Lines are heap objects reached by pointers; two slots may hold the same
    pointer, and a pointer may dangle. *)
Abbreviation ptr := nat.
Abbreviation store := (gmap ptr Entry).

Definition deref (h : store) (p : ptr) : res Entry := of_option EUndef (h !! p).

(** [p->f = ...]: undefined for a pointer to no object. *)
Definition update (h : store) (p : ptr) (f : Entry → Entry) : res store :=
  let* e := deref h p in Ok (<[p := f e]> h).

(** [delete p] of a live object. *)
Definition free (h : store) (p : ptr) : res store :=
  let* _ := deref h p in Ok (delete p h).

(** ** Lemmas *)

Lemma deref_Ok h p e : deref h p = Ok e ↔ h !! p = Some e.
Proof. apply of_option_Ok. Qed.

Lemma update_Ok h p f h' :
  update h p f = Ok h' ↔ ∃ e, h !! p = Some e ∧ h' = <[p := f e]> h.
Proof. unfold update, deref. destruct (h !! p); simpl; naive_solver. Qed.

Lemma update_lookup h p f e : h !! p = Some e → update h p f = Ok (<[p := f e]> h).
Proof. intros H. unfold update, deref. by rewrite H. Qed.

Lemma free_lookup h p e : h !! p = Some e → free h p = Ok (delete p h).
Proof. intros H. unfold free, deref. by rewrite H. Qed.
