(* ===== verification/Tables.v ===== *)
(** The tables of mem/ruby/structures a controller keeps beside its cache: timers,
    transactions (TBEs), the slots they occupy, persistent requests, and the
    perfect cache. *)

From stdpp Require Import prelude gmap list.
From Stdlib Require Import ZArith Lia.
From S2P Require Import Prelude Bits CacheEntry NetDest Clocking.

Open Scope Z_scope.

Import Bits.IntMath Bits.Address.

(** ** mem/ruby/structures/TimerTable.cc *)

Module TimerTable.

(** [m_consumer_ptr] is whether a consumer is connected; the consumer itself is an
    argument of the operation that schedules it. *)
Record t := mk {
  m_map : gmap Z Z; m_next_valid : bool; m_next_time : Z; m_next_address : Z;
  m_consumer_ptr : bool; m_block_size_bits : Z }.

Definition new : t := mk ∅ false 0 0 false 0.

Definition setBlockSize (b : t) (block_size : Z) : res t :=
  let* n := floorLog2 4 block_size in
  Ok (mk (m_map b) (m_next_valid b) (m_next_time b) (m_next_address b) (m_consumer_ptr b) n).

Definition setConsumer (b : t) : res t :=
  assert! negb (m_consumer_ptr b) in
  Ok (mk (m_map b) (m_next_valid b) (m_next_time b) (m_next_address b) true (m_block_size_bits b)).

Definition set_next (b : t) (valid : bool) (address time : Z) : t :=
  mk (m_map b) valid time address (m_consumer_ptr b) (m_block_size_bits b).

(** The loop over the entries of the map after the first one. *)
Fixpoint scan (m : gmap Z Z) (addrs : list Z) (address time : Z) : Z * Z :=
  match addrs with
  | [] => (address, time)
  | a :: addrs =>
      let t := default 0 (m !! a) in
      if t <? time then scan m addrs a t else scan m addrs address time
  end.

Definition updateNext (b : t) : res t :=
  match keys (m_map b) with
  | [] => assert! negb (m_next_valid b) in Ok b
  | a :: addrs =>
      let '(address, time) := scan (m_map b) addrs a (default 0 (m_map b !! a)) in
      Ok (set_next b true address time)
  end.

Definition isReady (b : t) (curTime : Z) : res (bool * t) :=
  if bool_decide (m_map b = ∅) then Ok (false, b)
  else
    let* b := (if m_next_valid b then Ok b else updateNext b) in
    assert! m_next_valid b in Ok (m_next_time b <=? curTime, b).

Definition nextAddress (b : t) : res (Z * t) :=
  let* b := (if m_next_valid b then Ok b else updateNext b) in
  assert! m_next_valid b in Ok (m_next_address b, b).

Definition isSet (b : t) (address : Z) : bool := bool_decide (is_Some (m_map b !! address)).

Definition line_aligned (b : t) (address : Z) : res unit :=
  let* line := makeLineAddress address (m_block_size_bits b) in
  require (address =? line) EAssert.

Definition set (now : Z) (c : Consumer.t) (b : t) (address ready_time : Z) : res (t * Consumer.t) :=
  let* _ := line_aligned b address in
  assert! negb (isSet b address) in
  assert! m_consumer_ptr b in
  let* c := Consumer.scheduleEventAbsolute now ready_time c in
  Ok (mk (<[address := ready_time]> (m_map b)) false (m_next_time b) (m_next_address b)
         (m_consumer_ptr b) (m_block_size_bits b), c).

Definition unset (b : t) (address : Z) : res t :=
  let* _ := line_aligned b address in
  assert! isSet b address in
  Ok (mk (delete address (m_map b))
         (if address =? m_next_address b then false else m_next_valid b)
         (m_next_time b) (m_next_address b) (m_consumer_ptr b) (m_block_size_bits b)).

End TimerTable.

(** ** mem/ruby/structures/TBETable.hh *)

Module TBETable.
Section TBETable.
(** The entries are generated with the protocol: [ENTRY(block_size)] with its
    [RubySystem] set. *)
Context {ENTRY : Type} (new_entry : Z → ENTRY).

Record t := mk { m_map : gmap Z ENTRY; m_number_of_TBEs : Z; m_block_size : Z }.

Definition new (number_of_TBEs : Z) : t := mk ∅ number_of_TBEs 0.
Definition setRubySystem (b : t) (block_size : Z) : t := mk (m_map b) (m_number_of_TBEs b) block_size.

Definition size_ (b : t) : Z := Z.of_nat (size (m_map b)).

Definition areNSlotsAvailable (b : t) (n : Z) : bool :=
  u64 n <=? u64 (m_number_of_TBEs b - size_ b).

Definition isPresent (b : t) (address : Z) : res bool :=
  let* n := floorLog2 4 (m_block_size b) in
  let* line := makeLineAddress address n in
  assert! address =? line in
  assert! size_ b <=? u64 (m_number_of_TBEs b) in
  Ok (bool_decide (is_Some (m_map b !! address))).

Definition allocate (b : t) (address : Z) : res t :=
  let* present := isPresent b address in
  assert! negb present in
  assert! size_ b <? u64 (m_number_of_TBEs b) in
  assert! 0 <? m_block_size b in
  Ok (mk (<[address := new_entry (m_block_size b)]> (m_map b)) (m_number_of_TBEs b) (m_block_size b)).

Definition deallocate (b : t) (address : Z) : res t :=
  let* present := isPresent b address in
  assert! present in
  assert! 0 <? size_ b in
  Ok (mk (delete address (m_map b)) (m_number_of_TBEs b) (m_block_size b)).

Definition lookup (b : t) (address : Z) : option ENTRY := m_map b !! address.

End TBETable.
Arguments t ENTRY : clear implicits.
End TBETable.

(** ** mem/ruby/structures/TBEStorage.hh *)

Module TBEStorage.

(** The last values given to the averages; the utilisation as a fraction. *)
Record Stats := mkStats { avg_size : Z; avg_util : Z * Z; avg_reserved : Z }.

(** [m_slots_avail] is a stack, its top first. *)
Record t := mk {
  m_reserved : Z; m_slots_avail : list Z; m_slots_used : gmap Z Z; m_stats : Stats }.

Definition new (number_of_TBEs : Z) : t :=
  mk 0 (reverse (seqZ 0 number_of_TBEs)) ∅ (mkStats 0 (0, 0) 0).

Definition size_ (b : t) : Z := i32 (Z.of_nat (size (m_slots_used b))).
Definition capacity (b : t) : Z :=
  i32 (Z.of_nat (size (m_slots_used b)) + zlen (m_slots_avail b)).
Definition reserved (b : t) : Z := m_reserved b.
Definition slotsAvailable (b : t) : Z := i32 (zlen (m_slots_avail b) - m_reserved b).
Definition utilization (b : t) : Z * Z := (size_ b, capacity b).
Definition areNSlotsAvailable (b : t) (n : Z) : bool := n <=? slotsAvailable b.

Definition set_reserved (b : t) (r : Z) : t :=
  mk r (m_slots_avail b) (m_slots_used b)
     (mkStats (avg_size (m_stats b)) (avg_util (m_stats b)) r).

Definition incrementReserved (b : t) : res t :=
  let* r := chk_i32 (m_reserved b + 1) in Ok (set_reserved b r).

Definition decrementReserved (b : t) : res t :=
  assert! 0 <? m_reserved b in Ok (set_reserved b (m_reserved b - 1)).

Definition with_slots (b : t) (avail : list Z) (used : gmap Z Z) : t :=
  mk (m_reserved b) avail used (m_stats b).

Definition sample (b : t) : t :=
  mk (m_reserved b) (m_slots_avail b) (m_slots_used b)
     (mkStats (size_ b) (utilization b) (avg_reserved (m_stats b))).

Definition addEntryToNewSlot (b : t) : res (Z * t) :=
  assert! 0 <? slotsAvailable b in
  assert! 0 <? zlen (m_slots_avail b) in
  match m_slots_avail b with
  | [] => Err EUndef
  | slot :: avail => Ok (slot, sample (with_slots b avail (<[slot := 1]> (m_slots_used b))))
  end.

Definition addEntryToSlot (b : t) (slot : Z) : res t :=
  let* k := of_option EAssert (m_slots_used b !! slot) in
  let* k := chk_i32 (k + 1) in
  Ok (with_slots b (m_slots_avail b) (<[slot := k]> (m_slots_used b))).

Definition removeEntryFromSlot (b : t) (slot : Z) : res t :=
  let* k := of_option EAssert (m_slots_used b !! slot) in
  assert! 0 <? k in
  Ok (sample (if k - 1 =? 0
              then with_slots b (slot :: m_slots_avail b) (delete slot (m_slots_used b))
              else with_slots b (m_slots_avail b) (<[slot := k - 1]> (m_slots_used b)))).

End TBEStorage.

(** ** mem/ruby/structures/PersistentTable.cc *)

Module PersistentTable.

Inductive AccessType := AccessType_Read | AccessType_Write.

#[global] Instance AccessType_eq_dec : EqDecision AccessType.
Proof. solve_decision. Defined.

Section PersistentTable.
Context (N : Z) {R : Type} `{MachineTypes R}.

Record Entry := mkEntry {
  m_starving : NetDest.t R; m_marked : NetDest.t R; m_request_to_write : NetDest.t R }.

(** The default constructor, which default-constructs its members. *)
Definition dflt : Entry := mkEntry NetDest.new_default NetDest.new_default NetDest.new_default.

Record t := mk { m_map : gmap Z Entry; m_block_size_bits : Z }.

Definition new : t := mk ∅ 0.

Definition setBlockSize (b : t) (block_size : Z) : res t :=
  let* n := floorLog2 4 block_size in Ok (mk (m_map b) n).

Definition line_aligned (b : t) (address : Z) : res unit :=
  let* line := makeLineAddress address (m_block_size_bits b) in
  require (address =? line) EAssert.

Definition store (b : t) (address : Z) (e : Entry) : t :=
  mk (<[address := e]> (m_map b)) (m_block_size_bits b).

Definition persistentRequestLock (b : t) (address : Z) (locker : MachineID.t) (type : AccessType)
    : res t :=
  let* _ := line_aligned b address in
  let present := bool_decide (is_Some (m_map b !! address)) in
  let entry := default dflt (m_map b !! address) in
  let* _ := (if present
             then let* s := NetDest.isElement N (m_starving entry) locker in require (negb s) EAssert
             else Ok tt) in
  let* starving := NetDest.add N (m_starving entry) locker in
  let* writers := (if decide (type = AccessType_Write)
                   then NetDest.add N (m_request_to_write entry) locker
                   else Ok (m_request_to_write entry)) in
  let* _ := (if present
             then let* s := NetDest.isSubset (m_marked entry) starving in require s EAssert
             else Ok tt) in
  Ok (store b address (mkEntry starving (m_marked entry) writers)).

Definition persistentRequestUnlock (b : t) (address : Z) (unlocker : MachineID.t) : res t :=
  let* _ := line_aligned b address in
  let* entry := of_option EAssert (m_map b !! address) in
  let* s := NetDest.isElement N (m_starving entry) unlocker in
  assert! s in
  let* s := NetDest.isSubset (m_marked entry) (m_starving entry) in
  assert! s in
  let* starving := NetDest.remove N (m_starving entry) unlocker in
  let* marked := NetDest.remove N (m_marked entry) unlocker in
  let* writers := NetDest.remove N (m_request_to_write entry) unlocker in
  let* s := NetDest.isSubset marked starving in
  assert! s in
  let b := store b address (mkEntry starving marked writers) in
  let* none := NetDest.isEmpty starving in
  if none : bool then
    let* s := NetDest.isEmpty marked in
    assert! s in Ok (mk (delete address (m_map b)) (m_block_size_bits b))
  else Ok b.

Definition okToIssueStarving (b : t) (address : Z) (machId : MachineID.t) : res bool :=
  let* _ := line_aligned b address in
  match m_map b !! address with
  | None => Ok true
  | Some entry =>
      let* s := NetDest.isElement N (m_starving entry) machId in
      if s : bool then Ok false else NetDest.isEmpty (m_marked entry)
  end.

Definition findSmallest (b : t) (address : Z) : res MachineID.t :=
  let* _ := line_aligned b address in
  let* entry := of_option EAssert (m_map b !! address) in
  NetDest.smallestElement N (m_starving entry).

Definition typeOfSmallest (b : t) (address : Z) : res AccessType :=
  let* _ := line_aligned b address in
  let* entry := of_option EAssert (m_map b !! address) in
  let* m := NetDest.smallestElement N (m_starving entry) in
  let* w := NetDest.isElement N (m_request_to_write entry) m in
  Ok (if w : bool then AccessType_Write else AccessType_Read).

Definition markEntries (b : t) (address : Z) : res t :=
  let* _ := line_aligned b address in
  match m_map b !! address with
  | None => Ok b
  | Some entry =>
      let* none := NetDest.isEmpty (m_marked entry) in
      assert! none in
      Ok (store b address (mkEntry (m_starving entry) (m_starving entry) (m_request_to_write entry)))
  end.

Definition isLocked (b : t) (address : Z) : res bool :=
  let* _ := line_aligned b address in Ok (bool_decide (is_Some (m_map b !! address))).

Definition countStarvingForAddress (b : t) (address : Z) : res Z :=
  let* _ := line_aligned b address in
  match m_map b !! address with
  | None => Ok 0
  | Some entry => NetDest.count N (m_starving entry)
  end.

Definition countReadStarvingForAddress (b : t) (address : Z) : res Z :=
  let* _ := line_aligned b address in
  match m_map b !! address with
  | None => Ok 0
  | Some entry =>
      let* all := NetDest.count N (m_starving entry) in
      let* writers := NetDest.count N (m_request_to_write entry) in
      chk_i32 (all - writers)
  end.

End PersistentTable.
Arguments t R : clear implicits.
End PersistentTable.

(** ** mem/ruby/structures/PerfectCacheMemory.hh *)

Module PerfectCacheMemory.
Section PerfectCacheMemory.
Context {ENTRY : Type} (new_entry : ENTRY).

(** The permission [None] is the enumerator [AccessPermission_NUM]. *)
Record LineState := mkLine { m_permission : option AccessPermission; m_entry : ENTRY }.
Record t := mk { m_map : gmap Z LineState; m_block_size : Z }.

Definition default_line : LineState := mkLine None new_entry.

Definition new : t := mk ∅ 0.
Definition setRubySystem (b : t) (block_size : Z) : t := mk (m_map b) block_size.

Definition line_addr (b : t) (address : Z) : res Z :=
  let* n := floorLog2 4 (m_block_size b) in makeLineAddress address n.

Definition isTagPresent (b : t) (address : Z) : res bool :=
  let* a := line_addr b address in Ok (bool_decide (is_Some (m_map b !! a))).

Definition cacheAvail (b : t) (address : Z) : bool := true.

(** [emplace] leaves a line that is already there. *)
Definition allocate (b : t) (address : Z) : res t :=
  let* a := line_addr b address in
  match m_map b !! a with
  | Some _ => Ok b
  | None => Ok (mk (<[a := mkLine (Some Invalid) new_entry]> (m_map b)) (m_block_size b))
  end.

Definition deallocate (b : t) (address : Z) : res t :=
  let* a := line_addr b address in
  assert! bool_decide (is_Some (m_map b !! a)) in
  Ok (mk (delete a (m_map b)) (m_block_size b)).

Definition cacheProbe (b : t) (newAddress : Z) : res Z := Err EPanic.

(** [m_map[a]], which enters a default line when there is none. *)
Definition at_line (b : t) (a : Z) : LineState * t :=
  let l := default default_line (m_map b !! a) in
  (l, mk (<[a := l]> (m_map b)) (m_block_size b)).

Definition lookup (b : t) (address : Z) : res (ENTRY * t) :=
  let* a := line_addr b address in
  let '(l, b) := at_line b a in Ok (m_entry l, b).

Definition changePermission (b : t) (address : Z) (new_perm : AccessPermission) : res t :=
  let* a := line_addr b address in
  let '(l, b) := at_line b a in
  Ok (mk (<[a := mkLine (Some new_perm) (m_entry l)]> (m_map b)) (m_block_size b)).

End PerfectCacheMemory.
Arguments t ENTRY : clear implicits.
End PerfectCacheMemory.
