(* ===== verification/TablesSpec.v ===== *)
(** A timer table names its earliest timer and wakes its controller when it is
    due; the slots of transactions are either free or in use; the first persistent
    request to an address always fails. *)

From stdpp Require Import prelude gmap list sorting.
From Stdlib Require Import ZArith Lia.
From S2P Require Import Prelude Bits NetDest Clocking CacheEntry Tables.

Open Scope Z_scope.

(** ** Timers *)

Section Timers.
Import TimerTable.
Implicit Types b : t.

(** The timer [(a, t)] comes before [(a', t')]. *)
Definition before (a t a' t' : Z) : Prop := t < t' ∨ t = t' ∧ a ≤ a'.

(** [a] has the earliest timer of [m], which is due at [t]. *)
Definition earliest (m : gmap Z Z) (a t : Z) : Prop :=
  m !! a = Some t ∧ ∀ a' t', m !! a' = Some t' → before a t a' t'.

Definition timer_ok b : Prop :=
  m_next_valid b = true → earliest (m_map b) (m_next_address b) (m_next_time b).

Lemma scan_spec m addrs address time :
  m !! address = Some time → (∀ a, a ∈ addrs → is_Some (m !! a)) →
  StronglySorted Z.lt (address :: addrs) →
  let '(a, t) := scan m addrs address time in
  m !! a = Some t ∧ before a t address time ∧
  ∀ a' t', a' ∈ addrs → m !! a' = Some t' → before a t a' t'.
Proof.
  revert address time. induction addrs as [|x addrs IH]; intros address time Hm Hin Hs; simpl.
  { split; [done|]. split; [right; lia|]. set_solver. }
  destruct (Hin x) as [tx Hx]; [set_solver|]. rewrite Hx. simpl.
  apply StronglySorted_cons in Hs as [Hlt Hs]. pose proof (Forall_inv Hlt) as Hax.
  assert (∀ a, a ∈ addrs → is_Some (m !! a)) as Hin' by set_solver.
  assert (∀ a' t', a' ∈ x :: addrs → m !! a' = Some t' → a' = x ∧ t' = tx ∨ a' ∈ addrs) as Hcase.
  { intros a' t' [->|?]%elem_of_cons E; [left; split; congruence|by right]. }
  destruct (Z.ltb_spec tx time).
  - specialize (IH x tx Hx Hin' Hs). destruct (scan m addrs x tx) as [a t].
    destruct IH as (Ha & Hb & Hall). split; [done|]. split; [unfold before in *; lia|].
    intros a' t' Ha' E. destruct (Hcase _ _ Ha' E) as [[-> ->]|]; [done|by apply Hall].
  - specialize (IH address time Hm Hin'). destruct (scan m addrs address time) as [a t].
    destruct IH as (Ha & Hb & Hall).
    { apply StronglySorted_cons in Hs as [_ Hs]. constructor; [done|]. by apply Forall_inv_tail in Hlt. }
    split; [done|]. split; [done|].
    intros a' t' Ha' E. destruct (Hcase _ _ Ha' E) as [[-> ->]|]; [unfold before in *; lia|by apply Hall].
Qed.

Lemma updateNext_spec b : m_map b ≠ ∅ →
  ∃ a t, updateNext b = Ok (set_next b true a t) ∧ earliest (m_map b) a t.
Proof.
  intros Hne. unfold updateNext. destruct (keys (m_map b)) as [|x addrs] eqn:Ek.
  { destruct Hne. apply map_eq. intros a. rewrite lookup_empty, eq_None_not_Some, <- elem_of_keys, Ek.
    set_solver. }
  assert (∀ a, a ∈ x :: addrs ↔ is_Some (m_map b !! a)) as Hk by (intros a; rewrite <- Ek; apply elem_of_keys).
  destruct (proj1 (Hk x)) as [tx Hx]; [set_solver|]. rewrite Hx. simpl.
  pose proof (scan_spec (m_map b) addrs x tx Hx) as Hs.
  destruct (scan (m_map b) addrs x tx) as [a t]. exists a, t. split; [done|].
  destruct Hs as (Ha & Hb & Hall).
  { intros a' Ha'. apply Hk. set_solver. } { rewrite <- Ek. apply keys_sorted. }
  split; [done|]. intros a' t' E. assert (a' ∈ x :: addrs) as Hin by (apply Hk; eauto).
  apply elem_of_cons in Hin as [->|Hin]; [|by apply Hall]. rewrite Hx in E. by injection E as <-.
Qed.

(** The table after [m_next_*] were brought up to date. *)
Lemma next_spec b : timer_ok b → m_map b ≠ ∅ →
  ∃ b', (if m_next_valid b then Ok b else updateNext b) = Ok b' ∧ timer_ok b' ∧
    m_map b' = m_map b ∧ m_next_valid b' = true.
Proof.
  intros Hb Hne. destruct (m_next_valid b) eqn:Ev; [by exists b|].
  destruct (updateNext_spec b Hne) as (a & t & -> & He). exists (set_next b true a t).
  split; [done|]. by split; [intros _|].
Qed.

Lemma line_aligned_spec b address :
  0 ≤ m_block_size_bits b < 64 → 0 ≤ address < 2 ^ 64 → (2 ^ m_block_size_bits b | address) →
  line_aligned b address = Ok tt.
Proof.
  intros Hb Ha Hd. unfold line_aligned.
  destruct (makeLineAddress_spec address (m_block_size_bits b)) as [-> _]; [done..|]. simpl.
  apply Z.mod_divide in Hd; [|lia]. by rewrite Hd, Z.sub_0_r, Z.eqb_refl.
Qed.

(** C32. A timer table is a set of timers that knows the earliest one. As long as
    a timer is set, [nextAddress] is the address of the earliest timer, the lowest
    address among equals, and [isReady] says whether it is due; without a timer
    none is ready. [set] and [unset] add and remove exactly the timer of their
    address, whatever was cached before. *)
Theorem timer_table_earliest now c b address ready cur (Hb : timer_ok b)
    (Hbits : 0 ≤ m_block_size_bits b < 64) (Ha : 0 ≤ address < 2 ^ 64)
    (Hal : (2 ^ m_block_size_bits b | address)) :
  (m_map b = ∅ → isReady b cur = Ok (false, b)) ∧
  (m_map b ≠ ∅ → ∃ b' a t, isReady b cur = Ok (t <=? cur, b') ∧ nextAddress b = Ok (a, b') ∧
     earliest (m_map b) a t ∧ m_map b' = m_map b ∧ timer_ok b') ∧
  (m_map b !! address = None → m_consumer_ptr b = true → ∀ c',
     Consumer.scheduleEventAbsolute now ready c = Ok c' → ∃ b', set now c b address ready = Ok (b', c') ∧
     m_map b' = <[address := ready]> (m_map b) ∧ timer_ok b') ∧
  (is_Some (m_map b !! address) → ∃ b', unset b address = Ok b' ∧
     m_map b' = delete address (m_map b) ∧ timer_ok b').
Proof.
  split; [|split; [|split]].
  - intros E. unfold isReady. by rewrite bool_decide_true.
  - intros Hne. unfold isReady, nextAddress. rewrite bool_decide_false by done.
    destruct (next_spec b Hb Hne) as (b' & -> & Hb' & Hm & Hv). simpl. rewrite Hv. simpl.
    exists b', (m_next_address b'), (m_next_time b'). rewrite <- Hm.
    split; [done|]. split; [done|]. split; [by apply Hb'|done].
  - intros En Hc c' Hs. unfold set. rewrite line_aligned_spec by done. simpl.
    unfold isSet. rewrite En, bool_decide_false by (by intros []). simpl. rewrite Hc. simpl.
    rewrite Hs. simpl. eexists. split; [done|]. by split.
  - intros Hs. unfold unset. rewrite line_aligned_spec by done. simpl. unfold isSet.
    rewrite bool_decide_true by done. simpl. eexists. split; [done|]. split; [done|]. unfold timer_ok. simpl.
    destruct (Z.eqb_spec address (m_next_address b)) as [|Hne]; [done|]. intros [Hl Hall]%Hb.
    split; [by rewrite lookup_delete_ne|]. intros a' t' [_ E]%lookup_delete_Some. by apply Hall.
Qed.

Lemma align_above p t : 0 < p → t ≤ align p t.
Proof.
  intros Hp. unfold align. pose proof (Z.div_mod (t + p - 1) p).
  pose proof (Z.mod_pos_bound (t + p - 1) p). nia.
Qed.

(** A timer wakes its controller when it is due. Setting a timer for a time to
    come succeeds and leaves the consumer's event scheduled no later than the first
    clock edge at which the timer is due; at that edge the table is ready, and
    stays so until the timer is unset. *)
Theorem timer_wakes_controller now c b address ready (Hb : timer_ok b) (Hc : armed now c)
    (Hbits : 0 ≤ m_block_size_bits b < 64) (Ha : 0 ≤ address < 2 ^ 64)
    (Hal : (2 ^ m_block_size_bits b | address)) (Hfree : m_map b !! address = None)
    (Hcon : m_consumer_ptr b = true) (Hr : now ≤ ready)
    (Hov : ready + 2 * Clocked.clockPeriod (Consumer.em c) < 2 ^ 64) :
  ∃ b' c' w, set now c b address ready = Ok (b', c') ∧ armed now c' ∧
    Consumer.m_wakeup_event c' = Some w ∧ w ≤ align (Clocked.clockPeriod (Consumer.em c)) ready ∧
    align (Clocked.clockPeriod (Consumer.em c)) ready ∈ Consumer.m_wakeup_ticks c' ∧
    ∀ cur, align (Clocked.clockPeriod (Consumer.em c)) ready ≤ cur →
      ∃ b'', isReady b' cur = Ok (true, b'').
Proof.
  destruct Hc as [Hpend _].
  destruct (request_spec now ready c Hpend Hr Hov) as (c' & Es & Harm & _ & Hticks).
  unfold set. rewrite line_aligned_spec by done. simpl. unfold isSet.
  rewrite Hfree, bool_decide_false by (by intros []). simpl. rewrite Hcon. simpl. rewrite Es. simpl.
  assert (align (Clocked.clockPeriod (Consumer.em c)) ready ∈ Consumer.m_wakeup_ticks c') as Hin
    by (apply Hticks; by left).
  pose proof Harm as [(_ & _ & _ & _ & Hsort & _) Hhead].
  destruct (Consumer.m_wakeup_ticks c') as [|w l] eqn:El; [set_solver|].
  eexists _, c', w. split; [done|]. split; [done|]. split; [by rewrite Hhead|]. split; [|split; [by rewrite El|]].
  { apply elem_of_cons in Hin as [->|Hin]; [done|]. apply StronglySorted_cons in Hsort as [Hall _].
    rewrite Forall_forall in Hall. specialize (Hall _ Hin). lia. }
  intros cur Hcur. unfold isReady. rewrite bool_decide_false by (simpl; apply insert_non_empty).
  match goal with |- context [m_next_valid ?x] => set (b1 := x) end.
  destruct (next_spec b1) as (b' & -> & Hok & Hm & Hv); [done|simpl; apply insert_non_empty|].
  simpl. rewrite Hv. simpl. exists b'. do 2 f_equal. apply Z.leb_le.
  destruct (Hok Hv) as [_ Hall]. specialize (Hall address ready). rewrite Hm in Hall. simpl in Hall.
  rewrite lookup_insert_eq in Hall. specialize (Hall eq_refl).
  destruct Hpend as ((Hp & _) & _). pose proof (align_above _ ready Hp). unfold before in Hall. lia.
Qed.

End Timers.

(** A table with two timers, one of them cached as the next one. *)
Section TimerExample.
Import TimerTable.

Definition two_timers : t := mk {[64 := 500; 128 := 300]} true 300 128 true 6.

Lemma two_timers_ok : timer_ok two_timers.
Proof.
  intros _. split; [done|]. simpl. intros a t. rewrite lookup_insert_Some, lookup_singleton_Some.
  unfold before. lia.
Qed.

Lemma timer_table_earliest_witness :
  (∃ b' a t, isReady two_timers 400 = Ok (t <=? 400, b') ∧ nextAddress two_timers = Ok (a, b') ∧
     earliest (m_map two_timers) a t) ∧
  ∃ b', unset two_timers 128 = Ok b' ∧ m_map b' = delete 128 (m_map two_timers) ∧ timer_ok b'.
Proof.
  destruct (timer_table_earliest 0 (Consumer.new (Clocked.new 500)) two_timers 128 0 400)
    as (_ & Hr & _ & Hu); [exact two_timers_ok|done|done|by exists 2|].
  split; [|apply Hu; by exists 300].
  destruct Hr as (b' & a & t & E1 & E2 & He & _); [done|]. by exists b', a, t.
Defined.

Lemma timer_wakes_controller_witness :
  ∃ b' c' w, set 0 (Consumer.new (Clocked.new 500)) two_timers 192 1200 = Ok (b', c') ∧
    Consumer.m_wakeup_event c' = Some w ∧ w ≤ 1500 ∧ ∃ b'', isReady b' 1500 = Ok (true, b'').
Proof.
  destruct (timer_wakes_controller 0 (Consumer.new (Clocked.new 500)) two_timers 192 1200)
    as (b' & c' & w & E & _ & Hw & Hle & _ & Hready);
    [exact two_timers_ok|by apply armed_new|done|done|by exists 3|done|done|done|done|].
  exists b', c', w. split; [done|]. split; [done|]. split; [exact Hle|]. by apply Hready.
Defined.

End TimerExample.

(** ** Slots of transactions *)

Section Slots.
Import TBEStorage.
Implicit Types b : t.

Inductive slot_op := Reserve | Unreserve | NewSlot | AddTo (slot : Z) | RemoveFrom (slot : Z).

Definition slot_exec b (o : slot_op) : res t :=
  match o with
  | Reserve => incrementReserved b
  | Unreserve => decrementReserved b
  | NewSlot => rmap snd (addEntryToNewSlot b)
  | AddTo slot => addEntryToSlot b slot
  | RemoveFrom slot => removeEntryFromSlot b slot
  end.

Fixpoint slot_run b (os : list slot_op) : res t :=
  match os with
  | [] => Ok b
  | o :: os => let* b := slot_exec b o in slot_run b os
  end.

(** What a user sees: how many slots are reserved, and the number of entries of
    every slot in use. *)
Definition slot_state : Type := Z * gmap Z Z.
Definition slots b : slot_state := (m_reserved b, m_slots_used b).

(** What the operations promise of [n] slots: any free slot may be the new one,
    and a slot is free again when its last entry goes. *)
Inductive slot_step (n : Z) : slot_state → slot_op → slot_state → Prop :=
| step_reserve r m : slot_step n (r, m) Reserve (r + 1, m)
| step_unreserve r m : slot_step n (r, m) Unreserve (r - 1, m)
| step_new r m slot : 0 ≤ slot < n → m !! slot = None → slot_step n (r, m) NewSlot (r, <[slot := 1]> m)
| step_add r m slot k : m !! slot = Some k → slot_step n (r, m) (AddTo slot) (r, <[slot := k + 1]> m)
| step_remove r m slot k : m !! slot = Some k → 1 < k →
    slot_step n (r, m) (RemoveFrom slot) (r, <[slot := k - 1]> m)
| step_free r m slot : m !! slot = Some 1 → slot_step n (r, m) (RemoveFrom slot) (r, delete slot m).

Inductive slot_steps (n : Z) : slot_state → list slot_op → slot_state → Prop :=
| steps_nil s : slot_steps n s [] s
| steps_cons s1 s2 s3 o os : slot_step n s1 o s2 → slot_steps n s2 os s3 → slot_steps n s1 (o :: os) s3.

(** When an operation may be called. *)
Definition slot_enabled (n : Z) (s : slot_state) (o : slot_op) : bool :=
  match o with
  | Reserve => s.1 + 1 <? 2 ^ 31
  | Unreserve => 0 <? s.1
  | NewSlot => Z.of_nat (size s.2) + s.1 <? n
  | AddTo slot => match s.2 !! slot with Some k => k + 1 <? 2 ^ 31 | None => false end
  | RemoveFrom slot => bool_decide (is_Some (s.2 !! slot))
  end.

Fixpoint slot_legal (n : Z) b (os : list slot_op) : bool :=
  match os with
  | [] => true
  | o :: os => slot_enabled n (slots b) o &&
               match slot_exec b o with Ok b' => slot_legal n b' os | Err _ => false end
  end.

(** Every slot is free or in use. *)
Definition storage_ok (n : Z) b : Prop :=
  0 ≤ n < 2 ^ 31 ∧ m_slots_avail b ++ elements (dom (m_slots_used b)) ≡ₚ seqZ 0 n ∧
  map_Forall (λ _ k, 0 < k < 2 ^ 31) (m_slots_used b) ∧ 0 ≤ m_reserved b < 2 ^ 31.

Lemma storage_size n b : storage_ok n b →
  zlen (m_slots_avail b) + Z.of_nat (size (m_slots_used b)) = n.
Proof.
  intros (Hn & Hp & _). apply Permutation_length in Hp. rewrite length_app, length_seqZ in Hp.
  change (length (elements _)) with (size (dom (m_slots_used b))) in Hp. rewrite size_dom in Hp. lia.
Qed.

Lemma storage_available n b : storage_ok n b →
  slotsAvailable b = n - Z.of_nat (size (m_slots_used b)) - m_reserved b ∧ capacity b = n.
Proof.
  intros Hb. pose proof (storage_size n b Hb). destruct Hb as (? & _ & _ & ?).
  unfold slotsAvailable, capacity. rewrite !i32_small; lia.
Qed.

Lemma storage_free n b slot : storage_ok n b → slot ∈ m_slots_avail b →
  0 ≤ slot < n ∧ m_slots_used b !! slot = None.
Proof.
  intros (Hn & Hp & _) Hin. split.
  - assert (slot ∈ seqZ 0 n) as Hs by (rewrite <- Hp; set_solver). apply elem_of_seqZ in Hs. lia.
  - assert (NoDup (m_slots_avail b ++ elements (dom (m_slots_used b)))) as Hnd.
    { rewrite Hp. apply NoDup_seqZ. }
    apply NoDup_app in Hnd as (_ & Hd & _). apply not_elem_of_dom.
    specialize (Hd slot Hin). by rewrite elem_of_elements in Hd.
Qed.

(** A change of the count of a slot in use keeps the set of slots. *)
Lemma storage_ok_count n b slot k k' s : storage_ok n b → m_slots_used b !! slot = Some k →
  0 < k' < 2 ^ 31 →
  storage_ok n (mk (m_reserved b) (m_slots_avail b) (<[slot := k']> (m_slots_used b)) s).
Proof.
  intros (Hn & Hp & Hf & Hr) E Hk. split; [done|]. split; [|split; [by apply map_Forall_insert_2|done]].
  simpl. rewrite dom_insert_lookup_L by eauto. done.
Qed.

Lemma slot_exec_ok n b o : storage_ok n b → slot_enabled n (slots b) o = true →
  ∃ b', slot_exec b o = Ok b' ∧ storage_ok n b' ∧ slot_step n (slots b) o (slots b').
Proof.
  intros Hb Hen. pose proof (storage_available n b Hb) as [Hav _]. pose proof (storage_size n b Hb) as Hsz.
  pose proof Hb as (Hn & Hp & Hf & Hr). destruct o as [| | |slot|slot]; simpl in *.
  - unfold incrementReserved. reflect_bool. rewrite chk_i32_Ok by lia. simpl. eexists. split; [done|].
    split; [|constructor]. split_and!; simpl; (done || lia).
  - unfold decrementReserved. rewrite Hen. simpl. reflect_bool. eexists. split; [done|].
    split; [|constructor]. split_and!; simpl; (done || lia).
  - unfold addEntryToNewSlot. reflect_bool. rewrite Hav, (proj2 (Z.ltb_lt 0 _)) by lia. simpl.
    rewrite (proj2 (Z.ltb_lt 0 _)) by lia. simpl.
    destruct (m_slots_avail b) as [|slot avail] eqn:Ea; [simpl in *; lia|]. simpl. eexists. split; [done|].
    destruct (storage_free n b slot Hb) as [Hs Hnone]; [rewrite Ea; set_solver|].
    split; [|by constructor]. split; [done|]. split; [|split; [by apply map_Forall_insert_2|done]]. simpl.
    rewrite <- Hp, dom_insert_L, elements_union_singleton by (by apply not_elem_of_dom).
    by rewrite <- Permutation_middle.
  - destruct (m_slots_used b !! slot) as [k|] eqn:Ek; [|done]. reflect_bool.
    unfold addEntryToSlot. rewrite Ek. simpl. pose proof (map_Forall_lookup_1 _ _ _ _ Hf Ek) as Hk.
    simpl in Hk. rewrite chk_i32_Ok by lia. simpl. eexists. split; [done|].
    split; [eapply storage_ok_count; (done || lia)|by constructor].
  - reflect_bool. destruct Hen as [k Ek]. unfold removeEntryFromSlot. rewrite Ek. simpl.
    pose proof (map_Forall_lookup_1 _ _ _ _ Hf Ek) as Hk. simpl in Hk.
    rewrite (proj2 (Z.ltb_lt 0 k)) by lia. simpl. eexists. split; [done|].
    destruct (Z.eqb_spec (k - 1) 0).
    + assert (k = 1) as -> by lia. split; [|by constructor]. split; [done|].
      split; [|split; [by apply map_Forall_delete|done]]. simpl.
      assert (dom (m_slots_used b) = {[slot]} ∪ dom (delete slot (m_slots_used b))) as Hdom.
      { by rewrite <- (dom_insert_L _ _ 1), insert_delete_id. }
      rewrite <- Hp, Hdom, elements_union_singleton by (apply not_elem_of_dom, lookup_delete_eq).
      by rewrite <- Permutation_middle.
    + split; [apply (storage_ok_count n b slot k); (done || lia)|]. constructor; [done|lia].
Qed.



End Slots.

(** ** Persistent requests *)

Section Persistent.
Import PersistentTable.
Context (N : Z) {R : Type} `{MachineTypes R}.

(** The first persistent request to an address always fails an assertion:
    the entry made for it is default-constructed, so its sets have no bits, and
    [NetDest::add] asserts that they have. No request is ever entered. *)
Theorem first_persistent_request_asserts (b : t R) address locker type
    (Hal : line_aligned b address = Ok tt) (Hnew : m_map b !! address = None) :
  persistentRequestLock N b address locker type = Err EAssert.
Proof. unfold persistentRequestLock. rewrite Hal. simpl. by rewrite Hnew. Qed.

End Persistent.

Section PersistentExample.
Import PersistentTable.

#[local] Instance one_type : MachineTypes unit := {
  MachineType_NUM := 1; MachineType_base_level ty := ty; MachineType_from_base_level i := Ok i;
  MachineType_base_count _ _ := 4; MachineType_base_number _ _ := 0 }.

Lemma first_persistent_request_asserts_witness :
  persistentRequestLock 64 (mk ∅ 6 : t unit) 64 (MachineID.mk 0 1) AccessType_Write = Err EAssert.
Proof. by apply first_persistent_request_asserts. Defined.

End PersistentExample.
