(* ===== verification/CacheMemory.v ===== *)
(** The STT-RAM cache of Ruby: [structures/CacheMemory]. The constructor and
    [init], the routing of an address to a set, the tag index, and every
    operation the coherence protocol calls. *)

From stdpp Require Import prelude gmap.
From Stdlib Require Import ZArith Lia.
From S2P Require Import Prelude Bits SatCounter Replacement Resources CacheEntry.

Open Scope Z_scope.

Module CacheMemory.

(** ** Parameters and state *)

Record AccessLatency := mkLatency { read_latency : Z; write_latency : Z }.

Record LatencyType := mkLatencyType {
  data : AccessLatency; tag : AccessLatency; time : Z }.

Record ChunkInfo := mkChunk { reads : Z; writes : Z }.

(** [RubyCacheParams]; the sixteen latencies and four limits are grouped per
    retention level. *)
Record Params := mkParams {
  p_size : Z; p_assoc : Z; p_start_index_bit : Z; p_is_icache : bool;
  p_block_size : Z; p_atomicLatency : Z; p_atomicALUs : Z;
  p_dataArrayBanks : Z; p_tagArrayBanks : Z; p_resourceStalls : bool;
  p_num_of_retention_zones : Z; p_is_sttram : bool; p_lazy_redirection_scheme : bool;
  p_low_retention : LatencyType; p_mediumlow_retention : LatencyType;
  p_mediumhigh_retention : LatencyType; p_high_retention : LatencyType }.

(** What a cache uses of its [RubySystem]. *)
Record RubySystem := mkRubySystem { clockPeriod : Z; block_size_bytes : Z }.

(** The members the constructor and [init] set and nothing changes later. *)
Record Config := mkConfig {
  m_is_sttram : bool;
  m_lazy_redirection_scheme : bool;
  m_is_instruction_only_cache : bool;
  m_ruby_system : RubySystem;
  m_cache_size : Z;
  m_cache_num_sets : Z;
  m_cache_num_set_bits : Z;
  m_cache_assoc : Z;
  m_start_index_bit : Z;
  m_resource_stalls : bool;
  m_block_size : Z;
  m_num_of_retention_zones : Z;
  m_thresholds : list Z;
  m_retention_table : list LatencyType;
  m_use_occupancy : bool }.

(** Statistics: a scalar counts, a vector counts per index, a histogram is the
    list of its samples. *)
Inductive Scalar :=
| numDataArrayReads | numDataArrayWrites | numTagArrayReads | numTagArrayWrites
| numTagArrayStalls | numDataArrayStalls | numAtomicALUOperations
| numAtomicALUArrayStalls | m_demand_hits | m_demand_misses | m_prefetch_hits
| m_prefetch_misses | m_data_array_stalls | m_zombies_collected
| m_inter_zone_jumps | m_intra_zone_walks.

Inductive VectorStat := m_accesses_per_set | m_chunk_reads | m_chunk_writes.

Inductive Histogram :=
| htmTransCommitReadSet | htmTransCommitWriteSet
| htmTransAbortReadSet | htmTransAbortWriteSet.

#[export] Instance Scalar_eq_dec : EqDecision Scalar.
Proof. solve_decision. Defined.
#[export] Instance VectorStat_eq_dec : EqDecision VectorStat.
Proof. solve_decision. Defined.
#[export] Instance Histogram_eq_dec : EqDecision Histogram.
Proof. solve_decision. Defined.

Record Stats := mkStats {
  scalars : Scalar → Z; vectors : VectorStat → list Z; samples : Histogram → list Z }.

Definition noStats : Stats := mkStats (λ _, 0) (λ _, []) (λ _, []).

Definition bump (k : Scalar) (st : Stats) : Stats :=
  mkStats (λ k', if decide (k' = k) then scalars st k' + 1 else scalars st k')
          (vectors st) (samples st).

(** [v[i]++]; the statistics package asserts the index. *)
Definition bump_at (k : VectorStat) (i : Z) (st : Stats) : res Stats :=
  assert! (0 <=? i) && (i <? zlen (vectors st k)) in
  let* x := vget (vectors st k) i in
  let* v := vset (vectors st k) i (x + 1) in
  Ok (mkStats (scalars st) (λ k', if decide (k' = k) then v else vectors st k') (samples st)).

Definition sample (k : Histogram) (x : Z) (st : Stats) : Stats :=
  mkStats (scalars st) (vectors st)
          (λ k', if decide (k' = k) then samples st k' ++ [x] else samples st k').

(** A cache whose replacement policy has states of type [S]. [heap] is the store
    of the lines; [m_cache] holds the pointers, [None] for null. *)
Record t (S : Type) := mk {
  cfg : Config;
  heap : store;
  m_cache : list (list (option ptr));
  m_tag_index : gmap Z Z;
  replacement_data : list (list nat);
  policy : S;
  dataArray : BankedArray.t;
  tagArray : BankedArray.t;
  atomicALUArray : ALUFreeListArray.t;
  m_chunk : list ChunkInfo;
  m_chunk_counters : gmap Z SatCounter;
  m_chunk_redirection_table : gmap Z Z;
  stats : Stats }.

Arguments mk {S}.
Arguments cfg {S}.
Arguments heap {S}.
Arguments m_cache {S}.
Arguments m_tag_index {S}.
Arguments replacement_data {S}.
Arguments policy {S}.
Arguments dataArray {S}.
Arguments tagArray {S}.
Arguments atomicALUArray {S}.
Arguments m_chunk {S}.
Arguments m_chunk_counters {S}.
Arguments m_chunk_redirection_table {S}.
Arguments stats {S}.

Section Setters.
Context {S : Type}.

Definition set_heap (c : t S) (h : store) : t S :=
  mk (cfg c) h (m_cache c) (m_tag_index c) (replacement_data c) (policy c) (dataArray c)
    (tagArray c) (atomicALUArray c) (m_chunk c) (m_chunk_counters c)
    (m_chunk_redirection_table c) (stats c).

Definition set_cache (c : t S) (v : list (list (option ptr))) : t S :=
  mk (cfg c) (heap c) v (m_tag_index c) (replacement_data c) (policy c) (dataArray c)
    (tagArray c) (atomicALUArray c) (m_chunk c) (m_chunk_counters c)
    (m_chunk_redirection_table c) (stats c).

Definition set_tag_index (c : t S) (v : gmap Z Z) : t S :=
  mk (cfg c) (heap c) (m_cache c) v (replacement_data c) (policy c) (dataArray c)
    (tagArray c) (atomicALUArray c) (m_chunk c) (m_chunk_counters c)
    (m_chunk_redirection_table c) (stats c).

Definition set_policy (c : t S) (v : S) : t S :=
  mk (cfg c) (heap c) (m_cache c) (m_tag_index c) (replacement_data c) v (dataArray c)
    (tagArray c) (atomicALUArray c) (m_chunk c) (m_chunk_counters c)
    (m_chunk_redirection_table c) (stats c).

Definition set_arrays (c : t S) (d g : BankedArray.t) (a : ALUFreeListArray.t) : t S :=
  mk (cfg c) (heap c) (m_cache c) (m_tag_index c) (replacement_data c) (policy c) d
    g a (m_chunk c) (m_chunk_counters c) (m_chunk_redirection_table c) (stats c).

Definition set_chunk (c : t S) (v : list ChunkInfo) : t S :=
  mk (cfg c) (heap c) (m_cache c) (m_tag_index c) (replacement_data c) (policy c)
    (dataArray c) (tagArray c) (atomicALUArray c) v (m_chunk_counters c)
    (m_chunk_redirection_table c) (stats c).

Definition set_redirection (c : t S) (k : gmap Z SatCounter) (r : gmap Z Z) : t S :=
  mk (cfg c) (heap c) (m_cache c) (m_tag_index c) (replacement_data c) (policy c)
    (dataArray c) (tagArray c) (atomicALUArray c) (m_chunk c) k r (stats c).

Definition set_stats (c : t S) (v : Stats) : t S :=
  mk (cfg c) (heap c) (m_cache c) (m_tag_index c) (replacement_data c) (policy c)
    (dataArray c) (tagArray c) (atomicALUArray c) (m_chunk c) (m_chunk_counters c)
    (m_chunk_redirection_table c) v.

Definition count (k : Scalar) (c : t S) : t S := set_stats c (bump k (stats c)).

End Setters.

(** ** Construction *)

Section Construction.
Context {S : Type} `{ReplacementPolicy S}.

(** The retention levels of 1, 2, 3 or 4 zones, from low to high. *)
Definition retention_table (p : Params) : list LatencyType :=
  if p_num_of_retention_zones p =? 1 then [p_low_retention p]
  else if p_num_of_retention_zones p =? 2 then [p_low_retention p; p_high_retention p]
  else if p_num_of_retention_zones p =? 3 then
    [p_low_retention p; p_mediumlow_retention p; p_high_retention p]
  else [p_low_retention p; p_mediumlow_retention p; p_mediumhigh_retention p;
        p_high_retention p].

(** The constructor. The members that [init] sets hold 0 or nothing until then.
    The policy is a [WeightedLRU] exactly when it has the [touch] with an
    occupancy. *)
Definition new (p : Params) (rs : RubySystem) (pol : S) : res (t S) :=
  let* d := BankedArray.new (u32 (p_dataArrayBanks p)) (u32 (p_start_index_bit p)) in
  let* g := BankedArray.new (u32 (p_tagArrayBanks p)) (u32 (p_start_index_bit p)) in
  let a := ALUFreeListArray.new (u32 (p_atomicALUs p)) (p_atomicLatency p) in
  let* _ := require (negb (p_lazy_redirection_scheme p && negb (p_is_sttram p))) EFatal in
  let* _ := require (negb ((p_num_of_retention_zones p <? 1)
                           || (4 <? p_num_of_retention_zones p))) EFatal in
  Ok (mk
    (mkConfig (p_is_sttram p) (p_lazy_redirection_scheme p) (p_is_icache p) rs
       (i32 (p_size p)) 0 0 (p_assoc p) (p_start_index_bit p) (p_resourceStalls p)
       (i32 (p_block_size p)) (p_num_of_retention_zones p) [] (retention_table p)
       (match touch_occupancy with Some _ => true | None => false end))
    ∅ [] ∅ [] pol d g a [] ∅ ∅ noStats).

Definition with_system (g : Config) (rs : RubySystem) (block_size : Z) : Config :=
  mkConfig (m_is_sttram g) (m_lazy_redirection_scheme g) (m_is_instruction_only_cache g)
    rs (m_cache_size g) (m_cache_num_sets g) (m_cache_num_set_bits g) (m_cache_assoc g)
    (m_start_index_bit g) (m_resource_stalls g) block_size (m_num_of_retention_zones g)
    (m_thresholds g) (m_retention_table g) (m_use_occupancy g).

Definition with_geometry (g : Config) (num_sets set_bits : Z) (thresholds : list Z) : Config :=
  mkConfig (m_is_sttram g) (m_lazy_redirection_scheme g) (m_is_instruction_only_cache g)
    (m_ruby_system g) (m_cache_size g) num_sets set_bits (m_cache_assoc g)
    (m_start_index_bit g) (m_resource_stalls g) (m_block_size g)
    (m_num_of_retention_zones g) thresholds (m_retention_table g) (m_use_occupancy g).

Definition set_cfg (c : t S) (g : Config) : t S :=
  mk g (heap c) (m_cache c) (m_tag_index c) (replacement_data c) (policy c) (dataArray c)
    (tagArray c) (atomicALUArray c) (m_chunk c) (m_chunk_counters c)
    (m_chunk_redirection_table c) (stats c).

(** The four calls that hand the clock and the block size to the arrays. *)
Definition clock_arrays (c : t S) (rs : RubySystem) : res (t S) :=
  let* a := ALUFreeListArray.setBlockSize
              (ALUFreeListArray.setClockPeriod (atomicALUArray c) (clockPeriod rs))
              (i32 (block_size_bytes rs)) in
  Ok (set_arrays c (BankedArray.setClockPeriod (dataArray c) (clockPeriod rs))
        (BankedArray.setClockPeriod (tagArray c) (clockPeriod rs)) a).

Definition setRubySystem (c : t S) (rs : RubySystem) : res (t S) :=
  let* c := clock_arrays c rs in
  let b := if m_block_size (cfg c) =? 0 then i32 (block_size_bytes rs)
           else m_block_size (cfg c) in
  Ok (set_cfg c (with_system (cfg c) rs b)).

(** The upper bound (exclusive) of each zone but for the remainder of the
    division, which falls to the last zone. *)
Fixpoint push_thresholds (n : nat) (threshold threshold_set : Z) : list Z :=
  match n with
  | O => []
  | Datatypes.S n => threshold_set :: push_thresholds n threshold (threshold_set + threshold)
  end.

(** One row, then all rows, of [replacement_data]. *)
Fixpoint instantiate_row (ways : nat) (s : S) : res (list nat * S) :=
  match ways with
  | O => Ok ([], s)
  | Datatypes.S n =>
      let* (h, s) := instantiateEntry s in
      let* (r, s) := instantiate_row n s in Ok (h :: r, s)
  end.

Fixpoint instantiate_rows (rows ways : nat) (s : S) : res (list (list nat) * S) :=
  match rows with
  | O => Ok ([], s)
  | Datatypes.S n =>
      let* (r, s) := instantiate_row ways s in
      let* (rs, s) := instantiate_rows n ways s in Ok (r :: rs, s)
  end.

Definition init (c : t S) : res (t S) :=
  let rs := m_ruby_system (cfg c) in
  let* c := clock_arrays c rs in
  let block_size := i32 (block_size_bytes rs) in
  assert! negb (block_size =? 0) in
  let g := with_system (cfg c) rs block_size in
  let assoc := m_cache_assoc g in
  let* _ := require (negb (assoc =? 0)) EUndef in
  let num_sets := Z.quot (Z.quot (m_cache_size g) assoc) block_size in
  assert! 1 <? num_sets in
  let threshold := Z.quot num_sets (m_num_of_retention_zones g) in
  let thresholds := push_thresholds (Z.to_nat (m_num_of_retention_zones g)) threshold threshold in
  assert! 0 <=? num_sets in
  let* set_bits := IntMath.floorLog2 4 num_sets in
  assert! 0 <? set_bits in
  let* _ := require (0 <=? assoc) EThrow in
  let rows := Z.to_nat num_sets in
  let ways := Z.to_nat assoc in
  let* (rd, pol) := instantiate_rows rows ways (policy c) in
  Ok (mk (with_geometry g num_sets set_bits thresholds) (heap c)
        (replicate rows (replicate ways None)) (m_tag_index c) rd pol
        (dataArray c) (tagArray c) (atomicALUArray c)
        (replicate (Z.to_nat (Z.quot num_sets 4)) (mkChunk 0 0))
        (m_chunk_counters c) (m_chunk_redirection_table c) (stats c)).

Definition regStats (c : t S) : t S :=
  let sets := Z.to_nat (m_cache_num_sets (cfg c)) in
  let num_chunks := Z.to_nat (Z.quot (m_cache_num_sets (cfg c)) 4) in
  set_stats c (mkStats (scalars (stats c))
    (λ k, match k with
          | m_accesses_per_set => replicate sets 0
          | m_chunk_reads => replicate num_chunks 0
          | m_chunk_writes => replicate num_chunks 0
          end) (samples (stats c))).

(** The destructor's loop over the lines; [delete nullptr] does nothing. *)
Fixpoint free_lines (h : store) (lines : list (option ptr)) : res store :=
  match lines with
  | [] => Ok h
  | None :: lines => free_lines h lines
  | Some p :: lines => let* h := free h p in free_lines h lines
  end.

Definition destroy (c : t S) : res store := free_lines (heap c) (concat (m_cache c)).

End Construction.

(** ** Geometry *)

Section Geometry.
Context {S : Type}.

Definition getCacheSize (c : t S) : Z := m_cache_size (cfg c).
Definition getCacheAssoc (c : t S) : Z := m_cache_assoc (cfg c).
Definition getStartIndex (c : t S) : Z := m_start_index_bit (cfg c).
Definition getBlockSize (c : t S) : Z := m_block_size (cfg c).
Definition getNumBlocks (c : t S) : res Z :=
  chk_i32 (m_cache_num_sets (cfg c) * m_cache_assoc (cfg c)).

(** [cacheSet / 4] converted to [int]. *)
Definition getChunkId (cacheSet : Z) : Z := i32 (Z.quot cacheSet 4).

Definition makeLineAddress (g : Config) (addr : Z) : res Z :=
  let* b := IntMath.floorLog2 4 (m_block_size g) in Address.makeLineAddress addr b.

Definition getDefaultSet (g : Config) (address : Z) : res Z :=
  Address.bitSelect address (u32 (m_start_index_bit g))
    (u32 (m_start_index_bit g + m_cache_num_set_bits g - 1)).

(** The loop over the thresholds from zone [i] on; [n] iterations remain. *)
Fixpoint find_zone (n : nat) (i cacheSet : Z) (g : Config) : res Z :=
  match n with
  | O => Ok (m_num_of_retention_zones g - 1)
  | Datatypes.S n =>
      let* th := vget (m_thresholds g) i in
      if cacheSet <? th then Ok i else find_zone n (i + 1) cacheSet g
  end.

Definition getRetentionZone (g : Config) (cacheSet : Z) : res Z :=
  find_zone (Z.to_nat (m_num_of_retention_zones g)) 0 cacheSet g.

(** *** Routing an address to a set *)

(** C++'s [%] on [int] with a divisor that may be 0. *)
Definition int_rem (a b : Z) : res Z :=
  let* _ := require (negb (b =? 0)) EUndef in Ok (Z.rem a b).

(** The set of a redirected page: [redir] is the page's offset in its new
    zone. *)
Definition redirect_base (g : Config) (address default_set zone_size redir : Z) : res Z :=
  let block_offset := Z.land (Z.shiftr address 6) 0x3F in
  let* sum := chk_i32 (redir + block_offset * 7) in
  let* scatter_offset := int_rem sum zone_size in
  let* t2 := vget (m_thresholds g) 2 in
  if t2 <=? default_set then
    let* t0 := vget (m_thresholds g) 0 in
    let* b := chk_i32 (t0 + scatter_offset) in Ok b
  else
    let* t1 := vget (m_thresholds g) 1 in
    if t1 <=? default_set then Ok scatter_offset else Ok default_set.

(** The walk inside a zone: one set further for every two writes counted, at
    most seven. *)
Definition intra_offset (writes : Z) : Z :=
  let o := Z.quot writes 2 in if 7 <? o then 7 else o.

Definition walk (base_set zone_size offset : Z) : res Z :=
  if 0 <? offset then
    let* _ := require (negb (zone_size =? 0)) EUndef in
    let zone_start_index := i32 (Z.quot base_set zone_size * zone_size) in
    let local_index := i32 (Z.rem base_set zone_size) in
    let* sum := chk_i32 (local_index + offset) in
    let* inner := int_rem sum zone_size in
    chk_i32 (zone_start_index + inner)
  else Ok base_set.

Definition addressToCacheSet (c : t S) (address : Z) : res Z :=
  let g := cfg c in
  let* line := makeLineAddress g address in
  assert! address =? line in
  let* default_set := getDefaultSet g address in
  if negb (m_lazy_redirection_scheme g) || negb (m_num_of_retention_zones g =? 4)
  then Ok default_set
  else
    let addr_chunk_ID := Z.shiftr address 12 in
    let* zone_size := vget (m_thresholds g) 0 in
    let* base_set :=
      (match m_chunk_redirection_table c !! addr_chunk_ID with
       | Some redir => redirect_base g address default_set zone_size redir
       | None => Ok default_set
       end) in
    match m_chunk_counters c !! addr_chunk_ID with
    | Some k => walk base_set zone_size (intra_offset (counter k))
    | None => Ok base_set
    end.

(** *** The tag index

    A position is packed into an [int]: the set in the upper, the way in the
    lower 16 bits. *)
Definition encode (set way : Z) : Z :=
  i32 (Z.lor (Z.shiftl set 16) (Z.land way 0xFFFF)).
Definition decode_way (encoded : Z) : Z := Z.land encoded 0xFFFF.
Definition decode_set (encoded : Z) : Z := Z.land (Z.shiftr encoded 16) 0xFFFF.

(** [m_cache[set][way]]. *)
Definition slot (c : t S) (set way : Z) : res (option ptr) :=
  let* row := vget (m_cache c) set in vget row way.

(** The lookup both [findTagInSet]s share: the set and way the index gives for
    [tag] if the line there satisfies [ok]. The [int64_t &cacheSet] argument is
    returned with the way, unchanged when the way is -1. *)
Definition find_indexed (ok : Entry → bool) (c : t S) (cacheSet tag : Z) : res (Z * Z) :=
  let* line := makeLineAddress (cfg c) tag in
  assert! tag =? line in
  match m_tag_index c !! tag with
  | None => Ok (-1, cacheSet)
  | Some encoded =>
      let way := decode_way encoded in
      let found_set := decode_set encoded in
      let* s := slot c found_set way in
      match s with
      | None => Ok (-1, cacheSet)
      | Some p =>
          let* e := deref (heap c) p in
          if (m_Address e =? tag) && ok e then Ok (way, found_set) else Ok (-1, cacheSet)
      end
  end.

Definition findTagInSet (c : t S) (cacheSet tag : Z) : res (Z * Z) :=
  find_indexed (λ e, negb (bool_decide (m_Permission e = NotPresent))) c cacheSet tag.

Definition findTagInSetIgnorePermissions (c : t S) (cacheSet tag : Z) : res (Z * Z) :=
  find_indexed (λ _, true) c cacheSet tag.

Definition getAddressAtIdx (c : t S) (idx : Z) : res Z :=
  let assoc := m_cache_assoc (cfg c) in
  let* _ := require (negb (assoc =? 0)) EUndef in
  let set := Z.quot idx assoc in
  assert! set <? m_cache_num_sets (cfg c) in
  let way := idx - set * assoc in
  assert! way <? assoc in
  let* s := slot c set way in
  match s with
  | None => Ok 0
  | Some p =>
      let* e := deref (heap c) p in
      if bool_decide (m_Permission e = Invalid ∨ m_Permission e = NotPresent)
      then Ok 0 else Ok (m_Address e)
  end.

(** The line a pair from [findTagInSet] designates. *)
Definition found_line (c : t S) (found : Z * Z) : res (option ptr) :=
  if found.1 =? -1 then Ok None else slot c found.2 found.1.

(** [lookup] of a [const] cache: it reports an expired line like any other. *)
Definition lookup_const (c : t S) (address : Z) : res (option ptr) :=
  let* line := makeLineAddress (cfg c) address in
  assert! address =? line in
  let* cacheSet := addressToCacheSet c address in
  let* found := findTagInSet c cacheSet address in
  found_line c found.

Definition isTagPresent (c : t S) (address : Z) : res bool :=
  rmap (λ p, match p with Some _ => true | None => false end) (lookup_const c address).

(** A slot [allocate] may use: empty, or its line given up by the protocol. *)
Definition slot_free (c : t S) (s : option ptr) : res bool :=
  match s with
  | None => Ok true
  | Some p => let* e := deref (heap c) p in Ok (bool_decide (m_Permission e = NotPresent))
  end.

(** [m_cache[set]] from way [i] on, [n] ways: the first one [allocate] may
    use. *)
Fixpoint first_free (c : t S) (set : Z) (n : nat) (i : Z) : res (option Z) :=
  match n with
  | O => Ok None
  | Datatypes.S n =>
      let* s := slot c set i in
      let* b := slot_free c s in
      if b : bool then Ok (Some i) else first_free c set n (i + 1)
  end.

Definition ways (c : t S) : nat := Z.to_nat (m_cache_assoc (cfg c)).

Definition cacheAvail (c : t S) (address : Z) : res bool :=
  let* existingSet := addressToCacheSet c address in
  let* found := findTagInSetIgnorePermissions c existingSet address in
  if negb (found.1 =? -1) then Ok true
  else
    let* cacheSet := addressToCacheSet c address in
    let* i := first_free c cacheSet (ways c) 0 in
    Ok (match i with Some _ => true | None => false end).

Definition getReplacementWeight (c : t S) (set loc : Z) : res Z :=
  assert! set <? m_cache_num_sets (cfg c) in
  assert! loc <? m_cache_assoc (cfg c) in
  let* s := slot c set loc in
  match s with
  | None => Ok 0
  | Some p =>
      let* e := deref (heap c) p in
      assert! 0 <=? validBlocks e in Ok (validBlocks e)
  end.

Definition permission_at (c : t S) (set loc : Z) : res AccessPermission :=
  let* s := slot c set loc in
  let* p := of_option EUndef s in
  rmap m_Permission (deref (heap c) p).

Definition isBlockInvalid (c : t S) (cache_set loc : Z) : res bool :=
  rmap (λ q, bool_decide (q = Invalid)) (permission_at c cache_set loc).

Definition isBlockNotBusy (c : t S) (cache_set loc : Z) : res bool :=
  rmap (λ q, negb (bool_decide (q = Busy))) (permission_at c cache_set loc).

(** [recordCacheContents]: the records the recorder is given, in order. A record
    is an address, the request type and the tick of the last access, with the
    line whose data block it carries. *)
Definition content_record (c : t S) (p : ptr) : res (list (Z * RubyRequestType * Z * ptr)) :=
  let* e := deref (heap c) p in
  let request_type :=
    if decide (m_Permission e = Read_Only) then
      if m_is_instruction_only_cache (cfg c) then RIFETCH else RLD
    else if decide (m_Permission e = Read_Write) then RST else RNULL in
  Ok (if decide (request_type = RNULL) then []
      else [(m_Address e, request_type, getLastAccess e, p)]).

Fixpoint content_records (c : t S) (lines : list (option ptr))
    : res (list (Z * RubyRequestType * Z * ptr)) :=
  match lines with
  | [] => Ok []
  | None :: lines => content_records c lines
  | Some p :: lines =>
      let* r := content_record c p in
      let* rs := content_records c lines in Ok (r ++ rs)
  end.

Definition recordCacheContents (c : t S) : res (list (Z * RubyRequestType * Z * ptr)) :=
  content_records c (concat (m_cache c)).

End Geometry.

(** ** Operations that change the cache *)

Section Operations.
Context {S : Type} `{ReplacementPolicy S}.

(** Write through a pointer of the cache. *)
Definition modify (c : t S) (p : ptr) (f : Entry → Entry) : res (t S) :=
  rmap (set_heap c) (update (heap c) p f).

(** A call of the policy on an entry's [replacementData]. *)
Definition with_data (c : t S) (p : ptr) (f : nat → S → res S) : res (t S) :=
  let* e := deref (heap c) p in
  let* h := of_option EUndef (replacementData e) in
  rmap (set_policy c) (f h (policy c)).

(** *** lookup *)

(** The condition under which [lookup] marks a line as expired. *)
Definition retention_over (now : Z) (e : Entry) : bool :=
  negb (m_is_expired e)
  && (negb (bool_decide (m_Permission e = Busy))
      && negb (bool_decide (m_Permission e = Maybe_Stale))
      && (u64 (m_last_refresh_tick e + m_retention_limit e) <? now)).

Definition lookup (now : Z) (c : t S) (address : Z) : res (option ptr * t S) :=
  let* targetSet := addressToCacheSet c address in
  let* found := findTagInSet c targetSet address in
  if found.1 =? -1 then Ok (None, c)
  else
    let* entry := slot c found.2 found.1 in
    match entry with
    | None => Ok (None, c)
    | Some p =>
        let* e := deref (heap c) p in
        let* c := (if retention_over now e then modify c p (setExpired true) else Ok c) in
        Ok (Some p, c)
    end.

(** [touch] of the line's replacement data and [setLastAccess]. *)
Definition touch_line (now : Z) (c : t S) (p : ptr) : res (t S) :=
  let* c := with_data c p (touch now) in
  modify c p (setLastAccess now).

(** The result is the hit and, for [data_ptr], the line whose block it points
    to. *)
Definition tryCacheAccess (now : Z) (c : t S) (address : Z) (type : RubyRequestType)
    : res (bool * option ptr * t S) :=
  let* (entry, c) := lookup now c address in
  match entry with
  | None => Ok (false, None, c)
  | Some p =>
      let* c := touch_line now c p in
      let* e := deref (heap c) p in
      if decide (m_Permission e = Read_Write) then Ok (true, Some p, c)
      else if decide (m_Permission e = Read_Only ∧ (type = RLD ∨ type = RIFETCH))
      then Ok (true, Some p, c)
      else Ok (false, None, c)
  end.

Definition testCacheAccess (now : Z) (c : t S) (address : Z) (type : RubyRequestType)
    : res (bool * option ptr * t S) :=
  let* (entry, c) := lookup now c address in
  match entry with
  | None => Ok (false, None, c)
  | Some p =>
      let* c := touch_line now c p in
      let* e := deref (heap c) p in
      Ok (negb (bool_decide (m_Permission e = NotPresent)), Some p, c)
  end.

(** *** allocate, deallocate *)

Definition zone_time (g : Config) (cacheSet : Z) : res Z :=
  let* z := getRetentionZone g cacheSet in
  rmap time (vget (m_retention_table g) z).

(** The line [old] already holds the address: it is recycled in place and the
    new object is dropped. *)
Definition allocate_reuse (now : Z) (c : t S) (address cacheSet way : Z)
    (old entry : ptr) : res (ptr * t S) :=
  let* e := deref (heap c) old in
  let c := if m_is_expired e then count m_zombies_collected c else c in
  let* c := (if decide (old = entry) then Ok c
             else rmap (set_heap c) (free (heap c) entry)) in
  let* limit := zone_time (cfg c) cacheSet in
  let* c := modify c old (λ e,
    set_last_refresh_tick now (setLastAccess now (set_retention_limit limit
      (set_Permission Invalid (setExpired false e))))) in
  let* c := with_data c old (reset now) in
  Ok (old, set_tag_index c (<[address := encode cacheSet way]> (m_tag_index c))).

(** The address [a] leaves the index only if the index still has it at this
    position. *)
Definition erase_tag (index : gmap Z Z) (a set way : Z) : gmap Z Z :=
  match index !! a with
  | Some encoded =>
      if (decode_way encoded =? way) && (decode_set encoded =? set)
      then delete a index else index
  | None => index
  end.

(** The object in the slot about to be filled goes away, unless it is the one to
    be stored. *)
Definition clean_slot (c : t S) (cacheSet i : Z) (s : option ptr) (entry : ptr) : res (t S) :=
  match s with
  | None => Ok c
  | Some p =>
      let* e := deref (heap c) p in
      let c := if m_is_expired e then count m_zombies_collected c else c in
      let c := set_tag_index c (erase_tag (m_tag_index c) (m_Address e) cacheSet i) in
      if decide (p = entry) then Ok c else rmap (set_heap c) (free (heap c) p)
  end.

Definition set_slot (c : t S) (cacheSet i : Z) (p : option ptr) : res (t S) :=
  let* row := vget (m_cache c) cacheSet in
  let* row := vset row i p in
  rmap (set_cache c) (vset (m_cache c) cacheSet row).

Definition fill_slot (now : Z) (c : t S) (address cacheSet i : Z) (entry : ptr)
    : res (ptr * t S) :=
  let* c := set_slot c cacheSet i (Some entry) in
  let* row := vget (replacement_data c) cacheSet in
  let* h := vget row i in
  let* c := modify c entry (λ e, set_Permission Invalid (setExpired false
    (set_Address address (set_replacementData (Some h) e)))) in
  let c := set_tag_index c (<[address := encode cacheSet i]> (m_tag_index c)) in
  let* limit := (if negb (m_is_sttram (cfg c)) then Ok 0 else zone_time (cfg c) cacheSet) in
  let* c := modify c entry (λ e,
    set_last_refresh_tick now (setLastAccess now (set_retention_limit limit e))) in
  let* c := with_data c entry (reset now) in
  Ok (entry, c).

Definition allocate_new (now : Z) (c : t S) (address cacheSet : Z) (entry : ptr)
    : res (ptr * t S) :=
  let* free_way := first_free c cacheSet (ways c) 0 in
  match free_way with
  | None => Err EPanic
  | Some i =>
      let* s := slot c cacheSet i in
      let* c := clean_slot c cacheSet i s entry in
      fill_slot now c address cacheSet i entry
  end.

Definition allocate (now : Z) (c : t S) (address : Z) (entry : ptr) : res (ptr * t S) :=
  let* cacheSet := addressToCacheSet c address in
  let* (loc, cacheSet) := findTagInSetIgnorePermissions c cacheSet address in
  let* old_entry := found_line c (loc, cacheSet) in
  match old_entry with
  | Some old => allocate_reuse now c address cacheSet loc old entry
  | None => allocate_new now c address cacheSet entry
  end.

Definition deallocate (c : t S) (address : Z) : res (t S) :=
  let* cacheSet := addressToCacheSet c address in
  let* (loc, cacheSet) := findTagInSetIgnorePermissions c cacheSet address in
  if loc =? -1 then Ok c
  else
    let* entry := slot c cacheSet loc in
    let* p := of_option EUndef entry in
    let* e := deref (heap c) p in
    let c := if m_is_expired e then count m_zombies_collected c else c in
    let* c := with_data c p invalidate in
    let* c := modify c p (set_Permission NotPresent) in
    Ok (set_tag_index c (delete address (m_tag_index c))).

(** *** cacheProbe *)

(** Way [i] on: the first expired line that is not busy. *)
Fixpoint first_expired (c : t S) (set : Z) (n : nat) (i : Z) : res (option Z) :=
  match n with
  | O => Ok None
  | Datatypes.S n =>
      let* s := slot c set i in
      match s with
      | None => first_expired c set n (i + 1)
      | Some p =>
          let* e := deref (heap c) p in
          if m_is_expired e && negb (bool_decide (m_Permission e = Busy))
          then Ok (Some (m_Address e)) else first_expired c set n (i + 1)
      end
  end.

(** The candidates handed to the policy: the lines of the set, and the
    replacement data the policy reads through them. *)
Fixpoint candidates (c : t S) (row : list (option ptr)) : res (list (ptr * nat)) :=
  match row with
  | [] => Ok []
  | s :: row =>
      let* p := of_option EUndef s in
      let* e := deref (heap c) p in
      let* h := of_option EUndef (replacementData e) in
      let* cs := candidates c row in
      Ok ((p, h) :: cs)
  end.

(** Way [i] on: the first slot that holds the pointer [victim]. *)
Fixpoint find_pointer (c : t S) (set : Z) (victim : ptr) (n : nat) (i : Z) : res Z :=
  match n with
  | O => Ok (-1)
  | Datatypes.S n =>
      let* s := slot c set i in
      if decide (s = Some victim) then Ok i else find_pointer c set victim n (i + 1)
  end.

(** Way [i] on: the line not busy with the smallest last access below
    [oldest_tick]; [safe_way] is the best so far. *)
Fixpoint oldest_safe (c : t S) (set : Z) (n : nat) (i oldest_tick safe_way : Z) : res Z :=
  match n with
  | O => Ok safe_way
  | Datatypes.S n =>
      let* s := slot c set i in
      match s with
      | None => oldest_safe c set n (i + 1) oldest_tick safe_way
      | Some p =>
          let* e := deref (heap c) p in
          if negb (bool_decide (m_Permission e = Busy)) && (getLastAccess e <? oldest_tick)
          then oldest_safe c set n (i + 1) (getLastAccess e) i
          else oldest_safe c set n (i + 1) oldest_tick safe_way
      end
  end.

(** [m_cache[set][way]->m_Address]. *)
Definition address_at (c : t S) (set way : Z) : res Z :=
  let* s := slot c set way in
  let* p := of_option EUndef s in
  rmap m_Address (deref (heap c) p).

Definition cacheProbe (now : Z) (c : t S) (address : Z) : res (Z * t S) :=
  let* line := makeLineAddress (cfg c) address in
  assert! address =? line in
  let* avail := cacheAvail c address in
  assert! negb avail in
  let* cacheSet := addressToCacheSet c address in
  let* expired := first_expired c cacheSet (ways c) 0 in
  match expired with
  | Some a => Ok (a, c)
  | None =>
      let* row := vget (m_cache c) cacheSet in
      let* cs := candidates c (take (ways c) row) in
      let* (v, pol) := getVictim (cs.*2) (policy c) in
      let c := set_policy c pol in
      let* victim_entry := of_option EUndef (cs.*1 !! v) in
      let* way := find_pointer c cacheSet victim_entry (ways c) 0 in
      let victim_way := if way =? -1 then 0 else way in
      let* q := permission_at c cacheSet victim_way in
      if decide (q = Busy) then
        let* safe_way := oldest_safe c cacheSet (ways c) 0 (u64 (now + 1)) (-1) in
        let* a := address_at c cacheSet (if safe_way =? -1 then 0 else safe_way) in
        Ok (a, c)
      else
        let* a := address_at c cacheSet victim_way in Ok (a, c)
  end.

(** *** Replacement and lock state *)

Definition setMRU (now : Z) (c : t S) (address : Z) : res (t S) :=
  let* line := makeLineAddress (cfg c) address in
  let* (entry, c) := lookup now c line in
  match entry with None => Ok c | Some p => touch_line now c p end.

Definition setMRU_entry (now : Z) (c : t S) (entry : option ptr) : res (t S) :=
  let* p := of_option EAssert entry in touch_line now c p.

Definition setMRU_occupancy (now : Z) (c : t S) (address occupancy : Z) : res (t S) :=
  let* line := makeLineAddress (cfg c) address in
  let* (entry, c) := lookup now c line in
  match entry with
  | None => Ok c
  | Some p =>
      let* c :=
        (if m_use_occupancy (cfg c)
         then let* f := of_option EUndef touch_occupancy in
              with_data c p (λ h, f now h occupancy)
         else with_data c p (touch now)) in
      modify c p (setLastAccess now)
  end.

Definition setLocked (now : Z) (c : t S) (address context : Z) : res (t S) :=
  let* (entry, c) := lookup now c address in
  let* p := of_option EAssert entry in
  modify c p (CacheEntry.setLocked context).

Definition clearLocked (now : Z) (c : t S) (address : Z) : res (t S) :=
  let* (entry, c) := lookup now c address in
  let* p := of_option EAssert entry in
  modify c p CacheEntry.clearLocked.

Definition isLocked (now : Z) (c : t S) (address context : Z) : res (bool * t S) :=
  let* (entry, c) := lookup now c address in
  let* p := of_option EAssert entry in
  let* e := deref (heap c) p in
  Ok (CacheEntry.isLocked context e, c).

(** A loop over every line of the cache that updates the line in place. *)
Fixpoint each_line (f : Entry → Entry) (h : store) (lines : list (option ptr)) : res store :=
  match lines with
  | [] => Ok h
  | None :: lines => each_line f h lines
  | Some p :: lines => let* h := update h p f in each_line f h lines
  end.

Definition clearLockedAll (c : t S) (context : Z) : res (t S) :=
  rmap (set_heap c)
    (each_line (λ e, if CacheEntry.isLocked context e then CacheEntry.clearLocked e else e)
       (heap c) (concat (m_cache c))).

(** *** Hardware transactions *)

(** The sizes of the read and write sets, counted line by line before the line
    is updated. *)
Fixpoint htm_lines (f : Entry → Entry) (h : store) (lines : list (option ptr)) (r w : Z)
    : res (Z * Z * store) :=
  match lines with
  | [] => Ok (r, w, h)
  | None :: lines => htm_lines f h lines r w
  | Some p :: lines =>
      let* e := deref h p in
      let r := u64 (r + (if getInHtmReadSet e then 1 else 0)) in
      let w := u64 (w + (if getInHtmWriteSet e then 1 else 0)) in
      let* h := update h p f in
      htm_lines f h lines r w
  end.

Definition htm_clear (e : Entry) : Entry :=
  CacheEntry.clearLocked (setInHtmReadSet false (setInHtmWriteSet false e)).

(** [invalidateEntry] is a virtual member that protocols override. *)
Definition htmAbortTransaction (invalidateEntry : Entry → Entry) (c : t S) : res (t S) :=
  let* (r, w, h) := htm_lines
    (λ e, htm_clear (if getInHtmWriteSet e then invalidateEntry e else e))
    (heap c) (concat (m_cache c)) 0 0 in
  let c := set_heap c h in
  Ok (set_stats c (sample htmTransAbortWriteSet w (sample htmTransAbortReadSet r (stats c)))).

Definition htmCommitTransaction (c : t S) : res (t S) :=
  let* (r, w, h) := htm_lines htm_clear (heap c) (concat (m_cache c)) 0 0 in
  let c := set_heap c h in
  Ok (set_stats c (sample htmTransCommitWriteSet w (sample htmTransCommitReadSet r (stats c)))).

Definition profileDemandHit (c : t S) : t S := count m_demand_hits c.
Definition profileDemandMiss (c : t S) : t S := count m_demand_misses c.
Definition profilePrefetchHit (c : t S) : t S := count m_prefetch_hits c.
Definition profilePrefetchMiss (c : t S) : t S := count m_prefetch_misses c.

(** *** Requests to the arrays *)

(** [m_chunk[chunkID].reads++] and its statistic; likewise for writes. *)
Definition chunk_read (c : t S) (chunkID : Z) : res (t S) :=
  let* k := vget (m_chunk c) chunkID in
  let* ks := vset (m_chunk c) chunkID (mkChunk (reads k + 1) (writes k)) in
  let* st := bump_at m_chunk_reads chunkID (stats c) in
  Ok (set_stats (set_chunk c ks) st).

Definition chunk_write (c : t S) (chunkID : Z) : res (t S) :=
  let* k := vget (m_chunk c) chunkID in
  let* ks := vset (m_chunk c) chunkID (mkChunk (reads k) (writes k + 1)) in
  let* st := bump_at m_chunk_writes chunkID (stats c) in
  Ok (set_stats (set_chunk c ks) st).

(** [array.reserve(addressToCacheSet(addr), accessLatency)] when resources are
    modelled. *)
Definition reserve_data (now : Z) (c : t S) (addr latency : Z) : res (t S) :=
  if m_resource_stalls (cfg c) then
    let* set := addressToCacheSet c addr in
    let* d := BankedArray.reserve now (dataArray c) set latency in
    Ok (set_arrays c d (tagArray c) (atomicALUArray c))
  else Ok c.

Definition reserve_tag (now : Z) (c : t S) (addr latency : Z) : res (t S) :=
  if m_resource_stalls (cfg c) then
    let* set := addressToCacheSet c addr in
    let* g := BankedArray.reserve now (tagArray c) set latency in
    Ok (set_arrays c (dataArray c) g (atomicALUArray c))
  else Ok c.

(** A write to the array renews the retention of the line. *)
Definition renew (now limit : Z) (e : Entry) : Entry :=
  set_retention_limit limit (setExpired false (set_last_refresh_tick now e)).

(** The lazy redirection: a data write to a page is counted until the page's
    4-bit counter saturates; the page is then entered in the redirection
    table. *)
Definition count_page_write (c : t S) (addr_chunk_ID : Z) : res (t S) :=
  if m_lazy_redirection_scheme (cfg c) then
    let* k := (match m_chunk_counters c !! addr_chunk_ID with
               | Some k => Ok k
               | None => newSat 8 4 0
               end) in
    match m_chunk_redirection_table c !! addr_chunk_ID with
    | Some _ => Ok (set_redirection c (<[addr_chunk_ID := k]> (m_chunk_counters c))
                      (m_chunk_redirection_table c))
    | None =>
        let k := (sat_post_inc k).2 in
        let c := set_redirection c (<[addr_chunk_ID := k]> (m_chunk_counters c))
                   (m_chunk_redirection_table c) in
        if isSaturated k then
          let* zone_size := vget (m_thresholds (cfg c)) 0 in
          let* _ := require (negb (zone_size =? 0)) EUndef in
          let offset := i32 (addr_chunk_ID mod u64 zone_size) in
          Ok (count m_inter_zone_jumps
                (set_redirection c (m_chunk_counters c)
                   (<[addr_chunk_ID := offset]> (m_chunk_redirection_table c))))
        else Ok c
    end
  else Ok c.

(** The part of [recordRequestType] before the [switch]: statistics, and the
    line of the address, whose access is recorded. The result is the zone of
    the set the address maps to, that set's chunk, the set the line was found
    in and the line. *)
Definition record_prologue (now : Z) (c : t S) (addr : Z)
    : res (Z * Z * Z * option ptr * t S) :=
  let* cacheSet := addressToCacheSet c addr in
  let* st := bump_at m_accesses_per_set cacheSet (stats c) in
  let c := set_stats c st in
  let c := match m_chunk_counters c !! Z.shiftr addr 12 with
           | Some k => if 0 <? Z.quot (counter k) 2 then count m_intra_zone_walks c else c
           | None => c
           end in
  let* retention_threshold := getRetentionZone (cfg c) cacheSet in
  let chunkID := getChunkId cacheSet in
  let* (loc, cacheSet) := findTagInSetIgnorePermissions c cacheSet addr in
  let* entry := found_line c (loc, cacheSet) in
  let* c := (match entry with
             | Some p => modify c p (setLastAccess now)
             | None => Ok c
             end) in
  Ok (retention_threshold, chunkID, cacheSet, entry, c).

Definition record_data_write (now : Z) (c : t S) (addr : Z) (level : LatencyType)
    (chunkID : Z) (entry : option ptr) : res (t S) :=
  let* c := (match entry with
             | Some p =>
                 let* c := modify c p (renew now (time level)) in
                 count_page_write c (Z.shiftr addr 12)
             | None => Ok c
             end) in
  let* c := reserve_data now c addr (write_latency (data level)) in
  chunk_write (count numDataArrayWrites c) chunkID.

(** A tag write takes the zone of the set that holds the line, and makes a line
    that was given up present again. *)
Definition record_tag_write (now : Z) (c : t S) (addr : Z) (level : LatencyType)
    (chunkID cacheSet : Z) (entry : option ptr) : res (t S) :=
  let* c := (match entry with
             | Some p =>
                 let* limit := zone_time (cfg c) cacheSet in
                 modify c p (λ e,
                   let e := renew now limit e in
                   if decide (m_Permission e = NotPresent)
                   then set_Permission Invalid e else e)
             | None => Ok c
             end) in
  let* c := reserve_tag now c addr (write_latency (tag level)) in
  chunk_write (count numTagArrayWrites c) chunkID.

Definition recordRequestType (now : Z) (c : t S) (requestType : CacheRequestType) (addr : Z)
    : res (t S) :=
  let* (retention_threshold, chunkID, cacheSet, entry, c) := record_prologue now c addr in
  let level := vget (m_retention_table (cfg c)) retention_threshold in
  match requestType with
  | DataArrayRead =>
      let* c := (if m_resource_stalls (cfg c)
                 then let* l := level in reserve_data now c addr (read_latency (data l))
                 else Ok c) in
      chunk_read (count numDataArrayReads c) chunkID
  | DataArrayWrite =>
      let* l := level in record_data_write now c addr l chunkID entry
  | TagArrayRead =>
      let* c := (if m_resource_stalls (cfg c)
                 then let* l := level in reserve_tag now c addr (read_latency (tag l))
                 else Ok c) in
      chunk_read (count numTagArrayReads c) chunkID
  | TagArrayWrite =>
      let* l := level in record_tag_write now c addr l chunkID cacheSet entry
  | AtomicALUOperation =>
      let* a := (if m_resource_stalls (cfg c)
                 then ALUFreeListArray.reserve now (atomicALUArray c) addr
                 else Ok (atomicALUArray c)) in
      Ok (count numAtomicALUOperations (set_arrays c (dataArray c) (tagArray c) a))
  | CacheRequestType_NUM => Ok c
  end.

Definition checkResourceAvailable (now : Z) (c : t S) (r : CacheResourceType) (addr : Z)
    : res (bool * t S) :=
  if negb (m_resource_stalls (cfg c)) then Ok (true, c)
  else match r with
  | TagArray =>
      let* set := addressToCacheSet c addr in
      let* b := BankedArray.tryAccess now (tagArray c) set in
      Ok (b, if b then c else count numTagArrayStalls c)
  | DataArray =>
      let* set := addressToCacheSet c addr in
      let* b := BankedArray.tryAccess now (dataArray c) set in
      Ok (b, if b then c else count numDataArrayStalls c)
  | AtomicALUArray =>
      let* (b, a) := ALUFreeListArray.tryAccess now (atomicALUArray c) addr in
      let c := set_arrays c (dataArray c) (tagArray c) a in
      Ok (b, if b then c else count numAtomicALUArrayStalls c)
  | CacheResourceType_NUM => Err EPanic
  end.

Definition basic_latency (l : LatencyType) (requestType : CacheRequestType) : Z :=
  match requestType with
  | DataArrayRead => read_latency (data l)
  | DataArrayWrite => write_latency (data l)
  | TagArrayRead => read_latency (tag l)
  | TagArrayWrite => write_latency (tag l)
  | _ => 1
  end.

Definition getRetentionLatency (now : Z) (c : t S) (requestType : CacheRequestType)
    (address : Z) : res (Z * t S) :=
  let* cacheSet := addressToCacheSet c address in
  let* zone := getRetentionZone (cfg c) cacheSet in
  let* basic :=
    (if zone =? -1 then Ok 1
     else match requestType with
          | AtomicALUOperation | CacheRequestType_NUM => Ok 1
          | _ => rmap (λ l, basic_latency l requestType)
                   (vget (m_retention_table (cfg c)) zone)
          end) in
  let* bankFreeTick :=
    BankedArray.getBankEndTime
      (match requestType with
       | DataArrayRead | DataArrayWrite => dataArray c
       | _ => tagArray c
       end) cacheSet in
  if now <? bankFreeTick then
    let* cycles := IntMath.divCeil (u64 (bankFreeTick - now)) (clockPeriod (m_ruby_system (cfg c))) in
    Ok (cycles, count m_data_array_stalls c)
  else Ok (basic, c).

End Operations.

End CacheMemory.
