(* ===== verification/CacheGeometry.v ===== *)
(** Where a cache puts an address: the retention zone of a set, the set an
    address is routed to (with redirection and the walk inside the zone) and
    the packing of a position into the tag index. *)

From stdpp Require Import prelude gmap.
From Stdlib Require Import ZArith Lia.
From S2P Require Import Prelude Bits SatCounter Replacement Resources CacheEntry.
From S2P Require Import CacheMemory.

Import CacheMemory.
Open Scope Z_scope.

(** ** Well-formed configurations *)

Definition zone_size (g : Config) : Z := m_cache_num_sets g / m_num_of_retention_zones g.

(** What the constructor and [init] establish ([init_config_wf]), for caches of
    at most 65536 sets and ways whose number of sets is a multiple of 4. *)
Record cfg_wf (g : Config) : Prop := {
  wf_sets : 4 ≤ m_cache_num_sets g ≤ 2 ^ 16;
  wf_chunks : (4 | m_cache_num_sets g);
  wf_set_bits : m_cache_num_set_bits g = Z.log2 (m_cache_num_sets g);
  wf_assoc : 1 ≤ m_cache_assoc g ≤ 2 ^ 16;
  wf_start : 0 ≤ m_start_index_bit g ≤ 47;
  wf_block : 1 ≤ m_block_size g < 2 ^ 31;
  wf_zones : 1 ≤ m_num_of_retention_zones g ≤ 4;
  wf_thresholds : m_thresholds g =
    push_thresholds (Z.to_nat (m_num_of_retention_zones g)) (zone_size g) (zone_size g);
  wf_table : zlen (m_retention_table g) = m_num_of_retention_zones g }.

(** An address that starts a line. *)
Definition line_addr (g : Config) (a : Z) : Prop :=
  0 ≤ a < 2 ^ 64 ∧ makeLineAddress g a = Ok a.

(** The page tables of the redirection: 4-bit counters, and offsets inside a
    zone. *)
Definition pages_wf {S} (c : t S) : Prop :=
  (∀ page k, m_chunk_counters c !! page = Some k → sat_wf 8 k ∧ maxVal k = 15) ∧
  (∀ page off, m_chunk_redirection_table c !! page = Some off →
     0 ≤ off < zone_size (cfg c)).

(** ** Zones *)

Lemma push_thresholds_length n th s : length (push_thresholds n th s) = n.
Proof. revert s. induction n as [|n IH]; intros s; simpl; [done|by rewrite IH]. Qed.

Lemma push_thresholds_lookup n th s i :
  (i < n)%nat → push_thresholds n th s !! i = Some (s + Z.of_nat i * th).
Proof.
  revert s i. induction n as [|n IH]; intros s [|i] Hi; simpl; try lia.
  - f_equal. lia.
  - rewrite IH by lia. f_equal. lia.
Qed.

Section Zones.
Context (g : Config) (Hg : cfg_wf g).

Lemma zone_size_pos : 1 ≤ zone_size g.
Proof using Hg.
  destruct Hg. unfold zone_size. apply Z.div_le_lower_bound; lia.
Qed.

Lemma threshold_get i :
  0 ≤ i < m_num_of_retention_zones g → vget (m_thresholds g) i = Ok ((i + 1) * zone_size g).
Proof using Hg.
  intros Hi. apply vget_Ok. split; [lia|]. rewrite (wf_thresholds g Hg).
  rewrite push_thresholds_lookup by lia. f_equal. rewrite Z2Nat.id by lia. lia.
Qed.

Lemma find_zone_spec n i set :
  0 ≤ i → i + Z.of_nat n = m_num_of_retention_zones g → i * zone_size g ≤ set →
  find_zone n i set g = Ok (Z.min (set / zone_size g) (m_num_of_retention_zones g - 1)).
Proof using Hg.
  pose proof zone_size_pos as Hz. revert i. induction n as [|n IH]; intros i Hi Hn Hs; simpl.
  { f_equal. assert (m_num_of_retention_zones g ≤ set / zone_size g) by
      (apply Z.div_le_lower_bound; nia). lia. }
  rewrite threshold_get by lia. simpl. destruct (Z.ltb_spec set ((i + 1) * zone_size g)).
  - f_equal. assert (set / zone_size g = i) as ->; [|lia].
    symmetry. apply (Z.div_unique _ _ _ (set - i * zone_size g)); nia.
  - apply IH; lia.
Qed.

Lemma getRetentionZone_min set :
  0 ≤ set →
  getRetentionZone g set = Ok (Z.min (set / zone_size g) (m_num_of_retention_zones g - 1)).
Proof using Hg. intros Hs. destruct Hg. apply find_zone_spec; lia. Qed.

Lemma zone_range set z :
  0 ≤ set → getRetentionZone g set = Ok z → 0 ≤ z < m_num_of_retention_zones g.
Proof using Hg.
  intros Hs. rewrite getRetentionZone_min by done. intros [= <-].
  pose proof zone_size_pos. pose proof (Z.div_pos set (zone_size g)). destruct Hg. lia.
Qed.

Lemma level_get set :
  0 ≤ set → ∃ z l, getRetentionZone g set = Ok z ∧ 0 ≤ z < m_num_of_retention_zones g ∧
    vget (m_retention_table g) z = Ok l.
Proof using Hg.
  intros Hs. pose proof (getRetentionZone_min set Hs) as Hz.
  pose proof (zone_range set _ Hs Hz) as Hr. eexists _.
  destruct (vget_inbounds (m_retention_table g)
    (Z.min (set / zone_size g) (m_num_of_retention_zones g - 1))) as (l & Hl & _).
  { destruct Hg. lia. }
  exists l. split; [done|]. split; [done|done].
Qed.

Lemma zone_time_Ok set : 0 ≤ set → ∃ tm, zone_time g set = Ok tm.
Proof using Hg.
  intros Hs. destruct (level_get set Hs) as (z & l & Hz & _ & Hl).
  exists (time l). unfold zone_time. rewrite Hz. cbn [rbind]. by rewrite Hl.
Qed.

End Zones.

Lemma makeLineAddress_line g a :
  cfg_wf g → 0 ≤ a < 2 ^ 64 →
  let l := a - a mod 2 ^ Z.log2 (m_block_size g) in
  makeLineAddress g a = Ok l ∧ line_addr g l.
Proof.
  intros [? ? ? ? ? Hb ? ? ?] Ha l. unfold line_addr, makeLineAddress.
  rewrite floorLog2_log2; [|set_solver|simpl; lia]. cbn [rbind].
  assert (Z.log2 (m_block_size g) < 31) by (apply Z.log2_lt_pow2; lia).
  pose proof (Z.log2_nonneg (m_block_size g)).
  destruct (makeLineAddress_spec a (Z.log2 (m_block_size g))) as [-> Hi]; [lia..|].
  assert (0 < 2 ^ Z.log2 (m_block_size g)) by (apply Z.pow_pos_nonneg; lia).
  pose proof (Z.mod_pos_bound a (2 ^ Z.log2 (m_block_size g))).
  pose proof (Z.mod_le a (2 ^ Z.log2 (m_block_size g))). subst l. split_and!; [done|lia..|done].
Qed.

(** ** Routing *)

Lemma int_rem_Ok a b : 0 ≤ a → 0 < b → int_rem a b = Ok (a mod b).
Proof.
  intros. unfold int_rem. rewrite (proj2 (Z.eqb_neq b 0)) by lia. simpl.
  by rewrite Z.rem_mod_nonneg by lia.
Qed.

(** The walk moves inside the zone of its start. *)
Lemma walk_spec base z off :
  1 ≤ z → 0 ≤ base < 2 ^ 30 → 0 ≤ off < 2 ^ 30 → z ≤ 2 ^ 30 →
  ∃ s, walk base z off = Ok s ∧ s / z = base / z ∧
    s = z * (base / z) + (base mod z + off) mod z ∧ 0 ≤ s.
Proof.
  intros Hz Hb Ho Hz'. unfold walk. pose proof (Z.div_mod base z) as Hdm.
  pose proof (Z.mod_pos_bound base z). pose proof (Z.div_pos base z).
  destruct (Z.ltb_spec 0 off) as [Hpos|].
  - rewrite (proj2 (Z.eqb_neq z 0)) by lia. cbn [rbind require negb].
    rewrite Z.quot_div_nonneg, Z.rem_mod_nonneg by lia.
    rewrite !i32_small by nia. rewrite chk_i32_Ok by lia. cbn [rbind].
    rewrite int_rem_Ok by lia. cbn [rbind].
    pose proof (Z.mod_pos_bound (base mod z + off) z).
    pose proof (Z.mod_le base z). pose proof (Z.mod_le (base mod z + off) z).
    rewrite chk_i32_Ok by nia. eexists. split; [done|]. split; [|nia].
    symmetry. apply (Z.div_unique _ _ _ ((base mod z + off) mod z)); lia.
  - exists base. assert (off = 0) as -> by lia. rewrite Z.add_0_r, Z.mod_mod by lia.
    split_and!; [done|done|lia|lia].
Qed.

Section Routing.
Context {S : Type} (c : t S).
Let g := cfg c.
Context (Hg : cfg_wf g) (Hpages : pages_wf c).

Lemma getDefaultSet_range a :
  0 ≤ a → ∃ s, getDefaultSet g a = Ok s ∧ 0 ≤ s < m_cache_num_sets g ∧
    s = (a / 2 ^ m_start_index_bit g) mod 2 ^ m_cache_num_set_bits g.
Proof using Hg.
  intros Ha. destruct Hg. pose proof (Z.log2_spec (m_cache_num_sets g)) as Hlog.
  assert (1 < m_cache_num_sets g) by lia.
  assert (1 ≤ Z.log2 (m_cache_num_sets g)) by (apply (Z.log2_le_pow2); lia).
  assert (Z.log2 (m_cache_num_sets g) ≤ 16) by (apply (Z.log2_le_mono _ (2 ^ 16)); lia).
  unfold getDefaultSet. rewrite wf_set_bits0. unfold Address.bitSelect.
  rewrite !u32_small by lia. rewrite (proj2 (Z.leb_le _ _)) by lia. cbn [rbind require].
  rewrite bits_Ok by lia.
  replace (m_start_index_bit g + Z.log2 (m_cache_num_sets g) - 1 - m_start_index_bit g + 1)
    with (Z.log2 (m_cache_num_sets g)) by lia.
  eexists. split; [done|]. split; [|done].
  pose proof (Z.mod_pos_bound (a / 2 ^ m_start_index_bit g)
                (2 ^ Z.log2 (m_cache_num_sets g))). lia.
Qed.

Lemma intra_offset_range page k :
  m_chunk_counters c !! page = Some k → 0 ≤ intra_offset (counter k) ≤ 7.
Proof using Hpages.
  intros Hk. destruct Hpages as [Hc _]. destruct (Hc _ _ Hk) as [(? & ? & ?) Hm].
  unfold intra_offset. rewrite Z.quot_div_nonneg by lia.
  pose proof (Z.div_pos (counter k) 2). destruct (Z.ltb_spec 7 (counter k / 2)); lia.
Qed.

Lemma four_zones : m_num_of_retention_zones g = 4 → m_cache_num_sets g = 4 * zone_size g.
Proof using Hg.
  intros H4. unfold zone_size. rewrite H4. destruct (wf_chunks g Hg) as [k ->].
  rewrite Z.div_mul by lia. lia.
Qed.

(** The zone of the set [redirect_base] gives: two zones below, or the same if
    there are not two below. *)
Lemma redirect_base_spec a s redir :
  m_num_of_retention_zones g = 4 → 0 ≤ s < m_cache_num_sets g → 0 ≤ redir < zone_size g →
  let z := s / zone_size g in
  ∃ s', redirect_base g a s (zone_size g) redir = Ok s' ∧ 0 ≤ s' < m_cache_num_sets g ∧
    s' / zone_size g = if 2 <=? z then z - 2 else z.
Proof using Hg.
  intros H4 Hs Hr. cbv zeta. pose proof (zone_size_pos g Hg) as Hz.
  pose proof (four_zones H4) as Hn. pose proof (wf_sets g Hg).
  unfold redirect_base. set (bo := Z.land _ _).
  assert (0 ≤ bo < 64) as Hbo.
  { unfold bo. change 0x3F with (Z.ones 6). rewrite Z.land_ones by lia.
    apply Z.mod_pos_bound. lia. }
  rewrite chk_i32_Ok by lia. cbn [rbind]. rewrite int_rem_Ok by lia. cbn [rbind].
  rewrite !threshold_get by (done || lia). cbn [rbind].
  pose proof (Z.mod_pos_bound (redir + bo * 7) (zone_size g)) as Hm.
  set (o := (redir + bo * 7) mod zone_size g) in *.
  destruct (Z.leb_spec ((2 + 1) * zone_size g) s).
  - rewrite chk_i32_Ok by lia. cbn [rbind]. eexists. split; [done|]. split; [lia|].
    assert (s / zone_size g = 3) as ->.
    { symmetry. apply (Z.div_unique _ _ _ (s - 3 * zone_size g)); lia. }
    symmetry. apply (Z.div_unique _ _ _ o); simpl; lia.
  - destruct (Z.leb_spec ((1 + 1) * zone_size g) s).
    + eexists. split; [done|]. split; [lia|]. rewrite Z.div_small by lia.
      assert (s / zone_size g = 2) as ->; [|done].
      symmetry. apply (Z.div_unique _ _ _ (s - 2 * zone_size g)); lia.
    + eexists. split; [done|]. split; [lia|].
      rewrite (proj2 (Z.leb_gt 2 (s / zone_size g))); [done|].
      apply Z.div_lt_upper_bound; lia.
Qed.

(** Whether the page of [a] has been redirected. *)
Definition redirected (a : Z) : bool :=
  m_lazy_redirection_scheme g && (m_num_of_retention_zones g =? 4)
  && match m_chunk_redirection_table c !! Z.shiftr a 12 with Some _ => true | None => false end.

(** The set an address is routed to, with its zone (counted in sets per zone,
    so that the last zone may be longer when the cache has three zones). *)
Lemma route_spec a :
  line_addr g a →
  ∃ d s, getDefaultSet g a = Ok d ∧ addressToCacheSet c a = Ok s ∧
    0 ≤ d < m_cache_num_sets g ∧ 0 ≤ s < m_cache_num_sets g ∧
    s / zone_size g =
      if redirected a && (2 <=? d / zone_size g) then d / zone_size g - 2
      else d / zone_size g.
Proof using Hg Hpages.
  intros [Ha Hl]. destruct (getDefaultSet_range a ltac:(lia)) as (d & Hd & Hdr & _).
  exists d. unfold addressToCacheSet, redirected. fold g. rewrite Hl, Hd. cbn [rbind].
  rewrite Z.eqb_refl. cbn [rbind require].
  destruct (m_lazy_redirection_scheme g); [|by exists d]. cbn [negb orb andb].
  destruct (Z.eqb_spec (m_num_of_retention_zones g) 4) as [H4|]; [|by exists d].
  cbn [negb andb]. pose proof (zone_size_pos g Hg). pose proof (four_zones H4).
  pose proof (wf_sets g Hg).
  rewrite (threshold_get g Hg 0) by lia. rewrite Z.mul_1_l. cbn [rbind].
  destruct Hpages as [_ Hred].
  assert (∃ b, match m_chunk_redirection_table c !! Z.shiftr a 12 with
     | Some redir => redirect_base g a d (zone_size g) redir | None => Ok d end = Ok b ∧
     0 ≤ b < m_cache_num_sets g ∧ b / zone_size g =
       if match m_chunk_redirection_table c !! Z.shiftr a 12 with
          | Some _ => true | None => false end && (2 <=? d / zone_size g)
       then d / zone_size g - 2 else d / zone_size g) as (b & -> & Hb & Hbz).
  { destruct (m_chunk_redirection_table c !! _) as [r|] eqn:E; [|by exists d].
    by apply redirect_base_spec, (Hred _ _ E). }
  cbn [rbind]. rewrite <- Hbz.
  destruct (m_chunk_counters c !! Z.shiftr a 12) as [k|] eqn:Ek; [|by exists b].
  pose proof (intra_offset_range _ _ Ek).
  destruct (walk_spec b (zone_size g) (intra_offset (counter k))) as (s & Hs & Hsz & Hse & ?);
    [lia..|]. exists s.
  assert (s / zone_size g < 4) by (rewrite Hsz; apply Z.div_lt_upper_bound; lia).
  pose proof (Z.div_mod s (zone_size g)). pose proof (Z.mod_pos_bound s (zone_size g)).
  split_and!; try done; try lia; nia.
Qed.

Lemma addressToCacheSet_Ok a :
  line_addr g a → ∃ s, addressToCacheSet c a = Ok s ∧ 0 ≤ s < m_cache_num_sets g.
Proof using Hg Hpages. intros Ha. destruct (route_spec a Ha) as (d & s & ?); naive_solver. Qed.

End Routing.

(** ** The packing of a position *)

Lemma lor_shiftl_add a b n : 0 ≤ n → 0 ≤ b < 2 ^ n → Z.lor (Z.shiftl a n) b = a * 2 ^ n + b.
Proof.
  intros Hn Hb. assert (Z.land (Z.shiftl a n) b = 0) as H0.
  { apply Z.bits_inj. intros i. rewrite Z.land_spec, Z.bits_0.
    destruct (decide (i < n)); [by rewrite Z.shiftl_spec_low|].
    rewrite (testbit_high b n i) by lia. apply andb_false_r. }
  rewrite <- Z.lxor_lor, <- Z.add_nocarry_lxor by done. by rewrite Z.shiftl_mul_pow2.
Qed.

Lemma encode_mod set way :
  0 ≤ way < 2 ^ 16 → ∃ k, encode set way = set * 2 ^ 16 + way + k * 2 ^ 32.
Proof.
  intros Hw. unfold encode, i32. change 0xFFFF with (Z.ones 16).
  rewrite Z.land_ones, (Z.mod_small way) by lia. rewrite lor_shiftl_add by lia.
  set (x := set * 2 ^ 16 + way). exists (- ((x + 2 ^ 31) / 2 ^ 32)).
  pose proof (Z.div_mod (x + 2 ^ 31) (2 ^ 32)). lia.
Qed.

Lemma encode_decode set way :
  0 ≤ set < 2 ^ 16 → 0 ≤ way < 2 ^ 16 →
  decode_set (encode set way) = set ∧ decode_way (encode set way) = way.
Proof.
  intros Hs Hw. destruct (encode_mod set way Hw) as [k ->].
  unfold decode_set, decode_way. change 0xFFFF with (Z.ones 16).
  rewrite !Z.land_ones, Z.shiftr_div_pow2 by lia.
  replace (set * 2 ^ 16 + way + k * 2 ^ 32) with (way + (set + k * 2 ^ 16) * 2 ^ 16) by lia.
  rewrite Z.div_add, Z.mod_add, Z.div_small, Z.add_0_l, Z.mod_add by lia.
  rewrite !Z.mod_small by lia. done.
Qed.

Lemma encode_inj s w s' w' :
  0 ≤ s < 2 ^ 16 → 0 ≤ w < 2 ^ 16 → 0 ≤ s' < 2 ^ 16 → 0 ≤ w' < 2 ^ 16 →
  encode s w = encode s' w' → s = s' ∧ w = w'.
Proof.
  intros Hs Hw Hs' Hw' E. destruct (encode_decode s w Hs Hw) as [Es Ew].
  destruct (encode_decode s' w' Hs' Hw') as [Es' Ew']. rewrite E in Es, Ew. split; congruence.
Qed.
