(* ===== verification/CacheInv.v ===== *)
(** The invariant of a cache and its preservation: the slots, the store of
    lines, the tag index, the replacement data, the page tables and the arrays
    agree with each other, and no operation that the protocol may call breaks
    the agreement, dereferences a dangling pointer or fails an assertion. *)

From stdpp Require Import prelude gmap.
From Stdlib Require Import ZArith Lia.
From S2P Require Import Prelude Bits SatCounter Replacement ReplacementSpec Resources.
From S2P Require Import CacheEntry CacheMemory CacheGeometry.

Import CacheMemory.
Open Scope Z_scope.

(** ** The invariant *)

Definition pos_ok (g : Config) (set way : Z) : Prop :=
  0 ≤ set < m_cache_num_sets g ∧ 0 ≤ way < m_cache_assoc g.

(** The creation index of the replacement data of a position. *)
Definition handle (g : Config) (set way : Z) : nat :=
  (Z.to_nat set * Z.to_nat (m_cache_assoc g) + Z.to_nat way)%nat.

Definition num_lines (g : Config) : nat :=
  (Z.to_nat (m_cache_num_sets g) * Z.to_nat (m_cache_assoc g))%nat.

(** The tag index knows [a], and the position it names holds a line for [a]. *)
Record indexed {S} (c : t S) (a set way : Z) (p : ptr) (e : Entry) : Prop := {
  ix_pos : pos_ok (cfg c) set way;
  ix_code : m_tag_index c !! a = Some (encode set way);
  ix_slot : slot c set way = Ok (Some p);
  ix_heap : heap c !! p = Some e;
  ix_addr : m_Address e = a }.

(** The arrays and the counters that go with the sets. *)
Record arrays_ok {S} (c : t S) : Prop := {
  ok_data : banked_wf (dataArray c);
  ok_tag : banked_wf (tagArray c);
  ok_alu : 0 ≤ ALUFreeListArray.m_block_size_bits (atomicALUArray c) < 64;
  ok_chunk : zlen (m_chunk c) = m_cache_num_sets (cfg c) / 4;
  ok_per_set : zlen (vectors (stats c) m_accesses_per_set) = m_cache_num_sets (cfg c);
  ok_reads : zlen (vectors (stats c) m_chunk_reads) = m_cache_num_sets (cfg c) / 4;
  ok_writes : zlen (vectors (stats c) m_chunk_writes) = m_cache_num_sets (cfg c) / 4;
  ok_clock : 0 < clockPeriod (m_ruby_system (cfg c)) }.

Record inv {S} `{PolicyInv S} (c : t S) : Prop := {
  inv_cfg : cfg_wf (cfg c);
  inv_pages : pages_wf c;
  inv_rows : zlen (m_cache c) = m_cache_num_sets (cfg c);
  inv_ways : ∀ i row, m_cache c !! i = Some row → zlen row = m_cache_assoc (cfg c);
  inv_rd : ∀ set way, pos_ok (cfg c) set way →
    (let* row := vget (replacement_data c) set in vget row way)
      = Ok (handle (cfg c) set way);
  inv_policy : pol_inv (num_lines (cfg c)) (policy c);
  inv_lines : ∀ set way p, slot c set way = Ok (Some p) →
    ∃ e, heap c !! p = Some e ∧ replacementData e = Some (handle (cfg c) set way);
  inv_index : ∀ a x, m_tag_index c !! a = Some x → ∃ set way p e, indexed c a set way p e;
  inv_present : ∀ set way p e, slot c set way = Ok (Some p) → heap c !! p = Some e →
    m_Permission e ≠ NotPresent → m_tag_index c !! m_Address e = Some (encode set way);
  inv_arrays : arrays_ok c }.

(** An object the protocol has allocated and not yet given to the cache. *)
Definition fresh {S} (c : t S) (p : ptr) : Prop :=
  is_Some (heap c !! p) ∧ ∀ set way, slot c set way ≠ Ok (Some p).

(** ** Positions *)

Section Positions.
Context {S : Type} `{PolicyInv S} (c : t S) (Hc : inv c).

Lemma slot_Ok set way : pos_ok (cfg c) set way → ∃ x, slot c set way = Ok x.
Proof using Hc.
  intros [Hs Hw]. unfold slot.
  destruct (vget_inbounds (m_cache c) set) as (row & Hr & Hlk); [by rewrite inv_rows|].
  rewrite Hr. cbn [rbind].
  destruct (vget_inbounds row way) as (x & Hx & _); [|by exists x].
  by rewrite (inv_ways c Hc _ _ Hlk).
Qed.

Lemma slot_bounds set way x : slot c set way = Ok x → pos_ok (cfg c) set way.
Proof using Hc.
  unfold slot. intros (row & Hr & Hx)%rbind_Ok. split.
  - apply vget_bounds in Hr. by rewrite inv_rows in Hr.
  - apply vget_bounds in Hx. apply vget_Ok in Hr as [_ Hr].
    by rewrite (inv_ways c Hc _ _ Hr) in Hx.
Qed.

Lemma handle_inj set way set' way' :
  pos_ok (cfg c) set way → pos_ok (cfg c) set' way' →
  handle (cfg c) set way = handle (cfg c) set' way' → set = set' ∧ way = way'.
Proof using.
  clear. unfold pos_ok, handle. intros [? ?] [? ?] E.
  assert (Z.to_nat set = Z.to_nat set') as Es by nia.
  rewrite Es in E. lia.
Qed.

Lemma handle_lt set way : pos_ok (cfg c) set way → (handle (cfg c) set way < num_lines (cfg c))%nat.
Proof using. clear. unfold pos_ok, handle, num_lines. intros [? ?]. nia. Qed.

Lemma pos_16 set way : pos_ok (cfg c) set way → 0 ≤ set < 2 ^ 16 ∧ 0 ≤ way < 2 ^ 16.
Proof using Hc. intros [? ?]. destruct (inv_cfg c Hc). lia. Qed.

(** Each line is in one slot only. *)
Lemma slot_inj set way set' way' p :
  slot c set way = Ok (Some p) → slot c set' way' = Ok (Some p) → set = set' ∧ way = way'.
Proof using Hc.
  intros Hs Hs'. destruct (inv_lines c Hc _ _ _ Hs) as (e & He & Hh).
  destruct (inv_lines c Hc _ _ _ Hs') as (e' & He' & Hh').
  apply handle_inj; [by eapply slot_bounds..|congruence].
Qed.

Lemma indexed_inj a set way p e set' way' p' e' :
  indexed c a set way p e → indexed c a set' way' p' e' →
  set = set' ∧ way = way' ∧ p = p' ∧ e = e'.
Proof using Hc.
  intros [P C L E A] [P' C' L' E' A'].
  destruct (pos_16 _ _ P), (pos_16 _ _ P').
  assert (encode set way = encode set' way') as Ec by congruence.
  apply encode_inj in Ec as [-> ->]; [|done..]. split_and!; congruence.
Qed.

(** [find_indexed] agrees with the index. *)
Lemma find_indexed_spec ok s a :
  line_addr (cfg c) a →
  (m_tag_index c !! a = None ∧ find_indexed ok c s a = Ok (-1, s)) ∨
  ∃ set way p e, indexed c a set way p e ∧
    find_indexed ok c s a = Ok (if ok e then (way, set) else (-1, s)).
Proof using Hc.
  intros [Ha Hl]. unfold find_indexed. rewrite Hl. cbn [rbind]. rewrite Z.eqb_refl.
  cbn [rbind require]. destruct (m_tag_index c !! a) as [x|] eqn:Ex; [right|by left].
  destruct (inv_index c Hc _ _ Ex) as (set & way & p & e & Hix).
  exists set, way, p, e. split; [done|]. destruct Hix as [P C L E A].
  assert (x = encode set way) as -> by congruence.
  destruct (pos_16 _ _ P) as [? ?].
  destruct (encode_decode set way) as [-> ->]; [done..|]. rewrite L. cbn [rbind].
  rewrite (proj2 (deref_Ok _ _ _) E). cbn [rbind]. rewrite A, Z.eqb_refl. simpl.
  by destruct (ok e).
Qed.

Lemma indexed_find ok s a set way p e :
  line_addr (cfg c) a → indexed c a set way p e →
  find_indexed ok c s a = Ok (if ok e then (way, set) else (-1, s)).
Proof using Hc.
  intros Ha Hix. destruct (find_indexed_spec ok s a Ha) as [[Hn _]|(s' & w' & p' & e' & Hix' & ->)].
  - destruct Hix. congruence.
  - by destruct (indexed_inj _ _ _ _ _ _ _ _ _ Hix Hix') as (-> & -> & -> & ->).
Qed.

Lemma way_neq a set way p e : indexed c a set way p e → (way =? -1) = false.
Proof using. intros [[_ ?] _ _ _ _]. apply Z.eqb_neq. lia. Qed.

End Positions.

(** ** Primitive updates *)

Create HintDb cache.

Section Updates.
Context {S : Type} `{ReplacementPolicy S} `{!PolicyInv S}.
Implicit Types c : t S.

(** An update of a line in place keeps the invariant when it keeps the address
    and the replacement data and does not make a line present that the index
    does not know. *)
Lemma inv_line c p e e' :
  inv c → heap c !! p = Some e → m_Address e' = m_Address e →
  replacementData e' = replacementData e →
  (m_Permission e' = m_Permission e ∨ m_Permission e' = NotPresent ∨
   ∃ set way, indexed c (m_Address e) set way p e) →
  inv (set_heap c (<[p := e']> (heap c))).
Proof.
  intros Hc He Ha Hr Hp. constructor; simpl; try apply Hc.
  - intros set way q Hq. change (slot c set way = Ok (Some q)) in Hq.
    destruct (inv_lines c Hc _ _ _ Hq) as (f & Hf & Hfr).
    destruct (decide (q = p)) as [->|]; [|exists f; by rewrite lookup_insert_ne].
    exists e'. rewrite lookup_insert_eq. split; [done|]. congruence.
  - intros a x Hx. destruct (inv_index c Hc _ _ Hx) as (set & way & q & f & [P C L E A]).
    exists set, way, q. destruct (decide (q = p)) as [->|].
    + exists e'. constructor; simpl; [done..|by rewrite lookup_insert_eq|congruence].
    + exists f. constructor; simpl; [done..|by rewrite lookup_insert_ne|done].
  - intros set way q f Hq. change (slot c set way = Ok (Some q)) in Hq.
    destruct (decide (q = p)) as [->|].
    + rewrite lookup_insert_eq. intros [= <-] Hnp. rewrite Ha.
      destruct Hp as [Hp|[Hp|(s & w & [P C L E A])]]; [|done|].
      * apply (inv_present c Hc _ _ p); congruence.
      * by destruct (slot_inj c Hc _ _ _ _ _ L Hq) as [-> ->].
    + rewrite lookup_insert_ne by done. by apply (inv_present c Hc).
  - destruct (inv_arrays c Hc). by constructor.
Qed.

(** The permissions, addresses and positions of lines stay, so that an update
    leaves what [indexed] says of other lines. *)
Lemma indexed_line c a set way q f p e' :
  indexed c a set way q f → (q = p → m_Address e' = m_Address f) →
  indexed (set_heap c (<[p := e']> (heap c))) a set way q (if decide (q = p) then e' else f).
Proof.
  intros [P C L E A] Ha. constructor; simpl; [done..| |]; case_decide as Hq.
  - subst q. by rewrite lookup_insert_eq.
  - by rewrite lookup_insert_ne.
  - rewrite Ha by done. done.
  - done.
Qed.

Lemma inv_set_policy c s : inv c → pol_inv (num_lines (cfg c)) s → inv (set_policy c s).
Proof.
  intros Hc Hs. constructor; simpl; try apply Hc; [done| |].
  - intros a x Hx. destruct (inv_index c Hc _ _ Hx) as (set & way & p & e & []).
    exists set, way, p, e. by constructor.
  - destruct (inv_arrays c Hc). by constructor.
Qed.

Definition same_vectors (st st' : Stats) : Prop :=
  ∀ k, length (vectors st' k) = length (vectors st k).

Lemma inv_set_stats c st : inv c → same_vectors (stats c) st → inv (set_stats c st).
Proof.
  intros Hc Hs. constructor; simpl; try apply Hc.
  - intros a x Hx. destruct (inv_index c Hc _ _ Hx) as (set & way & p & e & []).
    exists set, way, p, e. by constructor.
  - destruct (inv_arrays c Hc). constructor; simpl; by rewrite ?Hs.
Qed.

Lemma inv_count c k : inv c → inv (count k c).
Proof. intros Hc. by apply inv_set_stats. Qed.

Lemma inv_set_arrays c d g a :
  inv c → banked_wf d → banked_wf g →
  0 ≤ ALUFreeListArray.m_block_size_bits a < 64 → inv (set_arrays c d g a).
Proof.
  intros Hc Hd Hg Ha. constructor; simpl; try apply Hc.
  - intros x y Hx. destruct (inv_index c Hc _ _ Hx) as (set & way & p & e & []).
    exists set, way, p, e. by constructor.
  - destruct (inv_arrays c Hc). by constructor.
Qed.

Lemma inv_set_chunk c ks : inv c → length ks = length (m_chunk c) → inv (set_chunk c ks).
Proof.
  intros Hc Hk. constructor; simpl; try apply Hc.
  - intros x y Hx. destruct (inv_index c Hc _ _ Hx) as (set & way & p & e & []).
    exists set, way, p, e. by constructor.
  - destruct (inv_arrays c Hc). constructor; simpl; by rewrite ?Hk.
Qed.

Lemma inv_set_redirection c k r :
  inv c → pages_wf (set_redirection c k r) → inv (set_redirection c k r).
Proof.
  intros Hc Hp. constructor; simpl; try apply Hc; [done| |].
  - intros x y Hx. destruct (inv_index c Hc _ _ Hx) as (set & way & p & e & []).
    exists set, way, p, e. by constructor.
  - destruct (inv_arrays c Hc). by constructor.
Qed.

(** Dropping an object that is in no slot. *)
Lemma inv_free c p : inv c → fresh c p → inv (set_heap c (delete p (heap c))).
Proof.
  intros Hc [_ Hf]. constructor; simpl; try apply Hc.
  - intros set way q Hq. change (slot c set way = Ok (Some q)) in Hq.
    destruct (inv_lines c Hc _ _ _ Hq) as (e & He & Hr). exists e.
    rewrite lookup_delete_ne; [done|]. intros ->. by apply (Hf _ _ Hq).
  - intros a x Hx. destruct (inv_index c Hc _ _ Hx) as (set & way & q & e & [P C L E A]).
    exists set, way, q, e. constructor; simpl; try done.
    rewrite lookup_delete_ne; [done|]. intros ->. by apply (Hf _ _ L).
  - intros set way q e Hq [_ He]%lookup_delete_Some. by apply (inv_present c Hc _ _ q).
  - destruct (inv_arrays c Hc). by constructor.
Qed.

(** An object that is not in a slot keeps the invariant whatever is written to
    it. *)
Lemma inv_heap_fresh c p e : inv c → (∀ set way, slot c set way ≠ Ok (Some p)) →
  inv (set_heap c (<[p := e]> (heap c))).
Proof.
  intros Hc Hf. constructor; simpl; try apply Hc.
  - intros set way q Hq. change (slot c set way = Ok (Some q)) in Hq.
    destruct (inv_lines c Hc _ _ _ Hq) as (f & Hf' & Hr). exists f.
    rewrite lookup_insert_ne; [done|]. intros ->. by apply (Hf _ _ Hq).
  - intros a x Hx. destruct (inv_index c Hc _ _ Hx) as (set & way & q & f & [P C L E A]).
    exists set, way, q, f. constructor; simpl; try done.
    rewrite lookup_insert_ne; [done|]. intros ->. by apply (Hf _ _ L).
  - intros set way q f Hq. change (slot c set way = Ok (Some q)) in Hq.
    rewrite lookup_insert_ne; [by apply (inv_present c Hc)|]. intros ->. by apply (Hf _ _ Hq).
  - destruct (inv_arrays c Hc). by constructor.
Qed.

(** A position may leave the index once its line is not present. *)
Lemma inv_unindex c a :
  inv c → (∀ set way p e, indexed c a set way p e → m_Permission e = NotPresent) →
  inv (set_tag_index c (delete a (m_tag_index c))).
Proof.
  intros Hc Hnp. constructor; simpl; try apply Hc.
  - intros b x [Hne Hx]%lookup_delete_Some.
    destruct (inv_index c Hc _ _ Hx) as (set & way & p & e & [P C L E A]).
    exists set, way, p, e. constructor; simpl; try done. by rewrite lookup_delete_ne.
  - intros set way p e Hs He Hp. change (slot c set way = Ok (Some p)) in Hs.
    pose proof (inv_present c Hc _ _ _ _ Hs He Hp) as Hx.
    rewrite lookup_delete_ne; [done|]. intros ->. apply Hp, (Hnp set way p e).
    constructor; [by eapply slot_bounds|done..].
  - destruct (inv_arrays c Hc). by constructor.
Qed.

End Updates.

(** ** Frames *)

(** What an operation that is no allocation and no change of permission leaves:
    the configuration, the slots, the index, and of every object its address,
    permission and replacement data. *)
Definition identity (e : Entry) : Z * AccessPermission * option nat :=
  (m_Address e, m_Permission e, replacementData e).

Record frame {S} (c c' : t S) : Prop := {
  fr_cfg : cfg c' = cfg c;
  fr_cache : m_cache c' = m_cache c;
  fr_index : m_tag_index c' = m_tag_index c;
  fr_heap : ∀ p, identity <$> heap c' !! p = identity <$> heap c !! p }.

(** The protocol's view of a cache: [a] is held by the line [p]. *)
Definition present {S} (c : t S) (a : Z) (p : ptr) : Prop :=
  ∃ set way e, indexed c a set way p e ∧ m_Permission e ≠ NotPresent.

Section Frames.
Context {S : Type} `{ReplacementPolicy S} `{!PolicyInv S}.
Implicit Types c : t S.

#[export] Instance frame_refl : Reflexive (frame (S:=S)).
Proof. by constructor. Qed.

#[export] Instance frame_trans : Transitive (frame (S:=S)).
Proof.
  intros c1 c2 c3 [? ? ? H1] [? ? ? H2]. constructor; congruence.
Qed.

#[export] Instance frame_sym : Symmetric (frame (S:=S)).
Proof. intros c1 c2 [? ? ? H1]. by constructor. Qed.

Lemma frame_slot c c' set way : frame c c' → slot c' set way = slot c set way.
Proof. intros [_ E _ _]. unfold slot. by rewrite E. Qed.

Lemma frame_entry c c' p e :
  frame c c' → heap c !! p = Some e → ∃ e', heap c' !! p = Some e' ∧ identity e' = identity e.
Proof.
  intros Hf He. pose proof (fr_heap _ _ Hf p) as Hp. rewrite He in Hp. simpl in Hp.
  apply fmap_Some in Hp as (e' & -> & E). eauto.
Qed.

Lemma frame_indexed c c' a set way p e :
  frame c c' → indexed c a set way p e →
  ∃ e', indexed c' a set way p e' ∧ identity e' = identity e.
Proof.
  intros Hf [P C L E A]. destruct (frame_entry _ _ _ _ Hf E) as (e' & He' & Hi).
  exists e'. split; [|done]. constructor.
  - by rewrite (fr_cfg _ _ Hf).
  - by rewrite (fr_index _ _ Hf).
  - by rewrite (frame_slot _ _ _ _ Hf).
  - done.
  - unfold identity in Hi. congruence.
Qed.

Lemma frame_present c c' a p : frame c c' → present c a p ↔ present c' a p.
Proof.
  assert (∀ c c', frame c c' → present c a p → present c' a p) as Hone.
  { intros c1 c2 Hf (set & way & e & Hix & Hp).
    destruct (frame_indexed _ _ _ _ _ _ _ Hf Hix) as (e' & Hix' & Hi).
    exists set, way, e'. split; [done|]. unfold identity in Hi. congruence. }
  intros Hf. split; apply Hone; [done|by symmetry].
Qed.

(** The updates that are frames. *)
Lemma frame_line c p e e' :
  heap c !! p = Some e → identity e' = identity e →
  frame c (set_heap c (<[p := e']> (heap c))).
Proof.
  intros He Hi. constructor; simpl; [done..|]. intros q.
  destruct (decide (q = p)) as [->|]; [|by rewrite lookup_insert_ne].
  rewrite lookup_insert_eq, He. simpl. by rewrite Hi.
Qed.

Lemma frame_policy c s : frame c (set_policy c s).
Proof. by constructor. Qed.
Lemma frame_stats c s : frame c (set_stats c s).
Proof. by constructor. Qed.
Lemma frame_count c k : frame c (count k c).
Proof. by constructor. Qed.
Lemma frame_arrays c d g a : frame c (set_arrays c d g a).
Proof. by constructor. Qed.
Lemma frame_chunk c k : frame c (set_chunk c k).
Proof. by constructor. Qed.
Lemma frame_redirection c k r : frame c (set_redirection c k r).
Proof. by constructor. Qed.

(** A line that is updated keeping its identity. *)
Lemma modify_line c p e f :
  inv c → heap c !! p = Some e → identity (f e) = identity e →
  ∃ c', modify c p f = Ok c' ∧ inv c' ∧ frame c c' ∧ heap c' !! p = Some (f e).
Proof.
  intros Hc He Hi. unfold modify. rewrite (update_lookup _ _ _ _ He). simpl.
  eexists. split; [done|]. unfold identity in Hi. split_and!.
  - apply (inv_line c p e); try done; [congruence..|]. left. congruence.
  - by apply (frame_line c p e).
  - simpl. by rewrite lookup_insert_eq.
Qed.

(** A call of the policy on a line of the cache. *)
Lemma with_data_line c set way p (f : nat → S → res S) :
  inv c → slot c set way = Ok (Some p) →
  (∀ n s h, pol_inv n s → (h < n)%nat → ∃ s', f h s = Ok s' ∧ pol_inv n s') →
  ∃ s, with_data c p f = Ok (set_policy c s) ∧ inv (set_policy c s).
Proof.
  intros Hc Hs Hf. destruct (inv_lines c Hc _ _ _ Hs) as (e & He & Hr).
  pose proof (handle_lt c _ _ (slot_bounds c Hc _ _ _ Hs)) as Hlt.
  destruct (Hf _ _ _ (inv_policy c Hc) Hlt) as (s & Hs' & Hinv).
  exists s. unfold with_data. rewrite (proj2 (deref_Ok _ _ _) He). cbn [rbind].
  rewrite Hr. cbn [rbind of_option]. rewrite Hs'. split; [done|]. by apply inv_set_policy.
Qed.

End Frames.

#[export] Hint Resolve frame_policy frame_stats frame_count frame_arrays frame_chunk
  frame_redirection inv_count inv_set_policy : cache.

(** ** Loops over all lines *)

(** Both loops over the lines update every object they meet by a step of [R] and
    leave the others. *)
Section Loops.
Context (R : Entry → Entry → Prop) `{!PreOrder R} (f : Entry → Entry) (Hf : ∀ e, R e (f e)).

Definition store_rel (h h' : store) : Prop :=
  (∀ p e, h !! p = Some e → ∃ e', h' !! p = Some e' ∧ R e e') ∧
  (∀ p, h !! p = None → h' !! p = None).

Lemma store_rel_refl h : store_rel h h.
Proof using PreOrder0. split; [|done]. intros p e He. exists e. split; [done|reflexivity]. Qed.

Lemma store_rel_update h h' p e :
  h !! p = Some e → store_rel (<[p := f e]> h) h' → store_rel h h'.
Proof using PreOrder0 Hf.
  intros He [H1 H2]. split.
  - intros q x Hq. destruct (decide (q = p)) as [->|].
    + destruct (H1 p (f e)) as (e' & He' & Hr); [by rewrite lookup_insert_eq|].
      exists e'. split; [done|]. assert (x = e) as -> by congruence. etransitivity; [apply Hf|done].
    + apply H1. by rewrite lookup_insert_ne.
  - intros q Hq. apply H2. rewrite lookup_insert_ne; [done|]. intros ->. congruence.
Qed.

Lemma htm_lines_rel h lines r w :
  (∀ p, Some p ∈ lines → is_Some (h !! p)) →
  ∃ r' w' h', htm_lines f h lines r w = Ok (r', w', h') ∧ store_rel h h'.
Proof using PreOrder0 Hf.
  revert h r w. induction lines as [|[p|] lines IH]; intros h r w Hl; simpl.
  - eexists _, _, _. split; [done|]. apply store_rel_refl.
  - destruct (Hl p) as [e He]; [set_solver|].
    rewrite (proj2 (deref_Ok _ _ _) He). cbn [rbind]. rewrite (update_lookup _ _ _ _ He).
    cbn [rbind]. edestruct (IH (<[p := f e]> h)) as (r' & w' & h' & -> & Hr).
    { intros q Hq. rewrite lookup_insert_is_Some'. right. apply Hl. set_solver. }
    eexists _, _, _. split; [done|]. by eapply store_rel_update.
  - apply IH. set_solver.
Qed.

Lemma each_line_rel h lines :
  (∀ p, Some p ∈ lines → is_Some (h !! p)) →
  ∃ h', each_line f h lines = Ok h' ∧ store_rel h h'.
Proof using PreOrder0 Hf.
  revert h. induction lines as [|[p|] lines IH]; intros h Hl; simpl.
  - eexists. split; [done|]. apply store_rel_refl.
  - destruct (Hl p) as [e He]; [set_solver|]. rewrite (update_lookup _ _ _ _ He).
    cbn [rbind]. edestruct (IH (<[p := f e]> h)) as (h' & -> & Hr).
    { intros q Hq. rewrite lookup_insert_is_Some'. right. apply Hl. set_solver. }
    eexists. split; [done|]. by eapply store_rel_update.
  - apply IH. set_solver.
Qed.

End Loops.

(** ** Operations on lines *)

Section LineOperations.
Context {S : Type} `{ReplacementPolicy S} `{!PolicyInv S} (assoc : nat) `{!PolicyLaws S assoc}.
Implicit Types c : t S.

(** Routing is defined for line addresses. *)
Lemma route_Ok c a :
  inv c → line_addr (cfg c) a →
  ∃ s, addressToCacheSet c a = Ok s ∧ 0 ≤ s < m_cache_num_sets (cfg c).
Proof. intros Hc. apply addressToCacheSet_Ok; apply Hc. Qed.

(** The two outcomes of a search for a present line. *)
Lemma findTagInSet_spec c s a :
  inv c → line_addr (cfg c) a →
  ((∀ p, ¬ present c a p) ∧ findTagInSet c s a = Ok (-1, s)) ∨
  ∃ set way p e, indexed c a set way p e ∧ m_Permission e ≠ NotPresent ∧
    findTagInSet c s a = Ok (way, set).
Proof.
  intros Hc Ha. unfold findTagInSet.
  destruct (find_indexed_spec c Hc (λ e, negb (bool_decide (m_Permission e = NotPresent))) s a Ha)
    as [[Hn ->]|(set & way & p & e & Hix & ->)].
  - left. split; [|done]. intros p (set & way & e & [] & _). congruence.
  - case_bool_decide as Hp; simpl; [left|right; eauto 10].
    split; [|done]. intros q (set' & way' & e' & Hix' & Hp').
    destruct (indexed_inj c Hc _ _ _ _ _ _ _ _ _ Hix Hix') as (_ & _ & _ & ->). done.
Qed.

(** [lookup] of a line address: nothing when no line is present, else the
    present line, marked as expired when its retention is over. *)
Lemma lookup_spec now c a :
  inv c → line_addr (cfg c) a →
  ((∀ p, ¬ present c a p) ∧ lookup now c a = Ok (None, c)) ∨
  ∃ set way p e c', indexed c a set way p e ∧ m_Permission e ≠ NotPresent ∧
    lookup now c a = Ok (Some p, c') ∧ inv c' ∧ frame c c' ∧
    c' = (if retention_over now e then set_heap c (<[p := setExpired true e]> (heap c)) else c).
Proof.
  intros Hc Ha. unfold lookup. destruct (route_Ok c a Hc Ha) as (s & -> & _). cbn [rbind].
  destruct (findTagInSet_spec c s a Hc Ha) as [[Hn ->]|(set & way & p & e & Hix & Hp & ->)];
    [left; done|right]. cbn [rbind fst snd]. rewrite (way_neq c _ _ _ _ _ Hix).
  pose proof Hix as [P C L E A]. rewrite L. cbn [rbind].
  rewrite (proj2 (deref_Ok _ _ _) E). cbn [rbind].
  exists set, way, p, e. destruct (retention_over now e) eqn:Eo; [|by exists c].
  destruct (modify_line c p e (setExpired true) Hc E eq_refl) as (c' & Hm & Hc' & Hf & _).
  exists c'. rewrite Hm. split_and!; try done. unfold modify in Hm.
  rewrite (update_lookup _ _ _ _ E) in Hm. by injection Hm.
Qed.

(** The pointer [lookup] returns is a line of the cache. *)
Lemma touch_line_spec now c set way p :
  inv c → slot c set way = Ok (Some p) →
  ∃ c' e, touch_line now c p = Ok c' ∧ inv c' ∧ frame c c' ∧
    heap c !! p = Some e ∧ heap c' !! p = Some (setLastAccess now e).
Proof.
  intros Hc Hs. destruct (inv_lines c Hc _ _ _ Hs) as (e & He & _).
  destruct (with_data_line c set way p (touch now) Hc Hs) as (s & Hw & Hc').
  { intros n s h. apply (touch_law (assoc := assoc)). }
  destruct (modify_line (set_policy c s) p e (setLastAccess now) Hc' He eq_refl)
    as (c' & Hm & Hinv & Hf & Hl).
  exists c', e. unfold touch_line. rewrite Hw. cbn [rbind]. split_and!; try done.
  etransitivity; [apply frame_policy|done].
Qed.

(** [lookup], then an operation on the line found. *)
Lemma lookup_found now c a p :
  inv c → line_addr (cfg c) a → present c a p →
  ∃ set way c', lookup now c a = Ok (Some p, c') ∧ inv c' ∧ frame c c' ∧
    slot c' set way = Ok (Some p).
Proof.
  intros Hc Ha Hp. destruct (lookup_spec now c a Hc Ha) as
    [[Hn _]|(set & way & q & e & c' & Hix & Hpe & Hl & Hc' & Hf & _)]; [by destruct (Hn p)|].
  destruct Hp as (s & w & e' & Hix' & _).
  destruct (indexed_inj c Hc _ _ _ _ _ _ _ _ _ Hix Hix') as (-> & -> & -> & ->).
  exists s, w, c'. split_and!; try done. rewrite (frame_slot _ _ _ _ Hf). apply Hix.
Qed.

(** An operation that acts on the line present for an address, if there is
    one. *)
Lemma on_line_spec now c a (op : t S → ptr → res (t S)) :
  inv c → line_addr (cfg c) a →
  (∀ c set way p, inv c → slot c set way = Ok (Some p) →
     ∃ c', op c p = Ok c' ∧ inv c' ∧ frame c c') →
  ∃ c', (let* (entry, c) := lookup now c a in
         match entry with None => Ok c | Some p => op c p end) = Ok c' ∧ inv c' ∧ frame c c'.
Proof.
  intros Hc Ha Hop.
  destruct (lookup_spec now c a Hc Ha) as
    [[_ ->]|(set & way & p & e & c1 & Hix & _ & -> & Hc1 & Hf & _)]; cbn [rbind];
    [by exists c|].
  destruct (Hop c1 set way p Hc1) as (c' & Hm & Hc' & Hf').
  { rewrite (frame_slot _ _ _ _ Hf). apply Hix. }
  exists c'. split_and!; [done..|by etransitivity].
Qed.

Lemma touch_op now c set way p :
  inv c → slot c set way = Ok (Some p) → ∃ c', touch_line now c p = Ok c' ∧ inv c' ∧ frame c c'.
Proof. intros Hc Hs. destruct (touch_line_spec now c set way p Hc Hs); naive_solver. Qed.

Lemma setMRU_Ok now c a :
  inv c → 0 ≤ a < 2 ^ 64 → ∃ c', setMRU now c a = Ok c' ∧ inv c' ∧ frame c c'.
Proof.
  intros Hc Ha. unfold setMRU.
  destruct (makeLineAddress_line (cfg c) a (inv_cfg c Hc) Ha) as [-> Hl]. cbn [rbind].
  apply (on_line_spec now c _ (touch_line now) Hc Hl), touch_op.
Qed.

Lemma setMRU_occupancy_Ok now c a occ :
  inv c → 0 ≤ a < 2 ^ 64 → m_use_occupancy (cfg c) = bool_decide (is_Some touch_occupancy) →
  ∃ c', setMRU_occupancy now c a occ = Ok c' ∧ inv c' ∧ frame c c'.
Proof.
  intros Hc Ha Hocc. unfold setMRU_occupancy.
  destruct (makeLineAddress_line (cfg c) a (inv_cfg c Hc) Ha) as [-> Hl]. cbn [rbind].
  set (f := λ h s, match touch_occupancy with
                   | Some f => f now h occ s | None => touch now h s end).
  assert (∀ n s h, pol_inv n s → (h < n)%nat → ∃ s', f h s = Ok s' ∧ pol_inv n s') as Hf.
  { intros n s h. unfold f. destruct touch_occupancy as [g|] eqn:E.
    - by apply (touch_occupancy_law (assoc := assoc)).
    - apply (touch_law (assoc := assoc)). }
  destruct (lookup_spec now c _ Hc Hl) as
    [[_ ->]|(set & way & p & e & c1 & Hix & _ & -> & Hc1 & Hf1 & _)]; cbn [rbind];
    [by exists c|].
  pose proof (frame_slot _ _ set way Hf1) as Hs. rewrite (ix_slot _ _ _ _ _ _ Hix) in Hs.
  destruct (with_data_line c1 set way p f Hc1 Hs Hf) as (s & Hw & Hc2).
  destruct (inv_lines c1 Hc1 _ _ _ Hs) as (e1 & He1 & _).
  destruct (modify_line _ p e1 (setLastAccess now) Hc2 He1 eq_refl) as (c' & Hm & ? & Hf2 & _).
  exists c'. rewrite (fr_cfg _ _ Hf1), Hocc. unfold f in Hw.
  assert (frame c c') by (etransitivity; [done|]; etransitivity; [apply frame_policy|done]).
  destruct touch_occupancy as [g|] eqn:Eg.
  - rewrite bool_decide_true by eauto. cbn [rbind of_option].
    change (λ h s, g now h occ s) with (λ h, g now h occ) in Hw. by rewrite Hw.
  - rewrite bool_decide_false by (intros [? [=]]).
    change (λ h s, touch now h s) with (touch now) in Hw. by rewrite Hw.
Qed.

(** The lock operations need the line to be present: they assert it. *)
Lemma on_present_spec now c a p (f : Entry → Entry) :
  inv c → line_addr (cfg c) a → present c a p → (∀ e, identity (f e) = identity e) →
  ∃ c' e, (let* (entry, c) := lookup now c a in
           let* p := of_option EAssert entry in modify c p f) = Ok c' ∧
    inv c' ∧ frame c c' ∧ heap c' !! p = Some (f e).
Proof.
  intros Hc Ha Hp Hf.
  destruct (lookup_found now c a p Hc Ha Hp) as (set & way & c1 & -> & Hc1 & Hf1 & Hs).
  cbn [rbind of_option]. destruct (inv_lines c1 Hc1 _ _ _ Hs) as (e & He & _).
  destruct (modify_line c1 p e f Hc1 He (Hf e)) as (c' & Hm & ? & ? & ?).
  exists c', e. split_and!; try done. by etransitivity.
Qed.

Lemma tryCacheAccess_Ok now c a ty :
  inv c → line_addr (cfg c) a →
  ∃ b d c', tryCacheAccess now c a ty = Ok (b, d, c') ∧ inv c' ∧ frame c c'.
Proof.
  intros Hc Ha. unfold tryCacheAccess.
  destruct (lookup_spec now c a Hc Ha) as
    [[_ ->]|(set & way & p & e & c1 & Hix & _ & -> & Hc1 & Hf & _)]; cbn [rbind];
    [by exists false, None, c|].
  pose proof (frame_slot _ _ set way Hf) as Hs. rewrite (ix_slot _ _ _ _ _ _ Hix) in Hs.
  destruct (touch_line_spec now c1 set way p Hc1 Hs) as (c2 & e2 & -> & Hc2 & Hf2 & _ & He2).
  cbn [rbind]. rewrite (proj2 (deref_Ok _ _ _) He2). cbn [rbind].
  assert (frame c c2) by (by etransitivity).
  repeat case_decide; eauto 10.
Qed.

Lemma testCacheAccess_Ok now c a ty :
  inv c → line_addr (cfg c) a →
  ∃ b d c', testCacheAccess now c a ty = Ok (b, d, c') ∧ inv c' ∧ frame c c'.
Proof.
  intros Hc Ha. unfold testCacheAccess.
  destruct (lookup_spec now c a Hc Ha) as
    [[_ ->]|(set & way & p & e & c1 & Hix & _ & -> & Hc1 & Hf & _)]; cbn [rbind];
    [by exists false, None, c|].
  pose proof (frame_slot _ _ set way Hf) as Hs. rewrite (ix_slot _ _ _ _ _ _ Hix) in Hs.
  destruct (touch_line_spec now c1 set way p Hc1 Hs) as (c2 & e2 & -> & Hc2 & Hf2 & _ & He2).
  cbn [rbind]. rewrite (proj2 (deref_Ok _ _ _) He2). cbn [rbind].
  assert (frame c c2) by (by etransitivity). eauto 10.
Qed.

(** *** Loops over all lines *)

Lemma concat_lines c p :
  Some p ∈ concat (m_cache c) ↔ ∃ set way, slot c set way = Ok (Some p).
Proof.
  rewrite elem_of_concat. split.
  - intros (row & [i Hi]%list_elem_of_lookup & [j Hj]%list_elem_of_lookup).
    exists (Z.of_nat i), (Z.of_nat j). unfold slot. apply rbind_Ok. exists row.
    rewrite !vget_Ok, !Nat2Z.id. split_and!; [lia|done|lia|done].
  - intros (set & way & (row & [_ Hr]%vget_Ok & [_ Hw]%vget_Ok)%rbind_Ok).
    exists row. split; by eapply list_elem_of_lookup_2.
Qed.

(** What a loop may do to a line: it stays where it is and is not made
    present. *)
Definition line_rel (e e' : Entry) : Prop :=
  m_Address e' = m_Address e ∧ replacementData e' = replacementData e ∧
  (m_Permission e = NotPresent → m_Permission e' = NotPresent).

#[export] Instance line_rel_preorder : PreOrder line_rel.
Proof.
  split; [by intros e|]. intros e1 e2 e3 (? & ? & ?) (? & ? & ?).
  split_and!; [congruence..|auto].
Qed.

Definition same_identity (e e' : Entry) : Prop := identity e' = identity e.

#[export] Instance same_identity_preorder : PreOrder same_identity.
Proof. split; [by intros e|]. unfold same_identity. intros e1 e2 e3. congruence. Qed.

Lemma inv_store c h : inv c → store_rel line_rel (heap c) h → inv (set_heap c h).
Proof.
  intros Hc [Hr Hn]. constructor; simpl; try apply Hc.
  - intros set way p Hs. destruct (inv_lines c Hc _ _ _ Hs) as (e & He & Hd).
    destruct (Hr _ _ He) as (e' & He' & _ & Hd' & _). exists e'. split; [done|congruence].
  - intros a x Hx. destruct (inv_index c Hc _ _ Hx) as (set & way & p & e & [P C L E A]).
    destruct (Hr _ _ E) as (e' & He' & Ha & _). exists set, way, p, e'.
    constructor; simpl; [done..|congruence].
  - intros set way p e' Hs He' Hp. change (slot c set way = Ok (Some p)) in Hs.
    destruct (inv_lines c Hc _ _ _ Hs) as (e & He & _).
    destruct (Hr _ _ He) as (e'' & He'' & Ha & _ & Hnp).
    assert (e'' = e') as -> by congruence. rewrite Ha.
    apply (inv_present c Hc _ _ p); [done..|]. tauto.
  - destruct (inv_arrays c Hc). by constructor.
Qed.

Lemma frame_store c h : store_rel same_identity (heap c) h → frame c (set_heap c h).
Proof.
  intros [Hr Hn]. constructor; simpl; [done..|]. intros p.
  destruct (heap c !! p) as [e|] eqn:E; [|by rewrite (Hn _ E)].
  destruct (Hr _ _ E) as (e' & -> & Hi). simpl. by rewrite Hi.
Qed.

Lemma store_rel_weaken h h' : store_rel same_identity h h' → store_rel line_rel h h'.
Proof.
  intros [Hr Hn]. split; [|done]. intros p e He. destruct (Hr _ _ He) as (e' & ? & Hi).
  exists e'. split; [done|]. unfold same_identity, identity in Hi. split_and!; congruence.
Qed.

Lemma lines_live c p : inv c → Some p ∈ concat (m_cache c) → is_Some (heap c !! p).
Proof.
  intros Hc (set & way & Hs)%concat_lines.
  destruct (inv_lines c Hc _ _ _ Hs) as (e & -> & _). eauto.
Qed.

Lemma htmCommit_Ok c : inv c → ∃ c', htmCommitTransaction c = Ok c' ∧ inv c' ∧ frame c c'.
Proof.
  intros Hc. unfold htmCommitTransaction.
  destruct (htm_lines_rel same_identity htm_clear) with (h := heap c) (lines := concat (m_cache c))
    (r := 0) (w := 0) as (r & w & h & -> & Hr); [by intros []|intros p; by apply lines_live|].
  cbn [rbind]. eexists. split; [done|]. split.
  - apply inv_set_stats; [|done]. by apply inv_store, store_rel_weaken.
  - etransitivity; [by apply frame_store|apply frame_stats].
Qed.

Lemma clearLockedAll_Ok c ctx : inv c → ∃ c', clearLockedAll c ctx = Ok c' ∧ inv c' ∧ frame c c'.
Proof.
  intros Hc. unfold clearLockedAll.
  destruct (each_line_rel same_identity
    (λ e, if CacheEntry.isLocked ctx e then CacheEntry.clearLocked e else e))
    with (h := heap c) (lines := concat (m_cache c)) as (h & -> & Hr);
    [intros e; by case_match|intros p; by apply lines_live|].
  simpl. eexists. split; [done|]. split; [by apply inv_store, store_rel_weaken|by apply frame_store].
Qed.

(** The entry type of a protocol may give up lines on an abort. *)
Lemma htmAbort_Ok invalidateEntry c :
  inv c → (∀ e, line_rel e (invalidateEntry e)) →
  ∃ c' h, htmAbortTransaction invalidateEntry c = Ok c' ∧ inv c' ∧
    store_rel line_rel (heap c) h ∧ frame (set_heap c h) c'.
Proof.
  intros Hc Hi. unfold htmAbortTransaction.
  destruct (htm_lines_rel line_rel
    (λ e, htm_clear (if getInHtmWriteSet e then invalidateEntry e else e)))
    with (h := heap c) (lines := concat (m_cache c)) (r := 0) (w := 0)
    as (r & w & h & -> & Hr); [|intros p; by apply lines_live|].
  { intros e. destruct (getInHtmWriteSet e); [|by destruct e].
    etransitivity; [apply Hi|]. by destruct (invalidateEntry e). }
  cbn [rbind]. eexists _, h. split; [done|]. split_and!.
  - apply inv_set_stats; [|done]. by apply inv_store.
  - done.
  - apply frame_stats.
Qed.

End LineOperations.
