(* ===== verification/CacheInit.v ===== *)
(** Construction: the constructor, [init] and [regStats] establish the invariant,
    and the destructor frees every line once. *)

From stdpp Require Import prelude gmap.
From Stdlib Require Import ZArith Lia.
From S2P Require Import Prelude Bits SatCounter Replacement ReplacementSpec Resources.
From S2P Require Import CacheEntry CacheMemory CacheGeometry CacheInv.

Import CacheMemory.
Open Scope Z_scope.

(** ** Parameters *)

Definition num_sets_of (p : Params) (rs : RubySystem) : Z :=
  p_size p / p_assoc p / block_size_bytes rs.

(** Parameters for which the cache works: the size fits an [int], the sets and
    ways fit the 16 bits of the tag index, and the sets divide into chunks of
    four. *)
Record params_ok (p : Params) (rs : RubySystem) : Prop := {
  po_size : 0 < p_size p < 2 ^ 31;
  po_assoc : 1 ≤ p_assoc p ≤ 2 ^ 16;
  po_block : 1 ≤ block_size_bytes rs < 2 ^ 31;
  po_clock : 0 < clockPeriod rs;
  po_sets : 4 ≤ num_sets_of p rs ≤ 2 ^ 16;
  po_chunks : (4 | num_sets_of p rs);
  po_start : 0 ≤ p_start_index_bit p ≤ 47;
  po_zones : 1 ≤ p_num_of_retention_zones p ≤ 4;
  po_lazy : p_lazy_redirection_scheme p = true → p_is_sttram p = true;
  po_data_banks : 1 ≤ p_dataArrayBanks p < 2 ^ 32;
  po_tag_banks : 1 ≤ p_tagArrayBanks p < 2 ^ 32 }.

(** The object as the simulator builds it. *)
Definition build {S} `{ReplacementPolicy S} (p : Params) (rs : RubySystem) (pol : S) : res (t S) :=
  let* c := new p rs pol in
  let* c := init c in
  Ok (regStats c).

(** ** The replacement data *)

Section Instantiate.
Context {S : Type} `{ReplacementPolicy S} `{!PolicyInv S} (assoc : nat) `{!PolicyLaws S assoc}.

Lemma instantiate_row_spec n ways (s : S) :
  pol_inv n s → Z.of_nat (n + ways) < 2 ^ 64 →
  ∃ s', instantiate_row ways s = Ok (seq n ways, s') ∧ pol_inv (n + ways)%nat s'.
Proof using PolicyLaws0.
  revert n s. induction ways as [|k IH]; intros n s Hs Hn; cbn [instantiate_row].
  { exists s. by rewrite Nat.add_0_r. }
  destruct (instantiate_law (assoc := assoc) n s Hs) as (s1 & -> & Hs1); [lia|]. cbn [rbind].
  destruct (IH (Datatypes.S n) s1 Hs1) as (s2 & -> & Hs2); [lia|]. cbn [rbind].
  exists s2. split; [done|]. by replace (n + Datatypes.S k)%nat with (Datatypes.S n + k)%nat by lia.
Qed.

Lemma instantiate_rows_spec n rows ways (s : S) :
  pol_inv n s → Z.of_nat (n + rows * ways) < 2 ^ 64 →
  ∃ rd s', instantiate_rows rows ways s = Ok (rd, s') ∧ pol_inv (n + rows * ways)%nat s' ∧
    ∀ i, (i < rows)%nat → rd !! i = Some (seq (n + i * ways) ways).
Proof using PolicyLaws0.
  revert n s. induction rows as [|k IH]; intros n s Hs Hn; cbn [instantiate_rows].
  { exists [], s. rewrite Nat.add_0_r. split_and!; [done|done|lia]. }
  destruct (instantiate_row_spec n ways s Hs) as (s1 & -> & Hs1); [lia|]. cbn [rbind].
  destruct (IH (n + ways)%nat s1 Hs1) as (rd & s2 & -> & Hs2 & Hrd); [lia|]. cbn [rbind].
  eexists _, s2. split; [done|]. split.
  - by replace (n + Datatypes.S k * ways)%nat with (n + ways + k * ways)%nat by lia.
  - intros [|i] Hi; simpl; [by rewrite Nat.add_0_r|]. rewrite Hrd by lia. do 2 f_equal. lia.
Qed.

End Instantiate.

(** ** The invariant holds initially *)

Lemma bank_new_wf n start clk :
  1 ≤ n < 2 ^ 32 → 0 < clk →
  ∃ b, BankedArray.new n start = Ok b ∧ banked_wf (BankedArray.setClockPeriod b clk).
Proof.
  intros Hn Hc. unfold BankedArray.new. rewrite (proj2 (Z.eqb_neq n 0)) by lia.
  rewrite floorLog2_log2; [|set_solver|simpl; lia]. cbn [rbind rmap]. eexists. split; [done|].
  unfold banked_wf. simpl. rewrite length_replicate. lia.
Qed.

Lemma replicate_slots rows ways set way p (c : list (list (option ptr))) :
  c = replicate rows (replicate ways None) →
  (let* row := vget c set in vget row way) ≠ Ok (Some p).
Proof.
  intros -> (row & [_ [-> _]%lookup_replicate]%vget_Ok & [_ [Hx _]%lookup_replicate]%vget_Ok)%rbind_Ok.
  done.
Qed.

(** The configuration after [init]. *)
Definition config_of (p : Params) (rs : RubySystem) (occupancy : bool) : Config :=
  let n := num_sets_of p rs in
  let z := n / p_num_of_retention_zones p in
  mkConfig (p_is_sttram p) (p_lazy_redirection_scheme p) (p_is_icache p) rs (p_size p)
    n (Z.log2 n) (p_assoc p) (p_start_index_bit p) (p_resourceStalls p)
    (block_size_bytes rs) (p_num_of_retention_zones p)
    (push_thresholds (Z.to_nat (p_num_of_retention_zones p)) z z)
    (retention_table p) occupancy.

Lemma config_of_wf p rs occupancy : params_ok p rs → cfg_wf (config_of p rs occupancy).
Proof.
  intros []. constructor; simpl; try done.
  unfold retention_table. repeat case_match; reflect_bool; simpl; lia.
Qed.

Section Build.
Context {S : Type} `{ReplacementPolicy S} `{!PolicyInv S} (assoc : nat) `{!PolicyLaws S assoc}.

Definition is_weighted : bool :=
  match touch_occupancy (S := S) with Some _ => true | None => false end.

(** The state [init] and [regStats] leave. *)
Definition fresh_cache (p : Params) (rs : RubySystem) (bd bt : BankedArray.t)
    (rd : list (list nat)) (pol : S) (st : Stats) : t S :=
  let n := num_sets_of p rs in
  mk (config_of p rs is_weighted) ∅
    (replicate (Z.to_nat n) (replicate (Z.to_nat (p_assoc p)) None)) ∅ rd pol bd bt
    (ALUFreeListArray.mk (u32 (p_atomicALUs p)) (p_atomicLatency p)
       (u64 (p_atomicLatency p * clockPeriod rs)) [] (Z.log2 (block_size_bytes rs)))
    (replicate (Z.to_nat (n / 4)) (mkChunk 0 0)) ∅ ∅ st.

Definition fresh_stats (p : Params) (rs : RubySystem) : Stats :=
  mkStats (λ _, 0)
    (λ k, match k with
          | m_accesses_per_set => replicate (Z.to_nat (num_sets_of p rs)) 0
          | _ => replicate (Z.to_nat (num_sets_of p rs / 4)) 0
          end) (λ _, []).

Lemma build_state p rs (pol : S) :
  params_ok p rs → pol_inv 0 pol →
  ∃ bd bt rd pol' st,
    build p rs pol = Ok (fresh_cache p rs bd bt rd pol' st) ∧
    banked_wf bd ∧ banked_wf bt ∧
    (∀ k, vectors st k = vectors (fresh_stats p rs) k) ∧
    pol_inv (Z.to_nat (num_sets_of p rs) * Z.to_nat (p_assoc p))%nat pol' ∧
    (∀ i, (i < Z.to_nat (num_sets_of p rs))%nat →
       rd !! i = Some (seq (i * Z.to_nat (p_assoc p)) (Z.to_nat (p_assoc p)))).
Proof using PolicyLaws0.
  intros [Hsz Has Hbl Hck Hns Hch Hst Hzn Hlz Hdb Htb] Hpol. unfold build, new.
  rewrite (u32_small (p_dataArrayBanks p)), (u32_small (p_tagArrayBanks p)) by lia.
  destruct (bank_new_wf (p_dataArrayBanks p) (u32 (p_start_index_bit p)) (clockPeriod rs))
    as (bd & -> & Hbd); [lia..|].
  destruct (bank_new_wf (p_tagArrayBanks p) (u32 (p_start_index_bit p)) (clockPeriod rs))
    as (bt & -> & Hbt); [lia..|]. cbn [rbind].
  assert (p_lazy_redirection_scheme p && negb (p_is_sttram p) = false) as ->.
  { destruct (p_lazy_redirection_scheme p); [by rewrite Hlz|done]. }
  rewrite (proj2 (Z.ltb_ge _ _)), (proj2 (Z.ltb_ge 4 _)) by lia. cbn [rbind require negb orb].
  unfold init, clock_arrays, ALUFreeListArray.setBlockSize. cbn [cfg m_ruby_system].
  rewrite (i32_small (block_size_bytes rs)), (i32_small (p_size p)) by lia.
  rewrite floorLog2_log2; [|set_solver|simpl; lia].
  cbn -[Z.quot Z.eqb Z.ltb Z.leb IntMath.floorLog2 push_thresholds instantiate_rows Z.pow].
  rewrite (proj2 (Z.eqb_neq (block_size_bytes rs) 0)), (proj2 (Z.eqb_neq (p_assoc p) 0)) by lia.
  cbn [rbind require negb].
  rewrite (Z.quot_div_nonneg (p_size p)) by lia.
  rewrite (Z.quot_div_nonneg (p_size p / p_assoc p)) by (try apply Z.div_pos; lia).
  fold (num_sets_of p rs). rewrite (proj2 (Z.ltb_lt 1 _)), (proj2 (Z.leb_le 0 _)) by lia.
  cbn [rbind require]. rewrite floorLog2_log2; [|set_solver|simpl; lia]. cbn [rbind].
  assert (2 ≤ Z.log2 (num_sets_of p rs)) by (apply Z.log2_le_pow2; lia).
  rewrite (proj2 (Z.ltb_lt 0 (Z.log2 _))), (proj2 (Z.leb_le 0 _)) by lia.
  cbn [rbind require].
  destruct (instantiate_rows_spec assoc 0 (Z.to_nat (num_sets_of p rs)) (Z.to_nat (p_assoc p)) pol Hpol)
    as (rd & pol' & -> & Hpol' & Hrd); [nia|].
  cbn [rbind]. rewrite !Z.quot_div_nonneg by lia.
  eexists _, _, rd, pol', _. split; [reflexivity|]. split_and!; try done.
  intros k. simpl. rewrite Z.quot_div_nonneg by lia. by destruct k.
Qed.

Lemma fresh_cache_inv p rs bd bt rd (pol : S) st :
  params_ok p rs → banked_wf bd → banked_wf bt →
  (∀ k, vectors st k = vectors (fresh_stats p rs) k) →
  pol_inv (Z.to_nat (num_sets_of p rs) * Z.to_nat (p_assoc p))%nat pol →
  (∀ i, (i < Z.to_nat (num_sets_of p rs))%nat →
     rd !! i = Some (seq (i * Z.to_nat (p_assoc p)) (Z.to_nat (p_assoc p)))) →
  inv (fresh_cache p rs bd bt rd pol st).
Proof.
  intros Hp Hbd Hbt Hst Hpol Hrd. pose proof Hp as [].
  assert (∀ set way q, slot (fresh_cache p rs bd bt rd pol st) set way ≠ Ok (Some q)) as Hnone.
  { intros set way q. by eapply replicate_slots. }
  constructor; simpl.
  - by apply config_of_wf.
  - split; simpl; [intros pg k Hk|intros pg o Ho]; set_solver.
  - rewrite length_replicate. lia.
  - intros i row [-> _]%lookup_replicate. rewrite length_replicate. lia.
  - intros set way [Hs Hw]. simpl in Hs, Hw.
    assert (vget rd set = Ok (seq (Z.to_nat set * Z.to_nat (p_assoc p)) (Z.to_nat (p_assoc p)))) as ->.
    { apply vget_Ok. split; [lia|]. apply Hrd. lia. }
    cbn [rbind]. apply vget_Ok. split; [lia|]. rewrite lookup_seq_lt by lia. done.
  - exact Hpol.
  - intros set way q Hq. by destruct (Hnone set way q).
  - set_solver.
  - intros set way q e Hq. by destruct (Hnone set way q).
  - constructor; simpl; rewrite ?Hst; simpl; rewrite ?length_replicate; try done; try lia;
      try (rewrite Z2Nat.id; [done|apply Z.div_pos; lia]).
    pose proof (Z.log2_nonneg (block_size_bytes rs)).
    assert (Z.log2 (block_size_bytes rs) < 31) by (apply Z.log2_lt_pow2; lia). lia.
Qed.

End Build.

(** ** The destructor *)

Section Destroy.

Lemma elem_of_pointers (p : ptr) (l : list (option ptr)) : p ∈ omap id l ↔ Some p ∈ l.
Proof.
  rewrite list_elem_of_omap. split; [|by exists (Some p)].
  intros (x & Hx & Ex). simpl in Ex. by subst.
Qed.

Lemma NoDup_row (row : list (option ptr)) :
  (∀ i j p, row !! i = Some (Some p) → row !! j = Some (Some p) → i = j) → NoDup (omap id row).
Proof.
  induction row as [|x row IH]; intros Hinj; [constructor|].
  assert (NoDup (omap id row)) as IH'.
  { apply IH. intros i j p Hi Hj. assert (Datatypes.S i = Datatypes.S j); [|lia].
    by apply (Hinj _ _ p). }
  destruct x as [p|]; simpl; [|done]. constructor; [|done].
  intros [i Hi]%elem_of_pointers%list_elem_of_lookup.
  assert (0%nat = Datatypes.S i); [|lia]. by apply (Hinj _ _ p).
Qed.

Lemma NoDup_pointers (rows : list (list (option ptr))) :
  (∀ i j i' j' r r' p, rows !! i = Some r → r !! j = Some (Some p) →
     rows !! i' = Some r' → r' !! j' = Some (Some p) → i = i' ∧ j = j') →
  NoDup (omap id (concat rows)).
Proof.
  induction rows as [|r rows IH]; intros Hinj; [constructor|]. simpl.
  rewrite omap_app. apply NoDup_app. split_and!.
  - apply NoDup_row. intros i j p Hi Hj. by apply (Hinj 0%nat i 0%nat j r r p).
  - intros p [j Hj]%elem_of_pointers%list_elem_of_lookup Hp%elem_of_pointers.
    apply list_elem_of_In, in_concat in Hp as (r' & [i Hi]%list_elem_of_In%list_elem_of_lookup & Hp).
    apply list_elem_of_In, list_elem_of_lookup in Hp as [j' Hj'].
    by destruct (Hinj 0%nat j (Datatypes.S i) j' r r' p).
  - apply IH. intros i j i' j' r1 r2 p Hi Hj Hi' Hj'.
    destruct (Hinj (Datatypes.S i) j (Datatypes.S i') j' r1 r2 p); auto with lia.
Qed.

Lemma free_lines_spec h lines :
  NoDup (omap id lines) → (∀ p, Some p ∈ lines → is_Some (h !! p)) →
  ∃ h', free_lines h lines = Ok h' ∧
    ∀ p, h' !! p = if decide (Some p ∈ lines) then None else h !! p.
Proof.
  revert h. induction lines as [|[p|] lines IH]; intros h Hnd Hl; simpl.
  - exists h. split; [done|]. done.
  - simpl in Hnd. apply NoDup_cons in Hnd as [Hp Hnd]. rewrite elem_of_pointers in Hp.
    destruct (Hl p) as [e He]; [set_solver|]. rewrite (free_lookup _ _ _ He). cbn [rbind].
    destruct (IH (delete p h) Hnd) as (h' & -> & Hh').
    { intros q Hq. rewrite lookup_delete_ne by (intros ->; done). apply Hl. set_solver. }
    exists h'. split; [done|]. intros q. rewrite Hh'. destruct (decide (q = p)) as [->|Hne].
    + rewrite decide_False, lookup_delete_eq, decide_True by set_solver. done.
    + rewrite lookup_delete_ne by done. repeat case_decide; set_solver.
  - destruct (IH h Hnd) as (h' & -> & Hh'); [set_solver|]. exists h'. split; [done|].
    intros q. rewrite Hh'. repeat case_decide; set_solver.
Qed.

Lemma inv_NoDup {S} `{PolicyInv S} (c : t S) : inv c → NoDup (omap id (concat (m_cache c))).
Proof.
  intros Hc.
  assert (∀ i j r p, m_cache c !! i = Some r → r !! j = Some (Some p) →
    slot c (Z.of_nat i) (Z.of_nat j) = Ok (Some p)) as Hs.
  { intros i j r p Hi Hj. unfold slot. apply rbind_Ok. exists r.
    rewrite !vget_Ok, !Nat2Z.id. split_and!; [lia|done|lia|done]. }
  apply NoDup_pointers. intros i j i' j' r r' p Hi Hj Hi' Hj'.
  destruct (slot_inj c Hc _ _ _ _ p (Hs _ _ _ _ Hi Hj) (Hs _ _ _ _ Hi' Hj')). lia.
Qed.

Lemma destroy_Ok {S} `{PolicyInv S} (c : t S) :
  inv c → ∃ h, destroy c = Ok h ∧
    ∀ p, h !! p = if decide (Some p ∈ concat (m_cache c)) then None else heap c !! p.
Proof.
  intros Hc. apply free_lines_spec; [by apply inv_NoDup|intros p Hp; by apply lines_live].
Qed.

End Destroy.
