(* ===== verification/CacheAlloc.v ===== *)
(** Allocation and eviction: [cacheAvail], [allocate], [deallocate] and
    [cacheProbe] under the invariant, on every branch. *)

From stdpp Require Import prelude gmap.
From Stdlib Require Import ZArith Lia.
From S2P Require Import Prelude Bits SatCounter Replacement ReplacementSpec Resources.
From S2P Require Import CacheEntry CacheMemory CacheGeometry CacheInv.

Import CacheMemory.
Open Scope Z_scope.

(** A position [allocate] may use, and one it may not. *)
Definition free_at {S} (c : t S) (set way : Z) : Prop :=
  slot c set way = Ok None ∨
  ∃ p e, slot c set way = Ok (Some p) ∧ heap c !! p = Some e ∧ m_Permission e = NotPresent.

Definition full_at {S} (c : t S) (set way : Z) (p : ptr) (e : Entry) : Prop :=
  slot c set way = Ok (Some p) ∧ heap c !! p = Some e ∧ m_Permission e ≠ NotPresent.

Section Free.
Context {S : Type} `{ReplacementPolicy S} `{!PolicyInv S}.
Implicit Types c : t S.

Lemma slot_cases c set way :
  inv c → pos_ok (cfg c) set way →
  ∃ s, slot c set way = Ok s ∧
    ((slot_free c s = Ok true ∧ free_at c set way) ∨
     (slot_free c s = Ok false ∧ ∃ p e, full_at c set way p e)).
Proof.
  intros Hc Hp. destruct (slot_Ok c Hc set way Hp) as ([p|] & Hs).
  - exists (Some p). split; [done|].
    destruct (inv_lines c Hc _ _ _ Hs) as (e & He & _). simpl.
    rewrite (proj2 (deref_Ok _ _ _) He). simpl. unfold free_at, full_at.
    case_bool_decide; [left|right]; eauto 10.
  - exists None. split; [done|]. left. split; [done|]. by left.
Qed.

Lemma free_not_full c set way p e : free_at c set way → ¬ full_at c set way p e.
Proof. intros [Hn|(q & f & Hq & Hf & Hnp)] (Hs & He & Hp); congruence. Qed.

Lemma first_free_from c set n i :
  inv c → 0 ≤ set < m_cache_num_sets (cfg c) → 0 ≤ i →
  i + Z.of_nat n = m_cache_assoc (cfg c) →
  (∃ w, first_free c set n i = Ok (Some w) ∧ i ≤ w < m_cache_assoc (cfg c) ∧
     free_at c set w ∧ ∀ j, i ≤ j < w → ∃ p e, full_at c set j p e) ∨
  (first_free c set n i = Ok None ∧
     ∀ j, i ≤ j < m_cache_assoc (cfg c) → ∃ p e, full_at c set j p e).
Proof.
  intros Hc Hs. revert i. induction n as [|n IH]; intros i Hi Hn; simpl.
  { right. split; [done|]. lia. }
  destruct (slot_cases c set i Hc) as (s & -> & [[Hb Hf]|[Hb (p & e & Hf)]]);
    [split; lia|..]; cbn [rbind]; rewrite Hb; cbn [rbind].
  { left. exists i. split_and!; [done|lia|lia|done|]. lia. }
  assert (∀ j, i ≤ j → j = i ∨ i + 1 ≤ j) as Hj by lia.
  destruct (IH (i + 1)) as [(w & Hw & Hr & Hfw & Hall)|[Hw Hall]]; [lia..| |].
  - left. exists w. split_and!; [done|lia|lia|done|].
    intros j Hij. destruct (Hj j) as [->|]; [lia|eauto|apply Hall; lia].
  - right. split; [done|]. intros j Hij. destruct (Hj j) as [->|]; [lia|eauto|apply Hall; lia].
Qed.

Lemma first_free_spec c set :
  inv c → 0 ≤ set < m_cache_num_sets (cfg c) →
  (∃ w, first_free c set (ways c) 0 = Ok (Some w) ∧ pos_ok (cfg c) set w ∧
     free_at c set w ∧ ∀ j, 0 ≤ j < w → ∃ p e, full_at c set j p e) ∨
  (first_free c set (ways c) 0 = Ok None ∧
     ∀ j, 0 ≤ j < m_cache_assoc (cfg c) → ∃ p e, full_at c set j p e).
Proof.
  intros Hc Hs. pose proof (wf_assoc _ (inv_cfg c Hc)).
  destruct (first_free_from c set (ways c) 0 Hc Hs) as [(w & ? & ? & ? & ?)|];
    [lia|unfold ways; lia| |by right].
  left. exists w. split_and!; try done; lia.
Qed.

(** [findTagInSetIgnorePermissions] finds every address the index knows. *)
Lemma find_ignoring_spec c s a :
  inv c → line_addr (cfg c) a →
  (m_tag_index c !! a = None ∧ findTagInSetIgnorePermissions c s a = Ok (-1, s)) ∨
  ∃ set way p e, indexed c a set way p e ∧
    findTagInSetIgnorePermissions c s a = Ok (way, set).
Proof. intros Hc Ha. apply (find_indexed_spec c Hc (λ _, true) s a Ha). Qed.

(** A line can be had for [a]: the index knows it, or its set has a free
    position. *)
Definition available c (a s : Z) : Prop :=
  is_Some (m_tag_index c !! a) ∨ ∃ way, pos_ok (cfg c) s way ∧ free_at c s way.

Lemma cacheAvail_available c a s :
  inv c → line_addr (cfg c) a → addressToCacheSet c a = Ok s →
  ∃ b, cacheAvail c a = Ok b ∧ (b = true ↔ available c a s) ∧
    (b = false → ∀ j, 0 ≤ j < m_cache_assoc (cfg c) → ∃ p e, full_at c s j p e).
Proof.
  intros Hc Ha Hr. destruct (route_Ok c a Hc Ha) as (s' & Hs & Hsr).
  assert (s' = s) as -> by congruence. unfold cacheAvail. rewrite Hr. cbn [rbind].
  destruct (find_ignoring_spec c s a Hc Ha) as [[Hn ->]|(set & way & p & e & Hix & ->)];
    cbn [rbind fst]; simpl (negb _).
  - destruct (first_free_spec c s Hc Hsr) as [(w & -> & Hp & Hf & _)|[-> Hall]]; cbn [rbind].
    + exists true. split; [done|]. split; [|done]. split; [|done]. right. eauto.
    + exists false. split; [done|]. split; [|done]. split; [done|].
      intros [[x Hx]|(w & [_ Hw] & Hf)]; [congruence|].
      destruct (Hall w Hw) as (p & e & Hfull). by destruct (free_not_full _ _ _ _ _ Hf Hfull).
  - rewrite (way_neq c _ _ _ _ _ Hix). exists true. split; [done|]. split; [|done].
    split; [|done]. left. rewrite (ix_code _ _ _ _ _ _ Hix). eauto.
Qed.

End Free.

(** ** allocate *)

(** What [allocate] writes to the line it returns. *)
Definition recycled (now limit : Z) (e : Entry) : Entry :=
  set_last_refresh_tick now (setLastAccess now (set_retention_limit limit
    (set_Permission Invalid (setExpired false e)))).

Definition installed (now limit a : Z) (h : nat) (e : Entry) : Entry :=
  set_last_refresh_tick now (setLastAccess now (set_retention_limit limit
    (set_Permission Invalid (setExpired false
      (set_Address a (set_replacementData (Some h) e)))))).

(** The statistics of zombies after a line [e] is given up or recycled. *)
Definition collect {S} (e : Entry) (c : t S) : t S :=
  if m_is_expired e then count m_zombies_collected c else c.

Section Allocate.
Context {S : Type} `{ReplacementPolicy S} `{!PolicyInv S} (assoc : nat) `{!PolicyLaws S assoc}.
Implicit Types c : t S.

Lemma inv_collect c e : inv c → inv (collect e c).
Proof. intros Hc. unfold collect. case_match; [by apply inv_count|done]. Qed.

Lemma collect_indexed c e a set way p f :
  indexed (collect e c) a set way p f ↔ indexed c a set way p f.
Proof. unfold collect. case_match; [|done]. split; intros []; by constructor. Qed.

Lemma fresh_ne c set way p q : fresh c q → slot c set way = Ok (Some p) → p ≠ q.
Proof. intros [_ Hf] Hs ->. by destruct (Hf set way). Qed.

(** The address is known to the index: its line is recycled in place and the
    new object is dropped. *)
Lemma allocate_reuse_spec now c a entry set way old e :
  inv c → line_addr (cfg c) a → fresh c entry → indexed c a set way old e →
  ∃ c' limit, allocate now c a entry = Ok (old, c') ∧ inv c' ∧
    zone_time (cfg c) set = Ok limit ∧
    cfg c' = cfg c ∧ m_cache c' = m_cache c ∧ m_tag_index c' = m_tag_index c ∧
    heap c' = <[old := recycled now limit e]> (delete entry (heap c)) ∧
    stats c' = stats (collect e c).
Proof.
  intros Hc Ha Hfr Hix. pose proof Hix as [P C L E A].
  pose proof (fresh_ne _ _ _ _ _ Hfr L) as Hne.
  unfold allocate. destruct (route_Ok c a Hc Ha) as (s & -> & _). cbn [rbind].
  unfold findTagInSetIgnorePermissions. rewrite (indexed_find c Hc _ s a _ _ _ _ Ha Hix).
  cbn [rbind]. unfold found_line. cbn [fst snd]. rewrite (way_neq c _ _ _ _ _ Hix), L.
  cbn [rbind]. unfold allocate_reuse. rewrite (proj2 (deref_Ok _ _ _) E). cbn [rbind].
  fold (collect e c). rewrite decide_False by done. destruct Hfr as [[e0 He0] Hfr].
  assert (heap (collect e c) = heap c) as Hh by (unfold collect; by case_match).
  rewrite Hh, (free_lookup _ _ _ He0). cbn [rbind rmap].
  set (c1 := set_heap (collect e c) (delete entry (heap c))).
  assert (inv c1) as Hc1.
  { unfold c1. rewrite <- Hh. apply inv_free; [by apply inv_collect|].
    split; [rewrite Hh; eauto|]. intros s' w'. unfold collect. case_match; apply Hfr. }
  assert (cfg c1 = cfg c ∧ m_cache c1 = m_cache c ∧ m_tag_index c1 = m_tag_index c)
    as (Hcfg & Hcache & Hindex) by (unfold c1, collect; by case_match).
  rewrite Hcfg. destruct (zone_time_Ok (cfg c) (inv_cfg c Hc) set) as (limit & Hz);
    [apply P|]. rewrite Hz. cbn [rbind].
  assert (heap c1 !! old = Some e) as E1 by (simpl; by rewrite lookup_delete_ne).
  assert (indexed c1 a set way old e) as Hix1.
  { constructor; [by rewrite Hcfg|by rewrite Hindex| |done..]. unfold slot. by rewrite Hcache. }
  unfold modify. rewrite (update_lookup _ _ _ _ E1). cbn [rbind rmap].
  fold (recycled now limit e). set (c2 := set_heap c1 _).
  assert (inv c2) as Hc2.
  { apply (inv_line c1 old e); try done. right. right. exists set, way. by rewrite A. }
  assert (slot c2 set way = Ok (Some old)) as L2 by exact (ix_slot _ _ _ _ _ _ Hix1).
  destruct (with_data_line c2 set way old (reset now) Hc2 L2) as (s' & Hw & Hc3).
  { intros n s' h. apply (reset_law (assoc := assoc)). }
  rewrite Hw. cbn [rbind]. eexists _, limit. split; [done|].
  assert (<[a:=encode set way]> (m_tag_index (set_policy c2 s')) = m_tag_index c2) as Eidx.
  { change (<[a:=encode set way]> (m_tag_index c1) = m_tag_index c1).
    apply insert_id. by rewrite Hindex. }
  split_and!; try done; [|by simpl; simpl in Eidx; rewrite Eidx].
  - replace (set_tag_index (set_policy c2 s') _) with (set_policy c2 s'); [done|].
    unfold set_tag_index. by rewrite Eidx.
Qed.

(** A line [entry] for [a] installed at a free position: what the state
    afterwards needs for the invariant. *)
Record install (c c' : t S) (a set way : Z) (entry : ptr) (e : Entry) : Prop := {
  is_cfg : cfg c' = cfg c;
  is_pages : m_chunk_counters c' = m_chunk_counters c ∧
             m_chunk_redirection_table c' = m_chunk_redirection_table c;
  is_rows : length (m_cache c') = length (m_cache c);
  is_ways : ∀ i row, m_cache c' !! i = Some row → zlen row = m_cache_assoc (cfg c);
  is_rd : replacement_data c' = replacement_data c;
  is_policy : pol_inv (num_lines (cfg c)) (policy c');
  is_arrays : arrays_ok c';
  is_here : slot c' set way = Ok (Some entry);
  is_there : ∀ s w, ¬ (s = set ∧ w = way) → slot c' s w = slot c s w;
  is_entry : heap c' !! entry = Some e;
  is_line : m_Address e = a ∧ replacementData e = Some (handle (cfg c) set way);
  is_others : ∀ s w q, ¬ (s = set ∧ w = way) → slot c s w = Ok (Some q) →
    heap c' !! q = heap c !! q;
  is_code : m_tag_index c' !! a = Some (encode set way);
  is_index : ∀ b x, b ≠ a → m_tag_index c' !! b = Some x ↔
    m_tag_index c !! b = Some x ∧ x ≠ encode set way }.

Lemma install_indexed c c' a set way entry e b s w p f :
  inv c → pos_ok (cfg c) set way → m_tag_index c !! a = None →
  install c c' a set way entry e → b ≠ a →
  indexed c' b s w p f ↔ indexed c b s w p f ∧ ¬ (s = set ∧ w = way).
Proof.
  intros Hc Hp Hn Hi Hb. split.
  - intros [P C L E A]. rewrite (is_cfg _ _ _ _ _ _ _ Hi) in P.
    apply (is_index _ _ _ _ _ _ _ Hi) in C as [C Hne]; [|done].
    assert (¬ (s = set ∧ w = way)) as Hsw by (intros [-> ->]; done).
    rewrite (is_there _ _ _ _ _ _ _ Hi) in L by done.
    rewrite (is_others _ _ _ _ _ _ _ Hi s w p) in E by done. split; [by constructor|done].
  - intros [[P C L E A] Hsw]. constructor.
    + by rewrite (is_cfg _ _ _ _ _ _ _ Hi).
    + apply (is_index _ _ _ _ _ _ _ Hi); [done|]. split; [done|]. intros Ee.
      destruct (pos_16 c Hc _ _ P), (pos_16 c Hc _ _ Hp). apply encode_inj in Ee; tauto.
    + by rewrite (is_there _ _ _ _ _ _ _ Hi).
    + by rewrite (is_others _ _ _ _ _ _ _ Hi s w p).
    + done.
Qed.

Lemma inv_install c c' a set way entry e :
  inv c → pos_ok (cfg c) set way → free_at c set way → m_tag_index c !! a = None →
  install c c' a set way entry e → inv c'.
Proof.
  intros Hc Hp Hf Hn Hi. pose proof (is_cfg _ _ _ _ _ _ _ Hi) as Hg.
  constructor; rewrite ?Hg; try apply Hi; try apply Hc.
  - destruct (inv_pages c Hc), (is_pages _ _ _ _ _ _ _ Hi) as [Ek Er].
    split; rewrite ?Ek, ?Er, ?Hg; done.
  - rewrite (is_rows _ _ _ _ _ _ _ Hi). apply Hc.
  - rewrite (is_rd _ _ _ _ _ _ _ Hi). apply Hc.
  - intros s w q Hq. destruct (decide (s = set ∧ w = way)) as [[-> ->]|Hsw].
    + rewrite (is_here _ _ _ _ _ _ _ Hi) in Hq. injection Hq as <-.
      exists e. split; apply Hi.
    + rewrite (is_there _ _ _ _ _ _ _ Hi) in Hq by done.
      rewrite (is_others _ _ _ _ _ _ _ Hi s w q) by done. by apply (inv_lines c Hc).
  - intros b x Hx. destruct (decide (b = a)) as [->|Hb].
    + exists set, way, entry, e.
      constructor; [by rewrite Hg|apply Hi|apply Hi|apply Hi|apply Hi].
    + pose proof Hx as [Hx' Hne]%(is_index _ _ _ _ _ _ _ Hi); [|done].
      destruct (inv_index c Hc _ _ Hx') as (s & w & p & f & Hix).
      exists s, w, p, f. apply (install_indexed c c' a set way entry e); try done.
      split; [done|]. intros [-> ->]. apply Hne. destruct Hix. congruence.
  - intros s w q f Hq Hf' Hnp. destruct (decide (s = set ∧ w = way)) as [[-> ->]|Hsw].
    + rewrite (is_here _ _ _ _ _ _ _ Hi) in Hq. injection Hq as <-.
      rewrite (is_entry _ _ _ _ _ _ _ Hi) in Hf'. injection Hf' as <-.
      destruct (is_line _ _ _ _ _ _ _ Hi) as [-> _]. apply Hi.
    + rewrite (is_there _ _ _ _ _ _ _ Hi) in Hq by done.
      rewrite (is_others _ _ _ _ _ _ _ Hi s w q) in Hf' by done.
      pose proof (inv_present c Hc _ _ _ _ Hq Hf' Hnp) as Hx.
      apply (is_index _ _ _ _ _ _ _ Hi); [congruence|]. split; [done|].
      intros Ee. pose proof (slot_bounds c Hc _ _ _ Hq) as Hp'.
      destruct (pos_16 c Hc _ _ Hp), (pos_16 c Hc _ _ Hp').
      apply encode_inj in Ee; tauto.
Qed.

(** The view of the protocol after the installation. *)
Lemma install_present c c' a set way entry e b q :
  inv c → pos_ok (cfg c) set way → free_at c set way → m_tag_index c !! a = None →
  install c c' a set way entry e → m_Permission e ≠ NotPresent →
  present c' b q ↔ (b = a ∧ q = entry) ∨ (b ≠ a ∧ present c b q).
Proof.
  intros Hc Hp Hf Hn Hi He.
  pose proof (inv_install _ _ _ _ _ _ _ Hc Hp Hf Hn Hi) as Hc'.
  assert (indexed c' a set way entry e) as Hix.
  { constructor; rewrite ?(is_cfg _ _ _ _ _ _ _ Hi); [done|apply Hi..]. }
  destruct (decide (b = a)) as [->|Hb].
  - split.
    + intros (s & w & f & Hix' & _). left. split; [done|].
      by destruct (indexed_inj c' Hc' _ _ _ _ _ _ _ _ _ Hix Hix') as (_ & _ & -> & _).
    + intros [[_ ->]|[? _]]; [|done]. by exists set, way, e.
  - split.
    + intros (s & w & f & Hix' & Hpf). right. split; [done|].
      apply (install_indexed c c' a set way entry e) in Hix' as [Hix' _]; try done.
      by exists s, w, f.
    + intros [[? _]|[_ (s & w & f & Hix' & Hpf)]]; [done|]. exists s, w, f. split; [|done].
      apply (install_indexed c c' a set way entry e); try done. split; [done|].
      intros [-> ->]. apply (free_not_full c set way q f Hf).
      split_and!; [apply Hix'|apply Hix'|done].
Qed.

(** The state after the clean-up of a free position. *)
Record cleaned (c c1 : t S) (set way : Z) (entry : ptr) : Prop := {
  cl_cfg : cfg c1 = cfg c;
  cl_pages : m_chunk_counters c1 = m_chunk_counters c ∧
             m_chunk_redirection_table c1 = m_chunk_redirection_table c;
  cl_cache : m_cache c1 = m_cache c;
  cl_rd : replacement_data c1 = replacement_data c;
  cl_policy : policy c1 = policy c;
  cl_arrays : arrays_ok c1;
  cl_entry : heap c1 !! entry = heap c !! entry;
  cl_others : ∀ s w q, ¬ (s = set ∧ w = way) → slot c s w = Ok (Some q) →
    heap c1 !! q = heap c !! q;
  cl_index : ∀ b x, m_tag_index c1 !! b = Some x ↔
    m_tag_index c !! b = Some x ∧ x ≠ encode set way }.

(** The only address the index may place at a position is that of its line. *)
Lemma index_at c b set way p e :
  inv c → pos_ok (cfg c) set way → slot c set way = Ok (Some p) → heap c !! p = Some e →
  m_tag_index c !! b = Some (encode set way) → b = m_Address e.
Proof.
  intros Hc Hp Hs He Hb. destruct (inv_index c Hc _ _ Hb) as (s & w & q & f & [P C L E A]).
  assert (encode s w = encode set way) as Ee by congruence.
  destruct (pos_16 c Hc _ _ P), (pos_16 c Hc _ _ Hp).
  apply encode_inj in Ee as [-> ->]; [|done..]. congruence.
Qed.

(** [erase_tag] removes whatever the index places at the position. *)
Lemma erase_tag_spec c set way p e b x :
  inv c → pos_ok (cfg c) set way → slot c set way = Ok (Some p) → heap c !! p = Some e →
  erase_tag (m_tag_index c) (m_Address e) set way !! b = Some x ↔
  m_tag_index c !! b = Some x ∧ x ≠ encode set way.
Proof.
  intros Hc Hp Hs He. destruct (pos_16 c Hc _ _ Hp) as [Hs' Hw'].
  pose proof (λ b, index_at c b set way p e Hc Hp Hs He) as Hat. unfold erase_tag.
  destruct (m_tag_index c !! m_Address e) as [y|] eqn:Ey.
  - destruct (inv_index c Hc _ _ Ey) as (s & w & q & f & [P C L E A]).
    assert (y = encode s w) as -> by congruence.
    destruct (pos_16 c Hc _ _ P) as [Hs1 Hw1].
    destruct (encode_decode s w Hs1 Hw1) as [-> ->].
    destruct (Z.eqb_spec w way) as [->|Hw]; [destruct (Z.eqb_spec s set) as [->|Hne]|]; simpl.
    + rewrite lookup_delete_Some. split; [|naive_solver].
      intros [Hne Hb]. split; [done|]. intros ->. by destruct (Hat _ Hb).
    + split; [|tauto]. intros Hb. split; [done|]. intros ->. rewrite (Hat _ Hb) in Hb.
      assert (encode s way = encode set way) as Ee by congruence.
      apply encode_inj in Ee; tauto.
    + split; [|tauto]. intros Hb. split; [done|]. intros ->. rewrite (Hat _ Hb) in Hb.
      assert (encode s w = encode set way) as Ee by congruence.
      apply encode_inj in Ee; tauto.
  - split; [|tauto]. intros Hb. split; [done|]. intros ->.
    rewrite (Hat _ Hb) in Hb. congruence.
Qed.

Lemma clean_slot_spec c set way s entry :
  inv c → pos_ok (cfg c) set way → slot c set way = Ok s → fresh c entry →
  ∃ c1, clean_slot c set way s entry = Ok c1 ∧ cleaned c c1 set way entry.
Proof.
  intros Hc Hp Hs Hfr. destruct s as [p|]; simpl.
  - destruct (inv_lines c Hc _ _ _ Hs) as (e & He & _).
    rewrite (proj2 (deref_Ok _ _ _) He). cbn [rbind].
    pose proof (fresh_ne _ _ _ _ _ Hfr Hs) as Hne. rewrite decide_False by done.
    fold (collect e c).
    assert (heap (collect e c) = heap c ∧ m_tag_index (collect e c) = m_tag_index c)
      as [Eh Ei] by (unfold collect; by case_match).
    simpl. rewrite Eh, Ei, (free_lookup _ _ _ He). simpl. eexists. split; [done|].
    constructor; simpl; try (unfold collect; by case_match).
    + destruct (inv_arrays _ (inv_collect c e Hc)). by constructor.
    + by rewrite lookup_delete_ne.
    + intros s w q Hsw Hq. rewrite lookup_delete_ne; [done|]. intros ->.
      by destruct Hsw; apply (slot_inj c Hc _ _ _ _ q).
    + intros b x. by apply erase_tag_spec with (p := p).
  - exists c. split; [done|]. constructor; try done; [apply Hc|].
    intros b x. split; [|tauto]. intros Hb. split; [done|]. intros ->.
    destruct (inv_index c Hc _ _ Hb) as (s & w & q & f & [P C L E A]).
    assert (encode s w = encode set way) as Ee by congruence.
    destruct (pos_16 c Hc _ _ P), (pos_16 c Hc _ _ Hp).
    apply encode_inj in Ee as [-> ->]; [|done..]. congruence.
Qed.

(** Writing one position of the slots. *)
Lemma set_slot_spec c set way x :
  zlen (m_cache c) = m_cache_num_sets (cfg c) →
  (∀ i row, m_cache c !! i = Some row → zlen row = m_cache_assoc (cfg c)) →
  pos_ok (cfg c) set way →
  ∃ cs, set_slot c set way x = Ok (set_cache c cs) ∧ length cs = length (m_cache c) ∧
    (∀ i row, cs !! i = Some row → zlen row = m_cache_assoc (cfg c)) ∧
    slot (set_cache c cs) set way = Ok x ∧
    (∀ s w, ¬ (s = set ∧ w = way) → slot (set_cache c cs) s w = slot c s w).
Proof.
  intros Hr Hw [Hs Hwy]. unfold set_slot, slot. simpl.
  destruct (vget_inbounds (m_cache c) set) as (row & Hrow & Hlk); [lia|].
  pose proof (Hw _ _ Hlk) as Hlen. rewrite Hrow. cbn [rbind].
  assert (vset row way x = Ok (<[Z.to_nat way := x]> row)) as E1.
  { apply vset_Ok. split; [lia|done]. }
  rewrite E1. cbn [rbind]. set (row' := <[Z.to_nat way := x]> row) in *.
  assert (vset (m_cache c) set row' = Ok (<[Z.to_nat set := row']> (m_cache c))) as E2.
  { apply vset_Ok. split; [lia|done]. }
  rewrite E2. simpl. eexists. split; [done|]. split; [apply length_insert|]. split_and!.
  - intros i r [(_ & <- & _)|[_ Hi]]%list_lookup_insert_Some; [|by eapply Hw].
    unfold row'. by rewrite length_insert.
  - rewrite (vget_vset_eq _ _ _ _ E2). simpl. by rewrite (vget_vset_eq _ _ _ _ E1).
  - intros s w Hsw. destruct (decide (s = set)) as [->|].
    + rewrite (vget_vset_eq _ _ _ _ E2), Hrow. simpl.
      apply (vget_vset_ne _ _ _ _ _ E1). naive_solver.
    + by rewrite (vget_vset_ne _ _ _ _ _ E2) by done.
Qed.

(** Filling a cleaned position. *)
Lemma fill_slot_spec now c c1 a set way entry e :
  inv c → pos_ok (cfg c) set way → m_tag_index c !! a = None → fresh c entry →
  heap c !! entry = Some e → cleaned c c1 set way entry →
  ∃ c' limit, fill_slot now c1 a set way entry = Ok (entry, c') ∧
    (if m_is_sttram (cfg c) then zone_time (cfg c) set = Ok limit else limit = 0) ∧
    install c c' a set way entry (installed now limit a (handle (cfg c) set way) e) ∧
    stats c' = stats c1.
Proof.
  intros Hc Hp Hn Hfr He Hcl. pose proof (cl_cfg _ _ _ _ _ Hcl) as Eg.
  unfold fill_slot.
  destruct (set_slot_spec c1 set way (Some entry)) as (cs & -> & Hlen & Hrows & Hhere & Hthere).
  { rewrite (cl_cache _ _ _ _ _ Hcl), Eg. apply Hc. }
  { rewrite (cl_cache _ _ _ _ _ Hcl), Eg. apply Hc. }
  { by rewrite Eg. }
  cbn [rbind]. simpl replacement_data. rewrite (cl_rd _ _ _ _ _ Hcl).
  destruct (vget (replacement_data c) set) as [row|] eqn:Er;
    [|by pose proof (inv_rd c Hc set way Hp) as Hrd; rewrite Er in Hrd].
  pose proof (inv_rd c Hc set way Hp) as Hrd. rewrite Er in Hrd. simpl in Hrd.
  cbn [rbind]. rewrite Hrd. cbn [rbind].
  assert (heap c1 !! entry = Some e) as He1 by (by rewrite (cl_entry _ _ _ _ _ Hcl)).
  unfold modify. simpl heap. rewrite (update_lookup _ _ _ _ He1). cbn [rbind rmap].
  simpl cfg. rewrite Eg.
  assert (∃ limit, (if negb (m_is_sttram (cfg c)) then Ok 0 else zone_time (cfg c) set) = Ok limit ∧
    if m_is_sttram (cfg c) then zone_time (cfg c) set = Ok limit else limit = 0)
    as (limit & -> & Hlim).
  { destruct (m_is_sttram (cfg c)); simpl; [|by exists 0].
    destruct (zone_time_Ok (cfg c) (inv_cfg c Hc) set) as (l & Hl); [apply Hp|]. by exists l. }
  cbn [rbind]. simpl heap.
  erewrite update_lookup by apply lookup_insert_eq. cbn [rbind rmap].
  rewrite insert_insert_eq. unfold with_data. simpl heap.
  unfold deref. rewrite lookup_insert_eq. cbn [rbind of_option]. simpl replacementData.
  cbn [rbind of_option]. simpl policy. rewrite (cl_policy _ _ _ _ _ Hcl).
  destruct (reset_law (assoc := assoc) now _ _ (handle (cfg c) set way) (inv_policy c Hc))
    as (pol & -> & Hpol); [by apply handle_lt|].
  cbn [rbind rmap]. eexists _, limit. split; [done|]. split; [done|]. split; [|done].
  constructor; simpl; try done.
  - apply Hcl.
  - by rewrite Hlen, (cl_cache _ _ _ _ _ Hcl).
  - intros i r Hi. rewrite (Hrows i r Hi). by rewrite Eg.
  - apply Hcl.
  - destruct (cl_arrays _ _ _ _ _ Hcl). by constructor.
  - intros s w Hsw. change (slot (set_cache c1 cs) s w = slot c s w). rewrite Hthere by done.
    unfold slot. by rewrite (cl_cache _ _ _ _ _ Hcl).
  - by rewrite lookup_insert_eq.
  - intros s w q Hsw Hq. rewrite lookup_insert_ne by (symmetry; by eapply fresh_ne).
    by apply (cl_others _ _ _ _ _ Hcl s w).
  - by rewrite lookup_insert_eq.
  - intros b x Hb. rewrite lookup_insert_ne by done. apply Hcl.
Qed.

(** The address is new to the index and its set has a free position: the first
    one is filled. *)
Lemma allocate_new_spec now c a s entry e :
  inv c → line_addr (cfg c) a → addressToCacheSet c a = Ok s →
  m_tag_index c !! a = None → fresh c entry → heap c !! entry = Some e →
  (∃ w, pos_ok (cfg c) s w ∧ free_at c s w) →
  ∃ c' way limit, allocate now c a entry = Ok (entry, c') ∧ pos_ok (cfg c) s way ∧
    free_at c s way ∧ (∀ j, 0 ≤ j < way → ∃ p f, full_at c s j p f) ∧
    (if m_is_sttram (cfg c) then zone_time (cfg c) s = Ok limit else limit = 0) ∧
    install c c' a s way entry (installed now limit a (handle (cfg c) s way) e).
Proof.
  intros Hc Ha Hr Hn Hfr He (w & [Hs Hw] & Hfree).
  unfold allocate. rewrite Hr. cbn [rbind].
  destruct (find_ignoring_spec c s a Hc Ha) as [[_ ->]|(? & ? & ? & ? & [] & _)]; [|congruence].
  cbn [rbind]. unfold found_line. simpl (_ =? _). cbn [rbind]. unfold allocate_new.
  destruct (first_free_spec c s Hc Hs) as [(way & -> & Hp & Hf & Hall)|[_ Hall]].
  - cbn [rbind]. destruct (slot_Ok c Hc s way Hp) as (x & Hx). rewrite Hx. cbn [rbind].
    destruct (clean_slot_spec c s way x entry Hc Hp Hx Hfr) as (c1 & -> & Hcl). cbn [rbind].
    destruct (fill_slot_spec now c c1 a s way entry e Hc Hp Hn Hfr He Hcl)
      as (c' & limit & Hfill & Hlim & Hi & _).
    exists c', way, limit. split_and!; try done; apply Hp.
  - destruct (Hall w Hw) as (p & f & Hfull). by destruct (free_not_full _ _ _ _ _ Hfree Hfull).
Qed.

(** With neither, the simulator panics. *)
Lemma allocate_full_spec now c a s entry :
  inv c → line_addr (cfg c) a → addressToCacheSet c a = Ok s → ¬ available c a s →
  allocate now c a entry = Err EPanic.
Proof.
  intros Hc Ha Hr Hav. unfold allocate. rewrite Hr. cbn [rbind].
  destruct (route_Ok c a Hc Ha) as (s' & Hs & Hsr). assert (s' = s) as -> by congruence.
  destruct (find_ignoring_spec c s a Hc Ha) as [[_ ->]|(? & ? & ? & ? & [] & _)];
    [|destruct Hav; left; eauto].
  cbn [rbind]. unfold found_line. simpl (_ =? _). cbn [rbind]. unfold allocate_new.
  destruct (first_free_spec c s Hc Hsr) as [(way & -> & Hp & Hf & _)|[-> _]]; [|done].
  destruct Hav. right. eauto.
Qed.

(** ** deallocate *)

Lemma deallocate_absent c a :
  inv c → line_addr (cfg c) a → m_tag_index c !! a = None → deallocate c a = Ok c.
Proof.
  intros Hc Ha Hn. unfold deallocate. destruct (route_Ok c a Hc Ha) as (s & -> & _). cbn [rbind].
  by destruct (find_ignoring_spec c s a Hc Ha) as [[_ ->]|(? & ? & ? & ? & [] & _)];
    [|congruence].
Qed.

Lemma deallocate_spec c a set way p e :
  inv c → line_addr (cfg c) a → indexed c a set way p e →
  ∃ c', deallocate c a = Ok c' ∧ inv c' ∧ cfg c' = cfg c ∧ m_cache c' = m_cache c ∧
    m_tag_index c' = delete a (m_tag_index c) ∧
    heap c' = <[p := set_Permission NotPresent e]> (heap c) ∧
    stats c' = stats (collect e c) ∧
    m_chunk_counters c' = m_chunk_counters c ∧
    m_chunk_redirection_table c' = m_chunk_redirection_table c.
Proof.
  intros Hc Ha Hix. pose proof Hix as [P C L E A].
  unfold deallocate. destruct (route_Ok c a Hc Ha) as (s & -> & _). cbn [rbind].
  unfold findTagInSetIgnorePermissions. rewrite (indexed_find c Hc _ s a _ _ _ _ Ha Hix).
  cbn [rbind]. rewrite (way_neq c _ _ _ _ _ Hix), L. cbn [rbind of_option].
  rewrite (proj2 (deref_Ok _ _ _) E). cbn [rbind]. fold (collect e c).
  pose proof (inv_collect c e Hc) as Hc0.
  assert (∀ d : t S, d = c ∨ d = count m_zombies_collected c →
    cfg d = cfg c ∧ m_cache d = m_cache c ∧ heap d = heap c ∧ m_tag_index d = m_tag_index c ∧
    m_chunk_counters d = m_chunk_counters c ∧
    m_chunk_redirection_table d = m_chunk_redirection_table c) as Hsame by (by intros d [->| ->]).
  destruct (Hsame (collect e c)) as (Eg & Ec & Eh & Ei & Ek & Et);
    [unfold collect; case_match; auto|]. clear Hsame.
  assert (slot (collect e c) set way = Ok (Some p)) as L0 by (unfold slot; by rewrite Ec).
  destruct (with_data_line (collect e c) set way p invalidate Hc0 L0) as (pol & -> & Hc1).
  { intros n s' h. apply (invalidate_law (assoc := assoc)). }
  cbn [rbind]. unfold modify. simpl heap. rewrite Eh, (update_lookup _ _ _ _ E).
  cbn [rbind rmap]. eexists. split; [done|]. simpl. rewrite Ei. split_and!; try done.
  set (c2 := set_heap (set_policy (collect e c) pol) _).
  assert (inv c2) as Hc2.
  { unfold c2. rewrite <- Eh. apply (inv_line (set_policy (collect e c) pol) p e); try done; [by simpl; rewrite Eh|auto]. }
  replace (delete a (m_tag_index c)) with (delete a (m_tag_index c2)) by (simpl; by rewrite Ei).
  apply inv_unindex; [done|]. intros s' w' q f Hq.
  assert (indexed c2 a set way p (set_Permission NotPresent e)) as Hix2.
  { constructor; simpl; [by rewrite Eg|by rewrite Ei|done|by rewrite lookup_insert_eq|done]. }
  by destruct (indexed_inj c2 Hc2 _ _ _ _ _ _ _ _ _ Hq Hix2) as (_ & _ & _ & ->).
Qed.

End Allocate.

(** ** The protocol's view after the operations *)

Section Views.
Context {S : Type} `{ReplacementPolicy S} `{!PolicyInv S}.
Implicit Types c : t S.

(** One line is rewritten in place to be present, and objects outside the slots
    may disappear. *)
Lemma rewrite_present c c' a set way old e e' b q :
  inv c → inv c' → indexed c a set way old e → cfg c' = cfg c → m_cache c' = m_cache c →
  m_tag_index c' = m_tag_index c → heap c' !! old = Some e' → m_Address e' = a →
  m_Permission e' ≠ NotPresent →
  (∀ s w r, slot c s w = Ok (Some r) → r ≠ old → heap c' !! r = heap c !! r) →
  present c' b q ↔ (b = a ∧ q = old) ∨ (b ≠ a ∧ present c b q).
Proof.
  intros Hc Hc' Hix Eg Ec Ei He' Ha' Hp' Hoth.
  assert (∀ s w, slot c' s w = slot c s w) as Hs by (intros; unfold slot; by rewrite Ec).
  assert (indexed c' a set way old e') as Hix'.
  { destruct Hix. by constructor; rewrite ?Eg, ?Ei, ?Hs. }
  destruct (decide (b = a)) as [->|Hb].
  - split.
    + intros (s & w & f & Hf & _). left. split; [done|].
      by destruct (indexed_inj c' Hc' _ _ _ _ _ _ _ _ _ Hix' Hf) as (_ & _ & -> & _).
    + intros [[_ ->]|[? _]]; [|done]. by exists set, way, e'.
  - assert (∀ s w r f, r ≠ old → slot c s w = Ok (Some r) →
      indexed c' b s w r f ↔ indexed c b s w r f) as Hiff.
    { intros s w r f Hr Hl. split; intros [P C L E A];
        constructor; rewrite ?Eg, ?Ei, ?Hs, ?(Hoth s w r) in *; done. }
    split.
    + intros (s & w & f & Hf & Hpf). right. split; [done|]. exists s, w, f. split; [|done].
      pose proof (ix_slot _ _ _ _ _ _ Hf) as L. rewrite Hs in L. apply Hiff; try done.
      intros ->. destruct Hf as [_ _ _ E A]. congruence.
    + intros [[? _]|[_ (s & w & f & Hf & Hpf)]]; [done|]. exists s, w, f. split; [|done].
      apply Hiff; [|apply Hf|done]. intros ->. destruct Hf as [_ _ _ E A], Hix. congruence.
Qed.

(** One address leaves the index and its line is given up. *)
Lemma remove_present c c' a set way p e b q :
  inv c → indexed c a set way p e → cfg c' = cfg c → m_cache c' = m_cache c →
  m_tag_index c' = delete a (m_tag_index c) → (∀ r, r ≠ p → heap c' !! r = heap c !! r) →
  present c' b q ↔ b ≠ a ∧ present c b q.
Proof.
  intros Hc Hix Eg Ec Ei Hoth.
  assert (∀ s w, slot c' s w = slot c s w) as Hs by (intros; unfold slot; by rewrite Ec).
  assert (∀ s w, b ≠ a → slot c s w = Ok (Some q) → m_tag_index c !! b = Some (encode s w) →
    q ≠ p) as Hqp.
  { intros s w Hne L C ->. destruct Hix as [P C' L' E A].
    destruct (slot_inj c Hc _ _ _ _ _ L L') as [-> ->].
    pose proof (index_at c b set way p e Hc P L' E C). congruence. }
  split.
  - intros (s & w & f & [P C L E A] & Hp). rewrite Ei in C. rewrite Eg in P. rewrite Hs in L.
    apply lookup_delete_Some in C as [Hne C]. split; [done|].
    exists s, w, f. split; [|done]. rewrite Hoth in E; [by constructor|]. by eapply Hqp.
  - intros (Hne & s & w & f & [P C L E A] & Hp). exists s, w, f. split; [|done].
    constructor; rewrite ?Eg, ?Ei, ?Hs; try done; [by rewrite lookup_delete_ne|].
    rewrite Hoth; [done|]. by eapply Hqp.
Qed.

End Views.
