(* ===== verification/CacheProbe.v ===== *)
(** The choice of a victim: [cacheProbe] in a full set. *)

From stdpp Require Import prelude gmap.
From Stdlib Require Import ZArith Lia.
From S2P Require Import Prelude Bits SatCounter Replacement ReplacementSpec Resources.
From S2P Require Import CacheEntry CacheMemory CacheGeometry CacheInv CacheAlloc.

Import CacheMemory.
Open Scope Z_scope.

(** ** The loops over a full set *)

Definition full_set {S} (c : t S) (set : Z) : Prop :=
  ∀ j, 0 ≤ j < m_cache_assoc (cfg c) → ∃ p e, full_at c set j p e.

(** A line whose retention is over and that waits for nothing. *)
Definition zombie (e : Entry) : Prop := m_is_expired e = true ∧ m_Permission e ≠ Busy.

Section FullSet.
Context {S : Type} `{ReplacementPolicy S} `{!PolicyInv S}.
Implicit Types c : t S.

Lemma full_at_fun c set j p e p' e' : full_at c set j p e → full_at c set j p' e' → p = p' ∧ e = e'.
Proof. intros (L & E & _) (L' & E' & _). split; congruence. Qed.

Lemma full_indexed c set j p e :
  inv c → full_at c set j p e → indexed c (m_Address e) set j p e.
Proof.
  intros Hc (L & E & Hp). constructor; try done; [by eapply slot_bounds|].
  by apply (inv_present c Hc _ _ p).
Qed.

Lemma first_expired_from c set n i :
  full_set c set → 0 ≤ i → i + Z.of_nat n = m_cache_assoc (cfg c) →
  (∃ w p e, first_expired c set n i = Ok (Some (m_Address e)) ∧
     i ≤ w < m_cache_assoc (cfg c) ∧ full_at c set w p e ∧ zombie e ∧
     ∀ j q f, i ≤ j < w → full_at c set j q f → ¬ zombie f) ∨
  (first_expired c set n i = Ok None ∧
     ∀ j q f, i ≤ j < m_cache_assoc (cfg c) → full_at c set j q f → ¬ zombie f).
Proof.
  intros Hfull. revert i. induction n as [|n IH]; intros i Hi Hn; simpl; [right; split; [done|lia]|].
  destruct (Hfull i) as (p & e & Hf); [lia|]. pose proof Hf as (L & E & Hp).
  rewrite L. cbn [rbind]. rewrite (proj2 (deref_Ok _ _ _) E). cbn [rbind].
  destruct (m_is_expired e && negb (bool_decide (m_Permission e = Busy))) eqn:Eb.
  - left. apply andb_prop in Eb as [Hex Hb]. apply negb_true_iff, bool_decide_eq_false in Hb.
    exists i, p, e. split_and!; try done; try lia.
  - assert (∀ q f, full_at c set i q f → ¬ zombie f) as Hnz.
    { intros q f Hqf [Hex Hbusy]. destruct (full_at_fun _ _ _ _ _ _ _ Hf Hqf) as [<- <-].
      rewrite Hex, bool_decide_false in Eb by done. done. }
    destruct (IH (i + 1)) as [(w & q & f & Hw & Hr & Hwf & Hz & Hall)|[Hw Hall]]; [lia..| |].
    + left. exists w, q, f. split_and!; try done; try lia; [].
      intros j q' f' Hj Hjf. destruct (decide (j = i)) as [->|]; [by eapply Hnz|].
      eapply Hall; [|done]. lia.
    + right. split; [done|]. intros j q f Hj Hjf.
      destruct (decide (j = i)) as [->|]; [by eapply Hnz|]. eapply Hall; [|done]. lia.
Qed.

(** The candidates of a full set carry the replacement data of the set, in
    order. *)
Lemma candidates_row c row base :
  (∀ j s, row !! j = Some s → ∃ p e, s = Some p ∧ heap c !! p = Some e ∧
     replacementData e = Some (base + j)%nat) →
  ∃ cs, candidates c row = Ok cs ∧ cs.*2 = seq base (length row) ∧ Some <$> cs.*1 = row.
Proof.
  revert base. induction row as [|s row IH]; intros base Hr; simpl.
  { exists []. done. }
  destruct (Hr 0%nat s eq_refl) as (p & e & -> & E & Hd). cbn [rbind of_option].
  rewrite (proj2 (deref_Ok _ _ _) E). cbn [rbind]. rewrite Hd. cbn [rbind of_option].
  destruct (IH (Datatypes.S base)) as (cs & -> & H2 & H1).
  { intros j s Hj. destruct (Hr (Datatypes.S j) s Hj) as (q & f & ? & ? & Hf).
    exists q, f. split_and!; try done. rewrite Hf. f_equal. lia. }
  exists ((p, (base + 0)%nat) :: cs). cbn [rbind]. split; [done|].
  rewrite !fmap_cons, H2, H1, Nat.add_0_r. done.
Qed.

Lemma candidates_spec c set :
  inv c → 0 ≤ set < m_cache_num_sets (cfg c) → full_set c set →
  ∃ row cs, vget (m_cache c) set = Ok row ∧ candidates c (take (ways c) row) = Ok cs ∧
    cs.*2 = seq (Z.to_nat set * ways c) (ways c) ∧
    (∀ j p, cs.*1 !! j = Some p ↔ slot c set (Z.of_nat j) = Ok (Some p)).
Proof.
  intros Hc Hs Hfull. pose proof (wf_assoc _ (inv_cfg c Hc)) as Has.
  destruct (vget_inbounds (m_cache c) set) as (row & Hr & Hlk); [by rewrite inv_rows|].
  pose proof (inv_ways c Hc _ _ Hlk) as Hlen.
  assert (∀ j s, row !! j = Some s ↔ slot c set (Z.of_nat j) = Ok s) as Hrow.
  { intros j s. unfold slot. rewrite Hr. cbn [rbind]. rewrite vget_Ok, Nat2Z.id.
    split; [|tauto]. intros; split; [lia|done]. }
  destruct (candidates_row c row (Z.to_nat set * ways c)) as (cs & Hcs & H2 & H1).
  { intros j s Hj. pose proof (lookup_lt_Some _ _ _ Hj).
    destruct (Hfull (Z.of_nat j)) as (p & e & Hf); [lia|]. pose proof Hf as (L & E & _).
    apply Hrow in Hj. assert (s = Some p) as -> by congruence.
    destruct (inv_lines c Hc _ _ _ L) as (e' & E' & Hd). exists p, e'. split_and!; [done..|].
    rewrite Hd. unfold handle, ways. by rewrite Nat2Z.id. }
  exists row, cs. rewrite take_ge by (unfold ways; lia). split; [done|]. split; [done|]. split.
  { rewrite H2. unfold ways. f_equal. lia. }
  intros j p. rewrite <- Hrow, <- H1, (list_lookup_fmap Some).
  destruct (cs.*1 !! j); simpl; split; congruence.
Qed.

(** The way of a line of the set is found again by its pointer. *)
Lemma find_pointer_from c set v p n i :
  inv c → 0 ≤ set < m_cache_num_sets (cfg c) → slot c set v = Ok (Some p) → 0 ≤ i ≤ v →
  i + Z.of_nat n = m_cache_assoc (cfg c) → find_pointer c set p n i = Ok v.
Proof.
  intros Hc Hs Hv. revert i. induction n as [|n IH]; intros i Hi Hn; simpl.
  { destruct (slot_bounds c Hc _ _ _ Hv). lia. }
  destruct (slot_Ok c Hc set i) as (s & Hsl); [split; lia|]. rewrite Hsl. cbn [rbind].
  case_decide as Hd.
  - subst s. by destruct (slot_inj c Hc _ _ _ _ _ Hsl Hv) as [_ ->].
  - apply IH; [|lia]. split; [lia|]. destruct (decide (i = v)) as [->|]; [congruence|lia].
Qed.

(** [oldest_safe]: the first of the lines not busy with the smallest last
    access below the bound, or the way passed in. *)
Lemma oldest_safe_from c set n i bound best :
  full_set c set → 0 ≤ i → i + Z.of_nat n = m_cache_assoc (cfg c) →
  ∃ w, oldest_safe c set n i bound best = Ok w ∧
    ((w = best ∧ ∀ j p e, i ≤ j < m_cache_assoc (cfg c) → full_at c set j p e →
        m_Permission e ≠ Busy → bound ≤ getLastAccess e) ∨
     (i ≤ w < m_cache_assoc (cfg c) ∧ ∃ p e, full_at c set w p e ∧ m_Permission e ≠ Busy ∧
        getLastAccess e < bound ∧
        ∀ j q f, i ≤ j < m_cache_assoc (cfg c) → full_at c set j q f →
          m_Permission f ≠ Busy → getLastAccess e ≤ getLastAccess f)).
Proof.
  intros Hfull. revert i bound best.
  induction n as [|n IH]; intros i bound best Hi Hn; simpl.
  { exists best. split; [done|]. left. split; [done|]. lia. }
  destruct (Hfull i) as (p & e & Hf); [lia|]. pose proof Hf as (L & E & _).
  rewrite L. cbn [rbind]. rewrite (proj2 (deref_Ok _ _ _) E). cbn [rbind].
  assert (∀ q f, full_at c set i q f → f = e) as Hi1.
  { intros q f Hqf. by destruct (full_at_fun _ _ _ _ _ _ _ Hf Hqf). }
  assert (∀ j, i ≤ j → j = i ∨ i + 1 ≤ j) as Hj by lia.
  destruct (negb (bool_decide (m_Permission e = Busy)) && (getLastAccess e <? bound)) eqn:Eb.
  - apply andb_prop in Eb as [Hb Hlt]. apply negb_true_iff, bool_decide_eq_false in Hb.
    apply Z.ltb_lt in Hlt.
    destruct (IH (i + 1) (getLastAccess e) i) as (w & -> & [[-> Hall]|(Hw & q & f & Hqf & Hq & Hql & Hall)]);
      [lia..| |]; (eexists; split; [done|]); right.
    + split; [lia|]. exists p, e. split_and!; try done. intros j q f Hij Hjf Hfb.
      destruct (Hj j) as [->|]; [lia|by rewrite (Hi1 _ _ Hjf)|]. eapply Hall; [|done..]. lia.
    + split; [lia|]. exists q, f. split_and!; try done; [lia|]. intros j q' f' Hij Hjf Hfb.
      destruct (Hj j) as [->|]; [lia|rewrite (Hi1 _ _ Hjf); lia|]. eapply Hall; [|done..]. lia.
  - assert (m_Permission e ≠ Busy → bound ≤ getLastAccess e) as Hskip.
    { intros Hb. rewrite bool_decide_false in Eb by done. simpl in Eb. by apply Z.ltb_ge. }
    destruct (IH (i + 1) bound best) as (w & -> & [[-> Hall]|(Hw & q & f & Hqf & Hq & Hql & Hall)]);
      [lia..| |]; (eexists; split; [done|]); [left|right].
    + split; [done|]. intros j q f Hij Hjf Hfb.
      destruct (Hj j) as [->|]; [lia| |eapply Hall; [|done..]; lia].
      rewrite (Hi1 _ _ Hjf) in *. auto.
    + split; [lia|]. exists q, f. split_and!; try done. intros j q' f' Hij Hjf Hfb.
      destruct (Hj j) as [->|]; [lia| |eapply Hall; [|done..]; lia].
      rewrite (Hi1 _ _ Hjf) in *. specialize (Hskip Hfb). lia.
Qed.

End FullSet.

(** ** cacheProbe *)

Section Probe.
Context {S : Type} `{ReplacementPolicy S} `{!PolicyInv S} (assoc : nat) `{!PolicyLaws S assoc}.
Implicit Types c : t S.

(** How the victim [e] at [way] was chosen in the full set [s]: the first
    zombie; without one, the policy's choice if it is not busy; else the least
    recently accessed of the lines not busy; and way 0 when all are busy. *)
Inductive chosen c (s way : Z) (e : Entry) : Prop :=
| chosen_zombie
    (Hz : zombie e)
    (Hfirst : ∀ j q f, 0 ≤ j < way → full_at c s j q f → ¬ zombie f)
| chosen_policy v pol
    (Hnone : ∀ j q f, full_at c s j q f → ¬ zombie f)
    (Hpol : getVictim (seq (Z.to_nat s * ways c) (ways c)) (policy c) = Ok (v, pol))
    (Hway : way = Z.of_nat v)
    (Hidle : m_Permission e ≠ Busy)
| chosen_oldest v pol q f
    (Hnone : ∀ j q f, full_at c s j q f → ¬ zombie f)
    (Hpol : getVictim (seq (Z.to_nat s * ways c) (ways c)) (policy c) = Ok (v, pol))
    (Hv : full_at c s (Z.of_nat v) q f)
    (Hbusy : m_Permission f = Busy)
    (Hidle : m_Permission e ≠ Busy)
    (Holdest : ∀ j q f, full_at c s j q f → m_Permission f ≠ Busy →
       getLastAccess e ≤ getLastAccess f)
| chosen_forced
    (Hall : ∀ j q f, full_at c s j q f → m_Permission f = Busy)
    (Hway : way = 0).

Lemma address_at_full c s w p e : full_at c s w p e → address_at c s w = Ok (m_Address e).
Proof.
  intros (L & E & _). unfold address_at. rewrite L. cbn [rbind of_option].
  by rewrite (proj2 (deref_Ok _ _ _) E).
Qed.

Lemma permission_at_full c s w p e : full_at c s w p e → permission_at c s w = Ok (m_Permission e).
Proof.
  intros (L & E & _). unfold permission_at. rewrite L. cbn [rbind of_option].
  by rewrite (proj2 (deref_Ok _ _ _) E).
Qed.

Lemma oldest_safe_policy c pol s n i bound best :
  oldest_safe (set_policy c pol) s n i bound best = oldest_safe c s n i bound best.
Proof.
  revert i bound best. induction n as [|n IH]; intros i bound best; [done|]. simpl.
  change (slot (set_policy c pol) s i) with (slot c s i).
  destruct (slot c s i) as [[p|]|]; cbn [rbind]; [|apply IH|done].
  destruct (deref (heap c) p) as [e|]; cbn [rbind]; [|done]. by case_match.
Qed.

(** The fallback when the policy's choice is busy. *)
Lemma safe_victim now c s v pol q f :
  inv c → 0 ≤ s < m_cache_num_sets (cfg c) → full_set c s →
  (∀ j q f, full_at c s j q f → ¬ zombie f) →
  getVictim (seq (Z.to_nat s * ways c) (ways c)) (policy c) = Ok (v, pol) →
  full_at c s (Z.of_nat v) q f → m_Permission f = Busy →
  (∀ j q f, full_at c s j q f → getLastAccess f ≤ now) → 0 ≤ now < 2 ^ 64 - 1 →
  ∃ sw way p e, oldest_safe c s (ways c) 0 (u64 (now + 1)) (-1) = Ok sw ∧
    way = (if sw =? -1 then 0 else sw) ∧ full_at c s way p e ∧ chosen c s way e.
Proof.
  intros Hc Hs Hfull Hnone Hpol Hv Hbusy Hold Hnow. pose proof (wf_assoc _ (inv_cfg c Hc)).
  assert (∀ j q f, full_at c s j q f → 0 ≤ j < m_cache_assoc (cfg c)) as Hr.
  { intros j q0 f0 (L & _). by destruct (slot_bounds c Hc _ _ _ L). }
  rewrite u64_small by lia.
  destruct (oldest_safe_from c s (ways c) 0 (now + 1) (-1) Hfull) as
    (w & Hw & [[-> Hall]|(Hwr & p & e & Hp & Hidle & _ & Hmin)]); [lia|unfold ways; lia|..].
  - destruct (Hfull 0) as (p & e & Hp); [lia|]. exists (-1), 0, p, e. split_and!; try done.
    apply chosen_forced; [|done]. intros j q0 f0 Hj.
    destruct (decide (m_Permission f0 = Busy)) as [|Hb]; [done|].
    pose proof (Hall j q0 f0 (Hr _ _ _ Hj) Hj Hb). pose proof (Hold _ _ _ Hj). lia.
  - exists w, w, p, e. rewrite (proj2 (Z.eqb_neq w (-1))) by lia. split_and!; try done.
    apply (chosen_oldest c s w e v pol q f); try done.
    intros j q0 f0 Hj. apply (Hmin j q0 f0 (Hr _ _ _ Hj) Hj).
Qed.

Lemma cacheProbe_chosen now c a s :
  inv c → line_addr (cfg c) a → addressToCacheSet c a = Ok s → cacheAvail c a = Ok false →
  ways c = assoc → (∀ j q f, full_at c s j q f → getLastAccess f ≤ now) → 0 ≤ now < 2 ^ 64 - 1 →
  ∃ pol way p e, cacheProbe now c a = Ok (m_Address e, set_policy c pol) ∧
    inv (set_policy c pol) ∧ full_at c s way p e ∧ chosen c s way e.
Proof.
  intros Hc Ha Hr Hav Hways Hold Hnow.
  destruct (route_Ok c a Hc Ha) as (s' & Hs' & Hs). assert (s' = s) as -> by congruence.
  destruct (cacheAvail_available c a s Hc Ha Hr) as (b & Hb & _ & Hfull).
  assert (b = false) as -> by congruence. specialize (Hfull eq_refl). fold (full_set c s) in Hfull.
  pose proof (wf_assoc _ (inv_cfg c Hc)). pose proof Ha as [_ Hl].
  unfold cacheProbe. rewrite Hl. cbn [rbind]. rewrite Z.eqb_refl. cbn [rbind require].
  rewrite Hav. cbn [rbind negb require]. rewrite Hr. cbn [rbind].
  assert (∀ j q f, full_at c s j q f → 0 ≤ j < m_cache_assoc (cfg c)) as Hrange.
  { intros j q f (L & _). by destruct (slot_bounds c Hc _ _ _ L). }
  destruct (first_expired_from c s (ways c) 0 Hfull) as
    [(w & p & e & -> & _ & Hp & Hz & Hfirst)|[-> Hnone]]; [lia|unfold ways; lia|..]; cbn [rbind].
  { exists (policy c), w, p, e. split_and!; [by destruct c|by destruct c|done|by apply chosen_zombie]. }
  destruct (candidates_spec c s Hc Hs Hfull) as (row & cs & -> & Hcs & H2 & H1). cbn [rbind].
  rewrite Hcs. cbn [rbind]. rewrite H2.
  destruct (victim_law (assoc := assoc) _ _ (Z.to_nat s) (inv_policy c Hc)) as (v & pol & Hv & Hlt & Hpol).
  { unfold num_lines. unfold ways in Hways. rewrite Hways. nia. }
  rewrite <- Hways in Hv, Hlt. rewrite Hv. cbn [rbind].
  pose proof (inv_set_policy c pol Hc Hpol) as Hc'.
  destruct (Hfull (Z.of_nat v)) as (q & f & Hq); [unfold ways in Hlt; lia|].
  rewrite (proj2 (H1 v q)) by apply Hq. cbn [rbind of_option].
  change (ways (set_policy c pol)) with (ways c).
  rewrite (find_pointer_from (set_policy c pol) s (Z.of_nat v) q (ways c) 0 Hc') by
    (try apply Hq; try done; unfold ways; simpl; lia).
  cbn [rbind]. rewrite (proj2 (Z.eqb_neq (Z.of_nat v) (-1))) by lia.
  change (permission_at (set_policy c pol) s) with (permission_at c s).
  rewrite (permission_at_full c s _ _ _ Hq). cbn [rbind]. case_decide as Hbusy.
  - rewrite oldest_safe_policy.
    destruct (safe_victim now c s v pol q f) as (sw & way & p & e & -> & -> & Hp & Hch); try done.
    { intros j q0 f0 Hj. by apply (Hnone j q0 f0 (Hrange _ _ _ Hj)). }
    cbn [rbind]. change (address_at (set_policy c pol) s) with (address_at c s).
    rewrite (address_at_full c s _ _ _ Hp). cbn [rbind]. by exists pol, (if sw =? -1 then 0 else sw), p, e.
  - change (address_at (set_policy c pol) s) with (address_at c s).
    rewrite (address_at_full c s _ _ _ Hq). cbn [rbind]. exists pol, (Z.of_nat v), q, f.
    split_and!; try done. apply (chosen_policy c s _ f v pol); try done.
    intros j q0 f0 Hj. by apply (Hnone j q0 f0 (Hrange _ _ _ Hj)).
Qed.

End Probe.
