(* ===== verification/CacheRequests.v ===== *)
(** Requests to the arrays: [recordRequestType] with the counting of writes to
    pages, [checkResourceAvailable] and [getRetentionLatency]. *)

From stdpp Require Import prelude gmap.
From Stdlib Require Import ZArith Lia.
From S2P Require Import Prelude Bits SatCounter Replacement ReplacementSpec Resources.
From S2P Require Import CacheEntry CacheMemory CacheGeometry CacheInv CacheAlloc.

Import CacheMemory.
Open Scope Z_scope.

(** ** The steps of a request *)

Definition same_pages {S} (c c' : t S) : Prop :=
  m_chunk_counters c' = m_chunk_counters c ∧
  m_chunk_redirection_table c' = m_chunk_redirection_table c.

Section Steps.
Context {S : Type} `{ReplacementPolicy S} `{!PolicyInv S}.
Implicit Types c : t S.

Lemma bump_at_Ok k i st :
  0 ≤ i < zlen (vectors st k) → ∃ st', bump_at k i st = Ok st' ∧ same_vectors st st'.
Proof.
  intros Hi. unfold bump_at. rewrite (proj2 (Z.leb_le _ _)), (proj2 (Z.ltb_lt _ _)) by lia.
  cbn [andb rbind require]. destruct (vget_inbounds (vectors st k) i Hi) as (x & -> & _).
  cbn [rbind]. destruct (vset _ _ _) as [v|] eqn:Hv; [|by unfold vset in Hv; case_decide].
  cbn [rbind]. eexists. split; [done|]. intros k'. simpl.
  case_decide; [subst k'; by eapply vset_length|done].
Qed.

Lemma chunk_range c set :
  inv c → 0 ≤ set < m_cache_num_sets (cfg c) →
  0 ≤ getChunkId set < m_cache_num_sets (cfg c) / 4.
Proof.
  intros Hc Hs. destruct (wf_chunks _ (inv_cfg c Hc)) as [k Hk].
  pose proof (wf_sets _ (inv_cfg c Hc)). unfold getChunkId.
  assert (0 ≤ set / 4 < k) by (split; [apply Z.div_pos|apply Z.div_lt_upper_bound]; lia).
  rewrite Z.quot_div_nonneg, i32_small, Hk, Z.div_mul by lia. done.
Qed.

Lemma chunk_read_Ok c i :
  inv c → 0 ≤ i < m_cache_num_sets (cfg c) / 4 →
  ∃ c', chunk_read c i = Ok c' ∧ inv c' ∧ frame c c' ∧ same_pages c c'.
Proof.
  intros Hc Hi. destruct (inv_arrays c Hc). unfold chunk_read.
  destruct (vget_inbounds (m_chunk c) i) as (x & -> & _); [lia|]. cbn [rbind].
  destruct (vset _ _ _) as [v|] eqn:Hv; [|unfold vset in Hv; case_decide; [done|lia]].
  cbn [rbind]. destruct (bump_at_Ok m_chunk_reads i (stats c)) as (st & -> & Hst); [lia|].
  cbn [rbind]. eexists. split; [done|]. split; [|done].
  apply inv_set_stats; [|done]. apply inv_set_chunk; [done|]. by eapply vset_length.
Qed.

Lemma chunk_write_Ok c i :
  inv c → 0 ≤ i < m_cache_num_sets (cfg c) / 4 →
  ∃ c', chunk_write c i = Ok c' ∧ inv c' ∧ frame c c' ∧ same_pages c c'.
Proof.
  intros Hc Hi. destruct (inv_arrays c Hc). unfold chunk_write.
  destruct (vget_inbounds (m_chunk c) i) as (x & -> & _); [lia|]. cbn [rbind].
  destruct (vset _ _ _) as [v|] eqn:Hv; [|unfold vset in Hv; case_decide; [done|lia]].
  cbn [rbind]. destruct (bump_at_Ok m_chunk_writes i (stats c)) as (st & -> & Hst); [lia|].
  cbn [rbind]. eexists. split; [done|]. split; [|done].
  apply inv_set_stats; [|done]. apply inv_set_chunk; [done|]. by eapply vset_length.
Qed.

Lemma reserve_data_Ok now c a lat :
  inv c → line_addr (cfg c) a →
  ∃ c', reserve_data now c a lat = Ok c' ∧ inv c' ∧ frame c c' ∧ same_pages c c'.
Proof.
  intros Hc Ha. unfold reserve_data. case_match; [|by exists c].
  destruct (route_Ok c a Hc Ha) as (s & -> & Hs). cbn [rbind].
  destruct (inv_arrays c Hc).
  destruct (reserve_Ok now (dataArray c) s lat) as (d & -> & Hd); [done|lia|].
  cbn [rbind]. eexists. split; [done|]. split; [|done]. by apply inv_set_arrays.
Qed.

Lemma reserve_tag_Ok now c a lat :
  inv c → line_addr (cfg c) a →
  ∃ c', reserve_tag now c a lat = Ok c' ∧ inv c' ∧ frame c c' ∧ same_pages c c'.
Proof.
  intros Hc Ha. unfold reserve_tag. case_match; [|by exists c].
  destruct (route_Ok c a Hc Ha) as (s & -> & Hs). cbn [rbind].
  destruct (inv_arrays c Hc).
  destruct (reserve_Ok now (tagArray c) s lat) as (d & -> & Hd); [done|lia|].
  cbn [rbind]. eexists. split; [done|]. split; [|done]. by apply inv_set_arrays.
Qed.

(** *** Counting the writes to a page *)

(** The counter of a page, 0 for a page never written. *)
Definition page_count c (page : Z) : Z :=
  match m_chunk_counters c !! page with Some k => counter k | None => 0 end.

Lemma page_counter c page :
  inv c → ∃ k, match m_chunk_counters c !! page with Some k => Ok k | None => newSat 8 4 0 end = Ok k ∧
    sat_wf 8 k ∧ maxVal k = 15 ∧ counter k = page_count c page.
Proof.
  intros Hc. unfold page_count. destruct (m_chunk_counters c !! page) as [k|] eqn:Ek.
  - destruct (inv_pages c Hc) as [Hk _]. destruct (Hk _ _ Ek). by exists k.
  - exists (mkSat 0 15 0). split; [done|]. split; [|done]. unfold sat_wf. simpl. lia.
Qed.

(** A data write counts up to 15; the write that reaches 15 redirects the page
    to the offset [page mod zone_size]; redirected pages count no more. *)
Lemma count_page_write_spec c page :
  inv c → 0 ≤ page < 2 ^ 64 → m_lazy_redirection_scheme (cfg c) = true →
  ∃ c', count_page_write c page = Ok c' ∧ inv c' ∧ frame c c' ∧
    match m_chunk_redirection_table c !! page with
    | Some _ => page_count c' page = page_count c page ∧
        m_chunk_redirection_table c' = m_chunk_redirection_table c
    | None => page_count c' page = Z.min 15 (page_count c page + 1) ∧
        m_chunk_redirection_table c' =
          if page_count c' page =? 15
          then <[page := page mod zone_size (cfg c)]> (m_chunk_redirection_table c)
          else m_chunk_redirection_table c
    end ∧
    (∀ page', page' ≠ page → page_count c' page' = page_count c page').
Proof.
  intros Hc Hp Hlazy. unfold count_page_write. rewrite Hlazy.
  destruct (page_counter c page Hc) as (k & -> & Hk & Hmax & Hcount). cbn [rbind].
  destruct (inv_pages c Hc) as [Hks Hrs].
  destruct (m_chunk_redirection_table c !! page) as [off|] eqn:Er.
  - eexists. split; [done|]. split.
    { apply inv_set_redirection; [done|]. split; simpl; [|done].
      intros pg k' [[<- <-]|[_ ?]]%lookup_insert_Some; [done|by eapply Hks]. }
    split; [done|]. unfold page_count in *; simpl. rewrite lookup_insert_eq. split; [done|].
    intros page' ?. by rewrite lookup_insert_ne.
  - set (k' := (sat_post_inc k).2).
    assert (sat_wf 8 k' ∧ maxVal k' = 15 ∧ counter k' = Z.min 15 (page_count c page + 1))
      as (Hk' & Hmax' & Hcount').
    { destruct Hk as (? & ? & ?). unfold k', sat_post_inc, sat_inc, sat_wf. simpl.
      destruct (Z.ltb_spec (counter k) (maxVal k)); simpl; lia. }
    clearbody k'.
    assert (∀ r, (∀ pg off, r !! pg = Some off → 0 ≤ off < zone_size (cfg c)) →
      pages_wf (set_redirection c (<[page:=k']> (m_chunk_counters c)) r)) as Hwf.
    { intros r Hr. split; simpl; [|done].
      intros pg k0 [[<- <-]|[_ ?]]%lookup_insert_Some; [done|by eapply Hks]. }
    assert (∀ r, page_count (set_redirection c (<[page:=k']> (m_chunk_counters c)) r) page
                 = counter k') as Hpc.
    { intros r. unfold page_count; simpl. by rewrite lookup_insert_eq. }
    assert (∀ r page', page' ≠ page →
      page_count (set_redirection c (<[page:=k']> (m_chunk_counters c)) r) page'
      = page_count c page') as Hpn.
    { intros r page' ?. unfold page_count; simpl. by rewrite lookup_insert_ne. }
    unfold isSaturated. rewrite Hmax'. destruct (Z.eqb_spec (counter k') 15) as [Hsat|Hns].
    + simpl cfg. pose proof (wf_zones _ (inv_cfg c Hc)).
      pose proof (zone_size_pos _ (inv_cfg c Hc)) as Hz. pose proof (wf_sets _ (inv_cfg c Hc)).
      assert (zone_size (cfg c) ≤ m_cache_num_sets (cfg c)) by (apply Z.div_le_upper_bound; nia).
      rewrite (threshold_get _ (inv_cfg c Hc) 0) by lia. rewrite Z.add_0_l, Z.mul_1_l. cbn [rbind].
      rewrite (proj2 (Z.eqb_neq _ 0)) by lia. cbn [rbind require negb].
      pose proof (Z.mod_pos_bound page (zone_size (cfg c))).
      rewrite u64_small, i32_small by (rewrite ?u64_small; lia).
      eexists. split; [done|]. split_and!.
      * apply inv_count. apply (inv_set_redirection c (<[page:=k']> _) (<[page:=_]> _)); [done|]. apply Hwf.
        intros pg off [[<- <-]|[_ ?]]%lookup_insert_Some; [lia|by eapply Hrs].
      * done.
      * rewrite <- Hcount'. exact (Hpc _).
      * match goal with |- context [page_count ?d page =? 15] =>
          replace (page_count d page) with (counter k') by (symmetry; exact (Hpc _)) end.
        by rewrite Hsat.
      * intros page' Hne. exact (Hpn _ page' Hne).
    + eexists. split; [done|]. split_and!.
      * apply inv_set_redirection; [done|]. by apply Hwf.
      * done.
      * rewrite <- Hcount'. exact (Hpc _).
      * rewrite Hpc. by rewrite (proj2 (Z.eqb_neq _ _) Hns).
      * intros page' Hne. exact (Hpn _ page' Hne).
Qed.

Lemma count_page_write_Ok c page :
  inv c → 0 ≤ page < 2 ^ 64 → ∃ c', count_page_write c page = Ok c' ∧ inv c' ∧ frame c c'.
Proof.
  intros Hc Hp. destruct (m_lazy_redirection_scheme (cfg c)) eqn:El.
  - destruct (count_page_write_spec c page Hc Hp El) as (c' & ? & ? & ? & _). eauto.
  - exists c. unfold count_page_write. by rewrite El.
Qed.

(** *** The common part of a request *)

(** The line of a request: none when the index does not know the address. *)
Definition request_line c c1 (now a set : Z) (entry : option ptr) : Prop :=
  (m_tag_index c !! a = None ∧ entry = None) ∨
  ∃ way p e, indexed c a set way p e ∧ entry = Some p ∧
    indexed c1 a set way p (setLastAccess now e).

Lemma record_prologue_spec now c a s :
  inv c → line_addr (cfg c) a → addressToCacheSet c a = Ok s →
  ∃ z set entry c1, record_prologue now c a = Ok (z, getChunkId s, set, entry, c1) ∧
    getRetentionZone (cfg c) s = Ok z ∧ 0 ≤ set < m_cache_num_sets (cfg c) ∧
    inv c1 ∧ frame c c1 ∧ same_pages c c1 ∧ request_line c c1 now a set entry.
Proof.
  intros Hc Ha Hr. destruct (route_Ok c a Hc Ha) as (s' & Hs' & Hs).
  assert (s' = s) as -> by congruence. unfold record_prologue. rewrite Hr. cbn [rbind].
  destruct (bump_at_Ok m_accesses_per_set s (stats c)) as (st & -> & Hst).
  { destruct (inv_arrays c Hc). lia. }
  cbn [rbind]. set (c0 := match m_chunk_counters (set_stats c st) !! _ with
                          | Some _ => _ | None => _ end).
  assert (inv c0 ∧ frame c c0 ∧ same_pages c c0 ∧ m_tag_index c0 = m_tag_index c ∧
          heap c0 = heap c ∧ m_cache c0 = m_cache c) as (Hc0 & Hf0 & Hp0 & Hi0 & Hh0 & Hm0).
  { pose proof (inv_set_stats c st Hc Hst) as Hst'. unfold c0. repeat case_match; split_and!;
      try done; by apply inv_count. }
  clearbody c0. pose proof (fr_cfg _ _ Hf0) as Eg. rewrite Eg.
  destruct (level_get (cfg c) (inv_cfg c Hc) s) as (z & l & Hz & _); [lia|].
  rewrite Hz. cbn [rbind]. rewrite <- Eg in Ha.
  destruct (find_ignoring_spec c0 s a Hc0 Ha) as [[Hn ->]|(set & way & p & e & Hix & ->)];
    cbn [rbind]; unfold found_line; cbn [fst snd].
  - simpl (_ =? _). cbn [rbind]. exists z, s, None, c0. split_and!; try done; try lia.
    left. by rewrite <- Hi0.
  - rewrite (way_neq c0 _ _ _ _ _ Hix), (ix_slot _ _ _ _ _ _ Hix). cbn [rbind].
    pose proof (ix_heap _ _ _ _ _ _ Hix) as He.
    assert (indexed c a set way p e) as Hix'.
    { destruct Hix as [P C L E A]. constructor; rewrite <- ?Eg, <- ?Hi0, <- ?Hh0; try done.
      by rewrite <- (frame_slot _ _ _ _ Hf0). }
    destruct (modify_line c0 p e (setLastAccess now) Hc0 He eq_refl) as (c1 & Hm & Hc1 & Hf1 & He1).
    rewrite Hm. cbn [rbind]. exists z, set, (Some p), c1. split_and!; try done.
    + apply Hix'.
    + apply Hix'.
    + by etransitivity.
    + unfold modify in Hm. rewrite (update_lookup _ _ _ _ He) in Hm. simpl in Hm.
      injection Hm as <-. exact Hp0.
    + right. exists way, p, e. split_and!; try done.
      destruct Hix as [P C L E A]. constructor; try done.
      * by rewrite (fr_cfg _ _ Hf1).
      * by rewrite (fr_index _ _ Hf1).
      * by rewrite (frame_slot _ _ _ _ Hf1).
Qed.

End Steps.

(** ** recordRequestType *)

Section Requests.
Context {S : Type} `{ReplacementPolicy S} `{!PolicyInv S}.
Implicit Types c : t S.

Lemma reserve_data_heap now c a lat c' : reserve_data now c a lat = Ok c' → heap c' = heap c.
Proof.
  unfold reserve_data. case_match; [|by intros [= <-]].
  by intros (s & _ & (d & _ & [= <-])%rbind_Ok)%rbind_Ok.
Qed.

Lemma reserve_tag_heap now c a lat c' : reserve_tag now c a lat = Ok c' → heap c' = heap c.
Proof.
  unfold reserve_tag. case_match; [|by intros [= <-]].
  by intros (s & _ & (d & _ & [= <-])%rbind_Ok)%rbind_Ok.
Qed.

Lemma chunk_write_heap c i c' : chunk_write c i = Ok c' → heap c' = heap c.
Proof.
  by intros (k & _ & (ks & _ & (st & _ & [= <-])%rbind_Ok)%rbind_Ok)%rbind_Ok.
Qed.

(** Reserving the array for a write and counting it. *)
Lemma finish_data_write now c a lat i :
  inv c → line_addr (cfg c) a → 0 ≤ i < m_cache_num_sets (cfg c) / 4 →
  ∃ c', (let* c := reserve_data now c a lat in
         chunk_write (count numDataArrayWrites c) i) = Ok c' ∧
    inv c' ∧ frame c c' ∧ same_pages c c' ∧ heap c' = heap c.
Proof.
  intros Hc Ha Hi. destruct (reserve_data_Ok now c a lat Hc Ha) as (c1 & E1 & Hc1 & Hf1 & Hp1).
  rewrite E1. cbn [rbind].
  destruct (chunk_write_Ok (count numDataArrayWrites c1) i) as (c2 & E2 & Hc2 & Hf2 & Hp2);
    [by apply inv_count|by simpl; rewrite (fr_cfg _ _ Hf1)|].
  exists c2. split_and!; [done|done| | |].
  - etransitivity; [done|]. etransitivity; [apply frame_count|done].
  - destruct Hp1, Hp2. split; simpl in *; congruence.
  - rewrite (chunk_write_heap _ _ _ E2). simpl. by eapply reserve_data_heap.
Qed.

Lemma finish_tag_write now c a lat i :
  inv c → line_addr (cfg c) a → 0 ≤ i < m_cache_num_sets (cfg c) / 4 →
  ∃ c', (let* c := reserve_tag now c a lat in
         chunk_write (count numTagArrayWrites c) i) = Ok c' ∧
    inv c' ∧ frame c c' ∧ same_pages c c' ∧ heap c' = heap c.
Proof.
  intros Hc Ha Hi. destruct (reserve_tag_Ok now c a lat Hc Ha) as (c1 & E1 & Hc1 & Hf1 & Hp1).
  rewrite E1. cbn [rbind].
  destruct (chunk_write_Ok (count numTagArrayWrites c1) i) as (c2 & E2 & Hc2 & Hf2 & Hp2);
    [by apply inv_count|by simpl; rewrite (fr_cfg _ _ Hf1)|].
  exists c2. split_and!; [done|done| | |].
  - etransitivity; [done|]. etransitivity; [apply frame_count|done].
  - destruct Hp1, Hp2. split; simpl in *; congruence.
  - rewrite (chunk_write_heap _ _ _ E2). simpl. by eapply reserve_tag_heap.
Qed.

Lemma count_page_write_heap c page c' : count_page_write c page = Ok c' → heap c' = heap c.
Proof.
  unfold count_page_write. case_match; [|by intros [= <-]].
  intros (k & _ & Hk)%rbind_Ok. repeat case_match; simplify_eq/=; try done.
  apply rbind_Ok in Hk as (z & _ & (u & _ & [= <-])%rbind_Ok). done.
Qed.

Lemma page_range g a : line_addr g a → 0 ≤ Z.shiftr a 12 < 2 ^ 64.
Proof.
  intros [Ha _]. rewrite Z.shiftr_div_pow2 by lia.
  split; [apply Z.div_pos; lia|]. apply Z.div_lt_upper_bound; lia.
Qed.

(** A data write to a line of the index. *)
Lemma record_data_write_line now c a l i set way p e :
  inv c → line_addr (cfg c) a → 0 ≤ i < m_cache_num_sets (cfg c) / 4 →
  indexed c a set way p e →
  ∃ c1 c', record_data_write now c a l i (Some p) = Ok c' ∧ inv c' ∧ frame c c' ∧
    count_page_write (set_heap c (<[p := renew now (time l) e]> (heap c))) (Z.shiftr a 12) = Ok c1 ∧
    same_pages c1 c' ∧ heap c' !! p = Some (renew now (time l) e).
Proof.
  intros Hc Ha Hi [P C L E A]. unfold record_data_write.
  destruct (modify_line c p e (renew now (time l)) Hc E eq_refl) as (c0 & Hm & Hc0 & Hf0 & He0).
  rewrite Hm. cbn [rbind].
  destruct (count_page_write_Ok c0 (Z.shiftr a 12) Hc0 (page_range _ _ Ha)) as (c1 & E1 & Hc1 & Hf1).
  rewrite E1. cbn [rbind]. assert (frame c c1) as Hf by (by etransitivity).
  destruct (finish_data_write now c1 a (write_latency (data l)) i) as (c' & Hfin & Hc' & Hf' & Hp' & Hh');
    [done|by rewrite (fr_cfg _ _ Hf)|by rewrite (fr_cfg _ _ Hf)|].
  exists c1, c'. split_and!; try done; [by etransitivity| |].
  - unfold modify in Hm. rewrite (update_lookup _ _ _ _ E) in Hm. simpl in Hm.
    injection Hm as Hm. by rewrite Hm.
  - by rewrite Hh', (count_page_write_heap _ _ _ E1).
Qed.

(** What a tag write does to a line. *)
Definition retagged (now limit : Z) (e : Entry) : Entry :=
  if decide (m_Permission e = NotPresent) then set_Permission Invalid (renew now limit e)
  else renew now limit e.

Lemma record_tag_write_line now c a l i set way p e :
  inv c → line_addr (cfg c) a → 0 ≤ i < m_cache_num_sets (cfg c) / 4 →
  indexed c a set way p e →
  ∃ limit c', record_tag_write now c a l i set (Some p) = Ok c' ∧ inv c' ∧
    zone_time (cfg c) set = Ok limit ∧ cfg c' = cfg c ∧ m_cache c' = m_cache c ∧
    m_tag_index c' = m_tag_index c ∧ same_pages c c' ∧
    heap c' = <[p := retagged now limit e]> (heap c).
Proof.
  intros Hc Ha Hi Hix. pose proof Hix as [P C L E A]. unfold record_tag_write.
  destruct (zone_time_Ok (cfg c) (inv_cfg c Hc) set) as (limit & Hz); [apply P|].
  rewrite Hz. cbn [rbind]. unfold modify. rewrite (update_lookup _ _ _ _ E). cbn [rbind rmap].
  change (if decide _ then _ else _) with (retagged now limit e).
  set (c0 := set_heap c _). assert (inv c0) as Hc0.
  { apply (inv_line c p e); try done; [unfold retagged; by case_decide..|].
    right. right. exists set, way. by rewrite A. }
  destruct (finish_tag_write now c0 a (write_latency (tag l)) i Hc0 Ha Hi)
    as (c' & Hfin & Hc' & [Eg Ec Ei _] & Hp' & Hh').
  exists limit, c'. split_and!; done.
Qed.

(** A read request reserves the array and counts; it changes no line but the
    tick of its last access. *)
Lemma finish_read c i k (stalls : bool) (rsv : res (t S)) :
  inv c → 0 ≤ i < m_cache_num_sets (cfg c) / 4 →
  (∃ c', rsv = Ok c' ∧ inv c' ∧ frame c c') →
  ∃ c', (let* c := (if stalls then rsv else Ok c) in chunk_read (count k c) i) = Ok c' ∧
    inv c' ∧ frame c c'.
Proof.
  intros Hc Hi (c1 & -> & Hc1 & Hf1).
  assert (∃ c2, (if stalls then Ok c1 else Ok c) = Ok c2 ∧ inv c2 ∧ frame c c2)
    as (c2 & -> & Hc2 & Hf2) by (destruct stalls; [by eauto|by exists c]).
  cbn [rbind]. destruct (chunk_read_Ok (count k c2) i) as (c' & -> & Hc' & Hf' & _);
    [by apply inv_count|by simpl; rewrite (fr_cfg _ _ Hf2)|].
  exists c'. split_and!; try done. etransitivity; [done|]. etransitivity; [apply frame_count|done].
Qed.

(** The effect of a request on the protocol's view: none, except that a tag
    write makes the line of its address present. *)
Definition view_after c c' (ty : CacheRequestType) (a : Z) : Prop :=
  match ty with
  | TagArrayWrite => ∀ b q, present c' b q ↔
      present c b q ∨ (b = a ∧ ∃ set way e, indexed c a set way q e)
  | _ => frame c c'
  end.

Lemma tag_write_view now c c' a set way p e limit b q :
  inv c → inv c' → indexed c a set way p e → cfg c' = cfg c → m_cache c' = m_cache c →
  m_tag_index c' = m_tag_index c → heap c' = <[p := retagged now limit e]> (heap c) →
  present c' b q ↔ present c b q ∨ (b = a ∧ ∃ set way e, indexed c a set way q e).
Proof.
  intros Hc Hc' Hix Eg Ec Ei Eh.
  assert (m_Address (retagged now limit e) = a ∧ m_Permission (retagged now limit e) ≠ NotPresent)
    as [Ha' Hp'].
  { unfold retagged. destruct Hix. case_decide; simpl; auto. }
  rewrite (rewrite_present c c' a set way p e (retagged now limit e)); try done.
  - split.
    + intros [[-> ->]|[_ ?]]; [right|by left]. eauto.
    + intros [Hpr|[-> (s & w & f & Hf)]].
      * destruct (decide (b = a)) as [->|]; [left|by right]. split; [done|].
        destruct Hpr as (s & w & f & Hf & _).
        by destruct (indexed_inj c Hc _ _ _ _ _ _ _ _ _ Hf Hix) as (_ & _ & -> & _).
      * left. by destruct (indexed_inj c Hc _ _ _ _ _ _ _ _ _ Hf Hix) as (_ & _ & -> & _).
  - by rewrite Eh, lookup_insert_eq.
  - intros s w r _ Hr. by rewrite Eh, lookup_insert_ne.
Qed.

Lemma recordRequestType_Ok now c ty a :
  inv c → line_addr (cfg c) a →
  ∃ c', recordRequestType now c ty a = Ok c' ∧ inv c' ∧ cfg c' = cfg c ∧ view_after c c' ty a.
Proof.
  intros Hc Ha. destruct (route_Ok c a Hc Ha) as (s & Hr & Hs).
  destruct (record_prologue_spec now c a s Hc Ha Hr)
    as (z & set & entry & c1 & Hpro & Hz & Hset & Hc1 & Hf1 & _ & Hline).
  pose proof (fr_cfg _ _ Hf1) as Eg. pose proof (chunk_range c s Hc Hs) as Hi. rewrite <- Eg in Hi.
  assert (line_addr (cfg c1) a) as Ha1 by (by rewrite Eg).
  unfold recordRequestType. rewrite Hpro. cbn [rbind].
  destruct (level_get (cfg c1) (inv_cfg c1 Hc1) s) as (z' & l & Hz' & _ & Hl); [lia|].
  rewrite Eg in Hz'. assert (z' = z) as -> by congruence. rewrite Hl.
  assert (∀ c', inv c' → frame c1 c' → inv c' ∧ cfg c' = cfg c ∧ frame c c') as Hdone.
  { intros c' ? Hf. split_and!; [done|by rewrite (fr_cfg _ _ Hf)|by etransitivity]. }
  destruct ty; cbn [rbind view_after].
  - destruct (finish_read c1 (getChunkId s) numDataArrayReads (m_resource_stalls (cfg c1))
      (reserve_data now c1 a (read_latency (data l))) Hc1 Hi) as (c' & -> & Hc' & Hf');
      [destruct (reserve_data_Ok now c1 a (read_latency (data l)) Hc1 Ha1); naive_solver|].
    exists c'. split; [done|]. by apply Hdone.
  - destruct Hline as [[_ ->]|(way & p & e & _ & -> & Hix1)].
    + destruct (finish_data_write now c1 a (write_latency (data l)) (getChunkId s) Hc1 Ha1 Hi)
        as (c' & Hfin & Hc' & Hf' & _). exists c'. split; [exact Hfin|]. by apply Hdone.
    + destruct (record_data_write_line now c1 a l (getChunkId s) set way p _ Hc1 Ha1 Hi Hix1)
        as (_ & c' & -> & Hc' & Hf' & _). exists c'. split; [done|]. by apply Hdone.
  - destruct (finish_read c1 (getChunkId s) numTagArrayReads (m_resource_stalls (cfg c1))
      (reserve_tag now c1 a (read_latency (tag l))) Hc1 Hi) as (c' & -> & Hc' & Hf');
      [destruct (reserve_tag_Ok now c1 a (read_latency (tag l)) Hc1 Ha1); naive_solver|].
    exists c'. split; [done|]. by apply Hdone.
  - destruct Hline as [[Hn ->]|(way & p & e & Hix & -> & Hix1)].
    + destruct (finish_tag_write now c1 a (write_latency (tag l)) (getChunkId s) Hc1 Ha1 Hi)
        as (c' & Hfin & Hc' & Hf' & _). exists c'. split; [exact Hfin|].
      destruct (Hdone c' Hc' Hf') as (? & ? & Hf). split_and!; try done.
      intros b q. rewrite (frame_present _ _ _ _ Hf). split; [by left|].
      intros [?|(_ & ? & ? & ? & [])]; [done|congruence].
    + destruct (record_tag_write_line now c1 a l (getChunkId s) set way p _ Hc1 Ha1 Hi Hix1)
        as (limit & c' & -> & Hc' & _ & Eg' & Ec' & Ei' & _ & Eh').
      exists c'. split_and!; try done; [by rewrite Eg'|]. intros b q.
      rewrite (tag_write_view now c1 c' a set way p _ limit b q Hc1 Hc' Hix1) by done.
      rewrite (frame_present _ _ _ _ Hf1). f_equiv. f_equiv.
      split; intros (s' & w' & f & Hf).
      * apply (frame_indexed _ c) in Hf as (f' & ? & _); [eauto|by symmetry].
      * apply (frame_indexed _ c1) in Hf as (f' & ? & _); [eauto|done].
  - assert (∃ u, (if m_resource_stalls (cfg c1)
      then ALUFreeListArray.reserve now (atomicALUArray c1) a else Ok (atomicALUArray c1)) = Ok u ∧
      0 ≤ ALUFreeListArray.m_block_size_bits u < 64) as (u & -> & Hu).
    { destruct (inv_arrays c1 Hc1) as [_ _ Halu _ _ _ _ _]. case_match; [|eauto].
      unfold ALUFreeListArray.reserve, Address.makeLineAddress.
      rewrite (proj2 (Z.ltb_lt _ 64)) by lia. cbn [rbind require]. eauto. }
    cbn [rbind]. eexists. split; [done|]. apply Hdone; [|by constructor].
    destruct (inv_arrays c1 Hc1). by apply inv_count, inv_set_arrays.
  - exists c1. split; [done|]. by apply Hdone.
Qed.

Lemma checkResourceAvailable_Ok now c r a :
  inv c → line_addr (cfg c) a → r ≠ CacheResourceType_NUM →
  ∃ b c', checkResourceAvailable now c r a = Ok (b, c') ∧ inv c' ∧ frame c c' ∧
    same_pages c c'.
Proof.
  intros Hc Ha Hr. unfold checkResourceAvailable. case_match; [by exists true, c|].
  destruct (route_Ok c a Hc Ha) as (s & Hs & Hsr). destruct (inv_arrays c Hc).
  destruct r; [| | |done].
  - rewrite Hs. cbn [rbind].
    destruct (tryAccess_Ok now (dataArray c) s) as (b & ->); [done|lia|]. cbn [rbind].
    exists b. destruct b; [by exists c|]. eexists. split; [done|]. split; [by apply inv_count|done].
  - rewrite Hs. cbn [rbind].
    destruct (tryAccess_Ok now (tagArray c) s) as (b & ->); [done|lia|]. cbn [rbind].
    exists b. destruct b; [by exists c|]. eexists. split; [done|]. split; [by apply inv_count|done].
  - unfold ALUFreeListArray.tryAccess. edestruct try_records_Ok as (b & ->); [apply ok_alu|].
    cbn [rbind]. exists b. destruct b; (eexists; split; [done|]; split; [|done]);
      try apply inv_count; by apply inv_set_arrays.
Qed.

Lemma getRetentionLatency_Ok now c ty a :
  inv c → line_addr (cfg c) a →
  ∃ cyc c', getRetentionLatency now c ty a = Ok (cyc, c') ∧ inv c' ∧ frame c c' ∧
    same_pages c c'.
Proof.
  intros Hc Ha. unfold getRetentionLatency. destruct (route_Ok c a Hc Ha) as (s & -> & Hs).
  cbn [rbind]. destruct (level_get (cfg c) (inv_cfg c Hc) s) as (z & l & -> & Hz & Hl); [lia|].
  cbn [rbind]. rewrite (proj2 (Z.eqb_neq z (-1))) by lia. destruct (inv_arrays c Hc).
  match goal with |- context [rbind ?m _] => assert (∃ x, m = Ok x) as (x & ->) end.
  { rewrite Hl. destruct ty; simpl; eauto. }
  cbn [rbind].
  match goal with |- context [BankedArray.getBankEndTime ?m _] =>
    destruct (getBankEndTime_Ok m s) as (tk & ->); [destruct ty; done|lia|] end.
  cbn [rbind]. case_match; [|by exists x, c].
  unfold IntMath.divCeil. rewrite (proj2 (Z.eqb_neq _ 0)) by lia. cbn [rbind require negb].
  eexists _, _. split; [done|]. split; [by apply inv_count|done].
Qed.

End Requests.
