(* ===== verification/CacheSystem.v ===== *)
(** A cache as the coherence protocol drives it: the operations of the
    interface as one executable step function, the calls the protocol may make,
    and the abstract cache (a finite map from line addresses to lines) that the
    implementation refines. *)

From stdpp Require Import prelude gmap.
From Stdlib Require Import ZArith Lia.
From S2P Require Import Prelude Bits SatCounter Replacement ReplacementSpec Resources.
From S2P Require Import CacheEntry CacheMemory CacheGeometry CacheInv CacheInit.
From S2P Require Import CacheAlloc CacheProbe CacheRequests.

Import CacheMemory.
Open Scope Z_scope.

(** ** The interface *)

(** A call on the cache, or an action of the protocol on the lines: [ONew] is
    [new Entry], [OPermission] is [changePermission] on a line. *)
Inductive Op :=
| ONew (p : ptr) (e : Entry)
| OPermission (p : ptr) (perm : AccessPermission)
| OLookup (a : Z)
| OTryAccess (a : Z) (ty : RubyRequestType)
| OTestAccess (a : Z) (ty : RubyRequestType)
| OAllocate (a : Z) (p : ptr)
| ODeallocate (a : Z)
| OProbe (a : Z)
| OSetMRU (a : Z)
| OSetMRUOccupancy (a occupancy : Z)
| OSetMRUEntry (p : ptr)
| OSetLocked (a context : Z)
| OClearLocked (a : Z)
| OIsLocked (a context : Z)
| OClearLockedAll (context : Z)
| ORecord (ty : CacheRequestType) (a : Z)
| OCheck (r : CacheResourceType) (a : Z)
| OLatency (ty : CacheRequestType) (a : Z)
| OHtmCommit
| OHtmAbort.

(** What a call returns. *)
Inductive Ret :=
| RVoid | RBool (b : bool) | RLine (p : option ptr) | RAddr (a : Z) | RCycles (n : Z)
| RAccess (hit : bool) (data : option ptr).

Section System.
Context {S : Type} `{ReplacementPolicy S} (invalidateEntry : Entry → Entry).

Definition void (c : t S) : Ret * t S := (RVoid, c).

Definition exec (now : Z) (c : t S) (op : Op) : res (Ret * t S) :=
  match op with
  | ONew p e => Ok (RVoid, set_heap c (<[p := e]> (heap c)))
  | OPermission p perm => rmap void (modify c p (changePermission perm))
  | OLookup a => rmap (λ r, (RLine r.1, r.2)) (lookup now c a)
  | OTryAccess a ty => rmap (λ r, (RAccess r.1.1 r.1.2, r.2)) (tryCacheAccess now c a ty)
  | OTestAccess a ty => rmap (λ r, (RAccess r.1.1 r.1.2, r.2)) (testCacheAccess now c a ty)
  | OAllocate a p => rmap (λ r, (RLine (Some r.1), r.2)) (allocate now c a p)
  | ODeallocate a => rmap void (deallocate c a)
  | OProbe a => rmap (λ r, (RAddr r.1, r.2)) (cacheProbe now c a)
  | OSetMRU a => rmap void (setMRU now c a)
  | OSetMRUOccupancy a o => rmap void (setMRU_occupancy now c a o)
  | OSetMRUEntry p => rmap void (setMRU_entry now c (Some p))
  | OSetLocked a x => rmap void (setLocked now c a x)
  | OClearLocked a => rmap void (clearLocked now c a)
  | OIsLocked a x => rmap (λ r, (RBool r.1, r.2)) (isLocked now c a x)
  | OClearLockedAll x => rmap void (clearLockedAll c x)
  | ORecord ty a => rmap void (recordRequestType now c ty a)
  | OCheck r a => rmap (λ r, (RBool r.1, r.2)) (checkResourceAvailable now c r a)
  | OLatency ty a => rmap (λ r, (RCycles r.1, r.2)) (getRetentionLatency now c ty a)
  | OHtmCommit => rmap void (htmCommitTransaction c)
  | OHtmAbort => rmap void (htmAbortTransaction invalidateEntry c)
  end.

(** The calls the protocol may make. Addresses are line addresses; an object is
    new when created and not in the cache when handed to [allocate], which is
    called when a line can be had, [cacheProbe] when none can; permissions and
    recency are changed on lines that the index knows or that are in the cache;
    the lock operations are called for present lines. *)
Definition legal (now : Z) (c : t S) (op : Op) : Prop :=
  match op with
  | ONew p _ => heap c !! p = None
  | OPermission p _ => ∃ a set way e, indexed c a set way p e
  | OAllocate a p => line_addr (cfg c) a ∧ fresh c p ∧ cacheAvail c a = Ok true
  | OProbe a => line_addr (cfg c) a ∧ cacheAvail c a = Ok false ∧ 0 ≤ now < 2 ^ 64 - 1 ∧
      ∀ p e, heap c !! p = Some e → getLastAccess e ≤ now
  | OSetMRU a | OSetMRUOccupancy a _ => 0 ≤ a < 2 ^ 64
  | OSetMRUEntry p => ∃ set way, slot c set way = Ok (Some p)
  | OSetLocked a _ | OClearLocked a | OIsLocked a _ =>
      line_addr (cfg c) a ∧ ∃ p, present c a p
  | OCheck r a => line_addr (cfg c) a ∧ r ≠ CacheResourceType_NUM
  | OLookup a | OTryAccess a _ | OTestAccess a _ | ODeallocate a | ORecord _ a
  | OLatency _ a => line_addr (cfg c) a
  | OClearLockedAll _ | OHtmCommit | OHtmAbort => True
  end.

(** A run, with what each call returned. *)
Fixpoint run (c : t S) (tr : list (Z * Op)) : res (list Ret * t S) :=
  match tr with
  | [] => Ok ([], c)
  | (now, op) :: tr =>
      let* (r, c) := exec now c op in
      let* (rs, c) := run c tr in Ok (r :: rs, c)
  end.

(** Every call of the run is legal where it is made. *)
Fixpoint legal_run (c : t S) (tr : list (Z * Op)) : Prop :=
  match tr with
  | [] => True
  | (now, op) :: tr =>
      legal now c op ∧
      match exec now c op with Ok (_, c') => legal_run c' tr | Err _ => True end
  end.

(** A test for [legal] that evaluates ([legalb_sound]). *)
Definition line_addrb (g : Config) (a : Z) : bool :=
  (0 <=? a) && (a <? 2 ^ 64)
  && match makeLineAddress g a with Ok l => l =? a | Err _ => false end.

Definition indexedb (c : t S) (a : Z) : option (ptr * Entry) :=
  x ← m_tag_index c !! a;
  let s := decode_set x in
  let w := decode_way x in
  if (0 <=? s) && (s <? m_cache_num_sets (cfg c)) && (0 <=? w) && (w <? m_cache_assoc (cfg c))
     && (encode s w =? x)
  then match slot c s w with
       | Ok (Some p) => e ← heap c !! p; if m_Address e =? a then Some (p, e) else None
       | _ => None
       end
  else None.

Definition presentb (c : t S) (a : Z) : bool :=
  match indexedb c a with
  | Some (_, e) => negb (bool_decide (m_Permission e = NotPresent))
  | None => false
  end.

Definition availb (c : t S) (a : Z) (b : bool) : bool :=
  match cacheAvail c a with Ok b' => eqb b' b | Err _ => false end.

Definition in_cacheb (c : t S) (p : ptr) : bool := bool_decide (Some p ∈ concat (m_cache c)).

Definition legalb (now : Z) (c : t S) (op : Op) : bool :=
  match op with
  | ONew p _ => negb (bool_decide (is_Some (heap c !! p)))
  | OPermission p _ =>
      match heap c !! p with
      | Some e => match indexedb c (m_Address e) with Some (q, _) => bool_decide (q = p) | None => false end
      | None => false
      end
  | OAllocate a p => line_addrb (cfg c) a && bool_decide (is_Some (heap c !! p))
      && negb (in_cacheb c p) && availb c a true
  | OProbe a => line_addrb (cfg c) a && availb c a false && (0 <=? now) && (now <? 2 ^ 64 - 1)
      && bool_decide (map_Forall (λ _ e, getLastAccess e ≤ now) (heap c))
  | OSetMRU a | OSetMRUOccupancy a _ => (0 <=? a) && (a <? 2 ^ 64)
  | OSetMRUEntry p => in_cacheb c p
  | OSetLocked a _ | OClearLocked a | OIsLocked a _ => line_addrb (cfg c) a && presentb c a
  | OCheck r a => line_addrb (cfg c) a
      && match r with CacheResourceType_NUM => false | _ => true end
  | OLookup a | OTryAccess a _ | OTestAccess a _ | ODeallocate a | ORecord _ a
  | OLatency _ a => line_addrb (cfg c) a
  | OClearLockedAll _ | OHtmCommit | OHtmAbort => true
  end.

Fixpoint legal_runb (c : t S) (tr : list (Z * Op)) : bool :=
  match tr with
  | [] => true
  | (now, op) :: tr =>
      legalb now c op &&
      match exec now c op with Ok (_, c') => legal_runb c' tr | Err _ => true end
  end.

(** ** The abstract cache *)

(** The lines present, by address. *)
Abbreviation Abs := (gmap Z ptr).

(** The specification of a call: the abstract state before, what the call
    returned, and the abstract state after. Lines come and go by [allocate],
    [deallocate], changes of permission and tag writes; every other call leaves
    the abstract cache as it is. *)
Inductive aexec : Op → Abs → Ret → Abs → Prop :=
| a_new p e A : aexec (ONew p e) A RVoid A
| a_permission_gone p a A :
    (∀ b, A !! b = Some p → b = a) → aexec (OPermission p NotPresent) A RVoid (delete a A)
| a_permission p a perm A :
    perm ≠ NotPresent → (∀ b, A !! b = Some p → b = a) →
    aexec (OPermission p perm) A RVoid (<[a := p]> A)
| a_lookup a A : aexec (OLookup a) A (RLine (A !! a)) A
| a_try_miss a ty A : aexec (OTryAccess a ty) A (RAccess false None) A
| a_try_hit a ty A p : A !! a = Some p → aexec (OTryAccess a ty) A (RAccess true (Some p)) A
| a_test_miss a ty A : A !! a = None → aexec (OTestAccess a ty) A (RAccess false None) A
| a_test_hit a ty A p : A !! a = Some p → aexec (OTestAccess a ty) A (RAccess true (Some p)) A
| a_allocate a p q A :
    (∀ b, A !! b = Some q → b = a) → (∀ r, A !! a = Some r → q = r) →
    aexec (OAllocate a p) A (RLine (Some q)) (<[a := q]> A)
| a_deallocate a A : aexec (ODeallocate a) A RVoid (delete a A)
| a_probe a v A : A !! a = None → is_Some (A !! v) → aexec (OProbe a) A (RAddr v) A
| a_mru a A : aexec (OSetMRU a) A RVoid A
| a_mru_occupancy a o A : aexec (OSetMRUOccupancy a o) A RVoid A
| a_mru_entry p A : aexec (OSetMRUEntry p) A RVoid A
| a_set_locked a x A : aexec (OSetLocked a x) A RVoid A
| a_clear_locked a A : aexec (OClearLocked a) A RVoid A
| a_is_locked a x b A : aexec (OIsLocked a x) A (RBool b) A
| a_clear_all x A : aexec (OClearLockedAll x) A RVoid A
| a_record ty a A : ty ≠ TagArrayWrite → aexec (ORecord ty a) A RVoid A
| a_tag_write a A : aexec (ORecord TagArrayWrite a) A RVoid A
| a_tag_revive a q A : A !! a = None → aexec (ORecord TagArrayWrite a) A RVoid (<[a := q]> A)
| a_check r a b A : aexec (OCheck r a) A (RBool b) A
| a_latency ty a n A : aexec (OLatency ty a) A (RCycles n) A
| a_commit A : aexec OHtmCommit A RVoid A
| a_abort A A' : A' ⊆ A → aexec OHtmAbort A RVoid A'.

Inductive aexecs : list (Z * Op) → Abs → list Ret → Abs → Prop :=
| a_nil A : aexecs [] A [] A
| a_cons now op tr r rs A A' A'' :
    aexec op A r A' → aexecs tr A' rs A'' → aexecs ((now, op) :: tr) A (r :: rs) A''.

(** The abstract cache of a cache. *)
Definition view (c : t S) (A : Abs) : Prop := ∀ a p, A !! a = Some p ↔ present c a p.

End System.

(** ** The test for legality is sound *)

Section LegalTest.
Context {S : Type} `{ReplacementPolicy S} (invalidateEntry : Entry → Entry).
Implicit Types c : t S.

Lemma line_addrb_sound g a : line_addrb g a = true → line_addr g a.
Proof.
  unfold line_addrb, line_addr. intros [[? ?]%andb_prop Hl]%andb_prop.
  destruct (makeLineAddress g a); [|done]. reflect_bool. subst. split; [lia|done].
Qed.

Lemma indexedb_sound c a p e : indexedb c a = Some (p, e) → ∃ s w, indexed c a s w p e.
Proof.
  unfold indexedb. intros (x & Hx & Hm)%bind_Some. exists (decode_set x), (decode_way x).
  case_match eqn:Hb; [|done]. repeat (apply andb_prop in Hb as [Hb ?]). reflect_bool.
  destruct (slot c _ _) as [[q|]|] eqn:Hs; try done.
  apply bind_Some in Hm as (f & Hf & Hm). case_match eqn:Ha; [|done]. reflect_bool.
  simplify_eq. constructor; [split; lia|congruence|done|done|done].
Qed.

Lemma legalb_sound now c op : legalb now c op = true → legal now c op.
Proof.
  assert (∀ a, line_addrb (cfg c) a && presentb c a = true →
    line_addr (cfg c) a ∧ ∃ p, present c a p) as Hpres.
  { intros a [Ha Hp]%andb_prop. split; [by apply line_addrb_sound|]. unfold presentb in Hp.
    destruct (indexedb c a) as [[p e]|] eqn:E; [|done].
    apply negb_true_iff, bool_decide_eq_false in Hp.
    apply indexedb_sound in E as (s & w & Hix). by exists p, s, w, e. }
  assert (∀ a b, availb c a b = true → cacheAvail c a = Ok b) as Hav.
  { intros a b. unfold availb. destruct (cacheAvail c a) as [b'|]; [|done].
    intros ->%eqb_prop. done. }
  assert (∀ a, (0 <=? a) && (a <? 2 ^ 64) = true → 0 ≤ a < 2 ^ 64) as H64.
  { intros a [? ?]%andb_prop. lia. }
  destruct op; simpl; auto using line_addrb_sound.
  - intros Hn%negb_true_iff%bool_decide_eq_false. by apply eq_None_not_Some.
  - destruct (heap c !! p) as [e|]; [|done].
    destruct (indexedb c (m_Address e)) as [[q f]|] eqn:E; [|done].
    intros ->%bool_decide_eq_true. apply indexedb_sound in E as (s & w & Hix). eauto.
  - intros [[[Ha Hh]%andb_prop Hn]%andb_prop Hb]%andb_prop.
    apply bool_decide_eq_true in Hh. apply negb_true_iff, bool_decide_eq_false in Hn.
    split_and!; [by apply line_addrb_sound| |by auto]. split; [done|].
    intros s w Hs. apply Hn, concat_lines. eauto.
  - intros [[[[Ha Hb]%andb_prop ?]%andb_prop ?]%andb_prop Hall%bool_decide_eq_true]%andb_prop.
    split_and!; [by apply line_addrb_sound|auto|lia|lia|]. intros p e. by apply Hall.
  - intros Hp%bool_decide_eq_true%concat_lines. done.
  - intros [Ha Hr]%andb_prop. split; [by apply line_addrb_sound|]. by intros ->.
Qed.

Lemma legal_runb_sound c tr :
  legal_runb invalidateEntry c tr = true → legal_run invalidateEntry c tr.
Proof.
  revert c. induction tr as [|[now op] tr IH]; intros c; simpl; [done|].
  intros [Hl Hr]%andb_prop. split; [by apply legalb_sound|].
  destruct (exec _ now c op) as [[r c']|]; [by apply IH|done].
Qed.

End LegalTest.

(** ** The implementation refines the abstract cache *)

Section Refinement.
Context {S : Type} `{ReplacementPolicy S} `{!PolicyInv S} (assoc : nat) `{!PolicyLaws S assoc}.
Context (invalidateEntry : Entry → Entry).
Implicit Types c : t S.

(** What all states of a run share. *)
Record good c : Prop := {
  good_inv : inv c;
  good_ways : ways c = assoc;
  good_occupancy : m_use_occupancy (cfg c) = bool_decide (is_Some touch_occupancy) }.

Lemma good_next c c' : good c → inv c' → cfg c' = cfg c → good c'.
Proof. intros [_ Hw Ho] Hi Hg. constructor; [done|unfold ways|]; by rewrite Hg. Qed.

(** The specification of one call. *)
Definition refines now c A op : Prop :=
  ∃ r c' A', exec invalidateEntry now c op = Ok (r, c') ∧ good c' ∧ cfg c' = cfg c ∧
    aexec op A r A' ∧ view c' A'.

Lemma frame_view c c' A : frame c c' → view c A → view c' A.
Proof. intros Hf Hv a p. rewrite (Hv a p). by apply frame_present. Qed.

Lemma refines_frame now c A op r c' :
  good c → view c A → exec invalidateEntry now c op = Ok (r, c') → inv c' → frame c c' →
  aexec op A r A → refines now c A op.
Proof.
  intros Hg Hv He Hi Hf Ha. exists r, c', A.
  split_and!; [done|by eapply good_next; [..|apply Hf]|apply Hf|done|by eapply frame_view].
Qed.

(** A line holds one address. *)
Lemma view_unique c A a set way p e b :
  inv c → view c A → indexed c a set way p e → A !! b = Some p → b = a.
Proof.
  intros Hc Hv [P C L E Ha] (s & w & f & [P' C' L' E' A'] & _)%Hv.
  destruct (slot_inj c Hc _ _ _ _ _ L L') as [-> ->]. congruence.
Qed.

Lemma refines_new now c A p e :
  good c → view c A → heap c !! p = None → refines now c A (ONew p e).
Proof.
  intros Hg Hv Hn. pose proof (good_inv c Hg) as Hc.
  assert (∀ set way, slot c set way ≠ Ok (Some p)) as Hout.
  { intros set way Hs. destruct (inv_lines c Hc _ _ _ Hs) as (f & Hf & _). congruence. }
  eexists RVoid, _, A. split; [done|].
  split_and!; [eapply good_next; [done|by apply inv_heap_fresh|done]|done|constructor|].
  intros a q. rewrite (Hv a q).
  split; intros (s & w & f & [P C L E A'] & Hp); exists s, w, f; (split; [|done]).
  - constructor; simpl; try done. rewrite lookup_insert_ne; [done|]. congruence.
  - constructor; try done. simpl in E. rewrite lookup_insert_ne in E; [done|].
    intros <-. by apply (Hout s w).
Qed.

Lemma refines_lookup now c A a :
  good c → view c A → line_addr (cfg c) a → refines now c A (OLookup a).
Proof.
  intros Hg Hv Ha. pose proof (good_inv c Hg) as Hc.
  destruct (lookup_spec now c a Hc Ha) as
    [[Hn El]|(set & way & p & e & c' & Hix & Hp & El & Hc' & Hf & _)].
  - apply (refines_frame now c A _ (RLine None) c); try done; [by simpl; rewrite El|].
    assert (A !! a = None) as <-; [|constructor].
    apply eq_None_not_Some. intros [p Hp]. by apply (Hn p), Hv.
  - apply (refines_frame now c A _ (RLine (Some p)) c'); try done; [by simpl; rewrite El|].
    assert (A !! a = Some p) as <-; [|constructor]. apply Hv. by exists set, way, e.
Qed.

Lemma refines_try now c A a ty :
  good c → view c A → line_addr (cfg c) a → refines now c A (OTryAccess a ty).
Proof.
  intros Hg Hv Ha. pose proof (good_inv c Hg) as Hc.
  destruct (tryCacheAccess_Ok assoc now c a ty Hc Ha) as (b & d & c' & Et & Hc' & Hf).
  apply (refines_frame now c A _ (RAccess b d) c'); try done; [by simpl; rewrite Et|].
  unfold tryCacheAccess in Et.
  destruct (lookup_spec now c a Hc Ha) as
    [[_ El]|(set & way & p & e & c1 & Hix & Hp & El & _)]; rewrite El in Et; cbn [rbind] in Et.
  { simplify_eq. constructor. }
  apply rbind_Ok in Et as (c2 & _ & (e2 & _ & Et)%rbind_Ok).
  assert (A !! a = Some p) by (apply Hv; by exists set, way, e).
  repeat case_decide; simplify_eq; by constructor.
Qed.

Lemma refines_test now c A a ty :
  good c → view c A → line_addr (cfg c) a → refines now c A (OTestAccess a ty).
Proof.
  intros Hg Hv Ha. pose proof (good_inv c Hg) as Hc.
  destruct (testCacheAccess_Ok assoc now c a ty Hc Ha) as (b & d & c' & Et & Hc' & Hf).
  apply (refines_frame now c A _ (RAccess b d) c'); try done; [by simpl; rewrite Et|].
  unfold testCacheAccess in Et.
  destruct (lookup_spec now c a Hc Ha) as
    [[Hn El]|(set & way & p & e & c1 & Hix & Hp & El & Hc1 & Hf1 & _)];
    rewrite El in Et; cbn [rbind] in Et.
  { simplify_eq. constructor. apply eq_None_not_Some. intros [p Hp]. by apply (Hn p), Hv. }
  pose proof (frame_slot _ _ set way Hf1) as Hs. rewrite (ix_slot _ _ _ _ _ _ Hix) in Hs.
  destruct (touch_line_spec assoc now c1 set way p Hc1 Hs) as (c2 & e1 & E2 & _ & _ & He1 & He2).
  rewrite E2 in Et. cbn [rbind] in Et. rewrite (proj2 (deref_Ok _ _ _) He2) in Et.
  cbn [rbind] in Et. simpl in Et.
  destruct (frame_entry _ _ _ _ Hf1 (ix_heap _ _ _ _ _ _ Hix)) as (e1' & He1' & Hi).
  assert (e1' = e1) as -> by congruence. unfold identity in Hi.
  rewrite bool_decide_false in Et by congruence. simplify_eq. constructor.
  apply Hv. by exists set, way, e.
Qed.

Lemma refines_allocate now c A a p :
  good c → view c A → legal now c (OAllocate a p) → refines now c A (OAllocate a p).
Proof.
  intros Hg Hv (Ha & Hfr & Hav). pose proof (good_inv c Hg) as Hc.
  destruct (route_Ok c a Hc Ha) as (s & Hr & _).
  destruct (m_tag_index c !! a) as [x|] eqn:Ex.
  - destruct (inv_index c Hc _ _ Ex) as (set & way & old & e & Hix).
    destruct (allocate_reuse_spec assoc now c a p set way old e Hc Ha Hfr Hix)
      as (c' & limit & El & Hc' & _ & Eg & Ec & Ei & Eh & _).
    exists (RLine (Some old)), c', (<[a := old]> A).
    split_and!; [by simpl; rewrite El|by eapply good_next|done|constructor|].
    + intros b Hb. exact (view_unique c A a set way old e b Hc Hv Hix Hb).
    + intros r (s' & w' & f & Hf & _)%Hv.
      by destruct (indexed_inj c Hc _ _ _ _ _ _ _ _ _ Hix Hf) as (_ & _ & -> & _).
    + intros b q. rewrite lookup_insert_Some, (Hv b q).
      rewrite (rewrite_present c c' a set way old e (recycled now limit e)); try done;
        [naive_solver|by rewrite Eh, lookup_insert_eq|by destruct Hix|].
      intros s' w' r Hs Hne. rewrite Eh, lookup_insert_ne, lookup_delete_ne; [done| |done].
      apply not_eq_sym. by eapply fresh_ne.
  - destruct (cacheAvail_available c a s Hc Ha Hr) as (b & Hb & Hiff & _).
    assert (b = true) as -> by congruence. destruct (proj1 Hiff eq_refl) as [[y Hy]|Hfree];
      [congruence|]. destruct Hfr as [[e He] Hfr'] eqn:Efr.
    destruct (allocate_new_spec assoc now c a s p e Hc Ha Hr Ex Hfr He Hfree)
      as (c' & way & limit & El & Hpos & Hf & _ & _ & Hi).
    pose proof (inv_install c c' a s way p _ Hc Hpos Hf Ex Hi) as Hc'.
    exists (RLine (Some p)), c', (<[a := p]> A).
    split_and!; [by simpl; rewrite El|eapply good_next; [done..|apply Hi]|apply Hi|constructor|].
    + intros b' (s' & w' & f & Hix & _)%Hv. by destruct (Hfr' s' w'); apply Hix.
    + intros r (s' & w' & f & [] & _)%Hv. congruence.
    + intros b' q. rewrite lookup_insert_Some, (Hv b' q).
      rewrite (install_present c c' a s way p _ b' q Hc Hpos Hf Ex Hi) by done. naive_solver.
Qed.

Lemma refines_deallocate now c A a :
  good c → view c A → line_addr (cfg c) a → refines now c A (ODeallocate a).
Proof.
  intros Hg Hv Ha. pose proof (good_inv c Hg) as Hc.
  destruct (m_tag_index c !! a) as [x|] eqn:Ex.
  - destruct (inv_index c Hc _ _ Ex) as (set & way & p & e & Hix).
    destruct (deallocate_spec assoc c a set way p e Hc Ha Hix)
      as (c' & El & Hc' & Eg & Ec & Ei & Eh & _).
    exists RVoid, c', (delete a A).
    split_and!; [by simpl; rewrite El|by eapply good_next|done|constructor|].
    intros b q. rewrite lookup_delete_Some, (Hv b q).
    rewrite (remove_present c c' a set way p e b q Hc Hix Eg Ec Ei); [naive_solver|].
    intros r Hr. by rewrite Eh, lookup_insert_ne.
  - exists RVoid, c, (delete a A). rewrite delete_id.
    + simpl. rewrite (deallocate_absent c a Hc Ha Ex). split_and!; try done.
      assert (A = delete a A) as E; [|rewrite E at 2; constructor].
      rewrite delete_id; [done|]. apply eq_None_not_Some.
      intros [p (s & w & f & [] & _)%Hv]. congruence.
    + apply eq_None_not_Some. intros [p (s & w & f & [] & _)%Hv]. congruence.
Qed.

Lemma refines_probe now c A a :
  good c → view c A → legal now c (OProbe a) → refines now c A (OProbe a).
Proof.
  intros Hg Hv (Ha & Hav & Hnow & Hold). pose proof (good_inv c Hg) as Hc.
  destruct (route_Ok c a Hc Ha) as (s & Hr & _).
  destruct (cacheProbe_chosen assoc now c a s Hc Ha Hr Hav (good_ways c Hg))
    as (pol & way & p & e & El & Hc' & Hfull & _); [intros j q f (_ & E & _); by eapply Hold|done|].
  apply (refines_frame now c A _ (RAddr (m_Address e)) (set_policy c pol)); try done;
    [by simpl; rewrite El|].
  constructor.
  - destruct (cacheAvail_available c a s Hc Ha Hr) as (b & Hb & Hiff & _).
    assert (b = false) as -> by congruence. apply eq_None_not_Some.
    intros [q (s' & w' & f & Hix & _)%Hv]. assert (false = true); [|done].
    apply Hiff. left. destruct Hix as [_ -> _ _ _]. eauto.
  - exists p. apply Hv. exists s, way, e. split; [by apply full_indexed|]. apply Hfull.
Qed.

Lemma refines_permission now c A p perm :
  good c → view c A → legal now c (OPermission p perm) → refines now c A (OPermission p perm).
Proof.
  intros Hg Hv (a & set & way & e & Hix). pose proof (good_inv c Hg) as Hc.
  pose proof Hix as [P C L E Ha].
  assert (∀ perm, m_Address (changePermission perm e) = a ∧
    m_Permission (changePermission perm e) = perm ∧
    replacementData (changePermission perm e) = replacementData e) as Hch.
  { intros q. unfold changePermission. by case_decide. }
  destruct (Hch perm) as (Ha' & Hp' & Hr').
  set (c' := set_heap c (<[p := changePermission perm e]> (heap c))).
  assert (inv c') as Hc'.
  { apply (inv_line c p e); try done; [congruence|]. right. right. exists set, way. by rewrite Ha. }
  assert (exec invalidateEntry now c (OPermission p perm) = Ok (RVoid, c')) as He.
  { simpl. unfold modify. by rewrite (update_lookup _ _ _ _ E). }
  pose proof (λ b, view_unique c A a set way p e b Hc Hv Hix) as Hu.
  destruct (decide (perm = NotPresent)) as [->|Hne].
  - exists RVoid, c', (delete a A).
    split_and!; [done|by eapply good_next|done|by constructor|].
    intros b q. rewrite lookup_delete_Some, (Hv b q).
    assert (∀ s w f, indexed c' b s w q f → m_Permission f ≠ NotPresent → b ≠ a) as Hba.
    { intros s w f Hf Hnp ->.
      assert (indexed c' a set way p (changePermission NotPresent e)) as Hi.
      { constructor; simpl; try done. by rewrite lookup_insert_eq. }
      destruct (indexed_inj c' Hc' _ _ _ _ _ _ _ _ _ Hf Hi) as (_ & _ & _ & ->). congruence. }
    split.
    + intros [Hb (s & w & f & [P' C' L' E' A'] & Hnp)]. exists s, w, f. split; [|done].
      constructor; simpl; try done. rewrite lookup_insert_ne; [done|]. congruence.
    + intros (s & w & f & Hf & Hnp). pose proof (Hba _ _ _ Hf Hnp) as Hb. split; [done|].
      exists s, w, f. split; [|done]. destruct Hf as [P' C' L' E' A']. constructor; try done.
      simpl in E'. rewrite lookup_insert_ne in E'; [done|]. intros <-.
      rewrite lookup_insert_eq in E'. congruence.
  - exists RVoid, c', (<[a := p]> A).
    split_and!; [done|by eapply good_next|done|by constructor|].
    intros b q. rewrite lookup_insert_Some, (Hv b q).
    rewrite (rewrite_present c c' a set way p e (changePermission perm e)); try done.
    + naive_solver.
    + simpl. by rewrite lookup_insert_eq.
    + congruence.
    + intros s w r _ Hr. simpl. by rewrite lookup_insert_ne.
Qed.

Lemma refines_record now c A ty a :
  good c → view c A → line_addr (cfg c) a → refines now c A (ORecord ty a).
Proof.
  intros Hg Hv Ha. pose proof (good_inv c Hg) as Hc.
  destruct (recordRequestType_Ok now c ty a Hc Ha) as (c' & El & Hc' & Eg & Hview).
  assert (exec invalidateEntry now c (ORecord ty a) = Ok (RVoid, c')) as He
    by (simpl; by rewrite El).
  destruct ty; try (apply (refines_frame now c A _ RVoid c'); try done; by constructor).
  simpl in Hview. destruct (m_tag_index c !! a) as [x|] eqn:Ex.
  - destruct (inv_index c Hc _ _ Ex) as (set & way & q & e & Hix).
    assert (view c' (<[a := q]> A)) as Hv'.
    { intros b r. rewrite lookup_insert_Some, (Hv b r), (Hview b r). split.
      - intros [[<- <-]|[? ?]]; [right|by left]. eauto.
      - intros [Hp|[-> (s & w & f & Hf)]].
        + destruct (decide (a = b)) as [<-|]; [left|by right]. split; [done|].
          destruct Hp as (s & w & f & Hf & _).
          by destruct (indexed_inj c Hc _ _ _ _ _ _ _ _ _ Hf Hix) as (_ & _ & -> & _).
        + left. by destruct (indexed_inj c Hc _ _ _ _ _ _ _ _ _ Hf Hix) as (_ & _ & -> & _). }
    destruct (A !! a) as [r|] eqn:Er.
    + exists RVoid, c', A. split_and!; try done; [by eapply good_next|apply a_tag_write|].
      assert (q = r) as ->.
      { apply Hv in Er as (s & w & f & Hf & _).
        by destruct (indexed_inj c Hc _ _ _ _ _ _ _ _ _ Hf Hix) as (_ & _ & -> & _). }
      rewrite insert_id in Hv' by exact Er. exact Hv'.
    + exists RVoid, c', (<[a := q]> A). split_and!; try done; [by eapply good_next|by apply a_tag_revive].
  - exists RVoid, c', A. split_and!; try done; [by eapply good_next|apply a_tag_write|].
    intros b q. rewrite (Hv b q), (Hview b q). split; [by left|].
    intros [?|(_ & s & w & f & [])]; [done|congruence].
Qed.

Lemma refines_abort now c A :
  good c → view c A → (∀ e, line_rel e (invalidateEntry e)) → refines now c A OHtmAbort.
Proof.
  intros Hg Hv Hl. pose proof (good_inv c Hg) as Hc.
  destruct (htmAbort_Ok invalidateEntry c Hc Hl) as (c' & h & El & Hc' & [Hr Hn] & Hf).
  set (keep := λ x : Z * ptr, ∃ e, h !! x.2 = Some e ∧ m_Permission e ≠ NotPresent).
  assert (∀ x, Decision (keep x)) as Hdec.
  { intros [a p]. unfold keep. simpl. destruct (h !! p) as [e|]; [|right; naive_solver].
    destruct (decide (m_Permission e = NotPresent)); [right|left]; naive_solver. }
  exists RVoid, c', (filter keep A).
  split_and!; [by simpl; rewrite El|apply (good_next c); [done|done|apply Hf]|apply Hf|
    constructor; apply map_filter_subseteq|].
  intros a p. rewrite <- (frame_present _ _ _ _ Hf), map_lookup_filter_Some, (Hv a p).
  unfold keep. simpl. split.
  - intros [(s & w & f & [P C L E A'] & Hp) (e & He & Hpe)].
    destruct (Hr _ _ E) as (e' & He' & Ha & _ & _). exists s, w, e'.
    split; [constructor; simpl; try done; congruence|]. congruence.
  - intros (s & w & f & [P C L E A'] & Hp). simpl in E.
    destruct (heap c !! p) as [e|] eqn:Ee; [|by rewrite (Hn _ Ee) in E].
    destruct (Hr _ _ Ee) as (e' & He' & Ha & _ & Hnp).
    assert (e' = f) as -> by congruence. split; [|eauto]. exists s, w, e.
    split; [constructor; try done; congruence|]. tauto.
Qed.

(** Every legal call succeeds, keeps the invariant and does what the abstract
    cache does. *)
Lemma exec_refines now c A op :
  good c → view c A → (∀ e, line_rel e (invalidateEntry e)) → legal now c op →
  refines now c A op.
Proof.
  intros Hg Hv Hl Hleg. pose proof (good_inv c Hg) as Hc. destruct op; simpl in Hleg.
  - by apply refines_new.
  - by apply refines_permission.
  - by apply refines_lookup.
  - by apply refines_try.
  - by apply refines_test.
  - by apply refines_allocate.
  - by apply refines_deallocate.
  - by apply refines_probe.
  - destruct (setMRU_Ok assoc now c a Hc Hleg) as (c' & El & Hc' & Hf).
    eapply refines_frame; try done; [by simpl; rewrite El|constructor].
  - destruct (setMRU_occupancy_Ok assoc now c a occupancy Hc Hleg (good_occupancy c Hg))
      as (c' & El & Hc' & Hf).
    eapply refines_frame; try done; [by simpl; rewrite El|constructor].
  - destruct Hleg as (set & way & Hs). destruct (touch_op assoc now c set way p Hc Hs)
      as (c' & El & Hc' & Hf).
    eapply refines_frame; try done; [|constructor]. simpl. unfold setMRU_entry.
    cbn [rbind of_option]. by rewrite El.
  - destruct Hleg as (Ha & p & Hp). destruct (on_present_spec now c a p
      (CacheEntry.setLocked context) Hc Ha Hp) as (c' & e & El & Hc' & Hf & _); [done|].
    eapply refines_frame; try done; [simpl; unfold setLocked; by rewrite El|constructor].
  - destruct Hleg as (Ha & p & Hp). destruct (on_present_spec now c a p
      CacheEntry.clearLocked Hc Ha Hp) as (c' & e & El & Hc' & Hf & _); [done|].
    eapply refines_frame; try done; [simpl; unfold clearLocked; by rewrite El|constructor].
  - destruct Hleg as (Ha & p & Hp).
    destruct (lookup_found now c a p Hc Ha Hp) as (set & way & c' & El & Hc' & Hf & Hs).
    destruct (inv_lines c' Hc' _ _ _ Hs) as (e & He & _).
    eapply refines_frame; try done; [simpl; unfold isLocked; rewrite El; cbn [rbind of_option];
      by rewrite (proj2 (deref_Ok _ _ _) He)|constructor].
  - destruct (clearLockedAll_Ok c context Hc) as (c' & El & Hc' & Hf).
    eapply refines_frame; try done; [by simpl; rewrite El|constructor].
  - by apply refines_record.
  - destruct Hleg as [Ha Hr].
    destruct (checkResourceAvailable_Ok now c r a Hc Ha Hr) as (b & c' & El & Hc' & Hf & _).
    eapply refines_frame; try done; [by simpl; rewrite El|constructor].
  - destruct (getRetentionLatency_Ok now c ty a Hc Hleg) as (n & c' & El & Hc' & Hf & _).
    eapply refines_frame; try done; [by simpl; rewrite El|constructor].
  - destruct (htmCommit_Ok c Hc) as (c' & El & Hc' & Hf).
    eapply refines_frame; try done; [by simpl; rewrite El|constructor].
  - by apply refines_abort.
Qed.

Lemma run_refines c A tr :
  good c → view c A → (∀ e, line_rel e (invalidateEntry e)) → legal_run invalidateEntry c tr →
  ∃ rs c' A', run invalidateEntry c tr = Ok (rs, c') ∧ good c' ∧ aexecs tr A rs A' ∧ view c' A'.
Proof.
  intros Hg Hv Hl. revert c A Hg Hv.
  induction tr as [|[now op] tr IH]; intros c A Hg Hv; simpl.
  { intros _. exists [], c, A. split_and!; try done. constructor. }
  intros [Hleg Hrest].
  destruct (exec_refines now c A op Hg Hv Hl Hleg) as (r & c1 & A1 & E & Hg1 & _ & Ha & Hv1).
  rewrite E in Hrest |- *. destruct (IH c1 A1 Hg1 Hv1 Hrest) as (rs & c' & A' & Er & ? & ? & ?).
  cbn [rbind]. rewrite Er. cbn [rbind]. exists (r :: rs), c', A'. split_and!; try done.
  by eapply a_cons.
Qed.

End Refinement.
