(* ===== verification/CacheProperties.v ===== *)
(** The properties of the cache as a whole: the run of a protocol against it,
    the search by index against a search of the slots, routing and
    redirection, allocation and eviction, retention. *)

From stdpp Require Import prelude gmap list_numbers.
From Stdlib Require Import ZArith Lia.
From S2P Require Import Prelude Bits SatCounter Replacement ReplacementSpec TreePLRUSpec.
From S2P Require Import Resources CacheEntry CacheMemory CacheGeometry CacheInv CacheInit.
From S2P Require Import CacheAlloc CacheProbe CacheRequests CacheSystem.

Import CacheMemory.
Open Scope Z_scope.

(** ** Reference definitions *)

(** The search of every slot for a present line of an address. *)
Definition holds {S} (c : t S) (a : Z) (pos : Z * Z) : bool :=
  match slot c pos.1 pos.2 with
  | Ok (Some p) =>
      match heap c !! p with
      | Some e => (m_Address e =? a) && negb (bool_decide (m_Permission e = NotPresent))
      | None => false
      end
  | _ => false
  end.

Definition positions (g : Config) : list (Z * Z) :=
  list_prod (seqZ 0 (m_cache_num_sets g)) (seqZ 0 (m_cache_assoc g)).

Definition scan_tag {S} (c : t S) (a : Z) : option (Z * Z) :=
  head (filter (λ pos, Is_true (holds c a pos)) (positions (cfg c))).

(** ** Concrete caches for the witnesses *)

(** Four levels of retention with growing times and latencies. *)
Definition level (k : Z) : LatencyType :=
  mkLatencyType (mkLatency (2 + k) (10 * k)) (mkLatency 1 (2 + k)) (1000 * 10 ^ k).

Definition sample_params (zones : Z) (sttram lazy : bool) : Params :=
  mkParams 2048 2 6 false 64 0 64 2 2 true zones sttram lazy (level 1) (level 2) (level 3) (level 4).

Definition sample_system : RubySystem := mkRubySystem 500 64.

Lemma sample_params_ok zones sttram lazy :
  1 ≤ zones ≤ 4 → (lazy = true → sttram = true) →
  params_ok (sample_params zones sttram lazy) sample_system.
Proof.
  intros Hz Hl. constructor; unfold num_sets_of; simpl; try lia; try done.
  - by exists 4.
Qed.

(** A cache of 16 sets of 2 lines under LRU. *)
Definition sample (zones : Z) (sttram lazy : bool) : res (t LRU.t) :=
  build (sample_params zones sttram lazy) sample_system (LRU.mk []).

(** A state of the sample cache, for theorems about states. *)
Definition sample_state (zones : Z) (sttram lazy : bool) (tr : list (Z * Op)) : res (t LRU.t) :=
  let* c := sample zones sttram lazy in
  let* (_, c) := run id c tr in Ok c.

(** ** Shared lemmas *)

#[local] Instance LRU_laws_2 : PolicyLaws LRU.t 2 := LRU_laws 2 Nat.lt_0_2.

Lemma sample_good zones sttram lazy tr :
  1 ≤ zones ≤ 4 → (lazy = true → sttram = true) →
  match sample zones sttram lazy with Ok c => legal_runb id c tr | Err _ => false end = true →
  ∃ c, sample_state zones sttram lazy tr = Ok c ∧ good 2 c.
Proof.
  intros Hz Hl Hleg. unfold sample_state.
  pose proof (sample_params_ok zones sttram lazy Hz Hl) as Hp.
  destruct (build_state 2 _ _ (LRU.mk []) Hp eq_refl)
    as (bd & bt & rd & pol & st & Hb & Hbd & Hbt & Hst & Hpol & Hrd).
  unfold sample in *. rewrite Hb in *.
  set (c0 := fresh_cache _ _ _ _ _ _ _) in *. cbn [rbind].
  assert (inv c0) as Hc0 by (by apply fresh_cache_inv).
  assert (good 2 c0) as Hg0 by (by constructor).
  destruct (run_refines 2 id c0 ∅ tr Hg0)
    as (rs & c & A & Hr & Hg & _); [|by intros e|by apply legal_runb_sound|].
  { intros a p. split; [set_solver|]. intros (s & w & e & [] & _). set_solver. }
  exists c. by rewrite Hr.
Qed.

(** Facts about a state of the sample cache are evaluated: [on_sample H P] turns
    [H : sample_state ... = Ok c] into a proof of [P c]. *)
Ltac on_sample H P :=
  match type of H with
  | ?m = Ok ?c =>
      let X := fresh in
      assert (match m with Ok c => P c | Err _ => False end) as X;
      [vm_compute; try reflexivity | rewrite H in X; exact X]
  end.

(** ** Runs of the protocol *)

Section Runs.
Context {S : Type} `{ReplacementPolicy S} `{!PolicyInv S} (assoc : nat) `{!PolicyLaws S assoc}.
Context (invalidateEntry : Entry → Entry).

(** C1. The cache is a map from line addresses to lines. For every replacement
    policy that keeps the laws of the interface and every configuration that
    passes the constructor with at most 65536 sets and ways and a number of sets
    divisible by 4, the cache is built, and every run of calls that respects the
    calling conventions completes: no assertion fails, nothing panics, no null,
    dangling or out-of-range access happens. What the calls return and the lines
    present afterwards are those of the abstract map: [allocate] binds an
    address, [deallocate] unbinds it, [lookup] reads the map, [cacheProbe] names
    a bound address. *)
Theorem cache_refines_map (p : Params) (rs : RubySystem) (pol : S)
    (Hp : params_ok p rs) (Hassoc : Z.to_nat (p_assoc p) = assoc) (Hpol : pol_inv 0 pol)
    (Hinval : ∀ e, line_rel e (invalidateEntry e)) :
  ∃ c, build p rs pol = Ok c ∧
    ∀ tr, legal_run invalidateEntry c tr →
      ∃ results c' A, run invalidateEntry c tr = Ok (results, c') ∧ inv c' ∧
        aexecs tr ∅ results A ∧ view c' A.
Proof using PolicyLaws0.
  destruct (build_state assoc _ _ pol Hp Hpol)
    as (bd & bt & rd & pol' & st & Hb & Hbd & Hbt & Hst & Hpol' & Hrd).
  eexists. split; [exact Hb|]. intros tr Htr. set (c := fresh_cache _ _ _ _ _ _ _) in *.
  assert (inv c) as Hc by (by apply fresh_cache_inv).
  assert (good assoc c) as Hg.
  { constructor; [done|done|]. simpl. unfold is_weighted.
    destruct touch_occupancy; [by rewrite bool_decide_true by eauto|].
    rewrite bool_decide_false; [done|]. by intros [? [=]]. }
  destruct (run_refines assoc invalidateEntry c ∅ tr Hg) as (results & c' & A & ? & Hg' & ? & ?);
    [|done..|].
  { intros a q. split; [set_solver|]. intros (s & w & e & [] & _). set_solver. }
  exists results, c', A. split_and!; try done. apply Hg'.
Qed.

End Runs.

Lemma cache_refines_map_witness :
  ∃ c, build (sample_params 4 true true) sample_system (LRU.mk []) = Ok c ∧
    ∀ tr, legal_run id c tr →
      ∃ results c' A, run id c tr = Ok (results, c') ∧ inv c' ∧
        aexecs tr ∅ results A ∧ view c' A.
Proof.
  apply (cache_refines_map 2 id); [|done|done|by intros e].
  constructor; unfold num_sets_of; simpl; try lia; try done. by exists 4.
Defined.

(** ** The tag index *)

Lemma positions_elem g pos : pos ∈ positions g ↔ pos_ok g pos.1 pos.2.
Proof.
  destruct pos as [s w]. unfold positions, pos_ok. simpl.
  rewrite list_elem_of_In, in_prod_iff, <- !list_elem_of_In, !elem_of_seqZ. lia.
Qed.

(** C2. The fast index is equivalent to a search of the whole cache: in every
    state of the invariant [findTagInSet] returns the set and way that a scan of
    all slots for a present line of the address finds, and -1 with the set
    unchanged when the scan finds none; at most one slot qualifies. *)
Theorem findTagInSet_scan {S} `{ReplacementPolicy S} `{!PolicyInv S} (c : t S) (s a : Z)
    (Hc : inv c) (Ha : line_addr (cfg c) a) :
  findTagInSet c s a =
    Ok (match scan_tag c a with Some (set, way) => (way, set) | None => (-1, s) end) ∧
  ∀ pos pos', holds c a pos = true → holds c a pos' = true → pos = pos'.
Proof.
  assert (∀ set way, holds c a (set, way) = true ↔
    ∃ p e, indexed c a set way p e ∧ m_Permission e ≠ NotPresent) as Hholds.
  { intros set way. unfold holds. cbn [fst snd]. split.
    - destruct (slot c set way) as [[p|]|] eqn:Es; try done.
      destruct (heap c !! p) as [e|] eqn:Ee; [|done].
      intros [Hae Hp]%andb_prop. apply negb_true_iff, bool_decide_eq_false in Hp.
      apply Z.eqb_eq in Hae. exists p, e. split; [|done]. rewrite <- Hae.
      apply full_indexed; [done|]. by split_and!.
    - intros (p & e & [P C L E A] & Hp). rewrite L, E, A, Z.eqb_refl. simpl.
      by rewrite bool_decide_false. }
  assert (∀ pos pos', holds c a pos = true → holds c a pos' = true → pos = pos') as Huniq.
  { intros [s1 w1] [s2 w2] (p1 & e1 & H1 & _)%Hholds (p2 & e2 & H2 & _)%Hholds.
    by destruct (indexed_inj c Hc _ _ _ _ _ _ _ _ _ H1 H2) as (-> & -> & _). }
  split; [|done]. unfold scan_tag.
  destruct (findTagInSet_spec c s a Hc Ha) as [[Hn ->]|(set & way & p & e & Hix & Hp & ->)].
  - destruct (head _) as [[s' w']|] eqn:Eh; [|done]. exfalso.
    apply head_Some_elem_of, list_elem_of_filter in Eh as [Hh _].
    apply Is_true_true, Hholds in Hh as (p & e & Hix & Hp). apply (Hn p). by exists s', w', e.
  - assert (holds c a (set, way) = true) as Hh by (apply Hholds; eauto).
    destruct (head _) as [pos|] eqn:Eh.
    + apply head_Some_elem_of, list_elem_of_filter in Eh as [Hh' _].
      apply Is_true_true in Hh'. by rewrite (Huniq _ _ Hh' Hh).
    + apply head_None in Eh.
      assert ((set, way) ∈ filter (λ pos, Is_true (holds c a pos)) (positions (cfg c))) as Hin.
      { apply list_elem_of_filter. split; [by apply Is_true_true|]. apply positions_elem, Hix. }
      rewrite Eh in Hin. set_solver.
Qed.

Definition two_lines : list (Z * Op) :=
  [(1000, ONew 1 (newEntry 1000 0)); (1000, OAllocate 64 1); (1001, OPermission 1 Read_Only);
   (1002, ONew 2 (newEntry 1002 0)); (1003, OAllocate 1088 2); (1004, OPermission 2 Read_Write)].

Lemma findTagInSet_scan_witness :
  ∃ c, sample_state 4 true true two_lines = Ok c ∧
    findTagInSet c 7 1088 =
      Ok (match scan_tag c 1088 with Some (set, way) => (way, set) | None => (-1, 7) end) ∧
    ∀ pos pos', holds c 1088 pos = true → holds c 1088 pos' = true → pos = pos'.
Proof.
  destruct (sample_good 4 true true two_lines) as (c & Hs & Hg); [lia|done|by vm_compute|].
  exists c. split; [done|]. apply findTagInSet_scan; [apply Hg|].
  apply line_addrb_sound. on_sample Hs (λ c : t LRU.t, line_addrb (cfg c) 1088 = true).
Defined.

(** The packing of a position into one 32-bit [int] loses nothing for up to
    65536 sets and ways: decoding gives back the set and the way, also where the
    packed value is negative. *)
Theorem index_roundtrip (set way : Z)
    (Hs : 0 ≤ set < 2 ^ 16) (Hw : 0 ≤ way < 2 ^ 16) :
  decode_set (encode set way) = set ∧ decode_way (encode set way) = way ∧
  - 2 ^ 31 ≤ encode set way < 2 ^ 31.
Proof.
  destruct (encode_decode set way Hs Hw) as [-> ->]. split_and!; try done; unfold encode, i32.
  all: pose proof (Z.mod_pos_bound
    (Z.lor (Z.shiftl set 16) (Z.land way 0xFFFF) + 2 ^ 31) (2 ^ 32)); lia.
Qed.

Lemma index_roundtrip_witness :
  decode_set (encode 65535 3) = 65535 ∧ decode_way (encode 65535 3) = 3 ∧
  - 2 ^ 31 ≤ encode 65535 3 < 2 ^ 31.
Proof. apply (index_roundtrip 65535 3); lia. Defined.

(** Beyond 65536 sets the index confuses sets: set 65536 packs to the same
    value as set 0, so a line there is looked for in set 0. *)
Theorem index_confuses_large_sets (way : Z) : encode 65536 way = encode 0 way.
Proof.
  unfold encode. set (w := Z.land way 0xFFFF). assert (0 ≤ w < 2 ^ 16) as Hw.
  { unfold w. change 0xFFFF with (Z.ones 16). rewrite Z.land_ones by lia.
    apply Z.mod_pos_bound. lia. }
  rewrite !lor_shiftl_add by lia. unfold i32.
  replace (65536 * 2 ^ 16 + w + 2 ^ 31) with (0 * 2 ^ 16 + w + 2 ^ 31 + 1 * 2 ^ 32) by lia.
  by rewrite Z.mod_add by lia.
Qed.

(** ** Routing and redirection *)

(** C9. Every line address is routed to a set of the cache, and redirection moves
    a page exactly two retention zones down: if the page of the address has been
    redirected and its default set lies in one of the two upper of four zones,
    the set lies in the zone two below; in every other case it lies in the zone
    of the default set, wherever the walk of the write counter leads. *)
Theorem route_zone {S} `{ReplacementPolicy S} `{!PolicyInv S} (c : t S) (a : Z)
    (Hc : inv c) (Ha : line_addr (cfg c) a) :
  ∃ d s z, getDefaultSet (cfg c) a = Ok d ∧ addressToCacheSet c a = Ok s ∧
    0 ≤ s < m_cache_num_sets (cfg c) ∧ getRetentionZone (cfg c) d = Ok z ∧
    getRetentionZone (cfg c) s = Ok (if redirected c a && (2 <=? z) then z - 2 else z).
Proof.
  pose proof (inv_cfg c Hc) as Hg.
  destruct (route_spec c Hg (inv_pages c Hc) a Ha) as (d & s & Hd & Hs & Hdr & Hsr & Hz).
  pose proof (zone_size_pos _ Hg). pose proof (wf_zones _ Hg).
  exists d, s, (Z.min (d / zone_size (cfg c)) (m_num_of_retention_zones (cfg c) - 1)).
  split_and!; try done; [lia|lia| |].
  { apply getRetentionZone_min; [done|lia]. }
  rewrite getRetentionZone_min by (done || lia). rewrite Hz. f_equal.
  destruct (redirected c a) eqn:Er; [|done]. cbn [andb].
  unfold redirected in Er. apply andb_prop in Er as [[_ E4]%andb_prop _]. apply Z.eqb_eq in E4.
  pose proof (four_zones c Hg E4) as Hn. rewrite E4.
  assert (d / zone_size (cfg c) < 4) by (apply Z.div_lt_upper_bound; lia).
  pose proof (Z.div_pos d (zone_size (cfg c))).
  replace (Z.min (d / zone_size (cfg c)) (4 - 1)) with (d / zone_size (cfg c)) by lia.
  destruct (Z.leb_spec 2 (d / zone_size (cfg c))); rewrite Z.min_l; lia.
Qed.

(** A run of [n] data writes to one line. *)
Definition data_writes (now a : Z) (n : nat) : list (Z * Op) :=
  replicate n (now, ORecord DataArrayWrite a).

Definition hot_page : list (Z * Op) :=
  [(1000, ONew 1 (newEntry 1000 0)); (1000, OAllocate 832 1); (1001, OPermission 1 Read_Write)]
  ++ data_writes 2000 832 15.

Lemma route_zone_witness :
  ∃ c, sample_state 4 true true hot_page = Ok c ∧
  ∃ d s z, getDefaultSet (cfg c) 832 = Ok d ∧ addressToCacheSet c 832 = Ok s ∧
    0 ≤ s < m_cache_num_sets (cfg c) ∧ getRetentionZone (cfg c) d = Ok z ∧
    getRetentionZone (cfg c) s = Ok (if redirected c 832 && (2 <=? z) then z - 2 else z).
Proof.
  destruct (sample_good 4 true true hot_page) as (c & Hs & Hg); [lia|done|by vm_compute|].
  exists c. split; [done|]. apply route_zone; [apply Hg|].
  apply line_addrb_sound. on_sample Hs (λ c : t LRU.t, line_addrb (cfg c) 832 = true).
Defined.

(** The retention zone of a set is its quotient by the zone size, capped at
    the last zone, which also takes the sets left over by the division. *)
Theorem zone_of_set (g : Config) (set : Z) (Hg : cfg_wf g) (Hs : 0 ≤ set) :
  getRetentionZone g set =
    Ok (Z.min (set / (m_cache_num_sets g / m_num_of_retention_zones g))
              (m_num_of_retention_zones g - 1)).
Proof. by apply getRetentionZone_min. Qed.

Lemma zone_of_set_witness :
  let g := config_of (sample_params 3 true false) sample_system false in
  getRetentionZone g 15 =
    Ok (Z.min (15 / (m_cache_num_sets g / m_num_of_retention_zones g))
              (m_num_of_retention_zones g - 1)).
Proof.
  apply zone_of_set; [|lia]. apply config_of_wf, sample_params_ok; [lia|done].
Defined.

(** One data write to a line the index knows. *)
Lemma data_write_page {S} `{ReplacementPolicy S} `{!PolicyInv S} (now : Z) (c : t S) a set way p e :
  inv c → line_addr (cfg c) a → indexed c a set way p e →
  m_lazy_redirection_scheme (cfg c) = true →
  ∃ c' e', recordRequestType now c DataArrayWrite a = Ok c' ∧ inv c' ∧ cfg c' = cfg c ∧
    indexed c' a set way p e' ∧
    match m_chunk_redirection_table c !! Z.shiftr a 12 with
    | Some _ => page_count c' (Z.shiftr a 12) = page_count c (Z.shiftr a 12) ∧
        m_chunk_redirection_table c' = m_chunk_redirection_table c
    | None => page_count c' (Z.shiftr a 12) = Z.min 15 (page_count c (Z.shiftr a 12) + 1) ∧
        m_chunk_redirection_table c' =
          if page_count c' (Z.shiftr a 12) =? 15
          then <[Z.shiftr a 12 := Z.shiftr a 12 mod zone_size (cfg c)]> (m_chunk_redirection_table c)
          else m_chunk_redirection_table c
    end.
Proof.
  intros Hc Ha Hix Hlazy. destruct (route_Ok c a Hc Ha) as (s & Hr & Hs).
  destruct (record_prologue_spec now c a s Hc Ha Hr)
    as (z & set' & entry & c1 & Hpro & Hz & _ & Hc1 & Hf1 & [Ek Et] & Hline).
  pose proof (fr_cfg _ _ Hf1) as Eg.
  destruct Hline as [[Hn _]|(way' & p' & e1 & Hix' & -> & Hix1)]; [destruct Hix; congruence|].
  destruct (indexed_inj c Hc _ _ _ _ _ _ _ _ _ Hix Hix') as (<- & <- & <- & <-).
  unfold recordRequestType. rewrite Hpro. cbn [rbind].
  destruct (level_get (cfg c1) (inv_cfg c1 Hc1) s) as (z' & l & Hz' & _ & Hl); [lia|].
  rewrite Eg in Hz'. assert (z' = z) as -> by congruence. rewrite Hl. cbn [rbind].
  rewrite <- Eg in Ha. pose proof (chunk_range c s Hc Hs) as Hi. rewrite <- Eg in Hi.
  destruct (record_data_write_line now c1 a l (getChunkId s) set way p _ Hc1 Ha Hi Hix1)
    as (c2 & c' & -> & Hc' & Hf' & Hcnt & [Ek' Et'] & He').
  set (c1' := set_heap c1 _) in Hcnt.
  assert (inv c1') as Hc1'.
  { apply (inv_line c1 p (setLastAccess now e)); try done; [apply Hix1|by left]. }
  destruct (count_page_write_spec c1' (Z.shiftr a 12) Hc1' (page_range _ _ Ha))
    as (c2' & E2 & _ & _ & Hpg & _); [by simpl; rewrite Eg|].
  assert (c2' = c2) as -> by congruence.
  destruct (frame_indexed _ _ _ _ _ _ _ Hf' Hix1) as (e' & Hix2 & _).
  exists c', e'. split_and!; try done; [by rewrite (fr_cfg _ _ Hf')|].
  assert (∀ pg, page_count c' pg = page_count c2 pg) as Hp' by (intros; unfold page_count; by rewrite Ek').
  assert (∀ pg, page_count c1' pg = page_count c pg) as Hp1 by (intros; unfold page_count; simpl; by rewrite Ek).
  rewrite !Hp', Et', <- Hp1. simpl in Hpg. rewrite Et, Eg in Hpg. exact Hpg.
Qed.

Lemma data_writes_count {S} `{ReplacementPolicy S} `{!PolicyInv S} (now : Z) (n : nat) :
  ∀ (c : t S) a set way p e,
  inv c → line_addr (cfg c) a → indexed c a set way p e →
  m_lazy_redirection_scheme (cfg c) = true →
  (if page_count c (Z.shiftr a 12) =? 15
   then m_chunk_redirection_table c !! Z.shiftr a 12 = Some (Z.shiftr a 12 mod zone_size (cfg c))
   else m_chunk_redirection_table c !! Z.shiftr a 12 = None) →
  0 ≤ page_count c (Z.shiftr a 12) ≤ 15 →
  let k := Z.min 15 (page_count c (Z.shiftr a 12) + Z.of_nat n) in
  ∃ rs c', run id c (data_writes now a n) = Ok (rs, c') ∧ inv c' ∧
    page_count c' (Z.shiftr a 12) = k ∧
    m_chunk_redirection_table c' !! Z.shiftr a 12 =
      if k =? 15 then Some (Z.shiftr a 12 mod zone_size (cfg c)) else None.
Proof.
  induction n as [|n IH]; intros c a set way p e Hc Ha Hix Hlazy Hred Hk; cbv zeta.
  { exists [], c. rewrite Z.add_0_r, Z.min_r by lia. split_and!; try done.
    by destruct (page_count c (Z.shiftr a 12) =? 15). }
  destruct (data_write_page now c a set way p e Hc Ha Hix Hlazy)
    as (c1 & e1 & E1 & Hc1 & Eg & Hix1 & Hpg).
  rewrite <- Eg in Ha, Hlazy.
  assert (page_count c1 (Z.shiftr a 12) = Z.min 15 (page_count c (Z.shiftr a 12) + 1) ∧
    m_chunk_redirection_table c1 !! Z.shiftr a 12 =
      if page_count c1 (Z.shiftr a 12) =? 15
      then Some (Z.shiftr a 12 mod zone_size (cfg c)) else None) as [Hk1 Hred1].
  { destruct (Z.eqb_spec (page_count c (Z.shiftr a 12)) 15) as [E15|N15]; rewrite Hred in Hpg.
    - destruct Hpg as [-> ->]. rewrite E15, Hred. split; [lia|done].
    - destruct Hpg as [Hc' Ht']. split; [done|]. rewrite Ht'.
      destruct (page_count c1 (Z.shiftr a 12) =? 15); [by rewrite lookup_insert_eq|done]. }
  destruct (IH c1 a set way p e1 Hc1 Ha Hix1 Hlazy) as (rs & c' & E' & Hc' & Hk' & Hred').
  { rewrite Hred1, Eg. by case_match. }
  { lia. }
  exists (RVoid :: rs), c'. simpl. rewrite E1. cbn [rbind rmap]. simpl.
  unfold data_writes in E'. rewrite E'. cbn [rbind].
  replace (Z.min 15 (page_count c (Z.shiftr a 12) + Z.of_nat (Datatypes.S n)))
    with (Z.min 15 (page_count c1 (Z.shiftr a 12) + Z.of_nat n)) by lia.
  split_and!; try done. by rewrite Hred', Eg.
Qed.

(** C8. Lazy redirection takes fifteen data writes. For a page that has not been
    written, [n] data writes to a line of the page leave its counter at
    [min 15 n], and the page is in the redirection table exactly when [n >= 15],
    with the offset [page mod zone_size] inside its new zone. *)
Theorem redirection_after_fifteen {S} `{ReplacementPolicy S} `{!PolicyInv S}
    (now : Z) (n : nat) (c : t S) (a set way : Z) (p : ptr) (e : Entry)
    (Hc : inv c) (Ha : line_addr (cfg c) a) (Hix : indexed c a set way p e)
    (Hlazy : m_lazy_redirection_scheme (cfg c) = true)
    (Hcold : page_count c (Z.shiftr a 12) = 0)
    (Hstay : m_chunk_redirection_table c !! Z.shiftr a 12 = None) :
  ∃ rs c', run id c (data_writes now a n) = Ok (rs, c') ∧ inv c' ∧
    page_count c' (Z.shiftr a 12) = Z.min 15 (Z.of_nat n) ∧
    m_chunk_redirection_table c' !! Z.shiftr a 12 =
      if (15 <=? n)%nat then Some (Z.shiftr a 12 mod zone_size (cfg c)) else None.
Proof.
  destruct (data_writes_count now n c a set way p e Hc Ha Hix Hlazy) as (rs & c' & E & Hc' & Hk & Hr);
    [by rewrite Hcold|lia|]. exists rs, c'. rewrite Hcold, Z.add_0_l in *.
  split_and!; try done. rewrite Hr.
  destruct (Nat.leb_spec 15 n), (Z.eqb_spec (Z.min 15 (Z.of_nat n)) 15); done || lia.
Qed.

Lemma redirection_after_fifteen_witness :
  ∃ c, sample_state 4 true true two_lines = Ok c ∧
  ∃ rs c', run id c (data_writes 3000 64 15) = Ok (rs, c') ∧ inv c' ∧
    page_count c' (Z.shiftr 64 12) = Z.min 15 (Z.of_nat 15) ∧
    m_chunk_redirection_table c' !! Z.shiftr 64 12 =
      if (15 <=? 15)%nat then Some (Z.shiftr 64 12 mod zone_size (cfg c)) else None.
Proof.
  destruct (sample_good 4 true true two_lines) as (c & Hs & Hg); [lia|done|by vm_compute|].
  exists c. split; [done|].
  assert (is_Some (indexedb c 64)) as [[p e] Hix].
  { on_sample Hs (λ c : t LRU.t, is_Some (indexedb c 64)). by eexists. }
  apply indexedb_sound in Hix as (set & way & Hix).
  apply (redirection_after_fifteen 3000 15 c 64 set way p e); [apply Hg| |done|..].
  - apply line_addrb_sound. on_sample Hs (λ c : t LRU.t, line_addrb (cfg c) 64 = true).
  - on_sample Hs (λ c : t LRU.t, m_lazy_redirection_scheme (cfg c) = true).
  - on_sample Hs (λ c : t LRU.t, page_count c (Z.shiftr 64 12) = 0).
  - on_sample Hs (λ c : t LRU.t, m_chunk_redirection_table c !! Z.shiftr 64 12 = None).
Defined.

(** ** Allocation and eviction *)

Section Allocation.
Context {S : Type} `{ReplacementPolicy S} `{!PolicyInv S} (assoc : nat) `{!PolicyLaws S assoc}.

(** C4. [allocate] decides as [cacheAvail] announces. When [cacheAvail] is true:
    an address the index knows keeps its line, which is recycled in place with
    the retention time of its set's zone while the new object is dropped; a new
    address takes the first free way of the set it is routed to, and the line
    starts invalid, not expired and refreshed now, with the retention time of
    the zone (0 in an SRAM cache). When [cacheAvail] is false, [allocate]
    panics. *)
Theorem allocate_correct (now : Z) (c : t S) (a : Z) (entry : ptr) (e0 : Entry)
    (Hc : inv c) (Ha : line_addr (cfg c) a) (Hfr : fresh c entry)
    (He : heap c !! entry = Some e0) :
  (∃ set way old e c' limit, indexed c a set way old e ∧ cacheAvail c a = Ok true ∧
     allocate now c a entry = Ok (old, c') ∧ inv c' ∧ zone_time (cfg c) set = Ok limit ∧
     heap c' = <[old := recycled now limit e]> (delete entry (heap c)) ∧
     m_cache c' = m_cache c ∧ m_tag_index c' = m_tag_index c) ∨
  (∃ s way c' limit, m_tag_index c !! a = None ∧ cacheAvail c a = Ok true ∧
     addressToCacheSet c a = Ok s ∧ free_at c s way ∧
     (∀ j, 0 ≤ j < way → ∃ p f, full_at c s j p f) ∧
     allocate now c a entry = Ok (entry, c') ∧ inv c' ∧
     (if m_is_sttram (cfg c) then zone_time (cfg c) s = Ok limit else limit = 0) ∧
     indexed c' a s way entry (installed now limit a (handle (cfg c) s way) e0)) ∨
  (m_tag_index c !! a = None ∧ cacheAvail c a = Ok false ∧ allocate now c a entry = Err EPanic).
Proof using PolicyLaws0.
  destruct (route_Ok c a Hc Ha) as (s & Hr & Hs).
  destruct (cacheAvail_available c a s Hc Ha Hr) as (b & Hb & Hiff & Hfull).
  destruct (m_tag_index c !! a) as [x|] eqn:Ex.
  - left. destruct (inv_index c Hc _ _ Ex) as (set & way & old & e & Hix).
    destruct (allocate_reuse_spec assoc now c a entry set way old e Hc Ha Hfr Hix)
      as (c' & limit & El & Hc' & Hz & _ & Ec & Ei & Eh & _).
    exists set, way, old, e, c', limit. split_and!; try done.
    rewrite Hb. f_equal. apply Hiff. left. by rewrite Ex.
  - right. destruct b; [left|right].
    + destruct (proj1 Hiff eq_refl) as [[y Hy]|Hfree]; [congruence|].
      destruct (allocate_new_spec assoc now c a s entry e0 Hc Ha Hr Ex Hfr He Hfree)
        as (c' & way & limit & El & Hpos & Hf & Hall & Hlim & Hi).
      exists s, way, c', limit. split_and!; try done; [by eapply inv_install|].
      constructor; rewrite ?(is_cfg _ _ _ _ _ _ _ Hi); [done|apply Hi..].
    + split_and!; try done. eapply allocate_full_spec; try done.
      intros Hav. by apply Hiff in Hav.
Qed.


(** C3. A miss in a full set makes progress: evicting the line [cacheProbe] names
    with [deallocate] makes [cacheAvail] true for the missing address, and
    [allocate] then installs it; afterwards the new address is present, the
    victim is not, and every other line is as before. *)
Theorem miss_makes_progress (now : Z) (c : t S) (a : Z) (entry : ptr)
    (Hc : inv c) (Hways : ways c = assoc) (Ha : line_addr (cfg c) a)
    (Hlines : ∀ set way p e, full_at c set way p e → line_addr (cfg c) (m_Address e))
    (Hav : cacheAvail c a = Ok false) (Hfr : fresh c entry) (Hnow : 0 ≤ now < 2 ^ 64 - 1)
    (Hold : ∀ p e, heap c !! p = Some e → getLastAccess e ≤ now) :
  ∃ v c1 c2 c3, cacheProbe now c a = Ok (v, c1) ∧ deallocate c1 v = Ok c2 ∧
    cacheAvail c2 a = Ok true ∧ allocate now c2 a entry = Ok (entry, c3) ∧ inv c3 ∧
    ∀ b q, present c3 b q ↔ (b = a ∧ q = entry) ∨ (b ≠ a ∧ b ≠ v ∧ present c b q).
Proof using PolicyLaws0.
  destruct (route_Ok c a Hc Ha) as (s & Hr & Hs).
  destruct (cacheProbe_chosen assoc now c a s Hc Ha Hr Hav Hways)
    as (pol & way & p & e & El & Hc1 & Hfull & _); [|done|].
  { intros j q f (_ & E & _). by eapply Hold. }
  set (c1 := set_policy c pol) in *. pose proof (Hlines _ _ _ _ Hfull) as Hv.
  assert (indexed c1 (m_Address e) s way p e) as Hix1 by (by apply full_indexed).
  destruct (deallocate_spec assoc c1 (m_Address e) s way p e Hc1 Hv Hix1)
    as (c2 & Ed & Hc2 & Eg2 & Ec2 & Ei2 & Eh2 & _ & Ek2 & Et2).
  assert (addressToCacheSet c2 a = Ok s) as Hr2.
  { unfold addressToCacheSet in *. by rewrite Eg2, Ek2, Et2. }
  assert (line_addr (cfg c2) a) as Ha2 by (by rewrite Eg2).
  assert (m_tag_index c2 !! a = None) as Hn2.
  { rewrite Ei2. apply lookup_delete_None. right.
    destruct (cacheAvail_available c a s Hc Ha Hr) as (b & Hb & Hiff & _).
    assert (b = false) as -> by congruence. apply eq_None_not_Some. intros Hx.
    assert (false = true); [|done]. apply Hiff. by left. }
  assert (free_at c2 s way) as Hfree.
  { right. exists p, (set_Permission NotPresent e). unfold slot. rewrite Ec2, Eh2.
    split_and!; [apply Hfull|by rewrite lookup_insert_eq|done]. }
  assert (pos_ok (cfg c2) s way) as Hpos by (rewrite Eg2; apply Hix1).
  assert (fresh c2 entry) as Hfr2.
  { pose proof (fresh_ne c _ _ _ _ Hfr (proj1 Hfull)) as Hne. destruct Hfr as [Hx Hout].
    split; [rewrite Eh2, lookup_insert_ne by done; exact Hx|].
    intros s' w'. unfold slot. rewrite Ec2. apply Hout. }
  destruct (cacheAvail_available c2 a s Hc2 Ha2 Hr2) as (b2 & Hb2 & Hiff2 & _).
  assert (b2 = true) as -> by (apply Hiff2; right; eauto).
  destruct (proj1 Hfr2) as [e0 He0].
  destruct (allocate_new_spec assoc now c2 a s entry e0 Hc2 Ha2 Hr2 Hn2 Hfr2 He0)
    as (c3 & w3 & limit & Ea & Hp3 & Hf3 & _ & _ & Hi3); [eauto|].
  exists (m_Address e), c1, c2, c3. split_and!; try done; [by eapply inv_install|].
  intros b q. rewrite (install_present c2 c3 a s w3 entry _ b q Hc2 Hp3 Hf3 Hn2 Hi3) by done.
  rewrite (remove_present c1 c2 (m_Address e) s way p e b q Hc1 Hix1 Eg2 Ec2 Ei2).
  - rewrite <- (frame_present c c1 b q) by apply frame_policy. naive_solver.
  - intros r Hne. by rewrite Eh2, lookup_insert_ne.
Qed.

(** [deallocate] gives up exactly the line of its address: the index forgets
    the address, the line stays in its slot with permission NotPresent, an
    expired line is counted as collected, and no other address is affected; for
    an address without a line nothing happens. *)
Theorem deallocate_correct (c : t S) (a : Z) (Hc : inv c) (Ha : line_addr (cfg c) a) :
  ∃ c', deallocate c a = Ok c' ∧ inv c' ∧ m_tag_index c' = delete a (m_tag_index c) ∧
    (∀ b q, present c' b q ↔ b ≠ a ∧ present c b q) ∧
    (∀ set way p e, indexed c a set way p e → free_at c' set way ∧
       scalars (stats c') m_zombies_collected =
         scalars (stats c) m_zombies_collected + (if m_is_expired e then 1 else 0)).
Proof using PolicyLaws0.
  destruct (m_tag_index c !! a) as [x|] eqn:Ex.
  - destruct (inv_index c Hc _ _ Ex) as (set & way & p & e & Hix).
    destruct (deallocate_spec assoc c a set way p e Hc Ha Hix)
      as (c' & El & Hc' & Eg & Ec & Ei & Eh & Est & _).
    exists c'. split_and!; try done.
    + intros b q. apply (remove_present c c' a set way p e b q Hc Hix Eg Ec Ei).
      intros r Hr. by rewrite Eh, lookup_insert_ne.
    + intros s' w' p' e' Hix'.
      destruct (indexed_inj c Hc _ _ _ _ _ _ _ _ _ Hix Hix') as (<- & <- & <- & <-). split.
      * right. exists p, (set_Permission NotPresent e). unfold slot. rewrite Ec, Eh.
        split_and!; [apply Hix|by rewrite lookup_insert_eq|done].
      * rewrite Est. unfold collect. case_match; simpl; lia.
  - exists c. rewrite (deallocate_absent c a Hc Ha Ex). split_and!; try done.
    + by rewrite delete_id.
    + intros b q. split; [|tauto]. intros Hp. split; [|done].
      destruct Hp as (s & w & f & [] & _). congruence.
    + intros set way p e []. congruence.
Qed.

End Allocation.

(** Set 1 of the sample cache holds two lines, and a third object is ready. *)
Definition full_set_1 : list (Z * Op) := two_lines ++ [(1005, ONew 3 (newEntry 1005 0))].

Lemma full_set_1_good :
  ∃ c, sample_state 4 true true full_set_1 = Ok c ∧ good 2 c ∧ fresh c 3 ∧
    line_addr (cfg c) 2112 ∧ addressToCacheSet c 2112 = Ok 1 ∧ cacheAvail c 2112 = Ok false ∧
    (∀ p e, heap c !! p = Some e → getLastAccess e ≤ 5000) ∧
    (∀ p e, heap c !! p = Some e → line_addr (cfg c) (m_Address e)).
Proof.
  destruct (sample_good 4 true true full_set_1) as (c & Hs & Hg); [lia|done|by vm_compute|].
  exists c. split; [done|]. split; [done|].
  assert (legal (S := LRU.t) 5000 c (OAllocate 128 3)) as (_ & Hfr & _).
  { apply legalb_sound. on_sample Hs (λ c : t LRU.t, legalb 5000 c (OAllocate 128 3) = true). }
  assert (legal (S := LRU.t) 5000 c (OProbe 2112)) as (Ha & Hav & _ & Hold).
  { apply legalb_sound. on_sample Hs (λ c : t LRU.t, legalb 5000 c (OProbe 2112) = true). }
  split; [exact Hfr|]. split; [exact Ha|]. split.
  { on_sample Hs (λ c : t LRU.t, addressToCacheSet c 2112 = Ok 1). }
  split; [exact Hav|]. split; [exact Hold|].
  - intros p e. assert (bool_decide (map_Forall (λ _ e, Is_true (line_addrb (cfg c) (m_Address e)))
      (heap c)) = true) as Hall%bool_decide_eq_true.
    { on_sample Hs (λ c : t LRU.t, bool_decide (map_Forall
        (λ _ e, Is_true (line_addrb (cfg c) (m_Address e))) (heap c)) = true). }
    intros He. apply line_addrb_sound, Is_true_true, (Hall p e He).
Qed.

Lemma allocate_correct_witness :
  ∃ c e0, sample_state 4 true true full_set_1 = Ok c ∧ heap c !! 3%nat = Some e0 ∧
  ((∃ set way old e c' limit, indexed c 2112 set way old e ∧ cacheAvail c 2112 = Ok true ∧
     allocate 5000 c 2112 3 = Ok (old, c') ∧ inv c' ∧ zone_time (cfg c) set = Ok limit ∧
     heap c' = <[old := recycled 5000 limit e]> (delete 3%nat (heap c)) ∧
     m_cache c' = m_cache c ∧ m_tag_index c' = m_tag_index c) ∨
  (∃ s way c' limit, m_tag_index c !! 2112 = None ∧ cacheAvail c 2112 = Ok true ∧
     addressToCacheSet c 2112 = Ok s ∧ free_at c s way ∧
     (∀ j, 0 ≤ j < way → ∃ p f, full_at c s j p f) ∧
     allocate 5000 c 2112 3 = Ok (3%nat, c') ∧ inv c' ∧
     (if m_is_sttram (cfg c) then zone_time (cfg c) s = Ok limit else limit = 0) ∧
     indexed c' 2112 s way 3 (installed 5000 limit 2112 (handle (cfg c) s way) e0)) ∨
  (m_tag_index c !! 2112 = None ∧ cacheAvail c 2112 = Ok false ∧
     allocate 5000 c 2112 3 = Err EPanic)).
Proof.
  destruct full_set_1_good as (c & Hs & Hg & Hfr & Ha & _).
  destruct (proj1 Hfr) as [e0 He0]. exists c, e0. split; [done|]. split; [done|].
  apply (allocate_correct 2); [apply Hg|done..].
Defined.


Lemma miss_makes_progress_witness :
  ∃ c, sample_state 4 true true full_set_1 = Ok c ∧
  ∃ v c1 c2 c3, cacheProbe 5000 c 2112 = Ok (v, c1) ∧ deallocate c1 v = Ok c2 ∧
    cacheAvail c2 2112 = Ok true ∧ allocate 5000 c2 2112 3 = Ok (3%nat, c3) ∧ inv c3 ∧
    ∀ b q, present c3 b q ↔ (b = 2112 ∧ q = 3%nat) ∨ (b ≠ 2112 ∧ b ≠ v ∧ present c b q).
Proof.
  destruct full_set_1_good as (c & Hs & Hg & Hfr & Ha & Hr & Hav & Hold & Hl).
  exists c. split; [done|].
  apply (miss_makes_progress 2); [apply Hg|apply Hg|done| |done|done|lia|done].
  intros set way p e (_ & He & _). by eapply Hl.
Defined.

Lemma deallocate_correct_witness :
  ∃ c, sample_state 4 true true full_set_1 = Ok c ∧
  ∃ c', deallocate c 2112 = Ok c' ∧ inv c' ∧ m_tag_index c' = delete 2112 (m_tag_index c) ∧
    (∀ b q, present c' b q ↔ b ≠ 2112 ∧ present c b q) ∧
    (∀ set way p e, indexed c 2112 set way p e → free_at c' set way ∧
       scalars (stats c') m_zombies_collected =
         scalars (stats c) m_zombies_collected + (if m_is_expired e then 1 else 0)).
Proof.
  destruct full_set_1_good as (c & Hs & Hg & _ & Ha & _). exists c. split; [done|].
  apply (deallocate_correct 2); [apply Hg|done].
Defined.
