(* ===== verification/CacheRetention.v ===== *)
(** The properties of the cache that concern time: expiry of lines, renewal by
    writes, latencies, and the operations over all lines (transactions and the
    destructor). *)

From stdpp Require Import prelude gmap.
From Stdlib Require Import ZArith Lia.
From S2P Require Import Prelude Bits SatCounter Replacement ReplacementSpec Resources.
From S2P Require Import CacheEntry CacheMemory CacheGeometry CacheInv CacheInit.
From S2P Require Import CacheAlloc CacheProbe CacheRequests CacheSystem CacheProperties.

Import CacheMemory.
Open Scope Z_scope.

(** ** Expiry *)

(** C6. [lookup] finds the present line of an address, and marks it as expired
    exactly when more than its retention limit has passed since its last refresh
    and it is neither busy nor possibly stale; an expired line stays expired, and
    nothing else changes. *)
Theorem lookup_expires {S} `{ReplacementPolicy S} `{!PolicyInv S} (now : Z) (c : t S) (a : Z)
    (Hc : inv c) (Ha : line_addr (cfg c) a) :
  ((∀ p, ¬ present c a p) ∧ lookup now c a = Ok (None, c)) ∨
  ∃ p e c', present c a p ∧ heap c !! p = Some e ∧ lookup now c a = Ok (Some p, c') ∧ inv c' ∧
    m_cache c' = m_cache c ∧ m_tag_index c' = m_tag_index c ∧ policy c' = policy c ∧
    heap c' = <[p := setExpired (m_is_expired e ||
      negb (bool_decide (m_Permission e = Busy ∨ m_Permission e = Maybe_Stale))
      && (u64 (m_last_refresh_tick e + m_retention_limit e) <? now)) e]> (heap c).
Proof.
  destruct (lookup_spec now c a Hc Ha) as
    [?|(set & way & p & e & c' & Hix & Hp & El & Hc' & _ & Ec')]; [by left|right].
  pose proof (ix_heap _ _ _ _ _ _ Hix) as He.
  exists p, e, c'. split_and!; try done; [by exists set, way, e|..]; subst c'; try by case_match.
  assert (∀ b, m_is_expired e = b → <[p := setExpired b e]> (heap c) = heap c) as Hid.
  { intros b <-. apply insert_id. rewrite He. by destruct e. }
  unfold retention_over. destruct (m_is_expired e) eqn:Ee; simpl; [by rewrite Hid|].
  assert (negb (bool_decide (m_Permission e = Busy ∨ m_Permission e = Maybe_Stale))
    = negb (bool_decide (m_Permission e = Busy)) && negb (bool_decide (m_Permission e = Maybe_Stale)))
    as ->.
  { by destruct (m_Permission e). }
  match goal with |- context [if ?b then set_heap _ _ else _] => destruct b end; [done|by rewrite Hid].
Qed.

Lemma lookup_expires_witness :
  ∃ c, sample_state 4 true true two_lines = Ok c ∧
  (((∀ p, ¬ present c 64 p) ∧ lookup 20000 c 64 = Ok (None, c)) ∨
  ∃ p e c', present c 64 p ∧ heap c !! p = Some e ∧ lookup 20000 c 64 = Ok (Some p, c') ∧ inv c' ∧
    m_cache c' = m_cache c ∧ m_tag_index c' = m_tag_index c ∧ policy c' = policy c ∧
    heap c' = <[p := setExpired (m_is_expired e ||
      negb (bool_decide (m_Permission e = Busy ∨ m_Permission e = Maybe_Stale))
      && (u64 (m_last_refresh_tick e + m_retention_limit e) <? 20000)) e]> (heap c)).
Proof.
  destruct (sample_good 4 true true two_lines) as (c & Hs & Hg); [lia|done|by vm_compute|].
  exists c. split; [done|]. apply lookup_expires; [apply Hg|].
  apply line_addrb_sound. on_sample Hs (λ c : t LRU.t, line_addrb (cfg c) 64 = true).
Defined.

(** The expiry flag of the line [p] of a state. *)
Definition expired_flag (m : res (t LRU.t)) (p : ptr) : option bool :=
  match m with Ok c => m_is_expired <$> heap c !! p | Err _ => None end.


(** ** Renewal by writes *)



(** The set that holds the line of an address, and the line's limit against the
    retention time of that set's zone. *)
Definition limit_and_zone_time (m : res (t LRU.t)) (a : Z) (p : ptr) : option (Z * Z) :=
  match m with
  | Ok c => x ← m_tag_index c !! a; e ← heap c !! p;
      match zone_time (cfg c) (decode_set x) with
      | Ok tm => Some (m_retention_limit e, tm) | Err _ => None end
  | Err _ => None
  end.

(** After its page is redirected, a line that still sits in its old set of
    the highest zone (retention time 10000000) is given the limit 100000 of the
    zone the page is redirected to by the next data write, while a tag write
    gives it the time of the zone it is in. *)
Theorem data_write_takes_target_zone :
  limit_and_zone_time (sample_state 4 true true hot_page) 832 1 = Some (10000000, 10000000) ∧
  limit_and_zone_time
    (sample_state 4 true true (hot_page ++ [(2001, ORecord DataArrayWrite 832)])) 832 1
    = Some (100000, 10000000) ∧
  limit_and_zone_time
    (sample_state 4 true true (hot_page ++ [(2001, ORecord TagArrayWrite 832)])) 832 1
    = Some (10000000, 10000000).
Proof. split_and!; vm_compute; reflexivity. Qed.

(** ** Accesses *)

(** [tryCacheAccess] hits exactly when the line of the address is present and
    its permission allows the request: Read_Write for every request, Read_Only
    for loads and instruction fetches. A hit hands out the line's data; whether
    it hits or not, a present line becomes the most recently accessed. *)
Theorem access_permission {S} `{ReplacementPolicy S} `{!PolicyInv S} (assoc : nat)
    `{!PolicyLaws S assoc} (now : Z) (c : t S) (a : Z) (ty : RubyRequestType)
    (Hc : inv c) (Ha : line_addr (cfg c) a) :
  ((∀ p, ¬ present c a p) ∧ tryCacheAccess now c a ty = Ok (false, None, c)) ∨
  ∃ p e c' e', present c a p ∧ heap c !! p = Some e ∧ inv c' ∧ frame c c' ∧
    heap c' !! p = Some e' ∧ getLastAccess e' = now ∧
    tryCacheAccess now c a ty =
      Ok (if decide (m_Permission e = Read_Write ∨
                     m_Permission e = Read_Only ∧ (ty = RLD ∨ ty = RIFETCH))
          then (true, Some p, c') else (false, None, c')).
Proof.
  unfold tryCacheAccess.
  destruct (lookup_spec now c a Hc Ha) as
    [[Hn ->]|(set & way & p & e & c1 & Hix & Hp & -> & Hc1 & Hf1 & _)]; cbn [rbind]; [by left|right].
  pose proof (frame_slot _ _ set way Hf1) as Hs. rewrite (ix_slot _ _ _ _ _ _ Hix) in Hs.
  destruct (touch_line_spec assoc now c1 set way p Hc1 Hs) as (c2 & e1 & -> & Hc2 & Hf2 & He1 & He2).
  cbn [rbind]. rewrite (proj2 (deref_Ok _ _ _) He2). cbn [rbind].
  destruct (frame_entry _ _ _ _ Hf1 (ix_heap _ _ _ _ _ _ Hix)) as (e1' & He1' & Hi).
  assert (e1' = e1) as -> by congruence. unfold identity in Hi.
  exists p, e, c2, (setLastAccess now e1).
  split_and!; try done; [by exists set, way, e|apply Hix|by etransitivity|].
  change (m_Permission (setLastAccess now e1)) with (m_Permission e1).
  replace (m_Permission e1) with (m_Permission e) by congruence.
  repeat case_decide; naive_solver.
Qed.

Lemma access_permission_witness :
  ∃ c, sample_state 4 true true two_lines = Ok c ∧
  (((∀ p, ¬ present c 64 p) ∧ tryCacheAccess 3000 c 64 RST = Ok (false, None, c)) ∨
  ∃ p e c' e', present c 64 p ∧ heap c !! p = Some e ∧ inv c' ∧ frame c c' ∧
    heap c' !! p = Some e' ∧ getLastAccess e' = 3000 ∧
    tryCacheAccess 3000 c 64 RST =
      Ok (if decide (m_Permission e = Read_Write ∨
                     m_Permission e = Read_Only ∧ (RST = RLD ∨ RST = RIFETCH))
          then (true, Some p, c') else (false, None, c'))).
Proof.
  destruct (sample_good 4 true true two_lines) as (c & Hs & Hg); [lia|done|by vm_compute|].
  exists c. split; [done|]. apply (access_permission (PolicyLaws0 := LRU_laws 2 Nat.lt_0_2) 2); [apply Hg|].
  apply line_addrb_sound. on_sample Hs (λ c : t LRU.t, line_addrb (cfg c) 64 = true).
Defined.

(** The array a request goes to. *)
Definition array_of {S} (c : t S) (ty : CacheRequestType) : BankedArray.t :=
  if decide (ty = DataArrayRead ∨ ty = DataArrayWrite) then dataArray c else tagArray c.

(** The latency of an access: when the bank of the set is free it is the read
    or write latency of the set's retention zone for the array accessed; while
    the bank is busy it is the number of clock cycles, rounded up, until the bank
    is free. *)
Theorem latency_correct {S} `{ReplacementPolicy S} `{!PolicyInv S} (now : Z) (c : t S)
    (ty : CacheRequestType) (a s z free : Z) (l : LatencyType)
    (Hc : inv c) (Ha : line_addr (cfg c) a)
    (Hty : ty ∈ [DataArrayRead; DataArrayWrite; TagArrayRead; TagArrayWrite])
    (Hs : addressToCacheSet c a = Ok s) (Hz : getRetentionZone (cfg c) s = Ok z)
    (Hl : vget (m_retention_table (cfg c)) z = Ok l)
    (Hfree : BankedArray.getBankEndTime (array_of c ty) s = Ok free)
    (Hnow : 0 ≤ now) (Hend : free + clockPeriod (m_ruby_system (cfg c)) < 2 ^ 64) :
  ∃ n c', getRetentionLatency now c ty a = Ok (n, c') ∧ inv c' ∧ frame c c' ∧
    (free ≤ now → n = basic_latency l ty) ∧
    (now < free →
       (n - 1) * clockPeriod (m_ruby_system (cfg c)) < free - now
         ≤ n * clockPeriod (m_ruby_system (cfg c))).
Proof.
  pose proof (ok_clock _ (inv_arrays c Hc)) as Hclk.
  destruct (route_Ok c a Hc Ha) as (s' & Hs' & Hsr). assert (s' = s) as -> by congruence.
  pose proof (zone_range _ (inv_cfg c Hc) s z ltac:(lia) Hz) as Hzr.
  unfold getRetentionLatency. rewrite Hs. cbn [rbind]. rewrite Hz. cbn [rbind].
  rewrite (proj2 (Z.eqb_neq z (-1))), Hl by lia.
  assert (match ty with AtomicALUOperation | CacheRequestType_NUM => Ok 1
    | _ => rmap (λ l, basic_latency l ty) (Ok l) end = Ok (basic_latency l ty)) as -> by (by destruct ty).
  cbn [rbind].
  replace (match ty with DataArrayRead | DataArrayWrite => dataArray c | _ => tagArray c end)
    with (array_of c ty) by (by destruct ty).
  rewrite Hfree. cbn [rbind]. destruct (Z.ltb_spec now free) as [Hb|Hb].
  - rewrite u64_small by lia.
    destruct (divCeil_spec (free - now) (clockPeriod (m_ruby_system (cfg c)))) as (n & -> & Hn); [lia..|].
    cbn [rbind]. eexists n, _. split_and!; [done|by apply inv_count|apply frame_count|lia|done].
  - exists (basic_latency l ty), c. split_and!; try done; lia.
Qed.

Lemma latency_correct_witness :
  ∃ c l free, sample_state 4 true true two_lines = Ok c ∧
  ∃ n c', getRetentionLatency 1003 c DataArrayRead 64 = Ok (n, c') ∧ inv c' ∧ frame c c' ∧
    (free ≤ 1003 → n = basic_latency l DataArrayRead) ∧
    (1003 < free →
       (n - 1) * clockPeriod (m_ruby_system (cfg c)) < free - 1003
         ≤ n * clockPeriod (m_ruby_system (cfg c))).
Proof.
  destruct (sample_good 4 true true two_lines) as (c & Hs & Hg); [lia|done|by vm_compute|].
  exists c, (level 1), 0. split; [done|].
  apply (latency_correct 1003 c DataArrayRead 64 1 0 0 (level 1)); [apply Hg| |apply list_elem_of_here|..|lia|].
  - apply line_addrb_sound. on_sample Hs (λ c : t LRU.t, line_addrb (cfg c) 64 = true).
  - on_sample Hs (λ c : t LRU.t, addressToCacheSet c 64 = Ok 1).
  - on_sample Hs (λ c : t LRU.t, getRetentionZone (cfg c) 1 = Ok 0).
  - on_sample Hs (λ c : t LRU.t, vget (m_retention_table (cfg c)) 0 = Ok (level 1)).
  - on_sample Hs (λ c : t LRU.t, BankedArray.getBankEndTime (array_of c DataArrayRead) 1 = Ok 0).
  - on_sample Hs (λ c : t LRU.t, 0 + clockPeriod (m_ruby_system (cfg c)) < 2 ^ 64).
Defined.

(** ** Operations over all lines *)

(** The number of lines whose object satisfies [f]. *)
Fixpoint count_lines (f : Entry → bool) (h : store) (lines : list (option ptr)) : Z :=
  match lines with
  | [] => 0
  | None :: lines => count_lines f h lines
  | Some p :: lines =>
      (match h !! p with Some e => if f e then 1 else 0 | None => 0 end) + count_lines f h lines
  end.

Lemma count_lines_insert f h p e lines :
  Some p ∉ lines → count_lines f (<[p := e]> h) lines = count_lines f h lines.
Proof.
  induction lines as [|[q|] lines IH]; intros Hp; simpl; [done| |apply IH; set_solver].
  rewrite IH by set_solver. by rewrite lookup_insert_ne by set_solver.
Qed.

Lemma count_lines_bound f h lines : 0 ≤ count_lines f h lines ≤ zlen lines.
Proof. induction lines as [|[q|] lines IH]; simpl; repeat case_match; lia. Qed.

(** The loop of a transaction meets every line once, with its original
    contents. *)
Lemma htm_lines_exact f h lines r w :
  NoDup (omap id lines) → (∀ p, Some p ∈ lines → is_Some (h !! p)) →
  0 ≤ r → 0 ≤ w → r + zlen lines < 2 ^ 64 → w + zlen lines < 2 ^ 64 →
  ∃ h', htm_lines f h lines r w =
      Ok (r + count_lines getInHtmReadSet h lines, w + count_lines getInHtmWriteSet h lines, h') ∧
    ∀ p, h' !! p = if decide (Some p ∈ lines) then f <$> h !! p else h !! p.
Proof.
  revert h r w. induction lines as [|[p|] lines IH]; intros h r w Hnd Hl Hr Hw Hrb Hwb; simpl.
  - exists h. by rewrite !Z.add_0_r.
  - simpl in Hnd, Hrb, Hwb. apply NoDup_cons in Hnd as [Hp Hnd]. rewrite elem_of_pointers in Hp.
    destruct (Hl p) as [e He]; [set_solver|].
    rewrite (proj2 (deref_Ok _ _ _) He). cbn [rbind]. rewrite (update_lookup _ _ _ _ He).
    cbn [rbind]. rewrite He.
    destruct (IH (<[p := f e]> h) (r + (if getInHtmReadSet e then 1 else 0))
      (w + (if getInHtmWriteSet e then 1 else 0)) Hnd) as (h' & Hh & Hlk);
      [|repeat case_match; lia..|].
    { intros q Hq. rewrite lookup_insert_is_Some'. right. apply Hl. set_solver. }
    exists h'. rewrite !u64_small by (repeat case_match; lia). rewrite Hh.
    rewrite !count_lines_insert by done. rewrite <- !Z.add_assoc. split; [done|].
    intros q. rewrite Hlk. destruct (decide (q = p)) as [->|Hne].
    + rewrite decide_False, lookup_insert_eq, decide_True, He by set_solver. done.
    + rewrite lookup_insert_ne by done. repeat case_decide; set_solver.
  - simpl in Hrb, Hwb. destruct (IH h r w Hnd) as (h' & Hh & Hlk); [set_solver|lia..|].
    exists h'. split; [done|]. intros q. rewrite Hlk. repeat case_decide; set_solver.
Qed.

(** Committing a transaction samples the exact sizes of its read and write
    sets, counted over all lines, and leaves every line of the cache out of both
    sets and unlocked, with its address, permission and place unchanged. *)
Theorem htm_commit_correct {S} `{ReplacementPolicy S} `{!PolicyInv S} (c : t S)
    (Hc : inv c) (Hsize : zlen (concat (m_cache c)) < 2 ^ 64) :
  ∃ c', htmCommitTransaction c = Ok c' ∧ inv c' ∧ frame c c' ∧
    samples (stats c') htmTransCommitReadSet = samples (stats c) htmTransCommitReadSet ++
      [count_lines getInHtmReadSet (heap c) (concat (m_cache c))] ∧
    samples (stats c') htmTransCommitWriteSet = samples (stats c) htmTransCommitWriteSet ++
      [count_lines getInHtmWriteSet (heap c) (concat (m_cache c))] ∧
    ∀ set way p, slot c' set way = Ok (Some p) → ∃ e', heap c' !! p = Some e' ∧
      getInHtmReadSet e' = false ∧ getInHtmWriteSet e' = false ∧ m_locked e' = -1.
Proof.
  destruct (htmCommit_Ok c Hc) as (c' & E & Hc' & Hf). exists c'.
  split; [exact E|]. split; [exact Hc'|]. split; [exact Hf|].
  unfold htmCommitTransaction in E.
  destruct (htm_lines_exact htm_clear (heap c) (concat (m_cache c)) 0 0)
    as (h' & Hh & Hlk); [by apply inv_NoDup|intros p; by apply lines_live|lia..|].
  rewrite Hh in E. cbn [rbind] in E. injection E as <-. simpl.
  split; [done|]. split; [done|]. intros set way p Hs.
  change (slot c set way = Ok (Some p)) in Hs.
  destruct (inv_lines c Hc _ _ _ Hs) as (e & He & _).
  exists (htm_clear e). split; [|done]. rewrite Hlk, decide_True, He; [done|].
  apply concat_lines. eauto.
Qed.

Lemma htm_commit_correct_witness :
  ∃ c, sample_state 4 true true two_lines = Ok c ∧
  ∃ c', htmCommitTransaction c = Ok c' ∧ inv c' ∧ frame c c' ∧
    samples (stats c') htmTransCommitReadSet = samples (stats c) htmTransCommitReadSet ++
      [count_lines getInHtmReadSet (heap c) (concat (m_cache c))] ∧
    samples (stats c') htmTransCommitWriteSet = samples (stats c) htmTransCommitWriteSet ++
      [count_lines getInHtmWriteSet (heap c) (concat (m_cache c))] ∧
    ∀ set way p, slot c' set way = Ok (Some p) → ∃ e', heap c' !! p = Some e' ∧
      getInHtmReadSet e' = false ∧ getInHtmWriteSet e' = false ∧ m_locked e' = -1.
Proof.
  destruct (sample_good 4 true true two_lines) as (c & Hs & Hg); [lia|done|by vm_compute|].
  exists c. split; [exact Hs|]. apply htm_commit_correct; [apply Hg|].
  on_sample Hs (λ c : t LRU.t, zlen (concat (m_cache c)) < 2 ^ 64).
Defined.


